(* ===== verification/_CoqProject ===== *)
-Q . S2P
Prelude.v
Text.v
Chrono.v
ConfigVersion.v
StateHandler.v
Queue.v
Processor.v
StateTable.v
Drain.v
Cluster.v
WorkLock.v
Enqueuer.v
Bytes.v
Dhcpv6.v
BTree.v
HealthReport.v
AggregateHealth.v
HardwareId.v
IpNetwork.v
IpAllocator.v
PrefixAllocator.v
IpPrefix.v
IpSet.v
ResourcePool.v
PoolDefs.v
NetworkSegment.v
VpcPrefix.v
PrefixAllocation.v
PrefixBatch.v
PrefixPlan.v
PrefixNetworks.v
IbPartition.v
VpcPrefixCreate.v
Interleave.v
CredentialRotation.v
RotateCredential.v
SiteExplorer.v
RotationSystem.v
RotationTicks.v
RotationExplore.v
RotationRequests.v
RotationTheorems.v
RotationOutcomes.v
RotationExamples.v
ExplorationPlan.v
ExplorerPause.v
PauseTheorems.v
PauseExamples.v
