(* ===== verification/Prelude.v ===== *)
(** * NICo: a verification library of the infra controller's core

    NICo provisions and manages bare-metal hosts. Its core is a set of controllers
    that move objects (network segments, VPC prefixes, InfiniBand partitions, ...)
    through state machines kept in one PostgreSQL database, and an API that creates
    and marks those objects and allocates shared resources for them. Several
    replicas run at once, every call can fail, and only the database is shared.
    This library models that core as executable definitions and proves what makes
    it correct: that replicas exclude each other, that an attempt commits all or
    nothing, that resources have one owner, that nothing is deleted while in use,
    that deletion completes, and that the decoders, identifiers, sets of addresses
    and reports compute what they are meant to.

    ** How the parts interact

    An enqueuer ([Enqueuer]) lists the objects of a controller, under a lease
    ([WorkLock]), and puts their ids into a queue table ([Queue]). Processors
    ([Cluster]) claim ids from the queue and run one attempt for each
    ([Processor]): load the object, call the handler of the controller
    ([StateHandler] is the contract between the two), and persist the new state,
    the history and the outcome. The tables of all controllers have the same shape
    ([StateTable]). The handlers are in [NetworkSegment], [VpcPrefix] and
    [IbPartition]; the first two follow a draining protocol ([Drain]). They release
    values to, and the API takes values from, resource pools ([ResourcePool],
    filled by [PoolDefs]). The API allocates prefixes for the interfaces of
    instances ([PrefixAllocation]) out of VPC prefixes; addresses of segments come
    from [IpAllocator].

    Beside them the passwords of BMCs are kept in a credential store, in two tables
    ([CredentialRotation]) and on the devices. The explorer ([SiteExplorer]) moves a
    new BMC from its factory password to the one of the site and enrols it; the API
    stages the next site-wide password and publishes it as the target; the engine,
    in ticks of the controllers, moves each device to the target
    ([RotateCredential] has both). None of these steps is atomic over the three.
    While a controller changes a password it keeps the explorer off the BMC with a
    request that a run of the explorer acknowledges ([ExplorerPause]); which of the
    other endpoints a run probes is its plan ([ExplorationPlan]).

    ** Conventions

    - Paths are below src/. A definition has the name of the function or type it
      translates where that is possible.
    - [Result] is [result] with [?] as its bind. A computation that may panic has
      [option], [outcome] of [Bytes] or a constructor for the panic; overflow
      checks are on, as in the release profile.
    - A database is a record of tables, a table a map from keys to rows, and a
      transaction the database it would commit. A statement keeps the columns that
      the modelled code reads or writes, with the constraints of the schema.
    - What is outside is an argument: the clock, random choices ([pick]), rows that
      other transactions have locked ([locked]), what others commit in between
      ([others], [race], [seen]), and whether a call succeeds ([ev], [fault]). The
      theorems quantify over them.
    - Code whose calls interleave with those of others is a program of [Interleave]:
      a tree of calls, each of which acts on the shared world, with a reply, with an
      error and no effect, or with an effect and no reply, and after each of which
      the program may stop for good. [Interleave.safe] is a logic for such programs
      (an invariant, what others may do, what the program may do).
    - Crates that are dependencies are classes with their documented behaviour as
      laws, each with an instance that meets them: [Chrono] (chrono),
      [IpNetworkCrate] (ipnetwork), [IpnetCrate] (ipnet), [AddrText] (std::net and
      ipnetwork texts),
      [Dhcproto] (dhcproto, which may panic; [DhcprotoSafe] says on what it does not),
      base 32 and SHA-256 in [HardwareId]. The fabric manager
      of [IbPartition] is a record of answers without laws.
    - Each component ends with a module of examples that instantiates the theorems
      that have hypotheses.

    ** Files

    Shared: this file (results, tactics, lemmas on lists, maps and numbers), [Text]
    (str and integer formatting), [Bytes] (slices and panics), [BTree] (ordered maps
    and sets), [Chrono].

    The controller framework:
    - [ConfigVersion]: crates/config-version/src/lib.rs. The versions that guard
      writes: increments, text and parser, ages.
    - [StateHandler]: crates/state-controller/src/state_handler.rs,
      conditional_write.rs and db_write_batch.rs. Errors, outcomes, conditional
      writes.
    - [Queue]: controller/db.rs. The table of queued objects and of iterations.
    - [Processor]: [process_object] of controller/processor.rs over the class
      [StateControllerIO] (io.rs); [GuardedIO] is what a controller's tables promise.
    - [StateTable]: the statements that the tables of controllers share, once, with
      the proof that they are guarded.
    - [Cluster]: the processor loop (claim, dispatch, collect, finalize, drain) and
      the step relation of any number of processors and enqueuers on one queue.
    - [WorkLock]: crates/api-db/src/work_lock_manager.rs. Leases, the manager's
      command queue, fencing; a step relation of managers and transactions.
    - [Enqueuer]: controller/enqueuer.rs and periodic_enqueuer.rs.

    Networks:
    - [IpNetwork], [IpPrefix], [IpSet]: crates/network/src/ip. Addresses, prefixes,
      and sets of addresses kept as ordered sets of prefixes.
    - [IpAllocator]: crates/api-db/src/ip_allocator.rs. Free subnets of a segment.
    - [PrefixAllocator]: crates/api-core/src/network_segment/allocate.rs and the
      statistics of crates/api-db/src/vpc_prefix.rs.
    - [NetworkSegment]: crates/network-segment-controller and its statements.
    - [VpcPrefix]: crates/vpc-prefix-controller, the tables of VPC prefixes and
      network prefixes with their constraints, and the statements on them.
    - [VpcPrefixCreate]: [create] of crates/api-core/src/handlers/vpc_prefix.rs from
      its search for overlapping network prefixes on, which the new VPC prefix takes
      over.
    - [PrefixAllocation]: [allocate_networks] of crates/api-core/src/instance/mod.rs.
      Its proofs are in [PrefixBatch] (execution), [PrefixPlan] (planning) and
      [PrefixNetworks] (the theorems on the whole).
    - [ResourcePool], [PoolDefs]: crates/api-db/src/resource_pool.rs.
    - [IbPartition]: crates/ib-partition-controller, crates/api-db/src/ib_partition.rs
      and crates/api-core/src/handlers/ib_partition.rs.

    Credentials:
    - [Interleave]: programs, their interleaved execution and the logic.
    - [CredentialRotation]: crates/api-db/src/credential_rotation.rs, and the gate
      and ticks of crates/credential-rotation/src/lib.rs.
    - [RotateCredential]: the credential store (crates/secrets), the requests to a
      BMC (crates/redfish), the engine of crates/credential-rotation/src/lib.rs and
      [rotate_credential] of crates/api-core/src/handlers/credential_rotation.rs.
    - [SiteExplorer]: the credentials of crates/site-explorer
      (bmc_endpoint_explorer.rs, credentials.rs, redfish.rs).
    - [RotationSystem]: who may run with whom, and the invariant of a site. That
      ticks and explorations of one device exclude each other is what
      [mutual_exclusion], the endpoint locks and an acknowledged pause give
      ([pause_keeps_runs_out], with the gaps named there); it is assumed here.
      [RotationTicks], [RotationExplore] and [RotationRequests] prove the programs,
      [RotationTheorems] and [RotationOutcomes] the theorems, [RotationExamples]
      their instances and the defects.
    - [ExplorationPlan]: crates/api-db/src/explored_endpoints.rs, [plan_explorations]
      and [allocate] of crates/site-explorer/src/lib.rs with the index of
      explored_endpoint_index.rs, and what [update_explored_endpoints] writes.
    - [ExplorerPause]: crates/api-db/src/bmc_suppression.rs,
      crates/credential-rotation/src/site_explorer_pause.rs, the endpoint locks, runs
      ([explore_site]) and refreshes (endpoint_exploration_service.rs) of
      crates/site-explorer, a run with its probes and with the requests to BMCs that
      remediation and ingestion make. [PauseTheorems] proves runs, refreshes and
      controllers that work at once; [PauseExamples] has the instances and the gaps.

    Data:
    - [Dhcpv6]: crates/dhcpv6/src/lib.rs.
    - [HealthReport]: crates/health-report/src/lib.rs; [AggregateHealth]: health.rs
      and the aggregates of crates/api-model.
    - [HardwareId]: crates/uuid and the derivation of identifiers in crates/api-model.

    ** What the theorems show

    - Exclusion: [mutual_exclusion] (no object is handled by two tasks at once while
      no attempt outlives its claim; [lost_finalize_reply_breaks_exclusion] shows
      that a reply lost during finalization breaks it, where the same steps with the
      reply do not), [lease_exclusive] and
      [fence_excludes_takeover] (leases), [allocation_exclusive] (pool values).
    - Attempts: [process_object_atomic], [process_object_invalidated] (with
      [process_object_records_error] and [process_object_above_sla]) say what an
      attempt commits for every way its calls can end, and [transition_iff_current]
      that a transition is committed, as a whole, exactly when the row of the object
      still has the version that was loaded.
    - Deletion: [segment_attempt_safe], [drained_before_delete],
      [vpc_prefix_drained_before_delete] and [partition_removed_safely] (nothing that
      is in use goes), [marked_segment_is_deleted], [marked_vpc_prefix_is_deleted]
      and [marked_partition_is_deleted] (undisturbed attempts finish).
    - Passwords: [password_never_lost] (whatever stops, an enrolled BMC accepts a
      password the site knows), [complete_rotation_is_honest] (a rotation that reads
      as complete is complete), [staged_secrets_stay] (what a request staged is
      never overwritten), [tick_converges_iff] (when an undisturbed tick succeeds).
      Defects: [advanced_target_strands_device], [cut_off_enrolment_is_missed],
      [first_dpus_lose_service_password], [out_of_band_password_stays].
    - Pauses: [pause_keeps_runs_out] (no run contacts a BMC while its credentials
      change under an acknowledged request, and nobody is cut short by an
      acknowledgement), [pause_is_granted] (one undisturbed run acknowledges). A
      refresh can pass an acknowledged request ([refresh_slips_past_pause]), and a
      long run the budget of the controller ([run_outlasts_pause]).
    - Plans: [exploration_is_fair] (an endpoint is passed over by a bounded number of
      runs, given by the budget and the number of older reports), with
      [allocate_shares] on the tiers.
    - Tables: [create_adopts] (when a VPC prefix can be created, and which network
      prefixes it takes over), [partition_keys_reserved], [reconcile_additive].
    - Allocation of instance networks: [allocate_networks_resolves],
      [allocate_networks_fails_cleanly], [allocation_deadlock_free],
      [allocate_candidate_exact], [next_free_prefix_spec], [capacity_exact].
    - Addresses: [ipset_refines] and [aggregate_prefixes_canonical] (the set
      operations on prefixes are those on addresses, in canonical form),
      [next_available_prefix_spec], [next_avoids_unavailable], [num_free_exact], and
      [collapse_hands_out_used_address], a defect of the allocator.
    - Data: [decode_relay_exact], [decode_client_message_exact] and [decode_returns]
      (the decoder accepts exactly the valid packets, and returns on all),
      [merge_spec], [aggregate_health_exact] and [usable_is_reported] (health),
      [device_id_exact], [subtypes_typed] and [version_string_roundtrip] (texts).

    ** Bounds and fuel

    - [IpSet]: merging goes up at most one level per bit of an address, so its fuel
      of 130 exceeds the 128 levels.
    - [PrefixAllocation.drain_pending]: every turn either finishes a work item or
      moves it to its next candidate, so one more than the number of candidates is
      enough; running out is an internal error that [allocate_networks_fails_cleanly]
      excludes.
    - [IbPartition.hex]: a key below 2^15 has at most four hexadecimal digits.
    - Loops over bytes and chunks take the length of their input as fuel.
    Each bound is proved to be enough where its theorem says that a result is produced.

    ** Not modelled

    Of the explorer: what a conversation with a BMC says, and how machines are made
    of reports; of the repair of BMCs and of ingestion only the requests to BMCs are
    modelled, in any number. Of the creation of VPC prefixes: the checks of the site
    prefix, of routing and of peering that come first.
    Of the credentials: the change of NVOS, UEFI and lockdown passwords (jobs of
    other services; the tables of the former are modelled), the stores behind the
    credential manager, and what an exploration reports. The password an operator
    sets and the removal of one are defined, but are not steps of the system of
    [RotationSystem]: they replace a password by one the site does not know.
    The other controllers (machines, racks, switches, power shelves, attestation,
    extension services) are conversations with BMCs, agents and services whose
    answers decide every step. The agents, DHCP, DNS, PXE and console servers, the
    clients of Redfish, UFM, NMX and Vault, messaging and telemetry are input and
    output. The remaining database functions and API handlers are single statements
    around data with derived serialisation. Of the modelled components, metrics,
    logs, call-site locations, texts of some errors and searches for display are
    left out. Isolation of the database is modelled by the rows a transaction locks
    and by what others commit between its steps, not by PostgreSQL's snapshots. *)

From stdpp Require Export base tactics option list numbers strings gmap sorting.
From Stdlib Require Export ZArith Lia.

#[global] Open Scope Z_scope.
#[global] Set Default Goal Selector "!".
#[global] Set Warnings "-clear-no-such-hyp".

(** ** Results

    [Result<A, E>] of the source. The bind is the [?] operator: the first error
    ends the computation. *)
Inductive result (E A : Type) : Type :=
| Ok (a : A)
| Err (e : E).
Arguments Ok {E A} a.
Arguments Err {E A} e.

#[global] Instance result_ret {E} : MRet (result E) := fun A a => Ok a.
#[global] Instance result_bind {E} : MBind (result E) :=
  fun A B f m => match m with Ok a => f a | Err e => Err e end.
#[global] Instance result_fmap {E} : FMap (result E) :=
  fun A B f m => match m with Ok a => Ok (f a) | Err e => Err e end.

Definition map_err {E F A} (f : E -> F) (m : result E A) : result F A :=
  match m with Ok a => Ok a | Err e => Err (f e) end.
Definition ok_or {E A} (e : E) (o : option A) : result E A :=
  match o with Some a => Ok a | None => Err e end.
Definition is_ok {E A} (m : result E A) : bool :=
  match m with Ok _ => true | Err _ => false end.

#[global] Instance result_eq_dec {E A} `{EqDecision E, EqDecision A} : EqDecision (result E A).
Proof. solve_decision. Defined.

(** A computation that succeeds succeeded in every step. *)
Lemma bind_ok {E A B} (m : result E A) (f : A -> result E B) b :
  (x ← m; f x) = Ok b -> exists a, m = Ok a /\ f a = Ok b.
Proof. destruct m; simpl; [eauto|done]. Qed.

(** One that fails failed in some step. *)
Lemma bind_err {E A B} (m : result E A) (f : A -> result E B) e :
  (x ← m; f x) = Err e -> m = Err e \/ exists a, m = Ok a /\ f a = Err e.
Proof. destruct m; simpl; [eauto|]. intros [= ->]. by left. Qed.

Lemma mapM_err {E A B} (f : A -> result E B) l e : mapM f l = Err e -> exists x, x ∈ l /\ f x = Err e.
Proof.
  induction l as [|x l IH]; [done|]. cbn [mapM].
  intros [H|(y & _ & [H|(k & _ & H)]%bind_err)]%bind_err; [|destruct (IH H) as (z & ? & ?)|done].
  - exists x. set_solver.
  - exists z. set_solver.
Qed.

(** ** Tactics *)

(** Case analysis on the first [match] or [if] of the goal or of a hypothesis,
    keeping the equation. *)
Ltac split_match :=
  match goal with
  | |- context [ match ?x with _ => _ end ] => destruct x eqn:?
  | H : context [ match ?x with _ => _ end ] |- _ => destruct x eqn:?
  end.
Ltac split_matches := repeat (split_match; simplify_eq/=).

(** Case analysis on an innermost [match] of hypothesis [H]. *)
Ltac split_inner H :=
  match type of H with
  | context [ match ?x with _ => _ end ] =>
      lazymatch x with
      | context [ match _ with _ => _ end ] => fail
      | _ => destruct x eqn:?; simplify_eq/=
      end
  end.

(** ** Hints

    [nico] collects the lemmas that close the routine goals of the components;
    [nico_simpl] the equations used from left to right. *)
Create HintDb nico discriminated.
#[global] Hint Extern 1 (_ < _) => lia : nico.
#[global] Hint Extern 1 (_ <= _) => lia : nico.

(** ** [slice::chunks] *)
Fixpoint chunks_fuel {A} (fuel n : nat) (l : list A) : list (list A) :=
  match fuel, l with
  | S fuel, _ :: _ => take n l :: chunks_fuel fuel n (drop n l)
  | _, _ => []
  end.
Definition chunks {A} (n : nat) (l : list A) : list (list A) := chunks_fuel (length l) n l.

Lemma concat_chunks_fuel {A} fuel n (l : list A) :
  (0 < n)%nat -> (length l <= fuel)%nat -> concat (chunks_fuel fuel n l) = l.
Proof.
  intros Hn. revert l; induction fuel as [|fuel IH]; intros [|x l] Hl; simpl in *; try done; [lia|].
  rewrite IH; [apply take_drop|]. rewrite length_drop. simpl. lia.
Qed.

Lemma concat_chunks {A} n (l : list A) : (0 < n)%nat -> concat (chunks n l) = l.
Proof. intros Hn. by apply concat_chunks_fuel. Qed.

(** A fold over chunks that folds each chunk is the fold over the whole list. *)
Lemma fold_left_chunks {A B} (f : B -> A -> B) n (l : list A) (b : B) :
  (0 < n)%nat -> fold_left (fun acc c => fold_left f c acc) (chunks n l) b = fold_left f l b.
Proof.
  intros Hn. rewrite <- (concat_chunks n l) at 2 by done.
  generalize (chunks n l). intros cs. revert b.
  induction cs as [|c cs IH]; intros b; simpl; [done|]. by rewrite fold_left_app, IH.
Qed.

(** ** Lists *)

Lemma NoDup_fmap_elem_inj {A B} (f : A -> B) (l : list A) x y :
  NoDup (f <$> l) -> x ∈ l -> y ∈ l -> f x = f y -> x = y.
Proof.
  intros Hn [i Hi]%list_elem_of_lookup [j Hj]%list_elem_of_lookup E.
  assert (i = j) as ->; [|congruence].
  eapply NoDup_lookup; [exact Hn| |]; rewrite list_lookup_fmap; [by rewrite Hi|by rewrite Hj, E].
Qed.

Lemma existsb_fmap {A B} (f : A -> B) (p : B -> bool) (l : list A) :
  existsb p (f <$> l) = existsb (fun x => p (f x)) l.
Proof. induction l as [|x l IH]; csimpl; [done|]. by rewrite IH. Qed.

(** Two places of a sublist are two places of the list. *)
Lemma filter_shorter {A} (P Q : A -> Prop) `{!forall x, Decision (P x), !forall x, Decision (Q x)} (l : list A) a :
  (forall x, P x -> Q x) -> a ∈ l -> Q a -> ~ P a -> (length (filter P l) < length (filter Q l))%nat.
Proof.
  intros HPQ Ha HQ HP. assert (Hle : forall l, (length (filter P l) <= length (filter Q l))%nat).
  { intros k. induction k as [|x k IH]; [done|]. rewrite !filter_cons. repeat case_decide; simpl; try lia. naive_solver. }
  induction l as [|x l IH]; [by apply elem_of_nil in Ha|]. rewrite !filter_cons.
  apply elem_of_cons in Ha as [<-|Ha].
  - rewrite decide_False, decide_True by done. simpl. specialize (Hle l). lia.
  - specialize (IH Ha). repeat case_decide; simpl; try lia. naive_solver.
Qed.

(** What one element of a fold brings about and the others keep. *)
Lemma fold_left_reach {A B} (f : A -> B -> A) (P : A -> Prop) (b : B) (l : list B) (a : A) :
  b ∈ l -> (forall a b, P a -> P (f a b)) -> (forall a, P (f a b)) -> P (fold_left f l a).
Proof.
  intros Hb Hkeep Hnew. revert a.
  assert (Hmono : forall l a, P a -> P (fold_left f l a)) by (clear -Hkeep; induction l; simpl; auto).
  induction l as [|c l IH]; intros a; [by apply elem_of_nil in Hb|]. simpl.
  apply elem_of_cons in Hb as [->|Hb]; auto.
Qed.

Lemma sublist_pair {A} (l k : list A) i j x y :
  l `sublist_of` k -> l !! i = Some x -> l !! j = Some y -> i <> j ->
  exists i' j', k !! i' = Some x /\ k !! j' = Some y /\ i' <> j'.
Proof.
  intros Hs. revert i j. induction Hs as [|z l k Hs IH|z l k Hs IH]; intros i j Hx Hy Hne; [done|..].
  - destruct i as [|i], j as [|j]; simplify_eq/=.
    + apply list_elem_of_lookup_2, (sublist_subseteq _ _ Hs), list_elem_of_lookup_1 in Hy as [j' Hj].
      by exists 0%nat, (S j').
    + apply list_elem_of_lookup_2, (sublist_subseteq _ _ Hs), list_elem_of_lookup_1 in Hx as [i' Hi].
      by exists (S i'), 0%nat.
    + destruct (IH i j) as (i' & j' & ? & ? & ?); [done..|lia|]. exists (S i'), (S j'). split_and!; try done. lia.
  - destruct (IH i j) as (i' & j' & ? & ? & ?); [done..|]. exists (S i'), (S j'). split_and!; try done. lia.
Qed.

(** Blocks of one length can be told apart in their concatenation. *)
Lemma concat_blocks_inj {A B C} (f : A -> list C) (g : B -> list C) n l1 l2 :
  (forall x, length (f x) = n) -> (forall x, length (g x) = n) -> length l1 = length l2 ->
  concat (f <$> l1) = concat (g <$> l2) -> f <$> l1 = g <$> l2.
Proof.
  intros Hf Hg. revert l2. induction l1 as [|x l1 IH]; intros [|y l2] Hl; simplify_eq/=; [done|].
  intros E. apply app_inj_1 in E as [E1 E2]; [|by rewrite Hf, Hg]. by rewrite E1, (IH l2).
Qed.

(** ** Loops

    A loop whose number of turns is bounded by a binary number: it stops as soon
    as its body returns, so a generous bound costs nothing. *)
Section Loop.
Context {A R : Type} (body : A -> A + R).

Fixpoint nat_loop (n : nat) (s : A) : A + R :=
  match n with
  | O => inl s
  | S n => match body s with inl s' => nat_loop n s' | inr r => inr r end
  end.

Fixpoint pos_loop (p : positive) (s : A) : A + R :=
  match p with
  | xH => body s
  | xO p => match pos_loop p s with inl s' => pos_loop p s' | inr r => inr r end
  | xI p => match body s with
            | inl s' => match pos_loop p s' with inl s'' => pos_loop p s'' | inr r => inr r end
            | inr r => inr r
            end
  end.

Lemma nat_loop_add n m s :
  nat_loop (n + m) s = match nat_loop n s with inl s' => nat_loop m s' | inr r => inr r end.
Proof.
  revert s. induction n as [|n IH]; intros s; simpl; [done|]. by destruct (body s).
Qed.

Lemma pos_loop_nat p s : pos_loop p s = nat_loop (Pos.to_nat p) s.
Proof.
  revert s. induction p as [p IH|p IH|]; intros s; cbn [pos_loop].
  - replace (Pos.to_nat p~1) with (S (Pos.to_nat p + Pos.to_nat p)) by lia. cbn [nat_loop].
    destruct (body s) as [s'|]; [|done].
    rewrite nat_loop_add, IH. by destruct (nat_loop (Pos.to_nat p) s').
  - replace (Pos.to_nat p~0) with (Pos.to_nat p + Pos.to_nat p)%nat by lia.
    rewrite nat_loop_add, IH. by destruct (nat_loop (Pos.to_nat p) s).
  - change (Pos.to_nat 1) with 1%nat. simpl. by destruct (body s).
Qed.
End Loop.
