(* ===== verification/Text.v ===== *)
(** * Text: the parts of Rust's [str] and integer formatting the components use

    [str::trim], [str::split], [u64::from_str] and [Display] of integers, on
    ASCII text (one [ascii] per byte). The identifiers and version strings the
    controllers exchange are ASCII. *)

From S2P Require Import Prelude.
From Stdlib Require Import Ascii Decimal DecimalString DecimalN DecimalFacts.

(** ** Characters *)

(** Every character of [s] satisfies [p]. *)
Fixpoint all_chars (p : ascii -> bool) (s : string) : bool :=
  match s with
  | EmptyString => true
  | String c s => p c && all_chars p s
  end.

Definition is_digit (c : ascii) : bool :=
  (48 <=? N_of_ascii c)%N && (N_of_ascii c <=? 57)%N.

(** ASCII part of [char::is_whitespace]. *)
Definition is_whitespace (c : ascii) : bool :=
  let n := N_of_ascii c in ((9 <=? n)%N && (n <=? 13)%N) || (n =? 32)%N.

(** ** [str::trim] *)
Fixpoint trim_start (s : string) : string :=
  match s with
  | String c s' => if is_whitespace c then trim_start s' else s
  | EmptyString => EmptyString
  end.
Fixpoint trim_end (s : string) : string :=
  match s with
  | EmptyString => EmptyString
  | String c s' =>
      match trim_end s' with
      | EmptyString => if is_whitespace c then EmptyString else String c EmptyString
      | r => String c r
      end
  end.
Definition trim (s : string) : string := trim_end (trim_start s).

(** ** [str::split] on a character *)
Fixpoint split_on (sep : ascii) (s : string) : list string :=
  match s with
  | EmptyString => [EmptyString]
  | String c s' =>
      if Ascii.eqb c sep then EmptyString :: split_on sep s'
      else match split_on sep s' with
           | w :: ws => String c w :: ws
           | [] => [String c EmptyString]
           end
  end.

(** ** [str::to_lowercase] of ASCII text *)
Definition lower_char (c : ascii) : ascii :=
  let n := N_of_ascii c in
  if ((65 <=? n) && (n <=? 90))%N then ascii_of_N (n + 32) else c.
Fixpoint to_lowercase (s : string) : string :=
  match s with EmptyString => EmptyString | String c s => String (lower_char c) (to_lowercase s) end.

(** ** Integers *)

(** [Display] of a non-negative integer. *)
Definition show_N (n : N) : string := NilZero.string_of_uint (N.to_uint n).

(** [Display] of a signed integer. *)
Definition show_Z (z : Z) : string :=
  if z <? 0 then String "-" (show_N (Z.to_N (- z))) else show_N (Z.to_N z).

(** [uN::from_str] with [bound = 2^N]: an optional [+], then at least one digit;
    a value outside the type is an error. *)
Definition parse_uint (bound : N) (s : string) : option N :=
  let s := match s with String "+" s' => s' | _ => s end in
  match NilZero.uint_of_string s with
  | Some u => let n := N.of_uint u in if (n <? bound)%N then Some n else None
  | None => None
  end.

(** A string between double quotes (character 34). *)
Definition quoted (s : string) : string := String "034" s +:+ String "034" "".

(** ** Lemmas *)

Lemma string_app_assoc (s t u : string) : s +:+ (t +:+ u) = (s +:+ t) +:+ u.
Proof. induction s as [|c s IH]; [done|]. exact (f_equal (String c) IH). Qed.

Lemma all_chars_app p s1 s2 :
  all_chars p (s1 +:+ s2) = all_chars p s1 && all_chars p s2.
Proof. induction s1 as [|c s1 IH]; simpl; [done|]. by rewrite IH, andb_assoc. Qed.

Lemma all_chars_impl (p q : ascii -> bool) s :
  (forall c, p c = true -> q c = true) -> all_chars p s = true -> all_chars q s = true.
Proof.
  intros Hpq. induction s as [|c s IH]; simpl; [done|].
  intros [??]%andb_prop. rewrite Hpq, IH; done.
Qed.

(** A string without whitespace at either end is its own [trim]. *)
Lemma trim_id s : all_chars (fun c => negb (is_whitespace c)) s = true -> trim s = s.
Proof.
  unfold trim. intros Hs.
  assert (trim_start s = s) as ->.
  { destruct s as [|c s]; simpl in *; [done|]. by destruct (is_whitespace c). }
  induction s as [|c s IH]; simpl in *; [done|].
  apply andb_prop in Hs as [Hc Hs]. rewrite IH by done.
  destruct s; [|done]. by destruct (is_whitespace c).
Qed.

Lemma split_on_no_sep sep s :
  all_chars (fun c => negb (Ascii.eqb c sep)) s = true -> split_on sep s = [s].
Proof.
  induction s as [|c s IH]; simpl; [done|]. intros [Hc Hs]%andb_prop.
  rewrite IH by done. by destruct (Ascii.eqb c sep).
Qed.

Lemma split_on_app sep s1 s2 :
  all_chars (fun c => negb (Ascii.eqb c sep)) s1 = true ->
  split_on sep (s1 +:+ String sep s2) = s1 :: split_on sep s2.
Proof.
  induction s1 as [|c s1 IH]; simpl.
  - intros _. by rewrite Ascii.eqb_refl.
  - intros [Hc Hs]%andb_prop. rewrite IH by done. by destruct (Ascii.eqb c sep).
Qed.

Lemma all_digits_string_of_uint u : all_chars is_digit (NilEmpty.string_of_uint u) = true.
Proof. by induction u; simpl. Qed.

Lemma show_N_digits n : all_chars is_digit (show_N n) = true.
Proof.
  unfold show_N, NilZero.string_of_uint.
  destruct (N.to_uint n) eqn:E; try (rewrite <- E; apply all_digits_string_of_uint); done.
Qed.

Lemma show_N_no_plus n s : show_N n <> String "+" s.
Proof. intros E. pose proof (show_N_digits n) as H. rewrite E in H. done. Qed.

(** Printing a number and parsing it back is the identity within the bound. *)
Lemma parse_show_N bound n : (n < bound)%N -> parse_uint bound (show_N n) = Some n.
Proof.
  intros Hn. unfold parse_uint.
  replace (match show_N n with String "+" s' => s' | _ => show_N n end) with (show_N n).
  - unfold show_N. rewrite NilZero.usu.
    + rewrite Unsigned.of_to. by apply N.ltb_lt in Hn as ->.
    + intros E. pose proof (Unsigned.of_to n) as H. rewrite E in H. subst n. done.
  - pose proof (show_N_no_plus n) as Hp. destruct (show_N n) as [|c s]; [done|].
    destruct c as [[] [] [] [] [] [] [] []]; try done. by destruct (Hp s).
Qed.

(** Numbers are printed without separators, signs or whitespace. *)
Lemma show_N_all (p : ascii -> bool) n :
  (forall c, is_digit c = true -> p c = true) -> all_chars p (show_N n) = true.
Proof. intros Hp. eapply all_chars_impl; [exact Hp|]. apply show_N_digits. Qed.

Lemma digit_not_sep c : is_digit c = true -> negb (Ascii.eqb c "-") = true.
Proof. destruct c as [[] [] [] [] [] [] [] []]; done. Qed.
Lemma digit_not_space c : is_digit c = true -> negb (is_whitespace c) = true.
Proof. destruct c as [[] [] [] [] [] [] [] []]; done. Qed.

Lemma show_N_no_sep n : all_chars (fun c => negb (Ascii.eqb c "-")) (show_N n) = true.
Proof. apply show_N_all, digit_not_sep. Qed.
Lemma show_N_no_space n : all_chars (fun c => negb (is_whitespace c)) (show_N n) = true.
Proof. apply show_N_all, digit_not_space. Qed.
#[export] Hint Resolve show_N_no_sep show_N_no_space show_N_digits : nico.

(** Two naturals that print alike are equal. *)
Lemma show_N_inj n m : show_N n = show_N m -> n = m.
Proof.
  intros E. pose proof (parse_show_N (N.succ (N.max n m)) n ltac:(lia)) as Hn.
  rewrite E, parse_show_N in Hn by lia. congruence.
Qed.
