(* ===== verification/Chrono.v ===== *)
(** * Chrono: the interface to the time library

    [chrono] is a dependency of the workspace, so its operations are class
    members with the behaviour its documentation states. A [DateTime<Utc>] is
    represented by the nanoseconds since the Unix epoch of the instant, and a
    [TimeDelta] by its nanoseconds. [chrono_reference] is one implementation
    of the interface, used where a statement is evaluated on concrete data. *)

From S2P Require Import Prelude.

Abbreviation DateTime := Z (only parsing).
Abbreviation TimeDelta := Z (only parsing).

Definition nanos_per_sec : Z := 1000000000.

Class Chrono := {
  (** [DateTime::from_timestamp(secs, nsecs)]: [None] out of range. *)
  from_timestamp : Z -> Z -> option DateTime;
  (** [DateTime::timestamp_micros]. *)
  timestamp_micros : DateTime -> Z;
  (** [DateTime::checked_add_signed]: [None] on overflow of the date range. *)
  checked_add_signed : DateTime -> TimeDelta -> option DateTime;
  (** [TimeDelta::num_seconds]: whole seconds, rounded towards zero. *)
  num_seconds : TimeDelta -> Z;
  (** The last second of the representable range. *)
  max_secs : Z;

  from_timestamp_value secs nsecs t :
    from_timestamp secs nsecs = Some t -> t = secs * nanos_per_sec + nsecs;
  from_timestamp_in_range secs nsecs :
    0 <= secs <= max_secs -> 0 <= nsecs < nanos_per_sec -> is_Some (from_timestamp secs nsecs);
  timestamp_micros_value t : timestamp_micros t = t / 1000;
  checked_add_signed_value t d t' : checked_add_signed t d = Some t' -> t' = t + d;
  num_seconds_value d : num_seconds d = Z.quot d nanos_per_sec
}.

(** A [chrono] restricted to the years its documentation names
    ([DateTime::MAX_UTC] is in year 262142). *)
#[export] Instance chrono_reference : Chrono.
Proof.
  refine {|
    from_timestamp secs nsecs :=
      if bool_decide (-8334601228800 <= secs <= 8210266876799 /\ 0 <= nsecs < 2 * nanos_per_sec)
      then Some (secs * nanos_per_sec + nsecs) else None;
    timestamp_micros t := t / 1000;
    checked_add_signed t d :=
      if bool_decide (-8334601228800 * nanos_per_sec <= t + d < 8210266876800 * nanos_per_sec)
      then Some (t + d) else None;
    num_seconds d := Z.quot d nanos_per_sec;
    max_secs := 8210266876799
  |}.
  - intros secs nsecs t. case_bool_decide; congruence.
  - intros secs nsecs Hs Hn. rewrite bool_decide_eq_true_2 by lia. done.
  - done.
  - intros t d t'. case_bool_decide; congruence.
  - done.
Defined.
