(* ===== verification/ConfigVersion.v ===== *)
(** * ConfigVersion: crates/config-version/src/lib.rs

    The versions that guard every optimistic write of the controllers: their
    increment, their database format and the durations printed from them. The
    wall clock ([SystemTime::now], [Utc::now]) is an argument, in nanoseconds
    since the epoch. *)

From S2P Require Import Prelude Text Chrono.
From Stdlib Require Import Ascii.

Module ConfigVersion.

Definition u64_bound : Z := 2 ^ 64.

Record t := mk { version_nr : Z; timestamp : DateTime }.
Record change := mk_change { current : t; new_version : t }.
Record versioned (A : Type) := versioned_new { value : A; version : t }.
Arguments versioned_new {A} value version.
Arguments value {A} _.
Arguments version {A} _.

#[export] Instance t_eq_dec : EqDecision t.
Proof. solve_decision. Defined.

(** A version number is a [u64]. *)
Definition wf (v : t) : Prop := 0 <= version_nr v < u64_bound.

Inductive parse_error :=
| VersionFormat (s : string)
| DateTimeError (secs nsecs : Z).

(** [now()]: the clock without its sub-microsecond part. *)
Definition now (clock : Z) : DateTime := clock - clock mod 1000.
(** [tzero()]. *)
Definition tzero : DateTime := now 0.

Definition initial (clock : Z) : t := mk 1 (now clock).
Definition new (nr clock : Z) : t := mk nr (now clock).
Definition invalid : t := mk 0 tzero.

Definition increment (v : t) (clock : Z) : t :=
  let nr := (version_nr v + 1) mod u64_bound in
  mk (Z.lor nr (if nr =? 0 then 1 else 0)) (now clock).

(** [incremental_change]: [version_nr + 1] is a checked addition (the
    workspace builds with [overflow-checks]), [None] is its panic. *)
Definition incremental_change (v : t) (clock : Z) : option change :=
  if version_nr v + 1 <? u64_bound
  then Some (mk_change v (mk (version_nr v + 1) clock))
  else None.

Definition min_by_timestamp (a b : t) : t :=
  match timestamp a ?= timestamp b with
  | Lt => a
  | Eq => match version_nr a ?= version_nr b with
          | Lt => a
          | Eq => a
          | Gt => b
          end
  | Gt => b
  end.

Section WithChrono.
Context `{Chrono}.

Definition version_string (v : t) : string :=
  "V" +:+ show_Z (version_nr v) +:+ "-T" +:+ show_Z (timestamp_micros (timestamp v)).

Definition from_str (s : string) : result parse_error t :=
  match split_on "-"%char (trim s) with
  | [version_nr_str; timestamp_str] =>
      match version_nr_str, timestamp_str with
      | String "V"%char nr, String "T"%char ts =>
          match parse_uint (2 ^ 64) nr, parse_uint (2 ^ 64) ts with
          | Some version_nr, Some timestamp =>
              let secs := Z.of_N timestamp / 1000000 in
              let usecs := Z.of_N timestamp mod 1000000 in
              match from_timestamp secs (usecs * 1000) with
              | Some datetime => Ok (mk (Z.of_N version_nr) datetime)
              | None => Err (DateTimeError secs (usecs * 1000))
              end
          | _, _ => Err (VersionFormat s)
          end
      | _, _ => Err (VersionFormat s)
      end
  | _ => Err (VersionFormat s)
  end.

Definition since_state_change (v : t) (utc_now : Z) : TimeDelta := utc_now - timestamp v.

Definition plural (val : Z) (period : string) : string :=
  if val =? 1 then show_Z val +:+ " " +:+ period
  else show_Z val +:+ " " +:+ period +:+ "s".

Definition format_duration (d : TimeDelta) : string :=
  let seconds := num_seconds d in
  let days := Z.quot seconds 86400 in
  let hours := Z.quot (Z.rem seconds 86400) 3600 in
  let minutes := Z.quot (Z.rem seconds 3600) 60 in
  let secs := Z.rem seconds 60 in
  let parts := (if days >? 0 then [plural days "day"] else [])
            ++ (if hours >? 0 then [plural hours "hour"] else [])
            ++ (if minutes >? 0 then [plural minutes "minute"] else []) in
  let parts := match parts with [] => [plural secs "second"] | _ => parts end in
  match rev parts with
  | [] => "0 seconds"
  | [p] => p
  | last :: front => String.concat ", " (rev front) +:+ " and " +:+ last
  end.

Definition since_state_change_humanized (ver : string) (utc_now : Z) : string :=
  match from_str ver with
  | Err _ => "state version parse error"
  | Ok v => format_duration (since_state_change v utc_now)
  end.

(** ** Properties *)

(** Versions the database format represents exactly: a [u64] number and a
    microsecond timestamp after the epoch, within the range of the date type. *)
Definition storable (v : t) : Prop :=
  wf v /\ timestamp v mod 1000 = 0 /\ 0 <= timestamp v /\
  timestamp v / nanos_per_sec <= max_secs /\ timestamp v / 1000 < u64_bound.

Lemma show_Z_nonneg z : 0 <= z -> show_Z z = show_N (Z.to_N z).
Proof. intros. unfold show_Z. by rewrite (proj2 (Z.ltb_ge z 0)) by lia. Qed.

Lemma parse_show_u64 z :
  0 <= z < u64_bound -> parse_uint (2 ^ 64) (show_N (Z.to_N z)) = Some (Z.to_N z).
Proof. intros Hz. apply parse_show_N. unfold u64_bound in Hz. lia. Qed.

(** The two fields of a printed version survive [trim] and [split]. *)
Lemma split_version_string n m :
  split_on "-" (trim ("V" +:+ show_N n +:+ "-T" +:+ show_N m))
  = [String "V" (show_N n); String "T" (show_N m)].
Proof.
  rewrite trim_id.
  - replace ("V" +:+ show_N n +:+ "-T" +:+ show_N m)
      with (("V" +:+ show_N n) +:+ String "-" ("T" +:+ show_N m)) by done.
    rewrite split_on_app, split_on_no_sep; [done|apply show_N_no_sep..].
  - rewrite !all_chars_app, !show_N_no_space. done.
Qed.

Lemma from_str_fields n m secs usecs :
  (n < 2 ^ 64)%N -> (m < 2 ^ 64)%N ->
  Z.of_N m / 1000000 = secs -> Z.of_N m mod 1000000 = usecs ->
  from_str ("V" +:+ show_N n +:+ "-T" +:+ show_N m) =
  match from_timestamp secs (usecs * 1000) with
  | Some dt => Ok (mk (Z.of_N n) dt)
  | None => Err (DateTimeError secs (usecs * 1000))
  end.
Proof.
  intros Hn Hm <- <-. unfold from_str. rewrite split_version_string.
  by rewrite !parse_show_N by done.
Qed.

Lemma version_string_nonneg v :
  0 <= version_nr v -> 0 <= timestamp v ->
  version_string v = "V" +:+ show_N (Z.to_N (version_nr v)) +:+ "-T"
                         +:+ show_N (Z.to_N (timestamp v / 1000)).
Proof.
  intros. unfold version_string. rewrite timestamp_micros_value.
  rewrite !show_Z_nonneg; [done| |done]. apply Z.div_pos; lia.
Qed.

Lemma micros_split T :
  T mod 1000 = 0 ->
  T / 1000 / 1000000 * nanos_per_sec + T / 1000 mod 1000000 * 1000 = T.
Proof. unfold nanos_per_sec. intros. Z.div_mod_to_equations. lia. Qed.

Lemma from_timestamp_micros T :
  T mod 1000 = 0 -> 0 <= T -> T / nanos_per_sec <= max_secs ->
  from_timestamp (T / 1000 / 1000000) (T / 1000 mod 1000000 * 1000) = Some T.
Proof.
  intros Hmod Hpos Hmax.
  destruct (from_timestamp_in_range (T / 1000 / 1000000) (T / 1000 mod 1000000 * 1000)) as [dt Hdt].
  - rewrite Zdiv_Zdiv by lia. split; [|exact Hmax]. apply Z.div_pos; lia.
  - unfold nanos_per_sec. pose proof (Z.mod_pos_bound (T / 1000) 1000000). lia.
  - rewrite Hdt. apply from_timestamp_value in Hdt as ->. by rewrite micros_split.
Qed.

Lemma from_str_version_string v : storable v -> from_str (version_string v) = Ok v.
Proof.
  destruct v as [nr T]. intros (Hnr & Hmod & Hpos & Hmax & Hts); unfold wf in Hnr; simpl in *.
  assert (0 <= T / 1000) by (apply Z.div_pos; lia). unfold u64_bound in *.
  rewrite version_string_nonneg by (simpl; lia). simpl.
  erewrite from_str_fields; [|lia|lia|rewrite Z2N.id by done; reflexivity..].
  rewrite from_timestamp_micros by done. by rewrite Z2N.id by lia.
Qed.

Lemma parse_uint_bound b s n : parse_uint b s = Some n -> (n < b)%N.
Proof. unfold parse_uint. intros E; split_matches; by apply N.ltb_lt. Qed.

(** What an accepted version string consists of. *)
Lemma from_str_inv s v :
  from_str s = Ok v ->
  exists n m, (n < 2 ^ 64)%N /\ (m < 2 ^ 64)%N /\ version_nr v = Z.of_N n /\
    from_timestamp (Z.of_N m / 1000000) (Z.of_N m mod 1000000 * 1000) = Some (timestamp v).
Proof.
  unfold from_str. intros E.
  repeat match type of E with
  | match parse_uint _ ?a with _ => _ end = _ => destruct (parse_uint _ a) as [?|] eqn:?
  | match from_timestamp _ _ with _ => _ end = _ => destruct (from_timestamp _ _) eqn:?
  | match ?x with _ => _ end = _ => destruct x
  end; simplify_eq/=.
  repeat match goal with Hp : parse_uint _ _ = Some _ |- _ => apply parse_uint_bound in Hp end.
  do 2 eexists; split_and!; [| |reflexivity|eassumption]; assumption.
Qed.

(** A parsed timestamp is a whole number of microseconds. *)
Lemma from_str_micros s v : from_str s = Ok v -> timestamp v mod 1000 = 0.
Proof.
  intros (n & m & _ & _ & _ & Hdt)%from_str_inv. apply from_timestamp_value in Hdt as ->.
  unfold nanos_per_sec. Z.div_mod_to_equations. lia.
Qed.

Lemma micros_of_parts m :
  (m / 1000000 * nanos_per_sec + m mod 1000000 * 1000) / 1000 = m.
Proof. unfold nanos_per_sec. Z.div_mod_to_equations. lia. Qed.

Lemma increment_nr v clock :
  wf v -> version_nr (increment v clock) =
          if version_nr v =? u64_bound - 1 then 1 else version_nr v + 1.
Proof.
  unfold wf, increment, u64_bound. intros Hwf. simpl.
  destruct (Z.eqb_spec (version_nr v) (2 ^ 64 - 1)) as [->|Hne]; [done|].
  rewrite Z.mod_small by lia. destruct (Z.eqb_spec (version_nr v + 1) 0); [lia|].
  apply Z.lor_0_r.
Qed.

Lemma increment_storable v clock :
  wf v -> 0 <= clock -> clock / nanos_per_sec <= max_secs -> clock / 1000 < u64_bound ->
  storable (increment v clock).
Proof.
  intros Hwf Hc Hmax Hts. pose proof (increment_nr v clock Hwf) as Hnr.
  unfold storable, wf in *. rewrite Hnr. unfold increment, now; simpl. unfold u64_bound in *.
  assert ((clock - clock mod 1000) / nanos_per_sec <= clock / nanos_per_sec).
  { apply Z.div_le_mono; [done|]. pose proof (Z.mod_pos_bound clock 1000). lia. }
  repeat split; try (destruct (Z.eqb_spec (version_nr v) (2 ^ 64 - 1)); lia);
    try (Z.div_mod_to_equations; lia).
Qed.

(** C33: every version the database can hold is read back unchanged from its
    database string. *)
Theorem version_string_roundtrip v : storable v -> from_str (version_string v) = Ok v.
Proof. apply from_str_version_string. Qed.

(** Whatever text is accepted as a version (surrounding spaces, a leading
    [+], leading zeros), the parsed version prints to a canonical string that
    parses to the same version. *)
Theorem from_str_normalises s v : from_str s = Ok v -> from_str (version_string v) = Ok v.
Proof.
  intros (n & m & Hn & Hm & Hnr & Hdt)%from_str_inv.
  pose proof (from_timestamp_value _ _ _ Hdt) as HT. destruct v as [nr T]; simpl in *; subst.
  rewrite version_string_nonneg; simpl.
  - rewrite N2Z.id, micros_of_parts, N2Z.id. erewrite from_str_fields by done. by rewrite Hdt.
  - lia.
  - pose proof (Z.mod_pos_bound (Z.of_N m) 1000000).
    pose proof (Z.div_pos (Z.of_N m) 1000000). unfold nanos_per_sec. lia.
Qed.

(** [increment] keeps the number a [u64] that is never 0, always changes it,
    adds one below the maximum and wraps from the maximum to 1; the incremented
    version survives the database format. *)
Theorem increment_spec v clock :
  wf v -> 0 <= clock -> clock / nanos_per_sec <= max_secs -> clock / 1000 < u64_bound ->
  let v' := increment v clock in
  1 <= version_nr v' < u64_bound /\ version_nr v' <> version_nr v /\
  version_nr v' = (if version_nr v =? u64_bound - 1 then 1 else version_nr v + 1) /\
  from_str (version_string v') = Ok v'.
Proof.
  intros Hwf Hc Hmax Hts v'. subst v'. pose proof (increment_nr v clock Hwf) as Hnr.
  assert (storable (increment v clock)) as Hst by (apply increment_storable; done).
  unfold wf in Hwf. unfold u64_bound in *.
  repeat split; try (rewrite Hnr; destruct (Z.eqb_spec (version_nr v) (2 ^ 64 - 1)); lia).
  by apply from_str_version_string.
Qed.

(** [incremental_change] does not truncate the clock as [increment] does, so
    when the clock is not on a whole microsecond the new version it returns is
    not the one read back from its own database string. *)
Theorem incremental_change_not_roundtrip v clock c :
  wf v -> 0 <= clock -> clock mod 1000 <> 0 -> incremental_change v clock = Some c ->
  from_str (version_string (new_version c)) <> Ok (new_version c).
Proof.
  unfold incremental_change. intros Hwf Hc Hmod Hch E. split_matches.
  apply from_str_micros in E. simpl in E. lia.
Qed.

End WithChrono.

Lemma version_string_roundtrip_witness :
  storable (mk 7 1731700000123456000) /\
  from_str (version_string (mk 7 1731700000123456000)) = Ok (mk 7 1731700000123456000).
Proof.
  assert (storable (mk 7 1731700000123456000)) as H by (vm_compute; intuition congruence).
  split; [exact H|]. exact (version_string_roundtrip _ H).
Defined.

Lemma from_str_normalises_witness :
  from_str "  V+007-T1731700000123456 " = Ok (mk 7 1731700000123456000) /\
  from_str (version_string (mk 7 1731700000123456000)) = Ok (mk 7 1731700000123456000).
Proof.
  split; [vm_compute; reflexivity|].
  apply (from_str_normalises "  V+007-T1731700000123456 "). vm_compute. reflexivity.
Defined.

Lemma increment_spec_witness :
  version_nr (increment (mk (u64_bound - 1) 0) 1731700000123456789) = 1.
Proof.
  refine (eq_trans (proj1 (proj2 (proj2 (increment_spec
    (mk (u64_bound - 1) 0) 1731700000123456789 _ _ _ _)))) _);
    vm_compute; intuition congruence.
Defined.

Lemma incremental_change_not_roundtrip_witness :
  from_str (version_string (mk 8 1731700000123456789)) <> Ok (mk 8 1731700000123456789).
Proof.
  apply (incremental_change_not_roundtrip (mk 7 0) 1731700000123456789
           (mk_change (mk 7 0) (mk 8 1731700000123456789)));
    vm_compute; intuition congruence.
Defined.

End ConfigVersion.
