(* ===== verification/StateHandler.v ===== *)
(** * StateHandler: the contract between a controller and its handlers

    crates/state-controller/src/state_handler.rs (errors, outcomes and their
    persisted form), conditional_write.rs ([CheckApplied]),
    db_write_batch.rs ([DbWriteBatch]) and crates/api-db/src/conditional_write.rs.
    The call sites ([Location]) that outcomes carry for diagnostics are left
    out. A transaction is the tentative database it would commit, so an outcome
    is parametrised by the type [Db] of databases. *)

From S2P Require Import Prelude Text.

(** ** Conditional writes *)

Inductive ConditionalWrite (A R : Type) :=
| Applied (a : A)
| NotApplied (r : R).
Arguments Applied {A R} a.
Arguments NotApplied {A R} r.

Inductive ControllerStateNotCurrent := ControllerStateNotCurrent_.

(** The database errors the components distinguish. What the driver reports is a
    violated constraint or any other failure of a statement. *)
Inductive DatabaseError :=
| FailedPrecondition (msg : string)
| InvalidArgument (msg : string)
| Internal (msg : string)
| NetworkSegmentDelete (msg : string)
| NotFoundError (kind id : string)
| ConcurrentModificationError (kind version : string)
| ConstraintViolation (constraint msg : string)
| QueryError (msg : string).

Definition display_db (e : DatabaseError) : string :=
  match e with
  | FailedPrecondition m | QueryError m | ConstraintViolation _ m => m
  | NotFoundError kind id => kind +:+ " not found: " +:+ id
  | ConcurrentModificationError kind v =>
      "an object of type " +:+ kind +:+ " was intended to be modified did not have the expected version " +:+ v
  | InvalidArgument m => "argument is invalid: " +:+ m
  | Internal m => "internal error: " +:+ m
  | NetworkSegmentDelete m => "network has attached VPC or subdomain : " +:+ m
  end.

#[export] Instance DatabaseError_eq_dec : EqDecision DatabaseError.
Proof. solve_decision. Defined.

Module StateHandler.

Record ExternalServiceError := {
  service : string;
  operation : string;
  details : string;
  external_metric_label : string
}.

Definition display_external (e : ExternalServiceError) : string :=
  if String.eqb (operation e) "" then
    "Failed " +:+ service e +:+ " operation. Details: " +:+ details e +:+ "."
  else
    "Failed " +:+ service e +:+ " operation: " +:+ operation e
      +:+ ". Details: " +:+ details e +:+ ".".

Inductive StateHandlerError :=
| IterationInvalidated
| TransactionError (msg : string)
| GenericError (msg : string)
| MissingData (object_id missing : string)
| DBError (e : DatabaseError)
| PoolReleaseError (msg : string)
| InvalidHostState (machine state : string)
| ExternalError (e : ExternalServiceError)
| Timeout (object_id state : string)
| FirmwareUpdateError (msg : string)
| ManualInterventionRequired (msg : string)
| InvalidState (msg : string)
| HealthProbeAlert
| TimeInStateAboveSla (handler_outcome : string)
| ResourceCleanupError (resource error : string)
| SpdmError (msg : string)
| InvalidHostMachineId (error : string).

(** [Display] of the errors that are persisted as an outcome. *)
Definition display_error (e : StateHandlerError) : string :=
  match e with
  | IterationInvalidated => "controller iteration invalidated"
  | TransactionError m => "unable to perform database transaction: " +:+ m
  | GenericError m => "failed to advance state: " +:+ m
  | MissingData o m =>
      "state for object " +:+ o +:+ " can not be advanced. missing data: " +:+ m
  | DBError e => display_db e
  | PoolReleaseError m => "error releasing from resource pool: " +:+ m
  | InvalidHostState m s => "invalid host state " +:+ s +:+ " for machine " +:+ m
  | ExternalError e => display_external e
  | Timeout o s =>
      "the state handler for object " +:+ o +:+ " in state " +:+ quoted s +:+ " timed out"
  | FirmwareUpdateError m => "failed to update firmware: " +:+ m
  | ManualInterventionRequired m =>
      "manual intervention required. cannot make progress. " +:+ m
  | InvalidState m => "invalid state: " +:+ m
  | HealthProbeAlert => "state will not be advanced due to health probe alert"
  | TimeInStateAboveSla o =>
      "the object is in the state for longer than defined by the SLA. handler outcome: " +:+ o
  | ResourceCleanupError r e => "resource " +:+ r +:+ " cleanup error: " +:+ e
  | SpdmError m => "spdm error: " +:+ m
  | InvalidHostMachineId e => "bug: invalid machine ID: " +:+ e
  end.

Definition metric_label (e : StateHandlerError) : string :=
  match e with
  | IterationInvalidated => "iteration_invalidated"
  | TransactionError _ => "transaction_error"
  | GenericError _ => "generic_error"
  | FirmwareUpdateError _ => "firware_update_error"
  | MissingData _ _ => "missing_data"
  | DBError _ => "db_error"
  | Timeout _ _ => "timeout"
  | PoolReleaseError _ => "pool_release_error"
  | InvalidHostState _ _ => "invalid_host_state"
  | InvalidState _ => "invalid_state"
  | ExternalError e => external_metric_label e
  | ManualInterventionRequired _ => "manual_intervention_required"
  | HealthProbeAlert => "health_probe_alert"
  | TimeInStateAboveSla _ => "time_in_state_above_sla"
  | ResourceCleanupError r _ =>
      if String.eqb r "VpcLoopbackIp" then "vpcloopback_release_failed"
      else if String.eqb r "network_segment" then "network_segment_cleanup_failed"
      else "resource_cleanup_failed"
  | SpdmError _ => "spdm_attestation_error"
  | InvalidHostMachineId _ => "invalid_host_machine_id"
  end.

(** ** Outcomes *)

Section Outcome.
Context {Db S : Type}.

Inductive StateHandlerOutcome :=
| Wait (reason : string) (txn : option Db)
| Transition (next_state : S) (txn : option Db)
| DoNothing (txn : option Db)
| Deleted (txn : option Db).

Definition wait (reason : string) : StateHandlerOutcome := Wait reason None.
Definition transition (next_state : S) : StateHandlerOutcome := Transition next_state None.
Definition do_nothing : StateHandlerOutcome := DoNothing None.
Definition deleted : StateHandlerOutcome := Deleted None.

(** [take_transaction]: the transaction and the outcome left without it. *)
Definition take_transaction (o : StateHandlerOutcome) : option Db * StateHandlerOutcome :=
  match o with
  | Wait r t => (t, Wait r None)
  | Transition s t => (t, Transition s None)
  | DoNothing t => (t, DoNothing None)
  | Deleted t => (t, Deleted None)
  end.

Definition set_txn (o : StateHandlerOutcome) (t : option Db) : StateHandlerOutcome :=
  match o with
  | Wait r _ => Wait r t
  | Transition s _ => Transition s t
  | DoNothing _ => DoNothing t
  | Deleted _ => Deleted t
  end.

(** [with_txn_opt]: [None] is the panic of its [debug_assert!] (the release
    profile keeps debug assertions). *)
Definition with_txn_opt (o : StateHandlerOutcome) (t : option Db) : option StateHandlerOutcome :=
  match take_transaction o with
  | (Some _, _) => None
  | (None, o) => Some (set_txn o t)
  end.

Definition with_txn (o : StateHandlerOutcome) (t : Db) : option StateHandlerOutcome :=
  with_txn_opt o (Some t).

(** [with_txn] on a new outcome, which has no transaction yet. *)
Definition in_txn (o : StateHandlerOutcome) (t : Db) : StateHandlerOutcome := default o (with_txn o t).

(** [in_transaction]: run [f] in the outcome's transaction, beginning one from
    the pool when it has none. The outer result is the failure to begin. *)
Definition in_transaction {E} (begin : result string Db) (f : Db -> result E Db)
    (o : StateHandlerOutcome) : result string (result E StateHandlerOutcome) :=
  match take_transaction o with
  | (Some t, o) => Ok ((fun t' => set_txn o (Some t')) <$> f t)
  | (None, o) => match begin with
                 | Err e => Err e
                 | Ok t => Ok ((fun t' => set_txn o (Some t')) <$> f t)
                 end
  end.

Definition display_outcome (o : StateHandlerOutcome) : string :=
  match o with
  | Wait reason _ => reason
  | Transition _ _ => "Transition to next state"
  | DoNothing _ => "Do nothing"
  | Deleted _ => "Deleted"
  end.

Definition is_deleted (o : StateHandlerOutcome) : bool :=
  match o with Deleted _ => true | _ => false end.

End Outcome.
Arguments StateHandlerOutcome : clear implicits.

(** [PersistentStateHandlerOutcome]. *)
Inductive PersistentOutcome :=
| PWait (reason : string)
| PTransition
| PDoNothing
| PError (err : string).

#[export] Instance PersistentOutcome_eq_dec : EqDecision PersistentOutcome.
Proof. solve_decision. Defined.

(** [from_result]: [None] is the [unreachable!] of a deleted object. *)
Definition from_result {Db S} (r : result StateHandlerError (StateHandlerOutcome Db S))
    : option PersistentOutcome :=
  match r with
  | Ok (Wait reason _) => Some (PWait reason)
  | Ok (Transition _ _) => Some PTransition
  | Ok (DoNothing _) => Some PDoNothing
  | Ok (Deleted _) => None
  | Err err => Some (PError (display_error err))
  end.

(** ** Rejected writes *)

(** [CheckApplied::check_applied]: a rejected write invalidates the iteration.
    The six implementations differ only in the rejection type [R]. *)
Definition check_applied {A R} (w : ConditionalWrite A R) : result StateHandlerError A :=
  match w with
  | Applied a => Ok a
  | NotApplied _ => Err IterationInvalidated
  end.

(** ** Queued writes *)

Definition WriteOp (Db : Type) : Type := Db -> result StateHandlerError Db.
Definition DbWriteBatch (Db : Type) : Type := list (WriteOp Db).
Definition push {Db} (b : DbWriteBatch Db) (op : WriteOp Db) : DbWriteBatch Db := b ++ [op].

(** [apply_all]: in order, up to the first error. *)
Fixpoint apply_all {Db} (b : DbWriteBatch Db) (txn : Db) : result StateHandlerError Db :=
  match b with
  | [] => Ok txn
  | w :: b => txn' ← w txn; apply_all b txn'
  end.

(** ** Handlers *)

(** What one call of [handle_object_state] leaves behind: the database with
    the transactions it committed itself, the writes it queued and its result. *)
Record handled (Db S : Type) := mk_handled {
  h_db : Db;
  h_pending : DbWriteBatch Db;
  h_out : result StateHandlerError (StateHandlerOutcome Db S)
}.
Arguments mk_handled {Db S} h_db h_pending h_out.
Arguments h_db {Db S} _.
Arguments h_pending {Db S} _.
Arguments h_out {Db S} _.

(** [NoopStateHandler]. *)
Definition noop_handler {Db S} (db : Db) : handled Db S := mk_handled db [] (Ok do_nothing).

(** ** Lemmas *)

Lemma apply_all_app {Db} (b1 b2 : DbWriteBatch Db) txn :
  apply_all (b1 ++ b2) txn = (txn' ← apply_all b1 txn; apply_all b2 txn').
Proof.
  revert txn. induction b1 as [|w b1 IH]; intros txn; simpl; [done|].
  destruct (w txn) as [txn'|e]; simpl; [apply IH|done].
Qed.

Lemma check_applied_Ok {A R} (w : ConditionalWrite A R) a : check_applied w = Ok a -> w = Applied a.
Proof. destruct w; simpl; congruence. Qed.

Lemma with_txn_new {Db S} (o : StateHandlerOutcome Db S) t o' :
  with_txn o t = Some o' -> take_transaction o' = (Some t, set_txn o None).
Proof. unfold with_txn, with_txn_opt. by destruct o as [? []|? []|[]|[]]; intros; simplify_eq/=. Qed.

End StateHandler.
