(* ===== verification/Queue.v ===== *)
(** * Queue: crates/state-controller/src/controller/db.rs

    The queued-objects table of a state controller and the SQL statements that
    work on it, and the table of iteration ids. Times are in any fixed unit;
    [now] is the transaction's [now()]. Rows another transaction holds locked
    are a set [locked] of ids ([FOR UPDATE SKIP LOCKED]). *)

From S2P Require Import Prelude.

Module Queue.

(** [BIND_LIMIT / 32] object ids per statement. *)
Definition BIND_LIMIT : nat := Z.to_nat 32768.
Definition OBJECTS_PER_QUERY : nat := (BIND_LIMIT / 32)%nat.

(** A row of the queue; [processing_started_at] defaults to [now()]. *)
Record row := mk_row { processed_by : option string; processing_started_at : Z }.
Abbreviation table := (gmap string row).

(** [QueuedObject], what the claim returns. *)
Record QueuedObject := mk_queued { object_id : string; q_processed_by : option string }.

(** ** Enqueueing *)

(** [INSERT INTO t(object_id) VALUES (id) ON CONFLICT (object_id) DO NOTHING]. *)
Definition insert_row (now : Z) (acc : table * nat) (id : string) : table * nat :=
  match acc.1 !! id with
  | Some _ => acc
  | None => (<[id := mk_row None now]> acc.1, S acc.2)
  end.

(** One statement: the table and the rows affected. *)
Definition insert_statement (now : Z) (q : table) (ids : list string) : table * nat :=
  fold_left (insert_row now) ids (q, 0%nat).

Definition queue_objects (now : Z) (q : table) (queued_objects : list string) : table * nat :=
  let sorted := merge_sort String.le queued_objects in
  fold_left (fun '(q, num_enqueued) c =>
               let '(q', affected) := insert_statement now q c in
               (q', num_enqueued + affected)%nat)
            (chunks OBJECTS_PER_QUERY sorted) (q, 0%nat).

(** ** Claiming *)

(** [processed_by IS NULL OR processing_started_at + max_outdated < now()]. *)
Definition eligible (max_outdated now : Z) (r : row) : bool :=
  bool_decide (processed_by r = None) ||
  (processing_started_at r + max_outdated <? now).

(** [ORDER BY processing_started_at ASC]. *)
Definition older (a b : string * row) : Prop :=
  processing_started_at a.2 <= processing_started_at b.2.
#[export] Instance older_dec : RelDecision older := fun a b => Z_le_dec _ _.
#[export] Instance older_trans : Transitive older.
Proof. intros ???; unfold older; lia. Qed.
#[export] Instance older_total : Total older.
Proof. intros ??; unfold older; lia. Qed.

Definition candidates (q : table) (max_outdated now : Z) (locked : gset string)
    : list (string * row) :=
  filter (fun e => eligible max_outdated now e.2 = true /\ e.1 ∉ locked) (map_to_list q).

Definition dequeued_ids (q : table) (count : nat) (max_outdated now : Z) (locked : gset string)
    : list string :=
  (take count (merge_sort older (candidates q max_outdated now locked))).*1.

Definition claim_row (processor_id : string) (now : Z) (q : table) (id : string) : table :=
  <[id := mk_row (Some processor_id) now]> q.

Definition acquire_queued_objects (q : table) (count : nat) (processor_id : string)
    (max_outdated now : Z) (locked : gset string) : table * list QueuedObject :=
  let ids := dequeued_ids q count max_outdated now locked in
  (fold_left (claim_row processor_id now) ids q,
   (fun id => mk_queued id (Some processor_id)) <$> ids).

(** ** Deleting *)

(** [DELETE ... WHERE object_id IN (..) AND processed_by = processor_id], on one id. *)
Definition delete_row (processor_id : string) (acc : table * nat) (id : string) : table * nat :=
  match acc.1 !! id with
  | Some r => if bool_decide (processed_by r = Some processor_id)
              then (delete id acc.1, S acc.2) else acc
  | None => acc
  end.

Definition delete_queued_objects (q : table) (object_ids : list string) (processor_id : string)
    : table * nat :=
  fold_left (fun '(q, num_deleted) c =>
               let '(q', affected) := fold_left (delete_row processor_id) c (q, 0%nat) in
               (q', num_deleted + affected)%nat)
            (chunks OBJECTS_PER_QUERY object_ids) (q, 0%nat).

(** ** Iteration ids *)

(** The iteration table: its ids and the sequence that generates them. *)
Record iterations := mk_iterations { ids : gset Z; next_id : Z }.

Definition create_iteration (it : iterations) : Z * iterations :=
  (next_id it, mk_iterations ({[ next_id it ]} ∪ ids it) (next_id it + 1)).

Definition NUM_RETAINED : Z := 10.

Definition delete_old_iterations (it : iterations) (current_iteration_id : Z) : iterations :=
  let last_retained := Z.max 0 (current_iteration_id mod 2 ^ 64 - NUM_RETAINED) + 1 in
  mk_iterations (filter (fun i => last_retained <= i) (ids it)) (next_id it).

(** ** Lemmas *)

(** A table operation that works row by row and reports its number of rows is
    the same whether or not the rows are split into statements. *)
Lemma fold_statements {A} (f : table * nat -> A -> table * nat) (cs : list (list A)) q n :
  (forall t m a, f (t, m) a = ((f (t, 0%nat) a).1, m + (f (t, 0%nat) a).2)%nat) ->
  fold_left (fun '(q, n) c => let '(q', k) := fold_left f c (q, 0%nat) in (q', n + k)%nat) cs (q, n)
  = fold_left f (concat cs) (q, n).
Proof.
  intros Hf.
  assert (Hshift : forall l t m,
    fold_left f l (t, m) = let '(t', k) := fold_left f l (t, 0%nat) in (t', (m + k)%nat)).
  { induction l as [|a l IH]; intros t m; simpl; [by rewrite Nat.add_0_r|].
    rewrite Hf. destruct (f (t, 0%nat) a) as [t1 k1] eqn:E; simpl.
    rewrite (IH t1 (m + k1)%nat), (IH t1 k1).
    destruct (fold_left f l (t1, 0%nat)). by rewrite Nat.add_assoc. }
  revert q n. induction cs as [|c cs IH]; intros q n; simpl; [done|].
  rewrite fold_left_app, (Hshift c q n).
  destruct (fold_left f c (q, 0%nat)) as [q' k]. apply IH.
Qed.

Lemma insert_row_shift now t m a :
  insert_row now (t, m) a = ((insert_row now (t, 0%nat) a).1, m + (insert_row now (t, 0%nat) a).2)%nat.
Proof. unfold insert_row; simpl. destruct (t !! a); simpl; f_equal; lia. Qed.

Lemma delete_row_shift p t m a :
  delete_row p (t, m) a = ((delete_row p (t, 0%nat) a).1, m + (delete_row p (t, 0%nat) a).2)%nat.
Proof. unfold delete_row; simpl. repeat case_match; simpl; f_equal; lia. Qed.

Lemma objects_per_query_pos : (0 < OBJECTS_PER_QUERY)%nat.
Proof. unfold OBJECTS_PER_QUERY, BIND_LIMIT. apply Nat.div_str_pos. lia. Qed.

(** Chunking is invisible: one statement over the sorted ids has the same effect. *)
Lemma queue_objects_unchunked now q l :
  queue_objects now q l = insert_statement now q (merge_sort String.le l).
Proof.
  unfold queue_objects, insert_statement. rewrite fold_statements by apply insert_row_shift.
  by rewrite concat_chunks by apply objects_per_query_pos.
Qed.

Lemma delete_queued_objects_unchunked q l p :
  delete_queued_objects q l p = fold_left (delete_row p) l (q, 0%nat).
Proof.
  unfold delete_queued_objects. rewrite fold_statements by apply delete_row_shift.
  by rewrite concat_chunks by apply objects_per_query_pos.
Qed.

Lemma insert_statement_lookup now l q n i :
  (fold_left (insert_row now) l (q, n)).1 !! i =
  match q !! i with
  | Some r => Some r
  | None => if decide (i ∈ l) then Some (mk_row None now) else None
  end.
Proof.
  revert q n. induction l as [|a l IH]; intros q n; simpl.
  { by destruct (q !! i). }
  unfold insert_row at 2; simpl. destruct (q !! a) eqn:Ha.
  - rewrite IH. destruct (q !! i) eqn:Hi; [done|].
    apply decide_ext. rewrite elem_of_cons.
    split; [by right|by intros [->|?]; [congruence|]].
  - rewrite IH. destruct (decide (a = i)) as [->|Hne].
    + rewrite lookup_insert_eq, Ha. by rewrite decide_True by left.
    + rewrite lookup_insert_ne by done. destruct (q !! i) eqn:Hi; [done|].
      apply decide_ext. rewrite elem_of_cons.
    split; [by right|by intros [->|?]; [congruence|]].
Qed.

Lemma insert_statement_size now l q n :
  let '(q', k) := fold_left (insert_row now) l (q, n) in (size q' + n = size q + k)%nat.
Proof.
  revert q n. induction l as [|a l IH]; intros q n; simpl; [lia|].
  unfold insert_row at 2; simpl. destruct (q !! a) eqn:Ha; [apply IH|].
  specialize (IH (<[a := mk_row None now]> q) (S n)).
  destruct (fold_left _ _ _). rewrite map_size_insert_None in IH by done. lia.
Qed.

Lemma delete_queued_objects_lookup l p q n i :
  (fold_left (delete_row p) l (q, n)).1 !! i =
  if decide (i ∈ l /\ (processed_by <$> q !! i) = Some (Some p)) then None else q !! i.
Proof.
  revert q n. induction l as [|a l IH]; intros q n; simpl.
  { done. }
  unfold delete_row at 2; simpl.
  destruct (q !! a) as [r|] eqn:Ha; [case_bool_decide as Hr|]; rewrite IH; clear IH.
  - destruct (decide (a = i)) as [->|Hne].
    + rewrite lookup_delete_eq, Ha. simpl. rewrite Hr.
      repeat case_decide; set_solver.
    + rewrite lookup_delete_ne by done. apply decide_ext. set_solver.
  - apply decide_ext. destruct (decide (a = i)) as [->|]; [rewrite Ha; simpl|set_solver].
    split; intros [_ ?]; congruence.
  - apply decide_ext. destruct (decide (a = i)) as [->|]; [rewrite Ha; simpl|set_solver].
    split; intros [_ ?]; congruence.
Qed.

Lemma elem_of_candidates q mo now locked i r :
  (i, r) ∈ candidates q mo now locked <->
  q !! i = Some r /\ eligible mo now r = true /\ i ∉ locked.
Proof.
  unfold candidates. rewrite list_elem_of_filter, elem_of_map_to_list. simpl. naive_solver.
Qed.

Lemma sorted_candidates_perm q mo now locked :
  merge_sort older (candidates q mo now locked) ≡ₚ candidates q mo now locked.
Proof. apply merge_sort_Permutation. Qed.

Lemma dequeued_ids_elem q count mo now locked i :
  i ∈ dequeued_ids q count mo now locked ->
  exists r, q !! i = Some r /\ eligible mo now r = true /\ i ∉ locked.
Proof.
  unfold dequeued_ids. intros ([i' r] & -> & Hin)%list_elem_of_fmap. exists r.
  apply elem_of_candidates. rewrite <- sorted_candidates_perm.
  by eapply elem_of_take in Hin as (? & ? & _); eapply list_elem_of_lookup_2.
Qed.

Lemma dequeued_ids_NoDup q count mo now locked : NoDup (dequeued_ids q count mo now locked).
Proof.
  unfold dequeued_ids. rewrite fmap_take. eapply sublist_NoDup; [|apply sublist_take].
  rewrite sorted_candidates_perm. apply NoDup_fmap_fst.
  - intros i r1 r2 [? _]%elem_of_candidates [? _]%elem_of_candidates. congruence.
  - apply NoDup_filter, NoDup_map_to_list.
Qed.

Lemma dequeued_ids_length q count mo now locked :
  length (dequeued_ids q count mo now locked)
  = (count `min` length (candidates q mo now locked))%nat.
Proof.
  unfold dequeued_ids. by rewrite length_fmap, length_take, sorted_candidates_perm.
Qed.

(** Rows left unclaimed although eligible are at least as recent as every
    claimed one. *)
Lemma dequeued_ids_oldest q count mo now locked i j ri rj :
  i ∈ dequeued_ids q count mo now locked -> q !! i = Some ri ->
  (j, rj) ∈ candidates q mo now locked -> j ∉ dequeued_ids q count mo now locked ->
  processing_started_at ri <= processing_started_at rj.
Proof.
  intros Hi Hri Hj Hnj. pose proof (StronglySorted_merge_sort older (candidates q mo now locked)) as Hs.
  unfold dequeued_ids in *. rewrite <- sorted_candidates_perm in Hj.
  set (l := merge_sort older (candidates q mo now locked)) in *.
  rewrite <- (take_drop count l) in Hs, Hj.
  apply list_elem_of_fmap in Hi as ([i' r] & -> & Hin). simpl in Hri.
  apply elem_of_app in Hj as [Hj|Hj].
  { destruct Hnj. apply list_elem_of_fmap. by exists (j, rj). }
  assert ((i', r) ∈ candidates q mo now locked) as Hc.
  { rewrite <- sorted_candidates_perm. fold l. rewrite <- (take_drop count l).
    apply elem_of_app; by left. }
  apply elem_of_candidates in Hc as [Hr _]. simplify_eq.
  by eapply (StronglySorted_app_1_elem_of older _ _ (i', ri) (j, rj)) in Hs.
Qed.

Lemma claim_rows_lookup p now l q i :
  fold_left (claim_row p now) l q !! i =
  if decide (i ∈ l) then Some (mk_row (Some p) now) else q !! i.
Proof.
  revert q. induction l as [|a l IH]; intros q; simpl; [done|].
  rewrite IH. unfold claim_row. destruct (decide (i ∈ l)).
  { by rewrite decide_True by (by right). }
  destruct (decide (a = i)) as [->|].
  - by rewrite lookup_insert_eq, decide_True by left.
  - rewrite lookup_insert_ne by done. by rewrite decide_False by set_solver.
Qed.

Lemma acquire_lookup q count p mo now locked i :
  (acquire_queued_objects q count p mo now locked).1 !! i =
  if decide (i ∈ dequeued_ids q count mo now locked)
  then Some (mk_row (Some p) now) else q !! i.
Proof. apply claim_rows_lookup. Qed.

Lemma acquire_ids q count p mo now locked :
  object_id <$> (acquire_queued_objects q count p mo now locked).2
  = dequeued_ids q count mo now locked.
Proof. simpl. rewrite <- list_fmap_compose. apply list_fmap_id. Qed.

Lemma queue_objects_lookup now q l i :
  (queue_objects now q l).1 !! i =
  match q !! i with
  | Some r => Some r
  | None => if decide (i ∈ l) then Some (mk_row None now) else None
  end.
Proof.
  rewrite queue_objects_unchunked. unfold insert_statement. rewrite insert_statement_lookup.
  destruct (q !! i); [done|]. apply decide_ext. by rewrite merge_sort_Permutation.
Qed.

Lemma delete_lookup q l p i :
  (delete_queued_objects q l p).1 !! i =
  if decide (i ∈ l /\ (processed_by <$> q !! i) = Some (Some p)) then None else q !! i.
Proof. rewrite delete_queued_objects_unchunked. apply delete_queued_objects_lookup. Qed.

(** ** Properties *)

(** Enqueueing in sorted chunks is an idempotent set union. Queued or claimed
    rows keep their owner and age, new ids get an unclaimed row dated now, and
    the count returned is the number of rows added. *)
Theorem queue_objects_union now q l :
  let '(q', n) := queue_objects now q l in
  dom q' = dom q ∪ list_to_set l /\
  (forall i r, q !! i = Some r -> q' !! i = Some r) /\
  (forall i, i ∈ l -> q !! i = None -> q' !! i = Some (mk_row None now)) /\
  size q' = (size q + n)%nat /\
  forall now', queue_objects now' q' l = (q', 0%nat).
Proof.
  destruct (queue_objects now q l) as [q' n] eqn:E.
  assert (Hl : forall i, q' !! i = match q !! i with Some r => Some r | None =>
            if decide (i ∈ l) then Some (mk_row None now) else None end).
  { intros i. pose proof (queue_objects_lookup now q l i) as H. by rewrite E in H. }
  assert (Hsz : size q' = (size q + n)%nat).
  { rewrite queue_objects_unchunked in E. unfold insert_statement in E.
    pose proof (insert_statement_size now (merge_sort String.le l) q 0) as H. rewrite E in H. lia. }
  split_and!; [|intros i r Hi; by rewrite Hl, Hi| |done|].
  - apply set_eq. intros i. rewrite elem_of_union, !elem_of_dom, elem_of_list_to_set, Hl.
    unfold is_Some. destruct (q !! i); [naive_solver|]. case_decide; naive_solver.
  - intros i Hi Hn. by rewrite Hl, Hn, decide_True.
  - intros now'. destruct (queue_objects now' q' l) as [q'' n'] eqn:E'.
    assert (q'' = q') as ->.
    { apply map_eq. intros i. pose proof (queue_objects_lookup now' q' l i) as H.
      rewrite E' in H. simpl in H. rewrite H, Hl. destruct (q !! i); [done|]. by case_decide. }
    rewrite queue_objects_unchunked in E'. unfold insert_statement in E'.
    pose proof (insert_statement_size now' (merge_sort String.le l) q' 0) as H.
    rewrite E' in H. f_equal. lia.
Qed.

(** A claim takes as many rows as allowed and available, each exactly once
    and only rows that are unclaimed or whose claim is older than
    [max_outdated] and that no other transaction holds; it never passes over a
    row older than one it takes, and it changes no other row. *)
Theorem acquire_queued_objects_spec q count p max_outdated now locked :
  let '(q', claimed) := acquire_queued_objects q count p max_outdated now locked in
  let ids := object_id <$> claimed in
  NoDup ids /\
  length ids = (count `min` length (candidates q max_outdated now locked))%nat /\
  (forall i, i ∈ ids -> q' !! i = Some (mk_row (Some p) now) /\
     (exists r, q !! i = Some r /\ (i ∉ locked) /\
       (processed_by r = None \/ processing_started_at r + max_outdated < now))) /\
  (forall i, i ∉ ids -> q' !! i = q !! i) /\
  (forall i j ri rj, i ∈ ids -> q !! i = Some ri -> j ∉ ids -> q !! j = Some rj ->
     eligible max_outdated now rj = true -> j ∉ locked ->
     processing_started_at ri <= processing_started_at rj).
Proof.
  pose proof (acquire_lookup q count p max_outdated now locked) as Hl.
  pose proof (acquire_ids q count p max_outdated now locked) as Hi.
  destruct (acquire_queued_objects _ _ _ _ _ _) as [q' claimed]; simpl in Hl, Hi |- *.
  rewrite Hi. split_and!.
  - apply dequeued_ids_NoDup.
  - apply dequeued_ids_length.
  - intros i Hin. rewrite Hl, decide_True by done. split; [done|].
    apply dequeued_ids_elem in Hin as (r & ? & He & ?). exists r. split_and!; [done..|].
    unfold eligible in He. apply orb_prop in He as [?%bool_decide_eq_true|?%Z.ltb_lt]; auto.
  - intros i Hin. by rewrite Hl, decide_False.
  - intros i j ri rj ??????. eapply dequeued_ids_oldest; [done..| |done].
    by apply elem_of_candidates.
Qed.

(** The iteration table keeps the ten newest iterations and nothing older. *)
Theorem delete_old_iterations_retains it :
  0 < next_id it < 2 ^ 63 - 1 -> (forall i, i ∈ ids it -> 0 < i < next_id it) ->
  let '(id, it1) := create_iteration it in
  let it2 := delete_old_iterations it1 id in
  id ∈ ids it2 /\ (forall i, i ∈ ids it2 -> 0 < i < next_id it2) /\
  (forall i, i ∈ ids it2 <-> i ∈ ids it1 /\ id - 10 < i) /\
  (size (ids it2) <= 10)%nat.
Proof.
  intros Hid Hids. simpl. unfold delete_old_iterations; simpl.
  rewrite Z.mod_small by lia. unfold NUM_RETAINED.
  set (S1 := {[next_id it]} ∪ ids it).
  assert (Hiff : forall i, i ∈ filter (fun i => Z.max 0 (next_id it - 10) + 1 <= i) S1 <->
                           i ∈ S1 /\ next_id it - 10 < i).
  { intros i. rewrite elem_of_filter. split; intros [? ?]; split; try done; try lia.
    assert (0 < i); [|lia]. subst S1. apply elem_of_union in H as [->%elem_of_singleton|?%Hids]; lia. }
  split_and!.
  - apply Hiff. subst S1. split; [set_solver|lia].
  - intros i [Hi _]%Hiff. subst S1. apply elem_of_union in Hi as [->%elem_of_singleton|?%Hids]; lia.
  - done.
  - transitivity (size (list_to_set (C := gset Z) (seqZ (next_id it - 9) 10))).
    + apply subseteq_size. intros i [Hi Hlt]%Hiff. apply elem_of_list_to_set, elem_of_seqZ.
      subst S1. apply elem_of_union in Hi as [->%elem_of_singleton|?%Hids]; lia.
    + rewrite size_list_to_set by apply NoDup_seqZ. by rewrite length_seqZ.
Qed.

Lemma delete_old_iterations_retains_witness :
  size (ids (delete_old_iterations (mk_iterations (list_to_set (seqZ 1 12)) 13) 12)) = 10%nat /\
  let it := mk_iterations (list_to_set (seqZ 3 10)) 13 in
  (size (ids (delete_old_iterations (create_iteration it).2 (create_iteration it).1)) <= 10)%nat.
Proof.
  split; [vm_compute; reflexivity|].
  refine (proj2 (proj2 (proj2 (delete_old_iterations_retains _ _ _)))).
  - simpl. lia.
  - intros i Hi%elem_of_list_to_set%elem_of_seqZ. simpl. lia.
Defined.

End Queue.
