(* ===== verification/Processor.v ===== *)
(** * Processor: [process_object] of crates/state-controller/src/controller/processor.rs

    One handling attempt of one object: load a snapshot, run the handler, and
    persist its outcome in one transaction. The controller-specific parts are
    the class [StateControllerIO] (crates/state-controller/src/io.rs); the
    controllers are instances of it.

    Everything that can go wrong at an [await] is an argument: [ev] says for each
    await point whether the call succeeds, fails, is applied with the reply lost,
    or is where the deadline fires; [others] says what other transactions commit
    before a transaction begins. A transaction is serialised at its beginning:
    the rows it touches stay locked until it ends. *)

From S2P Require Import Prelude Text ConfigVersion StateHandler.
Import ConfigVersion StateHandler.

Module Processor.

Record StateSla := mk_sla { sla : option Z; time_in_state_above_sla : bool }.
Definition no_sla : StateSla := mk_sla None false.
Definition with_sla (s time_in_state : Z) : StateSla := mk_sla (Some s) (s <? time_in_state).

Definition secs (n : Z) : Z := n * 1000000000.
(** The time since a version was made; a version from the future counts as a day. *)
Definition since_version (v : ConfigVersion.t) (now : Z) : Z :=
  let d := now - timestamp v in if d <? 0 then secs (60 * 60 * 24) else d.

(** [StateControllerIO]. [Db] is the database, [S] the loaded object, [C] the
    controller state. *)
Class StateControllerIO (Db I S C : Type) := {
  C_eq_dec :: EqDecision C;
  id_to_string : I -> string;
  show_state : C -> string;
  list_objects : Db -> result DatabaseError (list I);
  load_object_state : Db -> I -> result DatabaseError (option S);
  load_controller_state : Db -> I -> S -> result DatabaseError (versioned C);
  persist_controller_state : Db -> I -> ConfigVersion.t -> ConfigVersion.t -> C ->
    result DatabaseError (Db * ConditionalWrite unit ControllerStateNotCurrent);
  persist_state_history : Db -> I -> ConfigVersion.t -> C -> result DatabaseError Db;
  persist_outcome : Db -> I -> PersistentOutcome -> result DatabaseError Db;
  metric_state_names : C -> string * string;
  manual_intervention_reason : C -> option string;
  (** the second argument is the current time *)
  state_sla : versioned C -> Z -> S -> StateSla
}.

Definition MISSING_OBJECT_STATE : string := "object_state".

Inductive await_point :=
| BeginLoad | LoadObject | LoadController | CommitLoad | RunHandler
| BeginWrite | ApplyPending | RollbackPending | BeginAfterError
| PersistState | RollbackState | PersistHistory | PersistOutcome | CommitWrite
| RollbackError | BeginOutcome | PersistErrorOutcome | CommitOutcome.

Inductive call :=
| CallOk             (** the call succeeds *)
| CallFails          (** the database reports an error *)
| CallLost           (** a commit is applied, its reply is lost *)
| CallElapsed        (** the deadline fires here *)
| CallElapsedApplied (** the deadline fires while a commit is being applied *).

(** ** Metrics of one attempt *)

Record metrics (C : Type) := mk_metrics {
  initial_state : option C;
  state_entered_at : option Z;
  time_in_state : Z;
  m_above_sla : bool;
  m_sla : option Z;
  next_state : option C;
  iteration_invalidated : bool;
  error : option StateHandlerError
}.
Arguments mk_metrics {C}.
Arguments initial_state {C} _.
Arguments state_entered_at {C} _.
Arguments time_in_state {C} _.
Arguments m_above_sla {C} _.
Arguments m_sla {C} _.
Arguments next_state {C} _.
Arguments iteration_invalidated {C} _.
Arguments error {C} _.

Definition default_metrics {C} : metrics C := mk_metrics None None 0 false None None false None.

(** [metrics.common] after the snapshot was loaded. *)
Definition loaded_metrics {C} (cs : versioned C) (now : Z) (s : StateSla) : metrics C :=
  let d := now - timestamp (version cs) in
  mk_metrics (Some (value cs)) (Some (timestamp (version cs)))
    (if d <? 0 then 86400 * 1000000000 else d)
    (time_in_state_above_sla s) (sla s) None false None.

Definition set_next {C} (m : metrics C) (n : option (C * Z * option Z)) : metrics C :=
  match n with
  | Some (next, entered, s) =>
      mk_metrics (initial_state m) (Some entered) (time_in_state m) (m_above_sla m) s
        (Some next) (iteration_invalidated m) (error m)
  | None => mk_metrics (initial_state m) (state_entered_at m) (time_in_state m) (m_above_sla m)
        (m_sla m) None (iteration_invalidated m) (error m)
  end.
Definition set_invalidated {C} (m : metrics C) : metrics C :=
  mk_metrics (initial_state m) (state_entered_at m) (time_in_state m) (m_above_sla m) (m_sla m)
    (next_state m) true (error m).
Definition set_error {C} (m : metrics C) (e : StateHandlerError) : metrics C :=
  mk_metrics (initial_state m) (state_entered_at m) (time_in_state m) (m_above_sla m) (m_sla m)
    (next_state m) (iteration_invalidated m) (Some e).

(** ** The attempt as a computation *)

(** How a timed computation ends: with a value, by [?], or by its deadline. *)
Inductive exit (A : Type) :=
| Done (a : A)
| Raised (e : StateHandlerError)
| Elapsed.
Arguments Done {A} a.
Arguments Raised {A} e.
Arguments Elapsed {A}.

Section Process.
Context {Db I S C : Type} `{!StateControllerIO Db I S C}.

(** The handler, as a function of the database when it runs. *)
Variable handler : I -> S -> C -> Db -> handled Db C.
Variable ev : await_point -> call.
Variable others : await_point -> Db -> Db.

(** The committed database and the metrics recorded so far. *)
Record pstate := mk_pstate { committed : Db; met : metrics C }.

Definition M (A : Type) : Type := pstate -> exit A * pstate.

#[local] Instance M_ret : MRet M := fun A a s => (Done a, s).
#[local] Instance M_bind : MBind M := fun A B f m s =>
  match m s with
  | (Done a, s) => f a s
  | (Raised e, s) => (Raised e, s)
  | (Elapsed, s) => (Elapsed, s)
  end.

Definition step {A} (f : pstate -> exit A * pstate) : M A := f.
Definition raise {A} (e : StateHandlerError) : M A := fun s => (Raised e, s).
Definition lift {A} (r : result StateHandlerError A) : M A := fun s =>
  match r with Ok a => (Done a, s) | Err e => (Raised e, s) end.
Definition put_metrics (f : metrics C -> metrics C) : M unit := fun s =>
  (Done (), mk_pstate (committed s) (f (met s))).

Definition transaction_error : StateHandlerError := TransactionError "database".

(** An await whose failure is an error of the attempt. *)
Definition await (p : await_point) (e : StateHandlerError) : M unit := fun s =>
  match ev p with
  | CallOk => (Done (), s)
  | CallFails | CallLost => (Raised e, s)
  | CallElapsed | CallElapsedApplied => (Elapsed, s)
  end.

(** [pool.begin()]: other transactions may commit before it. *)
Definition begin_txn (p : await_point) : M Db :=
  _ ← await p transaction_error;
  step (fun s => let db := others p (committed s) in (Done db, mk_pstate db (met s))).

(** [txn.commit()]. *)
Definition commit_txn (p : await_point) (txn : Db) : M unit := fun s =>
  match ev p with
  | CallOk => (Done (), mk_pstate txn (met s))
  | CallFails => (Raised transaction_error, s)
  | CallLost => (Raised transaction_error, mk_pstate txn (met s))
  | CallElapsed => (Elapsed, s)
  | CallElapsedApplied => (Elapsed, mk_pstate txn (met s))
  end.

Definition db_error {A} (r : result DatabaseError A) : M A := lift (map_err DBError r).

(** Load the snapshot and the controller state in a short transaction. *)
Definition load (id : I) (now : Z) : M (S * versioned C * StateSla) :=
  txn ← begin_txn BeginLoad;
  _ ← await LoadObject (DBError (QueryError "database"));
  found ← db_error (load_object_state txn id);
  snapshot ← lift (ok_or (MissingData (id_to_string id) MISSING_OBJECT_STATE) found);
  _ ← await LoadController (DBError (QueryError "database"));
  cs ← db_error (load_controller_state txn id snapshot);
  let s := state_sla cs now snapshot in
  _ ← put_metrics (fun _ => loaded_metrics cs now s);
  _ ← await CommitLoad transaction_error;
  mret (snapshot, cs, s).

(** [handle_object_state]. The deadline strikes before what the handler commits by
    itself, or after it; the errors of its calls are in its outcome. *)
Definition run_handler (id : I) (snapshot : S) (c : C) : M (handled Db C) :=
  step (fun s => let h := handler id snapshot c (others RunHandler (committed s)) in
                 match ev RunHandler with
                 | CallElapsed => (Elapsed, s)
                 | CallElapsedApplied => (Elapsed, mk_pstate (h_db h) (met s))
                 | _ => (Done h, mk_pstate (h_db h) (met s))
                 end).

Definition is_invalidated (e : StateHandlerError) : bool :=
  match e with IterationInvalidated => true | _ => false end.

(** Choose the transaction and apply the queued writes in it. *)
Definition choose_transaction (h : handled Db C)
    : M (result StateHandlerError (StateHandlerOutcome Db C) * Db) :=
  match h_out h with
  | Ok outcome =>
      let '(t, outcome) := take_transaction outcome in
      txn ← match t with Some t => mret t | None => begin_txn BeginWrite end;
      r ← step (fun s => match ev ApplyPending with
                         | CallOk => (Done (apply_all (h_pending h) txn), s)
                         | CallFails | CallLost => (Done (Err transaction_error), s)
                         | CallElapsed | CallElapsedApplied => (Elapsed, s)
                         end);
      match r with
      | Ok txn' => mret (Ok outcome, txn')
      | Err e => if is_invalidated e
                 then _ ← await RollbackPending transaction_error; raise e
                 else mret (Err e, txn)
      end
  | Err e => if is_invalidated e then raise e
             else txn ← begin_txn BeginAfterError; mret (Err e, txn)
  end.

(** Persist the next state and its history record when the handler transitioned. *)
Definition persist_transition (id : I) (snapshot : S) (cs : versioned C) (clock : Z)
    (o : result StateHandlerError (StateHandlerOutcome Db C)) (txn : Db)
    : M (option (C * Z * option Z) * Db) :=
  match o with
  | Ok (Transition next _) =>
      let new_version := increment (version cs) clock in
      let next_sla := sla (state_sla (versioned_new next new_version) clock snapshot) in
      _ ← await PersistState (DBError (QueryError "database"));
      w ← db_error (persist_controller_state txn id (version cs) new_version next);
      match check_applied w.2 with
      | Err e => _ ← await RollbackState transaction_error; raise e
      | Ok _ =>
          _ ← await PersistHistory (DBError (QueryError "database"));
          txn' ← db_error (persist_state_history w.1 id new_version next);
          mret (Some (next, timestamp new_version, next_sla), txn')
      end
  | _ => mret (None, txn)
  end.

(** An object above its SLA turns waiting into an error. *)
Definition sla_outcome (above : bool) (o : result StateHandlerError (StateHandlerOutcome Db C))
    : result StateHandlerError (StateHandlerOutcome Db C) :=
  match o with
  | Ok (Wait reason _) =>
      if above then Err (TimeInStateAboveSla ("Wait(" +:+ quoted reason +:+ ")")) else o
  | Ok (DoNothing _) => if above then Err (TimeInStateAboveSla "DoNothing") else o
  | _ => o
  end.

(** Persist the outcome: with the handler's writes when it succeeded, in a
    transaction of its own when it failed. *)
Definition persist_and_commit (id : I) (is_success : bool)
    (o : result StateHandlerError (StateHandlerOutcome Db C)) (txn : Db) : M unit :=
  if is_success then
    txn' ← match from_result o with
           | None => mret txn
           | Some p => _ ← await PersistOutcome (DBError (QueryError "database"));
                       db_error (persist_outcome txn id p)
           end;
    commit_txn CommitWrite txn'
  else
    match from_result o with
    | None => mret ()
    | Some p =>
        _ ← step (fun s => match ev RollbackError with
                           | CallElapsed | CallElapsedApplied => (Elapsed, s)
                           | _ => (Done (), s)
                           end);
        txn ← begin_txn BeginOutcome;
        _ ← await PersistErrorOutcome (DBError (QueryError "database"));
        txn' ← db_error (persist_outcome txn id p);
        commit_txn CommitOutcome txn'
    end.

(** The end of the attempt, from the handler's outcome and its transaction. *)
Definition finish (id : I) (snapshot : S) (cs : versioned C) (s : StateSla) (clock : Z)
    (handler_outcome : result StateHandlerError (StateHandlerOutcome Db C)) (txn : Db)
    : M (StateHandlerOutcome Db C) :=
  persisted ← persist_transition id snapshot cs clock handler_outcome txn;
  let '(next, txn) := persisted in
  let final_outcome := sla_outcome (time_in_state_above_sla s) handler_outcome in
  _ ← persist_and_commit id (is_ok handler_outcome) final_outcome txn;
  _ ← put_metrics (fun m => set_next m next);
  lift final_outcome.

(** The timed block of [process_object]; [late] says that the task first runs
    after its deadline. [now] is the time of the load, [clock] that of the
    version increment. *)
Definition process_body (id : I) (late : bool) (now clock : Z)
    : M (StateHandlerOutcome Db C) :=
  if late then raise (Timeout (id_to_string id) "") else
  loaded ← load id now;
  let '(snapshot, cs, s) := loaded in
  h ← run_handler id snapshot (value cs);
  chosen ← choose_transaction h;
  let '(handler_outcome, txn) := chosen in
  finish id snapshot cs s clock handler_outcome txn.

(** ** After the timed block *)

Inductive ManualIntervention := Required (reason : string) | NotRequired | Unknown.

(** What happens to the object's per-object gauges. *)
Inductive gauge :=
| GClear
| GRecord (state substate : string) (entered : Z) (sla : option Z) (m : ManualIntervention)
| GTouch.

(** The [Result] of the attempt, with an invalidated iteration counted as fine. *)
Definition attempt_metrics (id : I) (r : exit (StateHandlerOutcome Db C)) (m : metrics C)
    : metrics C :=
  match r with
  | Done _ => m
  | Raised e => if is_invalidated e then set_invalidated m else set_error m e
  | Elapsed => set_error m (Timeout (id_to_string id)
                 (match initial_state m with Some c => show_state c | None => "" end))
  end.

Definition manual_intervention (final : C) (e : option StateHandlerError) : ManualIntervention :=
  match manual_intervention_reason final, e with
  | Some reason, _ => Required reason
  | None, Some (ManualInterventionRequired _ as err) => Required (metric_label err)
  | None, None => NotRequired
  | None, Some (TimeInStateAboveSla _) => NotRequired
  | None, Some _ => Unknown
  end.

Definition object_gone (r : exit (StateHandlerOutcome Db C)) (m : metrics C) : bool :=
  match r with
  | Done (Deleted _) => true
  | _ => match error m with
         | Some (MissingData _ missing) => String.eqb missing MISSING_OBJECT_STATE
         | _ => false
         end
  end.

Definition gauge_update (r : exit (StateHandlerOutcome Db C)) (m : metrics C) : gauge :=
  if object_gone r m then GClear
  else if iteration_invalidated m then GTouch
  else match match next_state m with Some n => Some n | None => initial_state m end,
             state_entered_at m with
       | Some final, Some entered =>
           let '(st, sub) := metric_state_names final in
           GRecord st sub entered (m_sla m) (manual_intervention final (error m))
       | _, _ => GTouch
       end.

(** [process_object]: the database afterwards, the metrics, the state change
    published to the hooks and the gauge update. *)
Record processed := mk_processed {
  p_db : Db;
  p_metrics : metrics C;
  p_event : option C;
  p_gauge : gauge
}.

Definition process_object (id : I) (late : bool) (now clock : Z) (db : Db) : processed :=
  let '(r, s) := process_body id late now clock (mk_pstate db default_metrics) in
  let m := attempt_metrics id r (met s) in
  mk_processed (committed s) m (next_state (met s)) (gauge_update r m).

(** [process_object_handling_task_result]: whether the object is queued again. *)
Definition requeues (m : metrics C) : bool :=
  bool_decide (is_Some (next_state m)) || iteration_invalidated m.

(** ** What each phase does *)

Lemma bind_unfold {A B} (m : M A) (f : A -> M B) s :
  (m ≫= f) s = match m s with
               | (Done a, s) => f a s
               | (Raised e, s) => (Raised e, s)
               | (Elapsed, s) => (Elapsed, s)
               end.
Proof. done. Qed.

#[local] Ltac run H :=
  repeat (rewrite ?bind_unfold in H;
          unfold await, step, commit_txn, raise, lift, db_error, put_metrics, map_err, ok_or,
            mret, M_ret in H; simpl in H;
          split_inner H).

(** The steps by which the database changes without the iteration's own
    outcome transaction: other transactions, and what the handler commits. *)
Inductive external (id : I) : Db -> Db -> Prop :=
| ext_others p db : external id db (others p db)
| ext_handler snapshot c p db :
    external id db (h_db (handler id snapshot c (others p db))).

(** The record of an outcome in a transaction; none for a deleted object. *)
Definition outcome_record (id : I) (o : result StateHandlerError (StateHandlerOutcome Db C))
    (txn txn' : Db) : Prop :=
  match from_result o with
  | Some p => persist_outcome txn id p = Ok txn'
  | None => txn' = txn
  end.

(** [h] is what the handler did on a snapshot in controller state [c]. *)
Definition ran (id : I) (c : C) (h : handled Db C) : Prop :=
  exists snapshot db, h = handler id snapshot c (others RunHandler db).

(** The transaction the outcome is persisted in: the handler's own, opened on
    what it left committed, or a new one. *)
Definition start_txn (base : Db) (h : handled Db C) (t : option Db) (txn : Db) : Prop :=
  match t with Some t => base = h_db h /\ txn = t | None => txn = base end.

(** The transactions an iteration may commit on top of [base]. *)
Inductive iteration_commit (id : I) (clock : Z) (base : Db) : option C -> Db -> Prop :=
| commit_quiet h c o t o' txn0 txn above db :
    ran id c h -> h_out h = Ok o -> take_transaction o = (t, o') ->
    (forall n t, o' <> Transition n t) ->
    start_txn base h t txn0 -> apply_all (h_pending h) txn0 = Ok txn ->
    outcome_record id (sla_outcome above (Ok o')) txn db ->
    iteration_commit id clock base None db
| commit_transition h o t next txn0 txn1 (cs : versioned C) txn2 txn3 db :
    ran id (value cs) h -> h_out h = Ok o -> take_transaction o = (t, Transition next None) ->
    start_txn base h t txn0 -> apply_all (h_pending h) txn0 = Ok txn1 ->
    persist_controller_state txn1 id (version cs) (increment (version cs) clock) next
      = Ok (txn2, Applied ()) ->
    persist_state_history txn2 id (increment (version cs) clock) next = Ok txn3 ->
    persist_outcome txn3 id PTransition = Ok db ->
    iteration_commit id clock base (Some next) db
| commit_error e db :
    e <> IterationInvalidated ->
    persist_outcome base id (PError (display_error e)) = Ok db ->
    iteration_commit id clock base None db.

Lemma load_db id now s r s' :
  load id now s = (r, s') ->
  (committed s' = committed s \/ committed s' = others BeginLoad (committed s)) /\
  (next_state (met s) = None -> next_state (met s') = None).
Proof. unfold load, begin_txn. intros H. run H; auto. Qed.

(** What the handler is called with. *)
Lemma load_done id now s snapshot cs sl s' :
  load id now s = (Done (snapshot, cs, sl), s') ->
  load_object_state (others BeginLoad (committed s)) id = Ok (Some snapshot) /\
  load_controller_state (others BeginLoad (committed s)) id snapshot = Ok cs /\
  committed s' = others BeginLoad (committed s).
Proof.
  unfold load, begin_txn. intros H. run H; split_and!; try done;
    repeat match goal with E : map_err _ ?r = Ok _ |- _ => destruct r eqn:?; simplify_eq/= end; try done.
Qed.

Lemma run_handler_db id snapshot c s r s' :
  run_handler id snapshot c s = (r, s') ->
  met s' = met s /\
  match r with
  | Done h => h = handler id snapshot c (others RunHandler (committed s)) /\ committed s' = h_db h
  | _ => committed s' = committed s \/ committed s' = h_db (handler id snapshot c (others RunHandler (committed s)))
  end.
Proof. unfold run_handler, step. intros H. destruct (ev RunHandler); simplify_eq; simpl; auto. Qed.

Lemma choose_transaction_db h s r s' :
  committed s = h_db h -> choose_transaction h s = (r, s') ->
  met s' = met s /\
  (committed s' = committed s \/ exists p, committed s' = others p (committed s)) /\
  match r with
  | Done (Ok o', txn) => exists o t txn0, h_out h = Ok o /\ take_transaction o = (t, o') /\
      start_txn (committed s') h t txn0 /\ apply_all (h_pending h) txn0 = Ok txn
  | Done (Err e, _) => e <> IterationInvalidated
  | _ => True
  end.
Proof.
  unfold choose_transaction, begin_txn. intros Hs H. run H; split_and!; eauto;
    try (intros ->; done); by eexists _, _, _.
Qed.

Lemma persist_transition_db id snapshot cs clock o txn s r s' :
  persist_transition id snapshot cs clock o txn s = (r, s') ->
  s' = s /\
  match r with
  | Done (Some (next, _, _), txn3) => exists t txn2, o = Ok (Transition next t) /\
      persist_controller_state txn id (version cs) (increment (version cs) clock) next
        = Ok (txn2, Applied ()) /\
      persist_state_history txn2 id (increment (version cs) clock) next = Ok txn3
  | Done (None, txn') => txn' = txn /\ forall n t, o <> Ok (Transition n t)
  | _ => True
  end.
Proof.
  unfold persist_transition. intros H. run H; split_and!; try done; eauto.
  rename select (check_applied _ = _) into Hw. apply check_applied_Ok in Hw.
  match goal with w : (Db * _)%type |- _ => destruct w as [? []]; simplify_eq/= end.
  by destruct a0; eauto 6.
Qed.

(** The final transaction: what may be committed and by which result. *)
Lemma persist_and_commit_db id ok o txn s r s' :
  persist_and_commit id ok o txn s = (r, s') ->
  met s' = met s /\ r <> Raised IterationInvalidated /\
  ((r <> Done () /\ (committed s' = committed s \/
                     committed s' = others BeginOutcome (committed s))) \/
   (ok = true /\ outcome_record id o txn (committed s')) \/
   (ok = false /\ from_result o = None /\ committed s' = committed s) \/
   (ok = false /\ exists p, from_result o = Some p /\
      persist_outcome (others BeginOutcome (committed s)) id p = Ok (committed s'))).
Proof.
  unfold persist_and_commit, begin_txn, outcome_record. intros H.
  run H; (split; [done|]); (split; [done|]);
    first [ right; left; by split
          | right; right; right; split; [done|]; eexists; by split
          | right; right; left; by split
          | left; split; [done|by (left + right)] ].
Qed.

Lemma is_invalidated_false e : is_invalidated e = false <-> e <> IterationInvalidated.
Proof. by destruct e. Qed.

Lemma external_step id p db db' :
  db' = db \/ db' = others p db -> rtc (external id) db db'.
Proof. intros [->| ->]; [done|]. apply rtc_once, ext_others. Qed.

(** What a run may leave: nothing of its own, or one whole commit. *)
Definition all_or_nothing (id : I) (clock : Z) (start : Db)
    (r : exit (StateHandlerOutcome Db C)) (s' : pstate) : Prop :=
  exists base, rtc (external id) start base /\
    ((committed s' = base /\ next_state (met s') = None /\ forall o, r <> Done o) \/
     exists n, iteration_commit id clock base n (committed s') /\
       r <> Raised IterationInvalidated /\
       (next_state (met s') = None \/ next_state (met s') = n)).

Lemma nothing_done id clock start (r : exit (StateHandlerOutcome Db C)) s' :
  rtc (external id) start (committed s') -> next_state (met s') = None ->
  (forall o, r <> Done o) -> all_or_nothing id clock start r s'.
Proof. intros. exists (committed s'). auto. Qed.

Lemma all_or_nothing_from id clock start db r s' :
  rtc (external id) start db -> all_or_nothing id clock db r s' ->
  all_or_nothing id clock start r s'.
Proof. intros Hr (base & Hb & Hc). exists base. split; [by etrans|done]. Qed.

Lemma sla_outcome_transition above (n : C) (t : option Db) :
  sla_outcome above (Ok (Transition n t)) = Ok (Transition n t).
Proof. done. Qed.

Lemma from_result_err above (e : StateHandlerError) :
  from_result (sla_outcome above (Err e)) = Some (PError (display_error e)).
Proof. done. Qed.

Definition next_of (n : option (C * Z * option Z)) : option C :=
  match n with Some (c, _, _) => Some c | None => None end.

(** A successful outcome recorded on the handler's transaction is one commit. *)
Lemma success_commit id clock h (cs : versioned C) o t o' txn0 txn next txn' base db above :
  ran id (value cs) h -> h_out h = Ok o -> take_transaction o = (t, o') ->
  start_txn base h t txn0 -> apply_all (h_pending h) txn0 = Ok txn ->
  match next with
  | Some (n, _, _) => exists u txn2, o' = Transition n u /\
      persist_controller_state txn id (version cs) (increment (version cs) clock) n
        = Ok (txn2, Applied ()) /\
      persist_state_history txn2 id (increment (version cs) clock) n = Ok txn'
  | None => txn' = txn /\ forall n t, o' <> Transition n t
  end ->
  outcome_record id (sla_outcome above (Ok o')) txn' db ->
  iteration_commit id clock base (next_of next) db.
Proof.
  intros Hran Hout Ht Hst Happ Hnext Hrec. destruct next as [[[n e] sl]|]; simpl.
  - destruct Hnext as (u & txn2 & -> & Hcas & Hhist).
    assert (u = None) as -> by (destruct o; simpl in Ht; congruence).
    by eapply commit_transition.
  - destruct Hnext as [-> Hnt]. by eapply commit_quiet.
Qed.

Lemma put_next_metrics (m : metrics C) next :
  next_state (set_next m next) = next_of next.
Proof. by destruct next as [[[??]?]|]. Qed.

(** Recording the next state after the commit. *)
Lemma record_next_db next (o : result StateHandlerError (StateHandlerOutcome Db C)) s r s' :
  (_ ← put_metrics (fun m => set_next m next); lift o) s = (r, s') ->
  committed s' = committed s /\ next_state (met s') = next_of next.
Proof.
  rewrite bind_unfold. unfold put_metrics, lift; simpl.
  destruct o; intros; simplify_eq/=; by rewrite put_next_metrics.
Qed.

Lemma finish_not_invalidated next above ho s r s' :
  ho <> Err IterationInvalidated ->
  (_ ← put_metrics (fun m => set_next m next); lift (sla_outcome above ho)) s = (r, s') ->
  r <> Raised IterationInvalidated.
Proof.
  rewrite bind_unfold. unfold put_metrics, lift, sla_outcome; simpl.
  intros Hho H Hr. subst r. repeat split_inner H.
Qed.

Lemma finish_atomic id snapshot cs sl clock ho txn s r s' :
  next_state (met s) = None ->
  match ho with
  | Ok o' => exists h o t txn0, ran id (value cs) h /\ h_out h = Ok o /\
      take_transaction o = (t, o') /\ start_txn (committed s) h t txn0 /\
      apply_all (h_pending h) txn0 = Ok txn
  | Err e => e <> IterationInvalidated
  end ->
  finish id snapshot cs sl clock ho txn s = (r, s') ->
  all_or_nothing id clock (committed s) r s'.
Proof.
  intros Hn Hho H. unfold finish in H. rewrite bind_unfold in H.
  destruct (persist_transition _ _ _ _ _ _ s) as [rp s1] eqn:Hp.
  apply persist_transition_db in Hp as [-> Hp].
  destruct rp as [[next txn1]|e|]; simplify_eq; [|by apply nothing_done..].
  rewrite bind_unfold in H. destruct (persist_and_commit _ _ _ _ s) as [rc s2] eqn:Hc.
  apply persist_and_commit_db in Hc as [Hm [Hni [[Hnd Hdb]|[[Hok Hrec]|[(Hok & Hnone & _)|(Hok & p & Hpo & Hrec)]]]]].
  - apply (external_step id) in Hdb.
    destruct rc as [[]|e|]; simplify_eq; apply nothing_done; congruence.
  - destruct ho as [o'|e]; [|done]. destruct Hho as (h & o & t & txn0 & Hran & Hout & Ht & Hst & Happ).
    exists (committed s). split; [done|]. right. exists (next_of next). split_and!.
    + assert (committed s' = committed s2) as ->.
      { destruct rc as [[]|e|]; simplify_eq; [|done..]. by apply record_next_db in H as [-> _]. }
      eapply success_commit; [done..| |done].
      destruct next as [[[n e] sl']|]; [|naive_solver].
      destruct Hp as (u & txn2 & [= ->] & ? & ?). by eexists _, _.
    + destruct rc as [[]|e|]; simplify_eq; [|congruence..].
      by apply finish_not_invalidated in H.
    + destruct rc as [[]|e|]; simplify_eq; [right|left; congruence..].
      by apply record_next_db in H as [_ ->].
  - destruct ho as [|e]; [done|]. by rewrite from_result_err in Hnone.
  - destruct ho as [|e]; [done|]. rewrite from_result_err in Hpo. simplify_eq.
    exists (others BeginOutcome (committed s)). split; [apply rtc_once, ext_others|].
    right. exists None. destruct next as [[[n ?] ?]|]; [by destruct Hp as (? & ? & ? & _)|].
    assert (committed s' = committed s2 /\ next_state (met s') = None) as [-> ->].
    { destruct rc as [[]|?|]; simplify_eq; [|split; [done|congruence]..].
      by apply record_next_db in H. }
    split_and!; [by eapply commit_error| |by left].
    destruct rc as [[]|?|]; simplify_eq; [|congruence..].
    apply finish_not_invalidated in H; congruence.
Qed.

(** The timed block commits all or nothing of the iteration. *)
Lemma process_body_atomic id late now clock s r s' :
  next_state (met s) = None ->
  process_body id late now clock s = (r, s') -> all_or_nothing id clock (committed s) r s'.
Proof.
  intros Hn H. unfold process_body in H. destruct late.
  { unfold raise in H. simplify_eq. by apply nothing_done. }
  rewrite bind_unfold in H. destruct (load id now s) as [rl s1] eqn:Hload.
  apply load_db in Hload as [Hdb1 Hm1]. specialize (Hm1 Hn).
  apply (external_step id) in Hdb1.
  destruct rl as [[[snapshot cs] sl]|e|]; simplify_eq; [|by apply nothing_done..].
  rewrite bind_unfold in H. destruct (run_handler _ _ _ s1) as [rh s2] eqn:Hh.
  apply run_handler_db in Hh as [Hm2 Hdb2].
  assert (rtc (external id) (committed s) (committed s2)) as Hr2.
  { destruct rh as [h|e|]; [|destruct Hdb2 as [->|Hdb2]; [done|]..].
    1: destruct Hdb2 as [Hh Hdb2]; rewrite Hh in Hdb2. all: eapply rtc_r; [exact Hdb1|]; rewrite Hdb2; apply ext_handler. }
  destruct rh as [h|e|]; simplify_eq; [|apply nothing_done; [done|congruence|done]..].
  destruct Hdb2 as [Hh Hdb2].
  rewrite bind_unfold in H. destruct (choose_transaction h s2) as [rc s3] eqn:Hc.
  apply choose_transaction_db in Hc as (Hm3 & Hdb3 & Hcase); [|done].
  assert (rtc (external id) (committed s) (committed s3)) as Hr3.
  { destruct Hdb3 as [->|[p ->]]; [done|]. eapply rtc_r; [done|apply ext_others]. }
  destruct rc as [[ho txn]|e|]; simplify_eq; [|apply nothing_done; congruence..].
  eapply all_or_nothing_from; [exact Hr3|]. eapply finish_atomic; [congruence| |exact H].
  destruct ho; [|done]. destruct Hcase as (o & t & txn0 & ? & ? & ? & ?).
  eexists _, _, _, _.
  split_and!; [|done..]. by eexists _, _.
Qed.

Lemma attempt_invalidated id r (m : metrics C) :
  iteration_invalidated m = false ->
  iteration_invalidated (attempt_metrics id r m) = true -> r = Raised IterationInvalidated.
Proof.
  intros Hm. destruct r as [o|e|]; simpl; [congruence| |by rewrite Hm].
  by destruct e; simpl; rewrite ?Hm.
Qed.

Lemma attempt_next id r (m : metrics C) :
  next_state (attempt_metrics id r m) = next_state m.
Proof. destruct r as [o|e|]; [done| |done]. simpl. by destruct (is_invalidated e). Qed.

(** No phase sets the error or the invalidation mark: both are set at the end. *)
Definition unmarked (m : metrics C) : Prop := iteration_invalidated m = false /\ error m = None.

Lemma process_body_unmarked id late now clock s r s' :
  unmarked (met s) -> process_body id late now clock s = (r, s') -> unmarked (met s').
Proof.
  intros Hs H. unfold process_body in H. destruct late; [unfold raise in H; by simplify_eq|].
  rewrite bind_unfold in H. destruct (load id now s) as [rl s1] eqn:Hl.
  assert (unmarked (met s1)) as H1.
  { unfold load, begin_txn in Hl. clear H. by run Hl. }
  destruct rl as [[[snapshot cs] sl]|e|]; simplify_eq; [|done..].
  rewrite bind_unfold in H. destruct (run_handler _ _ _ s1) as [rh s2] eqn:Hh.
  apply run_handler_db in Hh as [Hm2 Hdb2].
  destruct rh as [h|e|]; simplify_eq; [|congruence..]. destruct Hdb2 as [_ Hdb2].
  rewrite bind_unfold in H. destruct (choose_transaction h s2) as [rc s3] eqn:Hc.
  apply choose_transaction_db in Hc as (Hm3 & _ & _); [|done].
  destruct rc as [[ho txn]|e|]; simplify_eq; [|congruence..].
  unfold finish in H. rewrite bind_unfold in H.
  destruct (persist_transition _ _ _ _ _ _ s3) as [rp s4] eqn:Hp.
  apply persist_transition_db in Hp as [-> _].
  destruct rp as [[next txn1]|e|]; simplify_eq; [|congruence..].
  rewrite bind_unfold in H. destruct (persist_and_commit _ _ _ _ s3) as [rd s5] eqn:Hd.
  apply persist_and_commit_db in Hd as [Hm5 _].
  assert (unmarked (met s5)) as H5 by congruence.
  destruct rd as [[]|e|]; simplify_eq; [|done..].
  rewrite bind_unfold in H. unfold put_metrics, lift in H; simpl in H.
  destruct (sla_outcome _ _); simplify_eq/=; by destruct next as [[[??]?]|].
Qed.

Lemma process_object_cases id late now clock db :
  exists r s', process_body id late now clock (mk_pstate db default_metrics) = (r, s') /\
    all_or_nothing id clock db r s' /\ unmarked (met s') /\
    process_object id late now clock db =
      mk_processed (committed s') (attempt_metrics id r (met s')) (next_state (met s'))
        (gauge_update r (attempt_metrics id r (met s'))).
Proof.
  unfold process_object. destruct (process_body _ _ _ _ _) as [r s'] eqn:E.
  exists r, s'. split_and!; [done| | |done].
  - by apply process_body_atomic in E.
  - by apply process_body_unmarked in E.
Qed.

(** C2: one handling attempt is atomic. Besides the transactions that others and
    the handler commit on their own, an attempt commits nothing at all, or one
    whole transaction: the handler's writes with the queued writes and the
    recorded outcome; the same with a guarded state change and its history
    record; or the recorded error alone. A state change is announced, and the
    object queued again for it, only when that transaction was committed. *)
Theorem process_object_atomic id late now clock db :
  let p := process_object id late now clock db in
  next_state (p_metrics p) = p_event p /\
  exists base, rtc (external id) db base /\
    ((p_db p = base /\ p_event p = None) \/
     exists n, iteration_commit id clock base n (p_db p) /\
       (p_event p = None \/ (p_event p = n /\ requeues (p_metrics p) = true))).
Proof.
  destruct (process_object_cases id late now clock db) as (r & s' & _ & (base & Hb & Hc) & _ & ->).
  cbn -[gauge_update attempt_metrics]. rewrite attempt_next. split; [done|].
  exists base. split; [done|].
  destruct Hc as [(? & ? & _)|(n & Hn & _ & He)]; [by left|right]. exists n. split; [done|].
  destruct He as [?|He]; [by left|]. destruct n as [n|]; [right|by left].
  split; [done|]. unfold requeues. by rewrite attempt_next, He.
Qed.

(** C4: a rejected conditional write leaves no trace of the attempt. The database
    is only changed by others and by what the handler had committed on its own,
    no state change is announced, no error is reported, the recorded gauges
    survive unchanged, and the object is queued again for a fresh snapshot. *)
Theorem process_object_invalidated id late now clock db :
  let p := process_object id late now clock db in
  iteration_invalidated (p_metrics p) = true ->
  rtc (external id) db (p_db p) /\ p_event p = None /\ error (p_metrics p) = None /\
  p_gauge p = GTouch /\ requeues (p_metrics p) = true.
Proof.
  destruct (process_object_cases id late now clock db)
    as (r & s' & _ & (base & Hb & Hc) & [Hu1 Hu2] & ->).
  cbn -[gauge_update attempt_metrics]. intros Hi.
  pose proof Hi as ->%attempt_invalidated; [|done].
  destruct Hc as [(-> & Hn & _)|(n & _ & Hr & _)]; [|done].
  split_and!; [done..| |].
  - unfold gauge_update, object_gone. simpl. by rewrite Hu2.
  - unfold requeues. rewrite Hi. by destruct (bool_decide _).
Qed.

(** ** Attempts in which no call fails *)

Section AllCallsSucceed.
Hypothesis Hev : forall p, ev p = CallOk.

Lemma await_ok p e s : await p e s = (Done (), s).
Proof. unfold await. by rewrite Hev. Qed.

Lemma begin_txn_ok p s :
  begin_txn p s = (Done (others p (committed s)), mk_pstate (others p (committed s)) (met s)).
Proof. unfold begin_txn. rewrite bind_unfold, await_ok. done. Qed.

Lemma commit_txn_ok p txn s : commit_txn p txn s = (Done (), mk_pstate txn (met s)).
Proof. unfold commit_txn. by rewrite Hev. Qed.

#[local] Ltac go :=
  repeat (rewrite ?bind_unfold, ?await_ok, ?begin_txn_ok, ?commit_txn_ok, ?Hev;
          unfold step, raise, lift, db_error, put_metrics, map_err, ok_or, mret, M_ret;
          cbn [fst snd committed met]).

Context (id : I) (snapshot : S) (cs : versioned C) (now clock : Z) (db : Db).
Hypothesis Hload : load_object_state (others BeginLoad db) id = Ok (Some snapshot).
Hypothesis Hcs : load_controller_state (others BeginLoad db) id snapshot = Ok cs.

(** What the handler does in this attempt. *)
Definition this_run : handled Db C :=
  handler id snapshot (value cs) (others RunHandler (others BeginLoad db)).

Definition this_metrics : metrics C := loaded_metrics cs now (state_sla cs now snapshot).

Lemma process_body_to_choice :
  process_body id false now clock (mk_pstate db default_metrics) =
  (chosen ← choose_transaction this_run;
   let '(handler_outcome, txn) := chosen in
   finish id snapshot cs (state_sla cs now snapshot) clock handler_outcome txn)
    (mk_pstate (h_db this_run) this_metrics).
Proof.
  unfold process_body, load. go. rewrite Hload. go. rewrite Hcs. go.
  unfold run_handler. go. done.
Qed.

(** The transaction of an outcome that succeeded, and what it is based on. *)
Definition write_base (o : StateHandlerOutcome Db C) : Db :=
  match (take_transaction o).1 with Some _ => h_db this_run
  | None => others BeginWrite (h_db this_run) end.
Definition write_txn (o : StateHandlerOutcome Db C) : Db :=
  default (others BeginWrite (h_db this_run)) (take_transaction o).1.

Lemma choose_success o txn :
  h_out this_run = Ok o -> apply_all (h_pending this_run) (write_txn o) = Ok txn ->
  choose_transaction this_run (mk_pstate (h_db this_run) this_metrics) =
  (Done (Ok (take_transaction o).2, txn), mk_pstate (write_base o) this_metrics).
Proof.
  unfold write_txn, write_base, choose_transaction. intros -> Happ.
  destruct (take_transaction o) as [[t|] o'] eqn:Et; cbn [fst snd from_option Datatypes.id] in *; go;
    rewrite Happ; done.
Qed.

(** What an attempt leaves committed when its transition is applied, and when it
    has none. *)
Lemma transition_db next t txn1 txn2 txn3 txn4 :
  h_out this_run = Ok (Transition next t) ->
  apply_all (h_pending this_run) (write_txn (Transition next t)) = Ok txn1 ->
  persist_controller_state txn1 id (version cs) (increment (version cs) clock) next
    = Ok (txn2, Applied ()) ->
  persist_state_history txn2 id (increment (version cs) clock) next = Ok txn3 ->
  persist_outcome txn3 id PTransition = Ok txn4 ->
  p_db (process_object id false now clock db) = txn4.
Proof.
  intros Hout Happ Hcas Hhist Hrec. unfold process_object. rewrite process_body_to_choice.
  rewrite bind_unfold, (choose_success _ _ Hout Happ). cbn [take_transaction fst snd].
  unfold finish, persist_transition. go. rewrite Hcas. go. cbn [check_applied]. go. rewrite Hhist. go. simpl. go.
  unfold persist_and_commit. cbn [from_result]. go. rewrite Hrec. go. done.
Qed.

Lemma quiet_db o txn txn' :
  h_out this_run = Ok o -> (forall n t, (take_transaction o).2 <> Transition n t) ->
  apply_all (h_pending this_run) (write_txn o) = Ok txn ->
  outcome_record id (sla_outcome (time_in_state_above_sla (state_sla cs now snapshot))
    (Ok (take_transaction o).2)) txn txn' ->
  p_db (process_object id false now clock db) = txn'.
Proof.
  intros Hout Hn Happ Hrec. unfold process_object. rewrite process_body_to_choice.
  rewrite bind_unfold, (choose_success _ _ Hout Happ). cbn [take_transaction fst snd].
  unfold finish, persist_transition. rewrite bind_unfold.
  destruct (take_transaction o).2 as [r u|n u|u|u] eqn:Eo; [|by destruct (Hn n u)|..];
    cbn [is_ok]; go; unfold persist_and_commit, outcome_record in *; destruct (from_result _); go;
    subst; rewrite ?Hrec; go; by destruct (sla_outcome _ _).
Qed.

(** What becomes of a transition, by the answer to the guarded write. *)
Lemma transition_answers next t txn1 txn2 w :
  h_out this_run = Ok (Transition next t) ->
  apply_all (h_pending this_run) (write_txn (Transition next t)) = Ok txn1 ->
  persist_controller_state txn1 id (version cs) (increment (version cs) clock) next
    = Ok (txn2, w) ->
  let p := process_object id false now clock db in
  match w with
  | Applied _ => forall txn3 txn4,
      persist_state_history txn2 id (increment (version cs) clock) next = Ok txn3 ->
      persist_outcome txn3 id PTransition = Ok txn4 ->
      p_db p = txn4 /\ p_event p = Some next /\ error (p_metrics p) = None /\
      requeues (p_metrics p) = true
  | NotApplied _ =>
      p_db p = write_base (Transition next t) /\ p_event p = None /\
      iteration_invalidated (p_metrics p) = true /\ error (p_metrics p) = None /\ requeues (p_metrics p) = true
  end.
Proof.
  intros Hout Happ Hcas. unfold process_object. rewrite process_body_to_choice.
  rewrite bind_unfold, (choose_success _ _ Hout Happ). cbn [take_transaction fst snd].
  unfold finish, persist_transition. go. rewrite Hcas. go. destruct w as [[]|[]]; cbn [check_applied].
  - intros txn3 txn4 Hhist Hrec. go. rewrite Hhist. go. simpl. go.
    unfold persist_and_commit. cbn [from_result]. go. rewrite Hrec. go. simpl. done.
  - go. done.
Qed.

(** When no call fails, a handler's error drops the writes the handler had
    queued or left in a transaction: only the error is recorded, in a transaction
    of its own, and reported. *)
Theorem process_object_records_error e db' :
  h_out this_run = Err e -> e <> IterationInvalidated ->
  persist_outcome (others BeginOutcome (others BeginAfterError (h_db this_run))) id
    (PError (display_error e)) = Ok db' ->
  let p := process_object id false now clock db in
  p_db p = db' /\ p_event p = None /\ error (p_metrics p) = Some e /\
  requeues (p_metrics p) = false.
Proof.
  intros Hout He%is_invalidated_false Hrec. unfold process_object. rewrite process_body_to_choice.
  rewrite bind_unfold. unfold choose_transaction. rewrite Hout, He. go.
  unfold finish, persist_transition. go. cbn [sla_outcome is_ok].
  unfold persist_and_commit. cbn [from_result]. go. rewrite Hrec. go.
  cbn [attempt_metrics]. rewrite He. done.
Qed.

(** When no call fails and the object has been in its state for longer than
    its SLA, a handler that waits has its writes committed, but the recorded and
    reported outcome is the breach of the SLA. *)
Theorem process_object_above_sla reason t txn db' :
  time_in_state_above_sla (state_sla cs now snapshot) = true ->
  h_out this_run = Ok (Wait reason t) ->
  apply_all (h_pending this_run) (write_txn (Wait reason t)) = Ok txn ->
  let breach := TimeInStateAboveSla ("Wait(" +:+ quoted reason +:+ ")") in
  persist_outcome txn id (PError (display_error breach)) = Ok db' ->
  let p := process_object id false now clock db in
  p_db p = db' /\ p_event p = None /\ error (p_metrics p) = Some breach.
Proof.
  intros Hsla Hout Happ breach Hrec. unfold process_object. rewrite process_body_to_choice.
  rewrite bind_unfold, (choose_success _ _ Hout Happ). cbn [take_transaction fst snd].
  unfold finish, persist_transition. go. cbn [sla_outcome is_ok]. rewrite Hsla.
  unfold persist_and_commit. cbn [from_result]. go. fold breach. rewrite Hrec. go. done.
Qed.
End AllCallsSucceed.

End Process.
(** ** Optimistic locking across attempts

    What a controller's persistence promises: the state write is guarded by the
    stored version, the history only grows at its head (the table may drop its
    oldest records), and the recorded outcome is kept elsewhere. *)
Class GuardedIO (Db I S C : Type) `{!StateControllerIO Db I S C} := {
  stored : Db -> I -> option (versioned C);
  history : Db -> I -> list (versioned C);
  load_stored db id snapshot cs :
    load_object_state db id = Ok (Some snapshot) ->
    load_controller_state db id snapshot = Ok cs -> stored db id = Some cs;
  persist_guarded db id old new c db' :
    persist_controller_state db id old new c = Ok (db', Applied ()) ->
    (exists c0, stored db id = Some (versioned_new c0 old)) /\
    stored db' id = Some (versioned_new c new) /\
    (forall j, j <> id -> stored db' j = stored db j) /\
    (forall j, history db' j = history db j);
  history_recorded db id v c db' :
    persist_state_history db id v c = Ok db' ->
    (forall j, stored db' j = stored db j) /\
    (forall j, j <> id -> history db' j = history db j) /\
    exists k, history db' id = versioned_new c v :: take k (history db id);
  outcome_elsewhere db id o db' :
    persist_outcome db id o = Ok db' ->
    (forall j, stored db' j = stored db j) /\ (forall j, history db' j = history db j)
}.

Section Consistency.
Context {Db I S C : Type} `{!EqDecision I} `{!StateControllerIO Db I S C, !GuardedIO Db I S C}.

(** Newest first, each version is the increment of the one before it. *)
Definition chained (l : list (versioned C)) : Prop :=
  forall k a b, l !! k = Some a -> l !! Datatypes.S k = Some b ->
    exists clock, version a = increment (version b) clock.

(** Every object's history is a chain that ends in its current state. *)
Definition consistent (db : Db) : Prop :=
  forall i, chained (history db i) /\
    forall cs, stored db i = Some cs -> forall h hs, history db i = h :: hs -> h = cs.

(** A change that leaves the controller states alone, apart from removing objects. *)
Definition frame (db db' : Db) : Prop :=
  forall i, history db' i = history db i /\
    (stored db' i = stored db i \/ stored db' i = None).

(** What the handler must leave to the processor. *)
Definition handler_frame (handler : I -> S -> C -> Db -> handled Db C) : Prop :=
  forall id snapshot c db, let h := handler id snapshot c db in
    frame db (h_db h) /\
    (forall o t, h_out h = Ok o -> (take_transaction o).1 = Some t -> frame (h_db h) t) /\
    Forall (fun w => forall d d', w d = Ok d' -> frame d d') (h_pending h).

#[export] Instance frame_preorder : PreOrder frame.
Proof.
  split; [by intros db i; split; [|left]|].
  intros a b c Hab Hbc i. destruct (Hab i) as [Hh Hs], (Hbc i) as [-> Hs']. split; [done|].
  destruct Hs' as [->|]; [done|by right].
Qed.

Lemma frame_consistent db db' : frame db db' -> consistent db -> consistent db'.
Proof.
  intros Hf Hc i. destruct (Hf i) as [-> Hs], (Hc i) as [Hch Hl]. split; [done|].
  destruct Hs as [->|Hs]; [done|congruence].
Qed.

Lemma apply_all_frame b (d d' : Db) :
  Forall (fun w => forall d d', w d = Ok d' -> frame d d') b -> apply_all b d = Ok d' -> frame d d'.
Proof.
  intros Hb. revert d. induction Hb as [|w b Hw Hb IH]; intros d H; simpl in H; [by simplify_eq|].
  destruct (w d) as [d1|e] eqn:E; simplify_eq/=. etrans; [by apply Hw|by apply IH].
Qed.

Lemma chained_cons a b l k clock :
  chained (b :: l) -> version a = increment (version b) clock -> chained (a :: take k (b :: l)).
Proof.
  intros Hch Hab [|j] x y Hx Hy; simpl in Hx.
  - simplify_eq. change (take k (b :: l) !! 0%nat = Some y) in Hy.
    apply lookup_take_Some in Hy as [Hy _]. simplify_eq/=. by exists clock.
  - change (take k (b :: l) !! Datatypes.S j = Some y) in Hy.
    apply lookup_take_Some in Hx as [Hx _]. apply lookup_take_Some in Hy as [Hy _]. by eapply Hch.
Qed.

(** The transition of one object keeps every history a chain. *)
Lemma transition_consistent id (v : ConfigVersion.t) clock c db db1 db2 :
  consistent db -> persist_controller_state db id v (increment v clock) c = Ok (db1, Applied ()) ->
  persist_state_history db1 id (increment v clock) c = Ok db2 -> consistent db2.
Proof.
  intros Hc (Hst & Hst1 & Hne1 & Hh1)%persist_guarded (Hst2 & Hne2 & k & Hh2)%history_recorded i.
  destruct Hst as [c0 Hst]. destruct (decide (i = id)) as [->|Hi].
  - rewrite Hst2, Hst1, Hh2, Hh1. destruct (Hc id) as [Hch Hl]. split; [|naive_solver].
    destruct (history db id) as [|b l] eqn:Eh.
    + intros [|j] x y Hx Hy; simpl in *; [by rewrite take_nil in Hy|by rewrite take_nil in Hx].
    + apply (chained_cons _ _ _ _ clock Hch). by rewrite (Hl _ Hst b l).
  - rewrite Hst2, Hne1, Hne2, Hh1 by done. apply Hc.
Qed.

Section Attempt.
Variable handler : I -> S -> C -> Db -> handled Db C.
Variable others : await_point -> Db -> Db.
Hypothesis Hhandler : handler_frame handler.
Hypothesis Hothers : forall p db, consistent db -> consistent (others p db).

Lemma external_consistent id db db' :
  rtc (external handler others id) db db' -> consistent db -> consistent db'.
Proof.
  induction 1 as [|db db1 db2 Hs _ IH]; [done|]. intros Hc. apply IH.
  destruct Hs as [p db|snapshot c p db]; [by apply Hothers|].
  eapply frame_consistent; [apply Hhandler|]. by apply Hothers.
Qed.

Lemma start_txn_frame id c h base o t o' txn0 txn :
  ran handler others id c h -> h_out h = Ok o -> take_transaction o = (t, o') ->
  start_txn base h t txn0 -> apply_all (h_pending h) txn0 = Ok txn -> frame base txn.
Proof.
  intros (snapshot & db & ->) Hout Ht Hst Happ.
  destruct (Hhandler id snapshot c (others RunHandler db)) as (_ & Htxn & Hp).
  apply apply_all_frame in Happ; [|done]. etrans; [|exact Happ].
  destruct t as [t|]; simpl in Hst; [|by subst].
  destruct Hst as [-> ->]. eapply Htxn; [done|by rewrite Ht].
Qed.

Lemma outcome_consistent id o db db' :
  consistent db -> persist_outcome db id o = Ok db' -> consistent db'.
Proof.
  intros Hc [Hs Hh]%outcome_elsewhere. eapply frame_consistent; [|done].
  intros i. split; [done|by left].
Qed.

Lemma iteration_commit_consistent id clock base n db :
  iteration_commit handler others id clock base n db -> consistent base -> consistent db.
Proof.
  intros Hic Hc. destruct Hic as [h c o t o' txn0 txn above db Hran Hout Ht _ Hst Happ Hrec
      |h o t next txn0 txn1 cs txn2 txn3 db Hran Hout Ht Hst Happ Hcas Hhist Hrec
      |e db _ Hrec].
  - eapply start_txn_frame in Happ; [|done..]. eapply frame_consistent in Happ; [|done].
    unfold outcome_record in Hrec.
    destruct (from_result _) as [p|]; [by eapply outcome_consistent|by subst].
  - eapply start_txn_frame in Happ; [|done..]. eapply frame_consistent in Happ; [|done].
    eapply outcome_consistent; [|done]. by eapply transition_consistent.
  - by eapply outcome_consistent.
Qed.

(** An attempt keeps the histories consistent, whatever fails in it, when the
    others do. *)
Lemma process_object_consistent ev id late now clock db :
  consistent db -> consistent (p_db (process_object handler ev others id late now clock db)).
Proof.
  intros Hc. destruct (process_object_cases handler ev others id late now clock db)
    as (r & s' & _ & (base & Hb & Hcase) & _ & ->). simpl.
  apply (external_consistent id) in Hb; [|done].
  destruct Hcase as [(-> & _)|(n & Hn & _)]; [done|]. by eapply iteration_commit_consistent.
Qed.
End Attempt.
End Consistency.

(** ** Invariants of the database

    A property that the persistence, the handler and the other transactions each
    keep is kept by an attempt, whatever fails in it. *)
Section Invariant.
Context {Db I S C : Type} `{!StateControllerIO Db I S C}.
Variable P : Db -> Prop.
Hypothesis Hstate : forall db id old new c db' w,
  persist_controller_state db id old new c = Ok (db', w) -> P db -> P db'.
Hypothesis Hhistory : forall db id v c db', persist_state_history db id v c = Ok db' -> P db -> P db'.
Hypothesis Houtcome : forall db id o db', persist_outcome db id o = Ok db' -> P db -> P db'.

Definition handler_keeps (handler : I -> S -> C -> Db -> handled Db C) : Prop :=
  forall id snapshot c db, let h := handler id snapshot c db in
    (P db -> P (h_db h)) /\
    (forall o t, h_out h = Ok o -> (take_transaction o).1 = Some t -> P (h_db h) -> P t) /\
    Forall (fun w => forall d d', w d = Ok d' -> P d -> P d') (h_pending h).

Lemma apply_all_keeps b (d d' : Db) :
  Forall (fun w => forall d d', w d = Ok d' -> P d -> P d') b -> apply_all b d = Ok d' -> P d -> P d'.
Proof.
  intros Hb. revert d. induction Hb as [|w b Hw Hb IH]; intros d H Hd; simpl in H; [by simplify_eq|].
  destruct (w d) as [d1|e] eqn:E; simplify_eq/=. eauto.
Qed.

Variable handler : I -> S -> C -> Db -> handled Db C.
Variable others : await_point -> Db -> Db.
Hypothesis Hhandler : handler_keeps handler.
Hypothesis Hothers : forall p db, P db -> P (others p db).

Lemma external_keeps id db db' : rtc (external handler others id) db db' -> P db -> P db'.
Proof.
  induction 1 as [|db db1 db2 Hs _ IH]; [done|]. intros Hc. apply IH.
  destruct Hs as [p db|snapshot c p db]; [by apply Hothers|]. apply Hhandler. by apply Hothers.
Qed.

Lemma start_txn_keeps id c h base o t o' txn0 txn :
  ran handler others id c h -> h_out h = Ok o -> take_transaction o = (t, o') ->
  start_txn base h t txn0 -> apply_all (h_pending h) txn0 = Ok txn -> P base -> P txn.
Proof.
  intros (snapshot & db & ->) Hout Ht Hst Happ Hb.
  destruct (Hhandler id snapshot c (others RunHandler db)) as (_ & Htxn & Hp).
  eapply apply_all_keeps; [done|done|]. destruct t as [t|]; simpl in Hst; [|by subst].
  destruct Hst as [-> ->]. eapply Htxn; [done|by rewrite Ht|done].
Qed.

Lemma process_object_preserves ev id late now clock db :
  P db -> P (p_db (process_object handler ev others id late now clock db)).
Proof.
  intros Hc. destruct (process_object_cases handler ev others id late now clock db)
    as (r & s' & _ & (base & Hb & Hcase) & _ & ->). simpl.
  apply external_keeps in Hb; [|done].
  destruct Hcase as [(-> & _)|(n & Hn & _)]; [done|].
  destruct Hn as [h c o t o' txn0 txn above db' Hran Hout Ht _ Hst Happ Hrec
      |h o t next txn0 txn1 cs txn2 txn3 db' Hran Hout Ht Hst Happ Hcas Hhist Hrec
      |e db' _ Hrec].
  - unfold outcome_record in Hrec. eapply start_txn_keeps in Happ; [|done..].
    destruct (from_result _); [eauto|by subst].
  - eapply start_txn_keeps in Happ; eauto.
  - eauto.
Qed.

End Invariant.

(** The same, with a handler that keeps the property on what it was loaded from. *)
Section Loaded.
Context {Db I S C : Type} `{!StateControllerIO Db I S C}.
Context (handler handler' : I -> S -> C -> Db -> handled Db C) (others : await_point -> Db -> Db).

Lemma process_object_same ev id late now clock db :
  let db1 := others BeginLoad db in
  (forall s cs, load_object_state db1 id = Ok (Some s) -> load_controller_state db1 id s = Ok cs ->
     handler id s (value cs) (others RunHandler db1) = handler' id s (value cs) (others RunHandler db1)) ->
  process_object handler ev others id late now clock db = process_object handler' ev others id late now clock db.
Proof.
  intros db1 H. unfold process_object, process_body. destruct late; [done|]. rewrite !bind_unfold.
  destruct (load ev others id now _) as [[[[s cs] sl]|e|] s1] eqn:El; [|done..].
  apply load_done in El as (Hs & Hcs & Hdb). specialize (H s cs Hs Hcs). rewrite !bind_unfold.
  replace (run_handler handler' ev others id s (value cs) s1) with (run_handler handler ev others id s (value cs) s1);
    [done|].
  unfold run_handler, step. simpl in Hdb. rewrite Hdb. fold db1. by rewrite H.
Qed.

End Loaded.

Section LoadedInvariant.
Context {Db I S C : Type} `{!StateControllerIO Db I S C}.
Variable P : Db -> Prop.
Hypothesis Hstate : forall db id old new c db' w,
  persist_controller_state db id old new c = Ok (db', w) -> P db -> P db'.
Hypothesis Hhistory : forall db id v c db', persist_state_history db id v c = Ok db' -> P db -> P db'.
Hypothesis Houtcome : forall db id o db', persist_outcome db id o = Ok db' -> P db -> P db'.
Variable handler : I -> S -> C -> Db -> handled Db C.
Variable others : await_point -> Db -> Db.
Hypothesis Hothers : forall p db, P db -> P (others p db).

Lemma process_object_preserves_loaded ev id late now clock db :
  let db1 := others BeginLoad db in
  P db ->
  (forall s cs, load_object_state db1 id = Ok (Some s) -> load_controller_state db1 id s = Ok cs ->
     let h := handler id s (value cs) (others RunHandler db1) in
     P (h_db h) /\ (forall o t, h_out h = Ok o -> (take_transaction o).1 = Some t -> P t) /\
     Forall (fun w => forall d d', w d = Ok d' -> P d -> P d') (h_pending h)) ->
  P (p_db (process_object handler ev others id late now clock db)).
Proof.
  intros db1 Hdb Hh.
  assert (Hdb1 : P (others RunHandler db1)) by (by apply Hothers, Hothers).
  set (h0 := match load_object_state db1 id with
    | Ok (Some s) => match load_controller_state db1 id s with
                     | Ok cs => handler id s (value cs) (others RunHandler db1)
                     | Err _ => mk_handled (others RunHandler db1) [] (Ok do_nothing)
                     end
    | _ => mk_handled (others RunHandler db1) [] (Ok do_nothing)
    end).
  rewrite (process_object_same handler (fun _ _ _ _ => h0)).
  - apply process_object_preserves; try done. intros j s c d. simpl.
    assert (H : P (h_db h0) /\ (forall o t, h_out h0 = Ok o -> (take_transaction o).1 = Some t -> P t) /\
      Forall (fun w => forall d d', w d = Ok d' -> P d -> P d') (h_pending h0)).
    { unfold h0. destruct (load_object_state db1 id) as [[s'|]|] eqn:E1;
        [destruct (load_controller_state db1 id s') as [cs|] eqn:E2; [by apply Hh|]|..];
        (split_and!; [done|by intros o t [= <-]|constructor]). }
    destruct H as (H1 & H2 & H3). split_and!; [done| |done]. intros o t Ho Ht _. by eapply H2.
  - intros s cs Hs Hcs. unfold h0. fold db1 in Hs, Hcs. by rewrite Hs, Hcs.
Qed.

Lemma external_ran_keeps (h : handled Db C) (id : I) (db db' : Db) :
  P (h_db h) -> rtc (external (fun (_ : I) (_ : S) (_ : C) (_ : Db) => h) others id) db db' -> P db -> P db'.
Proof.
  intros Hh. induction 1 as [|d1 d2 d3 Hs _ IH]; [done|]. intros Hd. apply IH.
  destruct Hs as [p d|s c p d]; [by apply Hothers|done].
Qed.

(** A property of the object that only its removal ends: an attempt after which it
    does not hold has committed the removal. *)
Lemma process_object_removes ev id late now clock db :
  let db1 := others BeginLoad db in
  P db ->
  (forall s cs, load_object_state db1 id = Ok (Some s) -> load_controller_state db1 id s = Ok cs ->
     let h := handler id s (value cs) (others RunHandler db1) in
     P (h_db h) /\ h_pending h = [] /\
     (forall o t, h_out h = Ok o -> (take_transaction o).1 = Some t -> P t \/ o = Deleted (Some t))) ->
  let p := process_object handler ev others id late now clock db in
  P (p_db p) \/
  exists s cs, load_object_state db1 id = Ok (Some s) /\ load_controller_state db1 id s = Ok cs /\
    h_out (handler id s (value cs) (others RunHandler db1)) = Ok (Deleted (Some (p_db p))).
Proof.
  intros db1 Hdb Hh p.
  destruct (load_object_state db1 id) as [[s|]|] eqn:E1;
    [destruct (load_controller_state db1 id s) as [cs|] eqn:E2|..];
    [|left; apply process_object_preserves_loaded; [done..|]; fold db1; congruence..].
  set (h0 := handler id s (value cs) (others RunHandler db1)). destruct (Hh s cs eq_refl E2) as (H1 & H2 & H3).
  fold h0 in H1, H2, H3.
  assert (Ep : p = process_object (fun _ _ _ _ => h0) ev others id late now clock db).
  { apply process_object_same. intros s' cs' Hs' Hcs'. fold db1 in Hs', Hcs'.
    rewrite E1 in Hs'. injection Hs' as <-. rewrite E2 in Hcs'. by injection Hcs' as <-. }
  destruct (process_object_cases (fun _ _ _ _ => h0) ev others id late now clock db)
    as (r & s' & _ & (base & Hb & Hcase) & _ & E). rewrite E in Ep. rewrite Ep. simpl.
  assert (Hbase : P base).
  { by apply (external_ran_keeps h0 id db). }
  assert (Htxn : forall o t o' txn0, h_out h0 = Ok o -> take_transaction o = (t, o') -> start_txn base h0 t txn0 ->
    P txn0 \/ o = Deleted (Some txn0)).
  { intros o t o' txn0 Ho Ht Hst. destruct t as [t|]; simpl in Hst; [|subst; by left]. destruct Hst as [_ ->].
    apply H3; [done|]. by rewrite Ht. }
  destruct Hcase as [(-> & _)|(n & Hn & _)]; [by left|].
  destruct Hn as [h c o t o' txn0 txn above db' (? & ? & ->) Hout Ht _ Hst Happ Hrec
      |h o t next txn0 txn1 cs' txn2 txn3 db' (? & ? & ->) Hout Ht Hst Happ Hcas Hhist Hrec|e db' _ Hrec].
  - rewrite H2 in Happ. injection Happ as ->. unfold outcome_record in Hrec.
    destruct (Htxn _ _ _ _ Hout Ht Hst) as [Hp| ->].
    + left. destruct (from_result _); [eauto|by subst].
    + right. injection Ht as <- <-. simpl in Hrec. subst db'. by exists s, cs.
  - left. rewrite H2 in Happ. injection Happ as ->. destruct (Htxn _ _ _ _ Hout Ht Hst) as [Hp| ->]; [eauto|done].
  - left. eauto.
Qed.
End LoadedInvariant.

(** ** Witnesses, on a controller of one object with a boolean state *)

Module OneObject.
Record db := mk_db { cell : versioned bool; log : list (versioned bool);
                     outcome : option PersistentOutcome }.

#[global] Instance io : StateControllerIO db unit unit bool := {
  id_to_string _ := "object";
  show_state b := if b then "Ready" else "New";
  list_objects _ := Ok [()];
  load_object_state _ _ := Ok (Some ());
  load_controller_state d _ _ := Ok (cell d);
  persist_controller_state d _ old new c :=
    if decide (version_nr (version (cell d)) = version_nr old)
    then Ok (mk_db (versioned_new c new) (log d) (outcome d), Applied ())
    else Ok (d, NotApplied ControllerStateNotCurrent_);
  persist_state_history d _ v c := Ok (mk_db (cell d) (versioned_new c v :: log d) (outcome d));
  persist_outcome d _ o := Ok (mk_db (cell d) (log d) (Some o));
  metric_state_names b := (if b then "ready" else "new", "");
  manual_intervention_reason _ := None;
  state_sla v now _ := mk_sla (Some 100) (100 <? now - timestamp (version v))
}.

Definition advance (id s : unit) (c : bool) (d : db) : handled db bool :=
  mk_handled d [] (Ok (transition true)).
Definition wait_handler (id s : unit) (c : bool) (d : db) : handled db bool :=
  mk_handled d [] (Ok (wait "for hardware")).
Definition failing (id s : unit) (c : bool) (d : db) : handled db bool :=
  mk_handled d [fun d => Ok (mk_db (cell d) [] (outcome d))] (Err (GenericError "boom")).
Definition start : db := mk_db (versioned_new false (ConfigVersion.mk 1 0)) [] None.
Definition quiet (p : await_point) (d : db) : db := d.

(** Another attempt transitions the object between the load and the write. *)
Definition overtaken (p : await_point) (d : db) : db :=
  match p with
  | BeginWrite => mk_db (versioned_new true (ConfigVersion.mk 2 5)) (log d) (outcome d)
  | _ => d
  end.
Definition all_ok (p : await_point) : call := CallOk.
End OneObject.

Lemma process_object_invalidated_witness :
  let p := process_object OneObject.advance OneObject.all_ok OneObject.overtaken () false 10 10
             OneObject.start in
  iteration_invalidated (p_metrics p) = true /\ p_event p = None /\ error (p_metrics p) = None.
Proof.
  pose proof (process_object_invalidated OneObject.advance OneObject.all_ok OneObject.overtaken
    () false 10 10 OneObject.start) as H. simpl in H.
  specialize (H eq_refl). destruct H as (_ & H1 & H2 & _). split; [reflexivity|]. by split.
Defined.

Lemma process_object_records_error_witness :
  error (p_metrics (process_object OneObject.failing OneObject.all_ok OneObject.quiet () false 10 10
    OneObject.start)) = Some (GenericError "boom").
Proof.
  refine (proj1 (proj2 (proj2 (process_object_records_error OneObject.failing OneObject.all_ok
    OneObject.quiet (fun _ => eq_refl) () () (versioned_new false (ConfigVersion.mk 1 0)) 10 10
    OneObject.start eq_refl eq_refl (GenericError "boom") _ eq_refl _ eq_refl)))).
  discriminate.
Defined.

Lemma process_object_above_sla_witness :
  error (p_metrics (process_object OneObject.wait_handler OneObject.all_ok OneObject.quiet () false
    500 500 OneObject.start)) =
  Some (TimeInStateAboveSla ("Wait(" +:+ quoted "for hardware" +:+ ")")).
Proof.
  exact (proj2 (proj2 (process_object_above_sla OneObject.wait_handler OneObject.all_ok
    OneObject.quiet (fun _ => eq_refl) () () (versioned_new false (ConfigVersion.mk 1 0)) 500 500
    OneObject.start eq_refl eq_refl "for hardware" None _ _ eq_refl eq_refl eq_refl eq_refl))).
Defined.

End Processor.
