(* ===== verification/StateTable.v ===== *)
(** * StateTable: the tables of a controller

    Every controller of the repository keeps its objects in a table with the
    columns [controller_state], [controller_state_version] and
    [controller_state_outcome], and their past states in a history table
    (crates/api-db/src/state_history.rs). The class [StateTable] says where a
    database keeps them; the statements below are the ones the controllers share.
    An interface built from them is guarded ([GuardedIO] of [Processor]), and an
    attempt in which nothing fails moves the object to the handler's state.
    Versions are compared as values: their text determines them. *)

From S2P Require Import Prelude ConfigVersion StateHandler Processor.
Import ConfigVersion StateHandler Processor.

Class StateTable (Db Row C : Type) := {
  rows : Db -> gmap string Row;
  set_rows : (gmap string Row -> gmap string Row) -> Db -> Db;
  histories : Db -> gmap string (list (versioned C));
  set_histories : (gmap string (list (versioned C)) -> gmap string (list (versioned C))) -> Db -> Db;
  row_state : Row -> versioned C;
  put_state : versioned C -> Row -> Row;
  put_outcome : PersistentOutcome -> Row -> Row;
  rows_set_rows f d : rows (set_rows f d) = f (rows d);
  rows_set_histories f d : rows (set_histories f d) = rows d;
  histories_set_rows f d : histories (set_rows f d) = histories d;
  histories_set_histories f d : histories (set_histories f d) = f (histories d);
  state_put_state v r : row_state (put_state v r) = v;
  state_put_outcome o r : row_state (put_outcome o r) = row_state r
}.

Module StateTable.
Section Table.
Context {Db Row C : Type} {T : StateTable Db Row C}.

(** ** Statements *)

(** [try_update_controller_state] of a table. *)
Definition try_update (d : Db) (id : string) (expected_version new_version : ConfigVersion.t) (new_state : C)
    : Db * ConditionalWrite unit ControllerStateNotCurrent :=
  match rows d !! id with
  | Some r => if decide (version (row_state r) = expected_version)
              then (set_rows (<[id := put_state (versioned_new new_state new_version) r]>) d, Applied ())
              else (d, NotApplied ControllerStateNotCurrent_)
  | None => (d, NotApplied ControllerStateNotCurrent_)
  end.

(** [update_controller_state_outcome] of a table. *)
Definition update_outcome (d : Db) (id : string) (o : PersistentOutcome) : Db :=
  set_rows (alter (put_outcome o) id) d.

(** A trigger of each history table keeps the newest 250 records of an object. *)
Definition HISTORY_LIMIT : nat := 250.
Definition persist_history (d : Db) (id : string) (v : ConfigVersion.t) (c : C) : Db :=
  set_histories (fun h => <[id := take HISTORY_LIMIT (versioned_new c v :: default [] (h !! id))]> h) d.

(** ** What they keep *)

Definition state_of (d : Db) (id : string) : option (versioned C) := row_state <$> rows d !! id.

Lemma try_update_applied d id old new c d' :
  try_update d id old new c = (d', Applied ()) ->
  exists r, rows d !! id = Some r /\ version (row_state r) = old /\
    d' = set_rows (<[id := put_state (versioned_new c new) r]>) d.
Proof.
  unfold try_update. destruct (rows d !! id) as [r|]; [|done]. case_decide; [|done]. intros [= <-]. eauto.
Qed.

Lemma rows_outcome d id o : rows (update_outcome d id o) = alter (put_outcome o) id (rows d).
Proof. apply rows_set_rows. Qed.

Lemma state_of_outcome d id o j : state_of (update_outcome d id o) j = state_of d j.
Proof.
  unfold state_of. rewrite rows_outcome. destruct (decide (j = id)) as [->|]; [|by rewrite lookup_alter_ne].
  rewrite lookup_alter_eq, <- option_fmap_compose. destruct (rows d !! id); simpl; [|done].
  by rewrite state_put_outcome.
Qed.

(** No statement adds or removes an object. *)
Lemma try_update_objects d id old new c d' w j :
  try_update d id old new c = (d', w) -> is_Some (rows d !! j) -> is_Some (rows d' !! j).
Proof.
  unfold try_update. intros E Hj. destruct (rows d !! id) as [r|]; [|by simplify_eq].
  case_decide; simplify_eq; [|done]. rewrite rows_set_rows. apply lookup_insert_is_Some'. by right.
Qed.

Lemma update_outcome_objects d id o j : is_Some (rows (update_outcome d id o) !! j) <-> is_Some (rows d !! j).
Proof. rewrite rows_outcome. apply lookup_alter_is_Some. Qed.

Lemma persist_history_rows d id v c : rows (persist_history d id v c) = rows d.
Proof. apply rows_set_histories. Qed.
End Table.

(** ** Interfaces *)

Section Guarded.
Context {Db Row S C : Type} {T : StateTable Db Row C} {io : StateControllerIO Db string S C}.

(** The interface uses the statements above. *)
Class TableIO := {
  table_load d id s cs :
    load_object_state d id = Ok (Some s) -> load_controller_state d id s = Ok cs -> state_of d id = Some cs;
  table_persist d id old new c : persist_controller_state d id old new c = Ok (try_update d id old new c);
  table_history d id v c : persist_state_history d id v c = Ok (persist_history d id v c);
  table_outcome d id o : persist_outcome d id o = Ok (update_outcome d id o)
}.

Context `{!TableIO}.

#[export] Instance table_guarded : GuardedIO Db string S C.
Proof.
  refine {| stored := state_of; history d id := default [] (histories d !! id) |}.
  - apply table_load.
  - intros d id old new c d'. rewrite table_persist. intros [= (r & Hr & <- & ->)%try_update_applied].
    unfold state_of. rewrite rows_set_rows, histories_set_rows, lookup_insert_eq. simpl.
    rewrite state_put_state, Hr. split; [|split; [done|split; [|done]]].
    + exists (value (row_state r)). simpl. by destruct (row_state r).
    + intros j Hj. by rewrite lookup_insert_ne.
  - intros d id v c d'. rewrite table_history. intros [= <-]. unfold state_of, persist_history.
    setoid_rewrite histories_set_histories. split; [by intros j; rewrite rows_set_histories|]. split.
    + intros j Hj. by rewrite lookup_insert_ne.
    + exists 249%nat. by rewrite lookup_insert_eq.
  - intros d id o d'. rewrite table_outcome. intros [= <-]. split; [by intros j; apply state_of_outcome|].
    intros j. unfold update_outcome. by rewrite histories_set_rows.
Defined.

(** ** Attempts in which nothing fails *)

Definition all_ok (p : await_point) : call := CallOk.
Definition undisturbed (p : await_point) (d : Db) : Db := d.

Section Attempt.
Context (handler : string -> S -> C -> Db -> handled Db C).

(** An attempt in which nothing fails and nobody interferes. *)
Definition attempt (now clock : Z) (id : string) (d : Db) : Db :=
  p_db (process_object handler all_ok undisturbed id false now clock d).

(** The database after a transition to [n]. *)
Definition moved_to (id : string) (n : C) (v : ConfigVersion.t) (r : Row) (d : Db) : Db :=
  update_outcome (persist_history (set_rows (<[id := put_state (versioned_new n v) r]>) d) id v n) id PTransition.

Lemma moved_to_row id n v r d :
  rows (moved_to id n v r d) !! id = Some (put_outcome PTransition (put_state (versioned_new n v) r)).
Proof.
  unfold moved_to. rewrite rows_outcome, persist_history_rows, rows_set_rows.
  by rewrite lookup_alter_eq, lookup_insert_eq.
Qed.

Lemma moved_to_others id n v r d j : j <> id -> rows (moved_to id n v r d) !! j = rows d !! j.
Proof.
  intros Hj. unfold moved_to. rewrite rows_outcome, persist_history_rows, rows_set_rows.
  by rewrite lookup_alter_ne, lookup_insert_ne by done.
Qed.
Lemma moved_to_history id n v r d :
  histories (moved_to id n v r d) = <[id := take HISTORY_LIMIT (versioned_new n v :: default [] (histories d !! id))]> (histories d).
Proof. unfold moved_to, update_outcome, persist_history. by rewrite histories_set_rows, histories_set_histories, histories_set_rows. Qed.

(** C3: No call fails, and [others] commit what they like between the steps of the
    attempt. A handler asks for a transition, and its own writes and the queued ones
    succeed: [txn] is its transaction with them, based on the rows as they are when the
    transaction begins. If the row of the object still has the version that was loaded
    at the start of the attempt, all of this is committed together with the new state
    under the incremented version, its record at the head of the history and the
    outcome, the rows and histories of other objects are those of [txn], and the
    change is announced. If the row has another version or is gone, nothing of the
    attempt is committed, and the object is queued again without an error. *)
Theorem transition_iff_current others now clock id d s cs next t txn :
  load_object_state (others BeginLoad d) id = Ok (Some s) -> load_controller_state (others BeginLoad d) id s = Ok cs ->
  h_out (this_run handler others id s cs d) = Ok (Transition next t) ->
  apply_all (h_pending (this_run handler others id s cs d)) (write_txn handler others id s cs d (Transition next t)) = Ok txn ->
  let p := process_object handler all_ok others id false now clock d in
  let new := versioned_new next (increment (version cs) clock) in
  if decide (version <$> state_of txn id = Some (version cs))
  then state_of (p_db p) id = Some new /\
    rows (p_db p) !! id = put_outcome PTransition ∘ put_state new <$> rows txn !! id /\
    histories (p_db p) !! id = Some (take HISTORY_LIMIT (new :: default [] (histories txn !! id))) /\
    (forall j, j <> id -> rows (p_db p) !! j = rows txn !! j /\ histories (p_db p) !! j = histories txn !! j) /\
    p_event p = Some next /\ error (p_metrics p) = None
  else p_db p = write_base handler others id s cs d (Transition next t) /\ p_event p = None /\
    iteration_invalidated (p_metrics p) = true /\ error (p_metrics p) = None /\ requeues (p_metrics p) = true.
Proof.
  intros Hl Hcs Hout Happ p new. pose proof (transition_answers handler all_ok others (fun _ => eq_refl) id s cs now clock d Hl Hcs next t txn) as Ha.
  unfold state_of. destruct (try_update txn id (version cs) (version new) next) as [txn2 w] eqn:Eu.
  specialize (Ha txn2 w Hout Happ). rewrite table_persist in Ha. specialize (Ha (f_equal Ok Eu)). fold p in Ha.
  unfold try_update in Eu. destruct (rows txn !! id) as [r|] eqn:Er; simpl.
  - destruct (decide (version (row_state r) = version cs)) as [E|E].
    + rewrite decide_True by (by rewrite E). injection Eu as <- <-.
      destruct (Ha _ _ (table_history _ _ _ _) (table_outcome _ _ _)) as (-> & -> & -> & _).
      change (update_outcome _ id PTransition) with (moved_to id next (version new) r txn).
      rewrite moved_to_row, moved_to_history, lookup_insert_eq. simpl. rewrite state_put_outcome, state_put_state.
      split_and!; [done..|intros j Hj|done|done]. split; [by apply moved_to_others|by rewrite lookup_insert_ne].
    + rewrite decide_False by congruence. injection Eu as <- <-. exact Ha.
  - injection Eu as <- <-. exact Ha.
Qed.

(** A handler that commits nothing by itself, queues nothing and asks for a
    transition, with its transaction unchanged or without one. *)
Lemma attempt_moves now clock id d s r n o :
  load_object_state d id = Ok (Some s) -> load_controller_state d id s = Ok (row_state r) ->
  rows d !! id = Some r -> handler id s (value (row_state r)) d = mk_handled d [] (Ok o) ->
  take_transaction o = (None, transition n) \/ take_transaction o = (Some d, transition n) ->
  attempt now clock id d = moved_to id n (increment (version (row_state r)) clock) r d.
Proof.
  intros Hl Hcs Hr Hh Ht. unfold attempt.
  assert (exists t, o = Transition n t /\ default d t = d) as (t & -> & Hd).
  { unfold transition in Ht. destruct o as [? t|? t|t|t]; destruct Ht as [Ht|Ht]; simplify_eq/=; eauto. }
  set (nv := increment (version (row_state r)) clock).
  set (d1 := set_rows (<[id := put_state (versioned_new n nv) r]>) d).
  apply (transition_db handler all_ok undisturbed (fun _ => eq_refl) id s (row_state r) now clock d)
    with (next := n) (t := t) (txn1 := d) (txn2 := d1) (txn3 := persist_history d1 id nv n);
    unfold this_run, write_txn, undisturbed; rewrite ?Hh; simpl.
  - done.
  - done.
  - done.
  - unfold this_run, undisturbed. rewrite Hh. simpl. by rewrite Hd.
  - rewrite table_persist. unfold try_update. rewrite Hr. by rewrite decide_True.
  - apply table_history.
  - apply table_outcome.
Qed.

(** A handler that deletes the object in its transaction. *)
Lemma attempt_deletes now clock id d s cs d' :
  load_object_state d id = Ok (Some s) -> load_controller_state d id s = Ok cs ->
  handler id s (value cs) d = mk_handled d [] (Ok (Deleted (Some d'))) ->
  attempt now clock id d = d'.
Proof.
  intros Hl Hcs Hh. unfold attempt.
  apply (quiet_db handler all_ok undisturbed (fun _ => eq_refl) id s cs now clock d)
    with (o := Deleted (Some d')) (txn := d');
    unfold this_run, write_txn, undisturbed; rewrite ?Hh; try done.
Qed.
End Attempt.
End Guarded.
Arguments TableIO : clear implicits.
Arguments TableIO Db Row S C {T io}.

(** ** A table of objects that are new or ready *)
Module ReadyTable.
Record db := mk_db { objects : gmap string (versioned bool * option PersistentOutcome); past : gmap string (list (versioned bool)) }.

#[global, program] Instance ready_table : StateTable db (versioned bool * option PersistentOutcome) bool := {
  rows := objects;
  set_rows f d := mk_db (f (objects d)) (past d);
  histories := past;
  set_histories f d := mk_db (objects d) (f (past d));
  row_state := fst;
  put_state v r := (v, r.2);
  put_outcome o r := (r.1, Some o)
}.
Solve Obligations with done.
#[global] Instance ready_io : StateControllerIO db string unit bool := {
  id_to_string i := i;
  show_state b := if b then "Ready" else "New";
  list_objects d := Ok (elements (dom (objects d)));
  load_object_state d i := Ok ((fun _ => ()) <$> objects d !! i);
  load_controller_state d i _ := Ok (default (versioned_new false ConfigVersion.invalid) (fst <$> objects d !! i));
  persist_controller_state d i old new c := Ok (try_update d i old new c);
  persist_state_history d i v c := Ok (persist_history d i v c);
  persist_outcome d i o := Ok (update_outcome d i o);
  metric_state_names b := (if b then "ready" else "new", "");
  manual_intervention_reason _ := None;
  state_sla _ _ _ := no_sla
}.
#[global] Instance ready_table_io : TableIO db (versioned bool * option PersistentOutcome) unit bool.
Proof.
  split; [|done..]. intros d i [] cs. simpl. unfold state_of. simpl. by destruct (objects d !! i) as [[v o]|]; simpl; [intros _ [= <-]|].
Defined.

Definition make_ready (i : string) (s : unit) (c : bool) (d : db) : handled db bool := mk_handled d [] (Ok (transition true)).
Definition two_new : db :=
  mk_db {[ "a" := (versioned_new false (ConfigVersion.mk 1 0), None); "b" := (versioned_new false (ConfigVersion.mk 4 0), None) ]} ∅.
(** Somebody else moves the object before the transaction begins. *)
Definition overtaken (p : await_point) (d : db) : db :=
  match p with
  | BeginWrite => mk_db (<["a" := (versioned_new false (ConfigVersion.mk 2 5), None)]> (objects d)) (past d)
  | _ => d
  end.
End ReadyTable.

Lemma transition_iff_current_witness :
  let p := process_object ReadyTable.make_ready all_ok undisturbed "a" false 10 10 ReadyTable.two_new in
  let q := process_object ReadyTable.make_ready all_ok ReadyTable.overtaken "a" false 10 10 ReadyTable.two_new in
  (version_nr ∘ version <$> state_of (p_db p) "a" = Some 2 /\ p_event p = Some true) /\
  (p_db q = ReadyTable.overtaken BeginWrite ReadyTable.two_new /\ p_event q = None /\ iteration_invalidated (p_metrics q) = true).
Proof.
  intros p q. split.
  - destruct (transition_iff_current (T := ReadyTable.ready_table) (io := ReadyTable.ready_io) ReadyTable.make_ready undisturbed 10 10 "a" ReadyTable.two_new ()
      (versioned_new false (ConfigVersion.mk 1 0)) true None ReadyTable.two_new ltac:(vm_compute; reflexivity) ltac:(vm_compute; reflexivity)
      eq_refl eq_refl) as (H & _ & _ & _ & He & _).
    fold p in H, He. by rewrite H, He.
  - destruct (transition_iff_current (T := ReadyTable.ready_table) (io := ReadyTable.ready_io) ReadyTable.make_ready ReadyTable.overtaken 10 10 "a" ReadyTable.two_new ()
      (versioned_new false (ConfigVersion.mk 1 0)) true None (ReadyTable.overtaken BeginWrite ReadyTable.two_new) ltac:(vm_compute; reflexivity) ltac:(vm_compute; reflexivity)
      eq_refl eq_refl)
      as (H & He & Hi & _). fold q in H, He, Hi. by rewrite H, He, Hi.
Defined.
End StateTable.
