(* ===== verification/Drain.v ===== *)
(** * Drain: deleting an object that others may still use

    The controllers that delete shared objects follow one protocol: an object that
    is marked as deleted drains until nothing has used it for a period, and only
    then is removed. This file has the protocol on its own, as a specification;
    the handlers of [NetworkSegment] and [VpcPrefix] refine it. *)

From S2P Require Import Prelude Chrono.

Module Drain.

Inductive phase := Active | Draining (delete_at : Z) | Removing.

Section Protocol.
Context {chrono : Chrono} (drain_period : Z).

(** [now.checked_add_signed(drain_period).unwrap_or_else(now)]. *)
Definition drain_deadline (now : Z) : Z := default now (checked_add_signed now drain_period).

(** One look at the object: whether it is marked as deleted and, unless the look
    failed, whether it was seen in use. *)
Definition next (now : Z) (marked : bool) (seen : option bool) (p : phase) : phase :=
  match p with
  | Active => if marked then Draining (drain_deadline now) else Active
  | Draining delete_at =>
      match seen with
      | None => p
      | Some true => Draining (drain_deadline now)
      | Some false => if delete_at <=? now then Removing else p
      end
  | Removing => Removing
  end.

(** What a look finds out: that an active object is marked as deleted, which starts
    its draining; or whether a draining object is in use. *)
Inductive sight := Nothing | Noticed | Used | Unused.
Definition is_active (p : phase) : bool := match p with Active => true | _ => false end.
Definition sight_of (marked : bool) (seen : option bool) (p p' : phase) : sight :=
  match p with
  | Active => if marked && negb (is_active p') then Noticed else Nothing
  | Draining _ => match seen with Some true => Used | Some false => Unused | None => Nothing end
  | Removing => Nothing
  end.

Record visit := mk_visit { at_time : Z; saw : sight }.

(** The looks at one object, newest first, and its phase after them. *)
Inductive visits : list visit -> phase -> Prop :=
| visits_new : visits [] Active
| visits_next l p now marked seen :
    visits l p ->
    visits (mk_visit now (sight_of marked seen p (next now marked seen p)) :: l) (next now marked seen p).

Definition idle (l : list visit) : Prop := Forall (fun v => saw v <> Used) l.

(** At [t0] the object was noticed or seen in use, and not seen in use since. *)
Definition draining_since (l : list visit) (t0 : Z) : Prop :=
  exists mid s0 rest, l = mid ++ mk_visit t0 s0 :: rest /\ (s0 = Noticed \/ s0 = Used) /\ idle mid.

Definition drained (l : list visit) : Prop :=
  exists later t1 before t0, l = later ++ mk_visit t1 Unused :: before /\
    drain_deadline t0 <= t1 /\ draining_since before t0.

Definition visits_inv (l : list visit) (p : phase) : Prop :=
  match p with
  | Active => True
  | Draining delete_at => exists t0, delete_at = drain_deadline t0 /\ draining_since l t0
  | Removing => drained l
  end.

Lemma draining_since_here t s l : s = Noticed \/ s = Used -> draining_since (mk_visit t s :: l) t.
Proof. intros Hs. exists [], s, l. split_and!; [done|done|constructor]. Qed.

Lemma draining_since_cons v l t0 : saw v <> Used -> draining_since l t0 -> draining_since (v :: l) t0.
Proof.
  intros Hv (mid & s0 & rest & -> & Hs & Hm). exists (v :: mid), s0, rest. split_and!; [done|done|]. by constructor.
Qed.

Lemma drained_cons v l : drained l -> drained (v :: l).
Proof. intros (later & t1 & before & t0 & -> & H). by exists (v :: later), t1, before, t0. Qed.

Lemma visits_reach l p : visits l p -> visits_inv l p.
Proof.
  induction 1 as [|l p now marked seen _ IH]; [done|]. destruct p as [|delete_at|]; simpl in *.
  - destruct marked; [|done]. exists now. split; [done|]. apply draining_since_here. by left.
  - destruct IH as (t0 & -> & Hd). destruct seen as [[|]|].
    + exists now. split; [done|]. apply draining_since_here. by right.
    + destruct (Z.leb_spec (drain_deadline t0) now); [by exists [], now, l, t0|].
      exists t0. split; [done|]. by apply draining_since_cons.
    + exists t0. split; [done|]. by apply draining_since_cons.
  - by apply drained_cons.
Qed.

(** A removed object was found unused at a time when the period had passed since
    it was marked or last seen in use. *)
Lemma removed_drained l : visits l Removing -> drained l.
Proof. apply visits_reach. Qed.

(** ** Controllers that follow the protocol

    One call [x] of a controller's handler looks at the object in state [c] and
    leaves it in state [after x c]. *)
Section Refinement.
Context {C X : Type} (phase_of : C -> phase).
Context (time : X -> Z) (marked : X -> bool) (look : X -> C -> option bool) (after : X -> C -> C).

(** The attempts on one object, newest first, and its state after them. An
    attempt whose outcome is not committed leaves the state and saw nothing. *)
Inductive runs : list visit -> C -> Prop :=
| runs_new c : phase_of c = Active -> runs [] c
| runs_committed l c x :
    runs l c -> runs (mk_visit (time x) (sight_of (marked x) (look x c) (phase_of c) (phase_of (after x c))) :: l) (after x c)
| runs_lost l c now : runs l c -> runs (mk_visit now Nothing :: l) c.

Context (refines : forall x c, phase_of (after x c) = next (time x) (marked x) (look x c) (phase_of c)
                               \/ phase_of (after x c) = phase_of c /\ look x c = None).

Lemma visits_stutter l p now : visits l p -> visits (mk_visit now Nothing :: l) p.
Proof.
  intros H%(visits_next _ _ now false None). by destruct p.
Qed.

Lemma runs_visits l c : runs l c -> visits l (phase_of c).
Proof.
  induction 1 as [c ->|l c x _ IH|l c now _ IH]; [constructor| |by apply visits_stutter].
  destruct (refines x c) as [E|[E E']]; rewrite E; [by apply visits_next|]. rewrite E'.
  apply (visits_stutter _ _ (time x)) in IH. destruct (phase_of c); simpl in *; by rewrite ?andb_false_r.
Qed.

Lemma runs_drained l c : runs l c -> phase_of c = Removing -> drained l.
Proof. intros H%runs_visits E. rewrite E in H. by apply removed_drained. Qed.
End Refinement.
End Protocol.
End Drain.
