(* ===== verification/Cluster.v ===== *)
(** * Cluster: the processors that share a queue

    Module [StateProcessor] is the processor of
    crates/state-controller/src/controller/processor.rs around [process_object]:
    what it claims, dispatches, collects and finalizes, with its configuration
    (crates/state-controller/src/config.rs). Module [Cluster] puts any number of
    processors and the enqueuers on one queue table as a step relation, and shows
    that no object is handled by two tasks at once. *)

From S2P Require Import Prelude StateHandler Queue Processor.
Import StateHandler.

(** An object id: [Display] and [FromStr] of [IO::ObjectId]. *)
Class ObjectId (I : Type) := {
  ObjectId_eq_dec :: EqDecision I;
  ObjectId_countable :: Countable I;
  to_string : I -> string;
  from_str : string -> option I;
  from_to_string i : from_str (to_string i) = Some i
}.

#[export] Instance to_string_inj {I} `{!ObjectId I} : Inj (=) (=) (to_string (I := I)).
Proof. intros i j E%(f_equal from_str). rewrite !from_to_string in E. by simplify_eq. Qed.

Module StateProcessor.

(** [IterationConfig]; durations in milliseconds. *)
Record IterationConfig := mk_config {
  iteration_time : Z;
  max_object_handling_time : Z;
  max_concurrency : nat;
  processor_dispatch_interval : Z;
  processor_log_interval : Z;
  metric_emission_interval : Z;
  metric_hold_time : Z
}.

Definition default_config : IterationConfig := {|
  iteration_time := 30 * 1000;
  max_object_handling_time := 3 * 60 * 1000;
  max_concurrency := 10;
  processor_dispatch_interval := 2 * 1000;
  processor_log_interval := 60 * 1000;
  metric_emission_interval := 60 * 1000;
  metric_hold_time := 5 * 60 * 1000
|}.

(** [StatsSinceLastLog]. *)
Record stats := mk_stats {
  num_dispatched_tasks : nat;
  num_completed_tasks : nat;
  num_errored_tasks : nat;
  num_deleted_queued_objects : nat;
  num_requeued_objects : nat
}.
Definition default_stats : stats := mk_stats 0 0 0 0 0.

(** The part of [IterationError] that a processor iteration can return. *)
Inductive IterationError := QueueClaimTimeout | TransactionFailed.

Section Processor.
Context {I C : Type} `{!ObjectId I}.

(** A task of the [JoinSet] and the deadline it was given. *)
Record task := mk_task { t_id : I; t_deadline : Z }.
#[export] Instance task_eq_dec : EqDecision task.
Proof. solve_decision. Defined.

(** The mutable part of [StateProcessor]. *)
Record state := mk_state {
  object_tasks : list task;
  completed_objects : gset I;
  requeue_objects : gset I;
  object_metrics : gmap I (Processor.metrics C * Z);
  last_metric_emission_time : Z;
  stats_since_last_log : stats
}.

Definition fresh (now : Z) : state := mk_state [] ∅ ∅ ∅ now default_stats.

Definition remaining_capacity (cfg : IterationConfig) (s : state) : nat :=
  (max_concurrency cfg - length (object_tasks s))%nat.

Definition dispatch_object_handling_task (deadline : Z) (s : state) (object_id : I) : state :=
  mk_state (object_tasks s ++ [mk_task object_id deadline]) (completed_objects s)
    (requeue_objects s) (object_metrics s) (last_metric_emission_time s) (stats_since_last_log s).

Definition add_dispatched (n : nat) (s : state) : state :=
  let st := stats_since_last_log s in
  mk_state (object_tasks s) (completed_objects s) (requeue_objects s) (object_metrics s)
    (last_metric_emission_time s)
    (mk_stats (num_dispatched_tasks st + n) (num_completed_tasks st) (num_errored_tasks st)
       (num_deleted_queued_objects st) (num_requeued_objects st)).

(** [dequeue_and_dispatch_object_handling_tasks]. The deadline is computed at
    [t0], the claiming transaction starts at [t1] and its result is seen at
    [t2]; [reply] is how the claim's transaction ends. *)
Definition dequeue_and_dispatch (cfg : IterationConfig) (processor_id : string)
    (t0 t1 t2 : Z) (locked : gset string) (reply : Processor.call) (q : Queue.table) (s : state)
    : Queue.table * result IterationError nat * state :=
  let capacity := remaining_capacity cfg s in
  if Nat.eqb capacity 0 then (q, Ok 0%nat, s) else
  let deadline := t0 + max_object_handling_time cfg in
  let capacity := Z.to_nat (Z.min (Z.of_nat capacity) (2 ^ 32 - 1)) in
  let '(q', objects) := Queue.acquire_queued_objects q capacity processor_id
                          (max_object_handling_time cfg * 3) t1 locked in
  match reply with
  | Processor.CallFails => (q, Err TransactionFailed, s)
  | Processor.CallLost => (q', Err TransactionFailed, s)
  | Processor.CallElapsed => (q, Err QueueClaimTimeout, s)
  | Processor.CallElapsedApplied => (q', Err QueueClaimTimeout, s)
  | Processor.CallOk =>
      if deadline <=? t2 then (q', Err QueueClaimTimeout, s) else
      let objects := omap (fun o => from_str (Queue.object_id o)) objects in
      (q', Ok (length objects),
       fold_left (dispatch_object_handling_task deadline) objects
         (add_dispatched (length objects) s))
  end.

(** [process_object_handling_task_result]. *)
Definition process_object_handling_task_result (s : state) (object_id : I)
    (m : Processor.metrics C) (allow_requeue : bool) (collected_at : Z) : state :=
  let st := stats_since_last_log s in
  mk_state (object_tasks s)
    ({[ object_id ]} ∪ completed_objects s)
    (if allow_requeue && Processor.requeues m
     then {[ object_id ]} ∪ requeue_objects s else requeue_objects s)
    (<[ object_id := (m, collected_at) ]> (object_metrics s))
    (last_metric_emission_time s)
    (mk_stats (num_dispatched_tasks st) (num_completed_tasks st + 1)
       (match Processor.error m with Some _ => num_errored_tasks st + 1
        | None => num_errored_tasks st end)
       (num_deleted_queued_objects st) (num_requeued_objects st)).

(** Taking a finished task out of the [JoinSet]. *)
Fixpoint remove_task (t : task) (l : list task) : list task :=
  match l with
  | [] => []
  | u :: l => if decide (u = t) then l else u :: remove_task t l
  end.

Definition join_task (s : state) (t : task) : state :=
  mk_state (remove_task t (object_tasks s)) (completed_objects s) (requeue_objects s)
    (object_metrics s) (last_metric_emission_time s) (stats_since_last_log s).

(** [wait_and_process_object_handling_task_completions]: [join_many] yields the
    finished tasks, or the wait times out ([None]). *)
Definition wait_and_process (results : option (list (task * Processor.metrics C)))
    (allow_requeue : bool) (now : Z) (s : state) : nat * state :=
  match results with
  | None => (0%nat, s)
  | Some l =>
      (length l,
       fold_left (fun s '(t, m) =>
                    process_object_handling_task_result (join_task s t) (t_id t) m allow_requeue now)
                 l s)
  end.

(** [finalize_completed_objects], in a transaction at [now] that ends with [reply]. *)
Definition finalize_completed_objects (processor_id : string) (now : Z)
    (reply : Processor.call) (q : Queue.table) (s : state)
    : Queue.table * result IterationError unit * state :=
  if decide (completed_objects s = ∅) then (q, Ok (), s) else
  let '(q1, num_deleted) :=
    Queue.delete_queued_objects q (to_string <$> elements (completed_objects s)) processor_id in
  let '(q2, num_requeued) :=
    Queue.queue_objects now q1 (to_string <$> elements (requeue_objects s)) in
  match reply with
  | Processor.CallOk =>
      let st := stats_since_last_log s in
      (q2, Ok (),
       mk_state (object_tasks s) ∅ ∅ (object_metrics s) (last_metric_emission_time s)
         (mk_stats (num_dispatched_tasks st) (num_completed_tasks st) (num_errored_tasks st)
            (num_deleted_queued_objects st + num_deleted)
            (num_requeued_objects st + num_requeued)))
  | Processor.CallLost | Processor.CallElapsedApplied => (q2, Err TransactionFailed, s)
  | Processor.CallFails | Processor.CallElapsed => (q, Err TransactionFailed, s)
  end.

(** [emit_metrics]: the metrics older than the hold time are evicted. *)
Definition emit_metrics (cfg : IterationConfig) (now : Z) (s : state) : state :=
  mk_state (object_tasks s) (completed_objects s) (requeue_objects s)
    (filter (fun '(_, (_, collected_at)) => now - metric_hold_time cfg <= collected_at)
       (object_metrics s))
    now (stats_since_last_log s).

Definition emit_metrics_if_necessary (cfg : IterationConfig) (now : Z) (s : state) : state :=
  if now <? last_metric_emission_time s + metric_emission_interval cfg
  then s else emit_metrics cfg now s.

(** [run]: when the next iteration starts, from the number of completed tasks. *)
Definition next_dispatch_at (start iteration_time : Z) (r : result IterationError nat) : Z :=
  match r with
  | Ok num_completed_tasks =>
      if (1 <? num_completed_tasks)%nat then start else start + iteration_time
  | Err _ => start + iteration_time
  end.

(** [run_single_iteration]: what happens between its steps is left to the
    caller, which passes the queue as each step finds it. *)
Definition run_single_iteration (cfg : IterationConfig) (processor_id : string) (t0 t1 t2 : Z)
    (locked : gset string) (claim_reply : Processor.call) (others : Queue.table -> Queue.table)
    (results : option (list (task * Processor.metrics C))) (allow_requeue : bool)
    (t3 : Z) (finalize_reply : Processor.call) (q : Queue.table) (s : state)
    : Queue.table * result IterationError (nat * nat) * state :=
  match dequeue_and_dispatch cfg processor_id t0 t1 t2 locked claim_reply q s with
  | (q, Err e, s) => (q, Err e, s)
  | (q, Ok num_dispatched_tasks, s) =>
      let '(num_completed_tasks, s) := wait_and_process results allow_requeue t3 s in
      match finalize_completed_objects processor_id t3 finalize_reply (others q) s with
      | (q, Err e, s) => (q, Err e, s)
      | (q, Ok _, s) =>
          (q, Ok (num_dispatched_tasks, num_completed_tasks), emit_metrics_if_necessary cfg t3 s)
      end
  end.

(** The loop of [drain] over the batches that [join_many] yields; [None] when
    tasks are left after the last batch. *)
Fixpoint drain_tasks (batches : list (list (task * Processor.metrics C))) (now : Z) (s : state)
    : option state :=
  match object_tasks s, batches with
  | [], _ => Some s
  | _, [] => None
  | _, b :: batches => drain_tasks batches now (wait_and_process (Some b) true now s).2
  end.

Definition drain (cfg : IterationConfig) (processor_id : string) (now : Z)
    (batches : list (list (task * Processor.metrics C))) (reply : Processor.call)
    (q : Queue.table) (s : state) : option (Queue.table * state) :=
  s ← drain_tasks batches now s;
  let '(q, _, s) := finalize_completed_objects processor_id now reply q s in
  Some (q, emit_metrics cfg now s).

(** ** Lemmas *)

Lemma dispatch_all deadline l s :
  fold_left (dispatch_object_handling_task deadline) l s =
  mk_state (object_tasks s ++ ((fun i => mk_task i deadline) <$> l)) (completed_objects s)
    (requeue_objects s) (object_metrics s) (last_metric_emission_time s) (stats_since_last_log s).
Proof.
  revert s. induction l as [|i l IH]; intros s; simpl; [rewrite app_nil_r; by destruct s|].
  rewrite IH; simpl. by rewrite <- app_assoc.
Qed.

(** The three ends of a claim: no effect; a claim that nothing was dispatched
    for; a claim whose objects were dispatched before the deadline. *)
Inductive claimed (cfg : IterationConfig) (p : string) (t0 t1 t2 : Z) (locked : gset string)
    (q : Queue.table) (s : state) : Queue.table -> state -> Prop :=
| claimed_nothing : claimed cfg p t0 t1 t2 locked q s q s
| claimed_abandoned count :
    claimed cfg p t0 t1 t2 locked q s
      (Queue.acquire_queued_objects q count p (max_object_handling_time cfg * 3) t1 locked).1 s
| claimed_dispatched count s' :
    (count <= remaining_capacity cfg s)%nat ->
    t2 < t0 + max_object_handling_time cfg ->
    completed_objects s' = completed_objects s ->
    object_tasks s' = object_tasks s ++
      ((fun i => mk_task i (t0 + max_object_handling_time cfg)) <$>
       omap from_str (Queue.dequeued_ids q count (max_object_handling_time cfg * 3) t1 locked)) ->
    claimed cfg p t0 t1 t2 locked q s
      (Queue.acquire_queued_objects q count p (max_object_handling_time cfg * 3) t1 locked).1 s'.

Lemma dequeue_and_dispatch_claimed cfg p t0 t1 t2 locked reply q s q' r s' :
  dequeue_and_dispatch cfg p t0 t1 t2 locked reply q s = (q', r, s') ->
  claimed cfg p t0 t1 t2 locked q s q' s'.
Proof.
  unfold dequeue_and_dispatch. intros H.
  destruct (Nat.eqb (remaining_capacity cfg s) 0); [simplify_eq; constructor|].
  set (count := Z.to_nat _) in H.
  pose proof (Queue.acquire_ids q count p (max_object_handling_time cfg * 3) t1 locked) as Hids.
  destruct (Queue.acquire_queued_objects _ _ _ _ _ _) as [q1 l] eqn:Ea.
  assert (q1 = (Queue.acquire_queued_objects q count p
                  (max_object_handling_time cfg * 3) t1 locked).1) as -> by (by rewrite Ea).
  destruct reply; simplify_eq; [|constructor..]. destruct (Z.leb_spec (t0 + max_object_handling_time cfg) t2);
    simplify_eq; [constructor|]. rewrite dispatch_all.
  apply claimed_dispatched; simpl; [subst count; lia|done..|].
  do 2 f_equal. simpl in Hids. rewrite <- Hids. clear. induction l as [|o l IH]; [done|].
  cbn. destruct (from_str _); cbn; by f_equal.
Qed.

Lemma remove_task_sublist t l : remove_task t l `sublist_of` l.
Proof.
  induction l as [|u l IH]; simpl; [done|]. case_decide; [by apply sublist_cons|by apply sublist_skip].
Qed.

Lemma remove_task_ids t l : (t_id <$> remove_task t l) `sublist_of` (t_id <$> l).
Proof.
  induction l as [|u l IH]; simpl; [done|]. case_decide; [by apply sublist_cons|by apply sublist_skip].
Qed.

Lemma remove_task_distinct t u l :
  NoDup (t_id <$> l) -> t ∈ l -> u ∈ remove_task t l -> t_id u <> t_id t.
Proof.
  induction l as [|v l IH]; simpl; [by intros _ ?%elem_of_nil|].
  intros [Hv Hn]%NoDup_cons Ht Hu E. case_decide as Hd.
  - subst v. destruct Hv. rewrite <- E. by apply list_elem_of_fmap_2.
  - apply elem_of_cons in Ht as [->|Ht]; [done|]. apply elem_of_cons in Hu as [->|Hu].
    + destruct Hv. rewrite E. by apply list_elem_of_fmap_2.
    + by apply IH.
Qed.

Lemma remove_task_length t l : t ∈ l -> length l = S (length (remove_task t l)).
Proof.
  induction l as [|u l IH]; simpl; [by intros ?%elem_of_nil|].
  case_decide as Hd; [done|]. intros [->|?]%elem_of_cons; [done|]. simpl. by rewrite <- IH.
Qed.

(** ** Properties *)

(** A finalization that succeeds removes the processor's own reservations of
    the handled objects, has every object that asked for another pass in the
    queue, leaves other rows alone, and empties both sets; one that fails forgets
    nothing: both sets are kept for the next attempt. *)
Theorem finalize_completed_objects_spec p now reply q s q' r s' :
  finalize_completed_objects p now reply q s = (q', r, s') ->
  requeue_objects s ⊆ completed_objects s ->
  object_tasks s' = object_tasks s /\
  match r with
  | Err _ => s' = s
  | Ok _ =>
      completed_objects s' = ∅ /\ requeue_objects s' = ∅ /\
      (forall i, i ∈ requeue_objects s -> is_Some (q' !! to_string i)) /\
      (forall i row, i ∈ completed_objects s -> q' !! to_string i = Some row ->
         Queue.processed_by row = Some p -> False) /\
      (forall k row, q !! k = Some row -> Queue.processed_by row <> Some p -> q' !! k = Some row)
  end.
Proof.
  unfold finalize_completed_objects. intros H Hsub. case_decide as Hnone.
  { simplify_eq. split_and!; try done; set_solver. }
  pose proof (Queue.delete_lookup q (to_string <$> elements (completed_objects s)) p) as Hd.
  destruct (Queue.delete_queued_objects _ _ _) as [q1 nd].
  pose proof (Queue.queue_objects_lookup now q1 (to_string <$> elements (requeue_objects s))) as Hq.
  destruct (Queue.queue_objects _ _ _) as [q2 nr]; simpl in *.
  destruct reply; simplify_eq/=; split; try done. split_and!; try done.
  - intros i Hi. rewrite Hq. destruct (q1 !! to_string i); [by eexists|].
    rewrite decide_True; [by eexists|]. apply list_elem_of_fmap_2. by apply elem_of_elements.
  - intros i row Hi Hrow Hp. rewrite Hq, Hd in Hrow.
    assert (to_string i ∈ to_string <$> elements (completed_objects s)) as Hin.
    { apply list_elem_of_fmap_2. by apply elem_of_elements. }
    case_decide as Hc; [case_decide; by simplify_eq/=|].
    destruct (q !! to_string i) as [r0|]; [|case_decide; by simplify_eq/=].
    simplify_eq. destruct Hc. split; [done|]. simpl. by rewrite Hp.
  - intros k row Hk Hp. rewrite Hq, Hd, Hk. rewrite decide_False; [done|].
    simpl. intros [_ ?]. congruence.
Qed.

(** The batches that [join_many] can yield, one per wait: never empty while tasks
    run, and made of running tasks. *)
Inductive schedule (now : Z) : state -> list (list (task * Processor.metrics C)) -> Prop :=
| schedule_idle s bs : object_tasks s = [] -> schedule now s bs
| schedule_end s : schedule now s []
| schedule_batch s b bs :
    b <> [] -> b.*1 ⊆+ object_tasks s ->
    schedule now (wait_and_process (Some b) true now s).2 bs -> schedule now s (b :: bs).

Lemma remove_task_perm t l : t ∈ l -> l ≡ₚ t :: remove_task t l.
Proof.
  induction l as [|u l IH]; simpl; [by intros ?%elem_of_nil|].
  case_decide as Hd; [by subst|]. intros [->|Ht]%elem_of_cons; [done|].
  rewrite IH at 1 by done. apply Permutation_swap.
Qed.

Lemma wait_and_process_tasks b allow now s :
  b.*1 ⊆+ object_tasks s ->
  let s' := (wait_and_process (Some b) allow now s).2 in
  object_tasks s ≡ₚ b.*1 ++ object_tasks s' /\
  completed_objects s' = completed_objects s ∪ list_to_set (t_id <$> b.*1).
Proof.
  simpl. revert s. induction b as [|[t m] b IH]; intros s Hb; simpl; [split; [done|set_solver]|].
  simpl in Hb. assert (t ∈ object_tasks s) as Ht.
  { eapply elem_of_submseteq; [|exact Hb]. by left. }
  pose proof (remove_task_perm t _ Ht) as Hp.
  destruct (IH (process_object_handling_task_result (join_task s t) (t_id t) m allow now))
    as [Hs Hc].
  - simpl. rewrite Hp in Hb. by apply (submseteq_app_inv_l _ _ [t]) in Hb.
  - split; [by rewrite Hp, Hs|]. rewrite Hc. simpl. set_solver.
Qed.

(** Draining terminates. Each wait yields at least one finished task, so as
    many waits as there are tasks are enough; afterwards no task is left and
    every object that was claimed is recorded for finalization. *)
Theorem drain_tasks_finishes now s bs :
  schedule now s bs -> (length (object_tasks s) <= length bs)%nat ->
  exists s', drain_tasks bs now s = Some s' /\ object_tasks s' = [] /\
    completed_objects s' = completed_objects s ∪ list_to_set (t_id <$> object_tasks s).
Proof.
  intros Hs. induction Hs as [s bs Hidle|s|s b bs Hne Hsub Hs IH]; intros Hlen.
  - exists s. destruct bs; simpl; rewrite Hidle; split_and!; try done; set_solver.
  - destruct (object_tasks s) as [|t l] eqn:E; [|simpl in Hlen; lia].
    exists s. simpl. rewrite E. split_and!; try done. set_solver.
  - apply (wait_and_process_tasks b true now) in Hsub as [Hp Hc].
    destruct (object_tasks s) as [|t l] eqn:E.
    { apply Permutation_nil_l in Hp. by destruct b as [|[??]]. }
    destruct IH as (s' & Hd & Ht & Hco).
    { apply (f_equal length) in E. apply Permutation_length in Hp. rewrite length_app, length_fmap in Hp.
      destruct b; [done|]. simpl in *. lia. }
    exists s'. split_and!; [|done|].
    + cbn [drain_tasks]. rewrite E. exact Hd.
    + rewrite Hco, Hc, <- (assoc_L (∪)), <- list_to_set_app_L, <- fmap_app. f_equal.
      apply list_to_set_perm_L. by rewrite Hp.
Qed.

End Processor.
Arguments task I : clear implicits.
Arguments state I C {_}.
End StateProcessor.

Module Cluster.
Import StateProcessor.

Section Cluster.
Context {I C : Type} `{!ObjectId I}.
Variable cfg : IterationConfig.

(** How long after its deadline a task may still run: [timeout_at] ends it at
    the next await after the deadline. *)
Variable grace : Z.

(** Whether a processor never claims an object again before it has finalized
    its last handling of that object. *)
Variable finalized_first : bool.

Record cluster := mk_cluster {
  clock : Z;
  queue : Queue.table;
  procs : gmap string (state I C)
}.

Definition running (c : cluster) (p : string) (t : task I) : Prop :=
  exists s, procs c !! p = Some s /\ t ∈ object_tasks s.

Inductive step : cluster -> cluster -> Prop :=
| step_tick c now :
    clock c <= now -> (forall p t, running c p t -> now <= t_deadline t + grace) ->
    step c (mk_cluster now (queue c) (procs c))
| step_enqueue c now ids :
    step c (mk_cluster (clock c) (Queue.queue_objects now (queue c) (to_string <$> ids)).1 (procs c))
| step_start c p :
    procs c !! p = None ->
    step c (mk_cluster (clock c) (queue c) (<[p := fresh (clock c)]> (procs c)))
| step_crash c p : step c (mk_cluster (clock c) (queue c) (delete p (procs c)))
| step_claim c p s t0 t1 locked reply q' r s' :
    procs c !! p = Some s -> t0 <= t1 <= clock c ->
    dequeue_and_dispatch cfg p t0 t1 (clock c) locked reply (queue c) s = (q', r, s') ->
    (finalized_first = true ->
       forall t, t ∈ object_tasks s' -> t ∉ object_tasks s -> t_id t ∉ completed_objects s) ->
    step c (mk_cluster (clock c) q' (<[p := s']> (procs c)))
| step_complete c p s t m allow_requeue :
    procs c !! p = Some s -> t ∈ object_tasks s ->
    step c (mk_cluster (clock c) (queue c)
      (<[p := (wait_and_process (Some [(t, m)]) allow_requeue (clock c) s).2]> (procs c)))
| step_finalize c p s now reply q' r s' :
    procs c !! p = Some s ->
    finalize_completed_objects p now reply (queue c) s = (q', r, s') ->
    step c (mk_cluster (clock c) q' (<[p := s']> (procs c))).

Definition initial (c : cluster) : Prop := queue c = ∅ /\ procs c = ∅.
Definition reachable (c : cluster) : Prop := exists c0, initial c0 /\ rtc step c0 c.

(** ** The invariant *)

Abbreviation budget := (max_object_handling_time cfg).

(** The queue row that reserves a task's object. *)
Definition reserved (q : Queue.table) (p : string) (t : task I) : Prop :=
  exists r, q !! to_string (t_id t) = Some r /\ Queue.processed_by r = Some p /\
    t_deadline t <= Queue.processing_started_at r + budget.

Definition canonical (q : Queue.table) : Prop :=
  forall k r i, q !! k = Some r -> from_str k = Some i -> k = to_string i.

Record proc_inv (now : Z) (q : Queue.table) (p : string) (s : state I C) : Prop := {
  pi_reserved t : t ∈ object_tasks s -> reserved q p t;
  pi_time t : t ∈ object_tasks s -> now <= t_deadline t + grace;
  pi_nodup : NoDup (t_id <$> object_tasks s);
  pi_completed t : t ∈ object_tasks s -> t_id t ∉ completed_objects s;
  pi_capacity : (length (object_tasks s) <= max_concurrency cfg)%nat
}.

Definition inv (c : cluster) : Prop :=
  canonical (queue c) /\
  forall p s, procs c !! p = Some s -> proc_inv (clock c) (queue c) p s.

(** A change of the queue that keeps the reservations of the running tasks. *)
Lemma proc_inv_queue now q q' p s :
  proc_inv now q p s ->
  (forall t, t ∈ object_tasks s -> q' !! to_string (t_id t) = q !! to_string (t_id t)) ->
  proc_inv now q' p s.
Proof.
  intros [Hr Ht Hn Hc Hl] Hq. split; [|done..].
  intros t Hin. destruct (Hr t Hin) as (r & ? & ?). exists r. by rewrite Hq.
Qed.

Lemma inv_update c p q' s' :
  inv c -> canonical q' -> proc_inv (clock c) q' p s' ->
  (forall p' s t, p' <> p -> procs c !! p' = Some s -> t ∈ object_tasks s ->
     q' !! to_string (t_id t) = queue c !! to_string (t_id t)) ->
  inv (mk_cluster (clock c) q' (<[p := s']> (procs c))).
Proof.
  intros [_ Hi] Hcan Hp Hq. split; [done|]. intros p' s. simpl.
  destruct (decide (p' = p)) as [->|Hne].
  - rewrite lookup_insert_eq. intros; by simplify_eq.
  - rewrite lookup_insert_ne by done. intros Hs. eapply proc_inv_queue; [by apply Hi|eauto].
Qed.

Lemma canonical_enqueue now q (ids : list I) :
  canonical q -> canonical (Queue.queue_objects now q (to_string <$> ids)).1.
Proof.
  intros Hc k r i. rewrite Queue.queue_objects_lookup. destruct (q !! k) eqn:E; [by intros _; eapply Hc|].
  case_decide as Hin; [|done]. intros _. apply list_elem_of_fmap in Hin as (j & -> & _).
  rewrite from_to_string. congruence.
Qed.

Hypothesis Hbudget : 0 <= budget.
Hypothesis Hgrace : 0 <= grace <= 2 * budget.

(** A claim never takes the row of a running task. *)
Lemma running_not_claimed now q p s t count locked t1 :
  proc_inv now q p s -> t ∈ object_tasks s -> t1 <= now ->
  to_string (t_id t) ∉ Queue.dequeued_ids q count (budget * 3) t1 locked.
Proof.
  intros [Hr Ht _ _ _] Hin Hle Hd. destruct (Hr t Hin) as (r & Hq & Hp & Hdl).
  apply Queue.dequeued_ids_elem in Hd as (r' & Hq' & He & _). simplify_eq.
  specialize (Ht t Hin). unfold Queue.eligible in He. rewrite Hp in He.
  rewrite bool_decide_eq_false_2 in He by done. apply Z.ltb_lt in He. lia.
Qed.

Lemma acquire_canonical q count p mo t1 locked :
  canonical q -> canonical (Queue.acquire_queued_objects q count p mo t1 locked).1.
Proof.
  intros Hc k r i. rewrite Queue.acquire_lookup. case_decide as Hin; [|by apply Hc].
  apply Queue.dequeued_ids_elem in Hin as (r' & Hq & _). intros _. by eapply Hc.
Qed.

Lemma claimed_ids_canonical q count mo t1 locked i :
  canonical q -> i ∈ omap from_str (Queue.dequeued_ids q count mo t1 locked) ->
  to_string i ∈ Queue.dequeued_ids q count mo t1 locked.
Proof.
  intros Hc (k & Hk & Hi)%list_elem_of_omap.
  pose proof Hk as (r & Hq & _)%Queue.dequeued_ids_elem. by rewrite <- (Hc _ _ _ Hq Hi).
Qed.

Lemma claimed_ids_NoDup q count mo t1 locked :
  canonical q -> NoDup (omap (from_str (I := I)) (Queue.dequeued_ids q count mo t1 locked)).
Proof.
  intros Hc. pose proof (Queue.dequeued_ids_NoDup q count mo t1 locked) as Hn.
  assert (Hq : forall k, k ∈ Queue.dequeued_ids q count mo t1 locked -> exists r, q !! k = Some r).
  { intros k (r & ? & _)%Queue.dequeued_ids_elem. by exists r. }
  revert Hq. induction Hn as [|k l Hk Hn IH]; intros Hq; [constructor|].
  cbn. destruct (from_str k) as [i|] eqn:Ei; [|apply IH; intros; apply Hq; by right].
  constructor; [|apply IH; intros; apply Hq; by right].
  intros (k' & Hk' & Hi)%list_elem_of_omap. destruct Hk.
  destruct (Hq k) as [r Hr]; [by left|]. destruct (Hq k') as [r' Hr']; [by right|].
  by rewrite (Hc _ _ _ Hr Ei), <- (Hc _ _ _ Hr' Hi).
Qed.

Lemma claimed_ids_length q count mo t1 locked :
  (length (omap (from_str (I := I)) (Queue.dequeued_ids q count mo t1 locked)) <= count)%nat.
Proof.
  transitivity (length (Queue.dequeued_ids q count mo t1 locked)).
  - generalize (Queue.dequeued_ids q count mo t1 locked) as l. induction l as [|k l IH]; [done|].
    cbn. destruct (from_str k); cbn; lia.
  - rewrite Queue.dequeued_ids_length. lia.
Qed.

Lemma acquire_running now q p s t count p' locked t1 :
  proc_inv now q p s -> t ∈ object_tasks s -> t1 <= now ->
  (Queue.acquire_queued_objects q count p' (budget * 3) t1 locked).1 !! to_string (t_id t)
  = q !! to_string (t_id t).
Proof.
  intros Hp Hin Hle. rewrite Queue.acquire_lookup.
  by rewrite decide_False by (by eapply running_not_claimed).
Qed.

Lemma dispatched_inv now q p s s' t0 t1 count locked :
  canonical q -> proc_inv now q p s -> t0 <= t1 <= now ->
  (count <= remaining_capacity cfg s)%nat -> now < t0 + budget ->
  completed_objects s' = completed_objects s ->
  object_tasks s' = object_tasks s ++
    ((fun i => mk_task i (t0 + budget)) <$>
     omap from_str (Queue.dequeued_ids q count (budget * 3) t1 locked)) ->
  (forall t, t ∈ object_tasks s' -> t ∉ object_tasks s -> t_id t ∉ completed_objects s) ->
  proc_inv now (Queue.acquire_queued_objects q count p (budget * 3) t1 locked).1 p s'.
Proof.
  intros Hcan Hp Ht Hcount Hdl Hco Hta Hfresh.
  assert (Hnew : forall t, t ∈ object_tasks s' -> t ∈ object_tasks s \/
            ((t ∉ object_tasks s) /\ t_deadline t = t0 + budget /\
             to_string (t_id t) ∈ Queue.dequeued_ids q count (budget * 3) t1 locked)).
  { intros t. rewrite Hta, elem_of_app, list_elem_of_fmap. intros [?|(i & -> & Hi)]; [by left|right].
    apply claimed_ids_canonical in Hi; [|done]. split_and!; [|done..].
    intros Hin. eapply running_not_claimed; [exact Hp|exact Hin| |exact Hi]. lia. }
  split.
  - intros t Hin. destruct (Hnew t Hin) as [Hold|(_ & Hd & Hid)].
    + destruct (pi_reserved _ _ _ _ Hp t Hold) as (r & ?). exists r.
      rewrite (acquire_running now _ p s) by (done || lia). done.
    + exists (Queue.mk_row (Some p) t1). rewrite Queue.acquire_lookup, decide_True by done.
      split_and!; [done..|]. simpl. lia.
  - intros t [Hin|(_ & Hd & _)]%Hnew; [by eapply pi_time|lia].
  - rewrite Hta, fmap_app, <- list_fmap_compose. apply NoDup_app. split_and!; [by eapply pi_nodup| |].
    + intros i (t & -> & Hin)%list_elem_of_fmap Hi. rewrite list_fmap_id in Hi.
      apply claimed_ids_canonical in Hi; [|done].
      eapply running_not_claimed; [exact Hp|exact Hin| |exact Hi]. lia.
    + rewrite list_fmap_id. by apply claimed_ids_NoDup.
  - intros t Hin. rewrite Hco. destruct (Hnew t Hin) as [?|[? _]]; [by eapply pi_completed|auto].
  - rewrite Hta, length_app, length_fmap. pose proof (pi_capacity _ _ _ _ Hp).
    pose proof (claimed_ids_length q count (budget * 3) t1 locked).
    unfold remaining_capacity in Hcount. lia.
Qed.

Lemma claim_inv c p s t0 t1 locked q' s' :
  inv c -> procs c !! p = Some s -> t0 <= t1 <= clock c ->
  claimed cfg p t0 t1 (clock c) locked (queue c) s q' s' ->
  (forall t, t ∈ object_tasks s' -> t ∉ object_tasks s -> t_id t ∉ completed_objects s) ->
  inv (mk_cluster (clock c) q' (<[p := s']> (procs c))).
Proof.
  intros Hi Hs Ht Hcl Hfresh. pose proof Hi as [Hcan Hp].
  destruct Hcl as [|count|count s' Hcount Hdl Hco Hta]; apply inv_update; auto using acquire_canonical.
  - eapply proc_inv_queue; [by apply Hp|]. intros t Hin. eapply acquire_running; [by apply Hp|done|lia].
  - intros p' s1 t _ Hs1 Hin. eapply acquire_running; [by apply Hp|done|lia].
  - eapply dispatched_inv; eauto.
  - intros p' s1 t _ Hs1 Hin. eapply acquire_running; [by apply Hp|done|lia].
Qed.

Lemma complete_inv c p s t m allow_requeue :
  inv c -> procs c !! p = Some s -> t ∈ object_tasks s ->
  inv (mk_cluster (clock c) (queue c)
    (<[p := (wait_and_process (Some [(t, m)]) allow_requeue (clock c) s).2]> (procs c))).
Proof.
  intros Hi Hs Hin. pose proof Hi as [Hcan Hp]. apply inv_update; auto.
  destruct (Hp p s Hs) as [Hr Htm Hn Hc Hl]. pose proof (remove_task_sublist t (object_tasks s)) as Hsub.
  assert (Hel : forall u, u ∈ remove_task t (object_tasks s) -> u ∈ object_tasks s).
  { intros u. by apply sublist_subseteq. }
  split; simpl; [auto..| | |].
  - eapply sublist_NoDup; [exact Hn|apply remove_task_ids].
  - intros u Hu. rewrite not_elem_of_union, not_elem_of_singleton. split; [|auto].
    by eapply remove_task_distinct.
  - apply sublist_length in Hsub. lia.
Qed.

(** What finalizing does to the row of an object the processor still handles,
    or that another processor has. *)
Lemma finalize_lookup p now reply q (s : state I C) q' r s' k :
  finalize_completed_objects p now reply q s = (q', r, s') ->
  object_tasks s' = object_tasks s /\ completed_objects s' ⊆ completed_objects s /\
  (is_Some (q !! k) ->
   (forall i, i ∈ completed_objects s -> to_string i = k ->
      (Queue.processed_by <$> q !! k) <> Some (Some p)) -> q' !! k = q !! k).
Proof.
  unfold finalize_completed_objects. intros H.
  case_decide; [by simplify_eq|].
  pose proof (Queue.delete_lookup q (to_string <$> elements (completed_objects s)) p k) as Hd.
  destruct (Queue.delete_queued_objects _ _ _) as [q1 nd].
  pose proof (Queue.queue_objects_lookup now q1 (to_string <$> elements (requeue_objects s)) k) as Hq.
  destruct (Queue.queue_objects _ _ _) as [q2 nr].
  assert (is_Some (q !! k) -> (forall i, i ∈ completed_objects s -> to_string i = k ->
      (Queue.processed_by <$> q !! k) <> Some (Some p)) -> q2 !! k = q !! k) as Hk.
  { intros [row Hr] Hn. simpl in *. rewrite Hq, Hd. rewrite decide_False; [by rewrite Hr|].
    intros [(i & -> & Hi%elem_of_elements)%list_elem_of_fmap Hp]. by eapply Hn. }
  destruct reply; simplify_eq/=; split_and!; auto; set_solver.
Qed.

Lemma finalize_canonical p now reply q (s : state I C) q' r s' :
  canonical q -> finalize_completed_objects p now reply q s = (q', r, s') -> canonical q'.
Proof.
  unfold finalize_completed_objects. intros Hc H. case_decide; [by simplify_eq|].
  pose proof (Queue.delete_lookup q (to_string <$> elements (completed_objects s)) p) as Hd.
  destruct (Queue.delete_queued_objects _ _ _) as [q1 nd]; simpl in Hd.
  assert (canonical q1) as Hc1.
  { intros k r1 i. rewrite Hd. case_decide; [done|apply Hc]. }
  pose proof (canonical_enqueue now q1 (elements (requeue_objects s)) Hc1) as Hc2.
  destruct (Queue.queue_objects _ _ _) as [q2 nr]. by destruct reply; simplify_eq.
Qed.

Lemma finalize_inv c p s now reply q' r s' :
  inv c -> procs c !! p = Some s ->
  finalize_completed_objects p now reply (queue c) s = (q', r, s') ->
  inv (mk_cluster (clock c) q' (<[p := s']> (procs c))).
Proof.
  intros Hi Hs Hf. pose proof Hi as [Hcan Hp].
  assert (Hrow : forall p' s1 t, procs c !! p' = Some s1 -> t ∈ object_tasks s1 ->
            q' !! to_string (t_id t) = queue c !! to_string (t_id t)).
  { intros p' s1 t Hs1 Hin. destruct (Hp p' s1 Hs1) as [Hr _ _ Hc _].
    destruct (Hr t Hin) as (row & Hq & Hb & _).
    apply (finalize_lookup p now reply _ _ _ _ _ (to_string (t_id t))) in Hf as (_ & _ & Hk).
    apply Hk; [by eexists|]. intros i Hic ->%(inj to_string). rewrite Hq. simpl. rewrite Hb.
    intros ?; simplify_eq. by eapply Hc. }
  pose proof (finalize_lookup p now reply _ _ _ _ _ "" Hf) as (Hta & Hco & _).
  apply inv_update; [done|by eapply finalize_canonical| |by intros; eapply Hrow].
  pose proof (Hp p s Hs) as Hps. apply (proc_inv_queue _ _ q') in Hps; [|by intros; eapply Hrow].
  destruct Hps as [Hr Ht Hn Hc Hl]. split; rewrite ?Hta; try done. intros t Hin. set_solver.
Qed.

Hypothesis Hff : finalized_first = true.

Lemma step_inv c c' : step c c' -> inv c -> inv c'.
Proof.
  intros Hst Hi. pose proof Hi as [Hcan Hp].
  destruct Hst as [c now Hnow Hd|c now ids|c p Hnone|c p|c p s t0 t1 locked reply q' r s' Hs Ht Hdq Hfr
    |c p s t m allow Hs Hin|c p s now reply q' r s' Hs Hf].
  - split; [done|]. intros p s Hs. destruct (Hp p s Hs). split; [done| |done..].
    intros t Hin. apply (Hd p). by exists s.
  - split; [by apply canonical_enqueue|]. intros p s Hs. eapply proc_inv_queue; [by apply Hp|].
    intros t Hin. destruct (Hp p s Hs) as [Hr _ _ _ _]. destruct (Hr t Hin) as (r & Hq & _).
    simpl. by rewrite Queue.queue_objects_lookup, Hq.
  - apply inv_update; [done..| |done]. split; simpl; try (by intros ? ?%elem_of_nil); [constructor|lia].
  - split; [done|]. intros p' s. simpl. rewrite lookup_delete_Some. intros [_ ?]. auto.
  - eapply claim_inv; eauto using dequeue_and_dispatch_claimed.
  - by eapply complete_inv.
  - by eapply finalize_inv.
Qed.

Lemma reachable_inv c : reachable c -> inv c.
Proof.
  intros (c0 & [Hq Hp] & Hr).
  assert (inv c0) as Hi0.
  { split; [intros k r i; by rewrite Hq, lookup_empty|intros p s; by rewrite Hp, lookup_empty]. }
  clear -Hr Hi0 Hbudget Hgrace Hff. induction Hr; eauto using step_inv.
Qed.

(** C1: mutual exclusion. However claims, completions, finalizations, crashes,
    lost replies and clock ticks interleave, at most one task of all processors
    handles an object at any time, and while it runs the object's queue row is
    reserved for its processor; no processor exceeds its concurrency. This
    needs tasks to end within twice the handling time after their deadline (a
    reservation lasts three times the handling time), and processors that do not
    claim an object they have yet to finalize. *)
Theorem mutual_exclusion c p p' t t' :
  reachable c -> running c p t -> running c p' t' -> t_id t = t_id t' ->
  p = p' /\ t = t' /\ reserved (queue c) p t /\
  forall s, procs c !! p = Some s -> (length (object_tasks s) <= max_concurrency cfg)%nat.
Proof.
  intros [_ Hp]%reachable_inv (s & Hs & Hin) (s' & Hs' & Hin') E.
  destruct (Hp p s Hs) as [Hr _ Hn _ Hl], (Hp p' s' Hs') as [Hr' _ _ _ _].
  pose proof (Hr t Hin) as (r & Hq & Hb & Hd). destruct (Hr' t' Hin') as (r' & Hq' & Hb' & _).
  rewrite <- E in Hq'. simplify_eq. split_and!; [done| |by exists r|by intros; simplify_eq].
  by eapply NoDup_fmap_elem_inj.
Qed.
End Cluster.

(** ** Concrete runs *)

#[export] Instance string_ObjectId : ObjectId string := {
  to_string := fun s => s;
  from_str := Some;
  from_to_string := fun _ => eq_refl
}.

Section Runs.
Variable finalized_first : bool.
Let cluster := (@cluster string bool _).
Let reach := (@reachable string bool _ default_config 0 finalized_first).

Lemma reachable_step c c' : reach c -> step default_config 0 finalized_first c c' -> reach c'.
Proof. intros (c0 & Hi & Hr) Hs. exists c0. split; [done|]. by eapply rtc_r. Qed.

Definition start_ (p : string) (c : cluster) : cluster :=
  mk_cluster (clock c) (queue c) (<[p := fresh (clock c)]> (procs c)).
Definition enqueue_ (ids : list string) (c : cluster) : cluster :=
  mk_cluster (clock c) (Queue.queue_objects (clock c) (queue c) (to_string <$> ids)).1 (procs c).
Definition claim_ (p : string) (c : cluster) : cluster :=
  match procs c !! p with
  | Some s =>
      let '(q', _, s') := dequeue_and_dispatch default_config p (clock c) (clock c) (clock c) ∅
                            Processor.CallOk (queue c) s in
      mk_cluster (clock c) q' (<[p := s']> (procs c))
  | None => c
  end.
(** The first task of [p] ends with a transition. *)
Definition complete_ (p : string) (c : cluster) : cluster :=
  match procs c !! p with
  | Some s =>
      match object_tasks s with
      | t :: _ =>
          let m := Processor.set_next Processor.default_metrics (Some (true, 0, None)) in
          mk_cluster (clock c) (queue c)
            (<[p := (wait_and_process (Some [(t, m)]) true (clock c) s).2]> (procs c))
      | [] => c
      end
  | None => c
  end.
Definition finalize_ (p : string) (reply : Processor.call) (c : cluster) : cluster :=
  match procs c !! p with
  | Some s =>
      let '(q', _, s') := finalize_completed_objects p (clock c) reply (queue c) s in
      mk_cluster (clock c) q' (<[p := s']> (procs c))
  | None => c
  end.

Lemma claim_run p c :
  (finalized_first = true -> forall s, procs c !! p = Some s -> completed_objects s = ∅) ->
  reach c -> reach (claim_ p c).
Proof.
  intros Hf Hc. unfold claim_. destruct (procs c !! p) as [s|] eqn:E; [|done].
  destruct (dequeue_and_dispatch _ _ _ _ _ _ _ _ _) as [[q' r] s'] eqn:Ed.
  eapply reachable_step; [exact Hc|]. eapply step_claim; [done| |exact Ed|]; [simpl; lia|].
  intros Ht t _ _. rewrite (Hf Ht s eq_refl). set_solver.
Qed.

Lemma claim_run_empty p c : completed_objects <$> procs c !! p = Some ∅ -> reach c -> reach (claim_ p c).
Proof. intros E. apply claim_run. intros _ s Hs. rewrite Hs in E. by injection E. Qed.

Lemma complete_run p c : reach c -> reach (complete_ p c).
Proof.
  intros Hc. unfold complete_. destruct (procs c !! p) as [s|] eqn:E; [|done].
  destruct (object_tasks s) as [|t l] eqn:El; [done|].
  eapply reachable_step; [exact Hc|]. eapply step_complete; [done|]. rewrite El. by left.
Qed.

Lemma finalize_run p reply c : reach c -> reach (finalize_ p reply c).
Proof.
  intros Hc. unfold finalize_. destruct (procs c !! p) as [s|] eqn:E; [|done].
  destruct (finalize_completed_objects _ _ _ _ _) as [[q' r] s'] eqn:Ef.
  eapply reachable_step; [exact Hc|]. by eapply step_finalize.
Qed.
End Runs.

(** Two processors and one queued object. *)
Definition two_processors : cluster :=
  enqueue_ ["m"] (start_ "b" (start_ "a" (mk_cluster 0 ∅ ∅))).

Lemma two_processors_reachable ff :
  reachable default_config 0 ff two_processors.
Proof.
  exists (mk_cluster 0 ∅ ∅). split; [done|].
  eapply rtc_l; [by apply (step_start _ _ _ _ "a")|].
  eapply rtc_l; [by apply (step_start _ _ _ _ "b")|].
  eapply rtc_l; [apply (step_enqueue _ _ _ _ 0 ["m"])|done].
Qed.

Lemma mutual_exclusion_witness :
  let c := claim_ "a" two_processors in
  let t := mk_task "m" 180000 in
  running c "a" t /\ reserved default_config (queue c) "a" t.
Proof.
  assert (running (claim_ "a" two_processors) "a" (mk_task "m" 180000)) as Hr.
  { eexists. split; [vm_compute; reflexivity|]. by left. }
  split; [exact Hr|].
  refine (proj1 (proj2 (proj2 (mutual_exclusion default_config 0 true _ _ eq_refl
    (claim_ "a" two_processors) "a" "a" _ (mk_task "m" 180000) _ Hr Hr eq_refl)))).
  - simpl. lia.
  - simpl. lia.
  - apply claim_run; [|apply two_processors_reachable].
    intros _ s Hs. vm_compute in Hs. by simplify_eq.
Defined.

(** One claimed and handled object, and what two processors do next: the first one
    finalizes, with this reply to its commit, claims, and finalizes again; then the
    second one claims. *)
Definition handled_once : cluster := complete_ "a" (claim_ "a" two_processors).
Definition after_reply (reply : Processor.call) : cluster :=
  claim_ "b" (finalize_ "a" Processor.CallOk (claim_ "a" (finalize_ "a" reply handled_once))).

(** C34: the last assumption of mutual exclusion is needed, and one lost reply breaks
    it. From a state that is reached without breaking it, the same steps follow. If the
    reply to the commit of the first finalization is lost, the processor keeps the
    object in its completed set, claims the requeued object again, and its next
    finalization deletes the reservation of the task it is running: another processor
    then handles the same object at the same time. If the reply arrives, every step
    keeps the assumption, and the second processor gets nothing. *)
Theorem lost_finalize_reply_breaks_exclusion :
  reachable default_config 0 true handled_once /\
  reachable default_config 0 false (after_reply Processor.CallLost) /\
  (exists t t', running (after_reply Processor.CallLost) "a" t /\ running (after_reply Processor.CallLost) "b" t' /\
     t_id t = t_id t') /\
  reachable default_config 0 true (after_reply Processor.CallOk) /\
  (exists t, running (after_reply Processor.CallOk) "a" t) /\
  forall t, ~ running (after_reply Processor.CallOk) "b" t.
Proof.
  assert (H0 : reachable default_config 0 true handled_once).
  { apply complete_run, claim_run_empty; [vm_compute; reflexivity|apply two_processors_reachable]. }
  split_and!; [done|..].
  - unfold after_reply, handled_once. apply claim_run; [by intros [=]|]. apply finalize_run. apply claim_run; [by intros [=]|].
    apply finalize_run, complete_run, claim_run; [by intros [=]|]. apply two_processors_reachable.
  - exists (mk_task "m" 180000), (mk_task "m" 180000).
    split_and!; [eexists; split; [vm_compute; reflexivity|by left]..|done].
  - unfold after_reply. apply claim_run_empty; [vm_compute; reflexivity|]. apply finalize_run.
    apply claim_run_empty; [vm_compute; reflexivity|]. by apply finalize_run.
  - eexists. eexists. split; [vm_compute; reflexivity|]. by left.
  - assert (E : object_tasks <$> procs (after_reply Processor.CallOk) !! "b" = Some []) by (vm_compute; reflexivity).
    intros t (s & Hs & Ht). rewrite Hs in E. injection E as E. rewrite E in Ht. by apply elem_of_nil in Ht.
Qed.

Definition sample_metrics : Processor.metrics bool :=
  Processor.set_next Processor.default_metrics (Some (true, 0, None)).
Definition one_completed : state string bool :=
  mk_state [] {["m"]} {["m"]} ∅ 0 default_stats.

Lemma finalize_completed_objects_spec_witness :
  is_Some ((finalize_completed_objects "a" 7 Processor.CallOk
              {["m" := Queue.mk_row (Some "a") 5]} one_completed).1.1 !! "m").
Proof.
  refine (proj1 (proj2 (proj2 (proj2 (finalize_completed_objects_spec "a" 7 Processor.CallOk
    {["m" := Queue.mk_row (Some "a") 5]} one_completed _ (Ok ()) _ _ _)))) "m" _).
  - vm_compute. reflexivity.
  - set_solver.
  - set_solver.
Defined.

Lemma drain_tasks_finishes_witness :
  let s := mk_state [mk_task "m" 10; mk_task "n" 10] ∅ ∅ ∅ 0 default_stats in
  let bs := [[(mk_task "n" 10, sample_metrics)]; [(mk_task "m" 10, sample_metrics)]] in
  exists s', drain_tasks bs 5 s = Some s' /\ completed_objects s' = {["m"; "n"]}.
Proof.
  intros s bs. destruct (drain_tasks_finishes 5 s bs) as (s' & Hd & _ & Hc).
  - apply schedule_batch; [done| |].
    { apply submseteq_cons. done. }
    apply schedule_batch; [done|done|]. by apply schedule_end.
  - simpl. lia.
  - exists s'. split; [exact Hd|]. rewrite Hc. vm_compute. reflexivity.
Defined.

End Cluster.
