(* ===== verification/WorkLock.v ===== *)
(** * WorkLock: crates/api-db/src/work_lock_manager.rs

    Leases on named units of work, kept in the [work_locks] table. Every replica
    runs one manager that works off a FIFO of commands; holders of a lease send
    keepalives, releases, and may fence a transaction. The step relation [step]
    lets any number of managers and transactions work on the one table. *)

From S2P Require Import Prelude StateHandler.

Module WorkLock.

Abbreviation WorkKey := string (only parsing).
(** A UUID. *)
Abbreviation WorkerId := N (only parsing).

Record lock_row := mk_lock { worker_id : WorkerId; started : Z; last_keepalive : Z }.
Abbreviation table := (gmap WorkKey lock_row).

Definition COMMAND_BUFFER_SIZE : nat := 100.

Record KeepaliveConfig := mk_keepalive { interval : Z; timeout : Z }.
Definition default_keepalive : KeepaliveConfig := mk_keepalive (10 * 1000) (60 * 1000).

(** ** The statements *)

(** [try_acquire_lock]: insert the row, or take it over when its lease expired;
    [fresh] is the worker id the table generates. *)
Definition try_acquire_lock (t : table) (work_key : WorkKey) (keepalive_timeout now : Z)
    (fresh : WorkerId) : table * option WorkerId :=
  match t !! work_key with
  | None => (<[work_key := mk_lock fresh now now]> t, Some fresh)
  | Some r => if last_keepalive r + keepalive_timeout <? now
              then (<[work_key := mk_lock fresh now now]> t, Some fresh)
              else (t, None)
  end.

(** The rows [WHERE work_key = k AND worker_id = w]. *)
Definition owned (t : table) (k : WorkKey) (w : WorkerId) : option lock_row :=
  match t !! k with
  | Some r => if N.eqb (worker_id r) w then Some r else None
  | None => None
  end.

Definition release_lock (t : table) (k : WorkKey) (w : WorkerId) : result DatabaseError table :=
  match owned t k w with
  | Some _ => Ok (delete k t)
  | None => Err (FailedPrecondition "Tried to release nonexistent lock")
  end.

Definition keep_lock_alive (t : table) (k : WorkKey) (w : WorkerId) (now : Z)
    : result DatabaseError table :=
  match owned t k w with
  | Some r => Ok (<[k := mk_lock (worker_id r) (started r) now]> t)
  | None => Err (FailedPrecondition "BUG: Tried to keep alive nonexistent lock")
  end.

Definition fence_transaction (t : table) (k : WorkKey) (w : WorkerId) : result DatabaseError unit :=
  match owned t k w with
  | Some _ => Ok ()
  | None => Err (FailedPrecondition "work lock is no longer held")
  end.

(** ** Commands *)

Inductive command :=
| AcquireLock (work_key : WorkKey)
| KeepLockAlive (work_key : WorkKey) (worker_id : WorkerId)
| ReleaseLock (work_key : WorkKey) (worker_id : WorkerId).

Inductive CommandDispatchError := NoCapacity | ManagerShutdown.

Inductive AcquireLockError :=
| WorkAlreadyLocked (k : WorkKey)
| AcquireDatabase (e : DatabaseError).
Inductive KeepAliveError :=
| LockLost (msg : string)
| KeepAliveDatabase (e : DatabaseError)
| KeepAliveSend (e : CommandDispatchError)
| KeepAliveReply.

Inductive WorkLockFailure := FDatabase | FCommandDispatch | FCommandReply | FLockLost.

Definition from_release_error (e : DatabaseError) : WorkLockFailure :=
  match e with FailedPrecondition _ => FLockLost | _ => FDatabase end.

Definition failure (e : KeepAliveError) : WorkLockFailure :=
  match e with
  | LockLost _ => FLockLost
  | KeepAliveDatabase _ => FDatabase
  | KeepAliveSend _ => FCommandDispatch
  | KeepAliveReply => FCommandReply
  end.

Inductive reply :=
| NoReply
| AcquireReply (r : result AcquireLockError WorkerId)
| KeepAliveReplied (r : result KeepAliveError unit)
| ReleaseReply (r : result DatabaseError unit).

(** How a statement ends: as written, refused by the database, or applied with
    the connection lost. *)
Inductive db_end := DbOk | DbFails | DbLost.

Definition db_error : DatabaseError := QueryError "database".

(** One turn of [run_loop]. [closed] says that the caller of an acquisition is gone. *)
Definition run_command (keepalive_timeout now : Z) (fresh : WorkerId) (closed : bool) (d : db_end)
    (t : table) (c : command) : table * reply :=
  match c with
  | AcquireLock k =>
      if closed then (t, NoReply) else
      let '(t', got) := try_acquire_lock t k keepalive_timeout now fresh in
      match d with
      | DbFails => (t, AcquireReply (Err (AcquireDatabase db_error)))
      | DbLost => (t', AcquireReply (Err (AcquireDatabase db_error)))
      | DbOk => (t', AcquireReply match got with
                                  | Some w => Ok w
                                  | None => Err (WorkAlreadyLocked k)
                                  end)
      end
  | ReleaseLock k w =>
      match release_lock t k w, d with
      | _, DbFails => (t, ReleaseReply (Err db_error))
      | Ok t', DbLost => (t', ReleaseReply (Err db_error))
      | Ok t', DbOk => (t', ReleaseReply (Ok ()))
      | Err _, DbLost => (t, ReleaseReply (Err db_error))
      | Err e, DbOk => (t, ReleaseReply (Err e))
      end
  | KeepLockAlive k w =>
      match keep_lock_alive t k w now, d with
      | _, DbFails => (t, KeepAliveReplied (Err (KeepAliveDatabase db_error)))
      | Ok t', DbLost => (t', KeepAliveReplied (Err (KeepAliveDatabase db_error)))
      | Ok t', DbOk => (t', KeepAliveReplied (Ok ()))
      | Err _, DbLost => (t, KeepAliveReplied (Err (KeepAliveDatabase db_error)))
      | Err (FailedPrecondition msg), DbOk => (t, KeepAliveReplied (Err (LockLost msg)))
      | Err e, DbOk => (t, KeepAliveReplied (Err (KeepAliveDatabase e)))
      end
  end.

(** What the keepalive loop of a held lock does with a reply; [stopped] says that
    the lock is being dropped. *)
Inductive keepalive_turn := Continue (event : option WorkLockFailure) | Exit (event : option WorkLockFailure).
Definition keepalive_loop (stopped : bool) (r : result KeepAliveError unit) : keepalive_turn :=
  match r with
  | Ok _ => Continue None
  | Err (LockLost _) => Exit (if stopped then None else Some FLockLost)
  | Err e => Continue (Some (failure e))
  end.

(** ** The manager's FIFO *)

(** A queued command and whether it holds a slot. *)
Record manager := mk_manager { fifo : list (command * bool); free_slots : nat }.
Definition new_manager : manager := mk_manager [] COMMAND_BUFFER_SIZE.

Definition try_send_bounded_command (m : manager) (c : command)
    : result CommandDispatchError manager :=
  match free_slots m with
  | O => Err NoCapacity
  | S n => Ok (mk_manager (fifo m ++ [(c, true)]) n)
  end.

(** Never waits and never fails for lack of capacity. *)
Definition send_release_command (m : manager) (k : WorkKey) (w : WorkerId) : manager :=
  mk_manager (fifo m ++ [(ReleaseLock k w, false)]) (free_slots m).

(** [recv]: the slot is returned as soon as the command is dequeued. *)
Definition recv (m : manager) : option (command * manager) :=
  match fifo m with
  | [] => None
  | (c, slot) :: l => Some (c, mk_manager l (if slot then S (free_slots m) else free_slots m))
  end.

Definition slots_held (m : manager) : nat := length (filter (fun e => e.2 = true) (fifo m)).

(** A run of the loop over the commands of a FIFO, each with what it meets. *)
Fixpoint run_loop (keepalive_timeout : Z) (l : list (command * (Z * WorkerId * bool * db_end)))
    (t : table) : table * list reply :=
  match l with
  | [] => (t, [])
  | (c, (now, fresh, closed, d)) :: l =>
      let '(t1, r) := run_command keepalive_timeout now fresh closed d t c in
      let '(t2, rs) := run_loop keepalive_timeout l t1 in (t2, r :: rs)
  end.

(** ** Managers, holders and transactions on one table *)

Section System.
Variable keepalive_timeout : Z.

Record sys := mk_sys {
  now : Z;
  tbl : table;
  mgrs : gmap string manager;
  fences : gmap nat (WorkKey * WorkerId);
  issued : gset WorkerId
}.

Definition holder (t : table) (k : WorkKey) : option WorkerId := worker_id <$> t !! k.
Definition fenced (s : sys) (k : WorkKey) : Prop := exists x w, fences s !! x = Some (k, w).

(** A fence holds a key-share lock on the row, so statements that would change
    the row's key or delete it wait for the fencing transaction to end. *)
Definition waits (s : sys) (c : command) : Prop :=
  match c with
  | AcquireLock k => fenced s k /\ is_Some (tbl s !! k)
  | ReleaseLock k w => fenced s k /\ is_Some (owned (tbl s) k w)
  | KeepLockAlive _ _ => False
  end.

Inductive label :=
| LTick | LStart | LStop | LSend (c : command) | LRelease (k : WorkKey) (w : WorkerId) | LRun (c : command)
| LFence | LEnd.

Definition bounded (c : command) : bool :=
  match c with ReleaseLock _ _ => false | _ => true end.

Inductive step : label -> sys -> sys -> Prop :=
| step_tick s t : now s <= t -> step LTick s (mk_sys t (tbl s) (mgrs s) (fences s) (issued s))
| step_start s m :
    mgrs s !! m = None ->
    step LStart s (mk_sys (now s) (tbl s) (<[m := new_manager]> (mgrs s)) (fences s) (issued s))
| step_stop s m :
    step LStop s (mk_sys (now s) (tbl s) (delete m (mgrs s)) (fences s) (issued s))
| step_send s m mg mg' c :
    mgrs s !! m = Some mg -> bounded c = true -> try_send_bounded_command mg c = Ok mg' ->
    step (LSend c) s (mk_sys (now s) (tbl s) (<[m := mg']> (mgrs s)) (fences s) (issued s))
| step_release s m mg k w :
    mgrs s !! m = Some mg ->
    step (LRelease k w) s (mk_sys (now s) (tbl s)
      (<[m := send_release_command mg k w]> (mgrs s)) (fences s) (issued s))
| step_run s m mg mg' c fresh closed d t' r :
    mgrs s !! m = Some mg -> recv mg = Some (c, mg') -> ~ waits s c -> fresh ∉ issued s ->
    run_command keepalive_timeout (now s) fresh closed d (tbl s) c = (t', r) ->
    step (LRun c) s (mk_sys (now s) t' (<[m := mg']> (mgrs s)) (fences s) ({[fresh]} ∪ issued s))
| step_fence s x k w :
    fences s !! x = None -> fence_transaction (tbl s) k w = Ok () ->
    step LFence s (mk_sys (now s) (tbl s) (mgrs s) (<[x := (k, w)]> (fences s)) (issued s))
| step_end s x :
    step LEnd s (mk_sys (now s) (tbl s) (mgrs s) (delete x (fences s)) (issued s)).

Definition any_step (a b : sys) : Prop := exists l, step l a b.
Definition initial (s : sys) : Prop := tbl s = ∅ /\ mgrs s = ∅ /\ fences s = ∅.
Definition reachable (s : sys) : Prop := exists s0, initial s0 /\ rtc any_step s0 s.

(** What a command does to the row of a key. *)
Lemma owned_Some t k w r : owned t k w = Some r <-> t !! k = Some r /\ worker_id r = w.
Proof.
  unfold owned. destruct (t !! k) as [r'|]; [|naive_solver].
  destruct (N.eqb_spec (worker_id r') w); naive_solver.
Qed.

Inductive row_change (k : WorkKey) (t0 : Z) (fresh : WorkerId) (c : command)
    : option lock_row -> option lock_row -> Prop :=
| row_same o : row_change k t0 fresh c o o
| row_alive r r' : worker_id r' = worker_id r -> row_change k t0 fresh c (Some r) (Some r')
| row_new : c = AcquireLock k -> row_change k t0 fresh c None (Some (mk_lock fresh t0 t0))
| row_taken r :
    c = AcquireLock k -> last_keepalive r + keepalive_timeout < t0 ->
    row_change k t0 fresh c (Some r) (Some (mk_lock fresh t0 t0))
| row_released r : c = ReleaseLock k (worker_id r) -> row_change k t0 fresh c (Some r) None.

Lemma try_acquire_change t k k' t0 fresh t' got :
  try_acquire_lock t k keepalive_timeout t0 fresh = (t', got) ->
  row_change k' t0 fresh (AcquireLock k) (t !! k') (t' !! k').
Proof.
  unfold try_acquire_lock. intros H. destruct (decide (k = k')) as [->|Hne].
  - destruct (t !! k') as [r|] eqn:E.
    + destruct (Z.ltb_spec (last_keepalive r + keepalive_timeout) t0); simplify_eq.
      * rewrite lookup_insert_eq. by constructor.
      * rewrite E. constructor.
    + simplify_eq. rewrite lookup_insert_eq. by constructor.
  - assert (t' !! k' = t !! k') as ->; [|constructor].
    destruct (t !! k) as [r|]; [destruct (_ <? _)|]; simplify_eq; by rewrite ?lookup_insert_ne.
Qed.

Lemma release_change t k w t' k' t0 fresh :
  release_lock t k w = Ok t' -> row_change k' t0 fresh (ReleaseLock k w) (t !! k') (t' !! k').
Proof.
  unfold release_lock. destruct (owned t k w) as [r|] eqn:E; [|done]. intros; simplify_eq.
  apply owned_Some in E as [E <-]. destruct (decide (k = k')) as [->|].
  - rewrite E, lookup_delete_eq. by constructor.
  - rewrite lookup_delete_ne by done. constructor.
Qed.

Lemma keep_alive_change t k w t' k' t0 t1 fresh c :
  keep_lock_alive t k w t1 = Ok t' -> row_change k' t0 fresh c (t !! k') (t' !! k').
Proof.
  unfold keep_lock_alive. destruct (owned t k w) as [r|] eqn:E; [|done]. intros; simplify_eq.
  apply owned_Some in E as [E <-]. destruct (decide (k = k')) as [->|].
  - rewrite E, lookup_insert_eq. by constructor.
  - rewrite lookup_insert_ne by done. constructor.
Qed.

Lemma run_command_change t0 fresh closed d t c t' r k :
  run_command keepalive_timeout t0 fresh closed d t c = (t', r) ->
  row_change k t0 fresh c (t !! k) (t' !! k).
Proof.
  destruct c as [k0|k0 w|k0 w]; simpl; intros H.
  - destruct closed; [simplify_eq; constructor|].
    destruct (try_acquire_lock _ _ _ _ _) as [t1 got] eqn:E. apply (try_acquire_change _ _ k) in E.
    destruct d; simplify_eq; [done|constructor|done].
  - destruct (keep_lock_alive _ _ _ _) as [t1|e] eqn:E.
    + apply (keep_alive_change _ _ _ _ k t0 _ fresh (KeepLockAlive k0 w)) in E.
      destruct d; simplify_eq; [done|constructor|done].
    + destruct d, e; simplify_eq; constructor.
  - destruct (release_lock _ _ _) as [t1|e] eqn:E.
    + apply (release_change _ _ _ _ k t0 fresh) in E. destruct d; simplify_eq; [done|constructor|done].
    + destruct d; simplify_eq; constructor.
Qed.

Record inv (s : sys) : Prop := {
  inv_fence x k w : fences s !! x = Some (k, w) -> holder (tbl s) k = Some w;
  inv_slots m mg : mgrs s !! m = Some mg -> (free_slots mg + slots_held mg)%nat = COMMAND_BUFFER_SIZE;
  inv_issued k w : holder (tbl s) k = Some w -> w ∈ issued s
}.

Lemma slots_held_app m l c b n :
  fifo m = l -> slots_held (mk_manager (l ++ [(c, b)]) n) = (slots_held m + if b then 1 else 0)%nat.
Proof.
  intros <-. unfold slots_held; simpl. rewrite filter_app, length_app. f_equal. by destruct b.
Qed.

Lemma recv_slots mg c mg' :
  recv mg = Some (c, mg') -> (free_slots mg' + slots_held mg' = free_slots mg + slots_held mg)%nat.
Proof.
  unfold recv, slots_held. destruct mg as [[|[c0 []] l] n]; simpl; intros; simplify_eq/=; [|done].
  lia.
Qed.

(** A fenced row keeps its worker when a command that does not wait runs. *)
Lemma fenced_row s k w c t0 fresh o' :
  fenced s k -> ~ waits s c -> holder (tbl s) k = Some w ->
  row_change k t0 fresh c (tbl s !! k) o' -> worker_id <$> o' = Some w.
Proof.
  unfold holder. intros Hf Hw Hh Hc. destruct (tbl s !! k) as [r|] eqn:E; [|done].
  inversion Hc as [|? r' Hr| |? -> Hlt|? ->]; simplify_eq/=; [done|congruence| |].
  - destruct Hw. simpl. rewrite E. by split.
  - destruct Hw. split; [done|]. by exists r; apply owned_Some.
Qed.

Lemma issued_row s k c t0 fresh t' :
  (forall k w, holder (tbl s) k = Some w -> w ∈ issued s) ->
  row_change k t0 fresh c (tbl s !! k) (t' !! k) ->
  forall w, holder t' k = Some w -> w ∈ {[fresh]} ∪ issued s.
Proof.
  unfold holder. intros Hi Hc w. specialize (Hi k).
  destruct Hc as [|r r' Hr|_|r _ _|r _]; simpl in *; intros Hw; simplify_eq; [| |set_solver..].
  - apply elem_of_union; right; eauto.
  - apply elem_of_union; right. apply Hi. congruence.
Qed.

Lemma lock_step_inv l a b : step l a b -> inv a -> inv b.
Proof.
  intros Hs [Hf Hm Hi].
  assert (Hins : forall m mg', (free_slots mg' + slots_held mg')%nat = COMMAND_BUFFER_SIZE ->
            forall m' mg, <[m := mg']> (mgrs a) !! m' = Some mg ->
            (free_slots mg + slots_held mg)%nat = COMMAND_BUFFER_SIZE).
  { intros m mg' Hmg m' mg. rewrite lookup_insert_Some. intros [[_ <-]|[_ ?]]; eauto. }
  destruct Hs as [s t Ht|s m Hn|s m|s m mg mg' c Hmg Hb Hsend|s m mg k w Hmg
    |s m mg mg' c fresh closed d t' r Hmg Hrecv Hw Hfresh Hrun|s x k w Hx Hfence|s x];
    (split; simpl; [try exact Hf|try exact Hm|try exact Hi]).
  - by apply (Hins m new_manager).
  - intros m' mg. rewrite lookup_delete_Some. intros [_ ?]; eauto.
  - apply (Hins m mg'). unfold try_send_bounded_command in Hsend.
    destruct (free_slots mg) as [|n] eqn:En; simplify_eq. simpl.
    rewrite (slots_held_app mg) by done. specialize (Hm _ _ Hmg). lia.
  - apply (Hins m). unfold send_release_command. rewrite (slots_held_app mg) by done. simpl.
    specialize (Hm _ _ Hmg). lia.
  - intros x k w Hx. apply (run_command_change _ _ _ _ _ _ _ _ k) in Hrun.
    eapply fenced_row in Hrun; [done|by eexists _, _|done|eauto].
  - apply (Hins m mg'). apply recv_slots in Hrecv. specialize (Hm _ _ Hmg). lia.
  - intros k w. eapply issued_row; [done|]. by eapply run_command_change.
  - intros y k' w'. rewrite lookup_insert_Some. intros [[_ E]|[_ ?]]; [simplify_eq|eauto].
    unfold fence_transaction in Hfence. destruct (owned (tbl s) k' w') as [r|] eqn:E; [|done].
    apply owned_Some in E as [E <-]. unfold holder. by rewrite E.
  - intros y k w. rewrite lookup_delete_Some. intros [_ ?]; eauto.
Qed.

Lemma lock_reachable_inv s : reachable s -> inv s.
Proof.
  intros (s0 & (Ht & Hm & Hf) & Hr).
  assert (inv s0) as Hi0.
  { split; [intros x k w; by rewrite Hf|intros m mg; by rewrite Hm|].
    intros k w. unfold holder. by rewrite Ht. }
  clear -Hr Hi0. induction Hr as [|a b c [l Hs] _ IH]; eauto using lock_step_inv.
Qed.

(** C5: fencing. In every reachable state, whatever expires, is taken over or
    released: the worker of an open fence still owns the key, so transactions
    that are fenced for the same key at the same time belong to the same
    worker, and the writes of a worker that lost its lease cannot interleave
    with those of its successor. *)
Theorem fence_excludes_takeover s x y k w w' :
  reachable s -> fences s !! x = Some (k, w) -> fences s !! y = Some (k, w') ->
  w = w' /\ holder (tbl s) k = Some w.
Proof.
  intros [Hf _ _]%lock_reachable_inv Hx%Hf Hy%Hf. split; congruence.
Qed.

(** Backpressure. The commands that hold a slot and the free slots always add
    up to the buffer size, so at most a hundred acquisitions and keepalives
    wait, one is refused exactly when a hundred wait, and a release is always
    accepted. *)
Theorem command_slots_conserved s m mg :
  reachable s -> mgrs s !! m = Some mg ->
  (slots_held mg <= COMMAND_BUFFER_SIZE)%nat /\
  (forall c, try_send_bounded_command mg c = Err NoCapacity <-> slots_held mg = COMMAND_BUFFER_SIZE) /\
  (forall k w, slots_held (send_release_command mg k w) = slots_held mg).
Proof.
  intros [_ Hm _]%lock_reachable_inv Hmg%Hm. split_and!; [lia| |].
  - intros c. unfold try_send_bounded_command. destruct (free_slots mg); split; try done; lia.
  - intros k w. unfold send_release_command. rewrite (slots_held_app mg) by done. lia.
Qed.

(** A step while the lease on [k] has not expired, that is not the release of
    the lock by [w] itself. *)
Definition leased_step (k : WorkKey) (w : WorkerId) (a b : sys) : Prop :=
  exists l, step l a b /\ l <> LRelease k w /\
    forall r, tbl a !! k = Some r -> now a <= last_keepalive r + keepalive_timeout.

Definition no_release (k : WorkKey) (w : WorkerId) (s : sys) : Prop :=
  forall m mg b, mgrs s !! m = Some mg -> (ReleaseLock k w, b) ∉ fifo mg.

Lemma no_release_insert k w s m mg' :
  no_release k w s -> (forall b, (ReleaseLock k w, b) ∉ fifo mg') ->
  forall m' mg b, <[m := mg']> (mgrs s) !! m' = Some mg -> (ReleaseLock k w, b) ∉ fifo mg.
Proof.
  intros Hn Hmg m' mg b. rewrite lookup_insert_Some. intros [[_ <-]|[_ ?]]; [done|by eapply Hn].
Qed.

Lemma leased_step_no_release k w a b :
  leased_step k w a b -> no_release k w a -> no_release k w b.
Proof.
  intros (l & Hs & Hl & _) Hn.
  destruct Hs as [s t Ht|s m Hnone|s m|s m mg mg' c Hmg Hb Hsend|s m mg k' w' Hmg
    |s m mg mg' c fresh closed d t' r Hmg Hrecv Hw Hfresh Hrun|s x k' w' Hx Hfence|s x];
    unfold no_release; simpl; try exact Hn.
  - apply no_release_insert; [done|]. intros b. apply not_elem_of_nil.
  - intros m' mg b. rewrite lookup_delete_Some. intros [_ ?]. by eapply Hn.
  - apply no_release_insert; [done|]. intros b. unfold try_send_bounded_command in Hsend.
    destruct (free_slots mg); simplify_eq/=. rewrite elem_of_app, list_elem_of_singleton.
    intros [?|?]; [by eapply Hn|]. by simplify_eq.
  - apply no_release_insert; [done|]. intros b. simpl. rewrite elem_of_app, list_elem_of_singleton.
    intros [?|?]; [by eapply Hn|]. by simplify_eq.
  - apply no_release_insert; [done|]. intros b Hin. unfold recv in Hrecv.
    destruct (fifo mg) as [|[c0 s0] l] eqn:E; simplify_eq/=.
    eapply (Hn m mg b Hmg). rewrite E. by right.
Qed.

Lemma leased_step_holder k w a b :
  leased_step k w a b -> no_release k w a -> holder (tbl a) k = Some w -> holder (tbl b) k = Some w.
Proof.
  intros (l & Hs & _ & Hlease) Hn Hh.
  destruct Hs as [ | | | | |s m mg mg' c fresh closed d t' r Hmg Hrecv _ _ Hrun| | ]; try exact Hh.
  apply (run_command_change _ _ _ _ _ _ _ _ k) in Hrun. unfold holder in *; simpl.
  destruct (tbl s !! k) as [row|]; [|done]. specialize (Hlease row eq_refl).
  inversion Hrun as [|? r' Hr| |? -> Hlt|? ->]; simplify_eq/=; [done|congruence|lia|].
  exfalso. unfold recv in Hrecv. destruct (fifo mg) as [|[c0 s0] l] eqn:E; simplify_eq/=.
  eapply (Hn m mg s0 Hmg). rewrite E. by left.
Qed.

(** C6: a lease is exclusive while it is kept alive. As long as no state is passed
    in which the lease has expired, and its worker does not release it, no
    sequence of commands of any replica takes the key from its worker. *)
Theorem lease_exclusive k w s s' :
  rtc (leased_step k w) s s' -> no_release k w s ->
  holder (tbl s) k = Some w -> holder (tbl s') k = Some w.
Proof.
  induction 1 as [|a b c Hs _ IH]; [done|]. intros Hn Hh.
  apply IH; [by eapply leased_step_no_release|by eapply leased_step_holder].
Qed.

End System.

(** Commands on other keys, and late keepalives, leave a free key free. *)
Lemma run_loop_free timeout l t k :
  t !! k = None -> (forall c e, (c, e) ∈ l -> c <> AcquireLock k) ->
  (run_loop timeout l t).1 !! k = None.
Proof.
  revert t. induction l as [|[c [[[t0 fresh] closed] d]] l IH]; intros t Hk Hl; simpl; [done|].
  destruct (run_command _ _ _ _ _ _ _) as [t1 r] eqn:E.
  apply (run_command_change timeout _ _ _ _ _ _ _ _ k) in E. rewrite Hk in E.
  assert (t1 !! k = None) as H1.
  { inversion E as [| |Hc| |]; [done|]. by destruct (Hl c (t0, fresh, closed, d)); [left|]. }
  specialize (IH t1 H1). destruct (run_loop timeout l t1) as [t2 rs]. apply IH.
  intros c' e Hin. apply (Hl c' e). by right.
Qed.

Lemma run_loop_app timeout l1 l2 t :
  run_loop timeout (l1 ++ l2) t =
  let '(t1, r1) := run_loop timeout l1 t in
  let '(t2, r2) := run_loop timeout l2 t1 in (t2, r1 ++ r2).
Proof.
  revert t. induction l1 as [|[c [[[t0 fresh] closed] d]] l1 IH]; intros t; simpl.
  { by destruct (run_loop timeout l2 t). }
  destruct (run_command _ _ _ _ _ _ _) as [t1 r]. rewrite IH.
  destruct (run_loop timeout l1 t1) as [t2 r1]. by destruct (run_loop timeout l2 t2).
Qed.

(** A released lock can be acquired again at once. When a holder drops its
    lock and then asks for the same key, the manager works off the release
    first, so the acquisition succeeds without waiting for the lease to expire,
    whatever was queued in between for other keys. *)
Theorem release_then_acquire timeout t k w t0 fresh0 mid t1 fresh :
  holder t k = Some w -> (forall c e, (c, e) ∈ mid -> c <> AcquireLock k) ->
  let '(t', replies) := run_loop timeout
    ((ReleaseLock k w, (t0, fresh0, false, DbOk)) :: mid
       ++ [(AcquireLock k, (t1, fresh, false, DbOk))]) t in
  last replies = Some (AcquireReply (Ok fresh)) /\ holder t' k = Some fresh.
Proof.
  unfold holder. intros Hh Hmid. destruct (t !! k) as [r|] eqn:Er; [|done]. simplify_eq/=.
  assert (owned t k (worker_id r) = Some r) as Ho by (by apply owned_Some).
  unfold release_lock. rewrite Ho. rewrite run_loop_app.
  pose proof (run_loop_free timeout mid (delete k t) k (lookup_delete_eq _ _) Hmid) as Hfree.
  destruct (run_loop timeout mid (delete k t)) as [t2 rs]. simpl in Hfree |- *.
  unfold try_acquire_lock. rewrite Hfree. cbn [fst snd].
  rewrite app_comm_cons, last_snoc. split; [done|]. by rewrite lookup_insert_eq.
Qed.

(** ** Concrete runs *)

(** One manager has acquired the key for worker 7, and a transaction is fenced. *)
Definition fenced_sys : sys :=
  mk_sys 0 {["k" := mk_lock 7%N 0 0]} {["a" := new_manager]} {[1%nat := ("k", 7%N)]} {[7%N]}.

Lemma fenced_sys_reachable : reachable 60 fenced_sys.
Proof.
  exists (mk_sys 0 ∅ ∅ ∅ ∅). split; [done|].
  eapply rtc_l; [exists LStart; by apply (step_start 60 _ "a")|].
  eapply rtc_l; [exists (LSend (AcquireLock "k")); by eapply (step_send 60 _ "a")|].
  eapply rtc_l; [exists (LRun (AcquireLock "k"));
    eapply (step_run 60 _ "a" _ _ _ 7%N false DbOk); [done|done| |set_solver|done]|].
  { intros [(x & w & Hx) _]. simpl in Hx. by rewrite lookup_empty in Hx. }
  eapply rtc_l; [exists LFence; by eapply (step_fence 60 _ 1%nat "k" 7%N)|]. simpl.
  by apply reflexive_eq.
Qed.

Lemma fence_excludes_takeover_witness :
  holder (tbl fenced_sys) "k" = Some 7%N.
Proof.
  exact (proj2 (fence_excludes_takeover 60 fenced_sys 1 1 "k" 7%N 7%N fenced_sys_reachable
    eq_refl eq_refl)).
Defined.

Lemma command_slots_conserved_witness :
  (slots_held new_manager <= COMMAND_BUFFER_SIZE)%nat.
Proof.
  exact (proj1 (command_slots_conserved 60 fenced_sys "a" new_manager fenced_sys_reachable eq_refl)).
Defined.

Lemma lease_exclusive_witness :
  holder (tbl (mk_sys 50 (tbl fenced_sys) (mgrs fenced_sys) (fences fenced_sys) (issued fenced_sys))) "k"
  = Some 7%N.
Proof.
  apply (lease_exclusive 60 "k" 7%N fenced_sys).
  - apply rtc_once. exists LTick. split_and!; [apply step_tick; simpl; lia|done|].
    intros r Hr. simpl in Hr. rewrite lookup_singleton_eq in Hr. simplify_eq. simpl. lia.
  - intros m mg b Hm. simpl in Hm. apply lookup_singleton_Some in Hm as [_ <-]. apply not_elem_of_nil.
  - reflexivity.
Defined.

Lemma release_then_acquire_witness :
  (run_loop 60 ((ReleaseLock "k" 7%N, (5, 1%N, false, DbOk)) ::
     [(AcquireLock "other", (5, 2%N, false, DbOk))] ++ [(AcquireLock "k", (6, 3%N, false, DbOk))])
     {["k" := mk_lock 7%N 0 0]}).1 !! "k" = Some (mk_lock 3%N 6 6) /\
  let '(t', replies) := run_loop 60 ((ReleaseLock "k" 7%N, (5, 1%N, false, DbOk)) ::
     [(AcquireLock "other", (5, 2%N, false, DbOk))] ++ [(AcquireLock "k", (6, 3%N, false, DbOk))])
     {["k" := mk_lock 7%N 0 0]} in
  last replies = Some (AcquireReply (Ok 3%N)) /\ holder t' "k" = Some 3%N.
Proof.
  split; [vm_compute; reflexivity|].
  apply (release_then_acquire 60 _ "k" 7%N 5 1%N [(AcquireLock "other", (5, 2%N, false, DbOk))] 6 3%N).
  - reflexivity.
  - intros c e ?%list_elem_of_singleton. by simplify_eq.
Defined.
End WorkLock.
