(* ===== verification/Enqueuer.v ===== *)
(** * Enqueuer: who puts objects into the queue

    [Enqueuer::enqueue_object] of crates/state-controller/src/controller/enqueuer.rs
    and the periodic enqueuer of periodic_enqueuer.rs, with
    [lock_and_start_iteration] of db.rs: one replica at a time lists the objects
    of a controller, queues them all, and clears the gauges of objects that are
    gone. *)

From S2P Require Import Prelude StateHandler Queue WorkLock Processor Cluster.
Import StateProcessor.

Module Enqueuer.
Section Enqueuer.
Context {I : Type} `{!ObjectId I}.

Definition enqueue_object (now : Z) (q : Queue.table) (id : I) : Queue.table * bool :=
  let '(q', num_enqueued) := Queue.queue_objects now q [to_string id] in
  (q', Nat.eqb num_enqueued 1).

(** ** Gauges of objects that are gone *)

(** [known_object_ids] and [pending_clears]. *)
Record tracked := mk_tracked { known_object_ids : gset string; pending_clears : gmap string Z }.

(** The loop over the live ids, with the part of the previous ids not yet seen. *)
Definition see_live (acc : gset string * tracked) (id : string) : gset string * tracked :=
  let '(previous, st) := acc in
  if decide (id ∈ previous)
  then (previous ∖ {[ id ]}, mk_tracked ({[ id ]} ∪ known_object_ids st) (pending_clears st))
  else (previous, mk_tracked ({[ id ]} ∪ known_object_ids st) (delete id (pending_clears st))).

(** The ids left over are to be cleared until [clear_until]. *)
Definition mark_gone (clear_until : Z) (previous : gset string) (pending : gmap string Z)
    : gmap string Z :=
  gset_to_gmap clear_until previous ∪ pending.

(** The tracking part of [enqueue_objects]: the new state and the ids whose
    series are cleared. *)
Definition track (cfg : IterationConfig) (now : Z) (st : tracked) (queued_objects : list string)
    : tracked * gset string :=
  let '(previous, st1) := fold_left see_live queued_objects
                            (known_object_ids st, mk_tracked ∅ (pending_clears st)) in
  let pending := mark_gone (now + max_object_handling_time cfg) previous (pending_clears st1) in
  (mk_tracked (known_object_ids st1) (filter (fun '(_, deadline) => now < deadline) pending),
   dom pending).

(** ** One iteration *)

Inductive IterationError := LockError | TransactionError.

(** [lock_and_start_iteration]: nothing is started without the lock. *)
Definition lock_and_start_iteration (lock : result WorkLock.AcquireLockError N)
    (reply : Processor.call) (it : Queue.iterations)
    : Queue.iterations * result IterationError (Z * N) :=
  match lock with
  | Err _ => (it, Err LockError)
  | Ok w =>
      let '(id, it1) := Queue.create_iteration it in
      let it2 := Queue.delete_old_iterations it1 id in
      match reply with
      | Processor.CallOk => (it2, Ok (id, w))
      | Processor.CallLost | Processor.CallElapsedApplied => (it2, Err LockError)
      | Processor.CallFails | Processor.CallElapsed => (it, Err LockError)
      end
  end.

(** [enqueue_objects] with the objects the listing transaction finds; the
    queueing transaction runs at [now'] on the queue it finds then. *)
Definition enqueue_objects (cfg : IterationConfig) (per_object_state : bool) (now now' : Z)
    (list_objects : result IterationError (list I)) (reply : Processor.call)
    (q : Queue.table) (st : tracked)
    : Queue.table * tracked * gset string * result IterationError nat :=
  match list_objects with
  | Err e => (q, st, ∅, Err e)
  | Ok object_ids =>
      let queued_objects := to_string <$> object_ids in
      let '(st', cleared) :=
        if per_object_state then track cfg now st queued_objects else (st, ∅) in
      let '(q', num_enqueued_objects) := Queue.queue_objects now' q queued_objects in
      match reply with
      | Processor.CallOk => (q', st', cleared, Ok num_enqueued_objects)
      | Processor.CallLost | Processor.CallElapsedApplied => (q', st', cleared, Err TransactionError)
      | Processor.CallFails | Processor.CallElapsed => (q, st', cleared, Err TransactionError)
      end
  end.

(** ** Properties *)

(** No live object is on the list of ids to clear. *)
Definition tracked_inv (st : tracked) : Prop := known_object_ids st ## dom (pending_clears st).

Lemma see_live_all ids previous st :
  previous ## dom (pending_clears st) ->
  let '(previous', st') := fold_left see_live ids (previous, st) in
  previous' = previous ∖ list_to_set ids /\
  known_object_ids st' = list_to_set ids ∪ known_object_ids st /\
  forall i, pending_clears st' !! i = if decide (i ∈ ids) then None else pending_clears st !! i.
Proof.
  revert previous st. induction ids as [|a ids IH]; intros previous st Hd; simpl.
  { split_and!; [set_solver..|done]. }
  case_decide as Ha.
  - specialize (IH (previous ∖ {[a]}) (mk_tracked ({[a]} ∪ known_object_ids st) (pending_clears st))).
    destruct (fold_left _ _ _) as [previous' st']. destruct IH as (-> & -> & Hp); [set_solver|].
    split_and!; [set_solver..|]. intros i. rewrite Hp. simpl. destruct (decide (i = a)) as [->|].
    + rewrite (decide_True (P := a ∈ a :: ids)) by left. case_decide; [done|].
      apply not_elem_of_dom. set_solver.
    + apply decide_ext. set_solver.
  - specialize (IH previous (mk_tracked ({[a]} ∪ known_object_ids st) (delete a (pending_clears st)))).
    destruct (fold_left _ _ _) as [previous' st']. destruct IH as (-> & -> & Hp).
    { simpl. rewrite dom_delete_L. set_solver. }
    split_and!; [set_solver..|]. intros i. rewrite Hp. simpl. destruct (decide (i = a)) as [->|].
    + rewrite (decide_True (P := a ∈ a :: ids)) by left. case_decide; [done|]. apply lookup_delete_eq.
    + rewrite lookup_delete_ne by done. apply decide_ext. set_solver.
Qed.

(** What one round of tracking does, id by id. *)
Lemma track_lookup cfg now st ids :
  tracked_inv st ->
  let '(st', cleared) := track cfg now st ids in
  known_object_ids st' = list_to_set ids /\
  exists pending, cleared = dom pending /\
    pending_clears st' = filter (fun '(_, deadline) => now < deadline) pending /\
    forall i, pending !! i =
      if decide (i ∈ ids) then None
      else if decide (i ∈ known_object_ids st) then Some (now + max_object_handling_time cfg)
      else pending_clears st !! i.
Proof.
  intros Hinv. unfold track.
  pose proof (see_live_all ids (known_object_ids st) (mk_tracked ∅ (pending_clears st)) Hinv) as H.
  destruct (fold_left _ _ _) as [previous st1]. destruct H as (-> & Hk & Hp). simpl in *.
  split; [rewrite Hk; set_solver|]. eexists. split_and!; [done..|]. intros i.
  unfold mark_gone. rewrite lookup_union, lookup_gset_to_gmap, Hp.
  destruct (decide (i ∈ ids)) as [Hi|Hi].
  - rewrite option_guard_False; [done|]. set_solver.
  - destruct (decide (i ∈ known_object_ids st)).
    + rewrite option_guard_True by set_solver. by destruct (pending_clears st !! i).
    + rewrite option_guard_False by set_solver. by destruct (pending_clears st !! i).
Qed.

(** Gauges follow the live objects. An iteration never clears an object that
    is listed; it clears every object that was listed before and is gone, and
    keeps clearing it in each iteration up to and including the first one after
    the time by which no handler that was running can still be running, unless
    the object is listed again. *)
Theorem track_clears_gone cfg now st ids :
  tracked_inv st ->
  let '(st', cleared) := track cfg now st ids in
  tracked_inv st' /\ known_object_ids st' = list_to_set ids /\
  (forall i, i ∈ ids -> i ∉ cleared) /\
  (forall i, i ∈ known_object_ids st -> i ∉ ids ->
     i ∈ cleared /\ (0 < max_object_handling_time cfg ->
       pending_clears st' !! i = Some (now + max_object_handling_time cfg))) /\
  (forall i deadline, i ∉ ids -> i ∉ known_object_ids st -> pending_clears st !! i = Some deadline ->
     i ∈ cleared /\ pending_clears st' !! i = if decide (now < deadline) then Some deadline else None).
Proof.
  intros Hinv. pose proof (track_lookup cfg now st ids Hinv) as H.
  destruct (track cfg now st ids) as [st' cleared]. destruct H as (Hk & pending & -> & Hf & Hp).
  split_and!; [|done|..].
  - intros i Hi Hd. rewrite Hk in Hi. apply elem_of_list_to_set in Hi.
    apply elem_of_dom in Hd as [d Hd]. rewrite Hf in Hd.
    apply map_lookup_filter_Some in Hd as [Hd _]. rewrite Hp in Hd. by rewrite decide_True in Hd.
  - intros i Hi. apply not_elem_of_dom. by rewrite Hp, decide_True.
  - intros i Hi Hn. assert (pending !! i = Some (now + max_object_handling_time cfg)) as E.
    { rewrite Hp, decide_False, decide_True by done. done. }
    split; [by apply elem_of_dom; eexists|]. intros Hm. rewrite Hf.
    apply map_lookup_filter_Some. split; [done|lia].
  - intros i deadline Hn Hkn Hd. assert (pending !! i = Some deadline) as E.
    { rewrite Hp, !decide_False by done. done. }
    split; [by apply elem_of_dom; eexists|]. rewrite Hf. case_decide.
    + by apply map_lookup_filter_Some.
    + apply map_lookup_filter_None. right. intros d ?. by simplify_eq.
Qed.

(** A successful iteration leaves every listed object in the queue, without
    touching the rows that were there, and reports the number of rows it added;
    an iteration that could not list its objects changes nothing. *)
Theorem enqueue_objects_covers cfg per_object_state now now' listed reply q st :
  let '(q', st', cleared, r) := enqueue_objects cfg per_object_state now now' listed reply q st in
  (forall i row, q !! i = Some row -> q' !! i = Some row) /\
  match listed, r with
  | Ok ids, Ok n =>
      (forall i, i ∈ ids -> is_Some (q' !! to_string i)) /\ size q' = (size q + n)%nat
  | Err e, r => q' = q /\ st' = st /\ cleared = ∅ /\ r = Err e
  | _, _ => True
  end.
Proof.
  unfold enqueue_objects. destruct listed as [ids|e]; [|done].
  pose proof (Queue.queue_objects_lookup now' q (to_string <$> ids)) as Hl.
  pose proof (Queue.insert_statement_size now' (merge_sort String.le (to_string <$> ids)) q 0) as Hs.
  rewrite Queue.queue_objects_unchunked in Hl |- *. unfold Queue.insert_statement in *.
  destruct (fold_left _ _ _) as [q' n]; simpl in Hl, Hs.
  destruct (if per_object_state then _ else _) as [st' cleared].
  assert (Hkeep : forall i row, q !! i = Some row -> q' !! i = Some row).
  { intros i row Hi. by rewrite Hl, Hi. }
  assert (Hin : forall i, i ∈ ids -> is_Some (q' !! to_string i)).
  { intros i Hi. rewrite Hl. destruct (q !! to_string i); [by eexists|].
    rewrite decide_True; [by eexists|]. by apply list_elem_of_fmap_2. }
  destruct reply; split_and!; try done; lia.
Qed.
End Enqueuer.

Lemma track_clears_gone_witness :
  let st := mk_tracked {["a"; "b"]} {["c" := 100]} in
  tracked_inv st /\ "b" ∈ (track default_config 50 st ["a"]).2.
Proof.
  intros st. assert (tracked_inv st) as Hi by (unfold tracked_inv; set_solver).
  split; [exact Hi|]. pose proof (track_clears_gone default_config 50 st ["a"] Hi) as H.
  destruct (track default_config 50 st ["a"]) as [st' cleared].
  destruct H as (_ & _ & _ & H & _). apply H; set_solver.
Defined.

End Enqueuer.
