(* ===== verification/Bytes.v ===== *)
(** * Bytes: byte slices and computations that may panic

    The operations on [&[u8]] the wire decoders use, and the computations of
    decoders: they return a value, return an error, or panic (an index or a
    range out of bounds, or a recursion that exceeds its frames). A byte is an
    integer of 8 bits; [bytes] says so of a slice. *)

From S2P Require Import Prelude.

(** ** Computations *)

Inductive outcome (E A : Type) : Type :=
| Return (a : A)
| Throw (e : E)
| Panic.
Arguments Return {E A} a.
Arguments Throw {E A} e.
Arguments Panic {E A}.

#[global] Instance outcome_ret {E} : MRet (outcome E) := fun A a => Return a.
#[global] Instance outcome_bind {E} : MBind (outcome E) :=
  fun A B f m => match m with Return a => f a | Throw e => Throw e | Panic => Panic end.

Definition lift {E A} (r : result E A) : outcome E A :=
  match r with Ok a => Return a | Err e => Throw e end.

(** [map_err], of a computation that may panic. *)
Definition map_throw {E E' A} (f : E -> E') (m : outcome E A) : outcome E' A :=
  match m with Return a => Return a | Throw e => Throw (f e) | Panic => Panic end.

(** What an index or an [unwrap] gives. *)
Definition or_panic {E A} (o : option A) : outcome E A :=
  match o with Some a => Return a | None => Panic end.

(** The computation ends in a value or an error. *)
Definition returns {E A} (m : outcome E A) : Prop := m <> Panic.

Lemma bind_return {E A B} (m : outcome E A) (f : A -> outcome E B) b :
  (x ← m; f x) = Return b <-> exists a, m = Return a /\ f a = Return b.
Proof. destruct m; simpl; naive_solver. Qed.

Lemma returns_bind {E A B} (m : outcome E A) (f : A -> outcome E B) :
  returns m -> (forall a, m = Return a -> returns (f a)) -> returns (x ← m; f x).
Proof. unfold returns. destruct m; simpl; naive_solver. Qed.

Lemma returns_lift {E A} (r : result E A) : returns (lift r).
Proof. by destruct r. Qed.

Lemma returns_return {E A} (a : A) : returns (E := E) (Return a).
Proof. done. Qed.

Lemma returns_throw {E A} (e : E) : returns (A := A) (Throw e).
Proof. done. Qed.

Lemma lift_return {E A} (r : result E A) a : lift r = Return a <-> r = Ok a.
Proof. destruct r; simpl; naive_solver. Qed.

Lemma or_panic_return {E A} (o : option A) a : or_panic (E := E) o = Return a <-> o = Some a.
Proof. destruct o; simpl; naive_solver. Qed.

Lemma map_throw_return {E E' A} (f : E -> E') (m : outcome E A) a : map_throw f m = Return a <-> m = Return a.
Proof. destruct m; simpl; naive_solver. Qed.

Lemma returns_map_throw {E E' A} (f : E -> E') (m : outcome E A) : returns m -> returns (map_throw f m).
Proof. unfold returns. by destruct m. Qed.

#[global] Hint Resolve returns_lift returns_return returns_throw : nico.

(** ** Slices *)

Definition u8 (b : Z) : Prop := 0 <= b < 2 ^ 8.
Definition bytes (l : list Z) : Prop := Forall u8 l.

(** [l.get(n..)] and [l.get(a..b)]. *)
Definition get_from {A} (n : nat) (l : list A) : option (list A) :=
  if (n <=? length l)%nat then Some (drop n l) else None.
Definition get_range {A} (a b : nat) (l : list A) : option (list A) :=
  if (a <=? b)%nat && (b <=? length l)%nat then Some (take (b - a) (drop a l)) else None.

(** [u16::from_be_bytes] and [u16::to_be_bytes]. *)
Definition be16 (hi lo : Z) : Z := 2 ^ 8 * hi + lo.
Definition to_be16 (n : Z) : list Z := [n / 2 ^ 8; n mod 2 ^ 8].

Lemma get_from_Some {A} n (l r : list A) :
  get_from n l = Some r <-> (n <= length l)%nat /\ r = drop n l.
Proof. unfold get_from. destruct (Nat.leb_spec n (length l)); naive_solver lia. Qed.

Lemma get_from_None {A} n (l : list A) : get_from n l = None <-> (length l < n)%nat.
Proof. unfold get_from. destruct (Nat.leb_spec n (length l)); naive_solver lia. Qed.

Lemma get_range_Some {A} a b (l r : list A) :
  get_range a b l = Some r <-> (a <= b <= length l)%nat /\ r = take (b - a) (drop a l).
Proof.
  unfold get_range. destruct (Nat.leb_spec a b), (Nat.leb_spec b (length l)); simpl; naive_solver lia.
Qed.

Lemma get_from_in {A} n (l : list A) : (n <= length l)%nat -> get_from n l = Some (drop n l).
Proof. intros. by apply get_from_Some. Qed.
Lemma get_range_in {A} a b (l : list A) :
  (a <= b <= length l)%nat -> get_range a b l = Some (take (b - a) (drop a l)).
Proof. intros. by apply get_range_Some. Qed.

Lemma be16_to_be16 n hi lo :
  0 <= n < 2 ^ 16 -> to_be16 n = [hi; lo] <-> u8 hi /\ u8 lo /\ n = be16 hi lo.
Proof.
  unfold to_be16, be16, u8. intros Hn. split.
  - intros [= <- <-]. pose proof (Z.mod_pos_bound n (2 ^ 8)). pose proof (Z.div_mod n (2 ^ 8)).
    split_and!; lia.
  - intros (H1 & H2 & ->). f_equal; [|f_equal].
    + symmetry. apply (Z.div_unique_pos _ _ _ lo); lia.
    + symmetry. apply (Z.mod_unique_pos _ _ hi); lia.
Qed.

Lemma be16_bound hi lo : u8 hi -> u8 lo -> 0 <= be16 hi lo < 2 ^ 16.
Proof. unfold u8, be16. lia. Qed.

(** A value of one octet has a zero high octet. *)
Lemma be16_small hi lo n : be16 hi lo = n -> n < 2 ^ 8 -> u8 hi -> u8 lo -> hi = 0 /\ lo = n.
Proof. unfold be16, u8. lia. Qed.

Lemma bytes_decided l : forallb (fun b => (0 <=? b) && (b <? 2 ^ 8)) l = true -> bytes l.
Proof.
  rewrite forallb_forall. intros Hl. apply Forall_forall. intros b Hb%list_elem_of_In%Hl. unfold u8. lia.
Qed.

Lemma bytes_app l1 l2 : bytes (l1 ++ l2) <-> bytes l1 /\ bytes l2.
Proof. apply Forall_app. Qed.

Lemma bytes_cons b l : bytes (b :: l) <-> u8 b /\ bytes l.
Proof. apply Forall_cons. Qed.

Lemma bytes_drop n l : bytes l -> bytes (drop n l).
Proof. apply Forall_drop. Qed.
Lemma bytes_take n l : bytes l -> bytes (take n l).
Proof. apply Forall_take. Qed.
Lemma bytes_to_be16 n : 0 <= n < 2 ^ 16 -> bytes (to_be16 n).
Proof.
  intros Hn. destruct (proj1 (be16_to_be16 n (n / 2 ^ 8) (n mod 2 ^ 8) Hn) eq_refl) as (?&?&_).
  unfold bytes, to_be16. by rewrite !Forall_cons, Forall_nil.
Qed.
#[global] Hint Resolve bytes_drop bytes_take bytes_to_be16 : nico.
