(* ===== verification/Dhcpv6.v ===== *)
(** * Dhcpv6: decoding DHCPv6 packets

    crates/dhcpv6/src/lib.rs: the one-hop relay envelope, the client message
    with its validation of options before the typed decoder runs, the message
    type counted by the ingress metrics, and the Ethernet addresses found in
    DUIDs and in relay option 79. The typed decoder itself is the crate
    [dhcproto]: it is the class [Dhcproto], with the option codes and message
    types of its documentation as laws. Addresses are their octets. *)

From S2P Require Import Prelude Bytes.

(** ** The crate [dhcproto] *)

Class Dhcproto := {
  OptionCode : Type;
  OptionCode_eq_dec : EqDecision OptionCode;
  (** [OptionCode::from(u16)] and [u16::from(OptionCode)] *)
  code_of_u16 : Z -> OptionCode;
  u16_of_code : OptionCode -> Z;
  IANA : OptionCode;
  IATA : OptionCode;
  IAAddr : OptionCode;
  RelayMsg : OptionCode;
  VendorOpts : OptionCode;
  InterfaceId : OptionCode;
  IAPD : OptionCode;
  IAPrefix : OptionCode;
  RemoteId : OptionCode;
  ClientLinklayerAddr : OptionCode;
  MessageType : Type;
  MessageType_eq_dec : EqDecision MessageType;
  type_of_u8 : Z -> MessageType;
  RelayForw : MessageType;
  Message : Type;
  msg_type : Message -> MessageType;
  DhcpOption : Type;
  Unknown : OptionCode -> list Z -> DhcpOption;
  DhcprotoError : Type;
  (** [Message::decode], which may panic, and [opts_mut().insert] *)
  message_decode : list Z -> outcome DhcprotoError Message;
  insert_option : DhcpOption -> Message -> Message;
  (** [DhcpOption::decode], which may panic, with the rest of the buffer, and [encode] *)
  option_decode : list Z -> outcome DhcprotoError (DhcpOption * list Z);
  option_encode : DhcpOption -> option (list Z)
}.
#[export] Existing Instance OptionCode_eq_dec.
#[export] Existing Instance MessageType_eq_dec.

(** The documented behaviour the decoder relies on: the option code of the
    registry stands for its number, a message type for its octet, a message
    starts with the octet of its type, and adding an option keeps the type. *)
Class DhcprotoLaws `{Dhcproto} := {
  relay_msg_code : forall c, 0 <= c < 2 ^ 16 -> code_of_u16 c = RelayMsg <-> c = u16_of_code RelayMsg;
  relay_forw_type : forall b, u8 b -> type_of_u8 b = RelayForw <-> b = 12;
  decoded_type : forall b bs m, message_decode (b :: bs) = Return m -> msg_type m = type_of_u8 b;
  insert_type : forall o m, msg_type (insert_option o m) = msg_type m
}.

Module Dhcpv6.

Definition RELAY_FORWARD : Z := 12.
Definition RELAY_REPLY : Z := 13.

Definition DUID_LLT : Z := 1.
Definition DUID_EN : Z := 2.
Definition DUID_LL : Z := 3.
Definition DUID_UUID : Z := 4.
Definition HARDWARE_TYPE_ETHERNET : Z := 1.
Definition ETHERNET_MAC_LENGTH : nat := 6.
Definition DUID_EN_MIN_LENGTH : nat := 7.
Definition DUID_TYPE_LENGTH : nat := 2.
Definition DUID_MIN_LENGTH : nat := DUID_TYPE_LENGTH + 1.
Definition DUID_MAX_LENGTH : nat := DUID_TYPE_LENGTH + 128.
Definition DUID_UUID_LENGTH : nat := 18.

Definition MAX_CLIENT_OPTION_NESTING_DEPTH : nat := 8.
Definition MAX_CLIENT_OPTIONS : nat := 256.

(** ** Loops over slices *)

(** A [for] loop with a variable, which ends at the first error. *)
Fixpoint for_fold {E S A} (f : S -> A -> outcome E S) (l : list A) (s : S) : outcome E S :=
  match l with
  | [] => Return s
  | x :: l => s' ← f s x; for_fold f l s'
  end.

(** ** Link-layer addresses *)

Section Duid.
Context {MacAddress : Type} (mac_new : list Z -> MacAddress).

Inductive DuidMac :=
| Mac (m : MacAddress)
| NoLinkLayerMac.

Inductive DuidError := Malformed.

Definition parse_link_layer_duid (bytes : list Z) (time_length : nat) : outcome DuidError DuidMac :=
  let link_layer_offset := (2 + time_length)%nat in
  if (length bytes <=? link_layer_offset)%nat then Throw Malformed
  else
    b0 ← or_panic (bytes !! 0%nat);
    b1 ← or_panic (bytes !! 1%nat);
    if negb (be16 b0 b1 =? HARDWARE_TYPE_ETHERNET) then Return NoLinkLayerMac
    else
      mac ← or_panic (get_from link_layer_offset bytes);
      if negb (length mac =? ETHERNET_MAC_LENGTH)%nat then Throw Malformed
      else Return (Mac (mac_new mac)).

Definition extract_mac_from_duid (duid : list Z) : outcome DuidError DuidMac :=
  if negb ((DUID_MIN_LENGTH <=? length duid)%nat && (length duid <=? DUID_MAX_LENGTH)%nat)
  then Throw Malformed
  else
    d0 ← or_panic (duid !! 0%nat);
    d1 ← or_panic (duid !! 1%nat);
    let duid_type := be16 d0 d1 in
    if duid_type =? DUID_LLT then
      rest ← or_panic (get_from 2 duid); parse_link_layer_duid rest 4
    else if duid_type =? DUID_LL then
      rest ← or_panic (get_from 2 duid); parse_link_layer_duid rest 0
    else if (duid_type =? DUID_EN) && (DUID_EN_MIN_LENGTH <=? length duid)%nat then
      Return NoLinkLayerMac
    else if (duid_type =? DUID_UUID) && (length duid =? DUID_UUID_LENGTH)%nat then
      Return NoLinkLayerMac
    else if (duid_type =? DUID_EN) || (duid_type =? DUID_UUID) then Throw Malformed
    else Return NoLinkLayerMac.

(** [extract_mac_from_option79]. Its indexes are within the checked length. *)
Definition extract_mac_from_option79 (payload : list Z) : option MacAddress :=
  match payload with
  | p0 :: p1 :: mac =>
      if negb (length payload =? 2 + ETHERNET_MAC_LENGTH)%nat then None
      else if be16 p0 p1 =? HARDWARE_TYPE_ETHERNET then Some (mac_new mac) else None
  | _ => None
  end.
End Duid.
Arguments DuidMac : clear implicits.

(** ** Packets *)

Section Decode.
Context `{Dhcproto}.

Record RelayEnvelope := {
  hop_count : Z;
  link_address : list Z;
  peer_address : list Z;
  interface_id : option (list Z);
  remote_id : option (list Z);
  client_link_layer : option (list Z)
}.

Record DecodedPacket := {
  message : Message;
  relay : option RelayEnvelope
}.

Inductive DecodeError :=
| MalformedPacket (msg : string)
| ClientMessageDecode (e : DhcprotoError)
| MissingRelayMessage
| NestedRelay
| RelayHopCountExceeded (hops : Z)
| UnexpectedRelayReply.

Record RawOption := {
  code : Z;
  data : list Z;
  encoded : list Z
}.

(** [parse_raw_options]: every turn of its loop consumes at least the four
    octets of a header, so the length of the slice bounds the turns. *)
Fixpoint parse_raw_loop (turns : nat) (bytes : list Z) : outcome DecodeError (list RawOption) :=
  match bytes, turns with
  | [], _ => Return []
  | _, O => Panic
  | b0 :: b1 :: b2 :: b3 :: rest, S turns =>
      let length := Z.to_nat (be16 b2 b3) in
      if (List.length rest <? length)%nat
      then Throw (MalformedPacket "truncated option payload")
      else
        let encoded_length := (4 + length)%nat in
        let encoded := take encoded_length bytes in
        options ← parse_raw_loop turns (drop encoded_length bytes);
        Return ({| code := be16 b0 b1; data := drop 4 encoded; encoded := encoded |} :: options)
  | _, S _ => Throw (MalformedPacket "truncated option header")
  end.
Definition parse_raw_options (bytes : list Z) : outcome DecodeError (list RawOption) :=
  parse_raw_loop (length bytes) bytes.

Definition is_vendor (o : RawOption) : bool := bool_decide (code_of_u16 (code o) = VendorOpts).

(** [nested_option_payload]. *)
Definition nested_option_payload (o : RawOption) : result DecodeError (option (list Z)) :=
  let c := code_of_u16 (code o) in
  let nested (offset : nat) :=
    ok_or (MalformedPacket "invalid client option") (Some <$> get_from offset (data o)) in
  if bool_decide (c = IANA) || bool_decide (c = IAPD) then nested 12%nat
  else if bool_decide (c = IATA) then nested 4%nat
  else if bool_decide (c = IAAddr) then nested 24%nat
  else if bool_decide (c = IAPrefix) then nested 25%nat
  else if bool_decide (c = RelayMsg)
  then Err (MalformedPacket "relay-message option in client message")
  else Ok None.

(** One more option against the budget. *)
Definition count_option (count : nat) : outcome DecodeError nat :=
  let count := S count in
  if (MAX_CLIENT_OPTIONS <? count)%nat
  then Throw (MalformedPacket "client option count limit exceeded")
  else Return count.

(** The body of the budget loop, [nest] being the recursive call one level down. *)
Definition budget_option (nest : list RawOption -> nat -> outcome DecodeError nat) (depth : nat)
    (count : nat) (o : RawOption) : outcome DecodeError nat :=
  count ← count_option count;
  if is_vendor o then
    if negb (depth =? 0)%nat
    then Throw (MalformedPacket "vendor-specific option in nested client option")
    else
      vendor_payload ← lift (ok_or (MalformedPacket "invalid vendor-specific option")
                               (get_from 4 (data o)));
      suboptions ← parse_raw_options vendor_payload;
      for_fold (fun count _ => count_option count) suboptions count
  else
    nested ← lift (nested_option_payload o);
    match nested with
    | None => Return count
    | Some nested =>
        nested_options ← parse_raw_options nested;
        if nested_options is [] then Return count else nest nested_options count
    end.

(** [validate_client_option_budget], within [frames] nested calls. *)
Fixpoint validate_client_option_budget (frames : nat) (depth : nat) (options : list RawOption)
    (count : nat) : outcome DecodeError nat :=
  match frames with
  | O => Panic
  | S frames =>
      if (MAX_CLIENT_OPTION_NESTING_DEPTH <? depth)%nat
      then Throw (MalformedPacket "client option nesting limit exceeded")
      else for_fold (budget_option (validate_client_option_budget frames (S depth)) depth) options count
  end.

(** One option in isolation: the typed decoder must take all of it, and give it
    back at its length. *)
Definition check_typed (o : RawOption) : outcome DecodeError unit :=
  decoded ← map_throw ClientMessageDecode (option_decode (encoded o));
  if decoded.2 is _ :: _ then Throw (MalformedPacket "invalid client option length")
  else
    again ← lift (ok_or (MalformedPacket "unencodable client option") (option_encode decoded.1));
    if negb (length again =? length (encoded o))%nat
    then Throw (MalformedPacket "partially decoded client option")
    else Return tt.

(** The body of the semantic loop. *)
Definition check_option (nest : list RawOption -> outcome DecodeError unit) (o : RawOption)
    : outcome DecodeError unit :=
  if is_vendor o then Return tt
  else
    nested ← lift (nested_option_payload o);
    _ ← match nested with
        | Some nested => options ← parse_raw_options nested; nest options
        | None => Return tt
        end;
    check_typed o.

(** [validate_client_option_semantics], within [frames] nested calls. *)
Fixpoint validate_client_option_semantics (frames : nat) (options : list RawOption)
    : outcome DecodeError unit :=
  match frames with
  | O => Panic
  | S frames => for_fold (fun _ o => check_option (validate_client_option_semantics frames) o) options tt
  end.

(** The frames either pass may use: depths 0 to 8, and one for the call that
    finds the limit exceeded or the empty list. *)
Definition FRAMES : nat := MAX_CLIENT_OPTION_NESTING_DEPTH + 2.

Definition validate_client_options (options : list RawOption) : outcome DecodeError unit :=
  _ ← validate_client_option_budget FRAMES 0 options 0;
  validate_client_option_semantics FRAMES options.

Definition standard_options (options : list RawOption) : list RawOption :=
  filter (fun o => negb (is_vendor o)) options.
Definition vendor_options (options : list RawOption) : list RawOption :=
  filter (fun o => is_vendor o) options.

(** The packet without its vendor options. *)
Definition sanitize (packet : list Z) (options : list RawOption) : outcome DecodeError (list Z) :=
  if existsb is_vendor options then
    header ← or_panic (get_range 0 4 packet);
    Return (header ++ concat (encoded <$> standard_options options))
  else Return packet.

Definition insert_vendor (m : Message) (o : RawOption) : Message :=
  insert_option (Unknown VendorOpts (data o)) m.

Definition decode_client_message (packet : list Z) : outcome DecodeError Message :=
  area ← lift (ok_or (MalformedPacket "truncated client header") (get_from 4 packet));
  options ← parse_raw_options area;
  _ ← validate_client_options options;
  decode_packet ← sanitize packet options;
  m ← map_throw ClientMessageDecode (message_decode decode_packet);
  Return (fold_left insert_vendor (vendor_options options) m).

(** [unique_raw_option]; [owned_unique_raw_option] is the same value. *)
Definition unique_raw_option (options : list RawOption) (c : OptionCode)
    : result DecodeError (option (list Z)) :=
  match data <$> filter (fun o => code o =? u16_of_code c) options with
  | _ :: _ :: _ => Err (MalformedPacket "duplicate relay option")
  | matches => Ok (head matches)
  end.

(** [<[u8; 16]>::try_from]. *)
Definition octets16 (msg : string) (l : list Z) : outcome DecodeError (list Z) :=
  if (length l =? 16)%nat then Return l else Throw (MalformedPacket msg).

Definition is_relay_type (b : option Z) : bool :=
  match b with Some b => (b =? RELAY_FORWARD) || (b =? RELAY_REPLY) | None => false end.

Definition decode_relay_forward (packet : list Z) : outcome DecodeError DecodedPacket :=
  if (length packet <? 34)%nat then Throw (MalformedPacket "truncated relay header")
  else
    hop_count ← or_panic (packet !! 1%nat);
    if negb (hop_count =? 0) then Throw (RelayHopCountExceeded hop_count)
    else
      link ← or_panic (get_range 2 18 packet);
      link_address ← octets16 "invalid relay link-address" link;
      peer ← or_panic (get_range 18 34 packet);
      peer_address ← octets16 "invalid relay peer-address" peer;
      area ← or_panic (get_from 34 packet);
      options ← parse_raw_options area;
      found ← lift (unique_raw_option options RelayMsg);
      relay_message ← lift (ok_or MissingRelayMessage found);
      if is_relay_type (head relay_message) then Throw NestedRelay
      else
        m ← decode_client_message relay_message;
        interface_id ← lift (unique_raw_option options InterfaceId);
        remote_id ← lift (unique_raw_option options RemoteId);
        client_link_layer ← lift (unique_raw_option options ClientLinklayerAddr);
        Return {| message := m;
                  relay := Some {| hop_count := hop_count;
                                   link_address := link_address;
                                   peer_address := peer_address;
                                   interface_id := interface_id;
                                   remote_id := remote_id;
                                   client_link_layer := client_link_layer |} |}.

Definition decode (packet : list Z) : outcome DecodeError DecodedPacket :=
  match head packet with
  | Some b =>
      if b =? RELAY_FORWARD then decode_relay_forward packet
      else if b =? RELAY_REPLY then Throw UnexpectedRelayReply
      else m ← decode_client_message packet; Return {| message := m; relay := None |}
  | None => Throw (MalformedPacket "empty packet")
  end.

(** [relay_message_type]: at most [turns] options are looked at. *)
Fixpoint relay_type_loop (turns : nat) (options : list Z) : option MessageType :=
  match turns with
  | O => None
  | S turns =>
      match options with
      | h0 :: h1 :: h2 :: h3 :: _ =>
          let encoded_length := (4 + Z.to_nat (be16 h2 h3))%nat in
          payload ← get_range 4 encoded_length options;
          if bool_decide (code_of_u16 (be16 h0 h1) = RelayMsg)
          then type_of_u8 <$> head payload
          else options ← get_from encoded_length options; relay_type_loop turns options
      | _ => None
      end
  end.
Definition relay_message_type (packet : list Z) : option MessageType :=
  options ← get_from 34 packet; relay_type_loop MAX_CLIENT_OPTIONS options.

Definition request_message_type (packet : list Z) : MessageType :=
  let outer_type := type_of_u8 (default 0 (head packet)) in
  if bool_decide (outer_type = RelayForw)
  then default outer_type (relay_message_type packet)
  else outer_type.

(** ** Framing *)

(** The octets of an option are a header with its code and length, then its data. *)
Definition framed (o : RawOption) : Prop :=
  exists b0 b1 b2 b3, encoded o = b0 :: b1 :: b2 :: b3 :: data o /\
    code o = be16 b0 b1 /\ length (data o) = Z.to_nat (be16 b2 b3).

Lemma parse_raw_loop_sound turns bs os :
  parse_raw_loop turns bs = Return os -> bs = concat (encoded <$> os) /\ Forall framed os.
Proof.
  revert bs os. induction turns as [|turns IH]; intros bs os;
    destruct bs as [|b0 [|b1 [|b2 [|b3 rest]]]]; cbn -[take drop be16 Nat.ltb]; try done;
    try (intros [= <-]; split; [done|constructor]).
  destruct (Nat.ltb_spec (length rest) (Z.to_nat (be16 b2 b3))) as [|Hl]; [done|].
  intros (os' & Hos & [= <-])%bind_return. apply IH in Hos as [E Hf]. csimpl. split.
  - cbn [app take drop] in *. rewrite <- E, take_drop. done.
  - constructor; [|done]. exists b0, b1, b2, b3. cbn -[be16]. split_and!; try done.
    rewrite drop_0, length_take. lia.
Qed.

Lemma parse_raw_loop_complete turns os :
  Forall framed os -> (length (concat (encoded <$> os)) <= turns)%nat ->
  parse_raw_loop turns (concat (encoded <$> os)) = Return os.
Proof.
  intros Hf. revert turns. induction Hf as [|o os Ho Hf IH]; intros turns Hl; [by destruct turns|].
  destruct Ho as (b0 & b1 & b2 & b3 & E & Hc & Hd). csimpl in *. rewrite E in *.
  rewrite length_app in Hl. destruct turns as [|turns]; [simpl in Hl; lia|]. cbn -[take drop be16 Nat.ltb].
  rewrite length_app, (proj2 (Nat.ltb_ge _ _)) by lia.
  cbn [take drop]. rewrite <- Hd, take_app_length, drop_app_length.
  cbn [length] in Hl. rewrite IH by lia. cbn. destruct o as [c d e]. simpl in *. by subst.
Qed.

Lemma parse_raw_options_iff bs os :
  parse_raw_options bs = Return os <-> bs = concat (encoded <$> os) /\ Forall framed os.
Proof.
  split; [apply parse_raw_loop_sound|]. intros [-> Hf]. by apply parse_raw_loop_complete.
Qed.

Lemma parse_raw_options_returns bs : returns (parse_raw_options bs).
Proof.
  unfold parse_raw_options. assert (length bs <= length bs)%nat as Hl by lia. revert Hl.
  generalize (length bs) at 2 3. intros turns. revert bs.
  induction turns as [|turns IH]; intros bs Hl;
    destruct bs as [|b0 [|b1 [|b2 [|b3 rest]]]]; cbn -[take drop be16 Nat.ltb] in *; try done; try lia.
  destruct (Nat.ltb_spec (length rest) (Z.to_nat (be16 b2 b3))) as [|Hr]; [done|].
  apply returns_bind; [|done]. apply IH. cbn [drop]. rewrite length_drop. lia.
Qed.
Local Hint Resolve parse_raw_options_returns : nico.

(** ** The option tree *)

(** [tree d options n]: at depth [d], the options open to a tree of [n] options
    in which every container is well framed, no list of options lies deeper
    than the limit and vendor options occur at the top only. The suboptions of
    a vendor option are counted but not opened. *)
Inductive tree : nat -> list RawOption -> nat -> Prop :=
| tree_nil d : tree d [] 0
| tree_vendor o options payload suboptions n :
    is_vendor o = true ->
    get_from 4 (data o) = Some payload ->
    parse_raw_options payload = Return suboptions ->
    tree 0 options n ->
    tree 0 (o :: options) (S (length suboptions) + n)
| tree_plain d o options n :
    is_vendor o = false ->
    nested_option_payload o = Ok None ->
    tree d options n ->
    tree d (o :: options) (1 + n)
| tree_nested d o options payload nested k n :
    is_vendor o = false ->
    nested_option_payload o = Ok (Some payload) ->
    parse_raw_options payload = Return nested ->
    nested = [] \/ (d < MAX_CLIENT_OPTION_NESTING_DEPTH)%nat ->
    tree (S d) nested k ->
    tree d options n ->
    tree d (o :: options) (S k + n).

(** The options of a tree, without the vendor options. *)
Inductive in_tree : RawOption -> list RawOption -> Prop :=
| in_tree_here o options :
    o ∈ options -> is_vendor o = false -> in_tree o options
| in_tree_nested o o' options payload nested :
    o' ∈ options -> is_vendor o' = false ->
    nested_option_payload o' = Ok (Some payload) ->
    parse_raw_options payload = Return nested ->
    in_tree o nested -> in_tree o options.

(** The typed decoder takes the whole option, and nothing is lost in it. *)
Definition decodes_exactly (o : RawOption) : Prop :=
  exists d again, option_decode (encoded o) = Return (d, []) /\ option_encode d = Some again /\
    length again = length (encoded o).

(** What one option adds to the count. *)
Definition weighs (d : nat) (o : RawOption) (k : nat) : Prop :=
  (is_vendor o = true /\ d = 0%nat /\ exists p subs, get_from 4 (data o) = Some p /\
     parse_raw_options p = Return subs /\ k = S (length subs)) \/
  (is_vendor o = false /\ nested_option_payload o = Ok None /\ k = 1%nat) \/
  (is_vendor o = false /\ exists p nested j, nested_option_payload o = Ok (Some p) /\
     parse_raw_options p = Return nested /\
     (nested = [] \/ (d < MAX_CLIENT_OPTION_NESTING_DEPTH)%nat) /\
     tree (S d) nested j /\ k = S j).

Lemma tree_cons d o os m :
  tree d (o :: os) m <-> exists k n, m = (k + n)%nat /\ weighs d o k /\ tree d os n.
Proof.
  split.
  - inversion 1; subst; do 2 eexists; (split; [reflexivity|]); (split; [|eassumption]);
      unfold weighs; naive_solver.
  - intros (k & n & -> & [(?&->&?&?&?&?&->)|[(?&?&->)|(?&?&?&?&?&?&?&?&->)]] & ?);
      [eapply tree_vendor|apply tree_plain|eapply tree_nested]; eauto.
Qed.

Lemma tree_nil_inv d n : tree d [] n -> n = 0%nat.
Proof. by inversion 1. Qed.

(** What is documented of the decoder's panics (the comments on
    [validate_client_options]): a short option makes it read into the next one, and its
    containers decode their options the same way, so it panics on some input. It does
    not panic on one option alone whose nested options have been checked, nor on a
    message of a bounded tree of checked options. *)
Class DhcprotoSafe := {
  option_alone d o k :
    framed o -> is_vendor o = false -> weighs d o k ->
    (forall p nested, nested_option_payload o = Ok (Some p) -> parse_raw_options p = Return nested ->
       forall o', in_tree o' nested -> decodes_exactly o') ->
    returns (option_decode (encoded o));
  message_whole header options n :
    length header = 4%nat -> Forall framed options -> Forall (fun o => is_vendor o = false) options ->
    tree 0 options n -> (n <= MAX_CLIENT_OPTIONS)%nat -> (forall o, in_tree o options -> decodes_exactly o) ->
    returns (message_decode (header ++ concat (encoded <$> options)))
}.

(** ** The budget pass *)

Lemma count_option_iff c c' :
  count_option c = Return c' <-> c' = S c /\ (c' <= MAX_CLIENT_OPTIONS)%nat.
Proof.
  unfold count_option. destruct (Nat.ltb_spec MAX_CLIENT_OPTIONS (S c)); naive_solver lia.
Qed.

Lemma count_suboptions_iff (subs : list RawOption) c c' :
  (c <= MAX_CLIENT_OPTIONS)%nat ->
  for_fold (fun count _ => count_option count) subs c = Return c' <->
  c' = (c + length subs)%nat /\ (c' <= MAX_CLIENT_OPTIONS)%nat.
Proof.
  revert c. induction subs as [|o subs IH]; intros c Hc; cbn [for_fold length].
  { split; [intros [= <-]|intros [-> ?]; f_equal]; lia. }
  rewrite bind_return. setoid_rewrite count_option_iff. split.
  - intros (c1 & [-> ?] & [-> ?]%IH); lia.
  - intros [-> ?]. exists (S c). rewrite IH by lia. lia.
Qed.

Definition counts (d : nat) (f : list RawOption -> nat -> outcome DecodeError nat) : Prop :=
  forall os c c', (c <= MAX_CLIENT_OPTIONS)%nat ->
    f os c = Return c' <->
    (d <= MAX_CLIENT_OPTION_NESTING_DEPTH)%nat /\ exists n, tree d os n /\ c' = (c + n)%nat /\
      (c' <= MAX_CLIENT_OPTIONS)%nat.

Lemma budget_option_iff nest d c o c' :
  counts (S d) nest -> (c <= MAX_CLIENT_OPTIONS)%nat ->
  budget_option nest d c o = Return c' <->
  exists k, weighs d o k /\ c' = (c + k)%nat /\ (c' <= MAX_CLIENT_OPTIONS)%nat.
Proof.
  intros Hn Hc. unfold budget_option, weighs. rewrite bind_return. setoid_rewrite count_option_iff.
  destruct (is_vendor o).
  - destruct (Nat.eqb_spec d 0) as [->|]; cbn [negb]; [|naive_solver].
    setoid_rewrite bind_return. setoid_rewrite lift_return. setoid_rewrite bind_return.
    destruct (get_from 4 (data o)) as [p|]; cbn [ok_or]; [|naive_solver].
    split.
    + intros (c1 & [-> ?] & p' & [= <-] & subs & Hs & Hf). apply count_suboptions_iff in Hf; [|lia].
      eexists. split; [left; eauto 10|]. lia.
    + intros (k & [(_&_&?&subs&[= <-]&?&->)|[[]|[]]] & -> & ?); try done.
      exists (S c). split; [lia|]. eexists. split; [done|]. exists subs. split; [done|].
      rewrite count_suboptions_iff; lia.
  - setoid_rewrite bind_return. setoid_rewrite lift_return. split.
    + intros (c1 & [-> ?] & [p|] & Hp & Hr);
        [|injection Hr as <-; exists 1%nat; split; [by right; left|lia]].
      apply bind_return in Hr as (ns & Hns & Hr). destruct ns as [|o' ns].
      * injection Hr as <-. exists 1%nat. split; [right; right|lia].
        split; [done|]. exists p, [], 0%nat. eauto 10 using tree_nil.
      * apply Hn in Hr as (? & j & ? & -> & ?); [|lia].
        exists (S j). split; [right; right|lia]. split; [done|]. exists p, (o' :: ns), j. eauto 10.
    + intros (k & [[]|[(_&Hp&->)|(_&p&ns&j&Hp&Hns&Hd&Ht&->)]] & -> & ?); try done.
      * exists (S c). split; [lia|]. eexists. split; [done|]. cbn. f_equal. lia.
      * exists (S c). split; [lia|]. eexists. split; [done|]. rewrite bind_return.
        exists ns. split; [done|]. destruct ns as [|o' ns].
        -- apply tree_nil_inv in Ht as ->. f_equal. lia.
        -- apply Hn; [lia|]. destruct Hd; [done|]. split; [lia|]. exists j. split; [done|lia].
Qed.

Lemma budget_iff frames d :
  (MAX_CLIENT_OPTION_NESTING_DEPTH + 2 <= d + frames)%nat ->
  counts d (validate_client_option_budget frames d).
Proof.
  revert d. induction frames as [|frames IH]; intros d Hd os c c' Hc; cbn [validate_client_option_budget].
  { split; [done|]. lia. }
  destruct (Nat.ltb_spec MAX_CLIENT_OPTION_NESTING_DEPTH d) as [|Hd']; [split; [done|lia]|].
  specialize (IH (S d) ltac:(lia)). revert c Hc.
  induction os as [|o os IHos]; intros c Hc; cbn [for_fold].
  - split; [intros [= <-]; eauto using tree_nil with lia|]. intros (_ & n & ->%tree_nil_inv & -> & _).
    f_equal. lia.
  - rewrite bind_return. setoid_rewrite tree_cons. setoid_rewrite (budget_option_iff _ d c o _ IH Hc).
    split.
    + intros (c1 & (k & ? & -> & ?) & (_ & n & ? & -> & ?)%IHos); [|lia]. eauto 10 with lia.
    + intros (_ & m & (k & n & -> & ? & ?) & -> & ?). exists (c + k)%nat. split; [eauto with lia|].
      apply IHos; [lia|]. split; [done|]. exists n. split; [done|lia].
Qed.

Lemma for_fold_returns {S A} (f : S -> A -> outcome DecodeError S) l s :
  (forall s x, x ∈ l -> returns (f s x)) -> returns (for_fold f l s).
Proof.
  revert s. induction l as [|x l IH]; intros s Hf; cbn [for_fold]; [done|].
  apply returns_bind; [apply Hf; left|]. intros s' _. apply IH. intros. apply Hf. by right.
Qed.

Lemma count_option_returns c : returns (count_option c).
Proof. unfold count_option. by case_match. Qed.

Lemma budget_option_returns nest d c o :
  (forall ns c, returns (nest ns c)) -> returns (budget_option nest d c o).
Proof.
  intros Hn. unfold budget_option. apply returns_bind; [apply count_option_returns|]. intros c1 _.
  destruct (is_vendor o).
  - destruct (negb _); [done|]. apply returns_bind; [auto with nico|]. intros p _.
    apply returns_bind; [auto with nico|]. intros subs _.
    apply for_fold_returns. intros. apply count_option_returns.
  - apply returns_bind; [auto with nico|]. intros [p|] _; [|done].
    apply returns_bind; [auto with nico|]. intros [|? ?] _; [done|apply Hn].
Qed.

Lemma budget_returns frames d os c :
  (MAX_CLIENT_OPTION_NESTING_DEPTH + 2 <= d + frames)%nat ->
  (d <= MAX_CLIENT_OPTION_NESTING_DEPTH + 1)%nat ->
  returns (validate_client_option_budget frames d os c).
Proof.
  revert d os c. induction frames as [|frames IH]; intros d os c Hf Hd; [lia|].
  cbn [validate_client_option_budget]. case_match eqn:E; [done|]. apply Nat.ltb_ge in E.
  apply for_fold_returns. intros. apply budget_option_returns. intros. apply IH; lia.
Qed.

(** ** The semantic pass *)

Lemma in_tree_cons o' o os : in_tree o' (o :: os) <-> in_tree o' [o] \/ in_tree o' os.
Proof.
  split.
  - intros Hi. inversion Hi as [? ? He|? ? ? ? ? He]; subst; apply elem_of_cons in He as [->|?].
    + left. by apply in_tree_here; [left|].
    + right. by apply in_tree_here.
    + left. eapply in_tree_nested; eauto. by left.
    + right. eapply in_tree_nested; eauto.
  - intros [Hi|Hi]; inversion Hi; subst.
    + apply in_tree_here; [|done]. set_solver.
    + eapply in_tree_nested; eauto. set_solver.
    + apply in_tree_here; [|done]. set_solver.
    + eapply in_tree_nested; eauto. set_solver.
Qed.

Lemma in_tree_nil o : in_tree o [] <-> False.
Proof. split; [|done]. inversion 1; set_solver. Qed.

Lemma in_tree_one o' o :
  in_tree o' [o] <-> is_vendor o = false /\ (o' = o \/ exists p ns, nested_option_payload o = Ok (Some p) /\
    parse_raw_options p = Return ns /\ in_tree o' ns).
Proof.
  split.
  - intros Hi. inversion Hi as [? ? He|? ? ? ? ? He]; subst; apply list_elem_of_singleton in He as ->;
      naive_solver.
  - intros [Hv [->|(p & ns & ? & ? & ?)]]; [by apply in_tree_here; [left|]|].
    eapply in_tree_nested; eauto. by left.
Qed.

Lemma check_typed_iff o : check_typed o = Return tt <-> decodes_exactly o.
Proof.
  unfold check_typed, decodes_exactly.
  destruct (option_decode (encoded o)) as [[d [|b r]]|e|]; cbn -[Nat.eqb]; try naive_solver.
  destruct (option_encode d) as [again|] eqn:Hd; cbn -[Nat.eqb]; [|naive_solver].
  destruct (Nat.eqb_spec (length again) (length (encoded o))); cbn; naive_solver.
Qed.

Lemma check_typed_returns o : returns (option_decode (encoded o)) -> returns (check_typed o).
Proof.
  intros Ho. apply returns_bind; [by apply returns_map_throw|]. intros [d [|]] _; [|done].
  apply returns_bind; [auto with nico|]. intros. by case_match.
Qed.

Lemma check_option_iff nest d o k :
  weighs d o k ->
  (forall ns j, (ns = [] \/ (d < MAX_CLIENT_OPTION_NESTING_DEPTH)%nat) -> tree (S d) ns j ->
     nest ns = Return tt <-> (forall o', in_tree o' ns -> decodes_exactly o')) ->
  check_option nest o = Return tt <-> (forall o', in_tree o' [o] -> decodes_exactly o').
Proof.
  intros Hw Hn. setoid_rewrite in_tree_one. unfold check_option.
  destruct Hw as [(->&_)|[(->&->&_)|(->&p&ns&j&->&Hp&Hd&Ht&->)]]; [naive_solver|..]; cbn [lift].
  - cbn [mbind outcome_bind]. rewrite check_typed_iff. naive_solver.
  - cbn [mbind outcome_bind]. rewrite Hp. cbn [mbind outcome_bind].
    specialize (Hn ns j Hd Ht). rewrite bind_return. setoid_rewrite check_typed_iff. split.
    + intros ([] & Hns & Ho) o' [_ [->|(p' & ns' & [= <-] & Hp' & ?)]]; [done|].
      rewrite Hp in Hp'. injection Hp' as <-. by apply Hn.
    + intros Ha. exists tt. rewrite Hn. split; [|by apply Ha; auto]. intros o' Ho'. apply Ha. eauto 10.
Qed.

Lemma semantics_iff frames d os n :
  (MAX_CLIENT_OPTION_NESTING_DEPTH + 2 <= d + frames)%nat -> (0 < frames)%nat ->
  os = [] \/ (d <= MAX_CLIENT_OPTION_NESTING_DEPTH)%nat -> tree d os n ->
  validate_client_option_semantics frames os = Return tt <->
  (forall o, in_tree o os -> decodes_exactly o).
Proof.
  revert d os n. induction frames as [|frames IH]; intros d os n Hf Hz Hd Ht; [lia|].
  cbn [validate_client_option_semantics]. revert n Ht.
  induction os as [|o os IHos]; intros n Ht; cbn [for_fold].
  { split; [|done]. by intros _ o' ?%in_tree_nil. }
  apply tree_cons in Ht as (k & m & -> & Hw & Ht). destruct Hd as [|Hd]; [done|].
  assert (Hc : check_option (validate_client_option_semantics frames) o = Return tt <->
    (forall o', in_tree o' [o] -> decodes_exactly o')).
  { eapply check_option_iff; [done|]. intros ns j Hns Hj. eapply (IH (S d)); eauto; lia. }
  specialize (IHos ltac:(by right) m Ht). setoid_rewrite in_tree_cons. rewrite bind_return. split.
  - intros ([] & H1 & H2) o' [Ho|Ho]; [by apply (proj1 Hc H1)|by apply (proj1 IHos H2)].
  - intros Ha. exists tt. rewrite Hc, IHos. split; auto.
Qed.

Lemma check_option_returns `{!DhcprotoSafe} nest d o k :
  weighs d o k -> framed o ->
  (forall ns j, (ns = [] \/ (d < MAX_CLIENT_OPTION_NESTING_DEPTH)%nat) -> tree (S d) ns j -> Forall framed ns ->
     returns (nest ns) /\ (nest ns = Return tt -> forall o', in_tree o' ns -> decodes_exactly o')) ->
  returns (check_option nest o).
Proof.
  intros Hw Hf Hn. pose proof (option_alone d o k Hf) as Halone. unfold check_option.
  pose proof Hw as [(->&_)|[(Hv&Hnone&_)|(Hv&p&ns&j&Hnest&Hp&Hns&Ht&->)]]; [done|..]; rewrite Hv.
  - rewrite Hnone. cbn [lift mbind outcome_bind]. apply check_typed_returns, Halone; [done..|]. by rewrite Hnone.
  - rewrite Hnest. cbn [lift mbind outcome_bind]. rewrite Hp. cbn [mbind outcome_bind].
    destruct (Hn ns j Hns Ht) as [Hret Hall]; [by apply parse_raw_options_iff in Hp as [_ ?]|].
    apply returns_bind; [done|]. intros [] Hok. apply check_typed_returns, Halone; [done..|].
    intros p' ns' E Hp' o'. rewrite Hnest in E. injection E as <-. rewrite Hp in Hp'. injection Hp' as <-. by apply Hall.
Qed.

Lemma semantics_returns `{!DhcprotoSafe} frames d os n :
  (MAX_CLIENT_OPTION_NESTING_DEPTH + 2 <= d + frames)%nat -> (0 < frames)%nat ->
  os = [] \/ (d <= MAX_CLIENT_OPTION_NESTING_DEPTH)%nat -> tree d os n -> Forall framed os ->
  returns (validate_client_option_semantics frames os).
Proof.
  revert d os n. induction frames as [|frames IH]; intros d os n Hf Hz Hd Ht Hfr; [lia|].
  cbn [validate_client_option_semantics]. revert n Ht.
  induction Hfr as [|o os Ho Hfr IHos]; intros n Ht; cbn [for_fold]; [done|].
  apply tree_cons in Ht as (k & m & -> & Hw & Ht). destruct Hd as [|Hd]; [done|].
  apply returns_bind; [|intros [] _; eapply IHos; eauto].
  eapply check_option_returns; [done..|]. intros ns j Hns Hj Hfn. split; [eapply (IH (S d)); eauto; lia|].
  apply (semantics_iff frames (S d) ns j); [lia|lia|naive_solver lia|done].
Qed.

(** ** Client messages *)

Lemma validate_client_options_iff os :
  validate_client_options os = Return tt <->
  (exists n, tree 0 os n /\ (n <= MAX_CLIENT_OPTIONS)%nat) /\
  (forall o, in_tree o os -> decodes_exactly o).
Proof.
  unfold validate_client_options. rewrite bind_return.
  setoid_rewrite (budget_iff FRAMES 0 ltac:(done) os 0%nat _ ltac:(unfold MAX_CLIENT_OPTIONS; lia)).
  split.
  - intros (c & (_ & n & Ht & -> & ?) & Hs). split; [by exists n|].
    by apply (semantics_iff FRAMES 0 os n ltac:(done) ltac:(unfold FRAMES; lia) ltac:(right; lia) Ht).
  - intros [(n & Ht & ?) Ha]. exists n. split; [eauto 10 with lia|].
    by apply (semantics_iff FRAMES 0 os n ltac:(done) ltac:(unfold FRAMES; lia) ltac:(right; lia) Ht).
Qed.

Lemma validate_client_options_returns `{!DhcprotoSafe} os : Forall framed os -> returns (validate_client_options os).
Proof.
  intros Hf. unfold validate_client_options. apply returns_bind; [by apply budget_returns; [|lia]|].
  intros c (_ & n & Ht & _)%(budget_iff FRAMES 0 ltac:(done)); [|unfold MAX_CLIENT_OPTIONS; lia].
  apply (semantics_returns FRAMES 0 os n); [done|unfold FRAMES; lia|right; lia|done|done].
Qed.

Lemma standard_all os : existsb is_vendor os = false -> standard_options os = os.
Proof.
  intros Hv. induction os as [|o os IH]; [done|]. cbn in Hv. apply orb_false_iff in Hv as [Ho Hv].
  unfold standard_options in *. rewrite filter_cons_True by (by rewrite Ho). by rewrite IH.
Qed.

Lemma sanitize_spec packet os :
  (4 <= length packet)%nat -> parse_raw_options (drop 4 packet) = Return os ->
  sanitize packet os = Return (take 4 packet ++ concat (encoded <$> standard_options os)).
Proof.
  intros Hl [E _]%parse_raw_options_iff. unfold sanitize. destruct (existsb is_vendor os) eqn:Hv.
  - by rewrite get_range_in by lia.
  - rewrite standard_all, <- E, take_drop by done. done.
Qed.

Lemma framed_standard_options os : Forall framed os -> Forall framed (standard_options os).
Proof. rewrite !Forall_forall. intros Hf o [_ Ho]%list_elem_of_filter. auto. Qed.

Lemma decode_client_message_steps packet m :
  decode_client_message packet = Return m <->
  (4 <= length packet)%nat /\
  exists options base,
    parse_raw_options (drop 4 packet) = Return options /\ validate_client_options options = Return () /\
    message_decode (take 4 packet ++ concat (encoded <$> standard_options options)) = Return base /\
    m = fold_left insert_vendor (vendor_options options) base.
Proof.
  unfold decode_client_message. rewrite bind_return. setoid_rewrite lift_return.
  destruct (get_from 4 packet) as [area|] eqn:Ha; cbn [ok_or].
  2:{ apply get_from_None in Ha. split; [naive_solver|lia]. }
  apply get_from_Some in Ha as [Hl ->]. split.
  - intros (? & [= <-] & (os & Hos & ([] & Hv & Hs)%bind_return)%bind_return). split; [done|].
    rewrite (sanitize_spec packet os) in Hs by done. cbn [mbind outcome_bind] in Hs.
    apply bind_return in Hs as (base & Hb & [= <-]). exists os, base. split_and!; try done.
    by destruct (message_decode _); simplify_eq/=.
  - intros (_ & os & base & Hos & Hv & Hb & ->).
    eexists. split; [done|]. rewrite bind_return. exists os. split; [done|].
    rewrite Hv. cbn [mbind outcome_bind]. rewrite sanitize_spec by done.
    cbn [mbind outcome_bind]. by rewrite Hb.
Qed.

(** C27: a client message decodes exactly when its header is complete, its options
    are well framed and open to a tree of at most 256 options and nine levels,
    and the typed decoder takes every option of the tree on its own, completely
    and without loss. The typed decoder then reads the packet without its vendor
    options, which are added to the result as they stand in the packet. *)
Theorem decode_client_message_exact packet m :
  decode_client_message packet = Return m <->
  (4 <= length packet)%nat /\
  exists options n sanitized base,
    parse_raw_options (drop 4 packet) = Return options /\
    tree 0 options n /\ (n <= MAX_CLIENT_OPTIONS)%nat /\
    (forall o, in_tree o options -> decodes_exactly o) /\
    take 4 sanitized = take 4 packet /\
    parse_raw_options (drop 4 sanitized) = Return (standard_options options) /\
    message_decode sanitized = Return base /\
    m = fold_left insert_vendor (vendor_options options) base.
Proof.
  rewrite decode_client_message_steps. setoid_rewrite validate_client_options_iff. split.
  - intros (Hl & os & base & Hos & [(n & ? & ?) ?] & Hb & ->). split; [done|].
    apply parse_raw_options_iff in Hos as Hf.
    exists os, n, (take 4 packet ++ concat (encoded <$> standard_options os)), base.
    rewrite take_app_length', drop_app_length' by (rewrite length_take; lia).
    split_and!; try done. apply parse_raw_options_iff. split; [done|apply framed_standard_options, Hf].
  - intros (Hl & os & n & s & base & Hos & Ht & Hn & Hd & H4 & Hs & Hb & ->). split; [done|].
    apply parse_raw_options_iff in Hs as [Hs _]. exists os, base. split_and!; eauto.
    by rewrite <- H4, <- Hs, take_drop.
Qed.

Lemma tree_standard os : forall n, tree 0 os n -> exists n', (n' <= n)%nat /\ tree 0 (standard_options os) n'.
Proof.
  induction os as [|o os IH]; intros n; [eauto using tree_nil|].
  intros (k & m & -> & Hw & Ht)%tree_cons. destruct (IH m Ht) as (n' & Hn & Hs). unfold standard_options in *.
  destruct (is_vendor o) eqn:Hv.
  - rewrite filter_cons_False by (rewrite Hv; simpl; tauto). exists n'. split; [lia|done].
  - rewrite filter_cons_True by (by rewrite Hv). exists (k + n')%nat. split; [lia|]. apply tree_cons. eauto.
Qed.

Lemma in_tree_standard o os : in_tree o (standard_options os) -> in_tree o os.
Proof.
  inversion 1 as [? ? Ho|? ? ? ? ? Ho]; subst; apply list_elem_of_filter in Ho as [_ Ho].
  - by apply in_tree_here.
  - by eapply in_tree_nested.
Qed.

Lemma decode_client_message_returns `{!DhcprotoSafe} packet : returns (decode_client_message packet).
Proof.
  unfold decode_client_message. apply returns_bind; [auto with nico|]. intros area Ha.
  apply lift_return in Ha. destruct (get_from 4 packet) as [?|] eqn:E; simplify_eq/=.
  apply get_from_Some in E as [Hl ->].
  apply returns_bind; [auto with nico|]. intros os Hos. pose proof Hos as [_ Hf]%parse_raw_options_iff.
  apply returns_bind; [by apply validate_client_options_returns|].
  intros [] [(n & Ht & Hn) Hall]%validate_client_options_iff.
  rewrite sanitize_spec by done. cbn [mbind outcome_bind]. destruct (tree_standard os n Ht) as (n' & Hn' & Ht').
  apply returns_bind; [|auto with nico]. apply returns_map_throw, (message_whole _ _ n').
  - rewrite length_take. lia.
  - by apply framed_standard_options.
  - apply Forall_forall. intros o [Ho _]%list_elem_of_filter. by destruct (is_vendor o).
  - done.
  - lia.
  - intros o Ho. by apply Hall, in_tree_standard.
Qed.

(** ** Relay envelopes *)

(** The payloads of the options with a code. *)
Definition payloads (options : list RawOption) (c : OptionCode) : list (list Z) :=
  data <$> filter (fun o => code o =? u16_of_code c) options.

Lemma unique_raw_option_iff os c v :
  unique_raw_option os c = Ok v <-> payloads os c = option_list v.
Proof.
  unfold unique_raw_option. fold (payloads os c).
  destruct (payloads os c) as [|d1 [|d2 l]], v; simpl; naive_solver.
Qed.

(** The fixed part of a relay packet. *)
Lemma relay_header_iff (packet link peer area : list Z) :
  (34 <= length packet)%nat /\ packet !! 1%nat = Some 0 /\ get_range 2 18 packet = Some link /\
  get_range 18 34 packet = Some peer /\ get_from 34 packet = Some area <->
  (exists b, packet = [b; 0] ++ link ++ peer ++ area) /\ length link = 16%nat /\ length peer = 16%nat.
Proof.
  rewrite !get_range_Some, get_from_Some. split.
  - intros (Hl & H1 & [_ ->] & [_ ->] & [_ ->]). destruct packet as [|b [|b1 rest]]; simplify_eq/=.
    rewrite !length_take, !length_drop. split; [|lia]. exists b. do 2 f_equal.
    rewrite <- (take_drop 16 rest) at 1. f_equal.
    rewrite <- (take_drop 16 (drop 16 rest)) at 1. f_equal. by rewrite drop_drop.
  - intros ([b ->] & Hl & Hp). cbn -[take drop]. rewrite !length_app, Hl, Hp.
    change (drop 2 (b :: 0 :: ?l)) with l. change (drop 18 (b :: 0 :: ?l)) with (drop 16 l).
    change (drop 34 (b :: 0 :: ?l)) with (drop 32 l). split_and!; try (lia || done).
    + by rewrite take_app_length'.
    + by rewrite drop_app_length', take_app_length'.
    + rewrite app_assoc, drop_app_length' by (rewrite length_app; lia). done.
Qed.

Lemma octets16_iff msg l l' : octets16 msg l = Return l' <-> l' = l /\ length l = 16%nat.
Proof. unfold octets16. destruct (Nat.eqb_spec (length l) 16); naive_solver. Qed.

Lemma decode_relay_forward_iff packet d :
  decode_relay_forward packet = Return d <->
  exists b link peer options inner m ii ri cl,
    packet = [b; 0] ++ link ++ peer ++ concat (encoded <$> options) /\
    length link = 16%nat /\ length peer = 16%nat /\ Forall framed options /\
    payloads options RelayMsg = [inner] /\ is_relay_type (head inner) = false /\
    decode_client_message inner = Return m /\
    payloads options InterfaceId = option_list ii /\ payloads options RemoteId = option_list ri /\
    payloads options ClientLinklayerAddr = option_list cl /\
    d = {| message := m;
           relay := Some {| hop_count := 0; link_address := link; peer_address := peer;
                            interface_id := ii; remote_id := ri; client_link_layer := cl |} |}.
Proof.
  unfold decode_relay_forward. split.
  - destruct (Nat.ltb_spec (length packet) 34) as [|Hl]; [done|].
    intros (h & Hh & Hr)%bind_return. destruct (Z.eqb_spec h 0) as [->|]; [|done]. cbn [negb] in Hr.
    apply bind_return in Hr as (link & Hlink & (? & [-> _]%octets16_iff & Hr)%bind_return).
    apply bind_return in Hr as (peer & Hpeer & (? & [-> _]%octets16_iff & Hr)%bind_return).
    apply bind_return in Hr as (area & Harea & (os & Hos & Hr)%bind_return).
    apply bind_return in Hr as (found & Hfound & (inner & Hinner & Hr)%bind_return).
    destruct (is_relay_type (head inner)) eqn:Hrt; [done|].
    apply bind_return in Hr as (m & Hm & (ii & Hii & Hr)%bind_return).
    apply bind_return in Hr as (ri & Hri & (cl & Hcl & [= <-])%bind_return).
    apply or_panic_return in Hh, Hlink, Hpeer, Harea.
    apply lift_return, unique_raw_option_iff in Hfound, Hii, Hri, Hcl. apply lift_return in Hinner.
    destruct (proj1 (relay_header_iff packet link peer area)) as ([b ->] & ? & ?); [by split_and!|].
    apply parse_raw_options_iff in Hos as [-> Hf].
    exists b, link, peer, os, inner, m, ii, ri, cl. destruct found; simplify_eq/=. by split_and!.
  - intros (b & link & peer & os & inner & m & ii & ri & cl & -> & Hl & Hp & Hf & H1 & H2 & H3 & H4 & H5 & H6 & ->).
    destruct (proj2 (relay_header_iff _ link peer (concat (encoded <$> os)))
      (conj (ex_intro _ b eq_refl) (conj Hl Hp))) as (H34 & Hh & -> & -> & ->).
    rewrite (proj2 (Nat.ltb_ge _ _)), Hh by done. cbn [or_panic mbind outcome_bind negb Z.eqb].
    unfold octets16. rewrite Hl, Hp. cbn [mbind outcome_bind Nat.eqb].
    rewrite (proj2 (parse_raw_options_iff _ os)) by done.
    apply (unique_raw_option_iff os RelayMsg (Some inner)) in H1.
    apply unique_raw_option_iff in H4, H5, H6. cbn [mbind outcome_bind].
    rewrite H1. cbn [lift ok_or mbind outcome_bind]. by rewrite H2, H3, H4, H5, H6.
Qed.

Lemma decode_direct_iff packet m :
  decode packet = Return {| message := m; relay := None |} <->
  is_relay_type (head packet) = false /\ decode_client_message packet = Return m.
Proof.
  unfold decode, is_relay_type. destruct packet as [|b bs]; cbn [head hd_error].
  { split; [done|]. by intros [_ ?]. }
  destruct (b =? RELAY_FORWARD); cbn [orb].
  - split; [|by intros []]. intros Hr.
    by apply decode_relay_forward_iff in Hr as (?&?&?&?&?&?&?&?&?&_&_&_&_&_&_&_&_&_&_&?).
  - destruct (b =? RELAY_REPLY); [naive_solver|]. rewrite bind_return. naive_solver.
Qed.

Lemma decode_relayed_iff packet m env :
  decode packet = Return {| message := m; relay := Some env |} <->
  head packet = Some RELAY_FORWARD /\
  decode_relay_forward packet = Return {| message := m; relay := Some env |}.
Proof.
  unfold decode. destruct packet as [|b bs]; cbn [head hd_error]; [naive_solver|].
  destruct (Z.eqb_spec b RELAY_FORWARD) as [->|]; [naive_solver|].
  destruct (b =? RELAY_REPLY); [naive_solver|]. rewrite bind_return. naive_solver.
Qed.

(** C26: a packet decodes to a message in a relay envelope exactly when it is a
    Relay-Forward header with hop count 0 and the two addresses, followed by well
    framed options with one relay message and at most one interface identifier,
    remote identifier and client link-layer address; the envelope carries the
    addresses and these options, and the message is the one its payload decodes
    to as a direct packet. *)
Theorem decode_relay_exact packet m env :
  decode packet = Return {| message := m; relay := Some env |} <->
  exists options inner,
    packet = [RELAY_FORWARD; 0] ++ link_address env ++ peer_address env ++ concat (encoded <$> options) /\
    hop_count env = 0 /\ length (link_address env) = 16%nat /\ length (peer_address env) = 16%nat /\
    Forall framed options /\
    payloads options RelayMsg = [inner] /\
    payloads options InterfaceId = option_list (interface_id env) /\
    payloads options RemoteId = option_list (remote_id env) /\
    payloads options ClientLinklayerAddr = option_list (client_link_layer env) /\
    decode inner = Return {| message := m; relay := None |}.
Proof.
  rewrite decode_relayed_iff, decode_relay_forward_iff. setoid_rewrite decode_direct_iff. split.
  - intros (Hh & ?&link&peer&os&inner&?&ii&ri&cl&->&?&?&?&?&?&?&?&?&?&[= -> ->]).
    injection Hh as ->. exists os, inner. by split_and!.
  - intros (os & inner & -> & Hh & Hl & Hp & ? & ? & ? & ? & ? & ? & ?). split; [done|].
    destruct env; simpl in *; subst. eauto 25.
Qed.

(** C28: decoding ends in a packet or an error for every input, though the typed
    decoder panics on some: no index is out of range, the recursion over the option
    tree stays within ten frames, and the typed decoder is only called where
    [DhcprotoSafe] says that it does not panic, that is on one option alone after its
    nested options, and on a message of checked options within the budget. *)
Theorem decode_returns `{!DhcprotoSafe} packet : returns (decode packet).
Proof.
  unfold decode. destruct packet as [|b bs]; [done|]. cbn [head hd_error].
  destruct (b =? RELAY_FORWARD).
  2:{ destruct (b =? RELAY_REPLY); [done|].
      apply returns_bind; [apply decode_client_message_returns|done]. }
  generalize (b :: bs). clear b bs. intros packet. unfold decode_relay_forward.
  destruct (Nat.ltb_spec (length packet) 34) as [|Hl]; [done|].
  destruct (lookup_lt_is_Some_2 packet 1%nat ltac:(lia)) as [h Hh]. rewrite Hh. cbn [or_panic mbind outcome_bind].
  destruct (negb (h =? 0)); [done|].
  rewrite (get_range_in 2 18), (get_range_in 18 34), (get_from_in 34) by lia.
  cbn [or_panic mbind outcome_bind]. unfold octets16.
  do 2 (apply returns_bind; [by case_match|]; intros ? _). cbn [mbind outcome_bind].
  do 3 (apply returns_bind; [auto with nico|]; intros ? _). case_match; [done|].
  apply returns_bind; [apply decode_client_message_returns|]. intros m _.
  do 3 (apply returns_bind; [auto with nico|]; intros ? _). done.
Qed.

(** ** The message type of the ingress metrics *)

Definition is_relay_msg (o : RawOption) : bool := bool_decide (code_of_u16 (code o) = RelayMsg).

Lemma relay_type_loop_spec turns os :
  Forall framed os ->
  relay_type_loop turns (concat (encoded <$> os)) =
  (o ← List.find is_relay_msg (take turns os); type_of_u8 <$> head (data o)).
Proof.
  intros Hf. revert turns. induction Hf as [|o os Ho Hf IH]; intros [|turns]; try done.
  destruct Ho as (b0 & b1 & b2 & b3 & E & Hc & Hd). csimpl. rewrite E. cbn [relay_type_loop app].
  cbn [take List.find]. unfold is_relay_msg at 1. rewrite Hc.
  rewrite get_range_in, get_from_in by (cbn [length]; rewrite length_app; lia).
  cbn [mbind option_bind drop plus]. rewrite <- Hd.
  case_bool_decide.
  - replace (S (S (S (S (length (data o))))) - 4)%nat with (length (data o)) by lia.
    by rewrite drop_0, take_app_length.
  - rewrite drop_app_length. apply IH.
Qed.

Context `{!DhcprotoLaws}.

Lemma framed_code os o : Forall framed os -> bytes (concat (encoded <$> os)) -> o ∈ os ->
  is_relay_msg o = (code o =? u16_of_code RelayMsg).
Proof.
  intros Hf Hb Ho. rewrite Forall_forall in Hf. destruct (Hf o Ho) as (b0 & b1 & b2 & b3 & E & Hc & _).
  assert (Ho' : bytes (encoded o)).
  { apply Forall_forall. intros b Hin. eapply Forall_forall in Hb; [exact Hb|].
    apply list_elem_of_In, in_concat. exists (encoded o). rewrite <- !list_elem_of_In. split; [|done].
    by apply list_elem_of_fmap_2. }
  rewrite E in Ho'. rewrite !bytes_cons in Ho'. destruct Ho' as (Hb0 & Hb1 & _).
  unfold is_relay_msg. rewrite Hc. pose proof (relay_msg_code (be16 b0 b1) (be16_bound _ _ Hb0 Hb1)).
  destruct (Z.eqb_spec (be16 b0 b1) (u16_of_code RelayMsg)); case_bool_decide; naive_solver.
Qed.

Lemma decode_client_type b bs m :
  decode_client_message (b :: bs) = Return m -> msg_type m = type_of_u8 b.
Proof.
  intros (_ & os & base & _ & _ & Hb & ->)%decode_client_message_steps.
  replace (msg_type (fold_left insert_vendor (vendor_options os) base)) with (msg_type base).
  - exact (decoded_type _ _ _ Hb).
  - generalize (vendor_options os) base. intros l. induction l as [|o l IH]; intros m; simpl; [done|].
    rewrite <- IH. unfold insert_vendor. by rewrite insert_type.
Qed.

(** The message type counted for a packet is the type of the message it decodes
    to, unless it is a relay packet whose relay message is preceded by 256 or more
    options; such a packet is counted as a Relay-Forward. *)
Theorem request_message_type_agrees packet d :
  bytes packet -> decode packet = Return d ->
  request_message_type packet = msg_type (message d) \/
  (request_message_type packet = RelayForw /\ exists options inner,
     drop 34 packet = concat (encoded <$> options) /\ payloads options RelayMsg = [inner] /\
     payloads (take MAX_CLIENT_OPTIONS options) RelayMsg = []).
Proof.
  destruct d as [m [env|]]; cbn [message]; intros Hb Hd.
  - apply decode_relayed_iff in Hd as [Hh
      (b0 & link & peer & os & inner & m' & ? & ? & ? & -> & Hl & Hp & Hf & Hr & Hrt & Hm & _ & _ & _ & [= <- _])%decode_relay_forward_iff].
    injection Hh as ->.
    unfold request_message_type. cbn [app head hd_error default].
    rewrite bool_decide_true by (by apply relay_forw_type).
    unfold relay_message_type.
    destruct (proj2 (relay_header_iff _ _ _ (concat (encoded <$> os)))
      (conj (ex_intro _ RELAY_FORWARD eq_refl) (conj Hl Hp))) as (_ & _ & _ & _ & Hg).
    cbn [app] in Hg. rewrite Hg. cbn [mbind option_bind]. rewrite relay_type_loop_spec by done.
    assert (Hbo : bytes (concat (encoded <$> os))) by (rewrite !bytes_app in Hb; tauto).
    destruct (List.find _ _) as [o|] eqn:Ho; cbn [mbind option_bind].
    + left. apply find_some in Ho as [Ho%list_elem_of_In Hrel].
      assert (Hos : o ∈ os) by (apply elem_of_take in Ho as (i & ? & _); eauto using list_elem_of_lookup_2). rewrite (framed_code os o) in Hrel by done.
      assert (Hd : data o ∈ payloads os RelayMsg).
      { apply list_elem_of_fmap_2, list_elem_of_filter. by rewrite Hrel. }
      rewrite Hr in Hd. apply list_elem_of_singleton in Hd as ->. destruct inner as [|b bs]; [done|].
      cbn. symmetry. by apply decode_client_type with bs.
    + right. split; [by apply relay_forw_type|]. exists os, inner. split; [|split; [done|]].
      * by apply get_from_Some in Hg as [_ <-].
      * unfold payloads. apply elem_of_nil_inv.
        intros ? (o & -> & [Hrel Hin]%list_elem_of_filter)%list_elem_of_fmap.
        assert (Hos : o ∈ os) by (apply elem_of_take in Hin as (i & ? & _); eauto using list_elem_of_lookup_2).
        rewrite <- (framed_code os o) in Hrel by done. apply list_elem_of_In in Hin.
        by rewrite (find_none _ _ Ho o Hin) in Hrel.
  - apply decode_direct_iff in Hd as [Hrt Hm]. left. destruct packet as [|b bs]; [done|].
    unfold request_message_type. cbn [head hd_error default from_option id] in *. apply Forall_cons in Hb as [Hb _].
    rewrite bool_decide_false; [symmetry; by eapply decode_client_type|].
    intros Hf. apply relay_forw_type in Hf as ->; done.
Qed.
End Decode.

(** ** Link-layer addresses *)

Section DuidFacts.
Context {MacAddress : Type} (mac_new : list Z -> MacAddress).

Lemma parse_link_layer_duid_mac l t m :
  parse_link_layer_duid mac_new l t = Return (Mac m) <->
  exists h0 h1 time mac, l = [h0; h1] ++ time ++ mac /\ be16 h0 h1 = HARDWARE_TYPE_ETHERNET /\
    length time = t /\ length mac = ETHERNET_MAC_LENGTH /\ m = mac_new mac.
Proof.
  unfold parse_link_layer_duid. split.
  - destruct (Nat.leb_spec (length l) (2 + t)) as [|Hl]; [done|].
    destruct l as [|h0 [|h1 l]]; [simpl in Hl; lia..|]. cbn [lookup list_lookup or_panic mbind outcome_bind].
    destruct (Z.eqb_spec (be16 h0 h1) HARDWARE_TYPE_ETHERNET); [|done]. cbn [negb].
    rewrite get_from_in by lia. cbn [or_panic mbind outcome_bind drop plus].
    destruct (Nat.eqb_spec (length (drop t l)) ETHERNET_MAC_LENGTH); [|done]. cbn [negb].
    intros [= <-]. exists h0, h1, (take t l), (drop t l). rewrite take_drop, length_take.
    simpl in Hl. split_and!; done || lia.
  - intros (h0 & h1 & time & mac & -> & E & <- & Hm & ->).
    rewrite (proj2 (Nat.leb_gt _ _)) by (rewrite !length_app; simpl; unfold ETHERNET_MAC_LENGTH in *; lia).
    cbn [app lookup list_lookup or_panic mbind outcome_bind]. rewrite E, Z.eqb_refl. cbn [negb].
    rewrite get_from_in by (simpl; rewrite length_app; lia). cbn [or_panic mbind outcome_bind drop plus].
    by rewrite drop_app_length, Hm.
Qed.

Lemma option79_mac p m :
  extract_mac_from_option79 mac_new p = Some m <->
  exists h0 h1 mac, p = [h0; h1] ++ mac /\ be16 h0 h1 = HARDWARE_TYPE_ETHERNET /\
    length mac = ETHERNET_MAC_LENGTH /\ m = mac_new mac.
Proof.
  unfold extract_mac_from_option79. destruct p as [|h0 [|h1 mac]]; [naive_solver..|].
  unfold ETHERNET_MAC_LENGTH. cbn [length].
  destruct (Nat.eqb_spec (S (S (length mac))) (2 + 6)), (Z.eqb_spec (be16 h0 h1) HARDWARE_TYPE_ETHERNET);
    cbn [negb]; naive_solver lia.
Qed.

Lemma parse_link_layer_duid_returns l t : returns (parse_link_layer_duid mac_new l t).
Proof.
  unfold parse_link_layer_duid. destruct (Nat.leb_spec (length l) (2 + t)) as [|Hl]; [done|].
  destruct l as [|h0 [|h1 l]]; [simpl in Hl; lia..|]. cbn [lookup list_lookup or_panic mbind outcome_bind].
  case_match; [done|]. rewrite get_from_in by lia. cbn [or_panic mbind outcome_bind]. by case_match.
Qed.

(** The two types of DUID that carry a link-layer address. *)
Lemma extract_mac_from_duid_unfold d0 d1 l :
  (1 <= length l <= 128)%nat ->
  extract_mac_from_duid mac_new (d0 :: d1 :: l) =
  if be16 d0 d1 =? DUID_LLT then parse_link_layer_duid mac_new l 4
  else if be16 d0 d1 =? DUID_LL then parse_link_layer_duid mac_new l 0
  else if ((be16 d0 d1 =? DUID_EN) && (length l <? 5)%nat) ||
          ((be16 d0 d1 =? DUID_UUID) && negb (length l =? 16)%nat) then Throw Malformed
  else Return NoLinkLayerMac.
Proof.
  intros Hl. unfold extract_mac_from_duid, DUID_MIN_LENGTH, DUID_MAX_LENGTH, DUID_TYPE_LENGTH. cbn [length].
  rewrite (proj2 (Nat.leb_le (2 + 1) _)), (proj2 (Nat.leb_le _ (2 + 128))) by lia.
  cbn [andb negb lookup list_lookup or_panic mbind outcome_bind].
  rewrite get_from_in by (simpl; lia). cbn [or_panic mbind outcome_bind drop]. do 2 (case_match; [done|]).
  unfold DUID_EN_MIN_LENGTH, DUID_UUID_LENGTH.
  destruct (Z.eqb_spec (be16 d0 d1) DUID_EN) as [->|]; cbn [andb orb].
  - destruct (Nat.leb_spec 7 (S (S (length l)))), (Nat.ltb_spec (length l) 5); done || lia.
  - destruct (be16 d0 d1 =? DUID_UUID); cbn [andb orb]; [|done].
    by destruct (Nat.eqb_spec (S (S (length l))) 18), (Nat.eqb_spec (length l) 16); done || lia.
Qed.

Lemma extract_mac_from_duid_length duid :
  ~ (3 <= length duid <= 130)%nat -> extract_mac_from_duid mac_new duid = Throw Malformed.
Proof.
  intros Hl. unfold extract_mac_from_duid, DUID_MIN_LENGTH, DUID_MAX_LENGTH, DUID_TYPE_LENGTH.
  destruct (Nat.leb_spec (2 + 1) (length duid)), (Nat.leb_spec (length duid) (2 + 128)); done || lia.
Qed.

Lemma extract_mac_from_duid_returns duid : returns (extract_mac_from_duid mac_new duid).
Proof.
  destruct (decide (3 <= length duid <= 130)%nat) as [Hl|Hl].
  - destruct duid as [|d0 [|d1 l]]; [simpl in Hl; lia..|]. rewrite extract_mac_from_duid_unfold by (simpl in Hl; lia).
    repeat case_match; try done; apply parse_link_layer_duid_returns.
  - by rewrite extract_mac_from_duid_length.
Qed.

(** An Ethernet address is taken from a DUID exactly when it is a DUID-LL or
    DUID-LLT of hardware type 1 that ends in six octets, which are the address;
    the classification never panics, and the payload of a DUID-LL and the payload
    of relay option 79 give the same address. *)
Theorem duid_mac_exact duid m :
  bytes duid ->
  returns (extract_mac_from_duid mac_new duid) /\
  (extract_mac_from_duid mac_new duid = Return (Mac m) <->
   exists mac, length mac = 6%nat /\ m = mac_new mac /\
     (duid = [0; 3; 0; 1] ++ mac \/
      exists time, length time = 4%nat /\ duid = [0; 1; 0; 1] ++ time ++ mac)) /\
  (extract_mac_from_duid mac_new ([0; 3] ++ duid) = Return (Mac m) <->
   extract_mac_from_option79 mac_new duid = Some m).
Proof.
  intros Hb. split; [apply extract_mac_from_duid_returns|]. split; [split|].
  - destruct (decide (3 <= length duid <= 130)%nat) as [Hl|Hl];
      [|by rewrite extract_mac_from_duid_length].
    destruct duid as [|d0 [|d1 l]]; [simpl in Hl; lia..|].
    rewrite extract_mac_from_duid_unfold by (simpl in Hl; lia).
    rewrite !bytes_cons in Hb. destruct Hb as (H0 & H1 & Hb).
    destruct (Z.eqb_spec (be16 d0 d1) DUID_LLT) as [[-> ->]%be16_small|_]; try done.
    + intros (h0 & h1 & time & mac & -> & E & ? & ? & ->)%parse_link_layer_duid_mac.
      rewrite bytes_app, !bytes_cons in Hb. apply be16_small in E as [-> ->]; [|done|tauto..].
      exists mac. eauto 10.
    + destruct (Z.eqb_spec (be16 d0 d1) DUID_LL) as [[-> ->]%be16_small|_]; try done; [|by case_match].
      intros (h0 & h1 & [|] & mac & -> & E & ? & ? & ->)%parse_link_layer_duid_mac; [|done].
      rewrite bytes_app, !bytes_cons in Hb. apply be16_small in E as [-> ->]; [|done|tauto..].
      exists mac. eauto 10.
  - intros (mac & Hm & -> & [->|(time & Ht & ->)]); cbn [app];
      rewrite extract_mac_from_duid_unfold by (cbn [length]; rewrite ?length_app; lia);
      apply parse_link_layer_duid_mac.
    + exists 0, 1, [], mac. done.
    + exists 0, 1, time, mac. done.
  - rewrite option79_mac. cbn [app]. split.
    + destruct (decide (1 <= length duid <= 128)%nat) as [Hl|Hl];
        [|rewrite extract_mac_from_duid_length by (simpl; lia); done].
      rewrite extract_mac_from_duid_unfold by done.
      intros (h0 & h1 & [|] & mac & -> & ? & ? & ? & ->)%parse_link_layer_duid_mac; [|done]. eauto 10.
    + intros (h0 & h1 & mac & -> & ? & Hm & ->). unfold ETHERNET_MAC_LENGTH in Hm.
      rewrite extract_mac_from_duid_unfold by (simpl; lia). apply parse_link_layer_duid_mac.
      exists h0, h1, [], mac. done.
Qed.
End DuidFacts.
End Dhcpv6.

(** ** A reference decoder

    Options are kept as code and payload, messages as their type and the octets
    of their options. *)
Module Dhcpv6Example.
Import Dhcpv6.

(** A vendor class has at least the four octets of its enterprise number; a shorter one
    takes them from what follows, and the length that is left underflows. *)
Definition ref_option_decode (bs : list Z) : outcome string ((Z * list Z) * list Z) :=
  match bs with
  | b0 :: b1 :: b2 :: b3 :: rest =>
      let n := Z.to_nat (be16 b2 b3) in
      if (be16 b0 b1 =? 16) && (length rest <? 4)%nat then Throw "end of input"
      else if (be16 b0 b1 =? 16) && (n <? 4)%nat then Panic
      else if (length rest <? n)%nat then Throw "end of input"
      else Return ((be16 b0 b1, take n rest), drop n rest)
  | _ => Throw "end of input"
  end.
Definition ref_option_encode (o : Z * list Z) : option (list Z) :=
  Some (to_be16 o.1 ++ to_be16 (Z.of_nat (length o.2)) ++ o.2).
Fixpoint ref_options_decode (turns : nat) (bs : list Z) : outcome string unit :=
  match bs, turns with
  | [], _ | _, O => Return ()
  | _, S turns => d ← ref_option_decode bs; ref_options_decode turns d.2
  end.
Definition ref_message_decode (bs : list Z) : outcome string (Z * list Z * list (Z * list Z)) :=
  match bs with
  | b :: _ :: _ :: _ :: rest => _ ← ref_options_decode (length rest) rest; Return (b, rest, [])
  | _ => Throw "end of input"
  end.

#[export] Instance dhcproto_reference : Dhcproto := {|
  OptionCode := Z;
  OptionCode_eq_dec := _;
  code_of_u16 := fun c => c;
  u16_of_code := fun c => c;
  IANA := 3; IATA := 4; IAAddr := 5; RelayMsg := 9; VendorOpts := 17; InterfaceId := 18;
  IAPD := 25; IAPrefix := 26; RemoteId := 37; ClientLinklayerAddr := 79;
  MessageType := Z;
  MessageType_eq_dec := _;
  type_of_u8 := fun b => b;
  RelayForw := 12;
  Message := Z * list Z * list (Z * list Z);
  msg_type := fun m => m.1.1;
  DhcpOption := Z * list Z;
  Unknown := fun c d => (c, d);
  DhcprotoError := string;
  message_decode := ref_message_decode;
  insert_option := fun o m => (m.1, m.2 ++ [o]);
  option_decode := ref_option_decode;
  option_encode := ref_option_encode
|}.

#[export] Instance dhcproto_reference_laws : DhcprotoLaws.
Proof.
  split; try done. intros b [|b1 [|b2 [|b3 bs]]] m; simpl; try done.
  by intros (? & _ & [= <-])%bind_return.
Qed.

Lemma ref_option_decode_alone (o : RawOption) : framed o -> returns (ref_option_decode (encoded o)).
Proof.
  intros (b0 & b1 & b2 & b3 & -> & _ & Hd). cbn -[be16 Nat.ltb]. rewrite Hd.
  destruct (be16 b0 b1 =? 16); cbn [andb]; repeat case_match; done.
Qed.

(** An option that decodes alone decodes the same before others. *)
Lemma ref_option_decode_more (o : RawOption) d more :
  framed o -> ref_option_decode (encoded o) = Return (d, []) -> ref_option_decode (encoded o ++ more) = Return (d, more).
Proof.
  intros (b0 & b1 & b2 & b3 & -> & _ & Hd). cbn -[be16 Nat.ltb take drop]. rewrite length_app, Hd.
  destruct (Nat.ltb_spec (Z.to_nat (be16 b2 b3)) 4), (be16 b0 b1 =? 16); cbn [andb]; try done;
    rewrite ?Nat.ltb_irrefl, !(proj2 (Nat.ltb_ge _ _)) by lia; cbn [andb]; rewrite ?(proj2 (Nat.ltb_ge _ _)) by lia;
    intros [= <-]; rewrite <- Hd, take_app_length, drop_app_length, firstn_all; done.
Qed.

Lemma ref_options_decode_returns turns (os : list RawOption) :
  Forall framed os -> (forall o, o ∈ os -> decodes_exactly o) ->
  returns (ref_options_decode turns (concat (encoded <$> os))).
Proof.
  intros Hf. revert turns. induction Hf as [|o os Ho Hf IH]; intros turns Hd; [by destruct turns|].
  change (concat (encoded <$> o :: os)) with (encoded o ++ concat (encoded <$> os)).
  destruct turns as [|turns].
  { destruct Ho as (? & ? & ? & ? & -> & _). done. }
  destruct (Hd o) as (d & _ & Hdec & _); [by left|].
  assert (E : ref_options_decode (S turns) (encoded o ++ concat (encoded <$> os))
              = ref_options_decode turns (concat (encoded <$> os))).
  { pose proof (ref_option_decode_more o d (concat (encoded <$> os)) Ho Hdec) as E.
    destruct Ho as (b0 & b1 & b2 & b3 & Eo & _). rewrite Eo in E |- *. cbn [app ref_options_decode] in *. by rewrite E. }
  rewrite E. apply IH. intros o' Ho'. apply Hd. by right.
Qed.

#[export] Instance dhcproto_reference_safe : DhcprotoSafe.
Proof.
  split.
  - intros d o k Ho _ _ _. by apply ref_option_decode_alone.
  - intros [|b [|? [|? [|? [|]]]]] os n Hl Hf Hv _ _ Hd; simpl in Hl; try lia. cbn -[ref_options_decode].
    apply returns_bind; [|done]. apply ref_options_decode_returns; [done|]. intros o Ho. apply Hd.
    rewrite Forall_forall in Hv. apply in_tree_here; auto.
Qed.

Definition raw_option (c : Z) (payload : list Z) : list Z :=
  to_be16 c ++ to_be16 (Z.of_nat (length payload)) ++ payload.
Definition direct_solicit : list Z := [1; 0; 0; 1].
Definition relay_forward (options : list Z) : list Z := [RELAY_FORWARD; 0] ++ repeat 0 32 ++ options.

(** A solicitation with an identity association and a vendor option, relayed. *)
Definition solicit : list Z :=
  direct_solicit ++ raw_option 3 (repeat 7 12 ++ raw_option 5 (repeat 1 24)) ++ raw_option 17 [0; 0; 22; 71].
Definition relayed_solicit : list Z := relay_forward (raw_option 18 [5] ++ raw_option 9 solicit).

Example solicit_decodes :
  decode relayed_solicit =
  Return {| message := (1, raw_option 3 (repeat 7 12 ++ raw_option 5 (repeat 1 24)), [(17, [0; 0; 22; 71])]);
            relay := Some {| hop_count := 0; link_address := repeat 0 16; peer_address := repeat 0 16;
                             interface_id := Some [5]; remote_id := None; client_link_layer := None |} |}.
Proof. vm_compute. reflexivity. Qed.

Fixpoint nest (n : nat) : list Z :=
  match n with O => raw_option 65000 [] | S n => raw_option 4 (repeat 0 4 ++ nest n) end.

(** Eight levels of nesting are accepted and nine are not. *)
Example nesting_limit :
  (exists m, decode_client_message (direct_solicit ++ nest 8) = Return m) /\
  decode_client_message (direct_solicit ++ nest 9) =
    Throw (MalformedPacket "client option nesting limit exceeded").
Proof. split; [eexists|]; vm_compute; reflexivity. Qed.

(** A vendor class without its enterprise number, before another option, makes the typed
    decoder panic; decoding refuses it. *)
Definition short_vendor_class : list Z := direct_solicit ++ raw_option 16 [] ++ raw_option 14 [].

Lemma decode_returns_witness :
  message_decode short_vendor_class = Panic /\
  decode short_vendor_class = Throw (ClientMessageDecode "end of input") /\ returns (decode short_vendor_class).
Proof.
  split; [vm_compute; reflexivity|]. split; [vm_compute; reflexivity|]. exact (decode_returns short_vendor_class).
Defined.

Lemma request_message_type_agrees_witness :
  bytes relayed_solicit /\ request_message_type relayed_solicit = 1 /\
  exists d, decode relayed_solicit = Return d /\
    (request_message_type relayed_solicit = msg_type (message d) \/
     (request_message_type relayed_solicit = RelayForw /\ exists options inner,
        drop 34 relayed_solicit = concat (encoded <$> options) /\ payloads options RelayMsg = [inner] /\
        payloads (take MAX_CLIENT_OPTIONS options) RelayMsg = [])).
Proof.
  assert (Hb : bytes relayed_solicit).
  { apply bytes_decided. vm_compute. reflexivity. }
  split; [exact Hb|]. split; [vm_compute; reflexivity|].
  eexists. split; [exact solicit_decodes|].
  exact (request_message_type_agrees _ _ Hb solicit_decodes).
Defined.

Lemma duid_mac_exact_witness :
  extract_mac_from_duid (fun mac => mac) [0; 3; 0; 1; 2; 0; 0; 0; 0; 9] = Return (Mac [2; 0; 0; 0; 0; 9]).
Proof.
  refine (proj2 (proj1 (proj2 (duid_mac_exact (fun mac => mac) _ [2; 0; 0; 0; 0; 9] _))) _).
  - apply bytes_decided. reflexivity.
  - exists [2; 0; 0; 0; 0; 9]. split; [reflexivity|]. split; [reflexivity|]. left. reflexivity.
Defined.
End Dhcpv6Example.
