(* ===== verification/BTree.v ===== *)
(** * BTree: Rust's ordered maps and sets

    [std::collections::BTreeMap] and [BTreeSet], as lists that ascend strictly
    in their keys, and the orders of the keys the components use: [String]
    (octet by octet), [Option] ([None] first) and pairs. *)

From S2P Require Import Prelude.
From Stdlib Require Import Ascii.

(** ** Ordered keys *)

Class Ord (K : Type) := {
  cmp : K -> K -> comparison;
  cmp_eq x y : cmp x y = Eq <-> x = y;
  cmp_opp x y : cmp y x = CompOpp (cmp x y);
  cmp_trans x y z : cmp x y = Lt -> cmp y z = Lt -> cmp x z = Lt
}.

Lemma cmp_refl {K} `{Ord K} x : cmp x x = Eq.
Proof. by apply cmp_eq. Qed.

(** Comparing first by one key and then, when it is equal, by another. *)
Definition then_cmp (c d : comparison) : comparison := match c with Eq => d | _ => c end.

Fixpoint string_cmp (s t : string) : comparison :=
  match s, t with
  | EmptyString, EmptyString => Eq
  | EmptyString, String _ _ => Lt
  | String _ _, EmptyString => Gt
  | String a s, String b t => then_cmp (N.compare (N_of_ascii a) (N_of_ascii b)) (string_cmp s t)
  end.

Lemma N_of_ascii_inj a b : N_of_ascii a = N_of_ascii b -> a = b.
Proof. intros E. by rewrite <- (ascii_N_embedding a), E, ascii_N_embedding. Qed.

#[export] Instance string_ord : Ord string.
Proof.
  refine {| cmp := string_cmp |}.
  - intros s. induction s as [|a s IH]; intros [|b t]; simpl; try done.
    destruct (N.compare_spec (N_of_ascii a) (N_of_ascii b)) as [E|E|E]; simpl.
    + apply N_of_ascii_inj in E as ->. rewrite IH. naive_solver.
    + split; [done|]. intros [= -> _]. lia.
    + split; [done|]. intros [= -> _]. lia.
  - intros s. induction s as [|a s IH]; intros [|b t]; simpl; try done.
    rewrite (N.compare_antisym (N_of_ascii a)), IH. by destruct (N_of_ascii a ?= N_of_ascii b)%N.
  - intros s. induction s as [|a s IH]; intros [|b t] [|c u]; simpl; try done.
    destruct (N.compare_spec (N_of_ascii a) (N_of_ascii b)), (N.compare_spec (N_of_ascii b) (N_of_ascii c)),
      (N.compare_spec (N_of_ascii a) (N_of_ascii c)); simpl; try done; try lia. apply IH.
Defined.

Definition option_cmp {K} `{Ord K} (x y : option K) : comparison :=
  match x, y with
  | None, None => Eq
  | None, Some _ => Lt
  | Some _, None => Gt
  | Some x, Some y => cmp x y
  end.

#[export] Instance option_ord {K} `{Ord K} : Ord (option K).
Proof.
  refine {| cmp := option_cmp |}.
  - intros [x|] [y|]; simpl; rewrite ?cmp_eq; naive_solver.
  - intros [x|] [y|]; simpl; try done. apply cmp_opp.
  - intros [x|] [y|] [z|]; simpl; try done. apply cmp_trans.
Defined.

Definition pair_cmp {K L} `{Ord K, Ord L} (x y : K * L) : comparison :=
  then_cmp (cmp x.1 y.1) (cmp x.2 y.2).

#[export] Instance pair_ord {K L} `{Ord K, Ord L} : Ord (K * L).
Proof.
  refine {| cmp := pair_cmp |}; unfold pair_cmp.
  - intros [a b] [c d]; simpl. destruct (cmp a c) eqn:E; simpl.
    + apply cmp_eq in E as ->. rewrite cmp_eq. naive_solver.
    + split; [done|]. intros [= <- _]. by rewrite cmp_refl in E.
    + split; [done|]. intros [= <- _]. by rewrite cmp_refl in E.
  - intros [a b] [c d]; simpl. rewrite (cmp_opp a c). destruct (cmp a c); simpl; try done. apply cmp_opp.
  - intros [a b] [c d] [e f]; simpl.
    destruct (cmp a c) eqn:E1, (cmp c e) eqn:E2; simpl; try done.
    + apply cmp_eq in E1 as ->, E2 as ->. rewrite cmp_refl. simpl. apply cmp_trans.
    + apply cmp_eq in E1 as ->. by rewrite E2.
    + apply cmp_eq in E2 as ->. by rewrite E1.
    + by rewrite (cmp_trans _ _ _ E1 E2).
Defined.

Lemma cmp_pair {K L} `{Ord K, Ord L} (a c : K) (b d : L) : cmp (a, b) (c, d) = then_cmp (cmp a c) (cmp b d).
Proof. done. Qed.

Lemma cmp_asym {K} `{Ord K} (a b : K) : cmp a b = Lt -> cmp b a = Lt -> False.
Proof. intros H1 H2. pose proof (cmp_trans _ _ _ H1 H2) as H3. by rewrite cmp_refl in H3. Qed.

Lemma cmp_le_trans {K} `{Ord K} (x y z : K) : cmp x y <> Gt -> cmp y z <> Gt -> cmp x z <> Gt.
Proof.
  destruct (cmp x y) eqn:E1; [apply cmp_eq in E1 as ->; done| |done]. intros _.
  destruct (cmp y z) eqn:E2; [apply cmp_eq in E2 as ->; by rewrite E1| |done]. by rewrite (cmp_trans _ _ _ E1 E2).
Qed.

Lemma cmp_le_antisym {K} `{Ord K} (x y : K) : cmp x y <> Gt -> cmp y x <> Gt -> x = y.
Proof. rewrite (cmp_opp x y). destruct (cmp x y) eqn:E; simpl; [by apply cmp_eq in E|done..]. Qed.

(** ** Maps *)

Definition BTreeMap (K V : Type) : Type := list (K * V).

Module BTree.
Section Map.
Context {K V : Type} `{Ord K, EqDecision K}.
Implicit Types (k : K) (v : V) (m : BTreeMap K V).

Fixpoint get k m : option V :=
  match m with
  | [] => None
  | (k', v) :: m => match cmp k k' with Eq => Some v | Lt => None | Gt => get k m end
  end.

Fixpoint insert k v m : BTreeMap K V :=
  match m with
  | [] => [(k, v)]
  | (k', v') :: m' =>
      match cmp k k' with
      | Eq => (k', v) :: m'
      | Lt => (k, v) :: m
      | Gt => (k', v') :: insert k v m'
      end
  end.

Fixpoint remove k m : BTreeMap K V :=
  match m with
  | [] => []
  | (k', v') :: m' =>
      match cmp k k' with
      | Eq => m'
      | Lt => m
      | Gt => (k', v') :: remove k m'
      end
  end.

Definition values m : list V := snd <$> m.
Definition keys m : list K := fst <$> m.

(** Keys ascend strictly. *)
Definition ascending (l : list K) : Prop := StronglySorted (fun x y => cmp x y = Lt) l.
Definition wf m : Prop := ascending (keys m).

Lemma cmp_gt k k' : cmp k k' = Gt <-> cmp k' k = Lt.
Proof. rewrite (cmp_opp k k'). by destruct (cmp k k'). Qed.

Lemma wf_nil : wf [].
Proof. constructor. Qed.

Lemma wf_cons k v m : wf ((k, v) :: m) <-> wf m /\ Forall (fun k' => cmp k k' = Lt) (keys m).
Proof. unfold wf, ascending. csimpl. split; [inversion 1|intros []; constructor]; done. Qed.

Lemma get_below k m : Forall (fun k' => cmp k k' = Lt) (keys m) -> get k m = None.
Proof. destruct m as [|[k' v] m]; [done|]. csimpl. by intros [-> _]%Forall_cons. Qed.

Lemma below_trans k k' m :
  cmp k k' = Lt -> Forall (fun k'' => cmp k' k'' = Lt) (keys m) ->
  Forall (fun k'' => cmp k k'' = Lt) (keys m).
Proof. intros Hk Hm. eapply Forall_impl; [exact Hm|]. intros x. by apply cmp_trans. Qed.

Lemma elem_of_insert x k v m : x ∈ keys (insert k v m) <-> x = k \/ x ∈ keys m.
Proof.
  induction m as [|[k' v'] m IH]; csimpl; [set_solver|].
  destruct (cmp k k') eqn:E; csimpl; rewrite ?elem_of_cons, ?IH; [|set_solver..].
  apply cmp_eq in E as ->. set_solver.
Qed.

Lemma insert_wf k v m : wf m -> wf (insert k v m).
Proof.
  induction m as [|[k' v'] m IH]; simpl.
  { intros _. apply wf_cons. split; [apply wf_nil|constructor]. }
  intros [Hm Hk]%wf_cons. destruct (cmp k k') eqn:E; apply wf_cons.
  - done.
  - split; [by apply wf_cons|]. csimpl. constructor; [done|]. by eapply below_trans.
  - split; [auto|]. apply Forall_forall. intros x [->|Hx]%elem_of_insert; [by apply cmp_gt|].
    by eapply Forall_forall in Hk.
Qed.

Lemma elem_of_remove x k m : wf m -> x ∈ keys (remove k m) <-> x ∈ keys m /\ x <> k.
Proof.
  induction m as [|[k' v'] m IH]; csimpl; [set_solver|]. intros [Hm Hk]%wf_cons.
  assert (Hlt : forall y, y ∈ keys m -> cmp k' y = Lt) by (by apply Forall_forall).
  destruct (cmp k k') eqn:E; csimpl; rewrite ?elem_of_cons.
  - apply cmp_eq in E as ->. split; [|set_solver]. intros Hx. split; [by right|].
    intros ->. specialize (Hlt k' Hx). by rewrite cmp_refl in Hlt.
  - split; [|tauto]. intros Hx. split; [done|]. intros ->. destruct Hx as [->|Hx].
    + by rewrite cmp_refl in E.
    + pose proof (cmp_trans _ _ _ E (Hlt _ Hx)) as C. by rewrite cmp_refl in C.
  - rewrite IH by done. split; [|tauto]. intros [->|?]; [|tauto]. split; [by left|].
    intros ->. by rewrite cmp_refl in E.
Qed.

Lemma remove_wf k m : wf m -> wf (remove k m).
Proof.
  induction m as [|[k' v'] m IH]; simpl; [done|]. intros Hw. pose proof Hw as [Hm Hk]%wf_cons.
  destruct (cmp k k') eqn:E; [done..|]. apply wf_cons. split; [auto|].
  apply Forall_forall. intros x [Hx _]%elem_of_remove; [|done]. by eapply Forall_forall in Hk.
Qed.

Lemma get_insert k k' v m :
  wf m -> get k (insert k' v m) = if decide (k = k') then Some v else get k m.
Proof.
  induction m as [|[k1 v1] m IH]; simpl.
  { intros _. destruct (decide (k = k')) as [->|Hn]; [by rewrite cmp_refl|].
    destruct (cmp k k') eqn:E; try done. by apply cmp_eq in E. }
  intros [Hm Hk]%wf_cons. destruct (cmp k' k1) eqn:E; simpl.
  - apply cmp_eq in E as ->. destruct (decide (k = k1)) as [->|Hn]; [by rewrite cmp_refl|].
    destruct (cmp k k1) eqn:E; try done. by apply cmp_eq in E.
  - destruct (decide (k = k')) as [->|Hn]; [by rewrite cmp_refl|].
    destruct (cmp k k') eqn:E'; [by apply cmp_eq in E'| |done].
    by rewrite (cmp_trans _ _ _ E' E).
  - rewrite IH by done. destruct (decide (k = k')) as [->|]; [by rewrite E|done].
Qed.

Lemma get_elem k v m : wf m -> get k m = Some v <-> (k, v) ∈ m.
Proof.
  induction m as [|[k' v'] m IH]; simpl; [set_solver|]. intros [Hm Hk]%wf_cons. rewrite elem_of_cons.
  assert (Hlt : forall v, (k, v) ∈ m -> cmp k' k = Lt).
  { intros w Hw. eapply Forall_forall in Hk; [exact Hk|]. by apply (list_elem_of_fmap_2 fst) in Hw. }
  destruct (cmp k k') eqn:E.
  - apply cmp_eq in E as ->. split; [intros [= ->]; by left|].
    intros [[= ->]|Hin]; [done|]. apply Hlt in Hin. by rewrite cmp_refl in Hin.
  - split; [done|]. intros [[= -> ->]|Hin]; [by rewrite cmp_refl in E|].
    apply Hlt, cmp_gt in Hin. congruence.
  - rewrite IH by done. split; [by right|]. intros [[= -> ->]|]; [by rewrite cmp_refl in E|done].
Qed.

Lemma elem_of_keys k m : wf m -> k ∈ keys m <-> is_Some (get k m).
Proof.
  intros Hm. unfold keys. rewrite list_elem_of_fmap. split.
  - intros ([k' v] & -> & Hin). exists v. by apply get_elem.
  - intros [v Hv%get_elem]; [|done]. by exists (k, v).
Qed.

Lemma elem_of_values v m : wf m -> v ∈ values m <-> exists k, get k m = Some v.
Proof.
  intros Hm. unfold values. rewrite list_elem_of_fmap. split.
  - intros ([k v'] & -> & Hin). exists k. by apply get_elem.
  - intros [k Hk%get_elem]; [|done]. by exists (k, v).
Qed.

(** Two maps that agree on every key are equal. *)
Lemma get_ext m1 m2 : wf m1 -> wf m2 -> (forall k, get k m1 = get k m2) -> m1 = m2.
Proof.
  revert m2. induction m1 as [|[k1 v1] m1 IH]; intros [|[k2 v2] m2]; [done|..].
  - intros _ _ Hg. specialize (Hg k2). simpl in Hg. by rewrite cmp_refl in Hg.
  - intros _ _ Hg. specialize (Hg k1). simpl in Hg. by rewrite cmp_refl in Hg.
  - intros [H1 L1]%wf_cons [H2 L2]%wf_cons Hg.
    assert (cmp k1 k2 = Eq) as E.
    { pose proof (Hg k1) as G1. pose proof (Hg k2) as G2. simpl in G1, G2. rewrite !cmp_refl in G1, G2.
      rewrite (cmp_opp k1 k2) in G2. by destruct (cmp k1 k2). }
    apply cmp_eq in E as ->. pose proof (Hg k2) as G. simpl in G. rewrite cmp_refl in G. injection G as ->.
    f_equal. apply IH; [done..|]. intros k. specialize (Hg k). simpl in Hg.
    destruct (cmp k k2) eqn:E; [|by rewrite !get_below by (by eapply below_trans)|done].
    apply cmp_eq in E as ->. by rewrite !get_below.
Qed.

Lemma ascending_NoDup (l : list K) : ascending l -> NoDup l.
Proof.
  induction 1 as [|x l Hs IH Hx]; constructor; [|done]. intros Hin.
  eapply Forall_forall in Hx; [|exact Hin]. by rewrite cmp_refl in Hx.
Qed.
End Map.

(** Values replaced by what a function keeps of them. *)
Definition map_values {K V W} (f : V -> W) (m : BTreeMap K V) : BTreeMap K W :=
  (fun kv => (kv.1, f kv.2)) <$> m.

Lemma keys_map_values {K V W} (f : V -> W) (m : BTreeMap K V) : keys (map_values f m) = keys m.
Proof. unfold keys, map_values. by rewrite <- list_fmap_compose. Qed.

Lemma get_map_values {K V W} `{Ord K} (f : V -> W) (m : BTreeMap K V) k :
  get k (map_values f m) = f <$> get k m.
Proof. induction m as [|[k' v] m IH]; csimpl; [done|]. by destruct (cmp k k'). Qed.

(** Maps with the same keys list them alike. *)
Lemma keys_ext {K V} `{Ord K, EqDecision K} (m1 m2 : BTreeMap K V) :
  wf m1 -> wf m2 -> (forall k, k ∈ keys m1 <-> k ∈ keys m2) -> keys m1 = keys m2.
Proof.
  intros H1 H2 Hk. rewrite <- (keys_map_values (fun _ => tt) m1), <- (keys_map_values (fun _ => tt) m2).
  f_equal. apply get_ext; unfold wf; rewrite ?keys_map_values; [done..|]. intros k. specialize (Hk k).
  rewrite !elem_of_keys in Hk by done. rewrite !get_map_values.
  destruct (get k m1) as [v|], (get k m2) as [w|]; simpl; try done; exfalso.
  - destruct (proj1 Hk) as [? ?]; [by eexists|done].
  - destruct (proj2 Hk) as [? ?]; [by eexists|done].
Qed.

Lemma wf_map_values {K V W} `{Ord K} (f : V -> W) (m : BTreeMap K V) : wf m -> wf (map_values f m).
Proof. unfold wf. by rewrite keys_map_values. Qed.
End BTree.

(** [BTreeSet]: a map to [()]. *)
Abbreviation BTreeSet K := (BTreeMap K unit).
