(* ===== verification/HealthReport.v ===== *)
(** * HealthReport: health reports and how they are merged

    crates/health-report/src/lib.rs. A report lists the probes that succeeded
    and the alerts of those that failed; probes are told apart by identifier and
    target. Merging combines two reports probe by probe. A timestamp is a
    [DateTime], a call of [Utc::now()] an argument [now]. *)

From S2P Require Import Prelude Text Chrono BTree.
From Stdlib Require Import Ascii.

Module HealthReport.

(** ** Data *)

Abbreviation HealthProbeId := string (only parsing).
Abbreviation HealthAlertClassification := string (only parsing).

Record HealthProbeSuccess := {
  s_id : HealthProbeId;
  s_target : option string
}.

Record HealthProbeAlert := {
  id : HealthProbeId;
  target : option string;
  in_alert_since : option DateTime;
  message : string;
  tenant_message : option string;
  classifications : list HealthAlertClassification
}.

Record HealthReport := {
  source : string;
  triggered_by : option string;
  observed_at : option DateTime;
  successes : list HealthProbeSuccess;
  alerts : list HealthProbeAlert
}.

Inductive HealthReportApplyMode := Merge | Replace.

Inductive HealthReportConversionError :=
| TimestampParseError
| MissingSource
| MissingId
| MissingClassification.

Definition prevent_host_state_changes : HealthAlertClassification := "PreventHostStateChanges".
Definition prevent_allocations : HealthAlertClassification := "PreventAllocations".
Definition suppress_external_alerting : HealthAlertClassification := "SuppressExternalAlerting".
Definition stop_reboot_for_automatic_recovery_from_state_machine : HealthAlertClassification :=
  "StopRebootForAutomaticRecoveryFromStateMachine".

Definition DPU_AGENT_SOURCE : string := "forge-dpu-agent".
Definition SKU_VALIDATION_SOURCE : string := "sku-validation".
Definition QUARANTINE_SOURCE : string := "quarantine".
Definition REPAIR_REQUEST_MERGE_SOURCE : string := "repair-request".
Definition REQUEST_ONLINE_REPAIR_MERGE_SOURCE : string := "request-online-repair".

(** [FromStr] of identifiers and of classifications. *)
Definition parse_probe_id (s : string) : result HealthReportConversionError HealthProbeId :=
  if String.eqb s "" then Err MissingId else Ok s.
Definition parse_classification (s : string)
    : result HealthReportConversionError HealthAlertClassification :=
  if String.eqb s "" then Err MissingClassification else Ok s.

(** The probe an alert or a success is about. *)
Abbreviation probe := (string * option string)%type (only parsing).
Definition key (a : HealthProbeAlert) : probe := (id a, target a).
Definition s_key (s : HealthProbeSuccess) : probe := (s_id s, s_target s).

(** ** Well-known alerts and reports *)

Definition empty (now : DateTime) (source : string) : HealthReport :=
  {| source := source; triggered_by := None; observed_at := Some now; successes := []; alerts := [] |}.

Definition single (now : DateTime) (source : string) (a : HealthProbeAlert) : HealthReport :=
  {| source := source; triggered_by := None; observed_at := Some now; successes := []; alerts := [a] |}.

Definition alert_heartbeat_timeout (now : DateTime) (target message : string)
    (prevent suppress : bool) : HealthProbeAlert :=
  {| id := "HeartbeatTimeout"; target := Some target; in_alert_since := Some now;
     message := message; tenant_message := None;
     classifications :=
       (if prevent then [prevent_allocations] else []) ++ [prevent_host_state_changes] ++
       (if suppress then [suppress_external_alerting] else []) |}.
Definition heartbeat_timeout (now : DateTime) (source target message : string)
    (prevent suppress : bool) : HealthReport :=
  single now source (alert_heartbeat_timeout now target message prevent suppress).

Definition alert_stale_agent_version (now : DateTime) (dpu_id message : string) (prevent : bool)
    : HealthProbeAlert :=
  {| id := "StaleAgentVersion"; target := Some dpu_id; in_alert_since := Some now;
     message := message; tenant_message := None;
     classifications := if prevent then [prevent_allocations] else [] |}.
Definition stale_agent_version (now : DateTime) (source dpu_id message : string) (prevent : bool)
    : HealthReport :=
  single now source (alert_stale_agent_version now dpu_id message prevent).

Definition missing_report (now : DateTime) : HealthReport :=
  single now "MissingReport"
    {| id := "MissingReport"; target := None; in_alert_since := Some now;
       message := "A HealthReport is not available"; tenant_message := None; classifications := [] |}.

Definition malformed_report (now : DateTime) (error : string) : HealthReport :=
  single now "MalformedReport"
    {| id := "MalformedReport"; target := None; in_alert_since := Some now;
       message := "Health report can not be parsed: " +:+ error;
       tenant_message := None; classifications := [] |}.

Definition newline : string := String "010" "".

Definition sku_mismatch (now : DateTime) (mismatches : list string) : HealthReport :=
  single now SKU_VALIDATION_SOURCE
    {| id := "SkuValidation"; target := None; in_alert_since := Some now;
       message := String.concat newline mismatches;
       tenant_message := None; classifications := [prevent_allocations] |}.

Definition sku_missing (now : DateTime) (sku_id : string) : HealthReport :=
  single now SKU_VALIDATION_SOURCE
    {| id := "SkuValidation"; target := None; in_alert_since := Some now;
       message := "The assigned sku " +:+ sku_id +:+ " does not exist";
       tenant_message := None; classifications := [prevent_allocations] |}.

Definition quarantine_report (now : DateTime) (message : string) : HealthReport :=
  single now QUARANTINE_SOURCE
    {| id := "Quarantine"; target := None; in_alert_since := Some now; message := message;
       tenant_message := None; classifications := [prevent_allocations] |}.

(** ** Queries *)

Definition find_alert_by_classification (c : HealthAlertClassification) (r : HealthReport)
    : option HealthProbeAlert :=
  List.find (fun a => bool_decide (c ∈ classifications a)) (alerts r).
Definition has_classification (c : HealthAlertClassification) (r : HealthReport) : bool :=
  if find_alert_by_classification c r is Some _ then true else false.
Definition is_reboot_blocked_in_state_machine (r : HealthReport) : bool :=
  existsb (fun a => existsb
    (fun c => String.eqb c stop_reboot_for_automatic_recovery_from_state_machine) (classifications a))
    (alerts r).

(** ** Merging *)

(** The earlier of two timestamps, where one may be missing. *)
Definition earliest (x y : option DateTime) : option DateTime :=
  match x, y with
  | Some x, Some y => Some (Z.min x y)
  | Some x, None => Some x
  | None, y => y
  end.

Definition merge_classifications (c1 c2 : list HealthAlertClassification)
    : list HealthAlertClassification :=
  BTree.keys (fold_left (fun set c => BTree.insert c tt set) (c1 ++ c2) []).

(** [HealthProbeAlert::merge]. *)
Definition alert_merge (self other : HealthProbeAlert) : HealthProbeAlert :=
  {| id := id self;
     target := target self;
     in_alert_since := earliest (in_alert_since other) (in_alert_since self);
     message :=
       if String.eqb (message self) "" then message other
       else if negb (String.eqb (message other) "")
       then message self +:+ newline +:+ message other
       else message self;
     tenant_message :=
       match tenant_message self, tenant_message other with
       | Some m1, Some m2 => Some (m1 +:+ newline +:+ m2)
       | Some m1, None => Some m1
       | None, Some m2 => Some m2
       | None, None => None
       end;
     classifications := merge_classifications (classifications self) (classifications other) |}.

(** The two loops over the alerts. *)
Definition insert_alert (m : BTreeMap probe HealthProbeAlert) (a : HealthProbeAlert) :=
  BTree.insert (key a) a m.
Definition join_alert (m : BTreeMap probe HealthProbeAlert) (a : HealthProbeAlert) :=
  match BTree.get (key a) m with
  | None => BTree.insert (key a) a m
  | Some existing => BTree.insert (key a) (alert_merge existing a) m
  end.

Definition merged_alerts (self other : HealthReport) : BTreeMap probe HealthProbeAlert :=
  fold_left join_alert (alerts other) (fold_left insert_alert (alerts self) []).

(** An alert takes precedence over a success of the same probe. *)
Definition merged_successes (self other : HealthReport) : BTreeSet probe :=
  fold_left (fun set a => BTree.remove (key a) set) (alerts self ++ alerts other)
    (fold_left (fun set s => BTree.insert (s_key s) tt set) (successes self ++ successes other) []).

Definition merge (self other : HealthReport) : HealthReport :=
  {| source := source self;
     triggered_by := triggered_by self;
     observed_at := earliest (observed_at self) (observed_at other);
     successes := (fun k => {| s_id := k.1; s_target := k.2 |}) <$> BTree.keys (merged_successes self other);
     alerts := BTree.values (merged_alerts self other) |}.

(** ** Alert times *)

(** [update_in_alert_since]: the time of the previous report, or now. *)
Definition previous_in_alert_times (previous : option HealthReport) : gmap probe DateTime :=
  fold_left
    (fun times a => match in_alert_since a with Some t => <[ key a := t ]> times | None => times end)
    (match previous with Some p => alerts p | None => [] end) ∅.
Definition update_in_alert_since (now : DateTime) (previous : option HealthReport) (self : HealthReport)
    : HealthReport :=
  {| source := source self;
     triggered_by := triggered_by self;
     observed_at := observed_at self;
     successes := successes self;
     alerts :=
       (fun a => {| id := id a; target := target a;
                    in_alert_since := Some (default now (previous_in_alert_times previous !! key a));
                    message := message a; tenant_message := tenant_message a;
                    classifications := classifications a |}) <$> alerts self |}.

(** ** Hashing

    What is fed to the hasher: a length, or a value through its [Hash]. *)
Inductive hashed :=
| HashUsize (n : nat)
| HashString (s : string)
| HashOption (s : option string)
| HashSet (l : list string).

Definition hash_success (s : HealthProbeSuccess) : list hashed :=
  [HashString (s_id s); HashOption (s_target s)].
Definition hash_alert (a : HealthProbeAlert) : list hashed :=
  [HashString (id a); HashOption (target a); HashString (message a); HashOption (tenant_message a);
   HashSet (BTree.keys (fold_left (fun set c => BTree.insert c tt set) (classifications a) []))].

Definition hash_without_timestamps (r : HealthReport) : list hashed :=
  let successes := fold_left (fun m s => BTree.insert (s_key s) s m) (successes r) [] in
  let alerts := fold_left insert_alert (alerts r) [] in
  [HashUsize (length successes)] ++ concat (hash_success <$> BTree.values successes) ++
  [HashUsize (length alerts)] ++ concat (hash_alert <$> BTree.values alerts).

(** ** Maps built from lists *)

Lemma fold_keys_wf {K V A} `{Ord K, EqDecision K} (f : A -> K) (g : A -> V) (l : list A) m :
  BTree.wf m -> BTree.wf (fold_left (fun m a => BTree.insert (f a) (g a) m) l m).
Proof. revert m. induction l as [|a l IH]; intros m Hm; simpl; [done|]. by apply IH, BTree.insert_wf. Qed.

Lemma elem_of_fold_keys {K V A} `{Ord K, EqDecision K} (f : A -> K) (g : A -> V) (l : list A) m k :
  k ∈ BTree.keys (fold_left (fun m a => BTree.insert (f a) (g a) m) l m) <->
  k ∈ f <$> l \/ k ∈ BTree.keys m.
Proof.
  revert m. induction l as [|a l IH]; intros m; csimpl; [set_solver|].
  rewrite IH, BTree.elem_of_insert. set_solver.
Qed.

Section Folds.
Context {A : Type} (k_of : A -> probe).

(** The last element of a key stays in the map. *)
Lemma get_fold_insert (l : list A) m k :
  BTree.wf m ->
  BTree.get k (fold_left (fun m a => BTree.insert (k_of a) a m) l m) =
  match last (filter (fun a => k_of a = k) l) with Some a => Some a | None => BTree.get k m end.
Proof.
  revert m. induction l as [|a l IH]; intros m Hm; simpl; [done|].
  rewrite IH, BTree.get_insert by (done || by apply BTree.insert_wf). rewrite filter_cons.
  destruct (decide (k_of a = k)) as [->|Hn].
  - rewrite decide_True by done. rewrite last_cons.
    by destruct (last (filter (fun a => k_of a = k) l)).
  - rewrite decide_False by (intros ->; done). done.
Qed.
End Folds.

Lemma elem_of_fold_remove (l : list HealthProbeAlert) (m : BTreeSet probe) k :
  BTree.wf m ->
  BTree.wf (fold_left (fun set a => BTree.remove (key a) set) l m) /\
  (k ∈ BTree.keys (fold_left (fun set a => BTree.remove (key a) set) l m) <->
   k ∈ BTree.keys m /\ k ∉ key <$> l).
Proof.
  revert m. induction l as [|a l IH]; intros m Hm; csimpl; [set_solver|].
  destruct (IH (BTree.remove (key a) m)) as [Hw ->]; [by apply BTree.remove_wf|].
  rewrite BTree.elem_of_remove by done. set_solver.
Qed.

(** ** Merged alerts *)

Lemma earliest_comm x y : earliest x y = earliest y x.
Proof. destruct x, y; simpl; try done. by rewrite Z.min_comm. Qed.
Lemma earliest_assoc x y z : earliest x (earliest y z) = earliest (earliest x y) z.
Proof. destruct x, y, z; simpl; try done. by rewrite Z.min_assoc. Qed.

Lemma elem_of_merge_classifications c c1 c2 :
  c ∈ merge_classifications c1 c2 <-> c ∈ c1 \/ c ∈ c2.
Proof.
  unfold merge_classifications. rewrite (elem_of_fold_keys (fun c => c) (fun _ => tt)), list_fmap_id. set_solver.
Qed.

Lemma join_alert_wf m a : BTree.wf m -> BTree.wf (join_alert m a).
Proof. intros. unfold join_alert. case_match; by apply BTree.insert_wf. Qed.

Lemma fold_join_wf l m : BTree.wf m -> BTree.wf (fold_left join_alert l m).
Proof. revert m. induction l as [|a l IH]; intros m Hm; simpl; [done|]. by apply IH, join_alert_wf. Qed.

(** The alerts of one probe, joined from left to right. *)
Definition join_all (acc : option HealthProbeAlert) (l : list HealthProbeAlert)
    : option HealthProbeAlert :=
  fold_left (fun acc a => Some (match acc with Some e => alert_merge e a | None => a end)) l acc.

Lemma get_fold_join l m k :
  BTree.wf m ->
  BTree.get k (fold_left join_alert l m) = join_all (BTree.get k m) (filter (fun a => key a = k) l).
Proof.
  revert m. induction l as [|a l IH]; intros m Hm; simpl; [done|].
  rewrite IH by (by apply join_alert_wf). rewrite filter_cons. unfold join_alert.
  destruct (decide (key a = k)) as [<-|Hn].
  - destruct (BTree.get (key a) m) eqn:E; rewrite BTree.get_insert, decide_True by done; done.
  - destruct (BTree.get (key a) m) eqn:E; rewrite BTree.get_insert, decide_False by (done || intros ->; done); done.
Qed.

(** The alerts of a probe in a report. *)
Definition alerts_at (k : probe) (r : HealthReport) : list HealthProbeAlert :=
  filter (fun a => key a = k) (alerts r).

Definition unique_probes (r : HealthReport) : Prop := NoDup (key <$> alerts r).

Lemma elem_of_alerts_at a k r : a ∈ alerts_at k r <-> a ∈ alerts r /\ key a = k.
Proof. unfold alerts_at. rewrite list_elem_of_filter. naive_solver. Qed.

Lemma unique_alerts_at k r :
  unique_probes r -> alerts_at k r = option_list (last (alerts_at k r)).
Proof.
  unfold unique_probes, alerts_at. induction (alerts r) as [|a l IH]; csimpl; [done|].
  intros [Hn Hd]%NoDup_cons. rewrite filter_cons. destruct (decide (key a = k)) as [<-|]; [|auto].
  replace (filter (fun a' => key a' = key a) l) with (@nil HealthProbeAlert); [done|].
  symmetry. apply elem_of_nil_inv. intros b [Hb Hin]%list_elem_of_filter.
  apply Hn. rewrite <- Hb. by apply list_elem_of_fmap_2.
Qed.

Lemma merged_alerts_wf r o : BTree.wf (merged_alerts r o).
Proof. apply fold_join_wf. apply fold_keys_wf, BTree.wf_nil. Qed.

(** What a merge leaves of one probe: everything the two reports say about it. *)
Lemma get_merged_alerts r o k :
  unique_probes r ->
  BTree.get k (merged_alerts r o) = join_all None (alerts_at k r ++ alerts_at k o).
Proof.
  intros Hu. unfold merged_alerts. rewrite get_fold_join by (apply fold_keys_wf, BTree.wf_nil).
  unfold insert_alert. rewrite (get_fold_insert key) by apply BTree.wf_nil.
  unfold join_all. rewrite fold_left_app. f_equal.
  fold (alerts_at k r). pose proof (unique_alerts_at k r Hu) as E.
  by destruct (last (alerts_at k r)); rewrite E.
Qed.

Lemma join_all_key l k : Forall (fun a => key a = k) l ->
  forall acc a, (forall e, acc = Some e -> key e = k) -> join_all acc l = Some a -> key a = k.
Proof.
  induction 1 as [|b l Hb Hl IH]; intros acc a Hacc; simpl; [auto|].
  apply IH. intros e [= <-]. destruct acc as [e|]; [|done]. by apply (Hacc e).
Qed.

Lemma alerts_at_key k r : Forall (fun a => key a = k) (alerts_at k r).
Proof. apply Forall_forall. intros a Ha. by apply elem_of_alerts_at in Ha as [_ ?]. Qed.

Lemma join_all_Some acc l :
  is_Some (join_all acc l) <-> is_Some acc \/ l <> [].
Proof.
  revert acc. induction l as [|a l IH]; intros acc; simpl; [naive_solver|].
  change (is_Some (join_all (Some (match acc with Some e => alert_merge e a | None => a end)) l) <->
    is_Some acc \/ a :: l <> []). rewrite IH. split; [by right|]. left. by eexists.
Qed.

Lemma join_all_snoc l b :
  join_all None (l ++ [b]) =
  Some (match join_all None l with Some e => alert_merge e b | None => b end).
Proof. unfold join_all. by rewrite fold_left_app. Qed.

Definition oldest (l : list (option DateTime)) : option DateTime := foldr earliest None l.

Lemma oldest_snoc l x : oldest (l ++ [x]) = earliest (oldest l) x.
Proof.
  induction l as [|y l IH]; simpl; [by destruct x|]. by rewrite IH, earliest_assoc.
Qed.

(** Texts joined by line breaks, without the empty ones. *)
Definition lines (l : list string) : string := String.concat newline (filter (fun s => s <> "") l).

Lemma concat_snoc sep l x :
  String.concat sep (l ++ [x]) = if l is [] then x else String.concat sep l +:+ sep +:+ x.
Proof.
  induction l as [|y l IH]; [done|]. cbn [app String.concat]. rewrite IH.
  destruct l as [|z l]; [done|]. cbn [app]. by rewrite !string_app_assoc.
Qed.

Lemma concat_empty sep l : Forall (fun s => s <> "") l -> String.concat sep l = "" -> l = [].
Proof.
  destruct l as [|x l]; [done|]. intros [Hx _]%Forall_cons. destruct x as [|c x]; [done|]. by destruct l.
Qed.

Lemma lines_snoc l x :
  lines (l ++ [x]) =
  if String.eqb (lines l) "" then x else if String.eqb x "" then lines l else lines l +:+ newline +:+ x.
Proof.
  unfold lines. rewrite filter_app, filter_cons, filter_nil.
  assert (Hf : Forall (fun s => s <> "") (filter (fun s => s <> "") l)).
  { apply Forall_forall. by intros s [? _]%list_elem_of_filter. }
  destruct (String.eqb_spec (String.concat newline (filter (fun s => s <> "") l)) "") as [E|E].
  - apply concat_empty in E as ->; [|done].
    destruct (decide (x <> "")) as [|Hx]; [done|]. by apply dec_stable in Hx as ->.
  - destruct (String.eqb_spec x "") as [->|Hx].
    + by rewrite decide_False, app_nil_r by (intros []; done).
    + rewrite decide_True, concat_snoc by done. by destruct (filter _ l).
Qed.

(** What joining the alerts of one probe gives. *)
Lemma join_all_spec l a :
  join_all None l = Some a ->
  in_alert_since a = oldest (in_alert_since <$> l) /\
  message a = lines (message <$> l) /\
  forall c, c ∈ classifications a <-> exists b, b ∈ l /\ c ∈ classifications b.
Proof.
  revert a. induction l as [|b l IH] using rev_ind; [done|]. intros a. rewrite join_all_snoc.
  intros [= <-]. rewrite !fmap_app. csimpl. rewrite oldest_snoc, lines_snoc.
  destruct (join_all None l) as [e|] eqn:E.
  - destruct (IH e eq_refl) as (<- & <- & Hc). simpl. split_and!.
    + apply earliest_comm.
    + destruct (String.eqb (message e) ""); [done|]. by destruct (String.eqb (message b) "").
    + intros c. rewrite elem_of_merge_classifications, Hc. set_solver.
  - destruct l as [|b' l]; [simpl; split_and!; [by destruct (in_alert_since b)|done|set_solver]|].
    assert (is_Some (join_all None (b' :: l))) as [? ?] by (apply join_all_Some; by right). congruence.
Qed.

(** ** Merged reports *)

(** Probes are listed in order and once, and an alert excludes a success. *)
Definition canonical (r : HealthReport) : Prop :=
  BTree.ascending (key <$> alerts r) /\ BTree.ascending (s_key <$> successes r) /\
  forall k, k ∈ key <$> alerts r -> k ∉ s_key <$> successes r.

Lemma get_merged_key r o k a : BTree.get k (merged_alerts r o) = Some a -> key a = k.
Proof.
  unfold merged_alerts. rewrite get_fold_join by (apply fold_keys_wf, BTree.wf_nil).
  apply (join_all_key _ k (alerts_at_key k o)). intros e. unfold insert_alert.
  rewrite (get_fold_insert key) by apply BTree.wf_nil. case_match eqn:E; [|done]. intros [= <-].
  apply last_Some_elem_of in E. by apply list_elem_of_filter in E as [? _].
Qed.

Lemma elem_of_merge r o a :
  unique_probes r ->
  a ∈ alerts (merge r o) <-> join_all None (alerts_at (key a) r ++ alerts_at (key a) o) = Some a.
Proof.
  intros Hu. simpl. rewrite BTree.elem_of_values by apply merged_alerts_wf.
  split.
  - intros [k Hk]. rewrite (get_merged_key _ _ _ _ Hk). by rewrite <- get_merged_alerts.
  - intros Ha. exists (key a). by rewrite get_merged_alerts.
Qed.

Lemma merge_keys r o : key <$> alerts (merge r o) = BTree.keys (merged_alerts r o).
Proof.
  simpl. unfold BTree.values, BTree.keys. rewrite <- list_fmap_compose. apply list_fmap_ext.
  intros i [k a] Hi%list_elem_of_lookup_2. simpl. apply get_merged_key with r o.
  apply BTree.get_elem; [apply merged_alerts_wf|done].
Qed.

Lemma merged_successes_spec r o k :
  BTree.wf (merged_successes r o) /\
  (k ∈ BTree.keys (merged_successes r o) <->
   (k ∈ s_key <$> successes r \/ k ∈ s_key <$> successes o) /\
   k ∉ key <$> alerts r /\ k ∉ key <$> alerts o).
Proof.
  unfold merged_successes.
  destruct (elem_of_fold_remove (alerts r ++ alerts o)
    (fold_left (fun set s => BTree.insert (s_key s) tt set) (successes r ++ successes o) []) k) as [Hw ->].
  { apply fold_keys_wf, BTree.wf_nil. }
  split; [done|]. rewrite (elem_of_fold_keys s_key (fun _ => tt)), !fmap_app. set_solver.
Qed.

Lemma merge_success_keys r o : s_key <$> successes (merge r o) = BTree.keys (merged_successes r o).
Proof.
  simpl. rewrite <- list_fmap_compose. rewrite <- (list_fmap_id (BTree.keys _)) at 2.
  apply list_fmap_ext. by intros i [? ?] _.
Qed.

Lemma elem_of_merge_keys r o k :
  k ∈ key <$> alerts (merge r o) <-> k ∈ key <$> alerts r \/ k ∈ key <$> alerts o.
Proof.
  rewrite merge_keys, BTree.elem_of_keys by apply merged_alerts_wf. unfold merged_alerts.
  rewrite get_fold_join by (apply fold_keys_wf, BTree.wf_nil). rewrite join_all_Some.
  unfold insert_alert. rewrite (get_fold_insert key) by apply BTree.wf_nil. simpl.
  assert (Hne : forall l, filter (fun a => key a = k) l <> [] <-> k ∈ key <$> l).
  { intros l. rewrite list_elem_of_fmap. split.
    - intros Hl. destruct (filter _ l) as [|a l'] eqn:E; [done|]. exists a.
      assert (Ha : a ∈ filter (fun a => key a = k) l) by (rewrite E; by left).
      apply list_elem_of_filter in Ha. naive_solver.
    - intros (a & -> & Ha). assert (Hf : a ∈ filter (fun b => key b = key a) l) by (by apply list_elem_of_filter).
      intros E. rewrite E in Hf. by apply elem_of_nil in Hf. }
  rewrite Hne, <- (Hne (alerts r)).
  destruct (filter _ (alerts r)) as [|a l] using rev_ind; [naive_solver|]. rewrite last_snoc.
  split; [|naive_solver]. intros [_|?]; [left|by right]. by destruct l.
Qed.

Lemma merge_canonical r o : canonical (merge r o).
Proof.
  split_and!.
  - rewrite merge_keys. apply merged_alerts_wf.
  - rewrite merge_success_keys. by destruct (merged_successes_spec r o ("", None)).
  - intros k [Hk|Hk]%elem_of_merge_keys; rewrite merge_success_keys;
      destruct (merged_successes_spec r o k) as [_ ->]; tauto.
Qed.

Lemma canonical_unique r : canonical r -> unique_probes r.
Proof. intros [Ha _]. by apply BTree.ascending_NoDup. Qed.

(** C25: merging a report into one that lists no probe twice lists every probe once
    and in order, gives each probe of either report its alert, and lets an alert
    exclude a success. The alert of a probe carries the union of the
    classifications, the oldest alert time and the non-empty messages, in order,
    of all alerts of the probe in the two reports. *)
Theorem merge_spec self other :
  unique_probes self ->
  let r := merge self other in
  canonical r /\
  (forall k, k ∈ key <$> alerts r <-> k ∈ key <$> alerts self \/ k ∈ key <$> alerts other) /\
  (forall k, k ∈ s_key <$> successes r <->
     (k ∈ s_key <$> successes self \/ k ∈ s_key <$> successes other) /\ k ∉ key <$> alerts r) /\
  (forall a, a ∈ alerts r ->
     let of_probe := alerts_at (key a) self ++ alerts_at (key a) other in
     in_alert_since a = oldest (in_alert_since <$> of_probe) /\
     message a = lines (message <$> of_probe) /\
     forall c, c ∈ classifications a <-> exists b, b ∈ of_probe /\ c ∈ classifications b).
Proof.
  intros Hu r. split_and!.
  - apply merge_canonical.
  - apply elem_of_merge_keys.
  - intros k. unfold r. rewrite elem_of_merge_keys, merge_success_keys.
    destruct (merged_successes_spec self other k) as [_ ->]. tauto.
  - intros a Ha. apply elem_of_merge in Ha; [|done]. by apply join_all_spec.
Qed.

(** ** Classifications of merged reports *)

Lemma has_classification_iff c r :
  has_classification c r = true <-> exists a, a ∈ alerts r /\ c ∈ classifications a.
Proof.
  unfold has_classification, find_alert_by_classification.
  destruct (List.find _ (alerts r)) as [a|] eqn:E.
  - apply find_some in E as [Hin%list_elem_of_In Hc%bool_decide_eq_true_1]. naive_solver.
  - split; [done|]. intros (a & Ha%list_elem_of_In & Hc). pose proof (find_none _ _ E a Ha) as Hn.
    simpl in Hn. by rewrite bool_decide_eq_true_2 in Hn.
Qed.

Lemma has_classification_merge c r o :
  unique_probes r ->
  has_classification c (merge r o) = has_classification c r || has_classification c o.
Proof.
  intros Hu. apply eq_true_iff_eq. rewrite orb_true_iff, !has_classification_iff. split.
  - intros (a & Ha & Hc). apply elem_of_merge in Ha; [|done].
    apply join_all_spec in Ha as (_ & _ & Hcl). apply Hcl in Hc as (b & Hb & Hc).
    apply elem_of_app in Hb as [[Hb _]%elem_of_alerts_at|[Hb _]%elem_of_alerts_at]; eauto.
  - intros Hb. assert (exists b, b ∈ alerts_at (key b) r ++ alerts_at (key b) o /\ c ∈ classifications b)
      as (b & Hin & Hc).
    { destruct Hb as [(b & Hin & Hc)|(b & Hin & Hc)]; exists b; (split; [|done]); apply elem_of_app;
        [left|right]; by apply elem_of_alerts_at. }
    destruct (join_all None (alerts_at (key b) r ++ alerts_at (key b) o)) as [a|] eqn:E.
    + assert (key a = key b) as Hk.
      { apply get_merged_key with r o. by rewrite get_merged_alerts. }
      exists a. split; [apply elem_of_merge; [done|by rewrite Hk]|].
      apply join_all_spec in E as (_ & _ & Hcl). apply Hcl. eauto.
    + exfalso. assert (is_Some (join_all None (alerts_at (key b) r ++ alerts_at (key b) o))) as [? ?].
      { apply join_all_Some. right. by intros Hn; rewrite Hn in Hin; apply elem_of_nil in Hin. }
      congruence.
Qed.

Lemma empty_unique now s : unique_probes (empty now s).
Proof. constructor. Qed.

Lemma merge_unique r o : unique_probes (merge r o).
Proof. apply canonical_unique, merge_canonical. Qed.
#[export] Hint Resolve empty_unique merge_unique : nico.

Lemma has_classification_single c now s a :
  has_classification c (single now s a) = bool_decide (c ∈ classifications a).
Proof. unfold has_classification, find_alert_by_classification. simpl. by case_bool_decide. Qed.

(** ** Hashes *)

(** What the hash of a report tells about an alert, besides its probe. *)
Definition content (a : HealthProbeAlert) : string * option string * list string :=
  (message a, tenant_message a, merge_classifications (classifications a) []).

Definition hash_content (kc : probe * (string * option string * list string)) : list hashed :=
  let '((i, t), (m, tm, cs)) := kc in
  [HashString i; HashOption t; HashString m; HashOption tm; HashSet cs].
Definition hash_probe (k : probe) : list hashed := [HashString k.1; HashOption k.2].

Definition last_alerts (r : HealthReport) : BTreeMap probe HealthProbeAlert :=
  fold_left insert_alert (alerts r) [].
Definition success_map (r : HealthReport) : BTreeMap probe HealthProbeSuccess :=
  fold_left (fun m s => BTree.insert (s_key s) s m) (successes r) [].

Lemma fold_insert_keyed {A} (k_of : A -> probe) (l : list A) ka :
  ka ∈ fold_left (fun m a => BTree.insert (k_of a) a m) l [] -> k_of ka.2 = ka.1.
Proof.
  destruct ka as [k a]. intros Hin. apply BTree.get_elem in Hin; [|apply fold_keys_wf, BTree.wf_nil].
  rewrite get_fold_insert in Hin by apply BTree.wf_nil. simpl in *. case_match eqn:E; [|done].
  injection Hin as ->. apply last_Some_elem_of in E. by apply list_elem_of_filter in E as [? _].
Qed.

Lemma hash_without_timestamps_unfold r :
  hash_without_timestamps r =
  [HashUsize (length (BTree.keys (success_map r)))] ++ concat (hash_probe <$> BTree.keys (success_map r)) ++
  [HashUsize (length (BTree.map_values content (last_alerts r)))] ++
  concat (hash_content <$> BTree.map_values content (last_alerts r)).
Proof.
  unfold hash_without_timestamps. fold (success_map r) (last_alerts r).
  unfold BTree.keys, BTree.map_values, BTree.values. rewrite !length_fmap, <- !list_fmap_compose.
  assert (hash_success ∘ snd <$> success_map r = hash_probe ∘ fst <$> success_map r) as ->.
  { apply list_fmap_ext. intros i [k v] Hi%list_elem_of_lookup_2.
    apply (fold_insert_keyed s_key) in Hi. simpl in *. by subst k. }
  assert (hash_alert ∘ snd <$> last_alerts r =
    hash_content ∘ (fun kv => (kv.1, content kv.2)) <$> last_alerts r) as ->; [|done].
  apply list_fmap_ext. intros i [k v] Hi%list_elem_of_lookup_2.
  apply (fold_insert_keyed key) in Hi. simpl in *. subst k. unfold hash_alert, merge_classifications.
  by rewrite app_nil_r.
Qed.

Lemma hash_streams_inj (s1 s2 : list probe) a1 a2 :
  [HashUsize (length s1)] ++ concat (hash_probe <$> s1) ++
    [HashUsize (length a1)] ++ concat (hash_content <$> a1) =
  [HashUsize (length s2)] ++ concat (hash_probe <$> s2) ++
    [HashUsize (length a2)] ++ concat (hash_content <$> a2) ->
  s1 = s2 /\ a1 = a2.
Proof.
  intros [= Hs E].
  assert (Hl : forall s : list probe, length (concat (hash_probe <$> s)) = (2 * length s)%nat).
  { induction s as [|k s IH]; csimpl; [done|]. rewrite IH. lia. }
  apply app_inj_1 in E as [E1 E2]; [|by rewrite !Hl, Hs]. injection E2 as Ha E2.
  apply (concat_blocks_inj hash_probe hash_probe 2) in E1; [|done..].
  apply (concat_blocks_inj hash_content hash_content 5) in E2; [|by intros [[] [[] ?]]..|done].
  split.
  - revert E1. apply list_fmap_eq_inj. by intros [] [] [= -> ->].
  - revert E2. apply list_fmap_eq_inj. by intros [[] [[] ?]] [[] [[] ?]] [= -> -> -> -> ->].
Qed.

(** Two reports feed the hasher the same values exactly when they list the same
    successful probes and, for every probe, their last alerts agree in message,
    tenant message and set of classifications: neither the times nor the order of
    the report matter. *)
Theorem hash_without_timestamps_exact r1 r2 :
  hash_without_timestamps r1 = hash_without_timestamps r2 <->
  (forall k, k ∈ s_key <$> successes r1 <-> k ∈ s_key <$> successes r2) /\
  (forall k, content <$> last (alerts_at k r1) = content <$> last (alerts_at k r2)).
Proof.
  assert (Hs : forall r k, k ∈ BTree.keys (success_map r) <-> k ∈ s_key <$> successes r).
  { intros r k. unfold success_map. rewrite (elem_of_fold_keys s_key (fun s => s)). set_solver. }
  assert (Ha : forall r k, BTree.get k (BTree.map_values content (last_alerts r)) =
    content <$> last (alerts_at k r)).
  { intros r k. rewrite BTree.get_map_values. f_equal. unfold last_alerts, insert_alert.
    rewrite (get_fold_insert key) by apply BTree.wf_nil. by destruct (last _). }
  rewrite !hash_without_timestamps_unfold. split.
  - intros [E1 E2]%hash_streams_inj. split; intros k; [by rewrite <- !Hs, E1|by rewrite <- !Ha, E2].
  - intros [E1 E2].
    assert (BTree.map_values content (last_alerts r1) = BTree.map_values content (last_alerts r2)) as ->.
    { apply BTree.get_ext; try apply BTree.wf_map_values, fold_keys_wf, BTree.wf_nil.
      intros k. by rewrite !Ha. }
    assert (BTree.keys (success_map r1) = BTree.keys (success_map r2)) as ->; [|done].
    apply BTree.keys_ext; try apply fold_keys_wf, BTree.wf_nil. intros k. by rewrite !Hs.
Qed.

(** ** Alert times *)

Lemma previous_times_lookup (l : list HealthProbeAlert) (m : gmap probe DateTime) k t :
  (forall a, a ∈ l -> key a = k -> in_alert_since a = Some t) ->
  fold_left (fun times a => match in_alert_since a with Some t => <[ key a := t ]> times | None => times end)
    l m !! k = if decide (k ∈ key <$> l) then Some t else m !! k.
Proof.
  revert m. induction l as [|a l IH]; intros m Hl; cbn [fold_left]; [done|].
  rewrite IH by (intros; apply Hl; [by right|done]).
  destruct (decide (key a = k)) as [<-|Hn].
  - rewrite (Hl a) by (done || by left). rewrite lookup_insert_eq.
    rewrite (decide_True (P := key a ∈ key <$> a :: l)) by (csimpl; by left). by case_decide.
  - assert (Hm : match in_alert_since a with Some t => <[ key a := t ]> m | None => m end !! k = m !! k).
    { destruct (in_alert_since a); [by rewrite lookup_insert_ne|done]. }
    rewrite Hm. destruct (decide (k ∈ key <$> l)), (decide (k ∈ key <$> a :: l)) as [Hd|Hd]; csimpl in Hd; set_solver.
Qed.

(** The reports of one source, stored one after the other. *)
Definition store_reports (stored : option HealthReport) (reports : list (DateTime * HealthReport))
    : option HealthReport :=
  fold_left (fun stored nr => Some (update_in_alert_since nr.1 stored nr.2)) reports stored.

Definition raises (k : probe) (r : HealthReport) : Prop := k ∈ key <$> alerts r.

Lemma update_keys now p r : key <$> alerts (update_in_alert_since now p r) = key <$> alerts r.
Proof. simpl. by rewrite <- list_fmap_compose. Qed.

(** An alert that a source raises in every report, from the first report that has
    it on, keeps the time of that first report. *)
Theorem alert_time_retained k now first stored later :
  (forall p, stored = Some p -> ~ raises k p) ->
  raises k first -> Forall (fun nr => raises k nr.2) later ->
  exists r, store_reports stored ((now, first) :: later) = Some r /\ raises k r /\
    forall a, a ∈ alerts r -> key a = k -> in_alert_since a = Some now.
Proof.
  intros Hs Hf Hl. cbn [store_reports fold_left fst snd].
  assert (Hr : let r := update_in_alert_since now stored first in raises k r /\
    forall a, a ∈ alerts r -> key a = k -> in_alert_since a = Some now).
  { split; [unfold raises; by rewrite update_keys|]. simpl. intros a (b & -> & Hb)%list_elem_of_fmap Hk. simpl.
    assert (Hkb : key b = k) by exact Hk. clear Hk. rename Hkb into Hk. unfold previous_in_alert_times.
    rewrite (previous_times_lookup _ ∅ (key b) now).
    - rewrite decide_False; [done|]. destruct stored as [p|]; [|by intros ?%elem_of_nil].
      rewrite Hk. by apply Hs.
    - intros c Hc Hck. destruct stored as [p|]; [|by apply elem_of_nil in Hc].
      destruct (Hs p eq_refl). unfold raises. rewrite <- Hk, <- Hck. by apply list_elem_of_fmap_2. }
  revert Hr. generalize (update_in_alert_since now stored first). clear Hs Hf.
  induction Hl as [|[now' r'] later Hk Hl IH]; intros r [Hr Ha]; [by exists r|]. cbn [fold_left fst snd] in *.
  apply IH. split; [unfold raises; by rewrite update_keys|].
  simpl. intros a (b & -> & Hb)%list_elem_of_fmap Hk'. simpl. unfold previous_in_alert_times.
  assert (Hkb : key b = k) by exact Hk'. subst k.
  by rewrite (previous_times_lookup _ ∅ (key b) now), decide_True.
Qed.
End HealthReport.

Module HealthReportExample.
Import HealthReport.

Definition fan (n : string) (t : Z) (msg : string) (cs : list string) : HealthProbeAlert :=
  {| id := "Fan"; target := Some n; in_alert_since := Some t; message := msg;
     tenant_message := None; classifications := cs |}.
Definition report (l : list HealthProbeAlert) (ok : list HealthProbeSuccess) : HealthReport :=
  {| source := "test"; triggered_by := None; observed_at := Some 5; successes := ok; alerts := l |}.
Definition host : HealthReport := report [fan "2" 7 "slow" ["Hardware"]] [{| s_id := "Bgp"; s_target := None |}].
Definition dpu : HealthReport :=
  report [fan "1" 3 "" [prevent_allocations]; fan "2" 2 "stopped" [prevent_allocations]] [].

Lemma merge_spec_witness :
  unique_probes host /\
  alerts (merge host dpu) =
    [fan "1" 3 "" [prevent_allocations];
     fan "2" 2 ("slow" +:+ newline +:+ "stopped") ["Hardware"; prevent_allocations]] /\
  canonical (merge host dpu).
Proof.
  assert (Hu : unique_probes host) by (apply NoDup_singleton).
  split; [exact Hu|]. split; [vm_compute; reflexivity|]. exact (proj1 (merge_spec host dpu Hu)).
Defined.

(** Merging into a report that lists a probe twice keeps only its last alert. *)
Example repeated_probe_is_dropped :
  has_classification prevent_allocations
    (report [fan "1" 3 "" [prevent_allocations]; fan "1" 4 "" []] []) = true /\
  has_classification prevent_allocations
    (merge (report [fan "1" 3 "" [prevent_allocations]; fan "1" 4 "" []] []) host) = false.
Proof. vm_compute. split; reflexivity. Qed.

Lemma alert_time_retained_witness :
  exists r, store_reports None [(10, host); (20, dpu); (30, host)] = Some r /\
    raises ("Fan", Some "2") r /\
    forall a, a ∈ alerts r -> key a = ("Fan", Some "2") -> in_alert_since a = Some 10.
Proof.
  apply (alert_time_retained ("Fan", Some "2") 10 host None [(20, dpu); (30, host)]).
  - intros p [=].
  - apply (bool_decide_unpack (("Fan", Some "2") ∈ key <$> alerts host)). vm_compute. exact I.
  - repeat apply Forall_cons_2; [..|apply Forall_nil_2];
      [apply (bool_decide_unpack (("Fan", Some "2") ∈ key <$> alerts dpu))
      |apply (bool_decide_unpack (("Fan", Some "2") ∈ key <$> alerts host))]; vm_compute; exact I.
Defined.
End HealthReportExample.
