(* ===== verification/AggregateHealth.v ===== *)
(** * AggregateHealth: the health that decides whether a host can be used

    crates/api-model/src/health.rs (the externally managed reports of an
    object), machine/health_override.rs, machine/network.rs
    ([expired_version_health_report]) and machine/mod.rs
    ([derive_aggregate_health], [is_usable_as_instance]); the aggregates of
    racks, switches and power shelves of rack.rs, switch/mod.rs and
    power_shelf/mod.rs. The snapshots keep the fields these functions read. The
    clock is an argument: one derivation reads it at one instant. *)

From S2P Require Import Prelude Text Chrono ConfigVersion BTree HealthReport.

Module AggregateHealth.
Import HealthReport.
#[local] Existing Instance ConfigVersion.t_eq_dec.

(** ** Reports of an object *)

Record HealthReportSources := {
  replace : option HealthReport;
  merges : BTreeMap string HealthReport
}.

Definition repair_merge_active (s : HealthReportSources) : bool :=
  bool_decide (is_Some (BTree.get REPAIR_REQUEST_MERGE_SOURCE (merges s))) ||
  bool_decide (is_Some (BTree.get REQUEST_ONLINE_REPAIR_MERGE_SOURCE (merges s))).

Definition by_source (name : string) (s : HealthReportSources) : option HealthReport :=
  match replace s with
  | Some r => if String.eqb (source r) name then Some r else BTree.get name (merges s)
  | None => BTree.get name (merges s)
  end.

Definition iter (s : HealthReportSources) : list (HealthReport * HealthReportApplyMode) :=
  ((fun r => (r, Merge)) <$> BTree.values (merges s)) ++
  option_list ((fun r => (r, Replace)) <$> replace s).

Definition HARDWARE_HEALTH_OVERRIDE_PREFIX : string := "hardware-health.".
Definition is_hardware_health_override_source (name : string) : bool :=
  String.prefix HARDWARE_HEALTH_OVERRIDE_PREFIX name.

Record MaintenanceOverride := {
  maintenance_reference : string;
  maintenance_start_time : option DateTime
}.
Definition maintenance_override (s : HealthReportSources) : option MaintenanceOverride :=
  ovr ← BTree.get "maintenance" (merges s);
  alert ← List.find (fun a => String.eqb (id a) "Maintenance") (alerts ovr);
  Some {| maintenance_reference := message alert; maintenance_start_time := in_alert_since alert |}.

(** [derive_rack_aggregate_health], [derive_switch_aggregate_health] and
    [derive_power_shelf_aggregate_health] differ in the name of the result. *)
Definition derive_object_aggregate_health (now : DateTime) (name : string) (s : HealthReportSources)
    : HealthReport :=
  match replace s with
  | Some r => r
  | None =>
      let output := fold_left merge (BTree.values (merges s)) (empty now name) in
      {| source := source output; triggered_by := triggered_by output; observed_at := Some now;
         successes := successes output; alerts := alerts output |}
  end.
Definition derive_rack_aggregate_health (now : DateTime) : HealthReportSources -> HealthReport :=
  derive_object_aggregate_health now "rack-aggregate-health".
Definition derive_switch_aggregate_health (now : DateTime) : HealthReportSources -> HealthReport :=
  derive_object_aggregate_health now "switch-aggregate-health".
Definition derive_power_shelf_aggregate_health (now : DateTime) : HealthReportSources -> HealthReport :=
  derive_object_aggregate_health now "power-shelf-aggregate-health".

(** ** Snapshots of a managed host *)

(** The states of a managed host, without their details. *)
Inductive ManagedHostState :=
| DpuDiscoveringState | DPUInit | HostInit | Validation | Ready | Decommissioning | Reset
| BootConfiguring | Maintenance | Assigned | WaitingForCleanup | ForceDeletion | Created
| ConfigureAstra | Failed | DPUReprovision | HostReprovision | RotatingBmc | RotatingHostUefi
| RotatingDpuUefi | RotatingNicLockdown | Measuring | PostAssignedMeasuring
| PreAssignedMeasuring | StartAssignmentCycle | BomValidating.

Definition suppress_dpu_alerts (s : ManagedHostState) : bool :=
  match s with
  | DpuDiscoveringState | DPUInit | DPUReprovision => true
  | _ => false
  end.

Inductive HardwareHealthReportsConfig := Disabled | MonitorOnly | Enabled.

Record HostHealthConfig := {
  hardware_health_reports : HardwareHealthReportsConfig;
  dpu_agent_version_staleness_threshold : TimeDelta;
  prevent_allocations_on_stale_dpu_agent_version : bool
}.

Record MachineNetworkStatusObservation := {
  machine_id : string;
  agent_version : option string;
  agent_version_superseded_at : option DateTime
}.

Record DpuMachine := {
  dpu_health_reports : HealthReportSources;
  network_status_observation : option MachineNetworkStatusObservation
}.

Record HostMachine := {
  health_reports : HealthReportSources;
  machine_maintenance_requested : bool;
  desired_boot_interface_version : option ConfigVersion.t;
  observed_boot_interface_version : option ConfigVersion.t;
  (** of the interfaces with an attached DPU *)
  associated_dpu_machine_ids : list string
}.

Record ManagedHostStateSnapshot := {
  host_snapshot : HostMachine;
  dpu_snapshots : list DpuMachine;
  has_instance : bool;
  managed_state : ManagedHostState;
  aggregate_health : HealthReport;
  rack_health_overrides : option HealthReportSources
}.

Definition dpu_agent_health_report (m : DpuMachine) : option HealthReport :=
  BTree.get DPU_AGENT_SOURCE (merges (dpu_health_reports m)).

(** ** Deriving the aggregate *)

(** [alert.classifications.clear()] for all alerts. *)
Definition clear_classifications (r : HealthReport) : HealthReport :=
  {| source := source r; triggered_by := triggered_by r; observed_at := observed_at r;
     successes := successes r;
     alerts :=
       (fun a => {| id := id a; target := target a; in_alert_since := in_alert_since a;
                    message := message a; tenant_message := tenant_message a;
                    classifications := [] |}) <$> alerts r |}.

Section Derive.
(** The version of the build, and [to_rfc3339_opts] in seconds. *)
Context (build_version : string) (to_rfc3339 : DateTime -> string).

Definition expired_version_health_report (now : DateTime) (threshold : TimeDelta) (prevent : bool)
    (o : MachineNetworkStatusObservation) : option HealthReport :=
  let stale message := Some (stale_agent_version now "forge-dpu-agent" (machine_id o) message prevent) in
  match agent_version o with
  | None => stale "Agent version is not known"
  | Some version =>
      if String.eqb version build_version then None
      else match agent_version_superseded_at o with
           | Some superseded_at =>
               if threshold <? now - superseded_at then
                 stale ("Agent version is " +:+ version +:+ ", which is out of date since "
                          +:+ to_rfc3339 superseded_at)
               else None
           | None => None
           end
  end.

(** The output, the override as it is left and whether it is of the hardware. *)
Definition merge_override_report_with_hw_health (output : HealthReport) (name : string)
    (report : HealthReport) (config : HardwareHealthReportsConfig) : HealthReport * HealthReport * bool :=
  if is_hardware_health_override_source name then
    match config with
    | Disabled => (output, report, true)
    | MonitorOnly =>
        let report := clear_classifications report in (merge output report, report, true)
    | Enabled => (merge output report, report, true)
    end
  else (merge output report, report, false).

(** The loop over the overrides of a machine: the output, the overrides as they
    are left and whether one is of the hardware. *)
Fixpoint merge_overrides (config : HardwareHealthReportsConfig) (selected : string -> bool)
    (output : HealthReport) (m : BTreeMap string HealthReport)
    : HealthReport * BTreeMap string HealthReport * bool :=
  match m with
  | [] => (output, [], false)
  | (name, over) :: m =>
      if selected name then
        let '(output, over, hardware) := merge_override_report_with_hw_health output name over config in
        let '(output, m, any) := merge_overrides config selected output m in
        (output, (name, over) :: m, hardware || any)
      else
        let '(output, m, any) := merge_overrides config selected output m in
        (output, (name, over) :: m, any)
  end.

Definition merge_or_timeout (now : DateTime) (output : HealthReport) (input : option HealthReport)
    (target : string) : HealthReport :=
  match input with
  | Some input => merge output input
  | None => merge output (heartbeat_timeout now "" target "" true false)
  end.

(** One turn of the loop over the DPUs. *)
Definition merge_dpu (config : HostHealthConfig) (now : DateTime) (suppress : bool)
    (output : HealthReport) (snapshot : DpuMachine) : HealthReport * DpuMachine :=
  let sources := dpu_health_reports snapshot in
  let left replace merges :=
    {| dpu_health_reports := {| replace := replace; merges := merges |};
       network_status_observation := network_status_observation snapshot |} in
  match replace sources with
  | Some over =>
      let '(output, over, _) := merge_override_report_with_hw_health output (source over) over
                                  (hardware_health_reports config) in
      (output, left (Some over) (merges sources))
  | None =>
      let health_report :=
        if suppress then clear_classifications <$> dpu_agent_health_report snapshot
        else dpu_agent_health_report snapshot in
      let output :=
        match o ← network_status_observation snapshot;
              expired_version_health_report now (dpu_agent_version_staleness_threshold config)
                (prevent_allocations_on_stale_dpu_agent_version config) o with
        | Some report => merge output report
        | None => output
        end in
      let output := merge_or_timeout now output health_report "forge-dpu-agent" in
      let '(output, m, _) := merge_overrides (hardware_health_reports config)
                               (fun name => negb (String.eqb name DPU_AGENT_SOURCE)) output (merges sources) in
      (output, left None m)
  end.

Fixpoint merge_dpus (config : HostHealthConfig) (now : DateTime) (suppress : bool)
    (output : HealthReport) (snapshots : list DpuMachine) : HealthReport * list DpuMachine :=
  match snapshots with
  | [] => (output, [])
  | s :: snapshots =>
      let '(output, s) := merge_dpu config now suppress output s in
      let '(output, snapshots) := merge_dpus config now suppress output snapshots in
      (output, s :: snapshots)
  end.

Definition merge_rack (output : HealthReport) (rack : option HealthReportSources) : HealthReport :=
  match rack with
  | None => output
  | Some rack =>
      let output := match replace rack with Some r => merge output r | None => output end in
      fold_left merge (BTree.values (merges rack)) output
  end.

Definition aggregate_source : string := "aggregate-host-health".

Definition with_health (s : ManagedHostStateSnapshot) (host : HostMachine) (dpus : list DpuMachine)
    (health : HealthReport) : ManagedHostStateSnapshot :=
  {| host_snapshot := host; dpu_snapshots := dpus; has_instance := has_instance s;
     managed_state := managed_state s; aggregate_health := health;
     rack_health_overrides := rack_health_overrides s |}.

Definition named (now : DateTime) (r : HealthReport) : HealthReport :=
  {| source := aggregate_source; triggered_by := triggered_by r; observed_at := Some now;
     successes := successes r; alerts := alerts r |}.

Definition derive_aggregate_health (config : HostHealthConfig) (now : DateTime)
    (s : ManagedHostStateSnapshot) : ManagedHostStateSnapshot :=
  let host := host_snapshot s in
  let sources := health_reports host in
  match replace sources with
  | Some over => with_health s host (dpu_snapshots s) (named now over)
  | None =>
      let output := empty now "" in
      let '(output, dpus) := merge_dpus config now (suppress_dpu_alerts (managed_state s)) output
                               (dpu_snapshots s) in
      let '(output, m, has_host_hardware_health) :=
        merge_overrides (hardware_health_reports config) (fun _ => true) output (merges sources) in
      let output :=
        if (if hardware_health_reports config is Enabled then true else false)
             && negb has_host_hardware_health
        then merge_or_timeout now output None "hardware-health" else output in
      let output := merge_rack output (rack_health_overrides s) in
      let host :=
        {| health_reports := {| replace := None; merges := m |};
           machine_maintenance_requested := machine_maintenance_requested host;
           desired_boot_interface_version := desired_boot_interface_version host;
           observed_boot_interface_version := observed_boot_interface_version host;
           associated_dpu_machine_ids := associated_dpu_machine_ids host |} in
      with_health s host dpus (named now output)
  end.

(** ** Using a host *)

Inductive NotAllocatableReason :=
| InvalidState (s : ManagedHostState)
| PendingInstanceCreation
| PendingBootConfiguration
| NoDpuSnapshots
| MaintenanceMode
| HealthAlert (a : HealthProbeAlert).

Definition pending_boot_interface_config_version (h : HostMachine) : option ConfigVersion.t :=
  desired ← desired_boot_interface_version h;
  if bool_decide (Some desired = observed_boot_interface_version h) then None else Some desired.

Definition is_usable_as_instance (allow_unhealthy : bool) (s : ManagedHostStateSnapshot)
    : result NotAllocatableReason unit :=
  match managed_state s with
  | Ready =>
      if has_instance s then Err PendingInstanceCreation
      else
        let host := host_snapshot s in
        if machine_maintenance_requested host ||
           bool_decide (is_Some (maintenance_override (health_reports host)))
        then Err MaintenanceMode
        else if pending_boot_interface_config_version host is Some _ then Err PendingBootConfiguration
        else if bool_decide (length (dpu_snapshots s) = 0%nat) &&
                bool_decide (length (associated_dpu_machine_ids host) <> 0%nat)
        then Err NoDpuSnapshots
        else if negb allow_unhealthy
        then match find_alert_by_classification prevent_allocations (aggregate_health s) with
             | Some alert => Err (HealthAlert alert)
             | None => Ok tt
             end
        else Ok tt
  | state => Err (InvalidState state)
  end.

(** ** What contributes to an aggregate *)

(** The report an override contributes under the hardware configuration. *)
Definition override_reports (config : HardwareHealthReportsConfig) (name : string) (r : HealthReport)
    : list HealthReport :=
  if is_hardware_health_override_source name then
    match config with Disabled => [] | MonitorOnly => [clear_classifications r] | Enabled => [r] end
  else [r].
Definition overrides_reports (config : HardwareHealthReportsConfig) (selected : string -> bool)
    (m : BTreeMap string HealthReport) : list HealthReport :=
  concat ((fun nr => if selected nr.1 then override_reports config nr.1 nr.2 else []) <$> m).

(** A DPU contributes its replacement, or its outdated agent, its agent's report
    (a missing one is an alert) and its other overrides. *)
Definition dpu_reports (config : HostHealthConfig) (now : DateTime) (suppress : bool) (d : DpuMachine)
    : list HealthReport :=
  let sources := dpu_health_reports d in
  match replace sources with
  | Some over => override_reports (hardware_health_reports config) (source over) over
  | None =>
      option_list (o ← network_status_observation d;
                   expired_version_health_report now (dpu_agent_version_staleness_threshold config)
                     (prevent_allocations_on_stale_dpu_agent_version config) o) ++
      [match dpu_agent_health_report d with
       | Some r => if suppress then clear_classifications r else r
       | None => heartbeat_timeout now "" "forge-dpu-agent" "" true false
       end] ++
      overrides_reports (hardware_health_reports config)
        (fun name => negb (String.eqb name DPU_AGENT_SOURCE)) (merges sources)
  end.

Definition has_hardware_source (m : BTreeMap string HealthReport) : bool :=
  existsb (fun nr => is_hardware_health_override_source nr.1) m.

Definition contributions (config : HostHealthConfig) (now : DateTime) (s : ManagedHostStateSnapshot)
    : list HealthReport :=
  concat (dpu_reports config now (suppress_dpu_alerts (managed_state s)) <$> dpu_snapshots s) ++
  overrides_reports (hardware_health_reports config) (fun _ => true)
    (merges (health_reports (host_snapshot s))) ++
  (if (if hardware_health_reports config is Enabled then true else false) &&
      negb (has_hardware_source (merges (health_reports (host_snapshot s))))
   then [heartbeat_timeout now "" "hardware-health" "" true false] else []) ++
  match rack_health_overrides s with
  | Some rack => option_list (replace rack) ++ BTree.values (merges rack)
  | None => []
  end.

(** ** The loops are merges of the contributions *)

(** An override as the derivation leaves it. *)
Definition left_override (config : HardwareHealthReportsConfig) (name : string) (r : HealthReport)
    : HealthReport :=
  if is_hardware_health_override_source name
  then if config is MonitorOnly then clear_classifications r else r
  else r.
Definition left_overrides (config : HardwareHealthReportsConfig) (selected : string -> bool)
    (m : BTreeMap string HealthReport) : BTreeMap string HealthReport :=
  (fun nr => (nr.1, if selected nr.1 then left_override config nr.1 nr.2 else nr.2)) <$> m.

Lemma merge_override_eq output name r config :
  merge_override_report_with_hw_health output name r config =
  (fold_left merge (override_reports config name r) output, left_override config name r,
   is_hardware_health_override_source name).
Proof.
  unfold merge_override_report_with_hw_health, override_reports, left_override.
  by destruct (is_hardware_health_override_source name), config.
Qed.

Lemma merge_overrides_eq config selected output m :
  merge_overrides config selected output m =
  (fold_left merge (overrides_reports config selected m) output, left_overrides config selected m,
   existsb (fun nr => selected nr.1 && is_hardware_health_override_source nr.1) m).
Proof.
  revert output. induction m as [|[name r] m IH]; intros output; [done|]. cbn [merge_overrides].
  unfold overrides_reports, left_overrides. csimpl.
  destruct (selected name); cbn [andb orb app].
  - rewrite merge_override_eq, IH, fold_left_app. done.
  - by rewrite IH.
Qed.

Definition left_dpu (config : HardwareHealthReportsConfig) (d : DpuMachine) : DpuMachine :=
  let sources := dpu_health_reports d in
  {| dpu_health_reports :=
       match replace sources with
       | Some over => {| replace := Some (left_override config (source over) over); merges := merges sources |}
       | None => {| replace := None;
                    merges := left_overrides config (fun name => negb (String.eqb name DPU_AGENT_SOURCE))
                                (merges sources) |}
       end;
     network_status_observation := network_status_observation d |}.

Lemma merge_dpu_eq config now suppress output d :
  merge_dpu config now suppress output d =
  (fold_left merge (dpu_reports config now suppress d) output, left_dpu (hardware_health_reports config) d).
Proof.
  unfold merge_dpu, dpu_reports, left_dpu. destruct (replace (dpu_health_reports d)) as [over|].
  - by rewrite merge_override_eq.
  - rewrite merge_overrides_eq, !fold_left_app. do 2 f_equal. unfold merge_or_timeout.
    destruct (o ← network_status_observation d; _); simpl;
      by destruct suppress, (dpu_agent_health_report d).
Qed.

Lemma merge_dpus_eq config now suppress output l :
  merge_dpus config now suppress output l =
  (fold_left merge (concat (dpu_reports config now suppress <$> l)) output,
   left_dpu (hardware_health_reports config) <$> l).
Proof.
  revert output. induction l as [|d l IH]; intros output; [done|]. cbn [merge_dpus].
  rewrite merge_dpu_eq, IH. csimpl. by rewrite fold_left_app.
Qed.

(** The host as the derivation leaves it. *)
Definition left_host (config : HardwareHealthReportsConfig) (h : HostMachine) : HostMachine :=
  {| health_reports := {| replace := None;
                          merges := left_overrides config (fun _ => true) (merges (health_reports h)) |};
     machine_maintenance_requested := machine_maintenance_requested h;
     desired_boot_interface_version := desired_boot_interface_version h;
     observed_boot_interface_version := observed_boot_interface_version h;
     associated_dpu_machine_ids := associated_dpu_machine_ids h |}.

Lemma derive_eq config now s :
  derive_aggregate_health config now s =
  match replace (health_reports (host_snapshot s)) with
  | Some over => with_health s (host_snapshot s) (dpu_snapshots s) (named now over)
  | None =>
      with_health s (left_host (hardware_health_reports config) (host_snapshot s))
        (left_dpu (hardware_health_reports config) <$> dpu_snapshots s)
        (named now (fold_left merge (contributions config now s) (empty now "")))
  end.
Proof.
  unfold derive_aggregate_health. destruct (replace _) as [over|]; [done|].
  rewrite merge_dpus_eq, merge_overrides_eq. unfold left_host, contributions. f_equal. f_equal.
  rewrite !fold_left_app. unfold has_hardware_source, merge_rack. cbn [andb].
  destruct (hardware_health_reports config); cbn [andb];
    try destruct (negb _); simpl; destruct (rack_health_overrides s) as [[[] ?]|]; done.
Qed.

(** ** Derivation is idempotent *)

Lemma clear_idemp r : clear_classifications (clear_classifications r) = clear_classifications r.
Proof. unfold clear_classifications. simpl. f_equal. by rewrite <- list_fmap_compose. Qed.

Lemma left_override_idemp config name r :
  left_override config name (left_override config name r) = left_override config name r.
Proof. unfold left_override. repeat case_match; try done. apply clear_idemp. Qed.

Lemma override_reports_left config name r :
  override_reports config name (left_override config name r) = override_reports config name r.
Proof. unfold override_reports, left_override. repeat case_match; try done. by rewrite clear_idemp. Qed.

Lemma source_left_override config name r : source (left_override config name r) = source r.
Proof. unfold left_override. by repeat case_match. Qed.

Lemma left_overrides_idemp config selected m :
  left_overrides config selected (left_overrides config selected m) = left_overrides config selected m.
Proof.
  unfold left_overrides. rewrite <- list_fmap_compose. apply list_fmap_ext. intros i [name r] _. simpl.
  destruct (selected name); [|done]. by rewrite left_override_idemp.
Qed.

Lemma overrides_reports_left config selected m :
  overrides_reports config selected (left_overrides config selected m) = overrides_reports config selected m.
Proof.
  unfold overrides_reports, left_overrides. rewrite <- list_fmap_compose. f_equal. apply list_fmap_ext.
  intros i [name r] _. simpl. destruct (selected name); [|done]. apply override_reports_left.
Qed.

Lemma get_left_overrides config selected m name :
  selected name = false -> BTree.get name (left_overrides config selected m) = BTree.get name m.
Proof.
  intros Hs. induction m as [|[n r] m IH]; [done|]. cbn -[cmp]. destruct (cmp name n) eqn:E; [|done..].
  apply cmp_eq in E as ->. by rewrite Hs.
Qed.

Lemma left_dpu_idemp config d : left_dpu config (left_dpu config d) = left_dpu config d.
Proof.
  unfold left_dpu. destruct (replace (dpu_health_reports d)) as [over|] eqn:E; simpl.
  - by rewrite source_left_override, left_override_idemp.
  - by rewrite left_overrides_idemp.
Qed.

Lemma dpu_reports_left config now suppress d :
  dpu_reports config now suppress (left_dpu (hardware_health_reports config) d) =
  dpu_reports config now suppress d.
Proof.
  unfold dpu_reports, dpu_agent_health_report, left_dpu.
  destruct (replace (dpu_health_reports d)) as [over|] eqn:E; simpl.
  - by rewrite source_left_override, override_reports_left.
  - by rewrite overrides_reports_left, get_left_overrides.
Qed.

Lemma contributions_left config now s health :
  contributions config now
    (with_health s (left_host (hardware_health_reports config) (host_snapshot s))
       (left_dpu (hardware_health_reports config) <$> dpu_snapshots s) health) =
  contributions config now s.
Proof.
  unfold contributions. simpl. f_equal; [|f_equal].
  - rewrite <- list_fmap_compose. f_equal. apply list_fmap_ext. intros i d _. apply dpu_reports_left.
  - apply overrides_reports_left.
  - f_equal. unfold has_hardware_source, left_overrides. by rewrite existsb_fmap.
Qed.

Lemma left_host_idemp config h : left_host config (left_host config h) = left_host config h.
Proof. unfold left_host. simpl. by rewrite left_overrides_idemp. Qed.

(** ** Classifications of the aggregate *)

Lemma has_classification_merges c l r :
  unique_probes r ->
  has_classification c (fold_left merge l r) = has_classification c r || existsb (has_classification c) l.
Proof.
  revert r. induction l as [|o l IH]; intros r Hr; simpl; [by rewrite orb_false_r|].
  rewrite IH by auto with nico. by rewrite has_classification_merge, orb_assoc.
Qed.

Lemma aggregate_classification config now s c :
  has_classification c (aggregate_health (derive_aggregate_health config now s)) =
  match replace (health_reports (host_snapshot s)) with
  | Some over => has_classification c over
  | None => existsb (has_classification c) (contributions config now s)
  end.
Proof.
  rewrite derive_eq. destruct (replace _) as [over|]; [done|].
  change (has_classification c (fold_left merge (contributions config now s) (empty now "")) =
    existsb (has_classification c) (contributions config now s)).
  by rewrite has_classification_merges by auto with nico.
Qed.

(** C24: deriving the aggregate health of a host changes nothing when it is repeated
    at the same time with the same configuration, and the aggregate has a classification exactly when the replacement report of
    the host has it or, without one, when a contributing report has it: of each DPU
    its replacement, or its outdated agent, its agent's report or the lack of it
    and its overrides, the overrides of the host, the lack of a hardware report
    when these are enabled, and the reports of the rack. *)
Theorem aggregate_health_exact config now s c :
  let s' := derive_aggregate_health config now s in
  derive_aggregate_health config now s' = s' /\
  (has_classification c (aggregate_health s') = true <->
   match replace (health_reports (host_snapshot s)) with
   | Some over => has_classification c over = true
   | None => exists r, r ∈ contributions config now s /\ has_classification c r = true
   end).
Proof.
  intros s'. split.
  - unfold s'. rewrite (derive_eq config now s). destruct (replace _) as [over|] eqn:E.
    + rewrite derive_eq. simpl. by rewrite E.
    + rewrite derive_eq. cbn [replace health_reports host_snapshot with_health left_host].
      rewrite contributions_left. unfold with_health. cbn [host_snapshot dpu_snapshots has_instance managed_state
        rack_health_overrides]. rewrite left_host_idemp, <- list_fmap_compose. f_equal.
      apply list_fmap_ext. intros i d _. apply left_dpu_idemp.
  - unfold s'. rewrite aggregate_classification. destruct (replace _); [done|].
    rewrite existsb_exists. by setoid_rewrite list_elem_of_In.
Qed.

(** ** Usable hosts *)

Lemma clear_classifications_none c r : has_classification c (clear_classifications r) = false.
Proof.
  apply not_true_iff_false. intros (a & Ha & Hc)%has_classification_iff. simpl in Ha.
  apply list_elem_of_fmap in Ha as (b & -> & _). by apply elem_of_nil in Hc.
Qed.

Lemma timeout_prevents now target :
  has_classification prevent_allocations (heartbeat_timeout now "" target "" true false) = true.
Proof. done. Qed.

Lemma usable_health s :
  is_usable_as_instance false s = Ok tt ->
  managed_state s = Ready /\ has_classification prevent_allocations (aggregate_health s) = false.
Proof.
  unfold is_usable_as_instance, has_classification. destruct (managed_state s); try done.
  repeat (case_match; try done).
Qed.

Lemma usable_contributions config now s :
  replace (health_reports (host_snapshot s)) = None ->
  is_usable_as_instance false (derive_aggregate_health config now s) = Ok tt ->
  managed_state s = Ready /\
  forall r, r ∈ contributions config now s -> has_classification prevent_allocations r = false.
Proof.
  intros Hr [Hs Hh]%usable_health. rewrite aggregate_classification, Hr in Hh. split.
  - rewrite derive_eq, Hr in Hs. done.
  - intros r Hin. apply not_true_iff_false. intros Hc. rewrite <- not_true_iff_false in Hh. apply Hh.
    apply existsb_exists. exists r. by rewrite <- list_elem_of_In.
Qed.

(** A host that may be used for an instance, and whose health is not replaced, is
    in its ready state; each of its DPUs without a replacement report has a report
    of its agent, without an alert that prevents allocations; no effective override
    of the host or report of its rack has such an alert; and with hardware reports
    enabled one of them is present. *)
Theorem usable_is_reported config now s :
  replace (health_reports (host_snapshot s)) = None ->
  is_usable_as_instance false (derive_aggregate_health config now s) = Ok tt ->
  managed_state s = Ready /\
  (forall d, d ∈ dpu_snapshots s -> replace (dpu_health_reports d) = None ->
     exists r, dpu_agent_health_report d = Some r /\ has_classification prevent_allocations r = false) /\
  (forall name r, (name, r) ∈ merges (health_reports (host_snapshot s)) ->
     has_classification prevent_allocations r = true ->
     is_hardware_health_override_source name = true /\ hardware_health_reports config <> Enabled) /\
  (forall rack r, rack_health_overrides s = Some rack ->
     replace rack = Some r \/ r ∈ BTree.values (merges rack) ->
     has_classification prevent_allocations r = false) /\
  (hardware_health_reports config = Enabled ->
   has_hardware_source (merges (health_reports (host_snapshot s))) = true).
Proof.
  intros Hr Hu. destruct (usable_contributions config now s Hr Hu) as [Hready Hall].
  unfold contributions in Hall. rewrite Hready in Hall. setoid_rewrite elem_of_app in Hall.
  split_and!; [done|..].
  - intros d Hd Hrd.
    assert (Hdr : forall r, r ∈ dpu_reports config now false d -> has_classification prevent_allocations r = false).
    { intros r Hin. apply Hall. left. apply list_elem_of_In, in_concat.
      eexists. rewrite <- !list_elem_of_In. split; [|exact Hin]. by apply list_elem_of_fmap_2. }
    unfold dpu_reports in Hdr. rewrite Hrd in Hdr. setoid_rewrite elem_of_app in Hdr.
    destruct (dpu_agent_health_report d) as [r|].
    + exists r. split; [done|]. apply Hdr. right. by left.
    + exfalso. by specialize (Hdr _ (or_intror (list_elem_of_here _ _))).
  - intros name r Hin Hc.
    assert (Hov : forall o, o ∈ override_reports (hardware_health_reports config) name r ->
      has_classification prevent_allocations o = false).
    { intros o Ho. apply Hall. right. apply elem_of_app. left. apply list_elem_of_In, in_concat.
      exists (override_reports (hardware_health_reports config) name r). rewrite <- !list_elem_of_In.
      split; [|done]. apply list_elem_of_fmap. by exists (name, r). }
    unfold override_reports in Hov. destruct (is_hardware_health_override_source name).
    + split; [done|]. intros E. rewrite E in Hov. specialize (Hov r (list_elem_of_here _ _)). congruence.
    + specialize (Hov r (list_elem_of_here _ _)). congruence.
  - intros rack r Hrack Hin. apply Hall. rewrite Hrack. right. do 2 (apply elem_of_app; right). apply elem_of_app.
    destruct Hin as [->|?]; [by left; left|by right].
  - intros HE. rewrite HE in Hall. cbn [andb] in Hall.
    destruct (has_hardware_source _) eqn:E; [done|]. exfalso. cbn [negb] in Hall.
    enough (has_classification prevent_allocations (heartbeat_timeout now "" "hardware-health" "" true false) = false)
      by done. apply Hall. right. apply elem_of_app. right. apply elem_of_app. left. by left.
Qed.
End Derive.

(** The aggregate of a rack, a switch or a power shelf has the classifications of
    its replacement report, or of its merged reports. *)
Lemma object_aggregate_classification now name s c :
  has_classification c (derive_object_aggregate_health now name s) =
  match replace s with
  | Some r => has_classification c r
  | None => existsb (has_classification c) (BTree.values (merges s))
  end.
Proof.
  unfold derive_object_aggregate_health. destruct (replace s); [done|].
  change (has_classification c (fold_left merge (BTree.values (merges s)) (empty now name)) =
    existsb (has_classification c) (BTree.values (merges s))).
  by rewrite has_classification_merges by auto with nico.
Qed.
End AggregateHealth.

Module AggregateHealthExample.
Import HealthReport AggregateHealth.

Definition agent : HealthReport :=
  {| source := DPU_AGENT_SOURCE; triggered_by := None; observed_at := Some 1;
     successes := [{| s_id := "BgpStats"; s_target := None |}]; alerts := [] |}.
Definition noisy : HealthReport :=
  single 1 "hardware-health.fans"
    {| id := "Fan"; target := None; in_alert_since := None; message := "slow"; tenant_message := None;
       classifications := [prevent_allocations] |}.
Definition none : HealthReportSources := {| replace := None; merges := [] |}.

Definition dpu (agent : option HealthReport) : DpuMachine :=
  {| dpu_health_reports :=
       {| replace := None; merges := option_list ((fun r => (DPU_AGENT_SOURCE, r)) <$> agent) |};
     network_status_observation :=
       Some {| machine_id := "dpu"; agent_version := Some "v1"; agent_version_superseded_at := None |} |}.
Definition snapshot (agent : option HealthReport) : ManagedHostStateSnapshot :=
  {| host_snapshot :=
       {| health_reports := {| replace := None; merges := [("hardware-health.fans", noisy)] |};
          machine_maintenance_requested := false; desired_boot_interface_version := None;
          observed_boot_interface_version := None; associated_dpu_machine_ids := ["dpu"] |};
     dpu_snapshots := [dpu agent]; has_instance := false; managed_state := Ready;
     aggregate_health := noisy; rack_health_overrides := Some none |}.
Definition config : HostHealthConfig :=
  {| hardware_health_reports := MonitorOnly; dpu_agent_version_staleness_threshold := 100;
     prevent_allocations_on_stale_dpu_agent_version := false |}.
Definition derive := derive_aggregate_health "v1" (fun _ => "") config 9.

(** Hardware alerts that are only monitored keep a host usable; a DPU whose agent
    does not report does not. *)
Lemma usable_is_reported_witness :
  (exists r, dpu_agent_health_report (dpu (Some agent)) = Some r /\
     has_classification prevent_allocations r = false) /\
  is_ok (is_usable_as_instance false (derive (snapshot None))) = false.
Proof.
  split; [|vm_compute; reflexivity].
  destruct (usable_is_reported "v1" (fun _ => "") config 9 (snapshot (Some agent)))
    as (_ & Hd & _); [reflexivity|vm_compute; reflexivity|].
  apply Hd; [apply list_elem_of_here|reflexivity].
Defined.
End AggregateHealthExample.
