(* ===== verification/HardwareId.v ===== *)
(** * HardwareId: identifiers derived from hardware

    crates/uuid/src/machine (machine identifiers and their typed variants),
    switch, power_shelf and device, and the derivation of identifiers from
    hardware fingerprints in crates/api-model/src/machine/machine_id.rs,
    switch/switch_id.rs and power_shelf/power_shelf_id.rs. The three kinds of
    identifiers have one format (a prefix, the character of the type, the
    character of the source and the hash of the hardware in base 32), which is
    modelled once for a kind. Base 32 is the crate [data-encoding] and SHA-256
    the crate [sha2]: both are classes with their documented behaviour. Text is
    its octets. *)

From S2P Require Import Prelude Text Bytes BTree.
From Stdlib Require Import Ascii.

(** ** Text *)

(** [&s.as_bytes()[n..]], within bounds. *)
Fixpoint str_drop (n : nat) (s : string) : string :=
  match n, s with
  | O, _ => s
  | S n, String _ s => str_drop n s
  | S _, EmptyString => EmptyString
  end.

Fixpoint str_take (n : nat) (s : string) : string :=
  match n, s with
  | S n, String c s => String c (str_take n s)
  | _, _ => EmptyString
  end.

(** ** Crates *)

(** [BASE32_DNSSEC]: 32 octets are 52 characters; decoding ignores the case of
    letters, rejects stray trailing bits and inverts encoding. *)
Class Base32 := {
  base32_encode : list Z -> string;
  (** [decode_mut] into a buffer of the documented length *)
  base32_decode : string -> option (list Z);

  encode_length h : length h = 32%nat -> bytes h -> String.length (base32_encode h) = 52%nat;
  encode_decode s h :
    String.length s = 52%nat -> base32_decode s = Some h ->
    length h = 32%nat /\ bytes h /\ base32_encode h = to_lowercase s;
  decode_encode h : length h = 32%nat -> bytes h -> base32_decode (base32_encode h) = Some h;
  decode_lowercase s : base32_decode (to_lowercase s) = base32_decode s
}.

(** SHA-256 gives 32 octets. *)
Class Sha256 := {
  sha256 : string -> list Z;
  sha256_length s : length (sha256 s) = 32%nat;
  sha256_bytes s : bytes (sha256 s)
}.

Module HardwareId.

(** ** The format *)

Inductive IdSource := Tpm | ProductBoardChassisSerial.

Definition source_char (s : IdSource) : ascii :=
  match s with Tpm => "t" | ProductBoardChassisSerial => "s" end%char.
Definition source_of_char (c : ascii) : option IdSource :=
  if Ascii.eqb c (source_char Tpm) then Some Tpm
  else if Ascii.eqb c (source_char ProductBoardChassisSerial) then Some ProductBoardChassisSerial
  else None.

(** A kind of device: the prefix of its identifiers and its types. *)
Class IdKind := {
  Ty : Type;
  id_prefix : string;
  ty_char : Ty -> ascii;
  ty_of_char : ascii -> option Ty;

  prefix_length : String.length id_prefix = 5%nat;
  ty_of_char_iff c t : ty_of_char c = Some t <-> ty_char t = c
}.

Definition ID_PREFIX_LENGTH : nat := 7.
Definition HARDWARE_ID_BASE32_LENGTH : nat := 52.
Definition ID_LENGTH : nat := ID_PREFIX_LENGTH + HARDWARE_ID_BASE32_LENGTH.

Inductive IdParseError :=
| Length (n : nat)
| Prefix (s : string)
| Encoding (s : string).

Section Format.
Context `{Base32} (K : IdKind).

Record t := mk {
  source : IdSource;
  hardware_id : string;
  ty : Ty
}.

(** [new]: its assertion panics on an encoding of another length. *)
Definition new {E} (source : IdSource) (hardware_hash : list Z) (ty : Ty) : outcome E t :=
  let encoded := base32_encode hardware_hash in
  if negb (String.length encoded =? HARDWARE_ID_BASE32_LENGTH)%nat then Panic
  else Return (mk source encoded ty).

(** [Display]. *)
Definition to_string (i : t) : string :=
  id_prefix +:+ String (ty_char (ty i)) (String (source_char (source i)) (hardware_id i)).

Definition is_matching_prefix (s : string) : bool := String.prefix id_prefix s.

(** [FromStr]. *)
Definition from_str (s : string) : outcome IdParseError t :=
  if negb (String.length s =? ID_LENGTH)%nat then Throw (Length (String.length s))
  else if negb (is_matching_prefix s) then Throw (Prefix s)
  else
    match base32_decode (str_drop ID_PREFIX_LENGTH s) with
    | None => Throw (Encoding s)
    | Some hardware_hash =>
        if negb (length hardware_hash =? 32)%nat then Throw (Encoding s)
        else
          ty_byte ← or_panic (String.get 5 s);
          ty ← lift (ok_or (Prefix s) (ty_of_char ty_byte));
          source_byte ← or_panic (String.get 6 s);
          source ← lift (ok_or (Prefix s) (source_of_char source_byte));
          new source hardware_hash ty
    end.

(** [remote_id]. *)
Definition remote_id `{Sha256} (i : t) : string := base32_encode (sha256 (to_string i)).

(** An identifier made by [new] from a hash. *)
Definition valid (i : t) : Prop :=
  exists h, length h = 32%nat /\ bytes h /\ hardware_id i = base32_encode h.
End Format.
Arguments mk {K} source hardware_id ty.
Arguments source {K} _.
Arguments hardware_id {K} _.
Arguments ty {K} _.
Arguments to_string {K} _.
Arguments valid {_ K} _.
Arguments remote_id {_ K _} _.

(** ** The kinds *)

Inductive MachineType := Dpu | Host | PredictedHost.
Definition machine_type_char (t : MachineType) : ascii :=
  match t with Dpu => "d" | Host => "h" | PredictedHost => "p" end%char.
Definition machine_type_of_char (c : ascii) : option MachineType :=
  if Ascii.eqb c (machine_type_char Dpu) then Some Dpu
  else if Ascii.eqb c (machine_type_char Host) then Some Host
  else if Ascii.eqb c (machine_type_char PredictedHost) then Some PredictedHost
  else None.

Inductive SwitchType := NvLink.
Definition switch_type_char (t : SwitchType) : ascii := "n".
Definition switch_type_of_char (c : ascii) : option SwitchType :=
  if Ascii.eqb c (switch_type_char NvLink) then Some NvLink else None.

Inductive PowerShelfType := ShelfRack | ShelfHost.
Definition power_shelf_type_char (t : PowerShelfType) : ascii :=
  match t with ShelfRack => "r" | ShelfHost => "h" end%char.
Definition power_shelf_type_of_char (c : ascii) : option PowerShelfType :=
  if Ascii.eqb c (power_shelf_type_char ShelfRack) then Some ShelfRack
  else if Ascii.eqb c (power_shelf_type_char ShelfHost) then Some ShelfHost
  else None.

Lemma source_of_char_iff c s : source_of_char c = Some s <-> source_char s = c.
Proof.
  unfold source_of_char. destruct (Ascii.eqb_spec c (source_char Tpm)) as [->|];
    [|destruct (Ascii.eqb_spec c (source_char ProductBoardChassisSerial)) as [->|]]; destruct s; naive_solver.
Qed.

Definition machine_kind : IdKind.
Proof.
  refine {| Ty := MachineType; id_prefix := "fm100"; ty_char := machine_type_char;
            ty_of_char := machine_type_of_char |}; [done|].
  intros c t. unfold machine_type_of_char. destruct (Ascii.eqb_spec c (machine_type_char Dpu)) as [->|];
    [|destruct (Ascii.eqb_spec c (machine_type_char Host)) as [->|];
    [|destruct (Ascii.eqb_spec c (machine_type_char PredictedHost)) as [->|]]]; destruct t; naive_solver.
Defined.

Definition switch_kind : IdKind.
Proof.
  refine {| Ty := SwitchType; id_prefix := "sw100"; ty_char := switch_type_char;
            ty_of_char := switch_type_of_char |}; [done|].
  intros c []. unfold switch_type_of_char.
  destruct (Ascii.eqb_spec c (switch_type_char NvLink)) as [->|]; naive_solver.
Defined.

Definition power_shelf_kind : IdKind.
Proof.
  refine {| Ty := PowerShelfType; id_prefix := "ps100"; ty_char := power_shelf_type_char;
            ty_of_char := power_shelf_type_of_char |}; [done|].
  intros c t. unfold power_shelf_type_of_char.
  destruct (Ascii.eqb_spec c (power_shelf_type_char ShelfRack)) as [->|];
    [|destruct (Ascii.eqb_spec c (power_shelf_type_char ShelfHost)) as [->|]]; destruct t; naive_solver.
Defined.

Abbreviation MachineId := (t machine_kind).
Abbreviation SwitchId := (t switch_kind).
Abbreviation PowerShelfId := (t power_shelf_kind).

(** [Ord for MachineId]: type, source, hardware. *)
Definition char_cmp (a b : ascii) : comparison := N.compare (N_of_ascii a) (N_of_ascii b).
Definition machine_id_cmp (a b : MachineId) : comparison :=
  then_cmp (char_cmp (ty_char (ty a)) (ty_char (ty b)))
    (then_cmp (char_cmp (source_char (source a)) (source_char (source b)))
       (string_cmp (hardware_id a) (hardware_id b))).

(** ** Parsing and printing *)

Lemma prefix_iff p s : String.prefix p s = true <-> exists r, s = p +:+ r.
Proof.
  revert s. induction p as [|c p IH]; intros s.
  - split; [by exists s|by destruct s].
  - destruct s as [|d s]; [split; [done|by intros [? [=]]]|].
    simpl. destruct (ascii_dec c d) as [->|Hn]; [|split; [done|intros [? [= ? _]]; congruence]].
    rewrite IH. split; intros [r E]; exists r; [by rewrite E|by injection E].
Qed.

Lemma str_drop_app p s : str_drop (String.length p) (p +:+ s) = s.
Proof. induction p as [|c p IH]; [done|exact IH]. Qed.

Lemma str_take_app p s : str_take (String.length p) (p +:+ s) = p.
Proof. induction p as [|c p IH]; [by destruct s|exact (f_equal (String c) IH)]. Qed.

Lemma str_take_drop n s : str_take n s +:+ str_drop n s = s.
Proof.
  revert s. induction n as [|n IH]; intros s; [done|]. destruct s as [|c s]; [done|].
  exact (f_equal (String c) (IH s)).
Qed.

Lemma str_take_length n s : (n <= String.length s)%nat -> String.length (str_take n s) = n.
Proof.
  revert s. induction n as [|n IH]; intros s Hl; [done|]. destruct s as [|c s]; simpl in *; [lia|].
  rewrite IH by lia. done.
Qed.

Lemma string_app_inj p q s u :
  p +:+ s = q +:+ u -> String.length p = String.length q -> p = q /\ s = u.
Proof.
  revert q. induction p as [|c p IH]; intros [|d q] E Hl; try done.
  injection E as -> E. injection Hl as Hl. by destruct (IH q E Hl) as [-> ->].
Qed.

Lemma length_to_lowercase s : String.length (to_lowercase s) = String.length s.
Proof. induction s as [|c s IH]; simpl; [done|]. by rewrite IH. Qed.

Lemma string_length_app s t : String.length (s +:+ t) = (String.length s + String.length t)%nat.
Proof. induction s as [|c s IH]; [done|exact (f_equal S IH)]. Qed.

Section FormatFacts.
Context `{Base32} {K : IdKind}.

Lemma get_app_prefix p s n : String.get (String.length p + n) (p +:+ s) = String.get n s.
Proof. induction p as [|c p IH]; [done|exact IH]. Qed.

(** A text of the right length and prefix, taken apart. *)
Lemma id_text s :
  String.length s = ID_LENGTH -> is_matching_prefix K s = true ->
  exists tc sc h, s = id_prefix +:+ String tc (String sc h) /\
    String.length h = HARDWARE_ID_BASE32_LENGTH /\ String.get 5 s = Some tc /\ String.get 6 s = Some sc /\
    str_drop ID_PREFIX_LENGTH s = h.
Proof.
  intros Hl [r ->]%prefix_iff. rewrite string_length_app, prefix_length in Hl.
  destruct r as [|tc [|sc h]]; try (by cbv in Hl). exists tc, sc, h.
  pose proof (get_app_prefix id_prefix (String tc (String sc h)) 0) as G0.
  pose proof (get_app_prefix id_prefix (String tc (String sc h)) 1) as G1.
  rewrite prefix_length in G0, G1. split_and!; [done| |done|done|].
  - unfold ID_LENGTH, ID_PREFIX_LENGTH in Hl. cbn in Hl. unfold HARDWARE_ID_BASE32_LENGTH in *. lia.
  - assert (E : ID_PREFIX_LENGTH = String.length (id_prefix +:+ String tc (String sc ""))).
    { by rewrite string_length_app, prefix_length. }
    rewrite E. replace (id_prefix +:+ String tc (String sc h)) with
      ((id_prefix +:+ String tc (String sc "")) +:+ h) by (by rewrite <- string_app_assoc).
    apply str_drop_app.
Qed.

(** The text with its hardware part in lower case. *)
Definition normalised (s : string) : string :=
  str_take ID_PREFIX_LENGTH s +:+ to_lowercase (str_drop ID_PREFIX_LENGTH s).

Lemma to_string_split (i : t K) :
  to_string i =
  (id_prefix +:+ String (ty_char (ty i)) (String (source_char (source i)) "")) +:+ hardware_id i.
Proof. unfold to_string. by rewrite <- string_app_assoc. Qed.

Lemma header_length tc sc :
  String.length (id_prefix +:+ String tc (String sc "")) = ID_PREFIX_LENGTH.
Proof. by rewrite string_length_app, prefix_length. Qed.

Lemma valid_length (i : t K) : valid i -> String.length (hardware_id i) = HARDWARE_ID_BASE32_LENGTH.
Proof. intros (h & Hl & Hb & ->). by apply encode_length. Qed.

Lemma new_valid {E} src h (t : Ty) :
  length h = 32%nat -> bytes h -> new K (E := E) src h t = Return (mk src (base32_encode h) t).
Proof. intros Hl Hb. unfold new. by rewrite encode_length. Qed.

Lemma from_str_sound s i : from_str K s = Return i -> valid i /\ to_string i = normalised s.
Proof.
  unfold from_str. destruct (Nat.eqb_spec (String.length s) ID_LENGTH) as [Hl|]; [|done]. cbn [negb].
  destruct (is_matching_prefix K s) eqn:Hp; [|done]. cbn [negb].
  destruct (id_text s Hl Hp) as (tc & sc & h & E & Hh & G5 & G6 & Hd). rewrite Hd, G5, G6.
  destruct (base32_decode h) as [hash|] eqn:Hdec; [|done].
  destruct (encode_decode h hash Hh Hdec) as (Hlh & Hbh & Hlow). rewrite Hlh. cbn [Nat.eqb negb or_panic mbind outcome_bind].
  destruct (ty_of_char tc) as [t|] eqn:Ht; [|done]. cbn [ok_or lift mbind outcome_bind].
  destruct (source_of_char sc) as [src|] eqn:Hs; [|done]. cbn [ok_or lift mbind outcome_bind].
  rewrite new_valid by done. intros [= <-]. apply ty_of_char_iff in Ht. apply source_of_char_iff in Hs.
  split; [by exists hash|]. rewrite to_string_split. cbn [ty source hardware_id].
  unfold normalised. rewrite Hd, Hlow, Ht, Hs, E. f_equal.
  rewrite <- (header_length tc sc).
  replace (id_prefix +:+ String tc (String sc h)) with
    ((id_prefix +:+ String tc (String sc "")) +:+ h) by (by rewrite <- string_app_assoc).
  by rewrite str_take_app.
Qed.

Lemma from_str_complete s i : valid i -> to_string i = normalised s -> from_str K s = Return i.
Proof.
  intros Hv E. rewrite to_string_split in E. unfold normalised in E.
  assert (Hls : String.length s = ID_LENGTH).
  { rewrite <- (str_take_drop ID_PREFIX_LENGTH s), string_length_app.
    rewrite <- (length_to_lowercase (str_drop _ s)), <- string_length_app, <- E.
    by rewrite string_length_app, header_length, valid_length. }
  apply string_app_inj in E as [E1 E2].
  2:{ rewrite header_length. symmetry. apply str_take_length. rewrite Hls. unfold ID_LENGTH. lia. }
  assert (Es : s = id_prefix +:+ String (ty_char (ty i)) (String (source_char (source i)) (str_drop ID_PREFIX_LENGTH s))).
  { rewrite <- (str_take_drop ID_PREFIX_LENGTH s) at 1. by rewrite <- E1, <- string_app_assoc. }
  assert (Hp : is_matching_prefix K s = true) by (apply prefix_iff; eauto).
  destruct (id_text s Hls Hp) as (tc & sc & h & E & Hh & G5 & G6 & Hd).
  rewrite Hd in *. rewrite E in Es at 1. apply string_app_inj in Es as [_ [= -> ->]]; [|done].
  unfold from_str. rewrite Hls, Nat.eqb_refl, Hp, Hd, G5, G6. cbn [negb].
  destruct Hv as (hash & Hlh & Hbh & Hw). rewrite <- decode_lowercase, <- E2, Hw, decode_encode by done.
  rewrite Hlh. cbn [Nat.eqb negb or_panic mbind outcome_bind].
  rewrite (proj2 (ty_of_char_iff _ (ty i))), (proj2 (source_of_char_iff _ (source i))) by done.
  cbn [ok_or lift mbind outcome_bind]. rewrite new_valid by done. rewrite <- Hw. by destruct i.
Qed.

Lemma normalised_to_string i : valid i -> normalised (to_string i) = to_string i.
Proof.
  intros Hv. rewrite to_string_split. unfold normalised.
  rewrite <- (header_length (ty_char (ty i)) (source_char (source i))) at 1 2.
  rewrite str_take_app, str_drop_app. f_equal. destruct Hv as (h & Hl & Hb & ->).
  destruct (encode_decode (base32_encode h) h) as (_ & _ & E); [by apply encode_length|by apply decode_encode|done].
Qed.

Lemma from_str_returns s : returns (from_str K s).
Proof.
  unfold from_str. destruct (Nat.eqb_spec (String.length s) ID_LENGTH) as [Hl|]; [|done]. cbn [negb].
  destruct (is_matching_prefix K s) eqn:Hp; [|done]. cbn [negb].
  destruct (id_text s Hl Hp) as (tc & sc & h & E & Hh & -> & -> & ->).
  destruct (base32_decode h) as [hash|] eqn:Hdec; [|done].
  destruct (encode_decode h hash Hh Hdec) as (-> & Hbh & Hlow). cbn [Nat.eqb negb or_panic mbind outcome_bind].
  repeat (apply returns_bind; [auto with nico|]; intros ? ?). unfold new. rewrite encode_length; [done| |done].
  by destruct (encode_decode h hash Hh Hdec).
Qed.
End FormatFacts.

(** ** Devices *)

Inductive DeviceId :=
| Machine (i : MachineId)
| Switch (i : SwitchId)
| PowerShelf (i : PowerShelfId).

Inductive DeviceIdParseError :=
| MachineError (e : IdParseError)
| SwitchError (e : IdParseError)
| PowerShelfError (e : IdParseError)
| UnknownId (s : string).

Definition device_to_string (d : DeviceId) : string :=
  match d with Machine i => to_string i | Switch i => to_string i | PowerShelf i => to_string i end.

Definition map_outcome {E F A B} (fe : E -> F) (fa : A -> B) (m : outcome E A) : outcome F B :=
  match m with Return a => Return (fa a) | Throw e => Throw (fe e) | Panic => Panic end.

Definition device_from_str `{Base32} (s : string) : outcome DeviceIdParseError DeviceId :=
  if is_matching_prefix machine_kind s then map_outcome MachineError Machine (from_str machine_kind s)
  else if is_matching_prefix switch_kind s then map_outcome SwitchError Switch (from_str switch_kind s)
  else if is_matching_prefix power_shelf_kind s
  then map_outcome PowerShelfError PowerShelf (from_str power_shelf_kind s)
  else Throw (UnknownId s).

Definition device_valid `{Base32} (d : DeviceId) : Prop :=
  match d with Machine i => valid i | Switch i => valid i | PowerShelf i => valid i end.

(** ** Typed machine identifiers *)

Record DpuMachineId := MkDpu { dpu_machine_id : MachineId }.
Record HostMachineId := MkHost { host_machine_id : MachineId }.
Record StableHostMachineId := MkStable { stable_host_id : HostMachineId }.
Record PredictedHostMachineId := MkPredicted { predicted_host_id : HostMachineId }.

Record InvalidMachineType := { expected : string; actual : MachineId }.

Definition dpu_try_from (i : MachineId) : result InvalidMachineType DpuMachineId :=
  match ty i with
  | Dpu => Ok (MkDpu i)
  | _ => Err {| expected := "DPU machine ID"; actual := i |}
  end.
Definition host_try_from (i : MachineId) : result InvalidMachineType HostMachineId :=
  match ty i with
  | Host | PredictedHost => Ok (MkHost i)
  | Dpu => Err {| expected := "stable or predicted host ID"; actual := i |}
  end.
Definition stable_try_from (i : MachineId) : result InvalidMachineType StableHostMachineId :=
  match ty i with
  | Host => Ok (MkStable (MkHost i))
  | _ => Err {| expected := "stable host machine ID"; actual := i |}
  end.
Definition predicted_try_from (i : MachineId) : result InvalidMachineType PredictedHostMachineId :=
  match ty i with
  | PredictedHost => Ok (MkPredicted (MkHost i))
  | _ => Err {| expected := "predicted host machine ID"; actual := i |}
  end.
Definition stable_try_from_host (h : HostMachineId) : result InvalidMachineType StableHostMachineId :=
  match ty (host_machine_id h) with
  | Host => Ok (MkStable h)
  | _ => Err {| expected := "stable host machine ID"; actual := host_machine_id h |}
  end.
Definition predicted_try_from_host (h : HostMachineId) : result InvalidMachineType PredictedHostMachineId :=
  match ty (host_machine_id h) with
  | PredictedHost => Ok (MkPredicted h)
  | _ => Err {| expected := "predicted host machine ID"; actual := host_machine_id h |}
  end.

Inductive MachineIdSubtype :=
| SubDpu (i : DpuMachineId)
| SubStableHost (i : StableHostMachineId)
| SubPredictedHost (i : PredictedHostMachineId).
Inductive HostOrDpuId :=
| AHost (i : HostMachineId)
| ADpu (i : DpuMachineId).
Inductive HostMachineIdSubtype :=
| Stable (i : StableHostMachineId)
| Predicted (i : PredictedHostMachineId).

Definition machine_id_subtype (i : MachineId) : MachineIdSubtype :=
  match ty i with
  | Dpu => SubDpu (MkDpu i)
  | Host => SubStableHost (MkStable (MkHost i))
  | PredictedHost => SubPredictedHost (MkPredicted (MkHost i))
  end.
Definition host_or_dpu_id (i : MachineId) : HostOrDpuId :=
  match ty i with
  | Dpu => ADpu (MkDpu i)
  | Host | PredictedHost => AHost (MkHost i)
  end.
Definition host_or_dpu_from_subtype (s : MachineIdSubtype) : HostOrDpuId :=
  match s with
  | SubDpu i => ADpu i
  | SubStableHost i => AHost (stable_host_id i)
  | SubPredictedHost i => AHost (predicted_host_id i)
  end.

(** [HostMachineId::host_machine_id_subtype], with its [unwrap]s and its
    [unreachable!]. *)
Definition host_machine_id_subtype (h : HostMachineId) : outcome InvalidMachineType HostMachineIdSubtype :=
  match ty (host_machine_id h) with
  | Host => match stable_try_from (host_machine_id h) with Ok i => Return (Stable i) | Err _ => Panic end
  | PredictedHost =>
      match predicted_try_from (host_machine_id h) with Ok i => Return (Predicted i) | Err _ => Panic end
  | Dpu => Panic
  end.

(** [MachineIdSubtypeTrait::machine_type] of the typed identifiers. *)
Definition dpu_machine_type (i : DpuMachineId) : MachineType := Dpu.
Definition stable_machine_type (i : StableHostMachineId) : MachineType := Host.
Definition predicted_machine_type (i : PredictedHostMachineId) : MachineType := PredictedHost.
Definition host_machine_type (h : HostMachineId) : outcome InvalidMachineType MachineType :=
  sub ← host_machine_id_subtype h;
  Return (match sub with Stable _ => Host | Predicted _ => PredictedHost end).

(** [FromStr] of the typed identifiers. *)
Inductive MachineIdSubtypeParseError :=
| Invalid (e : IdParseError)
| WrongType (e : InvalidMachineType).
Definition subtype_from_str `{Base32} {A} (try_from : MachineId -> result InvalidMachineType A) (s : string)
    : outcome MachineIdSubtypeParseError A :=
  i ← map_outcome Invalid (fun i => i) (from_str machine_kind s);
  lift (map_err WrongType (try_from i)).

(** [prost_default_machine_id], and the [Default] of a typed identifier. *)
Definition prost_default_machine_id `{Base32} {E} (t : MachineType) : outcome E MachineId :=
  new machine_kind ProductBoardChassisSerial (repeat 0 32) t.
Definition subtype_default `{Base32} {A} (try_from : MachineId -> result InvalidMachineType A)
    (t : MachineType) : outcome InvalidMachineType A :=
  i ← prost_default_machine_id t;
  match try_from i with Ok a => Return a | Err _ => Panic end.

(** ** Fingerprints *)

Inductive MissingHardwareInfo := TPMCertEmpty | MissingSerial | MissingAll.

Record DmiData := {
  board_name : string;
  product_serial : string;
  board_serial : string;
  chassis_serial : string
}.
Record HardwareInfo := {
  is_aarch64 : bool;
  tpm_ek_certificate : option string;
  dmi_data : option DmiData
}.

(** [str::contains]. *)
Fixpoint contains (needle s : string) : bool :=
  String.prefix needle s || match s with EmptyString => false | String _ s => contains needle s end.

Definition is_dpu (i : HardwareInfo) : bool :=
  is_aarch64 i &&
  match dmi_data i with Some d => contains "bluefield" (to_lowercase (board_name d)) | None => false end.

Section Fingerprint.
Context `{Base32, Sha256}.

Definition all_serials (d : DmiData) : string :=
  "p" +:+ product_serial d +:+ "-b" +:+ board_serial d +:+ "-c" +:+ chassis_serial d.

Definition from_hardware_info_with_type (i : HardwareInfo) (t : MachineType)
    : outcome MissingHardwareInfo MachineId :=
  fingerprint ←
    match tpm_ek_certificate i with
    | Some cert => if String.eqb cert "" then Throw TPMCertEmpty else Return (Tpm, cert)
    | None =>
        match dmi_data i with
        | Some d =>
            if String.eqb (product_serial d) "" && String.eqb (board_serial d) "" &&
               String.eqb (chassis_serial d) ""
            then Throw MissingSerial
            else Return (ProductBoardChassisSerial, all_serials d)
        | None => Throw MissingAll
        end
    end;
  new machine_kind fingerprint.1 (sha256 fingerprint.2) t.

Definition from_hardware_info (i : HardwareInfo) : outcome MissingHardwareInfo MachineId :=
  from_hardware_info_with_type i (if is_dpu i then Dpu else Host).

Definition host_id_from_dpu_hardware_info (i : HardwareInfo) : outcome MissingHardwareInfo MachineId :=
  if is_dpu i then from_hardware_info_with_type i PredictedHost else Panic.

Definition switch_fingerprint (serial vendor model : string) : string :=
  "s" +:+ serial +:+ "-b" +:+ vendor +:+ "-c" +:+ model.
Definition switch_from_hardware_info (serial vendor model : string) (s : IdSource) (t : SwitchType)
    : outcome MissingHardwareInfo SwitchId :=
  if String.eqb serial "NA" then Throw MissingSerial
  else new switch_kind s (sha256 (switch_fingerprint serial vendor model)) t.
Definition power_shelf_from_hardware_info (serial vendor model : string) (s : IdSource)
    (t : PowerShelfType) : outcome MissingHardwareInfo PowerShelfId :=
  new power_shelf_kind s (sha256 (switch_fingerprint serial vendor model)) t.
End Fingerprint.

(** ** Properties *)

Lemma device_prefix `{Base32} {K : IdKind} s (i : t K) :
  valid i -> to_string i = normalised s -> is_matching_prefix K s = true.
Proof.
  intros Hv E. pose proof (from_str_complete s i Hv E) as Hf. unfold from_str in Hf.
  destruct (negb (_ =? _)%nat); [done|]. by destruct (is_matching_prefix K s).
Qed.

Lemma prefixes_exclusive s :
  (is_matching_prefix switch_kind s = true -> is_matching_prefix machine_kind s = false) /\
  (is_matching_prefix power_shelf_kind s = true ->
   is_matching_prefix machine_kind s = false /\ is_matching_prefix switch_kind s = false).
Proof.
  split.
  - by intros [r ->]%(prefix_iff "sw100").
  - by intros [r ->]%(prefix_iff "ps100").
Qed.

Lemma map_outcome_return {E F A B} (fe : E -> F) (fa : A -> B) m b :
  map_outcome fe fa m = Return b <-> exists a, m = Return a /\ b = fa a.
Proof. destruct m; simpl; naive_solver. Qed.

Lemma returns_map_outcome {E F A B} (fe : E -> F) (fa : A -> B) m :
  returns m -> returns (map_outcome fe fa m).
Proof. unfold returns. by destruct m. Qed.

Lemma from_str_iff `{Base32} {K : IdKind} s i :
  from_str K s = Return i <-> valid i /\ to_string i = normalised s.
Proof. split; [apply from_str_sound|]. intros [? ?]. by apply from_str_complete. Qed.

(** C29: parsing a device identifier never panics; it accepts exactly the texts that
    are, up to the case of the letters of the hardware part, the text of a machine,
    switch or power shelf identifier made from a hash, and gives this identifier.
    In particular printing and parsing is the identity. *)
Theorem device_id_exact `{Base32} s d :
  returns (device_from_str s) /\
  (device_from_str s = Return d <-> device_valid d /\ device_to_string d = normalised s) /\
  (device_valid d -> device_from_str (device_to_string d) = Return d).
Proof.
  assert (Hiff : forall s, device_from_str s = Return d <-> device_valid d /\ device_to_string d = normalised s).
  { clear s. intros s. destruct (prefixes_exclusive s) as [X1 X2]. unfold device_from_str. split.
    - repeat case_match; try done; rewrite map_outcome_return; intros (i & Hi%from_str_iff & ->); done.
    - intros [Hv E]. destruct d as [i|i|i]; pose proof (device_prefix s i Hv E) as Hp; rewrite Hp.
      + apply map_outcome_return. exists i. by rewrite from_str_iff.
      + rewrite X1 by done. apply map_outcome_return. exists i. by rewrite from_str_iff.
      + destruct (X2 Hp) as [-> ->]. apply map_outcome_return. exists i. by rewrite from_str_iff. }
  split_and!; [|apply Hiff|].
  - unfold device_from_str. repeat case_match; try done; apply returns_map_outcome, from_str_returns.
  - intros Hv. apply Hiff. split; [done|]. destruct d as [i|i|i]; symmetry; by apply normalised_to_string.
Qed.

(** The order of machine identifiers is the order of their texts. *)
Lemma machine_id_cmp_text (a b : MachineId) :
  machine_id_cmp a b = string_cmp (to_string a) (to_string b).
Proof. reflexivity. Qed.

(** ** Types of identifiers *)

Definition dpu_typed (d : DpuMachineId) : Prop := ty (dpu_machine_id d) = dpu_machine_type d.
Definition host_typed (h : HostMachineId) : Prop := ty (host_machine_id h) <> Dpu.
Definition stable_typed (i : StableHostMachineId) : Prop :=
  ty (host_machine_id (stable_host_id i)) = stable_machine_type i.
Definition predicted_typed (i : PredictedHostMachineId) : Prop :=
  ty (host_machine_id (predicted_host_id i)) = predicted_machine_type i.

(** The identifier inside a typed one. *)
Definition of_host_subtype (s : HostMachineIdSubtype) : HostMachineId :=
  match s with Stable i => stable_host_id i | Predicted i => predicted_host_id i end.
Definition typed_subtype (s : MachineIdSubtype) : Prop :=
  match s with
  | SubDpu i => dpu_typed i
  | SubStableHost i => stable_typed i
  | SubPredictedHost i => predicted_typed i
  end.
Definition of_subtype (s : MachineIdSubtype) : MachineId :=
  match s with
  | SubDpu i => dpu_machine_id i
  | SubStableHost i => host_machine_id (stable_host_id i)
  | SubPredictedHost i => host_machine_id (predicted_host_id i)
  end.

Lemma try_from_iff (i : MachineId) :
  (forall d, dpu_try_from i = Ok d <-> dpu_typed d /\ dpu_machine_id d = i) /\
  (forall h, host_try_from i = Ok h <-> host_typed h /\ host_machine_id h = i) /\
  (forall x, stable_try_from i = Ok x <-> stable_typed x /\ host_machine_id (stable_host_id x) = i) /\
  (forall x, predicted_try_from i = Ok x <-> predicted_typed x /\ host_machine_id (predicted_host_id x) = i).
Proof.
  unfold dpu_try_from, host_try_from, stable_try_from, predicted_try_from,
    dpu_typed, host_typed, stable_typed, predicted_typed.
  destruct i as [src hw []]; split_and!;
    first [intros [[s h t]]; destruct t; simpl; naive_solver|intros [[[s h t]]]; destruct t; simpl; naive_solver].
Qed.

Lemma zeros_bytes : bytes (repeat 0 32).
Proof. by apply bytes_decided. Qed.

Lemma prost_default_ok `{Base32} {E} t :
  prost_default_machine_id (E := E) t =
  Return (mk (K := machine_kind) ProductBoardChassisSerial (base32_encode (repeat 0 32)) t).
Proof. apply (new_valid (K := machine_kind)); [done|apply zeros_bytes]. Qed.

(** A typed machine identifier has its type. Converting succeeds exactly for
    identifiers of the type and keeps the identifier; the typed variant of an
    identifier is of its type; a typed host identifier always has a stable or
    predicted variant, so asking for it never panics, and neither do the default
    identifiers; both ways to tell hosts from DPUs agree. *)
Theorem subtypes_typed `{Base32} (i : MachineId) :
  (forall d, dpu_try_from i = Ok d <-> dpu_typed d /\ dpu_machine_id d = i) /\
  (forall h, host_try_from i = Ok h <-> host_typed h /\ host_machine_id h = i) /\
  (forall x, stable_try_from i = Ok x <-> stable_typed x /\ host_machine_id (stable_host_id x) = i) /\
  (forall x, predicted_try_from i = Ok x <-> predicted_typed x /\ host_machine_id (predicted_host_id x) = i) /\
  typed_subtype (machine_id_subtype i) /\ of_subtype (machine_id_subtype i) = i /\
  host_or_dpu_id i = host_or_dpu_from_subtype (machine_id_subtype i) /\
  (forall h, host_try_from i = Ok h -> host_machine_type h = Return (ty i) /\
     exists sub, host_machine_id_subtype h = Return sub /\ of_host_subtype sub = h) /\
  returns (subtype_default dpu_try_from Dpu) /\ returns (subtype_default host_try_from Host) /\
  returns (subtype_default stable_try_from Host) /\
  returns (subtype_default predicted_try_from PredictedHost).
Proof.
  destruct (try_from_iff i) as (H1 & H2 & H3 & H4). split_and!; try done.
  - unfold machine_id_subtype. by destruct (ty i) eqn:E.
  - unfold machine_id_subtype. by destruct (ty i) eqn:E.
  - unfold machine_id_subtype, host_or_dpu_id. by destruct (ty i) eqn:E.
  - unfold host_try_from, host_machine_type, host_machine_id_subtype, stable_try_from, predicted_try_from.
    intros h Hh. destruct (ty i) eqn:E; simplify_eq; simpl; rewrite E; simpl; split; try done; by eexists.
  - unfold subtype_default. by rewrite prost_default_ok.
  - unfold subtype_default. by rewrite prost_default_ok.
  - unfold subtype_default. by rewrite prost_default_ok.
  - unfold subtype_default. by rewrite prost_default_ok.
Qed.

(** A host predicted from a DPU carries the hardware of the DPU. *)
Lemma predicted_host_of_dpu `{Base32, Sha256} i d :
  is_dpu i = true -> from_hardware_info i = Return d ->
  exists p, host_id_from_dpu_hardware_info i = Return p /\ valid d /\ valid p /\
    ty d = Dpu /\ ty p = PredictedHost /\ source p = source d /\ hardware_id p = hardware_id d.
Proof.
  unfold from_hardware_info, host_id_from_dpu_hardware_info, from_hardware_info_with_type. intros ->.
  intros ([src text] & -> & Hn)%bind_return. simpl in *.
  pose proof (sha256_length text) as Hl. pose proof (sha256_bytes text) as Hb.
  rewrite new_valid in * by done. injection Hn as <-. eexists. split; [done|]. unfold valid. simpl. eauto 15.
Qed.
End HardwareId.

(** ** A reference encoding

    Base 32 as the digits of a number: 32 octets and four zero bits are 52 digits. *)
Module Base32Reference.

Fixpoint to_digits (b : Z) (n : nat) (x : Z) : list Z :=
  match n with O => [] | S n => to_digits b n (x / b) ++ [x mod b] end.
Definition of_digits (b : Z) (l : list Z) : Z := fold_left (fun acc d => acc * b + d) l 0.

Definition symbol (d : Z) : ascii :=
  ascii_of_N (Z.to_N (if d <? 10 then 48 + d else 87 + d)).
Definition value (c : ascii) : option Z :=
  let n := Z.of_N (N_of_ascii c) in
  if (48 <=? n) && (n <=? 57) then Some (n - 48)
  else if (97 <=? n) && (n <=? 118) then Some (n - 87)
  else if (65 <=? n) && (n <=? 86) then Some (n - 55)
  else None.

Definition encode (h : list Z) : string :=
  String.string_of_list_ascii (symbol <$> to_digits 32 52 (of_digits 256 h * 16)).
Definition decode (s : string) : option (list Z) :=
  vals ← mapM value (String.list_ascii_of_string s);
  let x := of_digits 32 vals in
  if x mod 16 =? 0 then Some (to_digits 256 32 (x / 16)) else None.

Definition digit (b d : Z) : Prop := 0 <= d < b.

Lemma length_to_digits b n x : length (to_digits b n x) = n.
Proof. revert x. induction n as [|n IH]; intros x; simpl; [done|]. rewrite length_app, IH. simpl. lia. Qed.

Lemma to_digits_range b n x : 0 < b -> Forall (digit b) (to_digits b n x).
Proof.
  intros Hb. revert x. induction n as [|n IH]; intros x; simpl; [constructor|].
  apply Forall_app. split; [apply IH|]. repeat constructor; apply Z.mod_pos_bound; lia.
Qed.

Lemma of_digits_snoc b l d : of_digits b (l ++ [d]) = of_digits b l * b + d.
Proof. unfold of_digits. by rewrite fold_left_app. Qed.

Lemma of_digits_range b l : 0 < b -> Forall (digit b) l -> 0 <= of_digits b l < b ^ Z.of_nat (length l).
Proof.
  intros Hb. induction l as [|d l IH] using rev_ind; [cbn; lia|]. rewrite Forall_app, Forall_singleton.
  intros [Hl Hd]. rewrite of_digits_snoc, length_app. cbn [length].
  rewrite Nat2Z.inj_add, Z.pow_add_r, Z.pow_1_r by lia. unfold digit in Hd. specialize (IH Hl). nia.
Qed.

Lemma of_to_digits b n x : 0 < b -> 0 <= x < b ^ Z.of_nat n -> of_digits b (to_digits b n x) = x.
Proof.
  intros Hb. revert x. induction n as [|n IH]; intros x Hx; cbn [to_digits]; [cbn in *; lia|].
  rewrite Nat2Z.inj_succ, Z.pow_succ_r in Hx by lia.
  rewrite of_digits_snoc, IH; [pose proof (Z.div_mod x b); lia|]. split; [apply Z.div_pos; lia|].
  apply Z.div_lt_upper_bound; lia.
Qed.

Lemma to_of_digits b l : 0 < b -> Forall (digit b) l -> to_digits b (length l) (of_digits b l) = l.
Proof.
  intros Hb. induction l as [|d l IH] using rev_ind; [done|]. rewrite Forall_app, Forall_singleton.
  intros [Hl Hd]. rewrite of_digits_snoc, length_app, Nat.add_comm. cbn [length plus to_digits].
  unfold digit in Hd. rewrite Z.div_add_l, Z.div_small, Z.add_0_r by lia. rewrite IH by done. do 2 f_equal.
  rewrite Z.add_comm, Z_mod_plus_full. by apply Z.mod_small.
Qed.

Lemma value_symbol d : digit 32 d -> value (symbol d) = Some d.
Proof.
  unfold digit. intros Hd.
  assert (Hall : forallb (fun n => bool_decide (value (symbol (Z.of_nat n)) = Some (Z.of_nat n))) (seq 0 32) = true)
    by (vm_compute; reflexivity).
  rewrite forallb_forall in Hall. specialize (Hall (Z.to_nat d)). rewrite Z2Nat.id in Hall by lia.
  apply (bool_decide_eq_true_1 (value (symbol d) = Some d)), Hall, in_seq. lia.
Qed.

Lemma symbol_value c d : value c = Some d -> digit 32 d /\ symbol d = lower_char c.
Proof.
  destruct c as [[] [] [] [] [] [] [] []]; vm_compute; try done; intros [= <-]; (split; [|reflexivity]);
    split; done.
Qed.

Lemma value_lower c : value (lower_char c) = value c.
Proof. destruct c as [[] [] [] [] [] [] [] []]; reflexivity. Qed.

Lemma mapM_value_symbols l : Forall (digit 32) l -> mapM value (symbol <$> l) = Some l.
Proof. intros Hl. apply mapM_fmap_Forall_Some. eapply Forall_impl; [exact Hl|]. apply value_symbol. Qed.

Lemma mapM_value_lower l vals :
  mapM value l = Some vals ->
  Forall (digit 32) vals /\ length vals = length l /\ symbol <$> vals = lower_char <$> l.
Proof.
  intros Hm%mapM_Some. induction Hm as [|c d l vals Hc Hm IH]; [done|]. destruct IH as (Hd & Hl & Hs).
  apply symbol_value in Hc as [Hd' Hs']. csimpl. rewrite Hs, Hs', Hl. split; [by constructor|done].
Qed.

Lemma list_of_lowercase s : String.list_ascii_of_string (to_lowercase s) = lower_char <$> String.list_ascii_of_string s.
Proof. induction s as [|c s IH]; csimpl; [done|]. by rewrite IH. Qed.

Lemma string_length_list s : String.length s = length (String.list_ascii_of_string s).
Proof. induction s as [|c s IH]; simpl; [done|]. by rewrite IH. Qed.

#[export] Instance base32_reference : Base32.
Proof.
  refine {| base32_encode := encode; base32_decode := decode |}.
  - intros h Hl Hb. unfold encode. rewrite string_length_list, String.list_ascii_of_string_of_list_ascii.
    by rewrite length_fmap, length_to_digits.
  - intros s h Hs. unfold decode. destruct (mapM value (String.list_ascii_of_string s)) as [vals|] eqn:Hv; [|done].
    apply mapM_value_lower in Hv as (Hd & Hl & Hlow). cbn [mbind option_bind].
    destruct (Z.eqb_spec (of_digits 32 vals mod 16) 0) as [E|]; [|done]. intros Hh. apply (inj Some) in Hh as <-.
    pose proof (of_digits_range 32 vals ltac:(lia) Hd) as Hr. rewrite string_length_list in Hs.
    rewrite Hl, Hs in Hr. change (32 ^ Z.of_nat 52) with (2 ^ 260) in Hr.
    assert (Hx : 0 <= of_digits 32 vals / 16 < 256 ^ Z.of_nat 32).
    { change (256 ^ Z.of_nat 32) with (2 ^ 256). split; [apply Z.div_pos; lia|].
      apply Z.div_lt_upper_bound; lia. }
    split_and!; [apply length_to_digits|by apply to_digits_range|].
    unfold encode. rewrite of_to_digits by (lia || done).
    replace (of_digits 32 vals / 16 * 16) with (of_digits 32 vals) by (pose proof (Z.div_mod (of_digits 32 vals) 16); lia).
    rewrite <- Hs, <- Hl, to_of_digits by (lia || done).
    rewrite Hlow, <- list_of_lowercase. apply String.string_of_list_ascii_of_string.
  - intros h Hl Hb. unfold decode, encode. rewrite String.list_ascii_of_string_of_list_ascii.
    rewrite mapM_value_symbols by (apply to_digits_range; lia). cbn [mbind option_bind].
    pose proof (of_digits_range 256 h ltac:(lia) Hb) as Hr. rewrite Hl in Hr.
    change (256 ^ Z.of_nat 32) with (2 ^ 256) in Hr.
    rewrite of_to_digits by (change (32 ^ Z.of_nat 52) with (2 ^ 260); lia).
    rewrite Z.mod_mul, Z.div_mul by lia. cbn [Z.eqb]. f_equal. rewrite <- Hl. by apply to_of_digits.
  - intros s. unfold decode. rewrite list_of_lowercase.
    assert (Hm : forall l, mapM value (lower_char <$> l) = mapM value l); [|by rewrite Hm].
    induction l as [|c l IH]; [done|].
    change (value (lower_char c) ≫= (fun d => mapM value (lower_char <$> l) ≫= fun ds => Some (d :: ds)) =
      value c ≫= (fun d => mapM value l ≫= fun ds => Some (d :: ds))). by rewrite value_lower, IH.
Defined.
End Base32Reference.

Module HardwareIdExample.
Import HardwareId Base32Reference.

(** Any function to 32 octets: here the first octets of the text. *)
#[export] Instance sha256_reference : Sha256.
Proof.
  refine {| sha256 s := resize 32 0 (take 32 ((fun c => Z.of_N (N_of_ascii c)) <$> String.list_ascii_of_string s)) |}.
  - intros s. by rewrite length_resize.
  - intros s. apply Forall_resize; [split; done|]. apply Forall_take, Forall_forall.
    intros b (c & -> & _)%list_elem_of_fmap. unfold u8. pose proof (N_ascii_bounded c). lia.
Defined.

Definition example_machine : string := "fm100htjtiaehv1n5vh67tbmqq4eabcjdng40f7jupsadbedhruh6rag1l0".

(** The examples of the documentation: the one of a machine parses, the ones of a
    switch do not, since the only type of switches is [n]. *)
Example documented_examples :
  (exists i, device_from_str example_machine = Return (Machine i) /\ ty i = Host /\ source i = Tpm) /\
  device_from_str "sw100htjtiaehv1n5vh67tbmqq4eabcjdng40f7jupsadbedhruh6rag1l0" =
    Throw (SwitchError (Prefix "sw100htjtiaehv1n5vh67tbmqq4eabcjdng40f7jupsadbedhruh6rag1l0")).
Proof. split; [eexists; split; [vm_compute; reflexivity|done]|vm_compute; reflexivity]. Qed.

Lemma device_id_exact_witness :
  exists i, device_from_str example_machine = Return (Machine i) /\ valid i /\
    to_string i = normalised example_machine /\ device_from_str (to_string i) = Return (Machine i).
Proof.
  eexists. assert (E : device_from_str example_machine = Return (Machine
    {| source := Tpm; hardware_id := str_drop 7 example_machine; ty := Host : @Ty machine_kind |}))
    by (vm_compute; reflexivity).
  split; [exact E|].
  destruct (device_id_exact example_machine (Machine
    {| source := Tpm; hardware_id := str_drop 7 example_machine; ty := Host : @Ty machine_kind |}))
    as (_ & Hiff & Hrt).
  destruct (proj1 Hiff E) as [Hv Hn]. split; [exact Hv|]. split; [exact Hn|exact (Hrt Hv)].
Defined.

Lemma subtypes_typed_witness :
  let i := {| source := Tpm; hardware_id := str_drop 7 example_machine; ty := PredictedHost : @Ty machine_kind |} in
  exists sub, host_machine_id_subtype (MkHost i) = Return sub /\ of_host_subtype sub = MkHost i.
Proof.
  intros i. destruct (subtypes_typed i) as (_ & _ & _ & _ & _ & _ & _ & Hh & _).
  exact (proj2 (Hh (MkHost i) eq_refl)).
Defined.

(** Upper case letters of the hardware part are accepted and normalised. *)
Example upper_case_hardware :
  device_from_str "fm100htJTIAEHV1N5VH67TBMQQ4EABCJDNG40F7JUPSADBEDHRUH6RAG1L0" = device_from_str example_machine.
Proof. vm_compute. reflexivity. Qed.

(** Two machines with different serial numbers and one identifier, whatever the hash. *)
Definition serials (product board chassis : string) : HardwareInfo :=
  {| is_aarch64 := false; tpm_ek_certificate := None;
     dmi_data := Some {| board_name := ""; product_serial := product; board_serial := board;
                         chassis_serial := chassis |} |}.
Example serials_ambiguous `{Base32, Sha256} :
  from_hardware_info (serials "a-bb" "" "") = from_hardware_info (serials "a" "b-b" "").
Proof. reflexivity. Qed.

(** A switch without a serial number gets an identifier. *)
Example empty_switch_serial :
  exists i, switch_from_hardware_info "" "v" "m" ProductBoardChassisSerial NvLink = Return i.
Proof. eexists. vm_compute. reflexivity. Qed.
End HardwareIdExample.
