(* ===== verification/IpNetwork.v ===== *)
(** * IpNetwork: addresses and networks

    [std::net::IpAddr] with the address families of
    crates/network/src/ip/address_family.rs, and the part of the [ipnetwork]
    crate that the allocator relies on, as a class with its documented behaviour.
    The instance [ipnetwork_reference] shows that the laws can be met. *)

From S2P Require Import Prelude.

Inductive IpAddr := V4 (bits : Z) | V6 (bits : Z).
#[global] Instance IpAddr_eq_dec : EqDecision IpAddr.
Proof. solve_decision. Defined.

#[global] Instance IpAddr_countable : Countable IpAddr.
Proof.
  apply (inj_countable' (fun a => match a with V4 b => inl b | V6 b => inr b end)
           (fun c : Z + Z => match c with inl b => V4 b | inr b => V6 b end)). by intros [].
Defined.

Definition bits (a : IpAddr) : Z := match a with V4 b | V6 b => b end.
Definition is_ipv4 (a : IpAddr) : bool := match a with V4 _ => true | V6 _ => false end.

Module AddressFamily.
Inductive IpAddressFamily := Ipv4 | Ipv6.
#[export] Instance IpAddressFamily_eq_dec : EqDecision IpAddressFamily.
Proof. solve_decision. Defined.
Definition interface_prefix_len (f : IpAddressFamily) : Z :=
  match f with Ipv4 => 32 | Ipv6 => 128 end.
Definition address_family (a : IpAddr) : IpAddressFamily :=
  match a with V4 _ => Ipv4 | V6 _ => Ipv6 end.
Definition pg_family (f : IpAddressFamily) : Z := match f with Ipv4 => 4 | Ipv6 => 6 end.
End AddressFamily.
Import AddressFamily.

(** The number of bits of an address. *)
Definition width (a : IpAddr) : Z := interface_prefix_len (address_family a).
Definition valid_addr (a : IpAddr) : Prop := 0 <= bits a < 2 ^ width a.
(** Another address of the same family. *)
Definition with_bits (a : IpAddr) (b : Z) : IpAddr :=
  match a with V4 _ => V4 b | V6 _ => V6 b end.
Definition same_family (a b : IpAddr) : Prop := address_family a = address_family b.
#[global] Instance same_family_dec : RelDecision same_family.
Proof. intros [] []; (by left) || (right; done). Defined.

Class IpNetworkCrate := {
  IpNetwork : Type;
  IpNetwork_eq_dec :: EqDecision IpNetwork;
  net_new : IpAddr -> Z -> option IpNetwork;
  ip : IpNetwork -> IpAddr;
  prefix : IpNetwork -> Z;
  network : IpNetwork -> IpAddr;
  broadcast : IpNetwork -> IpAddr;
  contains : IpNetwork -> IpAddr -> bool;
  (** [size()], as a number whatever the family *)
  size : IpNetwork -> Z;
  (** [iter().take(n)] *)
  iter_take : nat -> IpNetwork -> list IpAddr;
  (** the order of the networks in a [BTreeSet] *)
  net_le : IpNetwork -> IpNetwork -> Prop;
  net_le_dec :: RelDecision net_le;
  net_le_total :: Total net_le;
  net_le_trans :: Transitive net_le;

  net_valid n : valid_addr (ip n) /\ 0 <= prefix n <= width (ip n);
  net_new_ok a p : valid_addr a -> 0 <= p <= width a ->
    exists n, net_new a p = Some n /\ ip n = a /\ prefix n = p;
  net_new_err a p : width a < p -> net_new a p = None;
  network_spec n :
    network n = with_bits (ip n) (bits (ip n) / 2 ^ (width (ip n) - prefix n)
                                  * 2 ^ (width (ip n) - prefix n));
  broadcast_spec n :
    broadcast n = with_bits (ip n) (bits (network n) + 2 ^ (width (ip n) - prefix n) - 1);
  contains_spec n a :
    contains n a = bool_decide (same_family (ip n) a /\ bits (network n) <= bits a <= bits (broadcast n));
  size_spec n : 0 < prefix n -> size n = 2 ^ (width (ip n) - prefix n);
  iter_take_spec k n :
    iter_take k n = (fun b => with_bits (ip n) b) <$>
      seqZ (bits (network n)) (Z.min (Z.of_nat k) (bits (broadcast n) - bits (network n) + 1))
}.

Section Networks.
Context {crate : IpNetworkCrate}.

Definition lo (n : IpNetwork) : Z := bits (network n).
Definition hi (n : IpNetwork) : Z := bits (broadcast n).
Definition block (n : IpNetwork) : Z := 2 ^ (width (ip n) - prefix n).

(** The addresses of a network. *)
Definition covers (n : IpNetwork) (a : IpAddr) : Prop :=
  same_family (ip n) a /\ lo n <= bits a <= hi n.
Definition disjoint_nets (n m : IpNetwork) : Prop := forall a, covers n a -> covers m a -> False.
Definition subnet (n m : IpNetwork) : Prop := forall a, covers n a -> covers m a.

Lemma contains_covers n a : contains n a = true <-> covers n a.
Proof. rewrite contains_spec. apply bool_decide_eq_true. Qed.

Lemma contains_covers_false n a : contains n a = false <-> ~ covers n a.
Proof. rewrite contains_spec. apply bool_decide_eq_false. Qed.

Lemma same_family_with_bits a b : same_family a (with_bits a b).
Proof. by destruct a. Qed.
Lemma bits_with_bits a b : bits (with_bits a b) = b.
Proof. by destruct a. Qed.
Lemma width_with_bits a b : width (with_bits a b) = width a.
Proof. by destruct a. Qed.
Lemma same_family_width a b : same_family a b -> width a = width b.
Proof. unfold same_family, width. by intros ->. Qed.
Lemma same_family_with_bits_eq a b : same_family a b -> with_bits a (bits b) = b.
Proof. by destruct a, b. Qed.

Lemma width_cases a : width a = 32 \/ width a = 128.
Proof. destruct a; auto. Qed.

Lemma width_pos a : 0 < width a.
Proof. by destruct a. Qed.

Lemma block_pos n : 0 < block n.
Proof. unfold block. pose proof (net_valid n) as [_ ?]. apply Z.pow_pos_nonneg; lia. Qed.

Lemma block_divides n : 2 ^ width (ip n) = 2 ^ prefix n * block n.
Proof.
  unfold block. pose proof (net_valid n) as [_ ?]. rewrite <- Z.pow_add_r by lia. f_equal. lia.
Qed.

Lemma lo_spec n : lo n = bits (ip n) / block n * block n.
Proof. unfold lo, block. by rewrite network_spec, bits_with_bits. Qed.

Lemma hi_spec n : hi n = lo n + block n - 1.
Proof. unfold hi, lo, block. by rewrite broadcast_spec, bits_with_bits. Qed.

Lemma lo_aligned n : (block n | lo n).
Proof. rewrite lo_spec. apply Z.divide_factor_r. Qed.

Lemma lo_le_ip n : lo n <= bits (ip n) <= hi n.
Proof.
  rewrite hi_spec, lo_spec. pose proof (block_pos n). 
  pose proof (Z.div_mod (bits (ip n)) (block n)). pose proof (Z.mod_pos_bound (bits (ip n)) (block n)). lia.
Qed.

Lemma lo_hi_range n : 0 <= lo n /\ lo n <= hi n < 2 ^ width (ip n).
Proof.
  pose proof (block_pos n). pose proof (net_valid n) as [[Hb0 Hb1] Hp].
  pose proof (lo_le_ip n). rewrite hi_spec, lo_spec in *. pose proof (block_divides n) as Hd.
  assert (0 <= bits (ip n) / block n) by (apply Z.div_pos; lia).
  assert (bits (ip n) / block n < 2 ^ prefix n).
  { apply Z.div_lt_upper_bound; [lia|]. lia. }
  nia.
Qed.

Lemma network_covers n : covers n (network n).
Proof.
  split; [rewrite network_spec; apply same_family_with_bits|]. fold (lo n).
  pose proof (lo_hi_range n). lia.
Qed.

(** Two networks share an address exactly when the first address of one of them
    lies in the other: the allocator's test for an allocated candidate. *)
Lemma overlap_spec n m :
  contains n (network m) || contains m (network n) = true <-> ~ disjoint_nets n m.
Proof.
  rewrite orb_true_iff, !contains_covers. split.
  - intros [H|H] Hd; eapply Hd; eauto using network_covers.
  - intros Hd. destruct (decide (same_family (ip n) (ip m))) as [Hf|Hf]; cycle 1.
    { destruct Hd. intros a [Ha _] [Hb _]. apply Hf. unfold same_family in *. congruence. }
    assert (Hn : covers n (network m) <-> lo n <= lo m <= hi n).
    { unfold covers. fold (lo m). split; [tauto|]. split; [|done].
      rewrite network_spec. destruct (ip n), (ip m); done. }
    assert (Hm : covers m (network n) <-> lo m <= lo n <= hi m).
    { unfold covers. fold (lo n). split; [tauto|]. split; [|done].
      rewrite network_spec. destruct (ip n), (ip m); done. }
    rewrite Hn, Hm. destruct (decide (lo n <= lo m <= hi n \/ lo m <= lo n <= hi m)) as [H|H]; [done|].
    destruct Hd. intros a [_ Ha] [_ Hb]. lia.
Qed.

Lemma overlap_spec_false n m :
  contains n (network m) || contains m (network n) = false <-> disjoint_nets n m.
Proof.
  rewrite <- not_true_iff_false, overlap_spec. split; [|tauto]. intros H.
  destruct (decide (contains n (network m) || contains m (network n) = true)) as [E|E].
  { apply overlap_spec in E. by destruct H. }
  intros a Ha Hb. apply E, overlap_spec. intros Hd. by eapply Hd.
Qed.

Lemma disjoint_sym n m : disjoint_nets n m -> disjoint_nets m n.
Proof. intros H a Hm Hn. by eapply H. Qed.

(** A network made for an interface is its one address. *)
Lemma host_net a n : valid_addr a -> net_new a (width a) = Some n -> forall b, covers n b <-> b = a.
Proof.
  intros Hv Hn b. destruct (net_new_ok a (width a) Hv) as (n' & Hn' & Hip & Hp).
  { pose proof (width_pos a). lia. }
  assert (n' = n) as -> by congruence. unfold covers. rewrite hi_spec, lo_spec. unfold block. rewrite Hip, Hp, Z.sub_diag.
  change (2 ^ 0) with 1. rewrite Z.div_1_r, Z.mul_1_r. split.
  - intros [Hf Hb]. rewrite <- (same_family_with_bits_eq a b Hf). assert (bits b = bits a) as -> by lia.
    by destruct a.
  - intros ->. split; [done|lia].
Qed.
(** The addresses of a network are determined by its family and bounds. *)
Lemma covers_ext n m :
  same_family (ip n) (ip m) -> lo n = lo m -> hi n = hi m -> forall a, covers n a <-> covers m a.
Proof. unfold covers, same_family. intros -> -> -> a. done. Qed.

(** ** The networks of one length in a network *)

Section Children.
Context (parent : IpNetwork) (len : Z) (Hlen : prefix parent <= len <= width (ip parent)).

Definition child_size : Z := 2 ^ (width (ip parent) - len).

Lemma child_size_pos : 0 < child_size.
Proof. apply Z.pow_pos_nonneg; lia. Qed.

Lemma block_children : block parent = 2 ^ (len - prefix parent) * child_size.
Proof.
  unfold block, child_size. pose proof (net_valid parent) as [_ ?].
  rewrite <- Z.pow_add_r by lia. f_equal. lia.
Qed.

Lemma children_aligned : (child_size | lo parent).
Proof.
  etransitivity; [|apply lo_aligned]. rewrite block_children. apply Z.divide_factor_r.
Qed.

Lemma children_pos : 0 < 2 ^ (len - prefix parent).
Proof. apply Z.pow_pos_nonneg; lia. Qed.

Lemma child_in_range k :
  0 <= k < 2 ^ (len - prefix parent) -> lo parent + k * child_size + child_size - 1 <= hi parent.
Proof. intros Hk. rewrite hi_spec, block_children. pose proof child_size_pos. nia. Qed.

(** The [k]-th of them. *)
Definition is_child (k : Z) (c : IpNetwork) : Prop :=
  same_family (ip parent) (ip c) /\ prefix c = len /\
  lo c = lo parent + k * child_size /\ hi c = lo c + child_size - 1.

Lemma child_new k :
  0 <= k < 2 ^ (len - prefix parent) ->
  exists c, net_new (with_bits (ip parent) (lo parent + k * child_size)) len = Some c /\ is_child k c /\
    ip c = network c.
Proof.
  intros Hk. set (cur := lo parent + k * child_size). pose proof child_size_pos as Hs.
  pose proof (lo_hi_range parent) as [Hlo [_ Hhi]]. pose proof (child_in_range k Hk).
  assert (0 <= cur < 2 ^ width (ip parent)) by (subst cur; nia).
  destruct (net_new_ok (with_bits (ip parent) cur) len) as (c & Hn & Hip & Hpre).
  { unfold valid_addr. by rewrite bits_with_bits, width_with_bits. }
  { rewrite width_with_bits. pose proof (net_valid parent). lia. }
  assert (block c = child_size) as Hb.
  { unfold block, child_size. by rewrite Hip, Hpre, width_with_bits. }
  assert (lo c = cur) as Hc.
  { rewrite lo_spec, Hb, Hip, bits_with_bits. destruct children_aligned as [q Hq].
    subst cur. rewrite Hq, <- Z.mul_add_distr_r, Z.div_mul by lia. done. }
  exists c. split; [done|]. split; [split_and!; [|done|done|by rewrite hi_spec, Hb]|].
  - rewrite Hip. apply same_family_with_bits.
  - rewrite network_spec, Hip, bits_with_bits. destruct (ip parent); simpl; f_equal.
    all: rewrite <- Hc at 1; rewrite lo_spec; unfold block; by rewrite Hip, bits_with_bits.
Qed.

Lemma child_subnet k c : 0 <= k < 2 ^ (len - prefix parent) -> is_child k c -> subnet c parent.
Proof.
  intros Hk (Hf & _ & Hl & Hh) a [Ha Hr]. pose proof (child_in_range k Hk). pose proof child_size_pos.
  split; [unfold same_family in *; congruence|nia].
Qed.

(** Every subnet of the length is one of them. *)
Lemma subnet_child c :
  prefix c = len -> subnet c parent -> exists k, 0 <= k < 2 ^ (len - prefix parent) /\ is_child k c.
Proof.
  intros Hp Hsub. destruct (Hsub _ (network_covers c)) as [Hf Hr]. fold (lo c) in Hr.
  assert (Hfam : same_family (ip parent) (ip c)).
  { destruct (network_covers c) as [Hf' _]. unfold same_family in *. congruence. }
  assert (block c = child_size) as Hb.
  { unfold block, child_size. by rewrite Hp, (same_family_width _ _ Hfam). }
  destruct children_aligned as [q Hq]. destruct (lo_aligned c) as [q' Hq']. rewrite Hb in Hq'.
  pose proof child_size_pos. exists (q' - q). rewrite hi_spec, block_children in Hr.
  split; [nia|]. split_and!; [done|done|nia|by rewrite hi_spec, Hb].
Qed.

Lemma is_child_ext k c d : is_child k c -> is_child k d -> forall a, covers c a <-> covers d a.
Proof.
  intros (Hf & _ & Hl & Hh) (Hf' & _ & Hl' & Hh'). apply covers_ext; [|lia|lia].
  unfold same_family in *. congruence.
Qed.
End Children.
End Networks.

(** ** A reference implementation *)

Definition net_ok (n : IpAddr * Z) : bool :=
  (0 <=? bits n.1) && (bits n.1 <? 2 ^ width n.1) && (0 <=? n.2) && (n.2 <=? width n.1).

Lemma net_ok_spec n : net_ok n = true <-> valid_addr n.1 /\ 0 <= n.2 <= width n.1.
Proof.
  unfold net_ok, valid_addr. rewrite !andb_true_iff, !Z.leb_le, Z.ltb_lt. tauto.
Qed.

Definition ref_network (n : IpAddr * Z) : IpAddr :=
  with_bits n.1 (bits n.1 / 2 ^ (width n.1 - n.2) * 2 ^ (width n.1 - n.2)).
Definition ref_broadcast (n : IpAddr * Z) : IpAddr :=
  with_bits n.1 (bits (ref_network n) + 2 ^ (width n.1 - n.2) - 1).

(** Ordered by family, address and prefix. *)
Definition ref_key (n : IpAddr * Z) : Z :=
  ((if is_ipv4 n.1 then 0 else 2 ^ 129) + bits n.1) * 2 ^ 9 + n.2.

Definition ref_net : Type := { n : IpAddr * Z | net_ok n = true }.
#[global] Instance ref_net_eq_dec : EqDecision ref_net.
Proof.
  intros [n Hn] [m Hm]. destruct (decide (n = m)) as [->|Hne].
  - left. f_equal. apply eq_pi, _.
  - right. congruence.
Defined.

Definition ref_new (a : IpAddr) (p : Z) : option ref_net :=
  match decide (net_ok (a, p) = true) with
  | left H => Some (exist _ (a, p) H)
  | right _ => None
  end.
Definition ref_le (n m : ref_net) : Prop := ref_key (`n) <= ref_key (`m).
Definition ref_le_dec : RelDecision ref_le := fun n m => Z_le_dec _ _.

Definition ref_contains (n : ref_net) (a : IpAddr) : bool :=
  bool_decide (same_family (`n).1 a /\
    bits (ref_network (`n)) <= bits a <= bits (ref_broadcast (`n))).
Definition ref_iter_take (k : nat) (n : ref_net) : list IpAddr :=
  (fun b => with_bits (`n).1 b) <$>
    seqZ (bits (ref_network (`n)))
      (Z.min (Z.of_nat k) (bits (ref_broadcast (`n)) - bits (ref_network (`n)) + 1)).

Lemma ref_le_total : Total ref_le.
Proof. intros n m. unfold ref_le. lia. Qed.
Lemma ref_le_trans : Transitive ref_le.
Proof. intros n m k. unfold ref_le. lia. Qed.

Lemma ref_valid (n : ref_net) : valid_addr (`n).1 /\ 0 <= (`n).2 <= width (`n).1.
Proof. destruct n as [n Hn]. by apply net_ok_spec. Qed.

Lemma ref_new_ok a p :
  valid_addr a -> 0 <= p <= width a ->
  exists n, ref_new a p = Some n /\ (`n).1 = a /\ (`n).2 = p.
Proof.
  intros Ha Hp. unfold ref_new. destruct (decide (net_ok (a, p) = true)) as [H|H]; [by eexists|].
  destruct H. by apply net_ok_spec.
Qed.

Lemma ref_new_err a p : width a < p -> ref_new a p = None.
Proof.
  intros Hp. unfold ref_new. destruct (decide (net_ok (a, p) = true)) as [H|H]; [|done].
  exfalso. apply net_ok_spec in H as [_ ?]. simpl in *. lia.
Qed.

#[global] Instance ipnetwork_reference : IpNetworkCrate := {|
  IpNetwork := ref_net;
  IpNetwork_eq_dec := ref_net_eq_dec;
  net_new := ref_new;
  ip n := (`n).1;
  prefix n := (`n).2;
  network n := ref_network (`n);
  broadcast n := ref_broadcast (`n);
  contains := ref_contains;
  size n := 2 ^ (width (`n).1 - (`n).2);
  iter_take := ref_iter_take;
  net_le := ref_le;
  net_le_dec := ref_le_dec;
  net_le_total := ref_le_total;
  net_le_trans := ref_le_trans;
  net_valid := ref_valid;
  net_new_ok := ref_new_ok;
  net_new_err := ref_new_err;
  network_spec n := eq_refl;
  broadcast_spec n := eq_refl;
  contains_spec n a := eq_refl;
  size_spec n H := eq_refl;
  iter_take_spec k n := eq_refl
|}.
