(* ===== verification/IpAllocator.v ===== *)
(** * IpAllocator: crates/api-db/src/ip_allocator.rs

    The allocator of addresses and subnets of a network segment: which networks
    count as allocated, how many addresses are free, and which subnet comes
    next. Addresses and sizes are numbers; the [u8], [i32] and [u128] operations
    that can overflow are written out, and a panic is [None] (the release
    profile checks overflows). *)

From S2P Require Import Prelude StateHandler IpNetwork.
Import AddressFamily.

Module IpAllocator.
Section Allocator.
Context {crate : IpNetworkCrate}.

(** [Prefix]. *)
Record Prefix := mk_prefix {
  id : Z;
  p_prefix : IpNetwork;
  gateway : option IpAddr;
  num_reserved : Z
}.

Inductive AddressSelectionStrategy :=
| NextAvailableIp | Automatic | NextAvailablePrefix (len : Z) | StaticAddress (a : IpAddr).

Record allocator := mk_allocator {
  prefixes : list Prefix;
  used_ips : list IpNetwork;
  address_strategy : AddressSelectionStrategy
}.

(** ** Address counts *)

Inductive AddressCount := Count (n : Z) | FullIpv6Space.
Definition u128_bound : Z := 2 ^ 128.

Definition add (a b : AddressCount) : AddressCount :=
  match a, b with
  | FullIpv6Space, _ | _, FullIpv6Space => FullIpv6Space
  | Count l, Count r => if l + r <? u128_bound then Count (l + r) else FullIpv6Space
  end.

Definition free_after (total allocated : AddressCount) : result DatabaseError Z :=
  match total, allocated with
  | Count t, Count a => Ok (Z.max 0 (t - a))
  | Count _, FullIpv6Space | FullIpv6Space, FullIpv6Space => Ok 0
  | FullIpv6Space, Count a =>
      if a =? 0
      then Err (Internal "an unallocated IPv6 /0 free-address count does not fit in u128")
      else Ok (u128_bound - 1 - (a - 1))
  end.

Definition get_network_size (n : IpNetwork) : AddressCount :=
  if is_ipv4 (ip n) then (if prefix n =? 0 then Count (2 ^ 32) else Count (size n))
  else if prefix n =? 0 then FullIpv6Space else Count (size n).

(** ** Allocated networks *)

Definition host_network (a : IpAddr) : result DatabaseError IpNetwork :=
  ok_or (Internal "invalid prefix") (net_new a (interface_prefix_len (address_family a))).

Fixpoint host_networks (l : list IpAddr) : result DatabaseError (list IpNetwork) :=
  match l with
  | [] => Ok []
  | a :: l => n ← host_network a; ns ← host_networks l; Ok (n :: ns)
  end.

Definition should_reserve_network_broadcast (n : IpNetwork) : bool :=
  if is_ipv4 (ip n) then prefix n <? 31 else prefix n <? 127.

Definition build_allocated_networks (segment_prefix : Prefix) (used_ips : list IpNetwork)
    : result DatabaseError (list IpNetwork) :=
  let seg := p_prefix segment_prefix in
  if num_reserved segment_prefix <? 0
  then Err (Internal "network prefix has negative reservation count") else
  gateway ← match gateway segment_prefix with
            | Some g => if contains seg g then (fun n => [n]) <$> host_network g else Ok []
            | None => Ok []
            end;
  reserved ← host_networks (iter_take (Z.to_nat (num_reserved segment_prefix)) seg);
  ends ← (if should_reserve_network_broadcast seg
          then host_networks [network seg; broadcast seg] else Ok []);
  Ok (gateway ++ reserved ++ ends ++ filter (fun n => contains seg (network n) = true) used_ips).

(** [sort_by_key(Reverse(prefix))]: a stable sort, longest prefixes first. *)
Definition longer_first (n m : IpNetwork) : Prop := prefix m <= prefix n.
#[export] Instance longer_first_dec : RelDecision longer_first := fun n m => Z_le_dec _ _.

Definition collapse_step (kept : list IpNetwork) (this_network : IpNetwork) : list IpNetwork :=
  if existsb (fun existing => contains existing (network this_network)) kept
  then kept else kept ++ [this_network].

Definition collapse_allocated_networks (input_networks : list IpNetwork) : list IpNetwork :=
  merge_sort net_le (fold_left collapse_step (merge_sort longer_first input_networks) []).

Definition get_allocated (a : allocator) (segment_prefix : Prefix)
    : result DatabaseError (list IpNetwork) :=
  collapse_allocated_networks <$> build_allocated_networks segment_prefix (used_ips a).

Definition num_free (a : allocator) (prefix_id : Z) : result DatabaseError Z :=
  segment_prefix ← ok_or (Internal "network prefix is not part of this IP allocator")
                     (snd <$> list_find (fun p => id p = prefix_id) (prefixes a));
  allocated ← map_err (fun e => Internal ("failed to get_allocated: " +:+ display_db e))
                (get_allocated a segment_prefix);
  free_after (get_network_size (p_prefix segment_prefix))
    (fold_left add (get_network_size <$> allocated) (Count 0)).

(** ** The next available subnet *)

(** [NetworkDetails]. *)
Record NetworkDetails := mk_details { base_ip : Z; broadcast_ip : Z; network_size : Z }.

(** [(1 << k) as u128] for an [i32] and for a [u128]. *)
Definition i32_shift (k : Z) : Z := (if k =? 31 then - 2 ^ 31 else 2 ^ k) mod u128_bound.

(** [get_network_details]: [None] when [32 - prefix_length] or
    [128 - prefix_length] underflows. *)
Definition get_network_details (seg : IpNetwork) (prefix_length : Z) : option NetworkDetails :=
  if is_ipv4 (ip seg) then
    if 32 <? prefix_length then None
    else Some (mk_details (bits (network seg)) (bits (broadcast seg)) (i32_shift (32 - prefix_length)))
  else
    if 128 <? prefix_length then None
    else Some (mk_details (bits (network seg)) (bits (broadcast seg)) (2 ^ (128 - prefix_length))).

Definition build_candidate_subnet (seg : IpNetwork) (current_ip prefix_length : Z)
    : result DatabaseError IpNetwork :=
  ok_or (Internal "invalid prefix")
    (if is_ipv4 (ip seg) then net_new (V4 (current_ip mod 2 ^ 32)) prefix_length
     else net_new (V6 current_ip) prefix_length).

Definition is_allocated (allocated_networks : list IpNetwork) (candidate_subnet : IpNetwork) : bool :=
  existsb (fun allocated_network =>
    contains allocated_network (network candidate_subnet)
    || contains candidate_subnet (network allocated_network)) allocated_networks.

(** One turn of the search from [current_ip]. *)
Definition search_step (seg : IpNetwork) (prefix_length : Z) (allocated_networks : list IpNetwork)
    (d : NetworkDetails) (current_ip : Z)
    : Z + option (result DatabaseError (option IpNetwork)) :=
  if broadcast_ip d <? current_ip then inr (Some (Ok None)) else
  match build_candidate_subnet seg current_ip prefix_length with
  | Err e => inr (Some (Err e))
  | Ok candidate_subnet =>
      if is_allocated allocated_networks candidate_subnet
      then if current_ip + network_size d <? u128_bound
           then inl (current_ip + network_size d) else inr None
      else inr (Some (Ok (Some candidate_subnet)))
  end.

(** Enough turns to step past the broadcast address. *)
Definition search_bound (d : NetworkDetails) : positive :=
  Z.to_pos ((broadcast_ip d - base_ip d) / network_size d + 2).

Definition next_available_prefix (seg : IpNetwork) (prefix_length : Z)
    (allocated_networks : list IpNetwork) : option (result DatabaseError (option IpNetwork)) :=
  if (prefix seg =? 128) && (prefix_length =? 128) then
    if existsb (fun allocated => contains allocated (network seg)) allocated_networks
    then Some (Ok None) else Some (Ok (Some seg))
  else if prefix_length <=? prefix seg then
    Some (Err (Internal "requested prefix length must be greater than the network segment prefix length"))
  else
    d ← get_network_details seg prefix_length;
    match pos_loop (search_step seg prefix_length allocated_networks d) (search_bound d) (base_ip d) with
    | inr r => r
    | inl _ => Some (Err (Internal "search did not end"))
    end.

(** [Iterator::next]: the remaining allocator and the item; [None] inside is the
    end of the iteration, outside a panic. *)
Inductive alloc_error := AllocDatabase (e : DatabaseError) | PrefixExhausted (a : IpAddr).

Definition prefix_length_of (s : AddressSelectionStrategy) (seg : IpNetwork)
    : result alloc_error Z :=
  match s with
  | NextAvailableIp | Automatic => Ok (if is_ipv4 (ip seg) then 32 else 128)
  | NextAvailablePrefix len => Ok len
  | StaticAddress _ =>
      Err (AllocDatabase (Internal "StaticAddress cannot be allocated by the DHCP allocator"))
  end.

Definition next (a : allocator)
    : option (option (allocator * (Z * result alloc_error IpNetwork))) :=
  match prefixes a with
  | [] => Some None
  | segment_prefix :: rest =>
      let a' := mk_allocator rest (used_ips a) (address_strategy a) in
      let seg := p_prefix segment_prefix in
      let item r := Some (Some (a', (id segment_prefix, r))) in
      match get_allocated a segment_prefix with
      | Err e => item (Err (AllocDatabase (Internal ("failed to get allocated IPs for prefix: "
                                                      +:+ display_db e))))
      | Ok allocated =>
          match prefix_length_of (address_strategy a) seg with
          | Err e => item (Err e)
          | Ok len =>
              match next_available_prefix seg len allocated with
              | None => None
              | Some (Err e) => item (Err (AllocDatabase (Internal
                  ("failed to get next available for prefix: " +:+ display_db e))))
              | Some (Ok None) => item (Err (PrefixExhausted (ip seg)))
              | Some (Ok (Some n)) => item (Ok n)
              end
          end
      end
  end.

(** ** The search *)

Section Search.
Variable seg : IpNetwork.
Variable len : Z.
Variable allocated : list IpNetwork.
Hypothesis Hlen : prefix seg < len <= width (ip seg).
(** A first half of the whole IPv4 space is not asked for: [1 << 31] is negative. *)
Hypothesis Hhalf : is_ipv4 (ip seg) = true -> 1 < len.

Abbreviation step_size := (child_size seg len).

Lemma step_size_pos : 0 < step_size.
Proof. apply child_size_pos. lia. Qed.

Lemma network_details :
  get_network_details seg len = Some (mk_details (lo seg) (hi seg) step_size).
Proof.
  unfold get_network_details, child_size, lo, hi. pose proof (net_valid seg) as [_ Hp].
  destruct (ip seg) as [b|b] eqn:E; cbn [is_ipv4] in *; unfold width in *; simpl in *.
  - destruct (Z.ltb_spec 32 len); [lia|]. do 2 f_equal. unfold i32_shift.
    destruct (Z.eqb_spec (32 - len) 31); [lia|]. unfold u128_bound.
    apply Z.mod_small. split; [lia|]. apply Z.pow_lt_mono_r; lia.
  - destruct (Z.ltb_spec 128 len); [lia|]. done.
Qed.

(** The candidate at step [k] of the search. *)
Definition candidate (k : Z) (c : IpNetwork) : Prop :=
  build_candidate_subnet seg (lo seg + k * step_size) len = Ok c.

Lemma candidate_index k :
  0 <= k -> lo seg + k * step_size <= hi seg -> 0 <= k < 2 ^ (len - prefix seg).
Proof.
  intros Hk. rewrite hi_spec, (block_children seg len) by lia. pose proof step_size_pos. nia.
Qed.

Lemma candidate_in_range k :
  0 <= k -> lo seg + k * step_size <= hi seg -> lo seg + k * step_size + step_size - 1 <= hi seg.
Proof. intros Hk H. apply child_in_range; [lia|]. by apply candidate_index. Qed.

Lemma candidate_exists k :
  0 <= k -> lo seg + k * step_size <= hi seg -> exists c, candidate k c /\ is_child seg len k c.
Proof.
  intros Hk Hle. destruct (child_new seg len ltac:(lia) k) as (c & Hn & Hc & _); [by apply candidate_index|].
  exists c. split; [|done]. unfold candidate, build_candidate_subnet.
  pose proof (lo_hi_range seg) as [Hlo [_ Hhi]]. pose proof step_size_pos.
  destruct (ip seg) eqn:E; simpl in *; [|by rewrite Hn].
  rewrite Z.mod_small; [by rewrite Hn|]. unfold width in Hhi. simpl in Hhi. nia.
Qed.

(** Every subnet of the requested length is a candidate. *)
Lemma subnet_candidate c' :
  prefix c' = len -> subnet c' seg ->
  exists k c, 0 <= k /\ lo seg + k * step_size <= hi seg /\ candidate k c /\
    lo c' = lo seg + k * step_size /\ forall a, covers c' a <-> covers c a.
Proof.
  intros Hp Hsub. destruct (subnet_child seg len ltac:(lia) c' Hp Hsub) as (k & Hk & Hc').
  pose proof (child_in_range seg len ltac:(lia) k Hk). pose proof step_size_pos.
  destruct (candidate_exists k) as (c & Hc & Hcc); [lia|lia|].
  exists k, c. split_and!; [lia|lia|done|apply Hc'|]. by apply (is_child_ext seg len k).
Qed.

Lemma is_allocated_false c : is_allocated allocated c = false <-> forall n, n ∈ allocated -> disjoint_nets c n.
Proof.
  unfold is_allocated. rewrite <- not_true_iff_false, existsb_exists. split.
  - intros H n Hn. apply disjoint_sym, overlap_spec_false. apply not_true_iff_false.
    intros E. apply H. exists n. split; [by apply list_elem_of_In|done].
  - intros H (n & Hn%list_elem_of_In & E). apply overlap_spec in E. destruct E. by apply disjoint_sym, H.
Qed.

Lemma is_allocated_true c : is_allocated allocated c = true <-> exists n, n ∈ allocated /\ ~ disjoint_nets c n.
Proof.
  unfold is_allocated. rewrite existsb_exists. split.
  - intros (n & Hn & E). apply list_elem_of_In in Hn. exists n. split; [done|].
    apply overlap_spec in E. intros Hd. by destruct E; apply disjoint_sym.
  - intros (n & Hn & Hd). exists n. split; [by apply list_elem_of_In|]. apply overlap_spec.
    intros E. by destruct Hd; apply disjoint_sym.
Qed.

(** What the search may return when started at step [k]. *)
Definition search_result (k : Z) (r : option (result DatabaseError (option IpNetwork))) : Prop :=
  match r with
  | Some (Ok (Some c)) => exists j, k <= j /\ lo seg + j * step_size <= hi seg /\ candidate j c /\
      is_allocated allocated c = false /\
      forall i ci, k <= i < j -> candidate i ci -> is_allocated allocated ci = true
  | Some (Ok None) =>
      forall i ci, k <= i -> lo seg + i * step_size <= hi seg -> candidate i ci ->
        is_allocated allocated ci = true
  | Some (Err _) => False
  | None => u128_bound <= hi seg + step_size /\
      forall i ci, k <= i -> lo seg + i * step_size <= hi seg -> candidate i ci ->
        is_allocated allocated ci = true
  end.

Lemma search_result_back k c r :
  candidate k c -> is_allocated allocated c = true -> search_result (k + 1) r -> search_result k r.
Proof.
  intros Hc Ha Hr.
  assert (Hall : forall (P : Z -> Prop), (forall i ci, k + 1 <= i -> P i -> candidate i ci -> is_allocated allocated ci = true) ->
            forall i ci, k <= i -> P i -> candidate i ci -> is_allocated allocated ci = true).
  { intros P H i ci Hi HP Hci. destruct (decide (i = k)) as [->|].
    - unfold candidate in *. rewrite Hc in Hci. by simplify_eq.
    - eapply H; [|done..]. lia. }
  destruct r as [[[c'|]|e]|]; simpl in *; [|by apply Hall|done|].
  - destruct Hr as (j & Hj & Hle & Hcj & Hf & Hprev). exists j. split_and!; [lia|done..|].
    intros i ci Hi. apply (Hall (fun i => i < j)); [|lia|lia].
    intros i' ci' Hi' Hlt. apply Hprev. lia.
  - destruct Hr as [? Hr]. split; [done|]. by apply Hall.
Qed.

Lemma search_loop n k :
  0 <= k <= (hi seg - lo seg) / step_size + 1 ->
  (hi seg - lo seg) / step_size + 2 <= k + Z.of_nat n ->
  exists r, nat_loop (search_step seg len allocated (mk_details (lo seg) (hi seg) step_size)) n
              (lo seg + k * step_size) = inr r /\ search_result k r.
Proof.
  pose proof step_size_pos as Hs. revert k. induction n as [|n IH]; intros k Hk Hn; [lia|].
  simpl. unfold search_step at 1. simpl. destruct (Z.ltb_spec (hi seg) (lo seg + k * step_size)) as [Hlt|Hle].
  { eexists. split; [done|]. simpl. intros i ci Hi Hle. nia. }
  destruct (candidate_exists k) as (c & Hc & _ & _ & Hclo & Hchi); [lia|done|].
  pose proof Hc as Hc'. unfold candidate in Hc'. rewrite Hc'.
  destruct (is_allocated allocated c) eqn:Ea.
  - destruct (Z.ltb_spec (lo seg + k * step_size + step_size) u128_bound) as [Hb|Hb].
    + assert (Hk1 : k <= (hi seg - lo seg) / step_size) by (apply Z.div_le_lower_bound; lia).
      destruct (IH (k + 1)) as (r & Hr & Hres); [lia..|]. exists r.
      replace (lo seg + k * step_size + step_size) with (lo seg + (k + 1) * step_size) by lia.
      split; [done|]. by eapply search_result_back.
    + eexists. split; [done|]. simpl. split; [lia|]. intros i ci Hi Hle' Hci.
      assert (i = k) as ->.
      { pose proof (lo_hi_range seg) as [_ [_ Hh]]. assert (2 ^ width (ip seg) <= u128_bound).
        { apply Z.pow_le_mono_r; [lia|]. by destruct (ip seg). }
        nia. }
      unfold candidate in Hci. rewrite Hc' in Hci. by simplify_eq.
  - eexists. split; [done|]. simpl. exists k. split_and!; [lia|done..|]. intros i ci ?. lia.
Qed.

Lemma next_available_prefix_search :
  exists r, next_available_prefix seg len allocated = r /\ search_result 0 r.
Proof.
  unfold next_available_prefix. pose proof (net_valid seg) as [_ Hp].
  destruct (Z.eqb_spec (prefix seg) 128) as [E|E]; simpl.
  { exfalso. destruct (ip seg); unfold width in *; simpl in *; lia. }
  destruct (Z.leb_spec len (prefix seg)); [lia|]. rewrite network_details. simpl.
  rewrite pos_loop_nat. unfold search_bound; simpl.
  assert (0 <= (hi seg - lo seg) / step_size).
  { apply Z.div_pos; [|apply step_size_pos]. pose proof (lo_hi_range seg). lia. }
  destruct (search_loop (Pos.to_nat (Z.to_pos ((hi seg - lo seg) / step_size + 2))) 0)
    as (r & Hl & Hr); [lia| |].
  { rewrite positive_nat_Z, Z2Pos.id by lia. lia. }
  rewrite Z.mul_0_l, Z.add_0_r in Hl. rewrite Hl. by exists r.
Qed.
End Search.

(** ** Properties of the search *)

Lemma disjoint_ext n n' m :
  (forall a, covers n a <-> covers n' a) -> disjoint_nets n m <-> disjoint_nets n' m.
Proof. intros H. split; intros Hd a Ha; (apply Hd; by apply H). Qed.

(** The search is a first fit. *)
Lemma next_available_prefix_first_fit seg len allocated :
  prefix seg < len <= width (ip seg) -> (is_ipv4 (ip seg) = true -> 1 < len) ->
  let taken c := exists n, n ∈ allocated /\ ~ disjoint_nets c n in
  match next_available_prefix seg len allocated with
  | Some (Ok (Some c)) =>
      prefix c = len /\ subnet c seg /\ (forall n, n ∈ allocated -> disjoint_nets c n) /\
      forall c', prefix c' = len -> subnet c' seg -> lo c' < lo c -> taken c'
  | Some (Ok None) => forall c', prefix c' = len -> subnet c' seg -> taken c'
  | Some (Err _) => False
  | None => is_ipv4 (ip seg) = false /\ u128_bound <= hi seg + 2 ^ (128 - len) /\
      forall c', prefix c' = len -> subnet c' seg -> taken c'
  end.
Proof.
  intros Hlen Hhalf taken.
  destruct (next_available_prefix_search seg len allocated Hlen Hhalf) as (r & -> & Hr).
  pose proof (step_size_pos seg len Hlen) as Hs.
  assert (Htaken : forall c', prefix c' = len -> subnet c' seg -> (forall k c, 0 <= k ->
    lo seg + k * child_size seg len <= hi seg -> candidate seg len k c ->
    lo c' = lo seg + k * child_size seg len -> is_allocated allocated c = true) -> taken c').
  { intros c' Hp Hsub H.
    destruct (subnet_candidate seg len Hlen Hhalf c' Hp Hsub) as (k & c & Hk & Hle & Hc & Hlo & Hext).
    destruct (proj1 (is_allocated_true allocated c) (H k c Hk Hle Hc Hlo)) as (n & Hn & Hd).
    exists n. split; [done|]. by rewrite (disjoint_ext _ _ _ Hext). }
  destruct r as [[[c|]|e]|]; simpl in Hr; [| |done|].
  - destruct Hr as (j & Hj & Hle & Hc & Hf & Hprev).
    destruct (candidate_exists seg len Hlen Hhalf j) as (c0 & Hc0 & Hfam & Hp & Hlo & Hhi); [done..|].
    assert (c0 = c) as -> by (unfold candidate in *; congruence).
    split_and!; [done| |by apply is_allocated_false|].
    + intros a [Hfa Hb]. pose proof (candidate_in_range seg len Hlen j Hj Hle).
      split; [unfold same_family in *; congruence|]. nia.
    + intros c' Hp' Hsub Hlt. apply Htaken; [done..|]. intros k ck Hk Hkle Hck Hck'.
      eapply Hprev; [|exact Hck]. nia.
  - intros c' Hp Hsub. apply Htaken; [done..|]. intros k c Hk Hkle Hck _. by eapply Hr.
  - destruct Hr as [Hb Hr]. pose proof (lo_hi_range seg) as [_ [_ Hh]].
    unfold child_size, width, u128_bound in *. destruct (ip seg) as [b|b] eqn:E; simpl in *.
    + exfalso. assert (2 ^ (32 - len) <= 2 ^ 32) by (apply Z.pow_le_mono_r; lia). lia.
    + split_and!; [done..|]. intros c' Hp Hsub. apply Htaken; [done..|].
      intros k c Hk Hkle Hck _. by eapply Hr.
Qed.

(** C31: The search is a first fit, for a length between that of the segment and the
    width of an address, and above 1 for IPv4. A subnet that is returned has the
    requested length, lies in the segment, shares no address with any allocated network,
    and every lower subnet of that length is taken; when none is returned, all
    are taken. The search always ends, and it panics only for an exhausted IPv6
    segment at the very end of the address space. *)
Theorem next_available_prefix_spec seg len allocated :
  prefix seg < len <= width (ip seg) -> (is_ipv4 (ip seg) = true -> 1 < len) ->
  let taken c := exists n, n ∈ allocated /\ ~ disjoint_nets c n in
  match next_available_prefix seg len allocated with
  | Some (Ok (Some c)) =>
      prefix c = len /\ subnet c seg /\ (forall n, n ∈ allocated -> disjoint_nets c n) /\
      forall c', prefix c' = len -> subnet c' seg -> lo c' < lo c -> taken c'
  | Some (Ok None) => forall c', prefix c' = len -> subnet c' seg -> taken c'
  | Some (Err _) => False
  | None => is_ipv4 (ip seg) = false /\ u128_bound <= hi seg + 2 ^ (128 - len) /\
      forall c', prefix c' = len -> subnet c' seg -> taken c'
  end.
Proof. apply next_available_prefix_first_fit. Qed.

(** ** Collapsing *)

#[export] Instance longer_first_trans : Transitive longer_first.
Proof. intros ???; unfold longer_first; lia. Qed.
#[export] Instance longer_first_total : Total longer_first.
Proof. intros ??; unfold longer_first; lia. Qed.

(** No network of the list has its first address in a smaller one. *)
Definition unshadowed (l : list IpNetwork) : Prop :=
  forall x y, x ∈ l -> y ∈ l -> prefix y < prefix x -> ~ covers x (network y).

(** A network of the same length that contains the first address has the same
    addresses. *)
Lemma same_block x y : prefix x = prefix y -> covers x (network y) -> forall a, covers y a <-> covers x a.
Proof.
  intros Hp [Hf Hr]. assert (Hfam : same_family (ip y) (ip x)).
  { destruct (network_covers y) as [Hy _]. unfold same_family in *. congruence. }
  assert (block y = block x) as Hb.
  { unfold block. by rewrite Hp, (same_family_width _ _ Hfam). }
  fold (lo y) in Hr. destruct (lo_aligned x) as [q Hq], (lo_aligned y) as [q' Hq'].
  pose proof (block_pos x). rewrite hi_spec in Hr. assert (q = q') by nia.
  apply covers_ext; [done|nia|rewrite !hi_spec; nia].
Qed.

Lemma collapse_step_cases kept y :
  collapse_step kept y = kept ++ [y] \/
  (collapse_step kept y = kept /\ exists x, x ∈ kept /\ covers x (network y)).
Proof.
  unfold collapse_step. destruct (existsb _ kept) eqn:E; [right|by left]. split; [done|].
  apply existsb_exists in E as (x & Hx%list_elem_of_In & Hc). exists x. split; [done|].
  by apply contains_covers.
Qed.

Lemma collapse_fold l kept full :
  unshadowed full -> l ++ kept ⊆ full ->
  StronglySorted longer_first l -> (forall x y, x ∈ kept -> y ∈ l -> prefix y <= prefix x) ->
  let out := fold_left collapse_step l kept in
  kept ⊆ out /\ out ⊆ l ++ kept /\
  forall y, y ∈ l -> exists x, x ∈ out /\ forall a, covers y a -> covers x a.
Proof.
  intros Hu. revert kept. induction l as [|y l IH]; intros kept Hfull Hs Hord; simpl; [set_solver|].
  apply StronglySorted_inv in Hs as [Hs Hall]. rewrite Forall_forall in Hall.
  assert (Hy : forall x, x ∈ collapse_step kept y -> x = y \/ x ∈ kept).
  { intros x. destruct (collapse_step_cases kept y) as [->|[-> _]]; set_solver. }
  assert (Hk : kept ⊆ collapse_step kept y).
  { destruct (collapse_step_cases kept y) as [->|[-> _]]; set_solver. }
  destruct (IH (collapse_step kept y)) as (H1 & H2 & H3); [set_solver|done| |].
  { intros x z [->|Hx]%Hy Hz; [by apply Hall|]. apply Hord; set_solver. }
  split_and!; [by intros x Hx; apply H1, Hk|..].
  { intros x [Hx|Hx]%H2%elem_of_app; [set_solver|]. apply Hy in Hx as [->|Hx]; set_solver. }
  intros z [->|Hz]%elem_of_cons; [|by apply H3].
  destruct (collapse_step_cases kept y) as [E|[E (x & Hx & Hc)]].
  - exists y. split; [apply H1; rewrite E; set_solver|done].
  - exists x. split; [set_solver|]. intros a Ha. apply (same_block x y); [|done..].
    assert (prefix y <= prefix x) by (apply Hord; set_solver).
    destruct (decide (prefix y = prefix x)); [done|]. exfalso.
    apply (Hu x y); [set_solver|set_solver|lia|done].
Qed.

(** Collapsing keeps the addresses of an unshadowed list. *)
Lemma collapse_covers l :
  unshadowed l ->
  collapse_allocated_networks l ⊆ l /\
  forall y, y ∈ l -> exists x, x ∈ collapse_allocated_networks l /\ forall a, covers y a -> covers x a.
Proof.
  intros Hu. unfold collapse_allocated_networks.
  destruct (collapse_fold (merge_sort longer_first l) [] l) as (_ & H2 & H3).
  - done.
  - intros x. rewrite app_nil_r. by rewrite (merge_sort_Permutation longer_first l).
  - apply (StronglySorted_merge_sort longer_first).
  - set_solver.
  - split.
    + intros x. rewrite (merge_sort_Permutation net_le). intros Hx%H2.
      rewrite app_nil_r, (merge_sort_Permutation longer_first l) in Hx. done.
    + intros y Hy. destruct (H3 y) as (x & Hx & Hc).
      { by rewrite (merge_sort_Permutation longer_first l). }
      exists x. by rewrite (merge_sort_Permutation net_le).
Qed.

(** ** What the allocator hands out *)

(** The addresses of a segment that must not be handed out: the gateway, the
    reserved first addresses, the network and broadcast address where they are
    distinct, and what is used. *)
Inductive unavailable (sp : Prefix) (used : list IpNetwork) (x : IpAddr) : Prop :=
| un_gateway : gateway sp = Some x -> unavailable sp used x
| un_reserved i : 0 <= i < num_reserved sp -> x = with_bits (ip (p_prefix sp)) (lo (p_prefix sp) + i) ->
    unavailable sp used x
| un_network : should_reserve_network_broadcast (p_prefix sp) = true -> x = network (p_prefix sp) ->
    unavailable sp used x
| un_broadcast : should_reserve_network_broadcast (p_prefix sp) = true -> x = broadcast (p_prefix sp) ->
    unavailable sp used x
| un_used u : u ∈ used -> covers (p_prefix sp) (network u) -> covers u x -> unavailable sp used x.

Lemma covers_valid n a : covers n a -> valid_addr a.
Proof.
  intros [Hf Hr]. pose proof (lo_hi_range n). unfold valid_addr.
  rewrite <- (same_family_width _ _ Hf). lia.
Qed.

Lemma host_network_ok a :
  valid_addr a -> exists n, host_network a = Ok n /\ forall b, covers n b <-> b = a.
Proof.
  intros Hv. unfold host_network. fold (width a).
  destruct (net_new_ok a (width a) Hv) as (n & Hn & _); [pose proof (width_pos a); lia|].
  exists n. rewrite Hn. split; [done|]. by apply host_net.
Qed.

Lemma host_networks_elem l ns a :
  host_networks l = Ok ns -> a ∈ l -> valid_addr a -> exists n, n ∈ ns /\ covers n a.
Proof.
  revert ns. induction l as [|b l IH]; intros ns H Ha Hv; [by apply elem_of_nil in Ha|]. simpl in H.
  destruct (host_network b) as [n|e] eqn:E; [|done]. simpl in H.
  destruct (host_networks l) as [ns'|e]; [|done]. simplify_eq/=.
  apply elem_of_cons in Ha as [->|Ha].
  - destruct (host_network_ok b Hv) as (n' & Hn' & Hc). assert (n' = n) as -> by congruence.
    exists n. split; [by left|]. by apply Hc.
  - destruct (IH ns' eq_refl Ha Hv) as (m & Hm & Hc). exists m. split; [by right|done].
Qed.

Lemma build_allocated_covers sp used l x :
  build_allocated_networks sp used = Ok l -> unavailable sp used x -> covers (p_prefix sp) x ->
  exists n, n ∈ l /\ covers n x.
Proof.
  unfold build_allocated_networks. destruct (num_reserved sp <? 0); [done|]. intros H Hu Hx.
  pose proof (covers_valid _ _ Hx) as Hv.
  destruct (match gateway sp with Some g => _ | None => _ end) as [lg|e] eqn:Eg; [|done]. simpl in H.
  destruct (host_networks (iter_take _ _)) as [lr|e] eqn:Er; [|done]. simpl in H.
  destruct (if should_reserve_network_broadcast _ then _ else _) as [le|e] eqn:Ee; [|done].
  simplify_eq/=. destruct Hu as [Hg|i Hi ->|Hs ->|Hs ->|u Hu Hin Hux].
  - rewrite Hg in Eg. assert (contains (p_prefix sp) x = true) as Hc by (by apply contains_covers).
    rewrite Hc in Eg. destruct (host_network_ok x Hv) as (n & Hn & Hn'). rewrite Hn in Eg. simplify_eq/=.
    exists n. split; [set_solver|]. by apply Hn'.
  - destruct (host_networks_elem _ _ (with_bits (ip (p_prefix sp)) (lo (p_prefix sp) + i)) Er)
      as (n & Hn & Hc); [|done|exists n; set_solver].
    rewrite iter_take_spec. apply list_elem_of_fmap_2. apply elem_of_seqZ.
    destruct Hx as [_ Hx]. rewrite bits_with_bits in Hx. fold (lo (p_prefix sp)) (hi (p_prefix sp)). lia.
  - rewrite Hs in Ee. change (host_networks [network (p_prefix sp); broadcast (p_prefix sp)] = Ok le) in Ee.
    destruct (host_networks_elem _ _ (network (p_prefix sp)) Ee) as (n & Hn & Hc);
      [set_solver|done|exists n; set_solver].
  - rewrite Hs in Ee. change (host_networks [network (p_prefix sp); broadcast (p_prefix sp)] = Ok le) in Ee.
    destruct (host_networks_elem _ _ (broadcast (p_prefix sp)) Ee) as (n & Hn & Hc);
      [set_solver|done|exists n; set_solver].
  - exists u. split; [|done]. rewrite !elem_of_app, list_elem_of_filter. do 3 right.
    split; [by apply contains_covers|done].
Qed.

Lemma next_available_prefix_disjoint seg len allocated c :
  len <> 1 -> next_available_prefix seg len allocated = Some (Ok (Some c)) ->
  subnet c seg /\ forall n, n ∈ allocated -> disjoint_nets c n.
Proof.
  intros Hhalf H. destruct (decide (prefix seg < len <= width (ip seg))) as [Hlen|Hlen].
  { pose proof (net_valid seg) as [_ Hp]. assert (is_ipv4 (ip seg) = true -> 1 < len) as Hh by lia.
    pose proof (next_available_prefix_first_fit seg len allocated Hlen Hh) as Hs.
    rewrite H in Hs. naive_solver. }
  unfold next_available_prefix in H. destruct ((_ =? 128) && _) eqn:E.
  - destruct (existsb _ _) eqn:Ex; simplify_eq. split; [by intros a|]. intros n Hn a Ha Hna.
    apply not_true_iff_false in Ex. apply Ex, existsb_exists. exists n.
    split; [by apply list_elem_of_In|]. apply contains_covers.
    apply andb_prop in E as [E%Z.eqb_eq _]. pose proof (net_valid c) as [_ Hp].
    assert (block c = 1) as Hb.
    { unfold block. assert (width (ip c) = 128) as -> by (destruct (ip c); unfold width in *; simpl in *; lia).
      by rewrite E. }
    assert (network c = a) as ->; [|done]. destruct Ha as [Hf Hr].
    rewrite network_spec. rewrite <- (same_family_with_bits_eq _ _ Hf). f_equal.
    fold (block c). rewrite hi_spec, lo_spec, Hb in Hr. rewrite Hb. lia.
  - destruct (Z.leb_spec len (prefix seg)); [done|]. unfold get_network_details in H.
    destruct (ip seg) eqn:Eip; unfold width in Hlen; simpl in *.
    + destruct (Z.ltb_spec 32 len); [done|lia].
    + destruct (Z.ltb_spec 128 len); [done|lia].
Qed.

(** What the allocator hands out is free. A network returned for a segment
    prefix lies in it and contains neither the gateway nor a reserved address,
    nor the network or broadcast address of a prefix that has them, nor any
    address of a used network; provided no network that counts as allocated has
    its first address in a smaller one, which collapsing would lose. *)
Theorem next_avoids_unavailable a sp rest a' i n :
  prefixes a = sp :: rest -> address_strategy a <> NextAvailablePrefix 1 ->
  (forall l, build_allocated_networks sp (used_ips a) = Ok l -> unshadowed l) ->
  next a = Some (Some (a', (i, Ok n))) ->
  i = id sp /\ prefixes a' = rest /\ used_ips a' = used_ips a /\
  subnet n (p_prefix sp) /\ forall x, covers n x -> ~ unavailable sp (used_ips a) x.
Proof.
  intros Hp Hst Hun H. unfold next in H. rewrite Hp in H. unfold get_allocated in H.
  destruct (build_allocated_networks sp (used_ips a)) as [l|e] eqn:El; [|done]. simpl in H.
  destruct (prefix_length_of _ _) as [len|e] eqn:Elen; [|done].
  destruct (next_available_prefix _ _ _) as [[[c|]|e]|] eqn:En; [|done..]. simplify_eq/=.
  apply next_available_prefix_disjoint in En as [Hsub Hd].
  - split_and!; [done..|]. intros x Hx Hux.
    destruct (build_allocated_covers _ _ _ _ El Hux (Hsub x Hx)) as (m & Hm & Hc).
    destruct (collapse_covers l (Hun l eq_refl)) as [_ Hcov].
    destruct (Hcov m Hm) as (m' & Hm' & Hc'). eapply Hd; [exact Hm'|exact Hx|by apply Hc'].
  - unfold prefix_length_of in Elen.
    destruct (address_strategy a), (is_ipv4 (ip (p_prefix sp))); simplify_eq/=; congruence.
Qed.

(** ** Free addresses *)

(** The addresses of a network as numbers. *)
Definition addrs (n : IpNetwork) : gset Z := list_to_set (seqZ (lo n) (block n)).
Definition all_addrs (l : list IpNetwork) : gset Z := ⋃ (addrs <$> l).

Lemma elem_of_addrs n b : b ∈ addrs n <-> lo n <= b <= hi n.
Proof. unfold addrs. rewrite elem_of_list_to_set, elem_of_seqZ, hi_spec. lia. Qed.

Lemma size_addrs n : Z.of_nat (base.size (addrs n)) = block n.
Proof.
  unfold addrs. rewrite size_list_to_set by apply NoDup_seqZ. rewrite length_seqZ.
  pose proof (block_pos n). lia.
Qed.

(** Networks that overlap are the same one, as for addresses given out one by
    one or in blocks of one length. *)
Definition no_nesting (l : list IpNetwork) : Prop :=
  forall x y, x ∈ l -> y ∈ l -> prefix x = prefix y \/ disjoint_nets x y.

Lemma no_nesting_unshadowed l : no_nesting l -> unshadowed l.
Proof.
  intros H x y Hx Hy Hlt Hc. destruct (H x y Hx Hy) as [|Hd]; [lia|].
  eapply Hd; [exact Hc|apply network_covers].
Qed.

Definition total (l : list IpNetwork) : Z := foldr Z.add 0 (block <$> l).

Lemma all_addrs_elem l b : b ∈ all_addrs l <-> exists n, n ∈ l /\ lo n <= b <= hi n.
Proof.
  unfold all_addrs. rewrite elem_of_union_list. setoid_rewrite list_elem_of_fmap. split.
  - intros (X & (n & -> & Hn) & Hb). exists n. by rewrite <- elem_of_addrs.
  - intros (n & Hn & Hb). exists (addrs n). rewrite elem_of_addrs. eauto.
Qed.

Lemma total_snoc l y : total (l ++ [y]) = total l + block y.
Proof.
  unfold total. rewrite fmap_app, foldr_app. simpl. rewrite Z.add_0_r.
  generalize (block y). intros z. induction (block <$> l) as [|a l' IH]; simpl; lia.
Qed.

#[export] Instance total_proper : Proper ((≡ₚ) ==> (=)) total.
Proof.
  intros l l' Hp. unfold total.
  induction Hp; csimpl in *; try lia.
Qed.

Lemma addrs_disjoint x y :
  same_family (ip x) (ip y) -> disjoint_nets x y -> addrs x ## addrs y.
Proof.
  intros Hf Hd b Hx%elem_of_addrs Hy%elem_of_addrs.
  apply (Hd (with_bits (ip x) b)); (split; [|by rewrite bits_with_bits]).
  - apply same_family_with_bits.
  - pose proof (same_family_with_bits (ip x) b). unfold same_family in *. congruence.
Qed.

(** Collapsing keeps one of each of the disjoint networks, so their sizes add up. *)
Lemma collapse_total full fam :
  no_nesting full -> (forall x, x ∈ full -> same_family fam (ip x)) ->
  forall l kept, l ⊆ full -> kept ⊆ full ->
  Z.of_nat (base.size (all_addrs kept)) = total kept ->
  Z.of_nat (base.size (all_addrs (fold_left collapse_step l kept)))
  = total (fold_left collapse_step l kept).
Proof.
  intros Hn Hfam l. induction l as [|y l IH]; intros kept Hl Hk Hs; simpl; [done|].
  assert (y ∈ full) as Hy by (apply Hl; by left).
  assert (l ⊆ full) as Hl' by (intros z Hz; apply Hl; by right).
  unfold collapse_step at 2 4. destruct (existsb _ kept) eqn:E; [by apply IH|].
  apply IH; [done| |].
  { intros z [Hz| ->%list_elem_of_singleton]%elem_of_app; [by apply Hk|done]. }
  rewrite total_snoc, <- Hs, <- size_addrs, <- Nat2Z.inj_add, <- size_union.
  - do 2 f_equal. unfold all_addrs. rewrite fmap_app, union_list_app_L. simpl. set_solver.
  - intros b (x & Hx & Hb)%all_addrs_elem Hby.
    assert (same_family (ip x) (ip y)) as Hf.
    { pose proof (Hfam x (Hk x Hx)). pose proof (Hfam y Hy). unfold same_family in *. congruence. }
    destruct (Hn x y (Hk x Hx) Hy) as [Hp|Hd].
    + apply not_true_iff_false in E. apply E, existsb_exists. exists x.
      split; [by apply list_elem_of_In|].
      assert (contains x (network y) || contains y (network x) = true) as Ho.
      { apply overlap_spec. intros Hd. apply (addrs_disjoint x y Hf Hd b); [|done].
        by apply elem_of_addrs. }
      apply orb_prop in Ho as [Ho|Ho]; [done|]. apply contains_covers in Ho. apply contains_covers.
      apply (same_block y x); [done|done|apply network_covers].
    + eapply (addrs_disjoint x y Hf Hd b); [by apply elem_of_addrs|done].
Qed.

(** A number as an [AddressCount]. *)
Definition to_count (z : Z) : AddressCount := if z <? u128_bound then Count z else FullIpv6Space.

Lemma network_size_count n : get_network_size n = to_count (block n).
Proof.
  unfold get_network_size, to_count, u128_bound. pose proof (net_valid n) as [_ Hp].
  assert (Hpos : 0 < prefix n -> (block n <? 2 ^ 128) = true /\ size n = block n).
  { intros H0. rewrite size_spec by done. split; [|done]. apply Z.ltb_lt. unfold block.
    pose proof (width_cases (ip n)). apply Z.pow_lt_mono_r; lia. }
  destruct (Z.eqb_spec (prefix n) 0) as [E|E].
  - unfold block. rewrite E. destruct (ip n); reflexivity.
  - destruct (Hpos ltac:(lia)) as [-> ->]. by destruct (is_ipv4 _).
Qed.

Lemma add_to_count x y : 0 <= x -> 0 <= y -> add (to_count x) (to_count y) = to_count (x + y).
Proof.
  intros Hx Hy. unfold to_count, add.
  destruct (Z.ltb_spec x u128_bound), (Z.ltb_spec y u128_bound), (Z.ltb_spec (x + y) u128_bound);
    try done; lia.
Qed.

Lemma total_nonneg l : 0 <= total l.
Proof.
  unfold total. induction l as [|n l IH]; csimpl; [lia|]. pose proof (block_pos n). lia.
Qed.

Lemma fold_add_total l z :
  0 <= z -> fold_left add (get_network_size <$> l) (to_count z) = to_count (z + total l).
Proof.
  revert z. induction l as [|n l IH]; intros z Hz; csimpl; [unfold total; csimpl; f_equal; lia|].
  pose proof (block_pos n). rewrite network_size_count, add_to_count, IH by lia.
  f_equal. unfold total. csimpl. lia.
Qed.

Lemma free_after_count t a :
  0 <= a <= t -> t <= u128_bound -> (t = u128_bound -> 0 < a) ->
  free_after (to_count t) (to_count a) = Ok (t - a).
Proof.
  intros Ha Ht Hpos. unfold to_count, free_after.
  destruct (Z.ltb_spec t u128_bound), (Z.ltb_spec a u128_bound); try lia; [f_equal; lia| |f_equal; lia].
  destruct (Z.eqb_spec a 0); [lia|]. f_equal. lia.
Qed.

Lemma build_allocated_nonempty sp used l :
  build_allocated_networks sp used = Ok l -> prefix (p_prefix sp) = 0 -> l <> [].
Proof.
  unfold build_allocated_networks. destruct (num_reserved sp <? 0); [done|]. intros H Hp.
  destruct (match gateway sp with Some g => _ | None => _ end) as [lg|e]; [|done]. simpl in H.
  destruct (host_networks (iter_take _ _)) as [lr|e]; [|done]. simpl in H.
  unfold should_reserve_network_broadcast in H. rewrite Hp in H.
  assert ((if is_ipv4 (ip (p_prefix sp)) then 0 <? 31 else 0 <? 127) = true) as Ht by (by destruct (is_ipv4 _)).
  rewrite Ht in H. destruct (host_network (network _)) as [x|e]; [|done]. simpl in H.
  destruct (host_network (broadcast _)) as [y|e]; [|done]. simplify_eq/=.
  intros E. apply (f_equal length) in E. rewrite !length_app in E. simpl in E. lia.
Qed.

(** Collapsing networks that do not nest keeps their addresses, and counts each once. *)
Lemma collapsed_addrs l : no_nesting l -> all_addrs (collapse_allocated_networks l) = all_addrs l.
Proof.
  intros Hn. destruct (collapse_covers l (no_nesting_unshadowed l Hn)) as [Hin Hcov].
  apply set_eq. intros b. rewrite !all_addrs_elem. split; intros (n & Hn' & Hb').
  - exists n. split; [by apply Hin|done].
  - destruct (Hcov n Hn') as (m & Hm & Hc). exists m. split; [done|].
    destruct (Hc (with_bits (ip n) b)) as [_ Hr]; [|by rewrite bits_with_bits in Hr].
    split; [apply same_family_with_bits|by rewrite bits_with_bits].
Qed.

Lemma collapsed_total seg l :
  no_nesting l -> (forall x, x ∈ l -> subnet x seg) ->
  Z.of_nat (base.size (all_addrs l)) = total (collapse_allocated_networks l).
Proof.
  intros Hn Hsub. rewrite <- (collapsed_addrs l Hn).
  assert (Hfam : forall x, x ∈ l -> same_family (ip seg) (ip x)).
  { intros x Hx. destruct (Hsub x Hx _ (network_covers x)) as [H1 _].
    destruct (network_covers x) as [H2 _]. unfold same_family in *. congruence. }
  unfold collapse_allocated_networks. set (kept := fold_left _ _ _).
  rewrite (merge_sort_Permutation net_le kept) at 2.
  assert (all_addrs (merge_sort net_le kept) = all_addrs kept) as ->.
  { apply set_eq. intros b. rewrite !all_addrs_elem. by setoid_rewrite (merge_sort_Permutation net_le kept). }
  apply (collapse_total l (ip seg)); [done..| | |done].
  - intros x. by rewrite (merge_sort_Permutation longer_first l).
  - by intros x ?%elem_of_nil.
Qed.

Lemma addrs_in_segment seg l : (forall x, x ∈ l -> subnet x seg) -> all_addrs l ⊆ addrs seg.
Proof.
  intros Hsub b (n & Hn' & Hb')%all_addrs_elem. apply elem_of_addrs.
  destruct (Hsub n Hn' (with_bits (ip n) b)) as [_ Hr]; [|by rewrite bits_with_bits in Hr].
  split; [apply same_family_with_bits|by rewrite bits_with_bits].
Qed.

Lemma block_bound n : block n <= u128_bound /\ (block n = u128_bound -> prefix n = 0).
Proof.
  unfold block, u128_bound. pose proof (net_valid n) as [_ Hp]. pose proof (width_cases (ip n)). split.
  - apply Z.pow_le_mono_r; lia.
  - intros E. destruct (decide (prefix n = 0)) as [|Hne]; [done|].
    assert (2 ^ (width (ip n) - prefix n) < 2 ^ 128); [|lia]. apply Z.pow_lt_mono_r; lia.
Qed.

Lemma all_addrs_nonempty l : l <> [] -> (0 < base.size (all_addrs l))%nat.
Proof.
  destruct l as [|x l]; [done|]. intros _.
  assert (lo x ∈ all_addrs (x :: l)) as Hx.
  { apply all_addrs_elem. exists x. split; [by left|]. pose proof (lo_hi_range x). lia. }
  destruct (decide (base.size (all_addrs (x :: l)) = 0%nat)) as [E0|]; [|lia].
  apply size_empty_inv in E0. set_solver.
Qed.

(** The number of free addresses is exact. For a prefix of the allocator whose
    allocated networks lie in it and do not nest, [num_free] is the number of
    its addresses that no allocated network covers, also for the whole IPv6
    space, whose size does not fit in a [u128]. *)
Theorem num_free_exact a pid k sp l :
  list_find (fun p => id p = pid) (prefixes a) = Some (k, sp) ->
  build_allocated_networks sp (used_ips a) = Ok l -> no_nesting l ->
  (forall x, x ∈ l -> subnet x (p_prefix sp)) ->
  num_free a pid = Ok (Z.of_nat (base.size (addrs (p_prefix sp) ∖ all_addrs l))).
Proof.
  intros Hf Hb Hn Hsub. unfold num_free. rewrite Hf. simpl. unfold get_allocated. rewrite Hb. simpl.
  pose proof (addrs_in_segment _ _ Hsub) as Hss. rewrite size_difference by done.
  pose proof (subseteq_size _ _ Hss) as Hle. pose proof (collapsed_total _ _ Hn Hsub) as Htot.
  rewrite Nat2Z.inj_sub, size_addrs, Htot by done.
  rewrite network_size_count. change (Count 0) with (to_count 0). rewrite fold_add_total, Z.add_0_l by done.
  pose proof (size_addrs (p_prefix sp)) as Hseg. destruct (block_bound (p_prefix sp)) as [Hmax Hfull].
  apply free_after_count; [pose proof (total_nonneg (collapse_allocated_networks l)); lia|done|].
  intros E. pose proof (all_addrs_nonempty l (build_allocated_nonempty _ _ _ Hb (Hfull E))). lia.
Qed.

(** ** What collapsing loses *)

Lemma collapse_subset l : forall kept, fold_left collapse_step l kept ⊆ l ++ kept.
Proof.
  induction l as [|y l IH]; intros kept; simpl; [done|]. intros x [Hx|Hx]%IH%elem_of_app; [set_solver|].
  destruct (collapse_step_cases kept y) as [E|[E _]]; rewrite E in Hx; set_solver.
Qed.

(** A network is dropped if a smaller one starts at the same address. *)
Lemma collapse_fold_drops y l : forall kept,
  StronglySorted longer_first l -> y ∉ kept ->
  (exists z, z ∈ kept /\ covers z (network y)) \/ (exists x, x ∈ l /\ prefix y < prefix x /\ network x = network y) ->
  y ∉ fold_left collapse_step l kept.
Proof.
  induction l as [|w l IH]; intros kept Hs Hy H; simpl; [done|].
  apply StronglySorted_inv in Hs as [Hs Hall]. rewrite Forall_forall in Hall.
  destruct H as [(z & Hz & Hc)|(x & Hx & Hlt & Hn)].
  - assert (Hk : kept ⊆ collapse_step kept w) by (destruct (collapse_step_cases kept w) as [->|[-> _]]; set_solver).
    apply IH; [done| |left; exists z; split; [by apply Hk|done]]. destruct (decide (w = y)) as [->|].
    + unfold collapse_step. destruct (existsb _ kept) eqn:E; [done|]. exfalso. apply not_true_iff_false in E.
      apply E, existsb_exists. exists z. rewrite <- list_elem_of_In, contains_covers. done.
    + destruct (collapse_step_cases kept w) as [->|[-> _]]; set_solver.
  - assert (Hw : w <> y).
    { intros ->. apply elem_of_cons in Hx as [->|Hx]; [lia|]. specialize (Hall x Hx). unfold longer_first in Hall. lia. }
    assert (Hy' : y ∉ collapse_step kept w) by (destruct (collapse_step_cases kept w) as [->|[-> _]]; set_solver).
    apply IH; [done..|]. apply elem_of_cons in Hx as [->|Hx]; [left|right; by exists x].
    destruct (collapse_step_cases kept w) as [->|[-> (z & Hz & Hc)]].
    + exists w. split; [set_solver|]. rewrite <- Hn. apply network_covers.
    + exists z. by rewrite <- Hn.
Qed.

Lemma collapse_drops l x y :
  x ∈ l -> prefix y < prefix x -> network x = network y ->
  (y ∉ collapse_allocated_networks l) /\ collapse_allocated_networks l ⊆ l.
Proof.
  intros Hx Hlt Hn. unfold collapse_allocated_networks. split.
  - rewrite (merge_sort_Permutation net_le). apply collapse_fold_drops; [|set_solver|right; exists x; split_and!; try done].
    + apply (StronglySorted_merge_sort longer_first).
    + by rewrite (merge_sort_Permutation longer_first l).
  - intros z. rewrite (merge_sort_Permutation net_le). intros Hz%collapse_subset.
    by rewrite app_nil_r, (merge_sort_Permutation longer_first l) in Hz.
Qed.

Lemma host_network_spec a :
  valid_addr a -> exists n, host_network a = Ok n /\ ip n = a /\ prefix n = width a /\ forall b, covers n b <-> b = a.
Proof.
  intros Hv. unfold host_network. fold (width a).
  destruct (net_new_ok a (width a) Hv) as (n & Hn & Hi & Hp); [pose proof (width_pos a); lia|].
  exists n. rewrite Hn. split_and!; [done..|]. by apply host_net.
Qed.

Lemma lone_allocated sp u :
  gateway sp = None -> num_reserved sp = 0 -> should_reserve_network_broadcast (p_prefix sp) = true ->
  network u = network (p_prefix sp) ->
  exists a b, build_allocated_networks sp [u] = Ok [a; b; u] /\
    prefix a = width (ip (p_prefix sp)) /\ network a = network (p_prefix sp) /\
    (forall x, covers a x <-> x = network (p_prefix sp)) /\ (forall x, covers b x <-> x = broadcast (p_prefix sp)).
Proof.
  intros Hg Hr Hs Hn. set (seg := p_prefix sp) in *.
  destruct (host_network_spec (network seg)) as (a & Ha & Hi & Hp & Hc).
  { apply (covers_valid seg), network_covers. }
  destruct (host_network_ok (broadcast seg)) as (b & Hb & Hcb).
  { apply (covers_valid seg). split; [rewrite broadcast_spec; apply same_family_with_bits|]. fold (hi seg).
    pose proof (lo_hi_range seg). lia. }
  exists a, b. split_and!; [|..|done|done].
  - unfold build_allocated_networks. fold seg. rewrite Hg, Hr, Hs. simpl.
    assert (E : iter_take 0 seg = []).
    { rewrite iter_take_spec. pose proof (lo_hi_range seg). unfold lo, hi in *. by rewrite Z.min_l by (simpl; lia). }
    change (Z.to_nat 0) with 0%nat. rewrite E. simpl. rewrite Ha. simpl. rewrite Hb. simpl. rewrite filter_cons_True; [done|].
    rewrite Hn. apply contains_covers, network_covers.
  - rewrite Hp. symmetry. apply same_family_width. rewrite network_spec. apply same_family_with_bits.
  - apply Hc, network_covers.
Qed.

(** The search finds a free address no later than one that is free. *)
Lemma search_reaches seg allocated m :
  is_ipv4 (ip seg) = true -> prefix seg < 32 -> prefix m = 32 -> subnet m seg ->
  (forall x, x ∈ allocated -> disjoint_nets m x) ->
  exists c, next_available_prefix seg 32 allocated = Some (Ok (Some c)) /\ subnet c seg /\ prefix c = 32 /\ lo c <= lo m.
Proof.
  intros H4 Hp Hm Hsub Hfree.
  assert (Hw : width (ip seg) = 32) by (by destruct (ip seg)).
  pose proof (next_available_prefix_first_fit seg 32 allocated) as H. simpl in H.
  specialize (H ltac:(lia) ltac:(lia)).
  assert (Hnot : ~ exists n, n ∈ allocated /\ ~ disjoint_nets m n) by (intros (n & Hn & Hd); by apply Hd, Hfree).
  destruct (next_available_prefix seg 32 allocated) as [[[c|]|e]|]; [| |done|].
  - destruct H as (H1 & H2 & _ & H3). exists c. split_and!; [done..|].
    destruct (Z.le_gt_cases (lo c) (lo m)) as [|Hlt]; [done|]. destruct Hnot. by apply H3.
  - destruct Hnot. by apply H.
  - destruct H as [H _]. congruence.
Qed.

(** C35: collapsing loses a network that starts at the reserved network address. In
    an IPv4 prefix without gateway and further reservations, if the only used network
    starts where the prefix does and is longer than it but more than one address, then
    the next address that the allocator hands out is an address of the used network. *)
Theorem collapse_hands_out_used_address sp u :
  is_ipv4 (ip (p_prefix sp)) = true -> gateway sp = None -> num_reserved sp = 0 ->
  network u = network (p_prefix sp) -> prefix (p_prefix sp) < prefix u < 32 ->
  exists n, next (mk_allocator [sp] [u] NextAvailableIp)
            = Some (Some (mk_allocator [] [u] NextAvailableIp, (id sp, Ok n))) /\ subnet n u.
Proof.
  intros H4 Hg Hr Hn Hp. set (seg := p_prefix sp) in *.
  assert (Hw : width (ip seg) = 32) by (by destruct (ip seg)).
  destruct (lone_allocated sp u Hg Hr) as (a & b & Hbuild & Hpa & Hna & Hca & Hcb); [|done|].
  { unfold should_reserve_network_broadcast. fold seg. rewrite H4. apply Z.ltb_lt. lia. }
  fold seg in Hpa, Hna, Hca, Hcb.
  destruct (collapse_drops [a; b; u] a u) as [Hdrop Hsub]; [set_solver|lia|congruence|].
  set (allocated := collapse_allocated_networks [a; b; u]) in *.
  assert (Hlo : lo u = lo seg) by (unfold lo; by rewrite Hn).
  assert (Hfu : same_family (ip u) (ip seg)).
  { pose proof (network_covers u) as [Hu _]. pose proof (network_covers seg) as [Hs _]. rewrite Hn in Hu.
    unfold same_family in *. congruence. }
  assert (Hbu : 2 <= block u).
  { unfold block. rewrite (same_family_width _ _ Hfu), Hw. apply (Z.pow_le_mono_r 2 1); lia. }
  assert (Hsmall : block u < block seg).
  { unfold block. rewrite (same_family_width _ _ Hfu), Hw. apply Z.pow_lt_mono_r; lia. }
  destruct (host_network_spec (with_bits (ip seg) (lo seg + 1))) as (m & _ & Him & Hpm & Hcm).
  { unfold valid_addr. rewrite bits_with_bits, width_with_bits. pose proof (lo_hi_range seg). rewrite hi_spec in *. lia. }
  assert (Hfree : forall x, x ∈ allocated -> disjoint_nets m x).
  { intros x Hx y Hy%Hcm Hxy. subst y. pose proof (Hsub x Hx) as Hxl. rewrite !elem_of_cons in Hxl.
    destruct Hxl as [->|[->|[->|?%elem_of_nil]]]; [| |done|done].
    - apply Hca, (f_equal bits) in Hxy. rewrite bits_with_bits in Hxy. unfold lo in *. lia.
    - apply Hcb, (f_equal bits) in Hxy. rewrite bits_with_bits in Hxy. fold (hi seg) in Hxy. rewrite hi_spec in Hxy. lia. }
  destruct (search_reaches seg allocated m) as (c & Hnext & Hcs & Hpc & Hlc); [done|lia|by rewrite Hpm, width_with_bits| |done|].
  { intros x ->%Hcm. split; [apply same_family_with_bits|]. rewrite bits_with_bits, hi_spec. lia. }
  exists c. split.
  - unfold next, get_allocated. simpl. fold seg. rewrite Hbuild. simpl. fold allocated. by rewrite H4, Hnext.
  - assert (Hlm : lo m = lo seg + 1).
    { pose proof (proj1 (Hcm _) (network_covers m)) as E. unfold lo at 1. by rewrite E, bits_with_bits. }
    intros x Hx. destruct (Hcs x Hx) as [Hf Hr']. destruct Hx as [Hfx Hx].
    assert (Hwc : width (ip c) = 32) by (rewrite <- Hw; apply same_family_width; unfold same_family in *; congruence).
    rewrite hi_spec in Hx. unfold block in Hx. rewrite Hpc, Hwc in Hx. change (2 ^ (32 - 32)) with 1 in Hx.
    split; [unfold same_family in *; congruence|]. rewrite hi_spec. lia.
Qed.

End Allocator.
(** ** Concrete allocators *)

Definition v4 (a b c d : Z) : IpAddr := V4 (((a * 256 + b) * 256 + c) * 256 + d).
Definition net (a : IpAddr) (p : Z) (H : net_ok (a, p) = true) : @IpNetwork ipnetwork_reference :=
  exist _ (a, p) H.

(** 10.0.0.0/29 with a gateway, two reserved addresses and one used address. *)
Definition small_prefix : Prefix :=
  mk_prefix 1 (net (v4 10 0 0 0) 29 eq_refl) (Some (v4 10 0 0 1)) 2.
Definition small_allocator : allocator :=
  mk_allocator [small_prefix] [net (v4 10 0 0 2) 32 eq_refl] NextAvailableIp.

Lemma small_hosts l :
  build_allocated_networks small_prefix (used_ips small_allocator) = Ok l -> forall x, x ∈ l -> prefix x = 32.
Proof.
  intros H x Hx. assert (forallb (fun n => prefix n =? 32) l = true) as Hall.
  { vm_compute in H. injection H as <-. vm_compute. reflexivity. }
  rewrite forallb_forall in Hall. apply Z.eqb_eq, Hall. by apply list_elem_of_In.
Qed.

Lemma next_available_prefix_spec_witness :
  let seg := net (v4 10 0 0 0) 29 eq_refl in
  let allocated := [net (v4 10 0 0 0) 31 eq_refl] in
  next_available_prefix seg 30 allocated = Some (Ok (Some (net (v4 10 0 0 4) 30 eq_refl))) /\
  disjoint_nets (net (v4 10 0 0 4) 30 eq_refl) (net (v4 10 0 0 0) 31 eq_refl).
Proof.
  intros seg allocated.
  assert (next_available_prefix seg 30 allocated = Some (Ok (Some (net (v4 10 0 0 4) 30 eq_refl)))) as E
    by (vm_compute; reflexivity).
  split; [exact E|].
  pose proof (next_available_prefix_spec seg 30 allocated) as H. rewrite E in H.
  refine (proj1 (proj2 (proj2 (H _ _))) _ _).
  - vm_compute. split; [reflexivity|discriminate].
  - reflexivity.
  - by left.
Defined.

Lemma next_avoids_unavailable_witness :
  covers (net (v4 10 0 0 3) 32 eq_refl) (v4 10 0 0 3) /\
  ~ unavailable small_prefix (used_ips small_allocator) (v4 10 0 0 3).
Proof.
  split; [by split; [|vm_compute; split]|].
  refine (proj2 (proj2 (proj2 (proj2 (next_avoids_unavailable small_allocator small_prefix []
    (mk_allocator [] (used_ips small_allocator) NextAvailableIp) 1
    (net (v4 10 0 0 3) 32 eq_refl) eq_refl _ _ _)))) (v4 10 0 0 3) _).
  - discriminate.
  - intros l Hl x y Hx Hy Hlt. rewrite (small_hosts l Hl x Hx), (small_hosts l Hl y Hy) in Hlt. lia.
  - reflexivity.
  - by split; [|vm_compute; split].
Defined.

Lemma num_free_exact_witness :
  num_free small_allocator 1 = Ok 4 /\
  exists l, build_allocated_networks small_prefix (used_ips small_allocator) = Ok l /\
    num_free small_allocator 1
    = Ok (Z.of_nat (base.size (addrs (p_prefix small_prefix) ∖ all_addrs l))).
Proof.
  split; [reflexivity|]. eexists. split; [reflexivity|].
  apply (num_free_exact small_allocator 1 0 small_prefix).
  - reflexivity.
  - reflexivity.
  - intros x y Hx Hy. left. by rewrite !(small_hosts _ eq_refl) by done.
  - intros x Hx a [Hf Hr]. assert (forallb (fun n => is_ipv4 (ip n) && (lo (p_prefix small_prefix) <=? lo n)
      && (hi n <=? hi (p_prefix small_prefix)))
      match build_allocated_networks small_prefix (used_ips small_allocator) with Ok l => l | Err _ => [] end
      = true) as Hall by reflexivity.
    rewrite forallb_forall in Hall. apply list_elem_of_In in Hx. specialize (Hall x Hx).
    rewrite !andb_true_iff, !Z.leb_le in Hall. destruct Hall as [[H4 Hlo] Hhi]. split; [|lia].
    unfold same_family in *. rewrite <- Hf. by destruct (ip x).
Defined.

(** 10.0.0.0/30 used in 10.0.0.0/24. *)
Lemma collapse_hands_out_used_address_witness :
  let u := net (v4 10 0 0 0) 30 eq_refl in
  let sp := mk_prefix 1 (net (v4 10 0 0 0) 24 eq_refl) None 0 in
  exists n, next (mk_allocator [sp] [u] NextAvailableIp)
            = Some (Some (mk_allocator [] [u] NextAvailableIp, (1, Ok n))) /\ subnet n u.
Proof.
  intros u sp. apply (collapse_hands_out_used_address sp u); [reflexivity..|].
  vm_compute. done.
Defined.

(** Two requests make the allocator panic: a subnet longer than 32 bits from an
    IPv4 prefix, and any address from an exhausted IPv6 segment at the end of
    the address space. *)
Theorem next_available_prefix_panics :
  next_available_prefix (net (v4 10 0 0 0) 24 eq_refl) 64 [] = None /\
  next_available_prefix (net (V6 (2 ^ 128 - 2)) 127 eq_refl) 128
    [net (V6 (2 ^ 128 - 2)) 127 eq_refl] = None.
Proof. split; vm_compute; reflexivity. Qed.

End IpAllocator.
