(* ===== verification/PrefixAllocator.v ===== *)
(** * PrefixAllocator: instance prefixes in a VPC prefix

    The arithmetic shared by the capacity report and the allocation of instance
    prefixes: [occupied_prefix_intervals] and [occupied_prefix_count]
    (crates/api-db/src/network_prefix.rs), the statistics of a VPC prefix
    ([update_stats] of crates/api-db/src/vpc_prefix.rs), the allocation policy of
    crates/api-model/src/vpc/mod.rs and [PrefixAllocator] of
    crates/api-core/src/network_segment/allocate.rs. Numbers are [u128]; [None]
    is a panic (an overflow or a failed assertion). The rows that a statement
    returns are arguments; the texts of the errors are left out. *)

From S2P Require Import Prelude StateHandler IpNetwork.
Import AddressFamily.

Definition u128_max : Z := 2 ^ 128 - 1.
(** Arithmetic with overflow checks. *)
Definition u128_add (a b : Z) : option Z := if a + b <=? u128_max then Some (a + b) else None.
Definition u128_sub (a b : Z) : option Z := if b <=? a then Some (a - b) else None.
Definition saturating_add (a b : Z) : Z := Z.min (a + b) u128_max.
Definition saturating_sub (a b : Z) : Z := Z.max (a - b) 0.
(** [1u128 << k] and [1u128.checked_shl(k)]. *)
Definition shl_one (k : Z) : option Z := if k <? 128 then Some (2 ^ k) else None.

Module PrefixAllocator.

(** ** The allocation policy *)

Definition instance_prefix_len (address_family : IpAddressFamily) (slaac_enabled : bool) : Z :=
  match address_family, slaac_enabled with
  | Ipv4, _ => 31
  | Ipv6, true => 64
  | Ipv6, false => 127
  end.

Definition vpc_prefix_can_allocate_interface_prefix (address_family : IpAddressFamily)
    (parent_prefix_len interface_prefix_len : Z) : bool :=
  (parent_prefix_len <? interface_prefix_len)
  || match address_family with
     | Ipv4 => (parent_prefix_len =? 31) && (interface_prefix_len =? 31)
     | Ipv6 => false
     end.

(** The errors of crates/api-core/src/errors.rs that the allocation uses; a database
    error is kept as it is. *)
Inductive CarbideError :=
| InvalidArgument
| FailedPrecondition
| InvalidConfiguration
| InternalError
| ResourceExhausted
| AlreadyFoundError
| UnavailableError
| DatabaseFailure (e : DatabaseError).

Section Allocator.
Context {crate : IpNetworkCrate}.

Definition is_ipv6_net (n : IpNetwork) : bool := negb (is_ipv4 (ip n)).
Definition family_of (n : IpNetwork) : IpAddressFamily := address_family (ip n).

(** [Ord] of pairs. *)
Definition pair_le (x y : Z * Z) : Prop := x.1 < y.1 \/ (x.1 = y.1 /\ x.2 <= y.2).
#[global] Instance pair_le_dec : RelDecision pair_le.
Proof. intros x y. unfold pair_le. apply _. Defined.

(** ** Occupied children *)

(** The children of [parent] that one occupied network touches. *)
Definition interval_of (parent : IpNetwork) (child_size : Z) (n : IpNetwork) : option (Z * Z) :=
  let parent_start := bits (network parent) in
  let parent_end := bits (broadcast parent) in
  let occupied_start := Z.max (bits (network n)) parent_start in
  let occupied_end := Z.min (bits (broadcast n)) parent_end in
  if occupied_start <=? occupied_end
  then Some ((occupied_start - parent_start) / child_size, (occupied_end - parent_start) / child_size)
  else None.

Definition occupied_prefix_intervals (parent : IpNetwork) (child_prefix_length : Z)
    (occupied_prefixes : list IpNetwork) : option (list (Z * Z)) :=
  let max_bits := interface_prefix_len (family_of parent) in
  if max_bits <? child_prefix_length then None
  else child_size ← shl_one (max_bits - child_prefix_length);
       Some (merge_sort pair_le
         (omap (interval_of parent child_size)
            (filter (fun n => is_ipv6_net n = is_ipv6_net parent) occupied_prefixes))).

Fixpoint count_loop (occupied current_start current_end : Z) (l : list (Z * Z)) : option Z :=
  match l with
  | [] => a ← u128_add occupied current_end; b ← u128_sub a current_start; u128_add b 1
  | (start, end_) :: l =>
      if start <=? saturating_add current_end 1
      then count_loop occupied current_start (Z.max current_end end_) l
      else a ← u128_sub current_end current_start;
           b ← u128_add a 1;
           occupied ← u128_add occupied b;
           count_loop occupied start end_ l
  end.

Definition occupied_prefix_count (parent : IpNetwork) (child_prefix_length : Z)
    (occupied_prefixes : list IpNetwork) : option Z :=
  intervals ← occupied_prefix_intervals parent child_prefix_length occupied_prefixes;
  match intervals with
  | [] => Some 0
  | (first_start, first_end) :: l => count_loop 0 first_start first_end l
  end.

(** ** The statistics of a VPC prefix *)

Record VpcPrefixStats := mk_stats {
  total_31_segments : Z;
  available_31_segments : Z;
  total_linknet_segments : Z;
  available_linknet_segments : Z
}.

(** The part of [update_stats] for one VPC prefix, given whether its VPC uses
    SLAAC and the network prefixes that occupy it. *)
Definition update_stats (vpc_prefix : IpNetwork) (slaac_enabled : bool) (occupied_prefixes : list IpNetwork)
    (status : VpcPrefixStats) : option VpcPrefixStats :=
  let family := family_of vpc_prefix in
  let allocation_prefix_len := instance_prefix_len family slaac_enabled in
  let vpc_prefix_len := prefix vpc_prefix in
  total ← (if vpc_prefix_can_allocate_interface_prefix family vpc_prefix_len allocation_prefix_len
           then shl_one (allocation_prefix_len - vpc_prefix_len)
           else Some 0);
  occupied ← occupied_prefix_count vpc_prefix allocation_prefix_len occupied_prefixes;
  let available := saturating_sub total occupied in
  let legacy n old := if is_ipv4 (ip vpc_prefix) then Z.min n (2 ^ 32 - 1) else old in
  Some (mk_stats (legacy total (total_31_segments status)) (legacy available (available_31_segments status))
          (Z.min total (2 ^ 64 - 1)) (Z.min available (2 ^ 64 - 1))).

(** ** The allocator *)

Record t := mk {
  vpc_prefix_id : string;
  vpc_prefix : IpNetwork;
  last_used_prefix : option IpNetwork;
  len : Z
}.

Definition networks_overlap (a b : IpNetwork) : bool := contains a (network b) || contains b (network a).

Definition generated_linknet_num_reserved (n : IpNetwork) : Z := if is_ipv6_net n then 1 else 0.

Fixpoint unoccupied_loop (occupied : list (Z * Z)) (candidate range_end : Z) : option Z :=
  match occupied with
  | [] => Some candidate
  | (occupied_start, occupied_end) :: l =>
      if occupied_end <? candidate then unoccupied_loop l candidate range_end
      else if candidate <? occupied_start then Some candidate
      else let candidate := saturating_add occupied_end 1 in
           if range_end <? candidate then None else unoccupied_loop l candidate range_end
  end.

(** Here [None] is the result [None]. *)
Definition first_unoccupied_index (occupied : list (Z * Z)) (range_start range_end : Z) : option Z :=
  if range_end <? range_start then None else unoccupied_loop occupied range_start range_end.

Definition new (id : string) (parent : IpNetwork) (last_used : option IpNetwork) (length : Z)
    : result CarbideError t :=
  if interface_prefix_len (family_of parent) <? length then Err InvalidArgument
  else if negb (vpc_prefix_can_allocate_interface_prefix (family_of parent) (prefix parent) length)
  then Err InvalidArgument
  else Ok (mk id parent last_used length).

(** [u128_to_ip]: [val as u32] truncates. *)
Definition u128_to_ip (val : Z) (is_v6 : bool) : IpAddr := if is_v6 then V6 val else V4 (val mod 2 ^ 32).

(** Where the next-fit search starts. *)
Definition start_index (a : t) (linknet_size total : Z) : Z :=
  let vpc_start := bits (network (vpc_prefix a)) in
  let vpc_end := bits (broadcast (vpc_prefix a)) in
  match last_used_prefix a with
  | Some p =>
      if bool_decide (is_ipv6_net p = is_ipv6_net (vpc_prefix a)) then
        let prefix_end := bits (broadcast p) in
        if (vpc_start <=? prefix_end) && (prefix_end <=? vpc_end)
        then ((prefix_end - vpc_start) / linknet_size + 1) mod total
        else 0
      else 0
  | None => 0
  end.

Definition cyclic_search (occupied : list (Z * Z)) (start total : Z) : option Z :=
  match first_unoccupied_index occupied start (total - 1) with
  | Some i => Some i
  | None => if 1 <=? start then first_unoccupied_index occupied 0 (start - 1) else None
  end.

Definition next_free_prefix (a : t) (used_prefixes : list IpNetwork) : option (result CarbideError IpNetwork) :=
  let max_bits := interface_prefix_len (family_of (vpc_prefix a)) in
  if len a <? prefix (vpc_prefix a) then None
  else match shl_one (len a - prefix (vpc_prefix a)) with
       | None => Some (Err InternalError)
       | Some total =>
           if max_bits <? len a then None
           else match shl_one (max_bits - len a) with
                | None => Some (Err InternalError)
                | Some linknet_size =>
                    occupied ← occupied_prefix_intervals (vpc_prefix a) (len a) used_prefixes;
                    Some (free_index ← ok_or ResourceExhausted
                            (cyclic_search occupied (start_index a linknet_size total) total);
                          let address := bits (network (vpc_prefix a)) + free_index * linknet_size in
                          if u128_max <? address then Err InternalError
                          else ok_or InternalError
                                 (net_new (u128_to_ip address (is_ipv6_net (vpc_prefix a))) (len a)))
                end
       end.

Definition validate_desired_prefix (a : t) (used_prefixes : list IpNetwork) (n : IpNetwork)
    : result CarbideError unit :=
  if negb (contains (vpc_prefix a) (network n)) then Err InvalidArgument
  else if existsb (fun p => networks_overlap p n) used_prefixes then Err AlreadyFoundError
  else Ok ().

(** ** Occupied children, as a set *)

Lemma same_family_ipv6 n m : is_ipv6_net n = is_ipv6_net m <-> same_family (ip m) (ip n).
Proof. unfold is_ipv6_net, same_family. by destruct (ip n), (ip m). Qed.

Lemma family_width n : interface_prefix_len (family_of n) = width (ip n).
Proof. done. Qed.

Section Occupied.
Context (parent : IpNetwork) (clen : Z).

Abbreviation cs := (child_size parent clen).
(** The child that an address of the parent lies in. *)
Definition index_of (a : IpAddr) : Z := (bits a - lo parent) / cs.
Definition touched (l : list IpNetwork) (i : Z) : Prop :=
  exists n a, n ∈ l /\ covers n a /\ covers parent a /\ index_of a = i.
Definition within (l : list (Z * Z)) (i : Z) : Prop := exists s e, (s, e) ∈ l /\ s <= i <= e.

Hypothesis Hlen : 0 <= clen <= width (ip parent).

Lemma cs_pos : 0 < cs.
Proof. apply Z.pow_pos_nonneg; lia. Qed.

Lemma interval_of_spec n s e :
  same_family (ip parent) (ip n) -> interval_of parent cs n = Some (s, e) ->
  0 <= s <= e /\ e <= (hi parent - lo parent) / cs /\
  forall i, s <= i <= e <-> exists a, covers n a /\ covers parent a /\ index_of a = i.
Proof.
  unfold interval_of. fold (lo n) (hi n) (lo parent) (hi parent). intros Hf. pose proof cs_pos as Hc.
  destruct (Z.leb_spec (Z.max (lo n) (lo parent)) (Z.min (hi n) (hi parent))) as [Hle|]; [|done].
  intros [= <- <-]. split_and!.
  - apply Z.div_pos; lia.
  - apply Z.div_le_mono; lia.
  - apply Z.div_le_mono; lia.
  - intros i. split.
    + intros [H1 H2]. set (os := Z.max (lo n) (lo parent)) in *. set (oe := Z.min (hi n) (hi parent)) in *.
      exists (with_bits (ip parent) (Z.max os (lo parent + i * cs))). unfold covers, index_of.
      rewrite bits_with_bits.
      assert (i * cs <= oe - lo parent).
      { pose proof (Z.mul_div_le (oe - lo parent) cs Hc). nia. }
      assert (os - lo parent < i * cs + cs).
      { pose proof (Z.mul_succ_div_gt (os - lo parent) cs Hc). nia. }
      split_and!; [unfold same_family; rewrite <- Hf; apply same_family_with_bits|lia|lia|apply same_family_with_bits|lia|lia|].
      symmetry. apply (Z.div_unique_pos _ _ _ (Z.max os (lo parent + i * cs) - lo parent - i * cs)); lia.
    + intros (a & [_ Ha] & [_ Hp] & <-). unfold index_of. split; apply Z.div_le_mono; lia.
Qed.

Lemma interval_of_None n :
  interval_of parent cs n = None -> ~ exists a, covers n a /\ covers parent a.
Proof.
  unfold interval_of. fold (lo n) (hi n) (lo parent) (hi parent).
  destruct (Z.leb_spec (Z.max (lo n) (lo parent)) (Z.min (hi n) (hi parent))); [done|].
  intros _ (a & [_ Ha] & [_ Hp]). lia.
Qed.

Definition intervals (l : list IpNetwork) : list (Z * Z) :=
  merge_sort pair_le (omap (interval_of parent cs) (filter (fun n => is_ipv6_net n = is_ipv6_net parent) l)).

Lemma occupied_prefix_intervals_eq l :
  width (ip parent) - clen < 128 -> occupied_prefix_intervals parent clen l = Some (intervals l).
Proof.
  intros Hs. unfold occupied_prefix_intervals, shl_one. rewrite family_width.
  rewrite (proj2 (Z.ltb_ge _ _)) by lia. by rewrite (proj2 (Z.ltb_lt _ _)).
Qed.

Lemma elem_of_intervals l s e :
  (s, e) ∈ intervals l <->
  exists n, n ∈ l /\ same_family (ip parent) (ip n) /\ interval_of parent cs n = Some (s, e).
Proof.
  unfold intervals. rewrite (merge_sort_Permutation pair_le), list_elem_of_omap.
  setoid_rewrite list_elem_of_filter. setoid_rewrite same_family_ipv6. naive_solver.
Qed.

Lemma intervals_bounds l s e : (s, e) ∈ intervals l -> 0 <= s <= e /\ e <= (hi parent - lo parent) / cs.
Proof.
  intros (n & _ & Hf & Hi)%elem_of_intervals. destruct (interval_of_spec n s e Hf Hi) as (? & ? & _). done.
Qed.

Lemma within_intervals l i : within (intervals l) i <-> touched l i.
Proof.
  unfold within, touched. setoid_rewrite elem_of_intervals. split.
  - intros (s & e & (n & Hn & Hf & Hi) & Hr). apply interval_of_spec in Hi as (_ & _ & Hi); [|done].
    apply Hi in Hr as (a & ?). naive_solver.
  - intros (n & a & Hn & Ha & Hp & Hi). destruct (interval_of parent cs n) as [[s e]|] eqn:E.
    + assert (Hf : same_family (ip parent) (ip n)).
      { destruct Ha as [Ha _], Hp as [Hp _]. unfold same_family in *. congruence. }
      exists s, e. split; [naive_solver|]. apply (interval_of_spec n s e Hf E). naive_solver.
    + destruct (interval_of_None n E). eauto.
Qed.
End Occupied.

#[global] Instance pair_le_total : Total pair_le.
Proof. intros x y. unfold pair_le. lia. Qed.
#[global] Instance pair_le_trans : Transitive pair_le.
Proof. intros x y z. unfold pair_le. lia. Qed.

(** By their starts, as both loops need it. *)
Definition by_start (l : list (Z * Z)) : Prop := StronglySorted (fun x y => x.1 <= y.1) l.

Lemma intervals_sorted parent clen l : by_start (intervals parent clen l).
Proof.
  assert (H : StronglySorted pair_le (intervals parent clen l)) by (apply StronglySorted_merge_sort; apply _).
  induction H as [|x m Hm IH Hx]; constructor; [done|]. eapply Forall_impl; [exact Hx|].
  intros y. unfold pair_le. lia.
Qed.

(** ** Counting *)

Definition indices (l : list (Z * Z)) : gset Z := ⋃ ((fun p => list_to_set (seqZ p.1 (p.2 - p.1 + 1))) <$> l).

Lemma elem_of_indices l i : i ∈ indices l <-> within l i.
Proof.
  unfold indices, within. rewrite elem_of_union_list. setoid_rewrite list_elem_of_fmap. split.
  - intros (X & ([s e] & -> & Hp) & Hi). rewrite elem_of_list_to_set, elem_of_seqZ in Hi. simpl in Hi.
    exists s, e. split; [done|lia].
  - intros (s & e & Hp & Hi). eexists. split; [by exists (s, e)|].
    rewrite elem_of_list_to_set, elem_of_seqZ. simpl. lia.
Qed.

Lemma size_interval s e : s <= e -> Z.of_nat (base.size (indices [(s, e)])) = e - s + 1.
Proof.
  intros H. unfold indices. simpl. rewrite (right_id_L ∅ (∪)), size_list_to_set by apply NoDup_seqZ.
  rewrite length_seqZ. lia.
Qed.

Lemma indices_cons p l : indices (p :: l) = indices [p] ∪ indices l.
Proof. unfold indices. simpl. by rewrite (right_id_L ∅ (∪)). Qed.

Lemma count_loop_spec l : forall occupied s e,
  0 <= occupied <= s -> s <= e -> e < 2 ^ 127 ->
  by_start ((s, e) :: l) -> Forall (fun p => p.1 <= p.2 < 2 ^ 127) l ->
  count_loop occupied s e l = Some (occupied + Z.of_nat (base.size (indices ((s, e) :: l)))).
Proof.
  assert (Hmax : u128_max = 2 * 2 ^ 127 - 1) by done.
  induction l as [|[s' e'] l IH]; intros occ s e Ho Hse He Hs Hb; cbn [count_loop].
  - rewrite size_interval by done. unfold u128_add, u128_sub.
    rewrite (proj2 (Z.leb_le _ _)) by lia. cbn [mbind option_bind].
    rewrite (proj2 (Z.leb_le _ _)) by lia. cbn [mbind option_bind].
    rewrite (proj2 (Z.leb_le _ _)) by lia. f_equal. lia.
  - apply Forall_cons in Hb as [Hb1 Hb]. simpl in Hb1.
    apply StronglySorted_inv in Hs as [Hs Hx]. apply Forall_cons in Hx as [Hx1 Hx]. simpl in Hx1.
    apply StronglySorted_inv in Hs as [Hs Hx'].
    unfold saturating_add. destruct (Z.leb_spec s' (Z.min (e + 1) u128_max)) as [Hle|Hgt].
    + rewrite IH; [|lia..| |done]; [|by constructor]. do 4 f_equal.
      rewrite (indices_cons (s, e)), (indices_cons (s', e')), (indices_cons (s, Z.max e e')), (assoc_L (∪)).
      f_equal. apply set_eq. intros i. rewrite elem_of_union, !elem_of_indices. unfold within.
      setoid_rewrite list_elem_of_singleton. split.
      * intros (? & ? & [= -> ->] & Hi). destruct (decide (i <= e)); [left|right]; repeat eexists; lia.
      * intros [(? & ? & [= -> ->] & Hi)|(? & ? & [= -> ->] & Hi)]; repeat eexists; lia.
    + unfold u128_sub, u128_add. rewrite (proj2 (Z.leb_le _ _)) by lia. cbn [mbind option_bind].
      rewrite (proj2 (Z.leb_le _ _)) by lia. cbn [mbind option_bind].
      rewrite (proj2 (Z.leb_le _ _)) by lia. cbn [mbind option_bind].
      rewrite IH; [|lia..|by constructor|done]. f_equal.
      rewrite (indices_cons (s, e)), size_union, Nat2Z.inj_add, size_interval by
        (done || (intros i; rewrite !elem_of_indices; intros (? & ? & [= -> ->]%list_elem_of_singleton & Hi)
          (s'' & e'' & [[= -> ->]|Hin]%elem_of_cons & Hi'); [lia|];
          rewrite Forall_forall in Hx'; specialize (Hx' _ Hin); simpl in Hx'; lia)).
      lia.
Qed.

(** The number of indices covered, for sorted intervals as the caller has them. *)
Lemma occupied_prefix_count_eq parent clen l :
  0 < clen <= width (ip parent) -> clen <= 127 ->
  occupied_prefix_count parent clen l = Some (Z.of_nat (base.size (indices (intervals parent clen l)))).
Proof.
  intros Hl H127. pose proof (cs_pos parent clen ltac:(lia)) as Hc.
  assert (Hb : Forall (fun p => p.1 <= p.2 < 2 ^ 127) (intervals parent clen l)).
  { apply Forall_forall. intros [s e] Hin. apply intervals_bounds in Hin as (H1 & H2); [|lia]. simpl.
    split; [lia|]. eapply Z.le_lt_trans; [exact H2|]. apply Z.div_lt_upper_bound; [done|].
    unfold child_size. rewrite <- Z.pow_add_r by lia. pose proof (lo_hi_range parent) as [? [? Hh]].
    eapply Z.le_lt_trans; [|eapply Z.lt_le_trans; [exact Hh|]]; [lia|]. apply Z.pow_le_mono_r; lia. }
  unfold occupied_prefix_count. rewrite occupied_prefix_intervals_eq by (destruct (width_cases (ip parent)); lia).
  cbn [mbind option_bind]. pose proof (intervals_sorted parent clen l) as Hs.
  pose proof (fun s e => intervals_bounds parent clen ltac:(lia) l s e) as Hpos.
  destruct (intervals parent clen l) as [|[s e] m]; [done|].
  apply Forall_cons in Hb as [Hb1 Hb]. simpl in Hb1. destruct (Hpos s e) as [H0 _]; [by left|].
  rewrite count_loop_spec; [done|lia..|done|done].
Qed.

(** ** Searching *)

Lemma within_cons s e l i : within ((s, e) :: l) i <-> s <= i <= e \/ within l i.
Proof.
  unfold within. setoid_rewrite elem_of_cons. split.
  - intros (s' & e' & [[= -> ->]|H] & Hi); eauto.
  - intros [Hi|(s' & e' & H & Hi)]; eauto 10.
Qed.

Lemma unoccupied_loop_spec l re : forall c,
  by_start l -> Forall (fun p => p.2 < u128_max) l -> c <= re ->
  match unoccupied_loop l c re with
  | Some i => c <= i <= re /\ ~ within l i /\ forall j, c <= j < i -> within l j
  | None => forall j, c <= j <= re -> within l j
  end.
Proof.
  induction l as [|[s e] l IH]; intros c Hs Hb Hc; cbn [unoccupied_loop].
  { split_and!; [lia..| |lia]. intros (? & ? & []%elem_of_nil & _). }
  apply StronglySorted_inv in Hs as [Hs Hx]. apply Forall_cons in Hb as [He Hb]. simpl in He.
  destruct (Z.ltb_spec e c).
  { specialize (IH c Hs Hb Hc). destruct (unoccupied_loop l c re) as [i|]; setoid_rewrite within_cons.
    - destruct IH as (Hi & Hn & Hj). split_and!; [lia..|intros [?|?]; [lia|done]|]. eauto.
    - eauto. }
  destruct (Z.ltb_spec c s).
  { setoid_rewrite within_cons. split_and!; [lia..| |lia]. intros [?|(s' & e' & Hin & Hi)]; [lia|].
    rewrite Forall_forall in Hx. specialize (Hx _ Hin). simpl in Hx. lia. }
  unfold saturating_add. replace (Z.min (e + 1) u128_max) with (e + 1) by lia.
  destruct (Z.ltb_spec re (e + 1)); [intros j Hj; apply within_cons; left; lia|].
  specialize (IH (e + 1) Hs Hb ltac:(lia)).
  destruct (unoccupied_loop l (e + 1) re) as [i|]; setoid_rewrite within_cons.
  - destruct IH as (Hi & Hn & Hj). split_and!; [lia..|intros [?|?]; [lia|done]|].
    intros j Hji. destruct (decide (j <= e)); [left; lia|right; apply Hj; lia].
  - intros j Hj. destruct (decide (j <= e)); [left; lia|right; apply IH; lia].
Qed.

Lemma first_unoccupied_spec l rs re :
  by_start l -> Forall (fun p => p.2 < u128_max) l ->
  match first_unoccupied_index l rs re with
  | Some i => rs <= i <= re /\ ~ within l i /\ forall j, rs <= j < i -> within l j
  | None => forall j, rs <= j <= re -> within l j
  end.
Proof.
  intros Hs Hb. unfold first_unoccupied_index. destruct (Z.ltb_spec re rs); [lia|].
  by apply unoccupied_loop_spec.
Qed.

(** The search goes round from its start. *)
Lemma cyclic_search_spec l start total :
  by_start l -> Forall (fun p => p.2 < u128_max) l -> 0 <= start < total ->
  match cyclic_search l start total with
  | Some i => 0 <= i < total /\ ~ within l i /\
      forall j, 0 <= j < total -> (j - start) mod total < (i - start) mod total -> within l j
  | None => forall j, 0 <= j < total -> within l j
  end.
Proof.
  intros Hs Hb Ht. unfold cyclic_search.
  assert (Hup : forall j, start <= j < total -> (j - start) mod total = j - start).
  { intros j Hj. apply Z.mod_small. lia. }
  assert (Hdown : forall j, 0 <= j < start -> (j - start) mod total = j - start + total).
  { intros j Hj. symmetry. apply (Z.mod_unique_pos _ _ (-1)); lia. }
  pose proof (first_unoccupied_spec l start (total - 1) Hs Hb) as H1.
  destruct (first_unoccupied_index l start (total - 1)) as [i|].
  { destruct H1 as (Hi & Hn & Hj). split_and!; [lia..|done|]. intros j Hjt. rewrite (Hup i) by lia.
    destruct (decide (start <= j)); [rewrite Hup by lia|rewrite Hdown by lia]; intros ?; [apply Hj; lia|lia]. }
  destruct (Z.leb_spec 1 start).
  2:{ intros j Hj. apply H1. lia. }
  pose proof (first_unoccupied_spec l 0 (start - 1) Hs Hb) as H2.
  destruct (first_unoccupied_index l 0 (start - 1)) as [i|].
  - destruct H2 as (Hi & Hn & Hj). split_and!; [lia..|done|]. intros j Hjt. rewrite (Hdown i) by lia.
    destruct (decide (start <= j)); [rewrite Hup by lia|rewrite Hdown by lia]; intros ?; [apply H1|apply Hj]; lia.
  - intros j Hj. destruct (decide (start <= j)); [apply H1|apply H2]; lia.
Qed.

(** ** Children *)

Section Parent.
Context (parent : IpNetwork) (clen : Z) (Hlen : prefix parent <= clen <= width (ip parent)).

Abbreviation total := (2 ^ (clen - prefix parent)).

Lemma index_of_child k c a :
  is_child parent clen k c -> covers parent a -> (index_of parent clen a = k <-> covers c a).
Proof.
  intros (Hf & _ & Hl & Hh) [Ha Hr]. unfold index_of. pose proof (child_size_pos parent clen Hlen) as Hc.
  assert (Hca : covers c a <-> lo c <= bits a <= hi c).
  { unfold covers. split; [tauto|]. split; [|done]. unfold same_family in *. congruence. }
  rewrite Hca, Hl, Hh, Hl. split.
  - intros <-. pose proof (Z.mul_div_le (bits a - lo parent) _ Hc).
    pose proof (Z.mul_succ_div_gt (bits a - lo parent) _ Hc). lia.
  - intros Hb. symmetry. apply (Z.div_unique_pos _ _ _ (bits a - lo parent - k * child_size parent clen)); lia.
Qed.

Lemma touched_child k c l :
  0 <= k < total -> is_child parent clen k c ->
  (touched parent clen l k <-> exists n, n ∈ l /\ ~ disjoint_nets c n).
Proof.
  intros Hk Hc. unfold touched. split.
  - intros (n & a & Hn & Ha & Hp & Hi). exists n. split; [done|]. intros Hd. apply (Hd a); [|done].
    by apply (index_of_child k c a Hc Hp).
  - intros (n & Hn & Hd). apply overlap_spec in Hd.
    assert (exists a, covers n a /\ covers c a) as (a & Ha & Hca).
    { apply orb_true_iff in Hd as [H|H]; apply contains_covers in H; eauto using network_covers. }
    pose proof (child_subnet parent clen Hlen k c Hk Hc a Hca) as Hp.
    exists n, a. split_and!; try done. by apply (index_of_child k c a Hc Hp).
Qed.

Lemma children_last : (hi parent - lo parent) / child_size parent clen = total - 1.
Proof.
  rewrite hi_spec, (block_children parent clen Hlen). pose proof (child_size_pos parent clen Hlen).
  symmetry. apply (Z.div_unique_pos _ _ _ (child_size parent clen - 1)); lia.
Qed.

Lemma touched_bound l k : touched parent clen l k -> 0 <= k < total.
Proof.
  pose proof (net_valid parent). rewrite <- within_intervals by lia. intros (s & e & Hin & Hk).
  apply intervals_bounds in Hin as (H1 & H2); [|lia]. rewrite children_last in H2. lia.
Qed.

Lemma intervals_small l : clen - prefix parent < 128 -> Forall (fun p => p.2 < u128_max) (intervals parent clen l).
Proof.
  intros Hd. pose proof (net_valid parent). apply Forall_forall. intros [s e] Hin.
  apply intervals_bounds in Hin as (H1 & H2); [|lia]. rewrite children_last in H2. simpl.
  assert (total <= 2 ^ 127) by (apply Z.pow_le_mono_r; lia). unfold u128_max. lia.
Qed.
End Parent.

(** ** The allocator *)

Lemma new_ok id parent last l a :
  new id parent last l = Ok a ->
  a = mk id parent last l /\ prefix parent <= l <= width (ip parent) /\ 0 < l.
Proof.
  unfold new. rewrite family_width. destruct (Z.ltb_spec (width (ip parent)) l); [done|].
  destruct (vpc_prefix_can_allocate_interface_prefix _ _ _) eqn:E; simpl; [|done]. intros [= <-].
  split; [done|]. pose proof (net_valid parent). unfold vpc_prefix_can_allocate_interface_prefix in E.
  apply orb_true_iff in E as [E%Z.ltb_lt|E]; [lia|]. destruct (family_of parent); [|done]. lia.
Qed.

Lemma start_index_bound a size total : 0 < total -> 0 <= start_index a size total < total.
Proof.
  intros Ht. unfold start_index. pose proof (Z.mod_pos_bound ((bits (broadcast (default (vpc_prefix a)
    (last_used_prefix a))) - bits (network (vpc_prefix a))) / size + 1) total Ht) as H.
  destruct (last_used_prefix a); simpl in H; repeat case_match; lia.
Qed.

Lemma u128_to_ip_with_bits n b :
  0 <= b < 2 ^ width (ip n) -> u128_to_ip b (is_ipv6_net n) = with_bits (ip n) b.
Proof.
  unfold u128_to_ip, is_ipv6_net, width. destruct (ip n); simpl; intros Hb; [|done]. by rewrite Z.mod_small.
Qed.

(** The order of the next-fit search, by addresses: how far after the last address of
    the last used prefix a network starts, going round in the VPC prefix. If there is
    no such prefix, or it does not end in the VPC prefix, the search goes from the
    start. *)
Definition cursor (a : t) : Z :=
  match last_used_prefix a with
  | Some p => if decide (covers (vpc_prefix a) (broadcast p)) then hi p + 1 else lo (vpc_prefix a)
  | None => lo (vpc_prefix a)
  end.
Definition distance (a : t) (c : IpNetwork) : Z := (lo c - cursor a) mod block (vpc_prefix a).

Lemma mod_scaled x w size total : 0 <= w < size -> 0 < total -> (x * size + w) mod (total * size) = x mod total * size + w.
Proof.
  intros Hw Ht. symmetry. pose proof (Z.mod_pos_bound x total Ht). pose proof (Z.div_mod x total).
  apply (Z.mod_unique_pos _ _ (x / total)); nia.
Qed.

Lemma broadcast_same_family (p n : IpNetwork) : same_family (ip n) (broadcast p) <-> is_ipv6_net p = is_ipv6_net n.
Proof.
  rewrite broadcast_spec. unfold same_family, is_ipv6_net. destruct (ip p), (ip n); simpl; done.
Qed.

(** Where the search starts is the first child that begins at or after the cursor. *)
Lemma cursor_index a :
  prefix (vpc_prefix a) <= len a <= width (ip (vpc_prefix a)) ->
  let size := child_size (vpc_prefix a) (len a) in
  let total := 2 ^ (len a - prefix (vpc_prefix a)) in
  exists q w, 0 <= w < size /\ cursor a + w = lo (vpc_prefix a) + q * size /\ start_index a size total = q mod total.
Proof.
  intros Hl size total. pose proof (child_size_pos _ _ Hl) as Hs. pose proof (children_pos _ _ Hl) as Ht.
  assert (Hzero : exists q w, 0 <= w < size /\ lo (vpc_prefix a) + w = lo (vpc_prefix a) + q * size /\ 0 = q mod total).
  { exists 0, 0. by rewrite Z.mod_0_l by lia. }
  unfold cursor, start_index. destruct (last_used_prefix a) as [p|]; [|done].
  unfold covers. rewrite <- (bool_decide_ext _ _ (broadcast_same_family p (vpc_prefix a))).
  fold (lo (vpc_prefix a)) (hi p) (hi (vpc_prefix a)).
  case_bool_decide as Hf; case_decide as Hd; [| |tauto|done].
  - destruct Hd as [_ Hd]. rewrite !(proj2 (Z.leb_le _ _)) by lia. simpl. fold size in Hs.
    pose proof (Z.div_mod (hi p - lo (vpc_prefix a)) size). pose proof (Z.mod_pos_bound (hi p - lo (vpc_prefix a)) size Hs).
    exists ((hi p - lo (vpc_prefix a)) / size + 1), (size - 1 - (hi p - lo (vpc_prefix a)) mod size). split_and!; nia || done.
  - destruct (_ && _) eqn:E; [|done]. destruct Hd. split; [done|]. lia.
Qed.

Lemma distance_child a :
  prefix (vpc_prefix a) <= len a <= width (ip (vpc_prefix a)) ->
  let size := child_size (vpc_prefix a) (len a) in
  let total := 2 ^ (len a - prefix (vpc_prefix a)) in
  exists w, 0 <= w < size /\ forall k c, is_child (vpc_prefix a) (len a) k c ->
    distance a c = (k - start_index a size total) mod total * size + w.
Proof.
  intros Hl size total. destruct (cursor_index a Hl) as (q & w & Hw & Hq & Hi). fold size in Hw, Hq. fold size total in Hi.
  pose proof (children_pos _ _ Hl) as Ht. fold total in Ht.
  exists w. split; [done|]. intros k c (_ & _ & Hlo & _). unfold distance. fold size in Hlo.
  rewrite Hi, Zminus_mod_idemp_r, <- mod_scaled by done. f_equal; [lia|]. apply block_children. done.
Qed.

Lemma next_free_prefix_search a used :
  prefix (vpc_prefix a) <= len a <= width (ip (vpc_prefix a)) -> 0 < len a ->
  len a - prefix (vpc_prefix a) < 128 ->
  let total := 2 ^ (len a - prefix (vpc_prefix a)) in
  let size := child_size (vpc_prefix a) (len a) in
  match cyclic_search (intervals (vpc_prefix a) (len a) used) (start_index a size total) total with
  | Some k => 0 <= k < total /\ exists c, next_free_prefix a used = Some (Ok c) /\
      is_child (vpc_prefix a) (len a) k c /\ ip c = network c
  | None => next_free_prefix a used = Some (Err ResourceExhausted)
  end.
Proof.
  intros Hl H0 Hd total size.
  pose proof (start_index_bound a size total (children_pos _ _ Hl)) as Hst.
  pose proof (cyclic_search_spec (intervals (vpc_prefix a) (len a) used) (start_index a size total) total
    (intervals_sorted _ _ _) (intervals_small _ _ Hl used Hd) Hst) as Hc.
  assert (Hw : width (ip (vpc_prefix a)) - len a < 128) by (destruct (width_cases (ip (vpc_prefix a))); lia).
  assert (E : next_free_prefix a used = Some (free_index ← ok_or ResourceExhausted
    (cyclic_search (intervals (vpc_prefix a) (len a) used) (start_index a size total) total);
    let address := bits (network (vpc_prefix a)) + free_index * size in
    if u128_max <? address then Err InternalError
    else ok_or InternalError (net_new (u128_to_ip address (is_ipv6_net (vpc_prefix a))) (len a)))).
  { unfold next_free_prefix, shl_one. rewrite family_width, (proj2 (Z.ltb_ge (len a) _)) by lia.
    rewrite (proj2 (Z.ltb_lt _ _)) by done. rewrite (proj2 (Z.ltb_ge _ _)) by lia.
    rewrite (proj2 (Z.ltb_lt _ _)) by done. rewrite occupied_prefix_intervals_eq; [done|lia..]. }
  destruct (cyclic_search _ _ _) as [k|]; [|done]. destruct Hc as (Hk & _ & _). split; [done|].
  destruct (child_new _ _ Hl k Hk) as (c & Hn & Hch & Hip). exists c. split; [|done]. rewrite E. simpl.
  fold (lo (vpc_prefix a)). pose proof (child_in_range _ _ Hl k Hk) as Hr.
  pose proof (lo_hi_range (vpc_prefix a)) as [Hlo [_ Hhi]]. pose proof (child_size_pos _ _ Hl) as Hs.
  fold size in Hr, Hs. assert (0 <= lo (vpc_prefix a) + k * size < 2 ^ width (ip (vpc_prefix a))) as Hb by nia.
  assert (2 ^ width (ip (vpc_prefix a)) <= 2 ^ 128).
  { apply Z.pow_le_mono_r; [done|]. destruct (width_cases (ip (vpc_prefix a))); lia. }
  rewrite (proj2 (Z.ltb_ge _ _)) by (unfold u128_max; lia).
  rewrite u128_to_ip_with_bits by done. unfold size. by rewrite Hn.
Qed.

(** What the search returns. *)
Lemma next_free_prefix_cases id parent last l a used :
  new id parent last l = Ok a ->
  let child c := prefix c = l /\ subnet c parent in
  let taken c := exists n, n ∈ used /\ ~ disjoint_nets c n in
  match next_free_prefix a used with
  | Some (Ok c) => child c /\ ip c = network c /\ (forall n, n ∈ used -> disjoint_nets c n) /\
      forall c', child c' -> distance a c' < distance a c -> taken c'
  | Some (Err ResourceExhausted) => forall c, child c -> taken c
  | Some (Err InternalError) => prefix parent = 0 /\ l = 128
  | _ => False
  end.
Proof.
  intros (-> & Hl & H0)%new_ok child taken. set (a := mk id parent last l).
  destruct (decide (l - prefix parent < 128)) as [Hd|Hd].
  2:{ pose proof (net_valid parent). assert (prefix parent = 0 /\ l = 128) as [Hp ->].
      { destruct (width_cases (ip parent)); lia. }
      unfold next_free_prefix, shl_one. simpl. rewrite Hp. done. }
  pose proof (next_free_prefix_search a used Hl H0 Hd) as Hs. simpl in Hs.
  pose proof (cyclic_search_spec (intervals parent l used) _ _ (intervals_sorted _ _ _)
    (intervals_small _ _ Hl used Hd)
    (start_index_bound a (child_size parent l) (2 ^ (l - prefix parent)) (children_pos _ _ Hl))) as Hc.
  assert (Htaken : forall k c, is_child parent l k c -> 0 <= k < 2 ^ (l - prefix parent) ->
    (within (intervals parent l used) k <-> taken c)).
  { intros k c Hch Hk. rewrite within_intervals by lia. by apply touched_child. }
  destruct (cyclic_search _ _ _) as [k|].
  - destruct Hs as (Hk & c & -> & Hch & Hip). destruct Hc as (_ & Hfree & Hsooner). split_and!; try done.
    + split; [apply Hch|]. by apply (child_subnet parent l Hl k).
    + intros n Hn. apply overlap_spec_false, not_true_iff_false. rewrite overlap_spec. intros Hov.
      apply Hfree, (Htaken k c); eauto. by exists n.
    + intros c' [Hp Hsub]. destruct (subnet_child parent l Hl c' Hp Hsub) as (k' & Hk' & Hch').
      destruct (distance_child a Hl) as (w & _ & Hdist). rewrite (Hdist k' c'), (Hdist k c) by done. intros Hlt.
      pose proof (child_size_pos _ _ Hl). apply (Htaken k' c'), Hsooner; [done|done|done|]. simpl in *. nia.
  - rewrite Hs. intros c [Hp Hsub]. destruct (subnet_child parent l Hl c Hp Hsub) as (k & Hk & Hch).
    apply (Htaken k c); eauto.
Qed.

(** C32: the next-fit allocation. A prefix that is returned is a network of the
    requested length in the VPC prefix that shares no address with a used network,
    and every child that starts sooner after the end of the last used prefix, going
    round in the VPC prefix ([distance]), is taken; exhaustion is reported only if all
    are taken. The arithmetic never panics, and the one internal error is asking for
    single addresses of the whole IPv6 space. *)
Theorem next_free_prefix_spec id parent last l a used :
  new id parent last l = Ok a ->
  let child c := prefix c = l /\ subnet c parent in
  let taken c := exists n, n ∈ used /\ ~ disjoint_nets c n in
  match next_free_prefix a used with
  | Some (Ok c) => child c /\ ip c = network c /\ (forall n, n ∈ used -> disjoint_nets c n) /\
      forall c', child c' -> distance a c' < distance a c -> taken c'
  | Some (Err ResourceExhausted) => forall c, child c -> taken c
  | Some (Err InternalError) => prefix parent = 0 /\ l = 128
  | _ => False
  end.
Proof. exact (next_free_prefix_cases id parent last l a used). Qed.

(** ** The capacity report *)

Lemma instance_len_bounds parent slaac :
  let l := instance_prefix_len (family_of parent) slaac in 0 < l <= width (ip parent) /\ l <= 127.
Proof. unfold family_of, width. by destruct (ip parent), slaac. Qed.

Lemma can_allocate_len parent slaac :
  let l := instance_prefix_len (family_of parent) slaac in
  vpc_prefix_can_allocate_interface_prefix (family_of parent) (prefix parent) l = true <-> prefix parent <= l /\
  (prefix parent < l \/ family_of parent = Ipv4).
Proof.
  intros l. unfold vpc_prefix_can_allocate_interface_prefix. rewrite orb_true_iff, Z.ltb_lt.
  subst l. destruct (family_of parent), slaac; simpl; rewrite ?andb_true_iff, ?Z.eqb_eq; intuition (done || lia).
Qed.

(** The children that nothing touches, by their index. *)
Definition free_children (parent : IpNetwork) (l : Z) (used : list IpNetwork) : gset Z :=
  list_to_set (seqZ 0 (2 ^ (l - prefix parent))) ∖ indices (intervals parent l used).

Lemma elem_of_free parent l used k c :
  prefix parent <= l <= width (ip parent) -> is_child parent l k c -> 0 <= k < 2 ^ (l - prefix parent) ->
  (k ∈ free_children parent l used <-> forall n, n ∈ used -> disjoint_nets c n).
Proof.
  intros Hl Hch Hk. unfold free_children. pose proof (net_valid parent).
  rewrite elem_of_difference, elem_of_list_to_set, elem_of_seqZ, elem_of_indices, within_intervals by lia.
  rewrite (touched_child parent l Hl k c) by done. split.
  - intros [_ Hn] n Hin. apply overlap_spec_false, not_true_iff_false. rewrite overlap_spec. eauto.
  - intros Hd. split; [lia|]. intros (n & Hin & Hov). by apply Hov, Hd.
Qed.

Lemma size_free parent l used :
  prefix parent <= l <= width (ip parent) ->
  Z.of_nat (base.size (free_children parent l used)) =
  2 ^ (l - prefix parent) - Z.of_nat (base.size (indices (intervals parent l used))).
Proof.
  intros Hl. unfold free_children. pose proof (net_valid parent). rewrite size_difference.
  - rewrite Nat2Z.inj_sub, size_list_to_set, length_seqZ by
      (apply NoDup_seqZ || (apply subseteq_size; intros i Hi%elem_of_indices;
       apply within_intervals, (touched_bound parent l Hl) in Hi; [|lia];
       rewrite elem_of_list_to_set, elem_of_seqZ; lia)).
    pose proof (children_pos parent l Hl). lia.
  - intros i Hi%elem_of_indices. apply within_intervals, (touched_bound parent l Hl) in Hi; [|lia].
    rewrite elem_of_list_to_set, elem_of_seqZ. lia.
Qed.

Lemma free_children_none id parent last l a used :
  new id parent last l = Ok a -> l - prefix parent < 128 ->
  (base.size (free_children parent l used) = 0%nat <-> next_free_prefix a used = Some (Err ResourceExhausted)).
Proof.
  intros (-> & Hl & H0)%new_ok Hd. set (a := mk id parent last l).
  pose proof (next_free_prefix_search a used Hl H0 Hd) as Hs. simpl in Hs.
  pose proof (cyclic_search_spec (intervals parent l used) _ _ (intervals_sorted _ _ _)
    (intervals_small _ _ Hl used Hd)
    (start_index_bound a (child_size parent l) (2 ^ (l - prefix parent)) (children_pos _ _ Hl))) as Hc.
  destruct (cyclic_search _ _ _) as [k|].
  - destruct Hs as (Hk & c & -> & _). split; [|done]. intros E%size_empty_inv.
    destruct Hc as (_ & Hfree & _). destruct (proj1 (elem_of_equiv_empty _) E k). unfold free_children.
    rewrite elem_of_difference, elem_of_list_to_set, elem_of_seqZ, elem_of_indices. split; [lia|done].
  - split; [done|]. intros _. apply size_empty_iff, elem_of_equiv_empty. intros k. unfold free_children.
    rewrite elem_of_difference, elem_of_list_to_set, elem_of_seqZ, elem_of_indices.
    intros [Hk Hn]. destruct Hn. apply Hc. lia.
Qed.

(** The capacity report agrees with the allocator. For every VPC prefix the
    statistics are computed without a panic; the total is the number of prefixes
    an instance may get and the available number is how many of them share no
    address with a used network, up to the width of the fields; nothing is
    available exactly when no allocator can be made for the prefix or the
    allocator finds the prefix exhausted. *)
Theorem capacity_exact parent slaac used status :
  let l := instance_prefix_len (family_of parent) slaac in
  exists st, update_stats parent slaac used status = Some st /\
  let can := vpc_prefix_can_allocate_interface_prefix (family_of parent) (prefix parent) l in
  total_linknet_segments st = (if can then Z.min (2 ^ (l - prefix parent)) (2 ^ 64 - 1) else 0) /\
  available_linknet_segments st =
    (if can then Z.min (Z.of_nat (base.size (free_children parent l used))) (2 ^ 64 - 1) else 0) /\
  (is_ipv4 (ip parent) = true ->
     total_31_segments st = total_linknet_segments st /\
     available_31_segments st = available_linknet_segments st) /\
  forall id last,
    available_linknet_segments st = 0 <->
    match new id parent last l with
    | Ok a => next_free_prefix a used = Some (Err ResourceExhausted)
    | Err _ => True
    end.
Proof.
  intros l. pose proof (instance_len_bounds parent slaac) as [Hl H127]. fold l in Hl, H127.
  unfold update_stats. fold l. rewrite occupied_prefix_count_eq by done.
  pose proof (can_allocate_len parent slaac) as Hcan. simpl in Hcan. fold l in Hcan.
  destruct (vpc_prefix_can_allocate_interface_prefix _ _ l) eqn:Ecan.
  - destruct (proj1 Hcan eq_refl) as [Hp _]. pose proof (net_valid parent) as [_ Hpp].
    unfold shl_one. rewrite (proj2 (Z.ltb_lt _ _)) by lia. cbn [mbind option_bind]. eexists. split; [done|].
    cbn [total_linknet_segments available_linknet_segments total_31_segments available_31_segments].
    assert (saturating_sub (2 ^ (l - prefix parent)) (Z.of_nat (base.size (indices (intervals parent l used)))) =
      Z.of_nat (base.size (free_children parent l used))) as Hfree.
    { pose proof (size_free parent l used ltac:(lia)). unfold saturating_sub. lia. }
    rewrite Hfree. split_and!; [done|done| |].
    + intros H4. rewrite H4. pose proof (size_free parent l used ltac:(lia)) as Hsz.
      assert (2 ^ (l - prefix parent) <= 2 ^ 31).
      { apply Z.pow_le_mono_r; [done|]. subst l. unfold family_of in *. destruct (ip parent); [|done].
        simpl. lia. }
      lia.
    + intros id last. unfold new. rewrite family_width, (proj2 (Z.ltb_ge _ _)), Ecan by lia. simpl.
      rewrite <- (free_children_none id parent last l) by
        (lia || (unfold new; by rewrite family_width, (proj2 (Z.ltb_ge _ _)), Ecan by lia)).
      lia.
  - cbn [mbind option_bind]. eexists. split; [done|].
    cbn [total_linknet_segments available_linknet_segments total_31_segments available_31_segments].
    unfold saturating_sub. rewrite Z.max_r by lia. split_and!; [done..| |].
    + intros ->. done.
    + intros id last. unfold new. rewrite family_width, (proj2 (Z.ltb_ge _ _)), Ecan by lia. done.
Qed.

(** ** Requested prefixes *)

Lemma validate_desired_prefix_iff a used n :
  validate_desired_prefix a used n = Ok () <->
  covers (vpc_prefix a) (network n) /\ forall p, p ∈ used -> disjoint_nets p n.
Proof.
  unfold validate_desired_prefix. destruct (contains (vpc_prefix a) (network n)) eqn:Ec; simpl.
  2:{ apply contains_covers_false in Ec. naive_solver. }
  apply contains_covers in Ec. unfold networks_overlap. destruct (existsb _ used) eqn:E.
  - apply existsb_exists in E as (p & Hp%list_elem_of_In & Hov%overlap_spec). split; [done|].
    intros [_ Hd]. destruct Hov. auto.
  - split; [|done]. intros _. split; [done|]. intros p Hp. apply overlap_spec_false, not_true_iff_false.
    intros Hov. apply not_true_iff_false in E. apply E, existsb_exists. exists p. by rewrite <- list_elem_of_In.
Qed.

(** A network of at least the parent's length whose first address is in it lies
    in the parent; of a shorter one the check sees only the first address. *)
Lemma network_in_subnet parent n :
  prefix parent <= prefix n -> covers parent (network n) -> subnet n parent.
Proof.
  intros Hp [Hf Hr]. fold (lo n) in Hr.
  assert (Hfam : same_family (ip parent) (ip n)).
  { destruct (network_covers n) as [Hf' _]. unfold same_family in *. congruence. }
  pose proof (net_valid n) as [_ Hpn]. rewrite <- (same_family_width _ _ Hfam) in Hpn.
  assert (Hl : prefix parent <= prefix n <= width (ip parent)) by lia.
  assert (Hb : block n = child_size parent (prefix n)).
  { unfold block, child_size. by rewrite (same_family_width _ _ Hfam). }
  destruct (children_aligned parent _ Hl) as [q Hq]. destruct (lo_aligned n) as [q' Hq']. rewrite Hb in Hq'.
  pose proof (child_size_pos parent _ Hl). rewrite hi_spec, (block_children parent _ Hl) in Hr.
  apply (child_subnet parent (prefix n) Hl (q' - q)); [nia|].
  split_and!; [done|done|nia|by rewrite hi_spec, Hb].
Qed.
End Allocator.
End PrefixAllocator.

(** ** Concrete allocations *)

Module PrefixAllocatorExample.
Import PrefixAllocator.
#[local] Existing Instance ipnetwork_reference.

(** 192.0.2.0/29 with its four /31, and a shorter network at the same address. *)
Definition base_address : Z := 192 * 2 ^ 24 + 2 * 2 ^ 8.
Definition parent : IpNetwork := exist _ (V4 base_address, 29) eq_refl.
Definition linknet (k : Z) (H : net_ok (V4 (base_address + 2 * k), 31) = true) : IpNetwork := exist _ _ H.
Definition child0 : IpNetwork := linknet 0 eq_refl.
Definition child1 : IpNetwork := linknet 1 eq_refl.
Definition child2 : IpNetwork := linknet 2 eq_refl.
Definition wider : IpNetwork := exist _ (V4 base_address, 24) eq_refl.
Definition allocator : t := mk "p" parent (Some child0) 31.

Definition shown (r : option (result CarbideError IpNetwork)) : option (IpAddr * Z) :=
  match r with Some (Ok c) => Some (ip c, prefix c) | _ => None end.

Lemma next_free_prefix_spec_witness :
  shown (next_free_prefix allocator [child1]) = Some (V4 (base_address + 4), 31) /\
  match next_free_prefix allocator [child1] with
  | Some (Ok c) => disjoint_nets c child1
  | _ => False
  end.
Proof.
  assert (E : shown (next_free_prefix allocator [child1]) = Some (V4 (base_address + 4), 31))
    by (vm_compute; reflexivity).
  split; [exact E|].
  pose proof (next_free_prefix_spec "p" parent (Some child0) 31 allocator [child1] eq_refl) as H.
  revert E H. cbv zeta. generalize (next_free_prefix allocator [child1]).
  intros [[c|e]|] E; [|discriminate E..]. intros (_ & _ & Hd & _). apply Hd. left.
Defined.

(** The last child wraps to the first, and a full prefix is exhausted. *)
Example wraps_around :
  shown (next_free_prefix (mk "p" parent (Some (linknet 3 eq_refl)) 31) [child1]) = Some (V4 base_address, 31).
Proof. vm_compute. reflexivity. Qed.

Example exhausted : next_free_prefix allocator [wider] = Some (Err ResourceExhausted).
Proof. vm_compute. reflexivity. Qed.

(** A requested prefix that is bigger than the VPC prefix passes the check. *)
Example wider_request_accepted :
  validate_desired_prefix allocator [] wider = Ok () /\ prefix wider < prefix parent.
Proof. vm_compute. done. Qed.
End PrefixAllocatorExample.
