(* ===== verification/IpPrefix.v ===== *)
(** * IpPrefix: crates/network/src/ip/prefix.rs

    Prefixes in canonical form and their arithmetic: containment, siblings,
    halves, aggregation and order. The [ipnet] crate they are built on is the
    class [IpnetCrate], one instance per address width; [ipnet_reference] shows
    that its laws can be met. *)

From S2P Require Import Prelude.

Class IpnetCrate (w : Z) := {
  Net : Type;
  Net_eq_dec :: EqDecision Net;
  addr : Net -> Z;
  prefix_len : Net -> Z;
  (** panics on a length above [w] *)
  new_assert : Z -> Z -> Net;
  net_network : Net -> Z;
  net_broadcast : Net -> Z;
  net_contains : Net -> Net -> bool;
  supernet : Net -> option Net;
  trunc : Net -> Net;
  net_cmp : Net -> Net -> comparison;

  net_range n : 0 <= prefix_len n <= w /\ 0 <= addr n < 2 ^ w;
  net_ext n m : addr n = addr m -> prefix_len n = prefix_len m -> n = m;
  new_assert_spec a l : 0 <= a < 2 ^ w -> 0 <= l <= w ->
    addr (new_assert a l) = a /\ prefix_len (new_assert a l) = l;
  net_network_spec n :
    net_network n = addr n / 2 ^ (w - prefix_len n) * 2 ^ (w - prefix_len n);
  net_broadcast_spec n : net_broadcast n = net_network n + 2 ^ (w - prefix_len n) - 1;
  net_contains_spec n m :
    net_contains n m = (net_network n <=? net_network m) && (net_broadcast m <=? net_broadcast n);
  supernet_none n : prefix_len n = 0 -> supernet n = None;
  supernet_some n : 0 < prefix_len n -> exists m, supernet n = Some m /\
    prefix_len m = prefix_len n - 1 /\
    addr m = addr n / 2 ^ (w - prefix_len n + 1) * 2 ^ (w - prefix_len n + 1);
  trunc_spec n : addr (trunc n) = net_network n /\ prefix_len (trunc n) = prefix_len n;
  net_cmp_spec n m :
    net_cmp n m = match addr n ?= addr m with
                  | Eq => prefix_len n ?= prefix_len m
                  | c => c
                  end
}.
Arguments Net w {_}.

(** ** A reference implementation of the crate *)

Section Reference.
Context (w : Z) (Hw : 0 <= w).

Definition in_range (n : Z * Z) : bool :=
  (0 <=? n.1) && (n.1 <? 2 ^ w) && (0 <=? n.2) && (n.2 <=? w).
Definition ref_prefix : Type := { n : Z * Z | in_range n = true }.

#[local] Instance ref_prefix_eq_dec : EqDecision ref_prefix.
Proof.
  intros [n Hn] [m Hm]. destruct (decide (n = m)) as [->|]; [left|by right; intros [=]].
  f_equal. apply proof_irrel.
Defined.

Lemma in_range_spec n : in_range n = true <-> 0 <= n.1 < 2 ^ w /\ 0 <= n.2 <= w.
Proof. unfold in_range. rewrite !andb_true_iff, !Z.leb_le, Z.ltb_lt. lia. Qed.

Lemma ref_net_range (n : ref_prefix) : 0 <= (`n).2 <= w /\ 0 <= (`n).1 < 2 ^ w.
Proof. destruct n as [n Hn]. simpl. by apply in_range_spec in Hn as [? ?]. Qed.

Lemma ref_default : in_range (0, 0) = true.
Proof. apply in_range_spec. simpl. split; [|lia]. split; [lia|]. by apply Z.pow_pos_nonneg. Qed.

(** A pair out of range, where the constructor panics, gives the default. *)
Definition ref_make (n : Z * Z) : ref_prefix :=
  match bool_dec (in_range n) true with left H => n ↾ H | right _ => (0, 0) ↾ ref_default end.

Lemma ref_make_spec n : 0 <= n.1 < 2 ^ w -> 0 <= n.2 <= w -> ` (ref_make n) = n.
Proof.
  intros. unfold ref_make. destruct (bool_dec _ _) as [|H']; [done|].
  by destruct H'; apply in_range_spec.
Qed.

Definition ref_trunc_to (a l : Z) : Z := a / 2 ^ (w - l) * 2 ^ (w - l).

Lemma ref_trunc_to_range a l : 0 <= l <= w -> 0 <= a < 2 ^ w -> 0 <= ref_trunc_to a l < 2 ^ w.
Proof.
  intros. unfold ref_trunc_to. assert (0 < 2 ^ (w - l)) by (apply Z.pow_pos_nonneg; lia).
  pose proof (Z.mul_div_le a (2 ^ (w - l))). pose proof (Z.div_pos a (2 ^ (w - l))). nia.
Qed.

Definition ref_net_network (n : ref_prefix) : Z := ref_trunc_to (`n).1 (`n).2.
Definition ref_net_broadcast (n : ref_prefix) : Z := ref_net_network n + 2 ^ (w - (`n).2) - 1.
Definition ref_supernet (n : ref_prefix) : option ref_prefix :=
  if (`n).2 =? 0 then None
  else Some (ref_make (ref_trunc_to (`n).1 ((`n).2 - 1), (`n).2 - 1)).
Definition ref_trunc (n : ref_prefix) : ref_prefix := ref_make (ref_net_network n, (`n).2).

Lemma ref_supernet_none (n : ref_prefix) : (`n).2 = 0 -> ref_supernet n = None.
Proof. intros H. unfold ref_supernet. by rewrite H. Qed.

Lemma ref_supernet_some (n : ref_prefix) : 0 < (`n).2 -> exists m, ref_supernet n = Some m /\
  (`m).2 = (`n).2 - 1 /\ (`m).1 = (`n).1 / 2 ^ (w - (`n).2 + 1) * 2 ^ (w - (`n).2 + 1).
Proof.
  intros H. pose proof (ref_net_range n). unfold ref_supernet. destruct (Z.eqb_spec (`n).2 0); [lia|].
  eexists. split; [done|]. rewrite ref_make_spec; simpl; [|by apply ref_trunc_to_range; lia|lia].
  split; [done|]. unfold ref_trunc_to. by replace (w - ((`n).2 - 1)) with (w - (`n).2 + 1) by lia.
Qed.

Lemma ref_trunc_spec (n : ref_prefix) :
  (` (ref_trunc n)).1 = ref_net_network n /\ (` (ref_trunc n)).2 = (`n).2.
Proof.
  pose proof (ref_net_range n) as [Hl Ha]. unfold ref_trunc.
  rewrite ref_make_spec; simpl; [done|by apply ref_trunc_to_range|done].
Qed.

Lemma ref_net_ext (n m : ref_prefix) : (`n).1 = (`m).1 -> (`n).2 = (`m).2 -> n = m.
Proof.
  destruct n as [[a l] Hn], m as [[b k] Hm]; simpl. intros -> ->. f_equal. apply proof_irrel.
Qed.

Lemma ref_new_assert_spec a l : 0 <= a < 2 ^ w -> 0 <= l <= w ->
  (` (ref_make (a, l))).1 = a /\ (` (ref_make (a, l))).2 = l.
Proof. intros. by rewrite ref_make_spec. Qed.

Definition ipnet_reference : IpnetCrate w := {|
  Net := ref_prefix;
  Net_eq_dec := ref_prefix_eq_dec;
  addr n := (`n).1;
  prefix_len n := (`n).2;
  new_assert a l := ref_make (a, l);
  net_network := ref_net_network;
  net_broadcast := ref_net_broadcast;
  net_contains n m :=
    (ref_net_network n <=? ref_net_network m) && (ref_net_broadcast m <=? ref_net_broadcast n);
  supernet := ref_supernet;
  trunc := ref_trunc;
  net_cmp n m := match (`n).1 ?= (`m).1 with Eq => (`n).2 ?= (`m).2 | c => c end;
  net_range := ref_net_range;
  net_ext := ref_net_ext;
  new_assert_spec := ref_new_assert_spec;
  net_network_spec n := eq_refl;
  net_broadcast_spec n := eq_refl;
  net_contains_spec n m := eq_refl;
  supernet_none := ref_supernet_none;
  supernet_some := ref_supernet_some;
  trunc_spec := ref_trunc_spec;
  net_cmp_spec n m := eq_refl
|}.
End Reference.

Definition ipnet4_reference : IpnetCrate 32 := ipnet_reference 32 ltac:(lia).
Definition ipnet6_reference : IpnetCrate 128 := ipnet_reference 128 ltac:(lia).

(** ** One family: [Ipv4Prefix] and [Ipv6Prefix] *)

Module Family.
Section Family.
Context {w : Z} {crate : IpnetCrate w}.

Definition get_sibling (p : Net w) : option (Net w) :=
  if prefix_len p =? 0 then None
  else Some (new_assert (Z.lxor (addr p) (Z.shiftl 1 (w - prefix_len p))) (prefix_len p)).

Definition bifurcate (p : Net w) : option (Net w * Net w) :=
  if prefix_len p <=? w - 1 then
    Some (new_assert (addr p) (prefix_len p + 1),
          new_assert (Z.lor (addr p) (Z.shiftr (2 ^ (w - 1)) (prefix_len p))) (prefix_len p + 1))
  else None.

(** [Ipv4Addr::to_v4_prefix] and its IPv6 twin. *)
Definition host_prefix (a : Z) : Net w := new_assert a w.
Definition get_last_subprefix (p : Net w) : Net w := host_prefix (net_broadcast p).

Definition contains (p q : Net w) : bool := net_contains p q.

Definition try_aggregate (p1 p2 : Net w) : option (Net w) :=
  if contains p1 p2 then Some p1
  else if contains p2 p1 then Some p2
  else match supernet p1, supernet p2 with
       | Some s1, Some s2 => if decide (s1 = s2) then Some s1 else None
       | _, _ => None
       end.

(** [TryFrom<Ipv4Net>]: only networks without host bits are prefixes. *)
Definition try_from (n : Net w) : option (Net w) :=
  if addr n =? net_network n then Some n else None.

Definition to_prefix (n : Net w) : Net w := trunc n.

(** Canonical form: the address bits after the prefix are zero. *)
Definition canonical (p : Net w) : Prop := addr p = net_network p.
Definition block (p : Net w) : Z := 2 ^ (w - prefix_len p).

Lemma net_block_pos p : 0 < block p.
Proof. pose proof (net_range p). apply Z.pow_pos_nonneg; lia. Qed.

Lemma net_canonical_aligned p : canonical p <-> (block p | addr p).
Proof.
  unfold canonical. rewrite net_network_spec. fold (block p). pose proof (net_block_pos p). split.
  - intros ->. apply Z.divide_factor_r.
  - intros [k ->]. by rewrite Z.div_mul by lia.
Qed.

Lemma canonical_bounds p :
  canonical p -> net_network p = addr p /\ net_broadcast p = addr p + block p - 1.
Proof. intros H. rewrite net_broadcast_spec. by rewrite <- H. Qed.

Lemma block_half p : 0 < prefix_len p -> 2 ^ (w - prefix_len p + 1) = 2 * block p.
Proof.
  intros H. pose proof (net_range p). unfold block.
  rewrite Z.pow_add_r by lia. change (2 ^ 1) with 2. lia.
Qed.

Lemma addr_block_le p : canonical p -> addr p + block p <= 2 ^ w.
Proof.
  intros [k Hk]%net_canonical_aligned. pose proof (net_range p) as [Hl Ha]. pose proof (net_block_pos p).
  assert (2 ^ w = 2 ^ prefix_len p * block p) as Hw.
  { unfold block. rewrite <- Z.pow_add_r by lia. f_equal. lia. }
  assert (k < 2 ^ prefix_len p) by nia. nia.
Qed.

(** Flipping a bit of a multiple of that bit's weight. *)
Lemma lxor_bit k a :
  0 <= k -> 0 <= a -> (2 ^ k | a) ->
  Z.lxor a (Z.shiftl 1 k) = if Z.odd (a / 2 ^ k) then a - 2 ^ k else a + 2 ^ k.
Proof.
  intros Hk Ha Hd. rewrite Z.shiftl_1_l. rewrite <- Z.shiftr_div_pow2, <- Z.bit0_odd, Z.shiftr_spec by lia.
  rewrite Z.add_0_l. destruct (Z.testbit a k) eqn:E.
  - assert (Z.land (a - 2 ^ k) (2 ^ k) = 0) as Hland.
    { apply Z.bits_inj'. intros n Hn. rewrite Z.land_spec, Z.bits_0, Z.pow2_bits_eqb by lia.
      destruct (Z.eqb_spec k n) as [<-|]; [|by rewrite andb_false_r]. rewrite andb_true_r.
      destruct Hd as [q ->]. rewrite Z.testbit_eqb by lia.
      rewrite Z.testbit_eqb in E by lia. pose proof (Z.pow_pos_nonneg 2 k).
      replace (q * 2 ^ k - 2 ^ k) with ((q - 1) * 2 ^ k) by lia. rewrite !Z.div_mul in * by lia.
      rewrite Z.eqb_eq in E. apply Z.eqb_neq. rewrite Zmod_even, Z.even_sub. rewrite Zmod_even in E.
      by destruct (Z.even q). }
    pose proof (Z.add_nocarry_lxor _ _ Hland) as Hx. replace (a - 2 ^ k + 2 ^ k) with a in Hx by lia.
    rewrite Hx, Z.lxor_assoc, Z.lxor_nilpotent, Z.lxor_0_r. lia.
  - rewrite Z.add_nocarry_lxor; [done|]. apply Z.bits_inj'. intros n Hn.
    rewrite Z.land_spec, Z.bits_0, Z.pow2_bits_eqb by lia.
    destruct (Z.eqb_spec k n) as [<-|]; [by rewrite E|by rewrite andb_false_r].
Qed.

Lemma lor_bit k a : 0 <= k -> (2 ^ (k + 1) | a) -> Z.lor a (2 ^ k) = a + 2 ^ k.
Proof.
  intros Hk [q ->].
  assert (Z.land (q * 2 ^ (k + 1)) (2 ^ k) = 0) as Hland.
  { apply Z.bits_inj'. intros n Hn. rewrite Z.land_spec, Z.bits_0, Z.pow2_bits_eqb by lia.
    destruct (Z.eqb_spec k n) as [<-|]; [|by rewrite andb_false_r].
    by rewrite Z.mul_pow2_bits_low by lia. }
  by rewrite <- Z.lxor_lor, <- Z.add_nocarry_lxor.
Qed.

(** The sibling: the other half of the supernet. *)
Lemma get_sibling_spec p :
  canonical p ->
  match get_sibling p with
  | None => prefix_len p = 0
  | Some q => 0 < prefix_len p /\ canonical q /\ prefix_len q = prefix_len p /\
      addr q = if Z.odd (addr p / block p) then addr p - block p else addr p + block p
  end.
Proof.
  intros Hc. unfold get_sibling. pose proof (net_range p) as [Hl Ha]. pose proof (net_block_pos p) as Hb.
  destruct (Z.eqb_spec (prefix_len p) 0); [done|]. pose proof Hc as Hd%net_canonical_aligned.
  rewrite lxor_bit by (done || lia). fold (block p).
  set (a := if Z.odd _ then _ else _).
  assert (Hw : 2 ^ w = 2 ^ (prefix_len p - 1) * (2 * block p)).
  { rewrite <- block_half by lia. rewrite <- Z.pow_add_r by lia. f_equal. lia. }
  destruct Hd as [k Hk]. assert (Hodd : addr p / block p = k) by (rewrite Hk, Z.div_mul; lia).
  assert (Hr : 0 <= a < 2 ^ w /\ exists k', a = k' * block p).
  { subst a. rewrite Hodd. destruct (Z.odd k) eqn:Eo.
    - split; [|exists (k - 1); lia]. assert (k <> 0) by (by intros ->). nia.
    - split; [|exists (k + 1); lia]. rewrite <- Z.negb_even in Eo. apply negb_false_iff in Eo.
      apply Z.even_spec in Eo as [m ->]. assert (m < 2 ^ (prefix_len p - 1)) by nia. nia. }
  destruct Hr as [Hr [k' Hk']]. destruct (new_assert_spec a (prefix_len p) Hr Hl) as [E1 E2].
  split_and!; [lia| |done|done]. apply net_canonical_aligned. unfold block. rewrite E1, E2. by exists k'.
Qed.

(** The halves. *)
Lemma bifurcate_spec p :
  canonical p ->
  match bifurcate p with
  | None => prefix_len p = w
  | Some (e, o) => prefix_len p < w /\ canonical e /\ canonical o /\
      prefix_len e = prefix_len p + 1 /\ prefix_len o = prefix_len p + 1 /\
      addr e = addr p /\ addr o = addr p + block e /\ block p = 2 * block e /\ block o = block e
  end.
Proof.
  intros Hc. unfold bifurcate. pose proof (net_range p) as [Hl Ha].
  destruct (Z.leb_spec (prefix_len p) (w - 1)); [|lia].
  pose proof Hc as Hd%net_canonical_aligned. set (h := 2 ^ (w - (prefix_len p + 1))).
  assert (0 < h) as Hh by (apply Z.pow_pos_nonneg; lia).
  assert (Hb : block p = 2 * h).
  { unfold block, h. rewrite <- Z.pow_succ_r by lia. f_equal. lia. }
  assert (Z.shiftr (2 ^ (w - 1)) (prefix_len p) = h) as ->.
  { rewrite Z.shiftr_div_pow2 by lia. unfold h. rewrite <- Z.pow_sub_r by lia. f_equal. lia. }
  unfold h. rewrite lor_bit; fold h; [|lia|].
  2: { replace (w - (prefix_len p + 1) + 1) with (w - prefix_len p) by lia. done. }
  pose proof (addr_block_le p Hc). destruct Hd as [k Hk].
  destruct (new_assert_spec (addr p) (prefix_len p + 1)) as [E1 E2]; [lia..|].
  destruct (new_assert_spec (addr p + h) (prefix_len p + 1)) as [O1 O2]; [lia..|].
  assert (block (new_assert (addr p) (prefix_len p + 1)) = h) as Hbe by (unfold block; by rewrite E2).
  assert (block (new_assert (addr p + h) (prefix_len p + 1)) = h) as Hbo by (unfold block; by rewrite O2).
  split_and!; [lia| | |done|done|done|congruence|congruence|congruence].
  - apply net_canonical_aligned. rewrite Hbe, E1, Hk, Hb. exists (2 * k). lia.
  - apply net_canonical_aligned. rewrite Hbo, O1, Hk, Hb. exists (2 * k + 1). lia.
Qed.

Lemma host_prefix_spec a :
  0 <= a < 2 ^ w -> canonical (host_prefix a) /\ addr (host_prefix a) = a /\ prefix_len (host_prefix a) = w.
Proof.
  intros Ha. assert (0 <= w).
  { destruct (decide (w < 0)); [|lia]. rewrite Z.pow_neg_r in Ha by done. lia. }
  destruct (new_assert_spec a w) as [E1 E2]; [lia..|]. split_and!; [|done..].
  apply net_canonical_aligned. unfold block. unfold host_prefix. rewrite E2, Z.sub_diag. apply Z.divide_1_l.
Qed.

Lemma get_last_subprefix_spec p :
  canonical p -> let l := get_last_subprefix p in
  canonical l /\ addr l = addr p + block p - 1 /\ prefix_len l = w.
Proof.
  intros Hc. simpl. unfold get_last_subprefix. destruct (canonical_bounds p Hc) as [_ ->].
  apply host_prefix_spec. pose proof (addr_block_le p Hc). pose proof (net_block_pos p).
  pose proof (net_range p). lia.
Qed.

Lemma net_contains_canonical p q :
  canonical p -> canonical q ->
  contains p q = true <-> addr p <= addr q /\ addr q + block q <= addr p + block p.
Proof.
  intros Hp Hq. unfold contains. rewrite net_contains_spec.
  destruct (canonical_bounds p Hp) as [-> ->], (canonical_bounds q Hq) as [-> ->].
  rewrite andb_true_iff, !Z.leb_le. lia.
Qed.

(** Siblings aggregate to the block they make up. *)
Lemma try_aggregate_sibling p q :
  canonical p -> get_sibling p = Some q ->
  exists s, try_aggregate p q = Some s /\ canonical s /\ prefix_len s = prefix_len p - 1 /\
    block s = 2 * block p /\ addr s = Z.min (addr p) (addr q).
Proof.
  intros Hp Hs. pose proof (get_sibling_spec p Hp) as H. rewrite Hs in H.
  destruct H as (Hl & Hq & Hlq & Ha). pose proof (net_block_pos p) as Hb.
  assert (block q = block p) as Hbq by (unfold block; by rewrite Hlq).
  pose proof Hp as [k Hk]%net_canonical_aligned. assert (Hodd : addr p / block p = k) by (rewrite Hk, Z.div_mul; lia).
  rewrite Hodd in Ha. unfold try_aggregate.
  destruct (contains p q) eqn:E1.
  { apply net_contains_canonical in E1; [|done..]. destruct (Z.odd k); lia. }
  destruct (contains q p) eqn:E2.
  { apply net_contains_canonical in E2; [|done..]. destruct (Z.odd k); lia. }
  destruct (supernet_some p Hl) as (s1 & -> & L1 & A1). destruct (supernet_some q ltac:(lia)) as (s2 & -> & L2 & A2).
  rewrite block_half in A1, A2 by lia. rewrite Hbq in A2.
  set (m := k / 2). assert (Hkm : k = 2 * m + (if Z.odd k then 1 else 0)).
  { subst m. rewrite (Z.div_mod k 2) at 1 by lia. f_equal. rewrite Zmod_odd. done. }
  assert (Hdiv : forall r, 0 <= r < 2 * block p -> (m * (2 * block p) + r) / (2 * block p) = m).
  { intros r Hr. rewrite Z.add_comm, Z.div_add, Z.div_small by lia. lia. }
  assert (B1 : addr s1 = m * (2 * block p)).
  { rewrite A1. f_equal. rewrite Hk, Hkm. destruct (Z.odd k).
    - replace ((2 * m + 1) * block p) with (m * (2 * block p) + block p) by lia. apply Hdiv. lia.
    - replace ((2 * m + 0) * block p) with (m * (2 * block p) + 0) by lia. apply Hdiv. lia. }
  assert (B2 : addr s2 = m * (2 * block p)).
  { rewrite A2. f_equal. rewrite Ha, Hk. destruct (Z.odd k).
    - replace (k * block p - block p) with (m * (2 * block p) + 0) by nia. apply Hdiv. lia.
    - replace (k * block p + block p) with (m * (2 * block p) + block p) by nia. apply Hdiv. lia. }
  assert (s1 = s2) as <- by (apply net_ext; congruence). rewrite decide_True by done.
  assert (block s1 = 2 * block p) as Hbs.
  { rewrite <- block_half by done. unfold block. f_equal. lia. }
  exists s1. split_and!; [done| |done|done|].
  - apply net_canonical_aligned. rewrite Hbs, B1. apply Z.divide_factor_r.
  - rewrite B1, Ha, Hk. destruct (Z.odd k); nia.
Qed.
End Family.
End Family.

(** ** Both families: [IpPrefix] *)

Module IpPrefix.
Section IpPrefix.
Context {c4 : IpnetCrate 32} {c6 : IpnetCrate 128}.

Inductive t := V4 (p : Net 32) | V6 (p : Net 128).
#[export] Instance t_eq_dec : EqDecision t.
Proof. solve_decision. Defined.

Definition contains (p other : t) : bool :=
  match p, other with
  | V4 p, V4 q => Family.contains p q
  | V6 p, V6 q => Family.contains p q
  | _, _ => false
  end.

Definition get_sibling (p : t) : option t :=
  match p with
  | V4 p => V4 <$> Family.get_sibling p
  | V6 p => V6 <$> Family.get_sibling p
  end.

Definition bifurcate (p : t) : option (t * t) :=
  match p with
  | V4 p => (fun '(e, o) => (V4 e, V4 o)) <$> Family.bifurcate p
  | V6 p => (fun '(e, o) => (V6 e, V6 o)) <$> Family.bifurcate p
  end.

Definition get_last_subprefix (p : t) : t :=
  match p with
  | V4 p => V4 (Family.get_last_subprefix p)
  | V6 p => V6 (Family.get_last_subprefix p)
  end.

Definition try_aggregate (p other : t) : option t :=
  match p, other with
  | V4 p, V4 q => V4 <$> Family.try_aggregate p q
  | V6 p, V6 q => V6 <$> Family.try_aggregate p q
  | _, _ => None
  end.

(** [Ord]: IPv4 before IPv6. *)
Definition cmp (p q : t) : comparison :=
  match p, q with
  | V4 _, V6 _ => Lt
  | V6 _, V4 _ => Gt
  | V4 p, V4 q => net_cmp p q
  | V6 p, V6 q => net_cmp p q
  end.

(** *** What a prefix denotes *)

Definition fam (p : t) : bool := match p with V4 _ => true | V6 _ => false end.
Definition bits_of (f : bool) : Z := if f then 32 else 128.
Definition lo (p : t) : Z := match p with V4 p => addr p | V6 p => addr p end.
Definition len (p : t) : Z := match p with V4 p => prefix_len p | V6 p => prefix_len p end.
Definition block (p : t) : Z := 2 ^ (bits_of (fam p) - len p).
Definition canonical (p : t) : Prop :=
  match p with V4 p => Family.canonical p | V6 p => Family.canonical p end.

(** The addresses of a prefix: its family and a range of numbers. *)
Definition covers (p : t) (x : bool * Z) : Prop :=
  fam p = x.1 /\ lo p <= x.2 < lo p + block p.

Lemma prefix_aligned p : canonical p <-> (block p | lo p).
Proof. destruct p; apply Family.net_canonical_aligned. Qed.

Lemma prefix_block_pos p : 0 < block p.
Proof. destruct p as [p|p]; apply (Family.net_block_pos p). Qed.

Lemma len_range p : 0 <= len p <= bits_of (fam p).
Proof. destruct p as [p|p]; apply (net_range p). Qed.

Lemma prefix_ext p q : fam p = fam q -> lo p = lo q -> len p = len q -> p = q.
Proof.
  destruct p as [p|p], q as [q|q]; simpl; intros Hf Ha Hl; try done; f_equal; by apply net_ext.
Qed.

Lemma prefix_contains_spec p q :
  canonical p -> canonical q ->
  contains p q = true <-> fam p = fam q /\ lo p <= lo q /\ lo q + block q <= lo p + block p.
Proof.
  destruct p as [p|p], q as [q|q]; simpl; intros Hp Hq; try (split; naive_solver);
    rewrite (Family.net_contains_canonical p q Hp Hq); unfold block, Family.block; simpl; tauto.
Qed.

Lemma prefix_contains_covers p q :
  canonical p -> canonical q -> contains p q = true <-> forall x, covers q x -> covers p x.
Proof.
  intros Hp Hq. rewrite prefix_contains_spec by done. pose proof (prefix_block_pos q). split.
  - intros (Hf & Ha & Hb) [f b] [Hx Hr]. split; simpl in *; [congruence|lia].
  - intros Hall. destruct (Hall (fam q, lo q)) as [Hf Hr]; [by split; simpl; [|lia]|].
    destruct (Hall (fam q, lo q + block q - 1)) as [_ Hr']; [by split; simpl; [|lia]|].
    simpl in *. split_and!; [done|lia..].
Qed.

(** Larger blocks are multiples of smaller ones. *)
Lemma block_multiple p q : fam p = fam q -> len p <= len q -> exists m, 0 < m /\ block p = m * block q.
Proof.
  intros Hf Hl. pose proof (len_range p) as Hp. pose proof (len_range q). rewrite Hf in Hp.
  exists (2 ^ (len q - len p)). split.
  - apply Z.pow_pos_nonneg; lia.
  - unfold block. rewrite Hf, <- Z.pow_add_r by lia. f_equal. lia.
Qed.

(** Prefixes nest or are disjoint. *)
Lemma laminar p q x :
  canonical p -> canonical q -> len p <= len q -> covers p x -> covers q x -> contains p q = true.
Proof.
  intros Hp Hq Hl [Hfp Hrp] [Hfq Hrq]. assert (fam p = fam q) as Hf by congruence.
  apply prefix_contains_spec; [done..|]. split; [done|].
  destruct (block_multiple p q Hf Hl) as (m & Hm & Hb).
  pose proof Hp as [k Hk]%prefix_aligned. pose proof Hq as [j Hj]%prefix_aligned.
  pose proof (prefix_block_pos q). rewrite Hb in *. rewrite Hk in *. rewrite Hj in *.
  assert (k * m <= j < k * m + m) by nia. nia.
Qed.

Lemma contains_len p q : canonical p -> canonical q -> contains p q = true -> len p <= len q.
Proof.
  intros Hp Hq (Hf & Ha & Hb)%prefix_contains_spec; [|done..].
  destruct (decide (len q < len p)) as [Hlt|]; [|lia]. exfalso.
  assert (block p < block q); [|lia]. unfold block. rewrite Hf.
  pose proof (len_range p) as Hr. pose proof (len_range q). rewrite Hf in Hr.
  apply Z.pow_lt_mono_r; lia.
Qed.

Lemma contains_same_len p q :
  canonical p -> canonical q -> len p = len q -> contains p q = true -> p = q.
Proof.
  intros Hp Hq Hl (Hf & Ha & Hb)%prefix_contains_spec; [|done..]. apply prefix_ext; [done| |done].
  assert (block p = block q) by (unfold block; congruence). lia.
Qed.

Lemma contains_refl p : canonical p -> contains p p = true.
Proof. intros Hp. apply prefix_contains_covers; [done..|]. done. Qed.

(** *** Siblings and halves *)

Lemma sibling_spec p :
  canonical p ->
  match get_sibling p with
  | None => len p = 0
  | Some q => 0 < len p /\ canonical q /\ fam q = fam p /\ len q = len p /\
      lo q = if Z.odd (lo p / block p) then lo p - block p else lo p + block p
  end.
Proof.
  destruct p as [p|p]; simpl; intros Hp; pose proof (Family.get_sibling_spec p Hp) as H;
    destruct (Family.get_sibling p) as [q|]; simpl; try done; naive_solver.
Qed.

Lemma sibling_disjoint p q x : canonical p -> get_sibling p = Some q -> covers p x -> covers q x -> False.
Proof.
  intros Hp Hs [Hf Hr] [Hf' Hr']. pose proof (sibling_spec p Hp) as H. rewrite Hs in H.
  destruct H as (_ & Hq & Hfq & Hl & Ha). pose proof (prefix_block_pos p).
  assert (block q = block p) as Hb by (unfold block; congruence). rewrite Hb in *.
  destruct (Z.odd _); lia.
Qed.

Lemma sibling_sym p q : canonical p -> get_sibling p = Some q -> get_sibling q = Some p.
Proof.
  intros Hp Hs. pose proof (sibling_spec p Hp) as H. rewrite Hs in H.
  destruct H as (Hl0 & Hq & Hf & Hl & Ha). pose proof (sibling_spec q Hq) as H'.
  destruct (get_sibling q) as [p'|]; [|lia]. f_equal. destruct H' as (_ & Hp' & Hf' & Hl' & Ha').
  apply prefix_ext; [congruence| |congruence]. rewrite Ha'.
  assert (block q = block p) as Hb by (unfold block; congruence). rewrite Hb, Ha.
  pose proof (prefix_block_pos p). pose proof Hp as [k Hk]%prefix_aligned. rewrite Hk, Z.div_mul by lia.
  destruct (Z.odd k) eqn:E.
  - replace (k * block p - block p) with ((k - 1) * block p) by lia. rewrite Z.div_mul by lia.
    rewrite Z.odd_sub, E. simpl. lia.
  - replace (k * block p + block p) with ((k + 1) * block p) by lia. rewrite Z.div_mul by lia.
    rewrite Z.odd_add, E. simpl. lia.
Qed.

Lemma aggregate_spec p q :
  canonical p -> get_sibling p = Some q ->
  exists s, try_aggregate p q = Some s /\ canonical s /\ len s = len p - 1 /\ fam s = fam p /\
    forall x, covers s x <-> covers p x \/ covers q x.
Proof.
  intros Hp Hs.
  assert (exists s, try_aggregate p q = Some s /\ canonical s /\ len s = len p - 1 /\ fam s = fam p /\
            block s = 2 * block p /\ lo s = Z.min (lo p) (lo q)) as (s & E & Hc & Hl & Hf & Hb & Hlo).
  { destruct p as [p|p]; simpl in Hs;
      destruct (Family.get_sibling p) as [q'|] eqn:E; simplify_eq/=;
      destruct (Family.try_aggregate_sibling p q' Hp E) as (s & -> & ?); eexists; simpl;
      split_and!; naive_solver. }
  exists s. split_and!; [done..|]. intros [f b]. unfold covers. simpl. rewrite Hf, Hb, Hlo.
  pose proof (sibling_spec p Hp) as H. rewrite Hs in H. destruct H as (_ & Hq & Hfq & Hlq & Ha).
  assert (block q = block p) as Hbq by (unfold block; congruence). rewrite Hfq, Hbq.
  pose proof (prefix_block_pos p).
  assert (Z.min (lo p) (lo q) <= b < Z.min (lo p) (lo q) + 2 * block p <->
          lo p <= b < lo p + block p \/ lo q <= b < lo q + block p) by (destruct (Z.odd _); lia).
  tauto.
Qed.

Lemma halves_spec p :
  canonical p ->
  match bifurcate p with
  | None => len p = bits_of (fam p)
  | Some (e, o) => len p < bits_of (fam p) /\ canonical e /\ canonical o /\
      len e = len p + 1 /\ len o = len p + 1 /\ get_sibling e = Some o /\
      fam e = fam p /\ (forall x, covers p x <-> covers e x \/ covers o x)
  end.
Proof.
  intros Hp.
  assert (match bifurcate p with
  | None => len p = bits_of (fam p)
  | Some (e, o) => len p < bits_of (fam p) /\ canonical e /\ canonical o /\
      len e = len p + 1 /\ len o = len p + 1 /\ fam e = fam p /\ fam o = fam p /\
      lo e = lo p /\ lo o = lo p + block e /\ block p = 2 * block e /\ block o = block e
  end) as H.
  { destruct p as [p|p]; simpl; pose proof (Family.bifurcate_spec p Hp) as H;
      destruct (Family.bifurcate p) as [[e o]|]; simpl; try done; naive_solver. }
  destruct (bifurcate p) as [[e o]|]; [|done].
  destruct H as (Hl & He & Ho & Hle & Hlo & Hfe & Hfo & Hae & Hao & Hb & Hbo).
  pose proof (prefix_block_pos e). split_and!; try done.
  - pose proof (sibling_spec e He) as Hs. pose proof (len_range p). destruct (get_sibling e) as [s|]; [|lia].
    f_equal. destruct Hs as (_ & Hcs & Hfs & Hls & Has). apply prefix_ext; [congruence| |congruence].
    pose proof Hp as [k Hk]%prefix_aligned. rewrite Has, Hae, Hk, Hb.
    replace (k * (2 * block e)) with ((2 * k) * block e) by lia. rewrite Z.div_mul by lia.
    rewrite Z.odd_mul. simpl. lia.
  - intros [f b]. unfold covers. simpl. rewrite Hfe, Hfo, Hae, Hao, Hb, Hbo.
    assert (lo p <= b < lo p + 2 * block e <->
            lo p <= b < lo p + block e \/ lo p + block e <= b < lo p + block e + block e) by lia.
    tauto.
Qed.

Lemma last_subprefix_spec p :
  canonical p -> let l := get_last_subprefix p in
  canonical l /\ fam l = fam p /\ lo l = lo p + block p - 1 /\ len l = bits_of (fam p).
Proof.
  destruct p as [p|p]; simpl; intros Hp; destruct (Family.get_last_subprefix_spec p Hp) as (? & ? & ?);
    by split_and!.
Qed.

(** *** The order *)

Definition le (p q : t) : Prop := cmp p q <> Gt.
#[export] Instance le_dec : RelDecision le.
Proof. intros p q. unfold le. destruct (cmp p q); (by left) || (by right; intros []). Defined.

Lemma le_spec p q :
  le p q <-> (fam p = true /\ fam q = false) \/
    (fam p = fam q /\ (lo p < lo q \/ (lo p = lo q /\ len p <= len q))).
Proof.
  unfold le. destruct p as [p|p], q as [q|q]; simpl; [| |split; [done|intros [[? ?]|[? _]]; done]|].
  - rewrite net_cmp_spec. destruct (Z.compare_spec (addr p) (addr q)) as [E|E|E];
      [destruct (Z.compare_spec (prefix_len p) (prefix_len q))|..]; split; intros; try done; try lia;
      try (right; split; [done|lia]).
  - split; [by left|done].
  - rewrite net_cmp_spec. destruct (Z.compare_spec (addr p) (addr q)) as [E|E|E];
      [destruct (Z.compare_spec (prefix_len p) (prefix_len q))|..]; split; intros; try done; try lia;
      try (right; split; [done|lia]).
Qed.

#[export] Instance le_trans : Transitive le.
Proof.
  intros p q r. rewrite !le_spec. destruct (fam p), (fam q), (fam r); intros; intuition (done || lia).
Qed.
#[export] Instance le_total : Total le.
Proof.
  intros p q. rewrite !le_spec. destruct (fam p), (fam q); try (left; naive_solver); try (right; naive_solver).
  - destruct (decide (lo p < lo q \/ (lo p = lo q /\ len p <= len q))); [left|right]; right; split; lia || done.
  - destruct (decide (lo p < lo q \/ (lo p = lo q /\ len p <= len q))); [left|right]; right; split; lia || done.
Qed.
Lemma le_antisym p q : le p q -> le q p -> p = q.
Proof.
  rewrite !le_spec. intros H1 H2. apply prefix_ext; destruct (fam p), (fam q); intuition (done || lia).
Qed.
End IpPrefix.
Arguments t {c4 c6}.
End IpPrefix.
