(* ===== verification/IpSet.v ===== *)
(** * IpSet: crates/network/src/ip/ipset.rs

    A set of addresses kept as a [BTreeSet] of prefixes. The tree is the sorted
    list of its elements; [mem] is the set of addresses it stands for. The
    theorems show that the operations are the set operations on addresses, and
    that the two invariants written next to the field are kept. *)

From S2P Require Import Prelude IpPrefix.
Import IpPrefix.

Module IpSet.
Section IpSet.
Context {c4 : IpnetCrate 32} {c6 : IpnetCrate 128}.

(** ** The ordered set *)

Abbreviation tree := (list t).

Fixpoint insert (p : t) (s : tree) : tree :=
  match s with
  | [] => [p]
  | q :: s => if decide (p = q) then q :: s
              else if decide (le p q) then p :: q :: s
              else q :: insert p s
  end.

Definition remove_elem (p : t) (s : tree) : tree := filter (fun q => q <> p) s.

(** [range(..=p).last()] and [range(a..=b)]. *)
Definition range_to_last (p : t) (s : tree) : option t := last (filter (fun q => le q p) s).
Definition range (a b : t) (s : tree) : tree := filter (fun q => le a q /\ le q b) s.

(** ** The operations *)

Definition new_empty : tree := [].

Definition get_containing_prefix (s : tree) (p : t) : option t :=
  included ← range_to_last p s;
  if contains included p then Some included else None.

Definition contains_prefix (s : tree) (p : t) : bool :=
  match get_containing_prefix s p with Some _ => true | None => false end.

(** The loop that removes the sub-prefixes of [p], one per turn. *)
Fixpoint remove_subprefixes (fuel : nat) (p : t) (s : tree) : tree :=
  match fuel with
  | O => s
  | S fuel =>
      match find (fun q => contains p q) (range p (get_last_subprefix p) s) with
      | Some sub => remove_subprefixes fuel p (remove_elem sub s)
      | None => s
      end
  end.

(** The loop that merges with siblings; [None] is the panic of [unwrap]. *)
Fixpoint aggregate (fuel : nat) (p : t) (s : tree) : option (t * tree) :=
  match fuel with
  | O => Some (p, s)
  | S fuel =>
      match get_sibling p with
      | Some sibling =>
          if decide (sibling ∈ s)
          then p' ← try_aggregate p sibling; aggregate fuel p' (remove_elem sibling s)
          else Some (p, s)
      | None => Some (p, s)
      end
  end.

(** Turns that are enough: one per element, and one per bit of a prefix. *)
Definition merge_fuel : nat := 130.

Definition add (s : tree) (p : t) : option tree :=
  if contains_prefix s p then Some s else
  let s := remove_subprefixes (length s) p s in
  '(p, s) ← aggregate merge_fuel p s;
  Some (insert p s).

(** The loop that splits the container down to the removed prefix; [None] is a
    panic. *)
Fixpoint split_container (fuel : nat) (container p : t) (s : tree) : option tree :=
  if decide (container = p) then Some s else
  match fuel with
  | O => None
  | S fuel =>
      '(c1, c2) ← bifurcate container;
      if contains c1 p then split_container fuel c1 p (insert c2 s)
      else if contains c2 p then split_container fuel c2 p (insert c1 s)
      else None
  end.

Definition remove (s : tree) (p : t) : option tree :=
  match get_containing_prefix s p with
  | None => Some (remove_subprefixes (length s) p s)
  | Some container => split_container merge_fuel container p (remove_elem container s)
  end.

Definition get_prefixes (s : tree) : list t := s.
Definition get_ipv4_prefixes (s : tree) : list (Net 32) :=
  omap (fun p => match p with V4 p => Some p | V6 _ => None end) s.
Definition get_ipv6_prefixes (s : tree) : list (Net 128) :=
  omap (fun p => match p with V6 p => Some p | V4 _ => None end) s.

Fixpoint add_all (s : tree) (l : list t) : option tree :=
  match l with
  | [] => Some s
  | p :: l => s ← add s p; add_all s l
  end.
Definition aggregate_prefixes (l : list t) : option (list t) :=
  get_prefixes <$> add_all new_empty l.

(** ** What a set stands for *)

Definition mem (s : tree) (x : bool * Z) : Prop := exists p, p ∈ s /\ covers p x.

Definition overlap (p q : t) : Prop := exists x, covers p x /\ covers q x.

Record wf (s : tree) : Prop := {
  wf_sorted : StronglySorted le s;
  wf_nodup : NoDup s;
  wf_canonical p : p ∈ s -> canonical p;
  (** the prefixes are disjoint *)
  wf_disjoint p q : p ∈ s -> q ∈ s -> overlap p q -> p = q;
  (** no sibling prefixes exist *)
  wf_siblings p q : p ∈ s -> q ∈ s -> get_sibling p <> Some q
}.

(** ** Ordered sets *)

Lemma elem_of_tree_insert p s q : q ∈ insert p s <-> q = p \/ q ∈ s.
Proof.
  induction s as [|r s IH]; simpl; [set_solver|].
  case_decide; [subst; set_solver|]. case_decide; [set_solver|]. rewrite elem_of_cons, IH. set_solver.
Qed.

Lemma insert_sorted p s : StronglySorted le s -> StronglySorted le (insert p s).
Proof.
  induction 1 as [|r s Hs IH Hr]; simpl; [repeat constructor|].
  case_decide; [by constructor|]. case_decide as Hle.
  - constructor; [by constructor|]. constructor; [done|]. eapply Forall_impl; [exact Hr|].
    intros q Hq. simpl in *. by etrans.
  - constructor; [done|]. rewrite Forall_forall in Hr |- *. intros q [->|Hq]%elem_of_tree_insert; [|by apply Hr].
    destruct (total le p r); done.
Qed.

Lemma insert_nodup p s : p ∉ s -> NoDup s -> NoDup (insert p s).
Proof.
  intros Hp. induction 1 as [|r s Hr Hs IH]; simpl; [by repeat constructor; apply not_elem_of_nil|].
  apply not_elem_of_cons in Hp as [Hne Hp]. rewrite decide_False by done. case_decide.
  - by constructor; [set_solver|constructor].
  - constructor; [|by apply IH]. rewrite elem_of_tree_insert. set_solver.
Qed.

Lemma filter_sorted (P : t -> Prop) `{!forall x, Decision (P x)} s :
  StronglySorted le s -> StronglySorted le (filter P s).
Proof.
  induction 1 as [|r s Hs IH Hr]; [constructor|]. rewrite filter_cons. case_decide; [|done].
  constructor; [done|]. rewrite Forall_forall in Hr |- *. intros q [_ Hq]%list_elem_of_filter. by apply Hr.
Qed.

Lemma filter_all (P : t -> Prop) `{!forall x, Decision (P x)} (s : list t) :
  (forall q, q ∈ s -> P q) -> filter P s = s.
Proof.
  induction s as [|q s IH]; intros Hs; [done|]. rewrite filter_cons, decide_True by (apply Hs; by left).
  f_equal. apply IH. intros r Hr. apply Hs. by right.
Qed.

Lemma elem_of_remove_elem p s q : q ∈ remove_elem p s <-> q ∈ s /\ q <> p.
Proof. unfold remove_elem. rewrite list_elem_of_filter. tauto. Qed.

(** A part of a well-formed set is well formed. *)
Lemma wf_filter (P : t -> Prop) `{!forall x, Decision (P x)} s : wf s -> wf (filter P s).
Proof.
  intros [H1 H2 H3 H4 H5]. split.
  - by apply filter_sorted.
  - by apply NoDup_filter.
  - intros p [_ Hp]%list_elem_of_filter. auto.
  - intros p q [_ Hp]%list_elem_of_filter [_ Hq]%list_elem_of_filter. auto.
  - intros p q [_ Hp]%list_elem_of_filter [_ Hq]%list_elem_of_filter. auto.
Qed.

(** Adding a prefix that overlaps none and whose sibling is not there. *)
Lemma wf_insert p s :
  wf s -> canonical p -> (forall q, q ∈ s -> ~ overlap p q) -> (forall q, q ∈ s -> get_sibling p <> Some q) ->
  wf (insert p s).
Proof.
  intros [H1 H2 H3 H4 H5] Hp Hd Hs.
  assert (Hps : p ∉ s).
  { intros Hin. apply (Hd p Hin). exists (fam p, lo p). pose proof (prefix_block_pos p).
    unfold covers; simpl; split; split; (done || lia). }
  split.
  - by apply insert_sorted.
  - by apply insert_nodup.
  - intros q [->|Hq]%elem_of_tree_insert; auto.
  - intros q r [->|Hq]%elem_of_tree_insert [->|Hr]%elem_of_tree_insert Ho; auto.
    + by destruct (Hd r Hr).
    + destruct (Hd q Hq). destruct Ho as (x & ? & ?). by exists x.
  - intros q r [->|Hq]%elem_of_tree_insert [->|Hr]%elem_of_tree_insert E; [| |..].
    + pose proof (sibling_disjoint p p (fam p, lo p) Hp E) as Hx. pose proof (prefix_block_pos p).
      apply Hx; split; simpl; (done || lia).
    + by apply (Hs r Hr).
    + apply (Hs q Hq). apply sibling_sym; auto.
    + by apply (H5 q r).
Qed.

Lemma mem_insert p s x : mem (insert p s) x <-> covers p x \/ mem s x.
Proof. unfold mem. setoid_rewrite elem_of_tree_insert. naive_solver. Qed.

(** ** Finding the containing prefix *)

Lemma le_refl p : le p p.
Proof. by destruct (total le p p). Qed.

Lemma last_greatest s r q : StronglySorted le s -> last s = Some r -> q ∈ s -> le q r.
Proof.
  induction 1 as [|a s Hs IH Ha]; [done|]. destruct s as [|b s].
  - intros [= ->] ->%list_elem_of_singleton. apply le_refl.
  - intros Hl [->|Hq]%elem_of_cons; [|by apply IH]. rewrite Forall_forall in Ha.
    apply Ha. by apply last_Some_elem_of.
Qed.

Lemma contains_le p q : canonical p -> canonical q -> contains p q = true -> le p q.
Proof.
  intros Hp Hq Hc. pose proof (contains_len p q Hp Hq Hc). apply prefix_contains_spec in Hc as (Hf & Ha & _); [|done..].
  apply le_spec. right. split; [done|]. lia.
Qed.

Lemma containing_some s p c :
  wf s -> get_containing_prefix s p = Some c -> c ∈ s /\ contains c p = true.
Proof.
  intros Hs. unfold get_containing_prefix, range_to_last.
  destruct (last _) as [r|] eqn:E; [|done]. simpl. destruct (contains r p) eqn:Ec; [|done].
  intros [= <-]. split; [|done]. apply last_Some_elem_of in E. by apply list_elem_of_filter in E as [_ ?].
Qed.

(** Looking at the greatest prefix not above [p] is enough. *)
Lemma containing_none s p q :
  wf s -> canonical p -> get_containing_prefix s p = None -> q ∈ s -> contains q p = false.
Proof.
  intros Hs Hp Hn Hq. destruct (contains q p) eqn:Ec; [|done]. exfalso.
  pose proof (wf_canonical _ Hs q Hq) as Hcq. pose proof (contains_le q p Hcq Hp Ec) as Hle.
  unfold get_containing_prefix, range_to_last in Hn.
  assert (q ∈ filter (fun q => le q p) s) as Hin by (by apply list_elem_of_filter).
  destruct (last _) as [r|] eqn:E; [|apply last_None in E; rewrite E in Hin; by apply elem_of_nil in Hin].
  pose proof (last_greatest _ _ q (filter_sorted _ s (wf_sorted _ Hs)) E Hin) as Hqr.
  apply last_Some_elem_of in E. apply list_elem_of_filter in E as [Hrp Hr].
  assert (q = r) as ->; [|simpl in Hn; by rewrite Ec in Hn].
  apply (wf_disjoint _ Hs q r Hq Hr). exists (fam r, lo r). pose proof (prefix_block_pos r).
  apply prefix_contains_spec in Ec as (Hf & Ha & Hb); [|done..]. pose proof (prefix_block_pos p).
  rewrite le_spec in Hqr, Hrp. unfold covers; simpl.
  destruct (fam q), (fam r), (fam p); (split; [split; [|]|split; [|]]); intuition (done || lia).
Qed.

(** ** Removing sub-prefixes *)

Lemma remove_subprefixes_filter fuel p s :
  canonical p -> (forall q, q ∈ s -> canonical q) ->
  (length (filter (fun q => contains p q = true) s) <= fuel)%nat ->
  remove_subprefixes fuel p s = filter (fun q => contains p q = false) s.
Proof.
  intros Hp. revert s. induction fuel as [|fuel IH]; intros s Hs Hlen; simpl.
  - symmetry. apply filter_all. intros q Hq. destruct (contains p q) eqn:E; [|done].
    assert (q ∈ filter (fun q => contains p q = true) s) as Hin by (by apply list_elem_of_filter).
    destruct (filter _ s); [by apply elem_of_nil in Hin|simpl in Hlen; lia].
  - destruct (find _ _) as [sub|] eqn:E.
    + apply find_some in E as [Hin Hc]. apply list_elem_of_In, list_elem_of_filter in Hin as [_ Hin].
      rewrite IH.
      * unfold remove_elem. rewrite list_filter_filter. apply list_filter_iff. intros q.
        split; [tauto|]. intros Hf. split; [done|]. congruence.
      * intros q [? _]%elem_of_remove_elem. auto.
      * unfold remove_elem. rewrite list_filter_filter.
        assert (length (filter (fun q => q <> sub) (filter (fun q => contains p q = true) s))
                < length (filter (fun q => contains p q = true) s))%nat as Hlt.
        { apply length_filter_lt with sub; [by apply list_elem_of_filter|naive_solver]. }
        rewrite list_filter_filter in Hlt.
        rewrite (list_filter_iff _ (fun q => q <> sub /\ contains p q = true)) by tauto. lia.
    + symmetry. apply filter_all. intros q Hq. destruct (contains p q) eqn:Ec; [|done].
      exfalso. eapply find_none in E; [by rewrite Ec in E|]. apply list_elem_of_In, list_elem_of_filter.
      split; [|done]. split; [by apply contains_le; auto|].
      destruct (last_subprefix_spec p Hp) as (Hcl & Hfl & Hll & Hlen').
      apply prefix_contains_spec in Ec as (Hf & Ha & Hb); [|by auto..]. apply le_spec. right.
      split; [congruence|]. pose proof (prefix_block_pos q). pose proof (len_range q).
      rewrite Hll, Hlen', Hf. lia.
Qed.

(** ** Covered prefixes are contained in one element *)

Lemma covers_lo p : covers p (fam p, lo p).
Proof. pose proof (prefix_block_pos p). split; simpl; [done|lia]. Qed.

(** An element that overlaps [p] contains it or is contained in it. *)
Lemma overlap_cases p q :
  canonical p -> canonical q -> overlap p q -> contains p q = true \/ contains q p = true.
Proof.
  intros Hp Hq (x & Hx & Hy). destruct (decide (len p <= len q)).
  - left. by eapply laminar.
  - right. eapply laminar; [done..|lia|done|done].
Qed.

(** Without siblings, address space that is covered at all is covered by one
    prefix: by induction on the number of free bits. *)
Lemma covered_contained s n : forall p,
  wf s -> canonical p -> bits_of (fam p) - len p = Z.of_nat n ->
  (forall x, covers p x -> mem s x) -> exists q, q ∈ s /\ contains q p = true.
Proof.
  induction n as [|n IH]; intros p Hs Hp Hn Hall.
  - destruct (Hall _ (covers_lo p)) as (q & Hq & Hc). exists q. split; [done|].
    pose proof (wf_canonical _ Hs q Hq) as Hcq.
    assert (fam q = fam p) as Hf by apply Hc. pose proof (len_range q) as Hl. rewrite Hf in Hl.
    eapply laminar; [done..|lia|exact Hc|apply covers_lo].
  - pose proof (halves_spec p Hp) as H. destruct (bifurcate p) as [[e o]|]; [|lia].
    destruct H as (_ & He & Ho & Hle & Hlo & Hsib & Hfe & Hcov).
    pose proof (sibling_spec e He) as Hso. rewrite Hsib in Hso. destruct Hso as (_ & _ & Hfo & _).
    assert (Hhalf : forall h, h = e \/ h = o -> exists q, q ∈ s /\ (contains q p = true \/ q = h)).
    { intros h Hh. assert (canonical h /\ fam h = fam p /\ len h = len p + 1 /\
        (forall x, covers h x -> covers p x)) as (Hch & Hfh & Hlh & Hsub).
      { destruct Hh as [->| ->]; split_and!; try done; try congruence; intros x ?; apply Hcov; auto. }
      destruct (IH h) as (q & Hq & Hc); [done|done|rewrite Hfh; lia|by intros x Hx; apply Hall, Hsub|].
      exists q. split; [done|]. pose proof (wf_canonical _ Hs q Hq) as Hcq.
      pose proof (contains_len q h Hcq Hch Hc). pose proof Hc as Hc'.
      rewrite prefix_contains_covers in Hc by done.
      destruct (decide (len q <= len p)).
      - left. eapply laminar; [done..|lia|apply Hc, covers_lo|apply Hsub, covers_lo].
      - right. apply contains_same_len; [done|done|lia|done]. }
    destruct (Hhalf e) as (q1 & Hq1 & [Hc| ->]); [by left|by exists q1|].
    destruct (Hhalf o) as (q2 & Hq2 & [Hc| ->]); [by right|by exists q2|].
    by destruct (wf_siblings _ Hs e o Hq1 Hq2).
Qed.

Lemma contains_prefix_mem s p :
  wf s -> canonical p -> contains_prefix s p = true <-> forall x, covers p x -> mem s x.
Proof.
  intros Hs Hp. unfold contains_prefix. destruct (get_containing_prefix s p) as [c|] eqn:E.
  - split; [|done]. intros _ x Hx. apply containing_some in E as [Hc Hcp]; [|done]. exists c.
    split; [done|]. rewrite prefix_contains_covers in Hcp; [auto|by eapply wf_canonical|done].
  - split; [done|]. intros Hall. pose proof (len_range p).
    destruct (covered_contained s (Z.to_nat (bits_of (fam p) - len p)) p) as (q & Hq & Hc); [done|done|lia|done|].
    eapply containing_none in E; [|done..]. congruence.
Qed.

(** ** Merging with siblings *)

(** The prefix to insert and the set without it, while it grows. *)
Record apart (p : t) (s : tree) : Prop := {
  apart_wf : wf s;
  apart_canonical : canonical p;
  apart_disjoint q : q ∈ s -> ~ overlap p q
}.

Lemma aggregate_correct fuel p s :
  apart p s -> (Z.to_nat (len p) < fuel)%nat ->
  exists p' s', aggregate fuel p s = Some (p', s') /\ apart p' s' /\
    (forall q, q ∈ s' -> get_sibling p' <> Some q) /\
    forall x, covers p' x \/ mem s' x <-> covers p x \/ mem s x.
Proof.
  revert p s. induction fuel as [|fuel IH]; intros p s Ha Hf; [lia|]. simpl.
  pose proof Ha as [Hs Hp Hd]. destruct (get_sibling p) as [q|] eqn:Eq.
  2: { exists p, s. split_and!; [done|done|congruence|done]. }
  case_decide as Hq; cycle 1.
  { exists p, s. split_and!; [done|done|congruence|done]. }
  destruct (aggregate_spec p q Hp Eq) as (p' & -> & Hp' & Hl & Hfam & Hcov). simpl.
  pose proof (sibling_spec p Hp) as Hsib. rewrite Eq in Hsib. destruct Hsib as (Hl0 & Hcq & _).
  destruct (IH p' (remove_elem q s)) as (p'' & s'' & E & Ha'' & Hs'' & Hm).
  - split; [by apply wf_filter|done|]. intros r [Hr Hne]%elem_of_remove_elem (x & Hx & Hxr).
    apply Hcov in Hx as [Hx|Hx]; [apply (Hd r Hr); by exists x|].
    apply Hne. apply (wf_disjoint _ Hs r q Hr Hq). by exists x.
  - lia.
  - exists p'', s''. split_and!; [done..|]. intros x. rewrite Hm, Hcov. unfold mem.
    setoid_rewrite elem_of_remove_elem. split.
    + intros [[?|?]|(r & [? ?] & ?)]; [by left|right; by exists q|right; by exists r].
    + intros [?|(r & Hr & ?)]; [by left; left|]. destruct (decide (r = q)) as [->|]; [by left; right|].
      right. by exists r.
Qed.

(** What is left of a set without the sub-prefixes of [p] that no element contains. *)
Lemma uncontained_apart s p :
  wf s -> canonical p -> contains_prefix s p = false ->
  apart p (filter (fun q => contains p q = false) s).
Proof.
  intros Hs Hp Hn. split; [by apply wf_filter|done|].
  intros q [Hc Hq]%list_elem_of_filter Ho. pose proof (wf_canonical _ Hs q Hq) as Hcq.
  apply overlap_cases in Ho as [?|?]; [congruence| |done..].
  unfold contains_prefix in Hn. destruct (get_containing_prefix s p) eqn:E; [done|].
  eapply containing_none in E; [|done..]. congruence.
Qed.

Lemma mem_without_subprefixes s p x :
  wf s -> canonical p -> contains_prefix s p = false ->
  mem (filter (fun q => contains p q = false) s) x <-> mem s x /\ ~ covers p x.
Proof.
  intros Hs Hp Hn. pose proof (uncontained_apart s p Hs Hp Hn) as [_ _ Hd]. unfold mem. split.
  - intros (q & Hq & Hx). split; [|intros Hpx; apply (Hd q Hq); by exists x].
    apply list_elem_of_filter in Hq as [_ Hq]. by exists q.
  - intros [(q & Hq & Hx) Hnp]. exists q. split; [|done]. apply list_elem_of_filter. split; [|done].
    destruct (contains p q) eqn:E; [|done]. rewrite prefix_contains_covers in E; [|done|by eapply wf_canonical].
    by destruct Hnp; apply E.
Qed.

Lemma remove_subprefixes_all s p :
  wf s -> canonical p ->
  remove_subprefixes (length s) p s = filter (fun q => contains p q = false) s.
Proof.
  intros Hs Hp. apply remove_subprefixes_filter; [done|apply Hs|]. apply length_filter.
Qed.

Lemma fuel_enough p : (Z.to_nat (len p) < merge_fuel)%nat.
Proof. pose proof (len_range p) as H. unfold merge_fuel, bits_of in *. destruct (fam p); lia. Qed.

Lemma add_correct s p :
  wf s -> canonical p ->
  exists s', add s p = Some s' /\ wf s' /\ forall x, mem s' x <-> covers p x \/ mem s x.
Proof.
  intros Hs Hp. unfold add. destruct (contains_prefix s p) eqn:E.
  { exists s. split_and!; [done..|]. intros x. rewrite contains_prefix_mem in E by done. naive_solver. }
  rewrite remove_subprefixes_all by done.
  destruct (aggregate_correct merge_fuel p _ (uncontained_apart s p Hs Hp E) (fuel_enough p))
    as (p' & s' & -> & [Hs' Hp' Hd'] & Hsib & Hm). simpl.
  exists (insert p' s'). split_and!; [done|by apply wf_insert|]. intros x.
  rewrite mem_insert, Hm, mem_without_subprefixes by done.
  destruct (decide (fam p = x.1 /\ lo p <= x.2 < lo p + block p)); unfold covers; tauto.
Qed.

(** ** Splitting the container *)

Lemma split_container_correct fuel c p s :
  apart c s -> canonical p -> contains c p = true -> (Z.to_nat (len p - len c) <= fuel)%nat ->
  exists s', split_container fuel c p s = Some s' /\ wf s' /\
    forall x, mem s' x <-> mem s x \/ (covers c x /\ ~ covers p x).
Proof.
  revert c s. induction fuel as [|fuel IH]; intros c s [Hs Hc Hd] Hp Hcp Hf; simpl; case_decide as He;
    try (subst; exists s; split_and!; [done|done|]; intros x; tauto).
  { destruct He. pose proof (contains_len c p Hc Hp Hcp).
    by apply contains_same_len; [..|lia|]. }
  pose proof (halves_spec c Hc) as H. pose proof (contains_len c p Hc Hp Hcp) as Hl.
  assert (len c < len p) as Hlt.
  { destruct (decide (len c = len p)); [|lia]. by destruct He; apply contains_same_len. }
  pose proof Hcp as (Hfam & _)%prefix_contains_spec; [|done..]. pose proof (len_range p) as Hlp.
  destruct (bifurcate c) as [[e o]|]; [|rewrite Hfam in H; lia]. simpl.
  destruct H as (_ & He' & Ho & Hle & Hlo & Hsib & Hfe & Hcov).
  pose proof (sibling_sym e o He' Hsib) as Hsib'.
  assert (Hstep : forall k r, canonical k -> canonical r -> len k = len c + 1 -> get_sibling r = Some k ->
      (forall x, covers c x <-> covers k x \/ covers r x) -> contains k p = true ->
      exists s', split_container fuel k p (insert r s) = Some s' /\ wf s' /\
        forall x, mem s' x <-> mem s x \/ (covers c x /\ ~ covers p x)).
  { intros k r Hk Hr Hlk Hrk Hkr Hkp. assert (Hrd : forall q, q ∈ s -> ~ overlap r q).
    { intros q Hq (x & ? & ?). apply (Hd q Hq). exists x. rewrite Hkr. auto. }
    destruct (IH k (insert r s)) as (s' & -> & Hs' & Hm).
    - split; [|done|].
      + apply wf_insert; [done..|]. intros q Hq [= ->]%(eq_trans (eq_sym Hrk)). apply (Hd q Hq).
        exists (fam q, lo q). rewrite Hkr. auto using covers_lo.
      + intros q [->|Hq]%elem_of_tree_insert (x & ? & ?); [by eapply (sibling_disjoint r k)|].
        apply (Hd q Hq). exists x. rewrite Hkr. auto.
    - done.
    - done.
    - lia.
    - exists s'. split_and!; [done..|]. intros x. rewrite Hm, mem_insert, Hkr.
      rewrite prefix_contains_covers in Hkp by done.
      assert (covers r x -> ~ covers p x) by (intros ? ?%Hkp; by eapply (sibling_disjoint r k)). tauto. }
  destruct (contains e p) eqn:Ee; [by apply Hstep|]. destruct (contains o p) eqn:Eo.
  { apply Hstep; try done. intros x. rewrite Hcov. tauto. }
  exfalso. rewrite prefix_contains_covers in Hcp by done.
  pose proof (Hcp _ (covers_lo p)) as [Hx|Hx]%Hcov.
  - by rewrite (laminar e p _ He' Hp ltac:(lia) Hx (covers_lo p)) in Ee.
  - by rewrite (laminar o p _ Ho Hp ltac:(lia) Hx (covers_lo p)) in Eo.
Qed.

Lemma remove_correct s p :
  wf s -> canonical p ->
  exists s', remove s p = Some s' /\ wf s' /\ forall x, mem s' x <-> mem s x /\ ~ covers p x.
Proof.
  intros Hs Hp. unfold remove. destruct (get_containing_prefix s p) as [c|] eqn:E.
  - apply containing_some in E as [Hc Hcp]; [|done]. pose proof (wf_canonical _ Hs c Hc) as Hcc.
    destruct (split_container_correct merge_fuel c p (remove_elem c s)) as (s' & -> & Hs' & Hm).
    + split; [by apply wf_filter|done|]. intros q [Hq Hne]%elem_of_remove_elem Ho.
      apply Hne. symmetry. by apply (wf_disjoint _ Hs).
    + done.
    + done.
    + pose proof (fuel_enough p). pose proof (len_range c). lia.
    + exists s'. split_and!; [done..|]. intros x. rewrite Hm. unfold mem. setoid_rewrite elem_of_remove_elem.
      rewrite prefix_contains_covers in Hcp by done. split.
      * intros [(q & [Hq Hne] & Hx)|[? ?]]; [|by split; [exists c|]]. split; [by exists q|].
        intros Hpx%Hcp. apply Hne. apply (wf_disjoint _ Hs); [done..|]. by exists x.
      * intros [(q & Hq & Hx) Hn]. destruct (decide (q = c)) as [->|]; [by right|left; by exists q].
  - rewrite remove_subprefixes_all by done. eexists. split; [done|]. split; [by apply wf_filter|].
    intros x. apply mem_without_subprefixes; [done..|]. unfold contains_prefix. by rewrite E.
Qed.

(** ** One representation *)

(** Two well-formed sets of the same addresses have the same elements. *)
Lemma same_elements s1 s2 :
  wf s1 -> wf s2 -> (forall x, mem s1 x -> mem s2 x) -> (forall x, mem s2 x -> mem s1 x) ->
  forall p, p ∈ s1 -> p ∈ s2.
Proof.
  intros H1 H2 H12 H21 p Hp. pose proof (wf_canonical _ H1 p Hp) as Hc. pose proof (len_range p).
  destruct (covered_contained s2 (Z.to_nat (bits_of (fam p) - len p)) p) as (q & Hq & Hqp);
    [done|done|lia|intros x Hx; apply H12; by exists p|].
  pose proof (wf_canonical _ H2 q Hq) as Hcq. pose proof (len_range q).
  destruct (covered_contained s1 (Z.to_nat (bits_of (fam q) - len q)) q) as (r & Hr & Hrq);
    [done|done|lia|intros x Hx; apply H21; by exists q|].
  pose proof (wf_canonical _ H1 r Hr) as Hcr.
  assert (p = r) as <-.
  { apply (wf_disjoint _ H1); [done..|]. exists (fam p, lo p). split; [apply covers_lo|].
    rewrite prefix_contains_covers in Hqp, Hrq by done. apply Hrq, Hqp, covers_lo. }
  by rewrite <- (contains_same_len q p Hcq Hc
    ltac:(pose proof (contains_len q p Hcq Hc Hqp); pose proof (contains_len p q Hc Hcq Hrq); lia) Hqp).
Qed.

Lemma representation_unique s1 s2 :
  wf s1 -> wf s2 -> (forall x, mem s1 x <-> mem s2 x) -> s1 = s2.
Proof.
  intros H1 H2 Hm. eapply (StronglySorted_unique_strong le); [|apply H1|apply H2|].
  - intros p q _ _. apply le_antisym.
  - apply NoDup_Permutation; [apply H1|apply H2|]. intros p.
    split; apply same_elements; try done; intros x; apply Hm.
Qed.

Lemma add_all_correct l s :
  wf s -> Forall canonical l ->
  exists s', add_all s l = Some s' /\ wf s' /\ forall x, mem s' x <-> mem s x \/ mem l x.
Proof.
  intros Hs Hl. revert s Hs. induction Hl as [|p l Hp Hl IH]; intros s Hs; simpl.
  { exists s. split_and!; [done..|]. intros x. unfold mem. set_solver. }
  destruct (add_correct s p Hs Hp) as (s1 & -> & Hs1 & Hm1). simpl.
  destruct (IH s1 Hs1) as (s2 & -> & Hs2 & Hm2). exists s2. split_and!; [done..|].
  intros x. rewrite Hm2, Hm1. unfold mem. setoid_rewrite elem_of_cons. naive_solver.
Qed.

Lemma wf_empty : wf new_empty.
Proof. split; [constructor|constructor|..]; intros ? *; by intros ?%elem_of_nil. Qed.

(** ** The contract: a set of addresses

    The abstract value of a set is a predicate on addresses; the operations are
    union, difference and inclusion. *)

Definition addresses : Type := bool * Z -> Prop.
Definition union (A : addresses) (p : t) : addresses := fun x => A x \/ covers p x.
Definition difference (A : addresses) (p : t) : addresses := fun x => A x /\ ~ covers p x.

Record represents (s : tree) (A : addresses) : Prop := {
  represents_wf : wf s;
  represents_mem x : mem s x <-> A x
}.

Lemma represents_empty : represents new_empty (fun _ => False).
Proof. split; [apply wf_empty|]. intros x. unfold mem. split; [|done]. by intros (? & ?%elem_of_nil & _). Qed.

Lemma represents_singleton p : canonical p -> represents [p] (covers p).
Proof.
  intros Hp. split.
  - apply (wf_insert p new_empty wf_empty Hp); by intros q ?%elem_of_nil.
  - intros x. unfold mem. set_solver.
Qed.

(** C30: a set of prefixes is the set of its addresses. Adding and removing a
    prefix never panic (the container always splits down to the prefix), keep the
    two invariants of the tree (the prefixes are disjoint, no two of them are
    siblings) and are union and difference; [contains_prefix], which looks at one
    element of the tree only, decides whether every address is in the set. *)
Theorem ipset_refines s A p :
  represents s A -> canonical p ->
  (exists s', add s p = Some s' /\ represents s' (union A p)) /\
  (exists s', remove s p = Some s' /\ represents s' (difference A p)) /\
  (contains_prefix s p = true <-> forall x, covers p x -> A x).
Proof.
  intros [Hs HA] Hp. split_and!.
  - destruct (add_correct s p Hs Hp) as (s' & E & Hs' & Hm).
    exists s'. split; [done|]. split; [done|]. intros x. unfold union. rewrite Hm, HA. tauto.
  - destruct (remove_correct s p Hs Hp) as (s' & E & Hs' & Hm).
    exists s'. split; [done|]. split; [done|]. intros x. unfold difference. rewrite Hm, HA. tauto.
  - rewrite contains_prefix_mem by done. by setoid_rewrite HA.
Qed.

(** *** Aggregation *)

(** Distinct elements with distinct partners. *)
Lemma partners_length {B} (R : t -> B -> Prop) (l1 : list t) (l2 : list B) :
  NoDup l1 -> (forall p, p ∈ l1 -> exists q, q ∈ l2 /\ R p q) ->
  (forall p p' q, p ∈ l1 -> p' ∈ l1 -> R p q -> R p' q -> p = p') -> (length l1 <= length l2)%nat.
Proof.
  intros Hn. revert l2. induction Hn as [|p l1 Hp Hn IH]; intros l2 Hex Hinj; simpl; [lia|].
  destruct (Hex p) as (q & Hq & HR); [by left|].
  apply list_elem_of_split in Hq as (k1 & k2 & ->).
  rewrite length_app. simpl. rewrite <- plus_n_Sm, <- length_app. apply le_n_S, IH.
  - intros p' Hp'. destruct (Hex p') as (q' & Hq' & HR'); [by right|]. exists q'. split; [|done].
    apply elem_of_app in Hq' as [?|[->|?]%elem_of_cons]; [set_solver| |set_solver].
    destruct Hp. rewrite (Hinj p p' q); [done|by left|by right|done|done].
  - intros p1 p2 r H1 H2. apply Hinj; by right.
Qed.

(** A well-formed set is the shortest list of prefixes of its addresses. *)
Lemma shortest s l :
  wf s -> Forall canonical l -> (forall x, mem s x <-> mem l x) -> (length s <= length l)%nat.
Proof.
  intros Hs Hl Hm. rewrite Forall_forall in Hl.
  apply (partners_length (fun p q => contains p q = true /\ canonical q)); [apply Hs|..].
  - intros p Hp. assert (mem l (fam p, lo p)) as (q & Hq & Hx) by (apply Hm; exists p; auto using covers_lo).
    exists q. split; [done|]. split; [|auto]. pose proof (len_range q).
    destruct (covered_contained s (Z.to_nat (bits_of (fam q) - len q)) q) as (p' & Hp' & Hc);
      [done|auto|lia|intros x ?; apply Hm; by exists q|].
    rewrite (wf_disjoint _ Hs p p'); [done..|]. exists (fam p, lo p). split; [apply covers_lo|].
    rewrite prefix_contains_covers in Hc; [by apply Hc|by eapply wf_canonical|auto].
  - intros p p' q Hp Hp' [H1 Hq] [H2 _]. apply (wf_disjoint _ Hs); [done..|]. exists (fam q, lo q).
    rewrite prefix_contains_covers in H1, H2; [|by eauto using wf_canonical..]. auto using covers_lo.
Qed.

(** [aggregate_prefixes] is total; its result covers the same addresses as
    the input, is the shortest list of prefixes that does, and is the same for
    every list of prefixes of those addresses. *)
Theorem aggregate_prefixes_canonical l :
  Forall canonical l ->
  exists r, aggregate_prefixes l = Some r /\ (forall x, mem r x <-> mem l x) /\
    forall l', Forall canonical l' -> (forall x, mem l' x <-> mem l x) ->
      (length r <= length l')%nat /\ aggregate_prefixes l' = Some r.
Proof.
  intros Hl. unfold aggregate_prefixes, get_prefixes.
  assert (Hmem : forall k s, (forall x, mem s x <-> mem new_empty x \/ mem k x) -> forall x, mem s x <-> mem k x).
  { intros k s Hm x. rewrite Hm. unfold new_empty, mem. set_solver. }
  destruct (add_all_correct l new_empty wf_empty Hl) as (s & -> & Hs & Hm).
  pose proof (Hmem l s Hm) as Hml. exists s.
  split_and!; [done|done|]. intros l' Hl' Hm'. split.
  - apply shortest; [done..|]. intros x. by rewrite Hml, Hm'.
  - destruct (add_all_correct l' new_empty wf_empty Hl') as (s' & -> & Hs' & Hm2).
    pose proof (Hmem l' s' Hm2) as Hml'. simpl. f_equal.
    apply representation_unique; [done..|]. intros x. by rewrite Hml, Hml', Hm'.
Qed.
End IpSet.
End IpSet.

(** ** Witnesses *)

Module IpSetExample.
Import IpSet.
#[local] Existing Instances ipnet4_reference ipnet6_reference.

(** 10.0.0.0/9, its sibling 10.128.0.0/9, and 10.0.0.0/8. *)
Definition low_half : t := V4 (new_assert (10 * 2 ^ 24) 9).
Definition high_half : t := V4 (new_assert (10 * 2 ^ 24 + 2 ^ 23) 9).
Definition whole : t := V4 (new_assert (10 * 2 ^ 24) 8).

Lemma low_half_canonical : canonical low_half.
Proof. reflexivity. Qed.
Lemma high_half_canonical : canonical high_half.
Proof. reflexivity. Qed.
Lemma whole_canonical : canonical whole.
Proof. reflexivity. Qed.

Lemma ipset_refines_witness :
  (exists s', add [low_half] high_half = Some s' /\ represents s' (union (covers low_half) high_half)) /\
  (exists s', remove [whole] low_half = Some s' /\ represents s' (difference (covers whole) low_half)) /\
  (contains_prefix [whole] high_half = true <-> forall x, covers high_half x -> covers whole x).
Proof.
  split_and!.
  - apply (ipset_refines [low_half] (covers low_half) high_half);
      [apply represents_singleton, low_half_canonical|apply high_half_canonical].
  - apply (ipset_refines [whole] (covers whole) low_half);
      [apply represents_singleton, whole_canonical|apply low_half_canonical].
  - apply (ipset_refines [whole] (covers whole) high_half);
      [apply represents_singleton, whole_canonical|apply high_half_canonical].
Defined.

Lemma aggregate_prefixes_canonical_witness :
  exists r, aggregate_prefixes [high_half; low_half] = Some r /\
    (forall x, mem r x <-> mem [high_half; low_half] x) /\
    forall l', Forall canonical l' -> (forall x, mem l' x <-> mem [high_half; low_half] x) ->
      (length r <= length l')%nat /\ aggregate_prefixes l' = Some r.
Proof.
  apply (aggregate_prefixes_canonical [high_half; low_half]).
  constructor; [apply high_half_canonical|]. constructor; [apply low_half_canonical|constructor].
Defined.

(** The two halves merge, and come apart again. *)
Example halves_merge :
  aggregate_prefixes [high_half; low_half] = Some [whole] /\ remove [whole] low_half = Some [high_half].
Proof. split; reflexivity. Qed.

End IpSetExample.
