(* ===== verification/ResourcePool.v ===== *)
(** * ResourcePool: crates/api-db/src/resource_pool.rs

    Pools of values (VNIs, VLAN ids, ASNs, addresses, partition keys) and who owns
    each value. The table is a map from pool name and value text to the row;
    its [id], [created] and [state_version] columns are never read and are left
    out. A statement that the driver fails ends its transaction, so it is not an
    outcome of its own here. [locked] are the rows other transactions hold
    ([FOR UPDATE SKIP LOCKED]) and [pick] resolves [ORDER BY random()]. *)

From S2P Require Import Prelude Text StateHandler Queue.

Module ResourcePool.

(** ** Data of crates/api-model/src/resource_pool/mod.rs *)

Inductive EntryState := Free | Allocated (owner owner_type : string).
#[export] Instance EntryState_eq_dec : EqDecision EntryState.
Proof. solve_decision. Defined.

Inductive ValueType := Integer | Ipv4 | Ipv6 | Ipv6Prefix.

Inductive OwnerType := Machine | NetworkSegment | IBPartition | Vpc | SpxPartition.

Definition display_owner (o : OwnerType) : string :=
  match o with
  | Machine => "machine"
  | NetworkSegment => "network_segment"
  | IBPartition => "ib_partition"
  | Vpc => "vpc"
  | SpxPartition => "spx_partition"
  end.

Definition owner_from_str (s : string) : result string OwnerType :=
  if String.eqb s "machine" then Ok Machine
  else if String.eqb s "network_segment" then Ok NetworkSegment
  else if String.eqb s "ib_partition" then Ok IBPartition
  else if String.eqb s "vpc" then Ok Vpc
  else if String.eqb s "spx_partition" then Ok SpxPartition
  else Err ("Unknown owner_type '" +:+ s +:+ "'").

Record pool := mk_pool { name : string; value_type : ValueType }.

(** [T: ToString + FromStr]. *)
Class PoolValue (T : Type) := {
  in_type : T -> Prop;
  to_text : T -> string;
  of_text : string -> result string T;
  of_to_text v : in_type v -> of_text (to_text v) = Ok v
}.

Record entry := mk_entry {
  entry_type : ValueType;
  state : EntryState;
  allocated : option Z;
  auto_assign : bool
}.
Abbreviation table := (gmap (string * string) entry).

Record ResourcePoolStats := mk_stats {
  auto_assign_used : nat;
  auto_assign_free : nat;
  non_auto_assign_used : nat;
  non_auto_assign_free : nat;
  used : nat;
  free : nat
}.

Inductive ResourcePoolError :=
| Empty
| Parse (e v pool_name owner_type owner_id : string).
Inductive ResourcePoolDatabaseError :=
| PoolError (e : ResourcePoolError)
| PoolDatabase (e : DatabaseError).

(** ** Filling a pool *)

(** [name varchar(32)], [value varchar(64)]. *)
Definition fits (n v : string) : bool :=
  (Nat.leb (String.length n) 32) && (Nat.leb (String.length v) 64).

(** One tuple of [INSERT .. ON CONFLICT (name, value) DO NOTHING]. *)
Definition insert_value (p : pool) (auto : bool) (acc : result DatabaseError table) (v : string)
    : result DatabaseError table :=
  t ← acc;
  if fits (name p) v then
    match t !! (name p, v) with
    | Some _ => Ok t
    | None => Ok (<[(name p, v) := mk_entry (value_type p) Free None auto]> t)
    end
  else Err (QueryError "value too long").

Definition VALUES_PER_QUERY : nat := (Queue.BIND_LIMIT / 6)%nat.

Section Values.
Context {T : Type} `{!PoolValue T}.

Definition populate (p : pool) (all_values : list T) (auto : bool) (t : table)
    : result DatabaseError table :=
  fold_left (fun acc vals => fold_left (insert_value p auto) vals acc)
    (chunks VALUES_PER_QUERY (to_text <$> all_values)) (Ok t).

(** ** Counting *)

(** The values and rows of one pool. *)
Definition rows (t : table) (n : string) : list (string * entry) :=
  omap (fun '((m, v), e) => if String.eqb m n then Some (v, e) else None) (map_to_list t).

Definition is_free (e : entry) : bool := bool_decide (state e = Free).

Definition count (f : entry -> bool) (l : list (string * entry)) : nat :=
  length (filter (fun x => f x.2 = true) l).

Definition stats (t : table) (n : string) : ResourcePoolStats :=
  let l := rows t n in
  let au := count (fun e => negb (is_free e) && auto_assign e) l in
  let af := count (fun e => is_free e && auto_assign e) l in
  let nu := count (fun e => negb (is_free e) && negb (auto_assign e)) l in
  let nf := count (fun e => is_free e && negb (auto_assign e)) l in
  mk_stats au af nu nf (au + nu)%nat (af + nf)%nat.

(** ** Allocation *)

(** The rows the [allocate] statement may take. *)
Definition eligible (requested : option string) (v : string) (e : entry) : bool :=
  let auto := match requested with None => true | Some _ => false end in
  is_free e && Bool.eqb (auto_assign e) auto &&
  (auto_assign e || match requested with Some r => String.eqb v r | None => false end).

Definition candidates (t : table) (n : string) (locked : gset (string * string))
    (requested : option string) : list string :=
  fst <$> filter (fun x => eligible requested x.1 x.2 = true /\ (n, x.1) ∉ locked) (rows t n).

Definition set_state (s : EntryState) (at_ : option Z) (e : entry) : entry :=
  mk_entry (entry_type e) s at_ (auto_assign e).

Definition owned_by (ot : OwnerType) (owner_id : string) : EntryState :=
  Allocated owner_id (display_owner ot).

Definition not_available (v n : string) : DatabaseError :=
  FailedPrecondition ("`" +:+ v +:+ "` not an available value for resource-pool `" +:+ n +:+ "`").

(** The statement: the row it takes and the table after it. *)
Definition allocate_row (pick : nat) (locked : gset (string * string)) (now : Z) (n : string)
    (s : EntryState) (requested : option string) (t : table) : option (string * table) :=
  let c := candidates t n locked requested in
  v ← c !! (pick mod length c)%nat;
  Some (v, alter (set_state s (Some now)) (n, v) t).

Definition parse_allocated (p : pool) (ot : OwnerType) (owner_id v : string)
    : result ResourcePoolDatabaseError T :=
  map_err (fun e => PoolError (Parse e v (name p) (display_owner ot) owner_id)) (of_text v).

(** [seen] is what the accounting of a failed attempt reads: other transactions
    may have committed since the statement ran. *)
Definition allocate (pick : nat) (locked : gset (string * string)) (now : Z) (p : pool)
    (ot : OwnerType) (owner_id : string) (requested_value : option T) (seen t : table)
    : table * result ResourcePoolDatabaseError T :=
  let req := to_text <$> requested_value in
  match allocate_row pick locked now (name p) (owned_by ot owner_id) req t with
  | Some (v, t') => (t', parse_allocated p ot owner_id v)
  | None =>
      let st := stats seen (name p) in
      let free := match req with None => auto_assign_free st | Some _ => non_auto_assign_free st end in
      (t, Err (if Nat.eqb free 0 then PoolError Empty
               else match req with
                    | Some r => PoolDatabase (not_available r (name p))
                    | None => PoolDatabase (QueryError "no rows returned")
                    end))
  end.

Definition allocate_exact (now : Z) (p : pool) (ot : OwnerType) (owner_id : string)
    (requested_value : T) (t : table) : table * result DatabaseError T :=
  let v := to_text requested_value in
  match t !! (name p, v) with
  | Some e =>
      if is_free e
      then (<[(name p, v) := set_state (owned_by ot owner_id) (Some now) e]> t, Ok requested_value)
      else (t, Err (not_available v (name p)))
  | None => (t, Err (not_available v (name p)))
  end.

(** The values one owner has, in the order of their text, at most two. *)
Definition find_owned_allocation (p : pool) (ot : OwnerType) (owner_id : string) (t : table)
    : result ResourcePoolDatabaseError (option T) :=
  let owned := fst <$> filter (fun x => state x.2 = owned_by ot owner_id) (rows t (name p)) in
  match take 2 (merge_sort String.le owned) with
  | [] => Ok None
  | [v] => Some <$> parse_allocated p ot owner_id v
  | _ => Err (PoolDatabase (FailedPrecondition
           ("resource pool `" +:+ name p +:+ "` has multiple values allocated to "
              +:+ display_owner ot +:+ " `" +:+ owner_id +:+ "`")))
  end.

(** ** Release *)

Inductive ResourcePoolAllocationNotOwned := ResourcePoolAllocationNotOwned_.

Definition release_text (n v : string) (expected_state : EntryState) (t : table)
    : table * ConditionalWrite unit ResourcePoolAllocationNotOwned :=
  match t !! (n, v) with
  | Some e => if decide (state e = expected_state)
              then (<[(n, v) := set_state Free None e]> t, Applied ())
              else (t, NotApplied ResourcePoolAllocationNotOwned_)
  | None => (t, NotApplied ResourcePoolAllocationNotOwned_)
  end.

Definition release (p : pool) (value : T) (ot : OwnerType) (owner_id : string) (t : table)
    : table * ConditionalWrite unit ResourcePoolAllocationNotOwned :=
  release_text (name p) (to_text value) (owned_by ot owner_id) t.

End Values.

(** ** Failures as metrics *)

Inductive ResourcePoolFailure := Exhausted | RequestedValueUnavailable | FailedParse | FailedDatabase.

Definition classify_database_failure (e : DatabaseError) : ResourcePoolFailure :=
  match e with FailedPrecondition _ => RequestedValueUnavailable | _ => FailedDatabase end.

Definition classify_resource_pool_failure (e : ResourcePoolDatabaseError) : ResourcePoolFailure :=
  match e with
  | PoolError Empty => Exhausted
  | PoolError (Parse _ _ _ _ _) => FailedParse
  | PoolDatabase e => classify_database_failure e
  end.

Definition is_requested_value_unavailable (e : ResourcePoolDatabaseError) : bool :=
  match classify_resource_pool_failure e with RequestedValueUnavailable => true | _ => false end.



(** ** Rows and counts *)

Lemma elem_of_rows t n v e : (v, e) ∈ rows t n <-> t !! (n, v) = Some e.
Proof.
  unfold rows. rewrite list_elem_of_omap. split.
  - intros ([[m w] e'] & Hin & H). apply elem_of_map_to_list in Hin.
    destruct (String.eqb_spec m n) as [->|]; simplify_eq/=; done.
  - intros H. exists ((n, v), e). rewrite elem_of_map_to_list, String.eqb_refl. done.
Qed.

Lemma count_zero f l : count f l = 0%nat <-> forall x, x ∈ l -> f x.2 = false.
Proof.
  unfold count. rewrite length_zero_iff_nil. split.
  - intros E x Hx. destruct (f x.2) eqn:Hf; [|done].
    assert (x ∈ filter (fun x => f x.2 = true) l) as Hin by (by apply list_elem_of_filter).
    rewrite E in Hin. by apply elem_of_nil in Hin.
  - intros H. destruct (filter _ l) as [|x k] eqn:E; [done|].
    assert (x ∈ x :: k) as Hin by left. rewrite <- E in Hin. apply list_elem_of_filter in Hin as [Hf Hx].
    by rewrite H in Hf.
Qed.

(** ** Candidates *)

Lemma elem_of_pool_candidates t n locked req v :
  v ∈ candidates t n locked req <->
  exists e, t !! (n, v) = Some e /\ eligible req v e = true /\ (n, v) ∉ locked.
Proof.
  unfold candidates. rewrite list_elem_of_fmap. setoid_rewrite list_elem_of_filter. split.
  - intros ([w e] & -> & [? ?] & ?%elem_of_rows). eauto.
  - intros (e & ? & ? & ?). exists (v, e). by rewrite elem_of_rows.
Qed.

(** What a successful claim does: it takes a free, unlocked row of the right
    partition and changes nothing else. *)
Definition takes (n : string) (s : EntryState) (now : Z) (locked : gset (string * string))
    (req : option string) (v : string) (t t' : table) : Prop :=
  exists e, t !! (n, v) = Some e /\ state e = Free /\ ((n, v) ∉ locked) /\
    auto_assign e = match req with None => true | Some _ => false end /\
    (forall r, req = Some r -> v = r) /\
    t' = <[(n, v) := set_state s (Some now) e]> t.

Lemma eligible_spec req v e :
  eligible req v e = true <->
  state e = Free /\ auto_assign e = match req with None => true | Some _ => false end /\
  (forall r, req = Some r -> v = r).
Proof.
  unfold eligible, is_free. rewrite !andb_true_iff, bool_decide_eq_true, Bool.eqb_true_iff, orb_true_iff.
  destruct req as [r|].
  - rewrite String.eqb_eq. split.
    + intros [[? Ha] [?|?]]; [congruence|]. split_and!; [done..|]. congruence.
    + intros (? & ? & Hr). split_and!; [done..|]. right. by apply Hr.
  - split; [intros [[? ?] _]; by split_and!|]. intros (? & ? & _). auto.
Qed.

Lemma allocate_row_some pick locked now n s req t v t' :
  allocate_row pick locked now n s req t = Some (v, t') -> takes n s now locked req v t t'.
Proof.
  unfold allocate_row. destruct (_ !! _) as [w|] eqn:E; [|done]. simpl. intros [= <- <-].
  apply list_elem_of_lookup_2, elem_of_pool_candidates in E as (e & He & Hel & Hl).
  apply eligible_spec in Hel as (? & ? & ?). exists e. split_and!; [done..|].
  apply map_eq. intros k. destruct (decide (k = (n, w))) as [->|Hne].
  - by rewrite lookup_alter_eq, lookup_insert_eq, He.
  - by rewrite lookup_alter_ne, lookup_insert_ne.
Qed.

Lemma allocate_row_none pick locked now n s req t :
  allocate_row pick locked now n s req t = None ->
  forall v e, t !! (n, v) = Some e -> (n, v) ∉ locked -> eligible req v e = false.
Proof.
  unfold allocate_row. destruct (_ !! _) as [w|] eqn:E; [done|]. intros _ v e He Hl.
  destruct (eligible req v e) eqn:Hel; [|done]. exfalso.
  assert (v ∈ candidates t n locked req) as Hin by (apply elem_of_pool_candidates; eauto).
  apply lookup_ge_None_1 in E. destruct (candidates t n locked req) as [|x l]; [by apply elem_of_nil in Hin|].
  pose proof (Nat.mod_upper_bound pick (length (x :: l))). simpl in *. lia.
Qed.

(** ** Operations that change the table *)

Lemma fits_length n v : fits n v = true <-> (String.length n <= 32)%nat /\ (String.length v <= 64)%nat.
Proof. unfold fits. by rewrite andb_true_iff, !Nat.leb_le. Qed.

Lemma fold_insert_err p auto vals e : fold_left (insert_value p auto) vals (Err e) = Err e.
Proof. induction vals as [|v vals IH]; [done|]. exact IH. Qed.

Lemma fold_insert_lookup p auto vals t t' :
  fold_left (insert_value p auto) vals (Ok t) = Ok t' ->
  (forall v, v ∈ vals -> fits (name p) v = true) /\
  forall k, t' !! k = match t !! k with
                      | Some e => Some e
                      | None => if decide (k.1 = name p /\ k.2 ∈ vals)
                                then Some (mk_entry (value_type p) Free None auto) else None
                      end.
Proof.
  revert t. induction vals as [|v vals IH]; intros t; simpl.
  { intros [= <-]. split; [by intros v ?%elem_of_nil|]. intros k. destruct (t !! k); [done|].
    rewrite decide_False; [done|]. by intros [_ ?%elem_of_nil]. }
  destruct (fits (name p) v) eqn:Hf; [|by rewrite fold_insert_err]. intros H.
  assert (Hstep : exists t1, fold_left (insert_value p auto) vals (Ok t1) = Ok t' /\
    forall k, t1 !! k = match t !! k with
                        | Some e => Some e
                        | None => if decide (k = (name p, v))
                                  then Some (mk_entry (value_type p) Free None auto) else None
                        end).
  { destruct (t !! (name p, v)) as [e|] eqn:E.
    - exists t. split; [done|]. intros k. destruct (t !! k) eqn:?; [done|].
      rewrite decide_False; congruence.
    - eexists. split; [exact H|]. intros k. destruct (decide (k = (name p, v))) as [->|].
      + by rewrite E, lookup_insert_eq.
      + rewrite lookup_insert_ne by done. by destruct (t !! k). }
  destruct Hstep as (t1 & Ht1 & Hl). destruct (IH t1 Ht1) as [IH1 IH2]. split.
  - intros w [->|?]%elem_of_cons; auto.
  - intros [m w]. rewrite IH2, Hl. simpl. destruct (t !! (m, w)); [done|].
    repeat case_decide; try done; set_solver.
Qed.

Lemma values_per_query_pos : (0 < VALUES_PER_QUERY)%nat.
Proof. unfold VALUES_PER_QUERY, Queue.BIND_LIMIT. vm_compute. lia. Qed.

Lemma populate_lookup {T} `{!PoolValue T} p (vs : list T) auto t t' :
  populate p vs auto t = Ok t' ->
  forall k, t' !! k = match t !! k with
                      | Some e => Some e
                      | None => if decide (k.1 = name p /\ k.2 ∈ to_text <$> vs)
                                then Some (mk_entry (value_type p) Free None auto) else None
                      end.
Proof.
  unfold populate. rewrite fold_left_chunks by apply values_per_query_pos.
  apply fold_insert_lookup.
Qed.


(** ** Sequences of operations *)

Inductive op :=
| OpPopulate {T} (TV : PoolValue T) (p : pool) (vs : list T) (auto : bool)
| OpAllocate {T} (TV : PoolValue T) (pick : nat) (locked : gset (string * string)) (now : Z) (p : pool)
    (ot : OwnerType) (owner_id : string) (requested : option T) (seen : table)
| OpAllocateExact {T} (TV : PoolValue T) (now : Z) (p : pool) (ot : OwnerType) (owner_id : string) (v : T)
| OpRelease {T} (TV : PoolValue T) (p : pool) (v : T) (ot : OwnerType) (owner_id : string).

(** The table after an operation and the row it claimed. A populate that fails is
    rolled back. *)
Definition run (o : op) (t : table) : table * option (string * string) :=
  match o with
  | OpPopulate _ p vs auto => (match populate p vs auto t with Ok t' => t' | Err _ => t end, None)
  | OpAllocate _ pick locked now p ot owner_id requested seen =>
      ((allocate pick locked now p ot owner_id requested seen t).1,
       (fun r => (name p, r.1)) <$>
         allocate_row pick locked now (name p) (owned_by ot owner_id) (to_text <$> requested) t)
  | OpAllocateExact _ now p ot owner_id v =>
      match allocate_exact now p ot owner_id v t with
      | (t', Ok v) => (t', Some (name p, to_text v))
      | (t', Err _) => (t', None)
      end
  | OpRelease _ p v ot owner_id => ((release p v ot owner_id t).1, None)
  end.

Fixpoint run_all (l : list op) (t : table) : table * list (string * string) :=
  match l with
  | [] => (t, [])
  | o :: l => let '(t1, c) := run o t in
              let '(t2, cs) := run_all l t1 in (t2, option_list c ++ cs)
  end.

Definition releases (o : op) (k : string * string) (s : EntryState) : Prop :=
  match o with
  | OpRelease _ p v ot owner_id => k = (name p, to_text v) /\ s = owned_by ot owner_id
  | _ => False
  end.

Definition state_of (t : table) (k : string * string) : option EntryState := state <$> t !! k.

Lemma takes_claims n s now locked req v t t' k a b :
  takes n s now locked req v t t' -> state_of t k = Some (Allocated a b) ->
  k <> (n, v) /\ state_of t' k = Some (Allocated a b).
Proof.
  unfold state_of. intros (e & He & Hf & _ & _ & _ & ->) Hk.
  assert (k <> (n, v)) as Hne by (intros ->; rewrite He in Hk; simpl in Hk; congruence).
  split; [done|]. by rewrite lookup_insert_ne.
Qed.

(** Only its owner's release ends an allocation. *)
Lemma run_keeps o t k a b :
  state_of t k = Some (Allocated a b) -> ~ releases o k (Allocated a b) ->
  state_of (run o t).1 k = Some (Allocated a b) /\ (run o t).2 <> Some k.
Proof.
  intros Hk Hr.
  destruct o as [T TV p vs auto|T TV pick locked now p ot id req seen|T TV now p ot id v|T TV p v ot id]; simpl.
  - split; [|done]. destruct (populate p vs auto t) as [t'|] eqn:E; [|done].
    unfold state_of in *. rewrite (populate_lookup _ _ _ _ _ E). by destruct (t !! k).
  - unfold allocate. destruct (allocate_row _ _ _ _ _ _ _) as [[v t']|] eqn:E; [|done]. simpl.
    apply allocate_row_some in E. destruct (takes_claims _ _ _ _ _ _ _ _ _ _ _ E Hk). split; congruence.
  - unfold allocate_exact. destruct (t !! (name p, to_text v)) as [e|] eqn:E; [|done].
    unfold is_free. case_bool_decide as Hf; [|done]. simpl. unfold state_of in *.
    assert (k <> (name p, to_text v)) as Hne by (intros ->; rewrite E in Hk; simpl in Hk; congruence).
    rewrite lookup_insert_ne by done. split; congruence.
  - split; [|done]. unfold release, release_text. destruct (t !! (name p, to_text v)) as [e|] eqn:E; [|done].
    case_decide as Hs; [|done]. simpl. unfold state_of in *.
    destruct (decide (k = (name p, to_text v))) as [->|]; [|by rewrite lookup_insert_ne].
    destruct Hr. split; [done|]. rewrite E in Hk. simpl in Hk. congruence.
Qed.

(** C13: an allocation is exclusive and lasting. From the moment a value belongs to
    an owner, and whatever populating, allocating and releasing is done to the
    table in any order, on any pools and for any owners, the value stays with
    that owner and no allocation hands it out, until a release names the value
    and this owner. *)
Theorem allocation_exclusive l t k owner owner_type :
  state_of t k = Some (Allocated owner owner_type) ->
  Forall (fun o => ~ releases o k (Allocated owner owner_type)) l ->
  state_of (run_all l t).1 k = Some (Allocated owner owner_type) /\ k ∉ (run_all l t).2.
Proof.
  intros Hk Hl. revert t Hk. induction Hl as [|o l Ho Hl IH]; intros t Hk; simpl.
  { split; [done|apply not_elem_of_nil]. }
  destruct (run_keeps o t k owner owner_type Hk Ho) as [Hk1 Hc].
  destruct (run o t) as [t1 c]. simpl in *. destruct (IH t1 Hk1) as [Hk2 Hcs].
  destruct (run_all l t1) as [t2 cs]. simpl in *. split; [done|].
  rewrite not_elem_of_app. split; [|done]. by destruct c; set_solver.
Qed.

Lemma allocate_ok {T} `{!PoolValue T} pick locked now p ot owner_id (req : option T) seen t t' v :
  allocate pick locked now p ot owner_id req seen t = (t', Ok v) ->
  exists text, takes (name p) (owned_by ot owner_id) now locked (to_text <$> req) text t t' /\ of_text text = Ok v.
Proof.
  unfold allocate. destruct (allocate_row _ _ _ _ _ _ _) as [[w t1]|] eqn:E; [|done].
  apply allocate_row_some in E. unfold parse_allocated. destruct (of_text w) as [v'|] eqn:Ev; [|done].
  intros [= <- <-]. eauto.
Qed.

(** Only populating adds rows. *)
Lemma run_rows o t k :
  is_Some ((run o t).1 !! k) ->
  is_Some (t !! k) \/ match o with
                      | OpPopulate _ p vs _ => k.1 = name p /\ k.2 ∈ to_text <$> vs
                      | _ => False
                      end.
Proof.
  destruct o as [T TV p vs auto|T TV pick locked now p ot id req seen|T TV now p ot id v|T TV p v ot id]; simpl.
  - destruct (populate p vs auto t) as [t'|] eqn:E; [|by left]. rewrite (populate_lookup _ _ _ _ _ E).
    destruct (t !! k); [by left|]. case_decide; [by right|]. by intros [].
  - unfold allocate. destruct (allocate_row _ _ _ _ _ _ _) as [[v t']|] eqn:E; [|by left]. simpl.
    apply allocate_row_some in E as (e & He & _ & _ & _ & _ & ->). intros [<-|Hs]%lookup_insert_is_Some'; left; [by eexists|done].
  - unfold allocate_exact. destruct (t !! (name p, to_text v)) as [e|] eqn:E; [|by left].
    destruct (is_free e); [|by left]. simpl. intros [<-|Hs]%lookup_insert_is_Some'; left; [by eexists|done].
  - unfold release, release_text. destruct (t !! (name p, to_text v)) as [e|] eqn:E; [|by left].
    case_decide; [|by left]. simpl. intros [<-|Hs]%lookup_insert_is_Some'; left; [by eexists|done].
Qed.

(** What an allocation does on every branch. It takes a free row of its pool
    that is not locked, automatic exactly when no value was requested and the
    requested one otherwise, marks it as owned and changes nothing else; the
    result is that row's value, or an error if its text is not a value of the
    type. Otherwise there is no such row, the table is unchanged, and the error
    is [Empty] exactly when the pool has no free value in that partition at the
    time of the failure. *)
Theorem allocate_spec {T} `{!PoolValue T} pick locked now p ot owner_id (req : option T) seen t :
  let s := owned_by ot owner_id in
  let rt := to_text <$> req in
  match allocate pick locked now p ot owner_id req seen t with
  | (t', Ok v) => exists text, takes (name p) s now locked rt text t t' /\ of_text text = Ok v
  | (t', Err (PoolError (Parse e text _ _ _))) =>
      takes (name p) s now locked rt text t t' /\ of_text (T := T) text = Err e
  | (t', Err err) =>
      t' = t /\
      (forall text e, t !! (name p, text) = Some e -> (name p, text) ∉ locked -> eligible rt text e = false) /\
      (err = PoolError Empty <->
       forall text e, seen !! (name p, text) = Some e -> state e = Free ->
         auto_assign e = match req with None => false | Some _ => true end)
  end.
Proof.
  simpl. unfold allocate. destruct (allocate_row _ _ _ _ _ _ _) as [[v t']|] eqn:E.
  { apply allocate_row_some in E. unfold parse_allocated. destruct (of_text v) eqn:Ev; simpl; eauto. }
  pose proof (allocate_row_none _ _ _ _ _ _ _ E) as Hnone.
  assert (Hcount : forall f (b : bool), (forall e, f e = is_free e && (if b then auto_assign e else negb (auto_assign e))) ->
    count f (rows seen (name p)) = 0%nat <->
    forall text e, seen !! (name p, text) = Some e -> state e = Free -> auto_assign e = negb b).
  { intros f b Hf. rewrite count_zero. split.
    - intros H text e He Hs. pose proof (H (text, e)) as Hx. rewrite elem_of_rows in Hx. specialize (Hx He).
      simpl in Hx. rewrite Hf in Hx. unfold is_free in Hx. rewrite bool_decide_true in Hx by done.
      by destruct b, (auto_assign e).
    - intros H [text e] Hx%elem_of_rows. simpl. rewrite Hf. unfold is_free. case_bool_decide as Hs; [|done].
      rewrite (H text e Hx Hs). by destruct b. }
  destruct req as [r|]; simpl;
    match goal with |- context [Nat.eqb ?n 0] => destruct (Nat.eqb_spec n 0) as [H0|H0] end;
    (split; [done|]; split; [done|]); split; try done.
  - intros _. rewrite (Hcount _ false) in H0; done.
  - intros H. destruct H0. rewrite (Hcount _ false); done.
  - intros _. rewrite (Hcount _ true) in H0; done.
  - intros H. destruct H0. rewrite (Hcount _ true); done.
Qed.

(** ** Round trip *)

Lemma owner_roundtrip o : owner_from_str (display_owner o) = Ok o.
Proof. by destruct o. Qed.

Lemma owned_by_inj o1 i1 o2 i2 : owned_by o1 i1 = owned_by o2 i2 -> o1 = o2 /\ i1 = i2.
Proof.
  unfold owned_by. intros [= -> E]. split; [|done].
  assert (Ok (E := string) o1 = Ok o2) as [= ->]; [|done]. by rewrite <- !owner_roundtrip, E.
Qed.

(** Free rows carry no allocation time. *)
Definition unstamped (t : table) : Prop :=
  forall k e, t !! k = Some e -> state e = Free -> allocated e = None.
(** The texts of a pool are those its values print as. *)
Definition canonical {T} `{!PoolValue T} (p : pool) (t : table) : Prop :=
  forall text e (v : T), t !! (name p, text) = Some e -> of_text text = Ok v -> to_text v = text.

Lemma set_state_undo s o e : state e = Free -> allocated e = None -> set_state Free None (set_state s o e) = e.
Proof. destruct e as [? ? ? ?]; simpl. by intros -> ->. Qed.

(** Release is the inverse of allocation. Releasing what an allocation returned,
    for the same owner, gives the table from before; a release for any other
    owner is refused and changes nothing. *)
Theorem release_undoes_allocate {T} `{!PoolValue T} pick locked now p ot owner_id (req : option T) seen t t' v :
  unstamped t -> canonical (T := T) p t ->
  allocate pick locked now p ot owner_id req seen t = (t', Ok v) ->
  release p v ot owner_id t' = (t, Applied ()) /\
  forall ot' owner_id', (ot', owner_id') <> (ot, owner_id) ->
    release p v ot' owner_id' t' = (t', NotApplied ResourcePoolAllocationNotOwned_).
Proof.
  intros Hu Hc. unfold allocate. destruct (allocate_row _ _ _ _ _ _ _) as [[text t1]|] eqn:E; [|done].
  apply allocate_row_some in E as (e & He & Hf & _ & _ & _ & ->). intros [= <- Hp].
  unfold parse_allocated in Hp. destruct (of_text text) as [v'|] eqn:Ev; [|done]. injection Hp as ->.
  pose proof (Hc text e v He Ev) as Ht. unfold release, release_text. rewrite Ht, lookup_insert_eq. split.
  - rewrite decide_True by done. rewrite insert_insert_eq, set_state_undo, insert_id; [done|done|done|].
    by apply (Hu _ _ He).
  - intros ot' id' Hne. rewrite decide_False; [done|]. simpl. intros [-> ->]%owned_by_inj. done.
Qed.

(** After a release its owner does not have the value, and nobody gains one. *)
Lemma release_text_frees n v s t : s <> Free -> state_of (release_text n v s t).1 (n, v) <> Some s.
Proof.
  intros Hs. unfold release_text, state_of. destruct (t !! (n, v)) as [e|] eqn:E; [|simpl; by rewrite E].
  case_decide; simpl; [rewrite lookup_insert_eq; simpl|rewrite E; simpl]; congruence.
Qed.

Lemma release_text_gains n v s t k s' :
  s' <> Free -> state_of t k <> Some s' -> state_of (release_text n v s t).1 k <> Some s'.
Proof.
  intros Hs Hk. unfold release_text. destruct (t !! (n, v)) as [e|] eqn:E; [|done].
  case_decide; [|done]. simpl. unfold state_of in *. destruct (decide (k = (n, v))) as [->|].
  - rewrite lookup_insert_eq. simpl. congruence.
  - by rewrite lookup_insert_ne.
Qed.

(** ** Witnesses *)

(** Text as its own value type. *)
#[export] Instance text_value : PoolValue string := {|
  in_type _ := True;
  to_text s := s;
  of_text s := Ok s;
  of_to_text v _ := eq_refl
|}.

Definition vni : pool := mk_pool "vni" Integer.
Definition two_vnis : table :=
  {[ ("vni", "100") := mk_entry Integer Free None true;
     ("vni", "101") := mk_entry Integer (Allocated "vpc-1" "vpc") (Some 5) true ]}.

Lemma allocation_exclusive_witness :
  let l := [OpAllocate text_value 7 ∅ 10 vni Vpc "vpc-2" None two_vnis;
            OpRelease text_value vni "101" Vpc "vpc-2";
            OpPopulate text_value vni ["101"; "102"] true] in
  state_of (run_all l two_vnis).1 ("vni", "101") = Some (Allocated "vpc-1" "vpc") /\
  ("vni", "101") ∉ (run_all l two_vnis).2.
Proof.
  apply (allocation_exclusive _ two_vnis ("vni", "101") "vpc-1" "vpc"); [reflexivity|].
  repeat constructor; intros H; simpl in H; try done. by destruct H as [_ [=]].
Defined.

Lemma release_undoes_allocate_witness :
  release vni "100" Vpc "vpc-2"
    (allocate 3 ∅ 10 vni Vpc "vpc-2" None two_vnis two_vnis).1 = (two_vnis, Applied ()) /\
  forall ot' owner_id', (ot', owner_id') <> (Vpc, "vpc-2") ->
    release vni "100" ot' owner_id' (allocate (T := string) 3 ∅ 10 vni Vpc "vpc-2" None two_vnis two_vnis).1
    = ((allocate (T := string) 3 ∅ 10 vni Vpc "vpc-2" None two_vnis two_vnis).1,
       NotApplied ResourcePoolAllocationNotOwned_).
Proof.
  apply (release_undoes_allocate (T := string) 3 ∅ 10 vni Vpc "vpc-2" None two_vnis two_vnis _ "100").
  - intros k e. unfold two_vnis. intros [[<- <-]|[_ H]]%lookup_insert_Some; [done|].
    apply lookup_singleton_Some in H as [_ <-]. done.
  - intros text e v _ [= ->]. done.
  - vm_compute. reflexivity.
Defined.

End ResourcePool.
