(* ===== verification/PoolDefs.v ===== *)
(** * PoolDefs: what a resource pool is filled with

    The second half of crates/api-db/src/resource_pool.rs: expanding ranges and
    prefixes into values, defining a pool, and reconciling the declared pools
    with the recorded definitions. The text forms of addresses and networks are
    the class [AddrText]; integers are parsed as the code does. Text errors are
    not told apart. *)

From S2P Require Import Prelude Text StateHandler Queue IpNetwork ResourcePool.
From Stdlib Require Import Ascii Decimal DecimalString DecimalN.
Import ResourcePool.

Module PoolDefs.

(** ** Integers *)

(** [char::to_digit]. *)
Definition digit_of (radix : Z) (c : ascii) : option Z :=
  let n := Z.of_N (N_of_ascii c) in
  let d := if (48 <=? n) && (n <=? 57) then Some (n - 48)
           else if (97 <=? n) && (n <=? 122) then Some (n - 87)
           else if (65 <=? n) && (n <=? 90) then Some (n - 55)
           else None in
  v ← d; if v <? radix then Some v else None.

Fixpoint digits (radix acc : Z) (s : string) : option Z :=
  match s with
  | EmptyString => Some acc
  | String c s => d ← digit_of radix c; digits radix (radix * acc + d) s
  end.

(** [iN::from_str_radix] for a type with the range from [min] to [max]. *)
Definition from_str_radix (radix min max : Z) (s : string) : option Z :=
  let '(negative, body) := match s with
                           | String "-" s => (true, s)
                           | String "+" s => (false, s)
                           | _ => (false, s)
                           end in
  match body with
  | EmptyString => None
  | _ => v ← digits radix 0 body;
         let v := if negative then - v else v in
         if (min <=? v) && (v <=? max) then Some v else None
  end.

Definition i64_min : Z := - 2 ^ 63.
Definition i64_max : Z := 2 ^ 63 - 1.

Definition starts_with_hex (s : string) : bool :=
  match s with String "0" (String "x" _) => true | _ => false end.
(** [trim_start_matches("0x")]: repeatedly. *)
Fixpoint trim_hex (s : string) : string :=
  match s with String "0" (String "x" r) => trim_hex r | _ => s end.

Definition parse_int_range (data : string) : option Z :=
  let data := to_lowercase data in
  let base := if starts_with_hex data then 16 else 10 in
  from_str_radix base i64_min i64_max (trim_hex data).

(** *** Printing and parsing *)

Fixpoint uval (acc : N) (u : uint) : N :=
  match u with
  | Nil => acc
  | D0 u => uval (10 * acc) u
  | D1 u => uval (10 * acc + 1) u
  | D2 u => uval (10 * acc + 2) u
  | D3 u => uval (10 * acc + 3) u
  | D4 u => uval (10 * acc + 4) u
  | D5 u => uval (10 * acc + 5) u
  | D6 u => uval (10 * acc + 6) u
  | D7 u => uval (10 * acc + 7) u
  | D8 u => uval (10 * acc + 8) u
  | D9 u => uval (10 * acc + 9) u
  end.

Lemma uval_acc u : forall p, N.pos (Pos.of_uint_acc u p) = uval (N.pos p) u.
Proof. induction u as [|u IH|u IH|u IH|u IH|u IH|u IH|u IH|u IH|u IH|u IH]; intros p; cbn [uval Pos.of_uint_acc]; [done|..]; rewrite IH; f_equal; lia. Qed.

Lemma uval_of_uint u : N.of_uint u = uval 0 u.
Proof.
  unfold N.of_uint. induction u as [|u IH|u _|u _|u _|u _|u _|u _|u _|u _|u _]; cbn [uval Pos.of_uint];
    [done|exact IH|..]; by rewrite uval_acc.
Qed.

Lemma digits_uint u : forall acc, 
  digits 10 (Z.of_N acc) (NilEmpty.string_of_uint u) = Some (Z.of_N (uval acc u)).
Proof.
  induction u as [|u IH|u IH|u IH|u IH|u IH|u IH|u IH|u IH|u IH|u IH]; intros acc; [done|..];
    cbn [NilEmpty.string_of_uint digits uval]; rewrite <- IH; f_equal; simpl; f_equal; lia.
Qed.

Lemma digits_show_N n : digits 10 0 (show_N n) = Some (Z.of_N n).
Proof.
  unfold show_N, NilZero.string_of_uint. destruct (N.to_uint n) as [|u|u|u|u|u|u|u|u|u|u] eqn:E;
    [pose proof (f_equal N.of_uint E) as E'; rewrite DecimalN.Unsigned.of_to in E'; by subst|..];
    rewrite (digits_uint _ 0), <- uval_of_uint, <- E, DecimalN.Unsigned.of_to; done.
Qed.

Lemma show_N_head n : exists c s, show_N n = String c s /\ is_digit c = true.
Proof.
  pose proof (show_N_digits n) as H. destruct (show_N n) as [|c s] eqn:E.
  - unfold show_N, NilZero.string_of_uint in E. by destruct (N.to_uint n).
  - exists c, s. simpl in H. by apply andb_true_iff in H as [? _].
Qed.

Lemma parse_show_int min max z :
  min <= z <= max -> from_str_radix 10 min max (show_Z z) = Some z.
Proof.
  intros Hz. assert (Hr : (min <=? z) && (z <=? max) = true) by (rewrite andb_true_iff, !Z.leb_le; lia).
  unfold show_Z, from_str_radix. destruct (Z.ltb_spec z 0).
  - pose proof (digits_show_N (Z.to_N (- z))) as Hd. destruct (show_N_head (Z.to_N (- z))) as (c & s & E & _).
    rewrite E in *. rewrite Hd. cbn [mbind option_bind]. replace (- Z.of_N (Z.to_N (- z))) with z by lia. by rewrite Hr.
  - pose proof (digits_show_N (Z.to_N z)) as Hd. destruct (show_N_head (Z.to_N z)) as (c & s & E & Hc).
    rewrite E in *. assert (c <> "-"%char /\ c <> "+"%char) as [H1 H2] by (by split; intros ->).
    replace (match c with "-"%char => (true, s) | "+"%char => (false, s) | _ => (false, String c s) end)
      with (false, String c s).
    + rewrite Hd. cbn [mbind option_bind]. rewrite Z2N.id by lia. by rewrite Hr.
    + destruct c as [[] [] [] [] [] [] [] []]; try done; by destruct H1 || by destruct H2.
Qed.

(** The integer types, each by its range. *)
Definition int_value (min max : Z) : PoolValue Z := {|
  in_type z := min <= z <= max;
  to_text := show_Z;
  of_text s := ok_or "invalid integer" (from_str_radix 10 min max s);
  of_to_text z H := f_equal (ok_or "invalid integer") (parse_show_int min max z H)
|}.
Definition i64_value : PoolValue Z := int_value i64_min i64_max.

(** ** Addresses and networks as text *)

Class AddrText {crate : IpNetworkCrate} := {
  show_addr : IpAddr -> string;
  show_net : IpNetwork -> string;
  parse_ipv4 : string -> result string Z;
  parse_ipv6 : string -> result string Z;
  parse_net : string -> result string IpNetwork;
  parse_show_ipv4 a : 0 <= a < 2 ^ 32 -> parse_ipv4 (show_addr (V4 a)) = Ok a;
  parse_show_ipv6 a : 0 <= a < 2 ^ 128 -> parse_ipv6 (show_addr (V6 a)) = Ok a;
  parse_show_net n : parse_net (show_net n) = Ok n;
  parse_ipv4_range s a : parse_ipv4 s = Ok a -> 0 <= a < 2 ^ 32;
  parse_ipv6_range s a : parse_ipv6 s = Ok a -> 0 <= a < 2 ^ 128
}.

(** ** Definitions (crates/api-model/src/resource_pool/define.rs) *)

Record Range := mk_range { start : string; end_ : string; range_auto_assign : bool }.
#[export] Instance Range_eq_dec : EqDecision Range.
Proof. solve_decision. Defined.

Inductive ResourcePoolType := TIpv4 | TIpv6 | TIpv6Prefix | TInteger.
#[export] Instance ResourcePoolType_eq_dec : EqDecision ResourcePoolType.
Proof. solve_decision. Defined.

Record ResourcePoolDef := mk_def {
  ranges : list Range;
  prefix_text : option string;
  pool_type : ResourcePoolType;
  delegate_prefix_len : option Z
}.
#[export] Instance ResourcePoolDef_eq_dec : EqDecision ResourcePoolDef.
Proof. solve_decision. Defined.

Inductive DefineResourcePoolError :=
| DefInvalidArgument (msg : string)
| TooBig (size max : Z)
| DefDatabaseError (e : DatabaseError).

Definition MAX_POOL_SIZE : Z := 250000.
Definition usize_max : Z := 2 ^ 64 - 1.
Definition too_big (n : Z) : DefineResourcePoolError := TooBig (Z.min n usize_max) MAX_POOL_SIZE.

(** [1u128.checked_shl(bits).unwrap_or(u128::MAX)]. *)
Definition shl_u128 (bits : Z) : Z := if bits <? 128 then 2 ^ bits else 2 ^ 128 - 1.

Section Define.
Context {crate : IpNetworkCrate} {text : AddrText}.

Definition invalid {A} (r : result string A) : result DefineResourcePoolError A :=
  map_err DefInvalidArgument r.

(** ** Expansion *)

Definition expand_ip_prefix (network_text : string) : result string (list IpAddr) :=
  n ← parse_net network_text;
  match network n, broadcast n with
  | V4 s, V4 e => Ok (V4 <$> seqZ s (e - s))
  | _, _ => Err ("invalid IPv4 network: " +:+ network_text)
  end.

Definition expand_ip_range (start_s end_s : string) : result string (list IpAddr) :=
  s ← parse_ipv4 start_s;
  e ← parse_ipv4 end_s;
  Ok (V4 <$> seqZ s (e - s)).

Definition expand_ipv6_prefix (network_text : string) : result DefineResourcePoolError (list IpAddr) :=
  n ← invalid (parse_net network_text);
  if is_ipv4 (ip n) then Err (DefInvalidArgument ("Invalid IPv6 network: " +:+ network_text)) else
  let num_addresses := shl_u128 (128 - prefix n) in
  if MAX_POOL_SIZE <? num_addresses then Err (too_big num_addresses) else
  let s := bits (network n) in
  let e := bits (broadcast n) in
  Ok (V6 <$> seqZ s (e - s + 1)).

Definition expand_ipv6_range (start_s end_s : string) : result DefineResourcePoolError (list IpAddr) :=
  s ← invalid (parse_ipv6 start_s);
  e ← invalid (parse_ipv6 end_s);
  let count := Z.max 0 (e - s) in
  if MAX_POOL_SIZE <? count then Err (too_big count) else Ok (V6 <$> seqZ s (e - s)).

(** The loop that makes the sub-prefixes one [step] apart. *)
Fixpoint make_prefixes (len : Z) (l : list Z) : result DefineResourcePoolError (list IpNetwork) :=
  match l with
  | [] => Ok []
  | a :: l => n ← invalid (ok_or "invalid prefix" (net_new (V6 a) len));
              ns ← make_prefixes len l; Ok (n :: ns)
  end.
Definition stepped (base step count : Z) : list Z := (fun i => base + i * step) <$> seqZ 0 count.

Definition expand_ipv6_prefix_delegation (parent : string) (delegate_len : Z)
    : result DefineResourcePoolError (list IpNetwork) :=
  n ← invalid (parse_net parent);
  if is_ipv4 (ip n) then Err (DefInvalidArgument ("Invalid IPv6 network: " +:+ parent)) else
  let parent_len := prefix n in
  if delegate_len <=? parent_len then Err (DefInvalidArgument "delegation length too short")
  else if 128 <? delegate_len then Err (DefInvalidArgument "delegation length exceeds maximum")
  else
    let count := shl_u128 (delegate_len - parent_len) in
    if MAX_POOL_SIZE <? count then Err (too_big count)
    else make_prefixes delegate_len (stepped (bits (network n)) (2 ^ (128 - delegate_len)) count).

(** [Ipv6Network::from_str]. *)
Definition parse_net6 (s : string) : result string IpNetwork :=
  n ← parse_net s; if is_ipv4 (ip n) then Err "invalid address" else Ok n.

Definition expand_ipv6_prefix_range (start_s end_s : string)
    : result DefineResourcePoolError (list IpNetwork) :=
  start_net ← invalid (parse_net6 start_s);
  end_net ← invalid (parse_net6 end_s);
  let prefix_len := prefix start_net in
  if negb (prefix end_net =? prefix_len) then Err (DefInvalidArgument "different prefix lengths")
  else if negb (bits (ip start_net) =? bits (network start_net)) then
    Err (DefInvalidArgument ("Start prefix " +:+ start_s +:+ " has host bits set"))
  else if negb (bits (ip end_net) =? bits (network end_net)) then
    Err (DefInvalidArgument ("End prefix " +:+ end_s +:+ " has host bits set"))
  else
    let start_addr := bits (network start_net) in
    let end_addr := bits (network end_net) in
    if end_addr <=? start_addr then
      Err (DefInvalidArgument "End prefix must be greater than start prefix")
    else
      let step := 2 ^ (128 - prefix_len) in
      let count := (end_addr - start_addr) / step in
      if MAX_POOL_SIZE <? count then Err (too_big count)
      else make_prefixes prefix_len (stepped start_addr step count).

Definition expand_int_range (start_s end_s : string) : result string (list Z) :=
  s ← ok_or "invalid integer" (parse_int_range start_s);
  e ← ok_or "invalid integer" (parse_int_range end_s);
  Ok (seqZ s (e - s)).

(** ** Filling a pool from its definition *)

Definition ipv4_value : PoolValue IpAddr.
Proof.
  refine {| in_type a := exists b, a = V4 b /\ 0 <= b < 2 ^ 32; to_text := show_addr;
            of_text s := V4 <$> parse_ipv4 s |}.
  abstract (intros v (b & -> & Hb); rewrite parse_show_ipv4 by done; done).
Defined.
Definition ipv6_value : PoolValue IpAddr.
Proof.
  refine {| in_type a := exists b, a = V6 b /\ 0 <= b < 2 ^ 128; to_text := show_addr;
            of_text s := V6 <$> parse_ipv6 s |}.
  abstract (intros v (b & -> & Hb); rewrite parse_show_ipv6 by done; done).
Defined.
Definition net_value : PoolValue IpNetwork := {|
  in_type _ := True; to_text := show_net; of_text := parse_net; of_to_text n _ := parse_show_net n |}.

(** Only the IPv4 and integer expansions are checked against the limit after the
    fact; the others check it before they expand. *)
Definition check_size {A} (values : list A) : result DefineResourcePoolError unit :=
  let n := Z.of_nat (length values) in
  if MAX_POOL_SIZE <? n then Err (TooBig n MAX_POOL_SIZE) else Ok ().

Definition fill {T} (TV : PoolValue T) (n : string) (vt : ValueType) (values : list T) (auto : bool)
    (t : table) : result DefineResourcePoolError table :=
  map_err DefDatabaseError (populate (mk_pool n vt) values auto t).

Definition define_by_prefix (n : string) (pt : ResourcePoolType) (pfx : string)
    (delegate_prefix_len : option Z) (t : table) : result DefineResourcePoolError table :=
  match pt with
  | TIpv4 => values ← invalid (expand_ip_prefix pfx);
             _ ← check_size values;
             fill ipv4_value n Ipv4 values true t
  | TIpv6 => values ← expand_ipv6_prefix pfx; fill ipv6_value n Ipv6 values true t
  | TIpv6Prefix =>
      delegate_len ← ok_or (DefInvalidArgument "Pool type 'ipv6prefix' requires 'delegate_prefix_len'")
                       delegate_prefix_len;
      values ← expand_ipv6_prefix_delegation pfx delegate_len;
      fill net_value n Ipv6Prefix values true t
  | TInteger => Err (DefInvalidArgument "Pool type 'integer' cannot take a prefix")
  end.

Definition define_by_range (n : string) (pt : ResourcePoolType) (r : Range) (t : table)
    : result DefineResourcePoolError table :=
  match pt with
  | TIpv4 => values ← invalid (expand_ip_range (start r) (end_ r));
             _ ← check_size values;
             fill ipv4_value n Ipv4 values (range_auto_assign r) t
  | TIpv6 => values ← expand_ipv6_range (start r) (end_ r);
             fill ipv6_value n Ipv6 values (range_auto_assign r) t
  | TIpv6Prefix => values ← expand_ipv6_prefix_range (start r) (end_ r);
                   fill net_value n Ipv6Prefix values (range_auto_assign r) t
  | TInteger => values ← invalid (expand_int_range (start r) (end_ r));
                _ ← check_size values;
                fill i64_value n Integer values (range_auto_assign r) t
  end.

Fixpoint define_ranges (n : string) (pt : ResourcePoolType) (l : list Range) (t : table)
    : result DefineResourcePoolError table :=
  match l with
  | [] => Ok t
  | r :: l => t' ← define_by_range n pt r t; define_ranges n pt l t'
  end.

Definition define (n : string) (def : ResourcePoolDef) (t : table)
    : result DefineResourcePoolError table :=
  if String.eqb n "pkey" then
    Err (DefInvalidArgument "pkey pool is deprecated. Use ib_fabrics.default.pkeys as replacement")
  else
    match prefix_text def, ranges def with
    | None, [] => Err (DefInvalidArgument "Please provide one of 'prefix' or 'ranges'")
    | Some _, _ :: _ => Err (DefInvalidArgument "Please provide only one of 'prefix' or 'ranges'")
    | Some pfx, [] => define_by_prefix n (pool_type def) pfx (delegate_prefix_len def) t
    | None, l => define_ranges n (pool_type def) l t
    end.

(** The entries of a [HashMap], in the order its iteration happens to have. *)
Fixpoint define_all_from (pools : list (string * ResourcePoolDef)) (t : table)
    : result DefineResourcePoolError table :=
  match pools with
  | [] => Ok t
  | (n, def) :: pools => t' ← define n def t; define_all_from pools t'
  end.

(** ** Reconciling *)

(** The rows of the pools and the recorded definitions. *)
Record db := mk_db { pool_rows : table; pool_defs : gmap string ResourcePoolDef }.

Definition insert_pool_def (n : string) (def : ResourcePoolDef) (d : db) : result DatabaseError db :=
  match pool_defs d !! n with
  | Some _ => Err (QueryError "duplicate key value violates unique constraint")
  | None => Ok (mk_db (pool_rows d) (<[n := def]> (pool_defs d)))
  end.

Definition pool_has_rows (n : string) (t : table) : bool :=
  match rows t n with [] => false | _ => true end.

(** What an operator is told. *)
Inductive report := SnapshotWithoutPool (n : string) | Changed (n : string) | Dropped (n : string).

Definition reconcile_one (stored : gmap string ResourcePoolDef) (n : string) (def : ResourcePoolDef)
    (d : db) : result DefineResourcePoolError (db * list report) :=
  match stored !! n, pool_has_rows n (pool_rows d) with
  | Some _, false => Ok (d, [SnapshotWithoutPool n])
  | Some stored_def, true => Ok (d, if decide (stored_def = def) then [] else [Changed n])
  | None, true => d' ← map_err DefDatabaseError (insert_pool_def n def d); Ok (d', [])
  | None, false =>
      t' ← define n def (pool_rows d);
      d' ← map_err DefDatabaseError (insert_pool_def n def (mk_db t' (pool_defs d)));
      Ok (d', [])
  end.

Fixpoint reconcile_loop (stored : gmap string ResourcePoolDef) (declared : list (string * ResourcePoolDef))
    (d : db) : result DefineResourcePoolError (db * list report) :=
  match declared with
  | [] => Ok (d, [])
  | (n, def) :: declared =>
      '(d1, r1) ← reconcile_one stored n def d;
      '(d2, r2) ← reconcile_loop stored declared d1;
      Ok (d2, r1 ++ r2)
  end.

Definition reconcile_pool_defs (declared : list (string * ResourcePoolDef)) (d : db)
    : result DefineResourcePoolError (db * list report) :=
  let stored := pool_defs d in
  '(d', r) ← reconcile_loop stored declared d;
  Ok (d', r ++ (Dropped <$> filter (fun n => n ∉ declared.*1) (map_to_list stored).*1)).

(** ** Definitions only add free rows *)

Definition adds (P : string -> Prop) (t t' : table) : Prop :=
  forall k, t' !! k = t !! k \/
    (t !! k = None /\ P k.1 /\ exists e, t' !! k = Some e /\ state e = Free).

Lemma adds_refl P t : adds P t t.
Proof. intros k. by left. Qed.

Lemma adds_trans P t1 t2 t3 : adds P t1 t2 -> adds P t2 t3 -> adds P t1 t3.
Proof.
  intros H12 H23 k. destruct (H12 k) as [E|(E & HP & e & E2 & Hf)], (H23 k) as [E'|(E' & HP' & e' & E3 & Hf')].
  - left. congruence.
  - right. rewrite <- E. eauto.
  - right. rewrite E'. eauto.
  - congruence.
Qed.

Lemma adds_mono (P Q : string -> Prop) t t' : (forall n, P n -> Q n) -> adds P t t' -> adds Q t t'.
Proof. intros HPQ H k. destruct (H k) as [|(? & ? & ?)]; [by left|right; auto]. Qed.

Lemma fill_adds {T} (TV : PoolValue T) n vt values auto t t' :
  fill TV n vt values auto t = Ok t' -> adds (eq n) t t'.
Proof.
  unfold fill. destruct (populate _ _ _ _) as [t1|] eqn:E; [|done]. intros [= <-] k.
  pose proof (populate_lookup _ _ _ _ _ E k) as Hk. destruct (t !! k) as [e|]; [by left|].
  case_decide as Hd; [|by left]. right. split; [done|]. split; [by destruct Hd|]. by eexists.
Qed.

Lemma define_adds n def t t' : define n def t = Ok t' -> adds (eq n) t t'.
Proof.
  unfold define. destruct (String.eqb n "pkey"); [done|].
  assert (Hr : forall pt l t, define_ranges n pt l t = Ok t' -> adds (eq n) t t').
  { intros pt l. induction l as [|r l IH]; intros t0; simpl; [intros [= <-]; apply adds_refl|].
    intros (t1 & H1 & H2)%bind_ok. eapply adds_trans; [|by apply IH].
    destruct pt; simpl in H1; repeat (apply bind_ok in H1 as (? & _ & H1)); by apply fill_adds in H1. }
  destruct (prefix_text def) as [pfx|], (ranges def) as [|r l]; try done; [|apply Hr].
  unfold define_by_prefix. destruct (pool_type def); intros H;
    repeat (apply bind_ok in H as (? & _ & H)); try done; by apply fill_adds in H.
Qed.

(** ** Reconciling is additive and idempotent *)

Lemma pool_has_rows_spec n t : pool_has_rows n t = true <-> exists v e, t !! (n, v) = Some e.
Proof.
  unfold pool_has_rows. split.
  - destruct (rows t n) as [|[v e] l] eqn:E; [done|]. intros _. exists v, e.
    apply elem_of_rows. rewrite E. left.
  - intros (v & e & H%elem_of_rows). destruct (rows t n); [by apply elem_of_nil in H|done].
Qed.

(** What one pass leaves for a declared pool and the rest. *)
Record reconciled (stored : gmap string ResourcePoolDef) (names : list string) (d d' : db) : Prop := {
  rec_rows : adds (fun n => n ∈ names /\ stored !! n = None /\ pool_has_rows n (pool_rows d) = false)
               (pool_rows d) (pool_rows d');
  rec_defs n : n ∉ names -> pool_defs d' !! n = pool_defs d !! n;
  rec_kept n s : pool_defs d !! n = Some s -> pool_defs d' !! n = Some s;
  rec_declared n : n ∈ names -> stored !! n = None -> is_Some (pool_defs d' !! n)
}.

Lemma reconcile_one_reconciled stored n def d d' r :
  reconcile_one stored n def d = Ok (d', r) -> reconciled stored [n] d d'.
Proof.
  unfold reconcile_one, insert_pool_def. intros H.
  assert (Hcase : d' = d /\ is_Some (stored !! n) \/
    pool_defs d' = <[n := def]> (pool_defs d) /\ pool_defs d !! n = None /\
    adds (fun m => m ∈ [n] /\ stored !! m = None /\ pool_has_rows m (pool_rows d) = false)
      (pool_rows d) (pool_rows d')).
  { destruct (stored !! n) as [sd|] eqn:Es.
    - destruct (pool_has_rows n (pool_rows d)); injection H as <- _; eauto.
    - right. destruct (pool_has_rows n (pool_rows d)) eqn:Er.
      + destruct (pool_defs d !! n); simplify_eq/=. split_and!; [done|done|apply adds_refl].
      + destruct (define n def (pool_rows d)) as [t'|] eqn:Ed; [|done]. simpl in H.
        destruct (pool_defs d !! n) eqn:?; simplify_eq/=. split_and!; [done|done|].
        eapply adds_mono; [|by eapply define_adds]. intros m <-. set_solver. }
  destruct Hcase as [[-> Hs]|(Hd & Hn & Ha)].
  - split; [apply adds_refl|done|done|]. intros m ->%list_elem_of_singleton E. rewrite E in Hs. by destruct Hs.
  - split; [done|..]; intros m; rewrite Hd.
    + intros Hm. rewrite lookup_insert_ne; [done|]. set_solver.
    + intros s Hm. rewrite lookup_insert_ne; [done|]. congruence.
    + intros ->%list_elem_of_singleton _. rewrite lookup_insert_eq. done.
Qed.

Lemma reconciled_rows_other stored names d d' n :
  reconciled stored names d d' -> n ∉ names ->
  pool_has_rows n (pool_rows d') = pool_has_rows n (pool_rows d).
Proof.
  intros [Hr _ _ _] Hn. apply eq_true_iff_eq. rewrite !pool_has_rows_spec.
  split; intros (v & e & He); exists v, e; destruct (Hr (n, v)) as [E|(E & [? _] & _)]; simpl in *; congruence.
Qed.

Lemma reconcile_loop_reconciled stored declared d d' r :
  NoDup declared.*1 -> reconcile_loop stored declared d = Ok (d', r) -> reconciled stored declared.*1 d d'.
Proof.
  revert d r. induction declared as [|[n def] l IH]; intros d r Hnd; csimpl.
  { intros [= <- <-]. split; [apply adds_refl|done|done|]. by intros n ?%elem_of_nil. }
  apply NoDup_cons in Hnd as [Hn Hnd].
  intros ([d1 r1] & H1 & ([d2 r2] & H2 & [= <- <-])%bind_ok)%bind_ok.
  pose proof (reconcile_one_reconciled _ _ _ _ _ _ H1) as R1. pose proof (IH _ _ Hnd H2) as R2.
  split.
  - eapply adds_trans; [eapply adds_mono, R1|]; [simpl; set_solver|].
    intros k. destruct (rec_rows _ _ _ _ R2 k) as [E|(E & (Hk & Hs & Hh) & e)]; [by left|right].
    split; [done|]. split; [|done]. split; [by right|]. split; [done|].
    rewrite <- Hh. symmetry. apply (reconciled_rows_other _ _ _ _ _ R1). set_solver.
  - intros m Hm. rewrite (rec_defs _ _ _ _ R2), (rec_defs _ _ _ _ R1); set_solver.
  - intros m s Hs. by apply (rec_kept _ _ _ _ R2), (rec_kept _ _ _ _ R1).
  - intros m [->|Hm]%elem_of_cons Hs; [|by apply (rec_declared _ _ _ _ R2)].
    rewrite (rec_defs _ _ _ _ R2) by done. apply (rec_declared _ _ _ _ R1); [by left|done].
Qed.

(** A pass over pools that all have a recorded definition only reports. *)
Lemma reconcile_loop_stored stored declared d :
  (forall n, n ∈ declared.*1 -> is_Some (stored !! n)) ->
  exists r, reconcile_loop stored declared d = Ok (d, r).
Proof.
  induction declared as [|[n def] l IH]; csimpl; intros Hs; [by eexists|].
  destruct (Hs n) as [sd Esd]; [by left|]. destruct IH as [r Hr]; [intros m Hm; apply Hs; by right|].
  unfold reconcile_one. rewrite Esd. destruct (pool_has_rows n (pool_rows d)); simpl; rewrite Hr; by eexists.
Qed.

(** Reconciling adds and never overwrites. Rows and recorded definitions that
    exist stay as they are; a new row is free and belongs to a declared pool
    that had neither rows nor a recorded definition; afterwards every declared
    pool has one, so that reconciling again changes nothing. *)
Theorem reconcile_additive declared d d' r :
  NoDup declared.*1 -> reconcile_pool_defs declared d = Ok (d', r) ->
  (forall k, pool_rows d' !! k = pool_rows d !! k \/
     (pool_rows d !! k = None /\
      (k.1 ∈ declared.*1 /\ pool_defs d !! k.1 = None /\ pool_has_rows k.1 (pool_rows d) = false) /\
      exists e, pool_rows d' !! k = Some e /\ state e = Free)) /\
  (forall n s, pool_defs d !! n = Some s -> pool_defs d' !! n = Some s) /\
  (forall n, n ∈ declared.*1 -> is_Some (pool_defs d' !! n)) /\
  exists r', reconcile_pool_defs declared d' = Ok (d', r').
Proof.
  intros Hnd ([d1 r1] & H & [= <- <-])%bind_ok.
  pose proof (reconcile_loop_reconciled _ _ _ _ _ Hnd H) as [Hr Hdf Hk Hdc].
  assert (Hall : forall n, n ∈ declared.*1 -> is_Some (pool_defs d1 !! n)).
  { intros n Hn. destruct (pool_defs d !! n) as [s|] eqn:E; [|by apply Hdc]. by rewrite (Hk _ _ E). }
  split_and!; [exact Hr|exact Hk|done|].
  destruct (reconcile_loop_stored (pool_defs d1) declared d1 Hall) as [r' Hr'].
  unfold reconcile_pool_defs. rewrite Hr'. by eexists.
Qed.

(** ** Delegated prefixes partition their parent *)

Lemma make_prefixes_ok len l :
  0 <= len <= 128 -> Forall (fun a => 0 <= a < 2 ^ 128) l ->
  exists ns, make_prefixes len l = Ok ns /\ Forall2 (fun a n => ip n = V6 a /\ prefix n = len) l ns.
Proof.
  intros Hl. induction 1 as [|a l Ha Hal IH]; simpl; [by exists []; split; [|constructor]|].
  destruct (net_new_ok (V6 a) len) as (n & -> & Hip & Hp); [done|done|]. simpl.
  destruct IH as (ns & -> & Hns). simpl. exists (n :: ns). split; [done|]. by constructor.
Qed.

Lemma aligned_net n a len :
  ip n = V6 a -> prefix n = len -> (2 ^ (128 - len) | a) ->
  lo n = a /\ hi n = a + 2 ^ (128 - len) - 1.
Proof.
  intros Hip Hp [k Hk]. rewrite hi_spec, lo_spec. unfold block. rewrite Hip, Hp. simpl.
  change (width (V6 a)) with 128. pose proof (net_valid n) as [_ Hv]. rewrite Hip, Hp in Hv.
  assert (0 < 2 ^ (128 - len)) by (apply Z.pow_pos_nonneg; [lia|change (width (V6 a)) with 128 in Hv; lia]).
  rewrite Hk, Z.div_mul by lia. done.
Qed.

(** The arithmetic of the loop: [count] blocks of size [step] fill the parent. *)
Lemma stepped_lookup base step count i a :
  stepped base step count !! i = Some a <-> Z.of_nat i < count /\ a = base + Z.of_nat i * step.
Proof.
  unfold stepped. rewrite list_lookup_fmap, fmap_Some. setoid_rewrite lookup_seqZ. naive_solver lia.
Qed.

(** Sub-prefixes of length [len] of an IPv6 network, as ranges of numbers. *)
Section Delegation.
Context (n : IpNetwork) (len : Z) (Hfam : is_ipv4 (ip n) = false) (Hlen : prefix n < len <= 128).
Let count : Z := 2 ^ (len - prefix n).
Let step : Z := 2 ^ (128 - len).

Lemma parent_block : 0 < step /\ 0 < count /\ block n = count * step.
Proof.
  pose proof (net_valid n) as [_ Hv]. split_and!; [apply Z.pow_pos_nonneg; lia..|].
  unfold block, count, step. rewrite <- Z.pow_add_r by lia. f_equal.
  destruct (ip n); [done|]. change (width (V6 bits)) with 128. lia.
Qed.

Lemma parent_covers a : covers n a <-> is_ipv4 a = false /\ lo n <= bits a < lo n + count * step.
Proof.
  destruct parent_block as (_ & _ & Hb). unfold covers. rewrite hi_spec, Hb.
  destruct (ip n); [done|]. split; intros [Hf ?]; (split; [by destruct a|lia]).
Qed.

Lemma parent_in_space i : 0 <= Z.of_nat i < count -> 0 <= lo n + Z.of_nat i * step < 2 ^ 128.
Proof.
  intros Hi. destruct parent_block as (Hs & Hc & Hb). pose proof (lo_hi_range n) as [Hlo Hhi].
  rewrite hi_spec, Hb in Hhi. destruct (ip n); [done|]. change (width (V6 bits)) with 128 in Hhi. nia.
Qed.

Context (l : list IpNetwork)
  (Hl : Forall2 (fun a m => ip m = V6 a /\ prefix m = len) (stepped (lo n) step count) l).

Lemma delegated_length : Z.of_nat (length l) = count.
Proof.
  destruct parent_block as (_ & Hc & _). rewrite <- (Forall2_length _ _ _ Hl).
  unfold stepped. rewrite length_fmap, length_seqZ. lia.
Qed.

Lemma delegated_covers i m : l !! i = Some m ->
  Z.of_nat i < count /\ prefix m = len /\
  forall a, covers m a <-> is_ipv4 a = false /\
    lo n + Z.of_nat i * step <= bits a < lo n + Z.of_nat i * step + step.
Proof.
  intros Hm. destruct (Forall2_lookup_r _ _ _ _ _ Hl Hm) as (a & [Hi ->]%stepped_lookup & Hip & Hp).
  destruct parent_block as (_ & _ & Hb). split_and!; [done..|].
  destruct (aligned_net m _ len Hip Hp) as [E1 E2].
  { pose proof (lo_aligned n) as [k Hk]. exists (k * count + Z.of_nat i). fold step. rewrite Hk, Hb. lia. }
  intros x. unfold covers. rewrite E1, E2, Hip. fold step.
  split; intros [Hf ?]; (split; [by destruct x|lia]).
Qed.

Lemma delegated_partition :
  (forall m, m ∈ l -> prefix m = len /\ subnet m n) /\
  (forall a, covers n a -> exists m, m ∈ l /\ covers m a) /\
  (forall i j m m', l !! i = Some m -> l !! j = Some m' -> i <> j -> disjoint_nets m m').
Proof.
  destruct parent_block as (Hs & Hc & _). split_and!.
  - intros m [i Hm]%list_elem_of_lookup. destruct (delegated_covers i m Hm) as (Hi & Hp & Hcov).
    split; [done|]. intros a Ha%Hcov. apply parent_covers. split; [tauto|]. nia.
  - intros a [Hf Ha]%parent_covers. pose proof delegated_length as Hlength.
    assert (0 <= (bits a - lo n) / step < count) as Hi.
    { split; [apply Z.div_pos; lia|]. apply Z.div_lt_upper_bound; lia. }
    destruct (lookup_lt_is_Some_2 l (Z.to_nat ((bits a - lo n) / step))) as [m Em]; [lia|].
    exists m. split; [by eapply list_elem_of_lookup_2|]. apply (delegated_covers _ m Em). split; [done|].
    pose proof (Z.mul_div_le (bits a - lo n) step Hs). pose proof (Z.mul_succ_div_gt (bits a - lo n) step Hs). lia.
  - intros i j m m' Hi Hj Hne a Ha Ha'.
    apply (delegated_covers i m Hi) in Ha. apply (delegated_covers j m' Hj) in Ha'. nia.
Qed.
End Delegation.

(** Delegating a prefix partitions it. Whenever the delegated length is longer
    than the parent's, at most 128, and the number of sub-prefixes does not
    exceed the limit, the expansion succeeds, without overflow, with that many
    prefixes of the delegated length, which lie in the parent, are disjoint and
    together cover every address of the parent. *)
Theorem delegation_partitions parent delegate_len n :
  parse_net parent = Ok n -> is_ipv4 (ip n) = false ->
  prefix n < delegate_len <= 128 -> 2 ^ (delegate_len - prefix n) <= MAX_POOL_SIZE ->
  exists l, expand_ipv6_prefix_delegation parent delegate_len = Ok l /\
    Z.of_nat (length l) = 2 ^ (delegate_len - prefix n) /\
    (forall m, m ∈ l -> prefix m = delegate_len /\ subnet m n) /\
    (forall a, covers n a -> exists m, m ∈ l /\ covers m a) /\
    (forall i j m m', l !! i = Some m -> l !! j = Some m' -> i <> j -> disjoint_nets m m').
Proof.
  intros Hparse Hfam Hlen Hmax. unfold expand_ipv6_prefix_delegation. rewrite Hparse. simpl. rewrite Hfam.
  pose proof (net_valid n) as [_ Hv].
  destruct (Z.leb_spec delegate_len (prefix n)); [lia|]. destruct (Z.ltb_spec 128 delegate_len); [lia|].
  assert (delegate_len - prefix n < 128) as Hsmall.
  { apply (Z.pow_lt_mono_r_iff 2); [lia|lia|]. unfold MAX_POOL_SIZE in Hmax. lia. }
  unfold shl_u128. destruct (Z.ltb_spec (delegate_len - prefix n) 128); [|lia].
  destruct (Z.ltb_spec MAX_POOL_SIZE (2 ^ (delegate_len - prefix n))); [lia|]. fold (lo n).
  destruct (make_prefixes_ok delegate_len
    (stepped (lo n) (2 ^ (128 - delegate_len)) (2 ^ (delegate_len - prefix n)))) as (l & -> & Hl); [lia| |].
  { apply Forall_lookup. intros i a [Hi ->]%stepped_lookup. by apply parent_in_space; [..|lia]. }
  exists l. split; [done|]. split; [by apply delegated_length|]. by apply delegated_partition.
Qed.

End Define.
End PoolDefs.

(** ** Witnesses *)

Module PoolDefsExample.
Import PoolDefs.

(** A simple text form: decimal numbers, with a colon before an IPv6 address. *)
Definition ref_show_addr (a : IpAddr) : string :=
  match a with V4 b => show_N (Z.to_N b) | V6 b => String ":" (show_N (Z.to_N b)) end.
Definition ref_parse_ipv4 (s : string) : result string Z :=
  ok_or "invalid" (Z.of_N <$> parse_uint (2 ^ 32) s).
Definition ref_parse_ipv6 (s : string) : result string Z :=
  match s with
  | String ":" s => ok_or "invalid" (Z.of_N <$> parse_uint (2 ^ 128) s)
  | _ => Err "invalid"
  end.
Definition ref_parse_addr (s : string) : result string IpAddr :=
  match s with
  | String ":" _ => V6 <$> ref_parse_ipv6 s
  | _ => V4 <$> ref_parse_ipv4 s
  end.
Definition ref_show_net (n : ref_net) : string :=
  ref_show_addr (`n).1 +:+ String "/" (show_N (Z.to_N (`n).2)).
Definition ref_parse_net (s : string) : result string ref_net :=
  match split_on "/" s with
  | [a; l] => a ← ref_parse_addr a;
              l ← ok_or "invalid" (parse_uint 256 l);
              ok_or "invalid" (ref_new a (Z.of_N l))
  | _ => Err "invalid"
  end.

Lemma ref_parse_show_ipv4 a : 0 <= a < 2 ^ 32 -> ref_parse_ipv4 (ref_show_addr (V4 a)) = Ok a.
Proof.
  intros Ha. unfold ref_parse_ipv4. simpl. rewrite parse_show_N by lia. simpl. by rewrite Z2N.id by lia.
Qed.
Lemma ref_parse_show_ipv6 a : 0 <= a < 2 ^ 128 -> ref_parse_ipv6 (ref_show_addr (V6 a)) = Ok a.
Proof.
  intros Ha. unfold ref_parse_ipv6, ref_show_addr. rewrite parse_show_N by lia. simpl. by rewrite Z2N.id by lia.
Qed.

Lemma ref_parse_show_addr a : valid_addr a -> ref_parse_addr (ref_show_addr a) = Ok a.
Proof.
  destruct a as [b|b]; intros Hv; unfold valid_addr in Hv; simpl in Hv.
  - unfold ref_parse_addr. pose proof (ref_parse_show_ipv4 b Hv) as E. unfold ref_show_addr in *.
    destruct (show_N_head (Z.to_N b)) as (c & s & Es & Hc). rewrite Es in *.
    destruct c as [[] [] [] [] [] [] [] []]; try done; by rewrite E.
  - unfold ref_parse_addr. pose proof (ref_parse_show_ipv6 b Hv) as E. unfold ref_show_addr in *. by rewrite E.
Qed.

Lemma digit_not_slash c : is_digit c = true -> negb (Ascii.eqb c "/") = true.
Proof. destruct c as [[] [] [] [] [] [] [] []]; done. Qed.

Lemma ref_parse_show_net (n : ref_net) : ref_parse_net (ref_show_net n) = Ok n.
Proof.
  pose proof (ref_valid n) as [Ha Hp]. unfold ref_parse_net, ref_show_net.
  rewrite split_on_app, split_on_no_sep.
  - rewrite ref_parse_show_addr by done. simpl. rewrite parse_show_N; simpl.
    + rewrite Z2N.id by lia. destruct (ref_new_ok (`n).1 (`n).2 Ha Hp) as (m & -> & E1 & E2).
      simpl. f_equal. apply (sig_eq_pi _). by destruct (`n), (`m); simpl in *; subst.
    + destruct (width_cases (`n).1); lia.
  - apply show_N_all, digit_not_slash.
  - destruct (`n).1; simpl; apply show_N_all, digit_not_slash.
Qed.

Lemma ref_parse_ipv4_range s a : ref_parse_ipv4 s = Ok a -> 0 <= a < 2 ^ 32.
Proof.
  unfold ref_parse_ipv4, parse_uint. destruct (NilZero.uint_of_string _); [|done].
  destruct (N.ltb_spec (N.of_uint u) (2 ^ 32)); [|done]. simpl. intros [= <-]. lia.
Qed.
Lemma ref_parse_ipv6_range s a : ref_parse_ipv6 s = Ok a -> 0 <= a < 2 ^ 128.
Proof.
  unfold ref_parse_ipv6. destruct s as [|c s]; [done|].
  destruct c as [[] [] [] [] [] [] [] []]; try done. unfold parse_uint.
  destruct (NilZero.uint_of_string _); [|done].
  destruct (N.ltb_spec (N.of_uint u) (2 ^ 128)); [|done]. simpl. intros [= <-]. lia.
Qed.

#[local] Instance reference_text : @AddrText ipnetwork_reference := {|
  show_addr := ref_show_addr;
  show_net := ref_show_net : @IpNetwork ipnetwork_reference -> string;
  parse_ipv4 := ref_parse_ipv4;
  parse_ipv6 := ref_parse_ipv6;
  parse_net := ref_parse_net;
  parse_show_ipv4 := ref_parse_show_ipv4;
  parse_show_ipv6 := ref_parse_show_ipv6;
  parse_show_net := ref_parse_show_net;
  parse_ipv4_range := ref_parse_ipv4_range;
  parse_ipv6_range := ref_parse_ipv6_range
|}.

(** fd00::/48 and one pool of each kind of definition. *)
Definition fd00 : Z := 253 * 2 ^ 120.
Definition parent_net : @IpNetwork ipnetwork_reference := exist _ (V6 fd00, 48) eq_refl.
Definition vlan_def : ResourcePoolDef := mk_def [mk_range "0x10" "20" true] None TInteger None.
Definition empty_db : db := mk_db ∅ ∅.
Definition vlan_db : db :=
  mk_db {[ ("vlan-id", "16") := mk_entry Integer Free None true;
           ("vlan-id", "17") := mk_entry Integer Free None true;
           ("vlan-id", "18") := mk_entry Integer Free None true;
           ("vlan-id", "19") := mk_entry Integer Free None true ]}
        {[ "vlan-id" := vlan_def ]}.

Lemma reconcile_additive_witness :
  (forall k, pool_rows vlan_db !! k = pool_rows empty_db !! k \/
     (pool_rows empty_db !! k = None /\
      (k.1 ∈ ["vlan-id"] /\ pool_defs empty_db !! k.1 = None /\ pool_has_rows k.1 (pool_rows empty_db) = false) /\
      exists e, pool_rows vlan_db !! k = Some e /\ state e = Free)) /\
  (forall n s, pool_defs empty_db !! n = Some s -> pool_defs vlan_db !! n = Some s) /\
  (forall n, n ∈ ["vlan-id"] -> is_Some (pool_defs vlan_db !! n)) /\
  exists r', reconcile_pool_defs [("vlan-id", vlan_def)] vlan_db = Ok (vlan_db, r').
Proof.
  apply (reconcile_additive [("vlan-id", vlan_def)] empty_db vlan_db []).
  - apply NoDup_singleton.
  - reflexivity.
Defined.

Lemma delegation_partitions_witness :
  exists l, expand_ipv6_prefix_delegation (ref_show_net parent_net) 52 = Ok l /\
    Z.of_nat (length l) = 16 /\
    (forall m, m ∈ l -> prefix m = 52 /\ subnet m parent_net) /\
    (forall a, covers (crate := ipnetwork_reference) parent_net a -> exists m, m ∈ l /\ covers m a) /\
    (forall i j m m', l !! i = Some m -> l !! j = Some m' -> i <> j -> disjoint_nets m m').
Proof.
  apply (delegation_partitions (ref_show_net parent_net) 52 parent_net).
  - apply ref_parse_show_net.
  - reflexivity.
  - simpl. lia.
  - simpl. unfold MAX_POOL_SIZE. lia.
Defined.

(** A range without values records a definition without rows, which the next pass
    reports as a snapshot whose pool is missing. *)
Example empty_pool_reported_missing :
  let def := mk_def [mk_range "20" "20" true] None TInteger None in
  exists d, reconcile_pool_defs [("vlan-id", def)] empty_db = Ok (d, []) /\
    reconcile_pool_defs [("vlan-id", def)] d = Ok (d, [SnapshotWithoutPool "vlan-id"]).
Proof. eexists. split; reflexivity. Qed.

(** A repeated prefix is accepted. *)
Example repeated_hex_prefix : parse_int_range "0X0x1F" = Some 31.
Proof. reflexivity. Qed.

End PoolDefsExample.
