(* ===== verification/NetworkSegment.v ===== *)
(** * NetworkSegment: the network segment controller

    crates/network-segment-controller/src/handler.rs and io.rs as an instance of
    the controller interface of [Processor], with the statements of
    crates/api-db/src/network_segment.rs, instance_address.rs and
    state_history.rs they use. The database keeps the columns the controller
    reads or writes; the pools are those of [ResourcePool]. *)

From S2P Require Import Prelude Text Chrono ConfigVersion StateHandler Processor StateTable Drain.
From S2P Require Import IpNetwork ResourcePool PoolDefs.
Import ConfigVersion StateHandler Processor.

Module NetworkSegment.

(** ** Data (crates/api-model/src/network_segment/mod.rs) *)

Inductive NetworkSegmentDeletionState := DrainAllocatedIps (delete_at : Z) | DBDelete.
#[export] Instance deletion_state_eq_dec : EqDecision NetworkSegmentDeletionState.
Proof. solve_decision. Defined.
Inductive NetworkSegmentControllerState :=
| Provisioning
| Ready
| Deleting (deletion_state : NetworkSegmentDeletionState).
#[export] Instance controller_state_eq_dec : EqDecision NetworkSegmentControllerState.
Proof. solve_decision. Defined.

Inductive NetworkSegmentType := Tenant | Admin | Underlay | HostInband.
#[global] Instance segment_type_eq_dec : EqDecision NetworkSegmentType.
Proof. solve_decision. Defined.

Record segment_row := mk_row {
  name : string;
  segment_type : NetworkSegmentType;
  deleted : option Z;
  vni : option Z;
  vlan_id : option Z;
  controller_state : versioned NetworkSegmentControllerState;
  outcome : option PersistentOutcome
}.

Section Segments.
Context {crate : IpNetworkCrate}.

Record NetworkPrefix := mk_prefix {
  prefix_segment : string;
  prefix : IpNetwork;
  num_reserved : Z;
  num_free_ips : option Z
}.

(** A loaded segment. *)
Record snapshot := mk_snapshot { seg_id : string; row : segment_row; seg_prefixes : list NetworkPrefix }.

Definition is_marked_as_deleted (s : snapshot) : bool :=
  match deleted (row s) with Some _ => true | None => false end.

(** The tables. Of what refers to a segment only the references are kept: machine
    interfaces, instance addresses, and the segments that the current or pending
    network configuration of each instance names. *)
Record db := mk_db {
  segments : gmap string segment_row;
  prefixes : list NetworkPrefix;
  histories : gmap string (list (versioned NetworkSegmentControllerState));
  machine_interfaces : list string;
  instance_addresses : list string;
  instance_configs : list (list string);
  pools : ResourcePool.table
}.

Definition set_segments (f : gmap string segment_row -> gmap string segment_row) (d : db) : db :=
  mk_db (f (segments d)) (prefixes d) (histories d) (machine_interfaces d) (instance_addresses d)
    (instance_configs d) (pools d).
Definition set_pools (t : ResourcePool.table) (d : db) : db :=
  mk_db (segments d) (prefixes d) (histories d) (machine_interfaces d) (instance_addresses d)
    (instance_configs d) t.

(** ** Statements *)

Definition list_segment_ids (d : db) : list string := (map_to_list (segments d)).*1.

(** The id is the primary key, so at most one row is found. *)
Definition load_segment (d : db) (id : string) : option snapshot :=
  (fun r => mk_snapshot id r (filter (fun p => prefix_segment p = id) (prefixes d))) <$> segments d !! id.

Definition set_state (new : versioned NetworkSegmentControllerState) (r : segment_row) : segment_row :=
  mk_row (name r) (segment_type r) (deleted r) (vni r) (vlan_id r) new (outcome r).
Definition set_outcome (o : PersistentOutcome) (r : segment_row) : segment_row :=
  mk_row (name r) (segment_type r) (deleted r) (vni r) (vlan_id r) (controller_state r) (Some o).
Definition set_deleted (now : Z) (r : segment_row) : segment_row :=
  mk_row (name r) (segment_type r) (Some now) (vni r) (vlan_id r) (controller_state r) (outcome r).
Definition set_segment_histories f (d : db) : db :=
  mk_db (segments d) (prefixes d) (f (histories d)) (machine_interfaces d) (instance_addresses d)
    (instance_configs d) (pools d).

#[export] Instance segment_table : StateTable db segment_row NetworkSegmentControllerState.
Proof.
  refine {| rows := segments; set_rows := set_segments; StateTable.histories := histories;
    set_histories := set_segment_histories; row_state := controller_state; put_state := set_state;
    put_outcome := set_outcome |}; done.
Defined.

Definition try_update_controller_state (d : db) (id : string) (expected_version new_version : ConfigVersion.t)
    (new_state : NetworkSegmentControllerState) : db * ConditionalWrite unit ControllerStateNotCurrent :=
  StateTable.try_update d id expected_version new_version new_state.

Definition update_controller_state_outcome (d : db) (id : string) (o : PersistentOutcome) : db :=
  StateTable.update_outcome d id o.

Definition persist_history (d : db) (id : string) (v : ConfigVersion.t) (c : NetworkSegmentControllerState) : db :=
  StateTable.persist_history d id v c.

Definition instance_refers (id : string) (l : list (list string)) : bool :=
  existsb (fun c => bool_decide (id ∈ c)) l.

Definition segment_has_allocations (d : db) (id : string) : bool :=
  bool_decide (id ∈ machine_interfaces d) || bool_decide (id ∈ instance_addresses d)
  || instance_refers id (instance_configs d).

Definition mark_as_deleted (now : Z) (d : db) (id : string) : result DatabaseError db :=
  if bool_decide (id ∈ machine_interfaces d) then
    Err (NetworkSegmentDelete "Network Segment can't be deleted with associated MachineInterface")
  else if bool_decide (id ∈ instance_addresses d) then
    Err (NetworkSegmentDelete
      "Network Segment can't be deleted while addresses on the segment are allocated to instances")
  else if instance_refers id (instance_configs d) then
    Err (NetworkSegmentDelete
      "network segment can't be deleted while referenced by network configurations")
  else match segments d !! id with
       | Some r => Ok (set_segments (<[id := set_deleted now r]>) d)
       | None => Err (QueryError "no rows returned")
       end.

(** [network_prefix::delete_for_segment]. *)
Definition delete_for_segment (id : string) (d : db) : db :=
  mk_db (segments d) (filter (fun p => prefix_segment p <> id) (prefixes d)) (histories d)
    (machine_interfaces d) (instance_addresses d) (instance_configs d) (pools d).

Definition final_delete (id : string) (d : db) : result DatabaseError db :=
  if segment_has_allocations d id then
    Err (NetworkSegmentDelete "network segment can't be deleted while allocations still reference it")
  else
    let d := delete_for_segment id d in
    match segments d !! id with
    | Some _ => Ok (set_segments (delete id) d)
    | None => Err (QueryError "no rows returned")
    end.

(** ** The controller's interface *)

Definition PROVISIONING : Z := secs (15 * 60).
Definition DELETING_DBDELETE : Z := secs (15 * 60).

Definition segment_sla (state : NetworkSegmentControllerState) (v : ConfigVersion.t) (now : Z) : StateSla :=
  match state with
  | Provisioning => with_sla PROVISIONING (since_version v now)
  | Ready => no_sla
  | Deleting (DrainAllocatedIps _) => no_sla
  | Deleting DBDelete => with_sla DELETING_DBDELETE (since_version v now)
  end.

Definition state_names (s : NetworkSegmentControllerState) : string * string :=
  match s with
  | Provisioning => ("provisioning", "")
  | Ready => ("ready", "")
  | Deleting (DrainAllocatedIps _) => ("deleting", "drainallocatedips")
  | Deleting DBDelete => ("deleting", "dbdelete")
  end.

(** [chrono]'s texts of a time. *)
Context (debug_time to_rfc3339 : Z -> string).

Definition debug_state (s : NetworkSegmentControllerState) : string :=
  match s with
  | Provisioning => "Provisioning"
  | Ready => "Ready"
  | Deleting (DrainAllocatedIps t) =>
      "Deleting { deletion_state: DrainAllocatedIps { delete_at: " +:+ debug_time t +:+ " } }"
  | Deleting DBDelete => "Deleting { deletion_state: DBDelete }"
  end.

#[export] Instance segment_io : StateControllerIO db string snapshot NetworkSegmentControllerState := {
  id_to_string id := id;
  show_state := debug_state;
  list_objects d := Ok (list_segment_ids d);
  load_object_state d id := Ok (load_segment d id);
  load_controller_state _ _ s := Ok (controller_state (row s));
  persist_controller_state d id old new c := Ok (try_update_controller_state d id old new c);
  persist_state_history d id v c := Ok (persist_history d id v c);
  persist_outcome d id o := Ok (update_controller_state_outcome d id o);
  metric_state_names := state_names;
  manual_intervention_reason _ := None;
  state_sla vc now _ := segment_sla (value vc) (version vc) now
}.

(** ** Metrics *)

Record NetworkSegmentMetrics := mk_metrics {
  available_ips : Z;
  reserved_ips : Z;
  total_ips : Z;
  m_seg_name : string;
  m_seg_type : NetworkSegmentType;
  m_seg_id : string;
  m_prefix : IpNetwork
}.

(** [usize::try_from(n).unwrap_or(usize::MAX)] of an unsigned number. *)
Definition saturate (n : Z) : Z := Z.min n PoolDefs.usize_max.

Definition available_ip_metric_value (count : option Z) : Z :=
  default 0 (saturate <$> count).

Definition compatibility_metric_prefix (l : list NetworkPrefix) : option NetworkPrefix :=
  match find (fun p => is_ipv4 (ip (prefix p))) l with
  | Some p => Some p
  | None => head l
  end.

(** [num_reserved as usize] wraps. *)
Definition record_metrics (s : snapshot) (m : NetworkSegmentMetrics) : NetworkSegmentMetrics :=
  match compatibility_metric_prefix (seg_prefixes s), segment_type (row s) with
  | None, _ => m
  | _, Tenant => m
  | Some p, t =>
      mk_metrics (available_ip_metric_value (num_free_ips p)) (num_reserved p mod 2 ^ 64)
        (saturate (size (prefix p))) (name (row s)) t (seg_id s) (prefix p)
  end.

(** ** The handler *)

(** Where a call of the handler can fail. *)
Inductive point := PBegin | PCheck | PReleaseVni | PReleaseVlan | PFinalDelete.

Section Handler.
Context {chrono : Chrono} (drain_period : Z) (fault : point -> bool) (now : Z).

Definition reaches (p : point) : result StateHandlerError unit :=
  if fault p
  then Err match p with PBegin => TransactionError "database" | _ => DBError (QueryError "database") end
  else Ok ().

Definition pool_vni : ResourcePool.pool := ResourcePool.mk_pool "vni" ResourcePool.Integer.
Definition pool_vlan_id : ResourcePool.pool := ResourcePool.mk_pool "vlan-id" ResourcePool.Integer.
Definition i32_value : ResourcePool.PoolValue Z := PoolDefs.int_value (- 2 ^ 31) (2 ^ 31 - 1).
Definition i16_value : ResourcePool.PoolValue Z := PoolDefs.int_value (- 2 ^ 15) (2 ^ 15 - 1).

(** Release a value the segment has; one it does not own is left alone. *)
Definition release_value (TV : ResourcePool.PoolValue Z) (p : ResourcePool.pool) (owner : string)
    (v : option Z) (d : db) : db :=
  match v with
  | Some v => set_pools (ResourcePool.release p v ResourcePool.NetworkSegment owner (pools d)).1 d
  | None => d
  end.

Definition delete_from_db (id : string) (s : snapshot) (d : db)
    : result StateHandlerError (StateHandlerOutcome db NetworkSegmentControllerState) :=
  _ ← reaches PBegin;
  _ ← (if vni (row s) is Some _ then reaches PReleaseVni else Ok ());
  let d := release_value i32_value pool_vni (name (row s)) (vni (row s)) d in
  _ ← (if vlan_id (row s) is Some _ then reaches PReleaseVlan else Ok ());
  let d := release_value i16_value pool_vlan_id (name (row s)) (vlan_id (row s)) d in
  _ ← reaches PFinalDelete;
  d ← map_err DBError (final_delete id d);
  Ok (in_txn StateHandler.deleted d).

Definition drain (s : snapshot) (delete_at : Z) (d : db)
    : result StateHandlerError (StateHandlerOutcome db NetworkSegmentControllerState) :=
  _ ← reaches PBegin;
  _ ← reaches PCheck;
  if segment_has_allocations d (seg_id s) then
    Ok (in_txn (transition (Deleting (DrainAllocatedIps (Drain.drain_deadline drain_period now)))) d)
  else if delete_at <=? now then Ok (in_txn (transition (Deleting DBDelete)) d)
  else Ok (in_txn (wait ("Cannot delete from database until draining completes at "
                           +:+ to_rfc3339 delete_at)) d).

Definition handle_object_state (id : string) (s : snapshot) (c : NetworkSegmentControllerState) (d : db)
    : handled db NetworkSegmentControllerState :=
  mk_handled d []
    match c with
    | Provisioning => Ok (transition Ready)
    | Ready =>
        if is_marked_as_deleted s
        then Ok (transition (Deleting (DrainAllocatedIps (Drain.drain_deadline drain_period now))))
        else Ok do_nothing
    | Deleting (DrainAllocatedIps delete_at) => drain s delete_at d
    | Deleting DBDelete => delete_from_db id s d
    end.
End Handler.

#[export] Instance segment_table_io : StateTable.TableIO db segment_row snapshot NetworkSegmentControllerState.
Proof.
  split; try done. unfold StateTable.state_of. simpl. unfold load_segment. intros d id s cs [= H] [= <-].
  destruct (segments d !! id); [|done]. simpl in *. by simplify_eq/=.
Qed.

#[export] Instance segment_guarded : GuardedIO db string snapshot NetworkSegmentControllerState :=
  StateTable.table_guarded.

(** ** What the handler leaves in its transaction *)

Lemma release_value_pools TV p owner v d :
  release_value TV p owner v d = set_pools (pools (release_value TV p owner v d)) d.
Proof. unfold release_value. destruct v; [done|]. by destruct d. Qed.

Lemma final_delete_ok id d d' :
  final_delete id d = Ok d' ->
  segment_has_allocations d id = false /\ is_Some (segments d !! id) /\
  d' = set_segments (delete id) (delete_for_segment id d).
Proof.
  unfold final_delete. destruct (segment_has_allocations d id); [done|]. simpl.
  destruct (segments d !! id); [|done]. intros [= <-]. eauto.
Qed.

(** The pools after both releases. *)
Definition released (s : snapshot) (d : db) : db :=
  release_value i16_value pool_vlan_id (name (row s)) (vlan_id (row s))
    (release_value i32_value pool_vni (name (row s)) (vni (row s)) d).

Lemma released_eq s d : released s d = set_pools (pools (released s d)) d.
Proof. unfold released. rewrite release_value_pools, (release_value_pools i32_value). done. Qed.

Lemma delete_from_db_ok fault id s d o :
  delete_from_db fault id s d = Ok o ->
  segment_has_allocations d id = false /\ is_Some (segments d !! id) /\
  o = Deleted (Some (set_segments (delete id) (delete_for_segment id (released s d)))).
Proof.
  unfold delete_from_db. intros (_ & _ & (_ & _ & (_ & _ & (_ & _ & (d' & H & [= <-])%bind_ok)%bind_ok)%bind_ok)%bind_ok)%bind_ok.
  fold (released s d) in H. destruct (final_delete id (released s d)) as [d1|] eqn:E; [|done].
  injection H as <-. apply final_delete_ok in E as (Ha & Hs & ->).
  rewrite released_eq in Ha, Hs. done.
Qed.

Lemma drain_ok {chrono : Chrono} drain_period fault now s delete_at d o :
  drain drain_period fault now s delete_at d = Ok o ->
  fault PBegin = false /\ fault PCheck = false /\ (take_transaction o).1 = Some d /\
  (take_transaction o).2 =
    (if segment_has_allocations d (seg_id s)
     then transition (Deleting (DrainAllocatedIps (Drain.drain_deadline drain_period now)))
     else if delete_at <=? now then transition (Deleting DBDelete)
     else wait ("Cannot delete from database until draining completes at " +:+ to_rfc3339 delete_at)).
Proof.
  unfold drain, reaches. destruct (fault PBegin); [done|]. destruct (fault PCheck); [done|]. simpl.
  destruct (segment_has_allocations _ _); [by intros [= <-]|]. by destruct (_ <=? _); intros [= <-].
Qed.

Section Attempts.
Context {chrono : Chrono} (drain_period : Z).

(** Every transaction of the handler is its database, or that without the segment. *)
Lemma handler_txn fault now id s c d o t :
  h_out (handle_object_state drain_period fault now id s c d) = Ok o -> (take_transaction o).1 = Some t ->
  t = d \/ (segment_has_allocations d id = false /\
    t = set_segments (delete id) (delete_for_segment id (released s d))).
Proof.
  simpl. destruct c as [| |[delete_at|]].
  - intros [= <-]. done.
  - destruct (is_marked_as_deleted s); intros [= <-]; done.
  - intros (_ & _ & Ht & _)%drain_ok Ht'. left. congruence.
  - intros (Ha & _ & ->)%delete_from_db_ok [= <-]. by right.
Qed.

Lemma segment_handler_frame fault now : handler_frame (handle_object_state drain_period fault now).
Proof.
  intros id s c d h. split_and!; [done| |constructor].
  intros o t Ho Ht. destruct (handler_txn _ _ _ _ _ _ _ _ Ho Ht) as [->|[_ ->]]; [done|].
  rewrite released_eq. intros j. split; [done|]. simpl. unfold StateTable.state_of. simpl. destruct (decide (j = id)) as [->|].
  - right. by rewrite lookup_delete_eq.
  - left. by rewrite lookup_delete_ne.
Qed.

(** Nothing refers to a segment that is gone. *)
Definition no_dangling (d : db) : Prop :=
  forall id, segment_has_allocations d id = true -> is_Some (segments d !! id).

Lemma segment_handler_keeps fault now : handler_keeps no_dangling (handle_object_state drain_period fault now).
Proof.
  intros id s c d h. split_and!; [done| |constructor].
  intros o t Ho Ht Hd. destruct (handler_txn _ _ _ _ _ _ _ _ Ho Ht) as [->|[Ha ->]]; [done|].
  rewrite released_eq. intros j Hj. change (segment_has_allocations d j = true) in Hj. simpl.
  rewrite lookup_delete_ne; [by apply Hd|]. intros <-. congruence.
Qed.

(** C21: an attempt of the segment controller keeps the database whole, whatever
    fails in it and wherever the deadline fires, as long as the other
    transactions do: nothing refers to a segment that is gone, and every
    segment's history is a chain of version increments that ends in its current
    state. *)
Theorem segment_attempt_safe fault ev others id late now clock d :
  (forall p d, no_dangling d -> no_dangling (others p d)) ->
  (forall p d, consistent d -> consistent (others p d)) ->
  no_dangling d -> consistent d ->
  let d' := p_db (process_object (handle_object_state drain_period fault now) ev others id late now clock d) in
  no_dangling d' /\ consistent d'.
Proof.
  intros Hn Hc Hd Hcd. split.
  - apply process_object_preserves; [..|apply segment_handler_keeps|done|done].
    + intros d0 j old new c d1 w [= E] H k Hk. apply (StateTable.try_update_objects _ _ _ _ _ _ _ k E), H.
      rewrite <- Hk. unfold try_update_controller_state, StateTable.try_update in E. repeat case_match; by simplify_eq.
    + intros d0 j v c d1 [= <-]. done.
    + intros d0 j o d1 [= <-] H k Hk. exact (proj2 (StateTable.update_outcome_objects d0 j o k) (H k Hk)).
  - by apply process_object_consistent; [apply segment_handler_frame|..].
Qed.

(** ** Draining *)

Definition looked (fault : point -> bool) (c : NetworkSegmentControllerState) (in_use : bool) : option bool :=
  match c with
  | Deleting (DrainAllocatedIps _) => if fault PBegin || fault PCheck then None else Some in_use
  | _ => None
  end.

(** One call of the handler. *)
Record call_args := mk_call {
  c_fault : point -> bool;
  c_now : Z;
  c_id : string;
  c_snapshot : snapshot;
  c_db : db
}.
Definition saw_use (x : call_args) (c : NetworkSegmentControllerState) : option bool :=
  looked (c_fault x) c (segment_has_allocations (c_db x) (seg_id (c_snapshot x))).
Definition state_after (x : call_args) (c : NetworkSegmentControllerState) : NetworkSegmentControllerState :=
  match h_out (handle_object_state drain_period (c_fault x) (c_now x) (c_id x) (c_snapshot x) c (c_db x)) with
  | Ok o => match (take_transaction o).2 with Transition n _ => n | _ => c end
  | Err _ => c
  end.

(** The handler follows the protocol of [Drain]. *)
Definition phase_of (c : NetworkSegmentControllerState) : Drain.phase :=
  match c with
  | Provisioning | Ready => Drain.Active
  | Deleting (DrainAllocatedIps delete_at) => Drain.Draining delete_at
  | Deleting DBDelete => Drain.Removing
  end.

(** The attempts on one segment and its state after them. *)
Definition visits : list Drain.visit -> NetworkSegmentControllerState -> Prop :=
  Drain.runs phase_of c_now (fun x => is_marked_as_deleted (c_snapshot x)) saw_use state_after.

Lemma handler_refines_drain x c :
  phase_of (state_after x c)
    = Drain.next drain_period (c_now x) (is_marked_as_deleted (c_snapshot x)) (saw_use x c) (phase_of c) \/
  phase_of (state_after x c) = phase_of c /\ saw_use x c = None.
Proof.
  destruct x as [fault now id s d]. unfold state_after, saw_use. simpl. destruct c as [| |[delete_at|]]; simpl.
  - by right.
  - left. by destruct (is_marked_as_deleted s).
  - left. destruct (drain _ _ _ _ _ _) as [o|e] eqn:E.
    + apply drain_ok in E as (-> & -> & _ & ->). simpl. destruct (segment_has_allocations d (seg_id s)); [done|].
      by destruct (Z.leb_spec delete_at now).
    + unfold drain, reaches in E. destruct (fault PBegin); [done|]. destruct (fault PCheck); [done|]. simpl in *.
      destruct (segment_has_allocations _ _); [done|]. by destruct (_ <=? _).
  - left. destruct (delete_from_db fault id s d) as [o|] eqn:E; [|done]. by apply delete_from_db_ok in E as (_ & _ & ->).
Qed.

Lemma visits_drained l c : visits l c -> phase_of c = Drain.Removing -> Drain.drained drain_period l.
Proof.
  apply Drain.runs_drained, handler_refines_drain.
Qed.


(** ** Deletion completes *)

Definition no_fault (p : point) : bool := false.

(** An attempt in which nothing fails and nobody interferes. *)
Definition attempt (now clock : Z) (id : string) (d : db) : db :=
  StateTable.attempt (handle_object_state drain_period no_fault now) now clock id d.

(** The segment moved on to [n]; nothing else the handler reads has changed. *)
Record moved (id : string) (n : NetworkSegmentControllerState) (r : segment_row) (d d' : db) : Prop := {
  moved_row : exists v o, segments d' !! id =
    Some (mk_row (name r) (segment_type r) (deleted r) (vni r) (vlan_id r) (versioned_new n v) o);
  moved_uses j : segment_has_allocations d' j = segment_has_allocations d j;
  moved_pools : pools d' = pools d
}.

Definition loaded (id : string) (r : segment_row) (d : db) : snapshot :=
  mk_snapshot id r (filter (fun p => prefix_segment p = id) (prefixes d)).

Lemma load_loaded id d r : segments d !! id = Some r -> load_object_state d id = Ok (Some (loaded id r d)).
Proof. simpl. unfold load_segment. by intros ->. Qed.

Lemma segment_attempt_moves now clock id d r n o :
  segments d !! id = Some r ->
  h_out (handle_object_state drain_period no_fault now id (loaded id r d) (value (controller_state r)) d) = Ok o ->
  take_transaction o = (None, transition n) \/ take_transaction o = (Some d, transition n) ->
  moved id n r d (attempt now clock id d).
Proof.
  intros Hr Ho Ht. unfold attempt.
  rewrite (StateTable.attempt_moves _ now clock id d (loaded id r d) r n o); [|by apply load_loaded|done|done| |done].
  - split; [|done|done]. exists (increment (version (controller_state r)) clock), (Some PTransition).
    exact (StateTable.moved_to_row id n _ r d).
  - unfold handle_object_state in *. simpl in *. by rewrite Ho.
Qed.

Lemma segment_attempt_deletes now clock id d r :
  segments d !! id = Some r -> value (controller_state r) = Deleting DBDelete ->
  segment_has_allocations d id = false ->
  attempt now clock id d =
  set_segments (delete id) (delete_for_segment id (released (loaded id r d) d)).
Proof.
  intros Hr Hc Ha. unfold attempt. set (s := loaded id r d).
  assert (Hf : final_delete id (released s d) =
    Ok (set_segments (delete id) (delete_for_segment id (released s d)))).
  { unfold final_delete. rewrite released_eq. unfold segment_has_allocations in *. simpl in *. by rewrite Ha, Hr. }
  assert (Hif : forall x : option Z, match x with Some _ => Ok () | None => Ok () end = Ok (E := StateHandlerError) ())
    by (by intros []).
  apply (StateTable.attempt_deletes _ now clock id d s (controller_state r)); [by apply load_loaded|done|].
  rewrite Hc. unfold handle_object_state, delete_from_db, reaches, no_fault. rewrite !Hif. cbn [mbind result_bind].
  fold (released s d). by rewrite Hf.
Qed.

(** The values a segment may own, as rows of the pools. *)
Inductive segment_value (r : segment_row) : string * string -> Prop :=
| value_vni v : vni r = Some v -> segment_value r ("vni", show_Z v)
| value_vlan v : vlan_id r = Some v -> segment_value r ("vlan-id", show_Z v).

Lemma released_frees s d k :
  segment_value (row s) k ->
  ResourcePool.state_of (pools (released s d)) k
    <> Some (ResourcePool.owned_by ResourcePool.NetworkSegment (name (row s))).
Proof.
  intros Hk. unfold released, release_value, ResourcePool.release. destruct Hk as [v Hv|v Hv]; rewrite Hv; simpl.
  - destruct (vlan_id (row s)); [apply ResourcePool.release_text_gains; [done|]|]; by apply ResourcePool.release_text_frees.
  - by apply ResourcePool.release_text_frees.
Qed.

Lemma moved_uses_row id n r d d' :
  moved id n r d d' -> segment_has_allocations d id = false ->
  exists r', segments d' !! id = Some r' /\ value (controller_state r') = n /\ deleted r' = deleted r /\
    name r' = name r /\ vni r' = vni r /\ vlan_id r' = vlan_id r /\ segment_has_allocations d' id = false.
Proof. intros [(v & o & Hr) Hu _] Ha. eexists. split; [exact Hr|]. split_and!; try done. by rewrite Hu. Qed.

(** The three moves. *)
Lemma attempt_provisioned now clock id d r :
  segments d !! id = Some r -> value (controller_state r) = Provisioning ->
  moved id Ready r d (attempt now clock id d).
Proof. intros Hr Hc. apply segment_attempt_moves with (o := transition Ready); [exact Hr|by rewrite Hc|by left]. Qed.

Lemma attempt_starts_draining now clock id d r :
  segments d !! id = Some r -> value (controller_state r) = Ready -> deleted r <> None ->
  moved id (Deleting (DrainAllocatedIps (Drain.drain_deadline drain_period now))) r d (attempt now clock id d).
Proof.
  intros Hr Hc Hm.
  apply segment_attempt_moves with (o := transition (Deleting (DrainAllocatedIps (Drain.drain_deadline drain_period now))));
    [exact Hr| |by left]. rewrite Hc. simpl.
  unfold is_marked_as_deleted. simpl. by destruct (deleted r).
Qed.

Lemma attempt_drained now clock id d r delete_at :
  segments d !! id = Some r -> value (controller_state r) = Deleting (DrainAllocatedIps delete_at) ->
  segment_has_allocations d id = false -> delete_at <= now ->
  moved id (Deleting DBDelete) r d (attempt now clock id d).
Proof.
  intros Hr Hc Ha Ht%Z.leb_le.
  apply segment_attempt_moves with (o := Transition (Deleting DBDelete) (Some d)); [exact Hr| |by right]. rewrite Hc. simpl.
  unfold drain. simpl. by rewrite Ha, Ht.
Qed.

(** A segment that is ready, at once or after an attempt. *)
Lemma ready_row now clock id d r :
  segments d !! id = Some r -> value (controller_state r) = Provisioning \/ value (controller_state r) = Ready ->
  segment_has_allocations d id = false ->
  let d' := if bool_decide (value (controller_state r) = Provisioning) then attempt now clock id d else d in
  exists r', segments d' !! id = Some r' /\ value (controller_state r') = Ready /\ deleted r' = deleted r /\
    name r' = name r /\ vni r' = vni r /\ vlan_id r' = vlan_id r /\ segment_has_allocations d' id = false.
Proof.
  intros Hr Hc Ha d'. subst d'. case_bool_decide as Hp.
  - by apply (moved_uses_row _ _ _ _ _ (attempt_provisioned now clock id d r Hr Hp)).
  - exists r. destruct Hc; done.
Qed.

(** C23: deletion completes. A segment that is marked as deleted, ready or still
    provisioning, and not in use is gone after three undisturbed attempts (after one
    more that ends its provisioning), if the second of them is not before the deadline
    that the first one sets: its row and its prefixes are deleted and it owns neither
    its VNI nor its VLAN id any more. *)
Theorem marked_segment_is_deleted id d r t1 t2 t3 t4 c1 c2 c3 c4 :
  segments d !! id = Some r -> deleted r <> None ->
  value (controller_state r) = Provisioning \/ value (controller_state r) = Ready ->
  segment_has_allocations d id = false -> Drain.drain_deadline drain_period t2 <= t3 ->
  let ready := if bool_decide (value (controller_state r) = Provisioning) then attempt t1 c1 id d else d in
  let d' := attempt t4 c4 id (attempt t3 c3 id (attempt t2 c2 id ready)) in
  segments d' !! id = None /\ (forall p, p ∈ prefixes d' -> prefix_segment p <> id) /\
  forall k, segment_value r k ->
    ResourcePool.state_of (pools d') k <> Some (ResourcePool.owned_by ResourcePool.NetworkSegment (name r)).
Proof.
  intros Hr Hm Hc Ha Ht ready d'. subst d'.
  destruct (ready_row t1 c1 id d r Hr Hc Ha) as (r1 & Hr1 & Hc1 & Hm1 & Hn1 & Hv1 & Hl1 & Ha1). fold ready in Hr1, Ha1.
  generalize dependent ready. intros d1 Hr1 Ha1. rewrite <- Hm1 in Hm.
  destruct (moved_uses_row _ _ _ _ _ (attempt_starts_draining t2 c2 id d1 r1 Hr1 Hc1 Hm) Ha1)
    as (r2 & Hr2 & Hc2 & Hm2 & Hn2 & Hv2 & Hl2 & Ha2).
  generalize dependent (attempt t2 c2 id d1). intros d2 Hr2 Ha2.
  destruct (moved_uses_row _ _ _ _ _ (attempt_drained t3 c3 id d2 r2 _ Hr2 Hc2 Ha2 Ht) Ha2)
    as (r3 & Hr3 & Hc3 & Hm3 & Hn3 & Hv3 & Hl3 & Ha3).
  generalize dependent (attempt t3 c3 id d2). intros d3 Hr3 Ha3.
  rewrite (segment_attempt_deletes t4 c4 id d3 r3 Hr3 Hc3 Ha3). split_and!.
  - apply lookup_delete_eq.
  - intros p [? _]%list_elem_of_filter. done.
  - intros k Hk. replace (name r) with (name r3) by congruence.
    apply (released_frees (mk_snapshot id r3 _)). simpl.
    destruct Hk as [v Hv|v Hv]; constructor; congruence.
Qed.
End Attempts.

End Segments.
End NetworkSegment.

(** ** Witnesses *)

Module NetworkSegmentExample.
Import NetworkSegment.
#[local] Existing Instances ipnetwork_reference chrono_reference.

#[local] Instance example_io : StateControllerIO db string snapshot NetworkSegmentControllerState :=
  segment_io show_Z.
#[local] Instance example_guarded : GuardedIO db string snapshot NetworkSegmentControllerState :=
  segment_guarded show_Z.

Definition v1 : ConfigVersion.t := ConfigVersion.mk 1 0.
Definition tenant_row (c : NetworkSegmentControllerState) : segment_row :=
  mk_row "tenant-a" Tenant (Some 5) (Some 1000) (Some 17) (versioned_new c v1) None.
Definition one_segment (c : NetworkSegmentControllerState) (interfaces : list string) : db :=
  mk_db {[ "seg" := tenant_row c ]} [] ∅ interfaces [] []
    {[ ("vni", "1000") :=
         ResourcePool.mk_entry ResourcePool.Integer (ResourcePool.Allocated "tenant-a" "network_segment")
           (Some 1) true ]}.
Definition hour : Z := secs 3600.

Lemma one_segment_whole c : no_dangling (one_segment c ["seg"]).
Proof.
  intros id H. unfold segment_has_allocations in H. simpl in H.
  rewrite !orb_true_iff, bool_decide_eq_true in H. destruct H as [[->%list_elem_of_singleton|?]|?]; done.
Qed.

Lemma one_segment_consistent c l : consistent (one_segment c l).
Proof.
  intros i. simpl. rewrite lookup_empty. split; [|done].
  intros k a b H. by destruct k.
Qed.

Lemma segment_attempt_safe_witness :
  let d := one_segment (Deleting DBDelete) ["seg"] in
  let d' := p_db (process_object (handle_object_state show_Z hour no_fault 10)
                    StateTable.all_ok StateTable.undisturbed "seg" false 10 11 d) in
  no_dangling d' /\ consistent d'.
Proof.
  apply (segment_attempt_safe show_Z show_Z hour no_fault StateTable.all_ok StateTable.undisturbed "seg" false 10 11).
  - intros p d H. exact H.
  - intros p d H. exact H.
  - apply one_segment_whole.
  - apply one_segment_consistent.
Defined.

Lemma visits_next l c x v c' :
  visits show_Z hour l c -> state_after show_Z hour x c = c' ->
  Drain.sight_of (is_marked_as_deleted (c_snapshot x)) (saw_use x c) (phase_of c) (phase_of c') = v ->
  visits show_Z hour (Drain.mk_visit (c_now x) v :: l) c'.
Proof. intros H <- <-. exact (Drain.runs_committed _ _ _ _ _ l c x H). Qed.


Lemma marked_segment_is_deleted_witness :
  let d := one_segment Provisioning [] in
  let d' := attempt show_Z show_Z hour (hour + 20) 4 "seg" (attempt show_Z show_Z hour (hour + 10) 3 "seg"
              (attempt show_Z show_Z hour 10 2 "seg" (attempt show_Z show_Z hour 0 1 "seg" d))) in
  segments d' !! "seg" = None /\ (forall p, p ∈ prefixes d' -> prefix_segment p <> "seg") /\
  forall k, segment_value (tenant_row Provisioning) k ->
    ResourcePool.state_of (pools d') k <> Some (ResourcePool.owned_by ResourcePool.NetworkSegment "tenant-a").
Proof.
  apply (marked_segment_is_deleted show_Z show_Z hour "seg" (one_segment Provisioning [])
           (tenant_row Provisioning)); [reflexivity|done|by left|reflexivity|].
  vm_compute. done.
Defined.

End NetworkSegmentExample.
