(* ===== verification/VpcPrefix.v ===== *)
(** * VpcPrefix: VPC prefixes, the network prefixes in them, and their controller

    The tables of VPCs, VPC prefixes, network segments and network prefixes with
    the statements of crates/api-db/src/vpc_prefix.rs and network_prefix.rs and
    the constraints of the schema (crates/api-db/migrations), and the controller
    of crates/vpc-prefix-controller/src (handler.rs, io.rs) as an instance of the
    controller interface. The tables keep the columns these use; a network prefix
    is stored without host bits, as the cast to [cidr] does. A transaction sees
    the database as it is when it begins. *)

From S2P Require Import Prelude Text Chrono ConfigVersion StateHandler Processor StateTable Drain.
From S2P Require Import IpNetwork PrefixAllocator BTree NetworkSegment.
Import ConfigVersion StateHandler Processor.

Module VpcPrefix.

(** ** Data (crates/api-model/src/vpc_prefix.rs) *)

Inductive VpcPrefixDeletionState := DrainNetworkPrefixes (delete_at : Z) | DBDelete.
#[export] Instance deletion_state_eq_dec : EqDecision VpcPrefixDeletionState.
Proof. solve_decision. Defined.
Inductive VpcPrefixControllerState :=
| Provisioning
| Ready
| Deleting (deletion_state : VpcPrefixDeletionState).
#[export] Instance controller_state_eq_dec : EqDecision VpcPrefixControllerState.
Proof. solve_decision. Defined.

(** crates/network/src/virtualization.rs *)
Inductive VpcVirtualizationType := EthernetVirtualizer | EthernetVirtualizerWithNvue | Fnn | Flat.
#[export] Instance virtualization_eq_dec : EqDecision VpcVirtualizationType.
Proof. solve_decision. Defined.

Record vpc_row := mk_vpc {
  vpc_version : ConfigVersion.t;
  vpc_deleted : bool;
  tenant_organization_id : string;
  network_virtualization_type : VpcVirtualizationType;
  slaac_enabled : bool
}.

Record segment_row := mk_segment {
  seg_vpc_id : option string;
  seg_type : NetworkSegment.NetworkSegmentType;
  can_stretch : option bool
}.

Section VpcPrefixes.
Context {crate : IpNetworkCrate}.

Record vpc_prefix_row := mk_row {
  site_prefix_id : option string;
  vpc_id : string;
  overlap_vpc_id : option string;
  vp_prefix : IpNetwork;
  last_used_prefix : option IpNetwork;
  deleted : option Z;
  controller_state : versioned VpcPrefixControllerState;
  outcome : option PersistentOutcome
}.

(** The parent is the pair of columns [vpc_prefix_id] and [vpc_prefix]. *)
Record network_prefix_row := mk_network_prefix {
  np_segment : string;
  np_prefix : IpNetwork;
  np_gateway : option IpAddr;
  np_num_reserved : Z;
  np_parent : option (string * IpNetwork);
  np_overlap_vpc_id : option string
}.

Record db := mk_db {
  vpcs : gmap string vpc_row;
  site_prefixes : gset string;
  segments : gmap string segment_row;
  vpc_prefixes : gmap string vpc_prefix_row;
  network_prefixes : list network_prefix_row;
  histories : gmap string (list (versioned VpcPrefixControllerState))
}.

Definition set_vpcs f (d : db) : db :=
  mk_db (f (vpcs d)) (site_prefixes d) (segments d) (vpc_prefixes d) (network_prefixes d) (histories d).
Definition set_segments f (d : db) : db :=
  mk_db (vpcs d) (site_prefixes d) (f (segments d)) (vpc_prefixes d) (network_prefixes d) (histories d).
Definition set_vpc_prefixes f (d : db) : db :=
  mk_db (vpcs d) (site_prefixes d) (segments d) (f (vpc_prefixes d)) (network_prefixes d) (histories d).
Definition set_network_prefixes f (d : db) : db :=
  mk_db (vpcs d) (site_prefixes d) (segments d) (vpc_prefixes d) (f (network_prefixes d)) (histories d).
Definition set_prefix_histories f (d : db) : db :=
  mk_db (vpcs d) (site_prefixes d) (segments d) (vpc_prefixes d) (network_prefixes d) (f (histories d)).

Definition set_state (new : versioned VpcPrefixControllerState) (r : vpc_prefix_row) : vpc_prefix_row :=
  mk_row (site_prefix_id r) (vpc_id r) (overlap_vpc_id r) (vp_prefix r) (last_used_prefix r) (deleted r) new
    (outcome r).
Definition set_outcome (o : PersistentOutcome) (r : vpc_prefix_row) : vpc_prefix_row :=
  mk_row (site_prefix_id r) (vpc_id r) (overlap_vpc_id r) (vp_prefix r) (last_used_prefix r) (deleted r)
    (controller_state r) (Some o).
Definition set_deleted (now : Z) (r : vpc_prefix_row) : vpc_prefix_row :=
  mk_row (site_prefix_id r) (vpc_id r) (overlap_vpc_id r) (vp_prefix r) (last_used_prefix r) (Some now)
    (controller_state r) (outcome r).
Definition set_last_used (n : IpNetwork) (r : vpc_prefix_row) : vpc_prefix_row :=
  mk_row (site_prefix_id r) (vpc_id r) (overlap_vpc_id r) (vp_prefix r) (Some n) (deleted r)
    (controller_state r) (outcome r).

Definition is_marked_as_deleted (r : vpc_prefix_row) : bool :=
  match deleted r with Some _ => true | None => false end.

#[export] Instance vpc_prefix_table : StateTable db vpc_prefix_row VpcPrefixControllerState.
Proof.
  refine {| rows := vpc_prefixes; set_rows := set_vpc_prefixes; StateTable.histories := histories;
    set_histories := set_prefix_histories; row_state := controller_state; put_state := set_state;
    put_outcome := set_outcome |}; done.
Defined.

(** ** The schema *)

(** The cast of an [inet] to [cidr] drops the host bits. *)
Definition to_cidr (n : IpNetwork) : IpNetwork := default n (net_new (network n) (prefix n)).
(** The operator [&&]. *)
Definition overlap (n m : IpNetwork) : bool := PrefixAllocator.networks_overlap n m.
(** The operator [<<=]. *)
Definition contained_eq (n m : IpNetwork) : bool := (prefix m <=? prefix n) && contains m (network n).

(** [network_vpc_prefixes_overlap_scope_check]. *)
Definition overlap_scope_check (r : vpc_prefix_row) : bool :=
  match overlap_vpc_id r with
  | None => true
  | Some v => String.eqb v (vpc_id r) && bool_decide (is_Some (site_prefix_id r)) && is_ipv4 (ip (vp_prefix r))
  end.

(** The exclusion constraints, for rows of the same scope. *)
Definition vpc_prefix_conflict (a b : vpc_prefix_row) : bool :=
  bool_decide (overlap_vpc_id a = overlap_vpc_id b) && overlap (vp_prefix a) (vp_prefix b).
Definition network_prefix_conflict (a b : network_prefix_row) : bool :=
  bool_decide (np_overlap_vpc_id a = np_overlap_vpc_id b) && overlap (np_prefix a) (np_prefix b).

Definition exclusion_constraint (table : string) (scope : option string) : string :=
  table +:+ match scope with None => "_global_prefix_excl" | Some _ => "_scoped_prefix_excl" end.

Definition violates (constraint : string) : DatabaseError :=
  ConstraintViolation constraint ("violates constraint " +:+ constraint).
Definition row_not_found : DatabaseError := QueryError "no rows returned".

(** ** VPC prefixes *)

(** [db::vpc::increment_vpc_version]. *)
Definition increment_vpc_version (clock : Z) (d : db) (id : string) (expected_version : ConfigVersion.t)
    : result DatabaseError db :=
  match vpcs d !! id with
  | Some v =>
      if bool_decide (vpc_version v = expected_version) && negb (vpc_deleted v)
      then Ok (set_vpcs (<[id := mk_vpc (increment expected_version clock) (vpc_deleted v)
                 (tenant_organization_id v) (network_virtualization_type v) (slaac_enabled v)]>) d)
      else Err (ConcurrentModificationError "vpc" (version_string expected_version))
  | None => Err (ConcurrentModificationError "vpc" (version_string expected_version))
  end.

Record NewVpcPrefix := mk_new {
  new_id : string;
  new_site_prefix_id : option string;
  new_vpc_id : string;
  new_overlap_vpc_id : option string;
  new_prefix : IpNetwork
}.

(** The [INSERT] of [persist] under the constraints of the table. *)
Definition insert_vpc_prefix (id : string) (r : vpc_prefix_row) (d : db) : result DatabaseError db :=
  if negb (overlap_scope_check r) then Err (violates "network_vpc_prefixes_overlap_scope_check")
  else if bool_decide (is_Some (vpc_prefixes d !! id)) then Err (violates "network_vpc_prefixes_pkey")
  else if existsb (fun kr => vpc_prefix_conflict kr.2 r) (map_to_list (vpc_prefixes d))
  then Err (violates (exclusion_constraint "network_vpc_prefixes" (overlap_vpc_id r)))
  else if negb (bool_decide (is_Some (vpcs d !! vpc_id r))) then Err (violates "network_vpc_prefixes_vpc_id_fkey")
  else if negb match site_prefix_id r with Some s => bool_decide (s ∈ site_prefixes d) | None => true end
  then Err (violates "network_vpc_prefixes_site_prefix_id_fkey")
  else Ok (set_vpc_prefixes (<[id := r]>) d).

Definition overlap_constraints : list string :=
  ["network_vpc_prefixes_globally_unique"; "network_vpc_prefixes_global_prefix_excl";
   "network_vpc_prefixes_scoped_prefix_excl"].

Context (show_net : IpNetwork -> string).

Definition persist (now clock : Z) (value : NewVpcPrefix) (expected_vpc_version : ConfigVersion.t) (d : db)
    : result DatabaseError db :=
  let initial_version := initial now in
  let r := mk_row (new_site_prefix_id value) (new_vpc_id value) (new_overlap_vpc_id value)
             (to_cidr (new_prefix value)) None None (versioned_new Provisioning initial_version) None in
  d ← map_err (fun e => match e with
                        | ConstraintViolation c _ =>
                            if bool_decide (c ∈ overlap_constraints)
                            then InvalidArgument ("The requested VPC prefix (" +:+ show_net (new_prefix value)
                                   +:+ ") overlaps an existing or deleting VPC prefix")
                            else e
                        | _ => e
                        end) (insert_vpc_prefix (new_id value) r d);
  let d := StateTable.persist_history d (new_id value) initial_version Provisioning in
  increment_vpc_version clock d (new_vpc_id value) expected_vpc_version.

Definition mark_as_deleted (now clock : Z) (id : string) (expected_vpc_version : ConfigVersion.t) (d : db)
    : result DatabaseError db :=
  match vpc_prefixes d !! id with
  | Some r =>
      if is_marked_as_deleted r then Err (NotFoundError "vpc_prefix" id)
      else increment_vpc_version clock (set_vpc_prefixes (<[id := set_deleted now r]>) d) (vpc_id r)
             expected_vpc_version
  | None => Err (NotFoundError "vpc_prefix" id)
  end.

(** The foreign keys of the network prefixes refuse a row they refer to. *)
Definition refers_to (id : string) (n : network_prefix_row) : bool :=
  match np_parent n with Some (p, _) => String.eqb p id | None => false end.

Definition final_delete (id : string) (d : db) : result DatabaseError db :=
  match vpc_prefixes d !! id with
  | Some _ => if existsb (refers_to id) (network_prefixes d)
              then Err (violates "network_prefixes_vpc_prefix_fkey")
              else Ok (set_vpc_prefixes (delete id) d)
  | None => Err row_not_found
  end.

Definition count_network_prefixes_by_vpc_prefix_id (d : db) (id : string) : nat :=
  length (filter (fun n => refers_to id n = true) (network_prefixes d)).

Definition try_update_controller_state (d : db) (id : string) (expected_version new_version : ConfigVersion.t)
    (new_state : VpcPrefixControllerState) : db * ConditionalWrite unit ControllerStateNotCurrent :=
  StateTable.try_update d id expected_version new_version new_state.

Definition update_controller_state_outcome (d : db) (id : string) (o : PersistentOutcome) : db :=
  StateTable.update_outcome d id o.

(** ** Statements of the allocation *)

(** The ids come in the order of the table's primary key. *)
Definition ids_in_order (d : db) : list string := merge_sort (fun a b => cmp a b <> Gt) (map_to_list (vpc_prefixes d)).*1.

Definition get_for_allocation_by_ids (d : db) (ids : list string) : list (string * vpc_prefix_row) :=
  omap (fun id => (fun r => (id, r)) <$> vpc_prefixes d !! id) (filter (fun id => id ∈ ids) (ids_in_order d)).

Definition lock_for_allocation (d : db) (id : string) : option vpc_prefix_row :=
  r ← vpc_prefixes d !! id; if is_marked_as_deleted r then None else Some r.

Definition update_last_used_prefix (id : string) (n : IpNetwork) (d : db) : result DatabaseError db :=
  match lock_for_allocation d id with
  | Some r => Ok (set_vpc_prefixes (<[id := set_last_used n r]>) d)
  | None => Err row_not_found
  end.

Definition find_allocation_occupancy (d : db) (id : string) (n : IpNetwork) : list IpNetwork :=
  match vpc_prefixes d !! id with
  | Some vp =>
      np_prefix <$> filter (fun np =>
        overlap (np_prefix np) n &&
        (bool_decide (np_overlap_vpc_id np = None) || bool_decide (overlap_vpc_id vp = None)
         || bool_decide (np_overlap_vpc_id np = overlap_vpc_id vp)) = true) (network_prefixes d)
  | None => []
  end.

(** ** Network prefixes *)

Record NewNetworkPrefix := mk_new_network_prefix {
  nnp_prefix : IpNetwork;
  nnp_gateway : option IpAddr;
  nnp_num_reserved : Z
}.

(** The scope a new prefix inherits from its parent. *)
Definition inherited_scope (s : segment_row) (vp : vpc_prefix_row) : option string :=
  if bool_decide (seg_type s = NetworkSegment.Tenant) && bool_decide (can_stretch s = Some false)
     && bool_decide (seg_vpc_id s = Some (vpc_id vp))
  then overlap_vpc_id vp else None.

(** The check constraints of the table. *)
Definition gateway_within_network (n : network_prefix_row) : bool :=
  match np_gateway n with
  | None => true
  | Some g => contains (np_prefix n) g && (prefix (np_prefix n) <? width g)
  end.
Definition no_gateway_on_ipv6 (n : network_prefix_row) : bool :=
  match np_gateway n with None => true | Some _ => is_ipv4 (ip (np_prefix n)) end.
Definition within_vpc_prefix (n : network_prefix_row) : bool :=
  match np_parent n with Some (_, p) => contained_eq (np_prefix n) p | None => true end.

Definition insert_network_prefix (n : network_prefix_row) (d : db) : result DatabaseError db :=
  if negb (gateway_within_network n) then Err (violates "gateway_within_network")
  else if negb (within_vpc_prefix n) then Err (violates "network_prefix_within_vpc_prefix")
  else if negb (no_gateway_on_ipv6 n) then Err (violates "no_gateway_on_ipv6")
  else if existsb (fun m => network_prefix_conflict m n) (network_prefixes d)
  then Err (violates (exclusion_constraint "network_prefixes" (np_overlap_vpc_id n)))
  else Ok (set_network_prefixes (fun l => l ++ [n]) d).

(** One turn of [create_for]. *)
Definition create_one (segment_id : string) (vpc_prefix_id : option string) (d : db) (p : NewNetworkPrefix)
    : result DatabaseError db :=
  match segments d !! segment_id with
  | None => Err row_not_found
  | Some s =>
      match vpc_prefix_id with
      | None => insert_network_prefix (mk_network_prefix segment_id (to_cidr (nnp_prefix p)) (nnp_gateway p)
                  (nnp_num_reserved p) None None) d
      | Some id =>
          match vpc_prefixes d !! id with
          | None => Err row_not_found
          | Some vp => insert_network_prefix (mk_network_prefix segment_id (to_cidr (nnp_prefix p)) (nnp_gateway p)
                         (nnp_num_reserved p) (Some (id, vp_prefix vp)) (inherited_scope s vp)) d
          end
      end
  end.

(** [create_for]: all or nothing, in a nested transaction. *)
Fixpoint create_for (segment_id : string) (prefixes : list NewNetworkPrefix) (vpc_prefix_id : option string)
    (d : db) : result DatabaseError db :=
  match prefixes with
  | [] => Ok d
  | p :: prefixes => d ← create_one segment_id vpc_prefix_id d p; create_for segment_id prefixes vpc_prefix_id d
  end.

(** [set_vpc_prefix]; a row's place in the table stands for its id. The foreign keys
    ask for the parent's prefix and, of a row with a scope, for its scope. *)
Definition with_parent (id : string) (p : IpNetwork) (n : network_prefix_row) : network_prefix_row :=
  mk_network_prefix (np_segment n) (np_prefix n) (np_gateway n) (np_num_reserved n) (Some (id, p)) (np_overlap_vpc_id n).

Definition set_vpc_prefix (place : nat) (id : string) (p : IpNetwork) (d : db) : result DatabaseError db :=
  match network_prefixes d !! place with
  | None => Err row_not_found
  | Some n =>
      let n := with_parent id (to_cidr p) n in
      if negb (within_vpc_prefix n) then Err (violates "network_prefix_within_vpc_prefix")
      else match vpc_prefixes d !! id with
           | Some r =>
               if bool_decide (vp_prefix r <> to_cidr p) then Err (violates "network_prefixes_vpc_prefix_fkey")
               else if bool_decide (np_overlap_vpc_id n <> None /\ np_overlap_vpc_id n <> overlap_vpc_id r)
               then Err (violates "network_prefixes_overlap_scope_fkey")
               else Ok (set_network_prefixes (<[place := n]>) d)
           | None => Err (violates "network_prefixes_vpc_prefix_fkey")
           end
  end.

(** [network_segment::persist] of a segment without prefixes, as the allocation
    makes it. *)
Definition persist_segment (id : string) (s : segment_row) (d : db) : result DatabaseError db :=
  if bool_decide (is_Some (segments d !! id)) then Err (violates "network_segments_pkey")
  else if negb match seg_vpc_id s with Some v => bool_decide (is_Some (vpcs d !! v)) | None => true end
  then Err (violates "network_segments_vpc_id_fkey")
  else Ok (set_segments (<[id := s]>) d).

Definition delete_for_segment (id : string) (d : db) : db :=
  set_network_prefixes (filter (fun n => np_segment n <> id)) d.

(** ** The controller's interface *)

(** A loaded VPC prefix. *)
Record snapshot := mk_snapshot { snap_id : string; row : vpc_prefix_row; stats : PrefixAllocator.VpcPrefixStats }.

(** [update_stats] for one prefix: its VPC, and the prefixes that occupy it as
    [network_prefix_occupancy_by_vpc_prefix_id] finds them. The computation never
    panics. *)
Definition load_stats (d : db) (id : string) (r : vpc_prefix_row)
    : result DatabaseError PrefixAllocator.VpcPrefixStats :=
  let none := PrefixAllocator.mk_stats 0 0 0 0 in
  match vpcs d !! vpc_id r with
  | None => Err (Internal ("VPC prefix " +:+ id +:+ " references missing VPC " +:+ vpc_id r))
  | Some v => Ok (default none (PrefixAllocator.update_stats (vp_prefix r) (slaac_enabled v)
                    (find_allocation_occupancy d id (vp_prefix r)) none))
  end.

(** The id is the primary key, so at most one row is found. *)
Definition load_vpc_prefix (d : db) (id : string) : result DatabaseError (option snapshot) :=
  match vpc_prefixes d !! id with
  | None => Ok None
  | Some r => st ← load_stats d id r; Ok (Some (mk_snapshot id r st))
  end.

Definition PROVISIONING_SLA : Z := secs (15 * 60).
Definition DELETING_DBDELETE_SLA : Z := secs (15 * 60).

Definition vpc_prefix_sla (state : VpcPrefixControllerState) (v : ConfigVersion.t) (now : Z) : StateSla :=
  match state with
  | Provisioning => with_sla PROVISIONING_SLA (since_version v now)
  | Ready => no_sla
  | Deleting (DrainNetworkPrefixes _) => no_sla
  | Deleting DBDelete => with_sla DELETING_DBDELETE_SLA (since_version v now)
  end.

Definition state_names (s : VpcPrefixControllerState) : string * string :=
  match s with
  | Provisioning => ("provisioning", "")
  | Ready => ("ready", "")
  | Deleting (DrainNetworkPrefixes _) => ("deleting", "drainnetworkprefixes")
  | Deleting DBDelete => ("deleting", "dbdelete")
  end.

(** [chrono]'s texts of a time. *)
Context (debug_time to_rfc3339 : Z -> string).

Definition debug_state (s : VpcPrefixControllerState) : string :=
  match s with
  | Provisioning => "Provisioning"
  | Ready => "Ready"
  | Deleting (DrainNetworkPrefixes t) =>
      "Deleting { deletion_state: DrainNetworkPrefixes { delete_at: " +:+ debug_time t +:+ " } }"
  | Deleting DBDelete => "Deleting { deletion_state: DBDelete }"
  end.

#[export] Instance vpc_prefix_io : StateControllerIO db string snapshot VpcPrefixControllerState := {
  id_to_string id := id;
  show_state := debug_state;
  list_objects d := Ok (map_to_list (vpc_prefixes d)).*1;
  load_object_state := load_vpc_prefix;
  load_controller_state _ _ s := Ok (controller_state (row s));
  persist_controller_state d id old new c := Ok (try_update_controller_state d id old new c);
  persist_state_history d id v c := Ok (StateTable.persist_history d id v c);
  persist_outcome d id o := Ok (update_controller_state_outcome d id o);
  metric_state_names := state_names;
  manual_intervention_reason _ := None;
  state_sla vc now _ := vpc_prefix_sla (value vc) (version vc) now
}.

#[export] Instance vpc_prefix_table_io : StateTable.TableIO db vpc_prefix_row snapshot VpcPrefixControllerState.
Proof.
  split; try done. unfold StateTable.state_of. simpl. unfold load_vpc_prefix. intros d id s cs H [= <-].
  destruct (vpc_prefixes d !! id); [|done]. apply bind_ok in H as (st & _ & [= <-]). done.
Qed.

#[export] Instance vpc_prefix_guarded : GuardedIO db string snapshot VpcPrefixControllerState :=
  StateTable.table_guarded.

(** ** The handler *)

(** Where a call of the handler can fail. *)
Inductive point := PBegin | PCount | PFinalDelete.

Section Handler.
Context {chrono : Chrono} (drain_period : Z) (fault : point -> bool) (now : Z).

Definition reaches (p : point) : result StateHandlerError unit :=
  if fault p
  then Err match p with PBegin => TransactionError "database" | _ => DBError (QueryError "database") end
  else Ok ().

Definition drain_state : VpcPrefixControllerState :=
  Deleting (DrainNetworkPrefixes (Drain.drain_deadline drain_period now)).

Definition drain (s : snapshot) (delete_at : Z) (d : db)
    : result StateHandlerError (StateHandlerOutcome db VpcPrefixControllerState) :=
  _ ← reaches PBegin;
  _ ← reaches PCount;
  if (0 <? count_network_prefixes_by_vpc_prefix_id d (snap_id s))%nat
  then Ok (in_txn (transition drain_state) d)
  else if delete_at <=? now then Ok (in_txn (transition (Deleting DBDelete)) d)
  else Ok (in_txn (wait ("Cannot delete VPC prefix from database until draining completes at "
                           +:+ to_rfc3339 delete_at)) d).

Definition handle_object_state (id : string) (s : snapshot) (c : VpcPrefixControllerState) (d : db)
    : handled db VpcPrefixControllerState :=
  mk_handled d []
    match c with
    | Provisioning => Ok (transition (if is_marked_as_deleted (row s) then drain_state else Ready))
    | Ready => if is_marked_as_deleted (row s) then Ok (transition drain_state) else Ok do_nothing
    | Deleting (DrainNetworkPrefixes delete_at) => drain s delete_at d
    | Deleting DBDelete =>
        _ ← reaches PBegin;
        _ ← reaches PFinalDelete;
        d ← map_err DBError (final_delete id d);
        Ok (in_txn StateHandler.deleted d)
    end.
End Handler.

(** ** The tables stay whole *)

(** What the constraints of the schema promise: overlapping prefixes are in
    different scopes, a scope is the row's own VPC, and a network prefix lies in
    the VPC prefix it was made from and is in its scope or in the global one. *)
Definition child_ok (d : db) (n : network_prefix_row) : Prop :=
  is_Some (segments d !! np_segment n) /\
  match np_parent n with
  | None => np_overlap_vpc_id n = None
  | Some (id, p) =>
      exists r, vpc_prefixes d !! id = Some r /\ vp_prefix r = p /\ contained_eq (np_prefix n) p = true /\
        (np_overlap_vpc_id n = None \/ np_overlap_vpc_id n = overlap_vpc_id r)
  end.

Record whole (d : db) : Prop := {
  whole_scope id r : vpc_prefixes d !! id = Some r -> overlap_scope_check r = true;
  whole_vpc id r : vpc_prefixes d !! id = Some r -> is_Some (vpcs d !! vpc_id r);
  whole_disjoint id j r q :
    vpc_prefixes d !! id = Some r -> vpc_prefixes d !! j = Some q -> id <> j -> vpc_prefix_conflict r q = false;
  whole_child n : n ∈ network_prefixes d -> child_ok d n;
  whole_network_disjoint i j n m :
    network_prefixes d !! i = Some n -> network_prefixes d !! j = Some m -> i <> j ->
    network_prefix_conflict n m = false
}.

Lemma overlap_comm n m : overlap n m = overlap m n.
Proof. apply orb_comm. Qed.
Lemma vpc_prefix_conflict_comm a b : vpc_prefix_conflict a b = vpc_prefix_conflict b a.
Proof. unfold vpc_prefix_conflict. rewrite overlap_comm. f_equal. by apply bool_decide_ext. Qed.
Lemma network_prefix_conflict_comm a b : network_prefix_conflict a b = network_prefix_conflict b a.
Proof. unfold network_prefix_conflict. rewrite overlap_comm. f_equal. by apply bool_decide_ext. Qed.

(** The columns of a VPC prefix the constraints are about. *)
Definition placed (r : vpc_prefix_row) : option string * string * option string * IpNetwork :=
  (site_prefix_id r, vpc_id r, overlap_vpc_id r, vp_prefix r).

Lemma placed_lookup (m m' : gmap string vpc_prefix_row) :
  placed <$> m' = placed <$> m -> forall id r, m' !! id = Some r -> exists q, m !! id = Some q /\ placed q = placed r.
Proof.
  intros Hp id r Hr. apply (f_equal (fun m => m !! id)) in Hp. rewrite !lookup_fmap, Hr in Hp. simpl in Hp.
  destruct (m !! id) as [q|]; [|done]. apply (inj Some) in Hp. eauto.
Qed.

Lemma whole_same d d' :
  placed <$> vpc_prefixes d' = placed <$> vpc_prefixes d ->
  (forall v, is_Some (vpcs d !! v) -> is_Some (vpcs d' !! v)) ->
  (forall s, is_Some (segments d !! s) -> is_Some (segments d' !! s)) ->
  network_prefixes d' = network_prefixes d -> whole d -> whole d'.
Proof.
  intros Hp Hv Hs Hn [H1 H2 H3 H4 H5].
  pose proof (placed_lookup _ _ Hp) as Hr. pose proof (placed_lookup _ _ (eq_sym Hp)) as Hq.
  split; rewrite ?Hn; [..|done].
  - intros id r (q & Hq' & [= E1 E2 E3 E4])%Hr. apply H1 in Hq'. revert Hq'. unfold overlap_scope_check.
    by rewrite E1, E2, E3, E4.
  - intros id r (q & Hq' & [= E1 E2 E3 E4])%Hr. apply H2 in Hq'. rewrite <- E2. auto.
  - intros id j r q (r' & Hr' & [= _ _ E3 E4])%Hr (q' & Hq' & [= _ _ F3 F4])%Hr Hne.
    pose proof (H3 id j r' q' Hr' Hq' Hne) as Hc. unfold vpc_prefix_conflict in *. by rewrite <- E3, <- E4, <- F3, <- F4.
  - intros n [Hseg Hpar]%H4. split; [by apply Hs|]. destruct (np_parent n) as [[id p]|]; [|done].
    destruct Hpar as (r & (r' & Hr' & [= E1 E2 E3 E4])%Hq & <- & Hc & Ho). exists r'. split_and!; try done.
    by rewrite E3.
Qed.

(** A row written back with the same placement. *)
Lemma placed_insert (m : gmap string vpc_prefix_row) id r r' :
  m !! id = Some r -> placed r' = placed r -> placed <$> <[id := r']> m = placed <$> m.
Proof. intros Hr E. rewrite fmap_insert, E. apply insert_id. by rewrite lookup_fmap, Hr. Qed.

Lemma insert_vpc_prefix_ok id r d d' :
  insert_vpc_prefix id r d = Ok d' ->
  overlap_scope_check r = true /\ vpc_prefixes d !! id = None /\ is_Some (vpcs d !! vpc_id r) /\
  (forall j q, vpc_prefixes d !! j = Some q -> vpc_prefix_conflict q r = false) /\
  d' = set_vpc_prefixes (<[id := r]>) d.
Proof.
  unfold insert_vpc_prefix. destruct (overlap_scope_check r) eqn:E1; [|done]. simpl.
  case_bool_decide as E2; [done|]. destruct (existsb _ _) eqn:E3; [done|].
  case_bool_decide as E4; [|done]. simpl. destruct (negb _); [done|]. intros [= <-].
  split_and!; [done|by apply eq_None_not_Some|done| |done]. intros j q Hq. apply not_true_iff_false. intros Hc.
  apply not_true_iff_false in E3. apply E3, existsb_exists. exists (j, q).
  split; [|done]. by apply list_elem_of_In, elem_of_map_to_list.
Qed.

Lemma whole_insert_vpc_prefix id r d d' : insert_vpc_prefix id r d = Ok d' -> whole d -> whole d'.
Proof.
  intros (Hs & Hf & Hv & Hc & ->)%insert_vpc_prefix_ok [H1 H2 H3 H4 H5]. split; simpl; [..|done].
  - intros j q [[<- <-]|[_ Hq]]%lookup_insert_Some; eauto.
  - intros j q [[<- <-]|[_ Hq]]%lookup_insert_Some; eauto.
  - intros i j x y [[<- <-]|[_ Hx]]%lookup_insert_Some [[<- <-]|[_ Hy]]%lookup_insert_Some Hne; [done|..|eauto].
    + rewrite vpc_prefix_conflict_comm. eauto.
    + eauto.
  - intros n [Hseg Hpar]%H4. split; [done|]. simpl. destruct (np_parent n) as [[j p]|]; [|done].
    destruct Hpar as (q & Hq & H). exists q. split; [|done]. rewrite lookup_insert_ne; congruence.
Qed.

Lemma increment_vpc_version_ok clock d id v d' :
  increment_vpc_version clock d id v = Ok d' ->
  exists r, is_Some (vpcs d !! id) /\ d' = set_vpcs (<[id := r]>) d.
Proof.
  unfold increment_vpc_version. destruct (vpcs d !! id) eqn:E; [|done]. destruct (_ && _); [|done].
  intros [= <-]. eauto.
Qed.

Lemma whole_increment clock d id v d' : increment_vpc_version clock d id v = Ok d' -> whole d -> whole d'.
Proof.
  intros (r & _ & ->)%increment_vpc_version_ok. apply whole_same; try done.
  intros j Hj. apply lookup_insert_is_Some'. by right.
Qed.

Lemma whole_persist now clock n v d d' : persist now clock n v d = Ok d' -> whole d -> whole d'.
Proof.
  unfold persist. intros (d1 & H1 & H2)%bind_ok Hw. apply (whole_increment _ _ _ _ _ H2).
  destruct (insert_vpc_prefix _ _ d) as [d0|e] eqn:E; [|done]. injection H1 as <-.
  apply (whole_same d0); [done..|]. by apply whole_insert_vpc_prefix in E.
Qed.

Lemma whole_mark now clock id v d d' : mark_as_deleted now clock id v d = Ok d' -> whole d -> whole d'.
Proof.
  unfold mark_as_deleted. destruct (vpc_prefixes d !! id) as [r|] eqn:E; [|done].
  destruct (is_marked_as_deleted r); [done|]. intros H Hw. apply (whole_increment _ _ _ _ _ H).
  apply (whole_same d); try done. by apply placed_insert with r.
Qed.

Lemma count_network_prefixes_zero d id :
  (0 <? count_network_prefixes_by_vpc_prefix_id d id)%nat = existsb (refers_to id) (network_prefixes d).
Proof.
  unfold count_network_prefixes_by_vpc_prefix_id. generalize (network_prefixes d). intros l.
  induction l as [|n l IH]; [done|]. rewrite filter_cons. simpl. case_decide as Hn.
  - by rewrite Hn.
  - apply not_true_iff_false in Hn. by rewrite Hn.
Qed.

Lemma final_delete_iff id d d' :
  final_delete id d = Ok d' <->
  is_Some (vpc_prefixes d !! id) /\ existsb (refers_to id) (network_prefixes d) = false /\
  d' = set_vpc_prefixes (delete id) d.
Proof.
  unfold final_delete. destruct (vpc_prefixes d !! id) as [r|]; [|split; [done|by intros [[? ?] _]]].
  destruct (existsb _ _); split; [done|naive_solver|intros [= <-]; eauto|naive_solver].
Qed.

Lemma whole_final_delete id d d' : final_delete id d = Ok d' -> whole d -> whole d'.
Proof.
  intros (_ & Hn & ->)%final_delete_iff [H1 H2 H3 H4 H5]. split; simpl; [..|done].
  - intros j q [_ Hq]%lookup_delete_Some. eauto.
  - intros j q [_ Hq]%lookup_delete_Some. eauto.
  - intros i j x y [_ Hx]%lookup_delete_Some [_ Hy]%lookup_delete_Some. eauto.
  - intros n Hel. destruct (H4 n Hel) as [Hseg Hpar]. split; [done|]. destruct (np_parent n) as [[j p]|] eqn:En; [|done].
    destruct Hpar as (q & Hq & H). exists q. split; [|done]. simpl. rewrite lookup_delete_ne; [done|]. intros <-.
    apply not_true_iff_false in Hn. apply Hn, existsb_exists. exists n. rewrite <- list_elem_of_In.
    split; [done|]. unfold refers_to. rewrite En. apply String.eqb_refl.
Qed.

Lemma whole_try_update d id old new c d' w : try_update_controller_state d id old new c = (d', w) -> whole d -> whole d'.
Proof.
  unfold try_update_controller_state, StateTable.try_update. simpl.
  destruct (vpc_prefixes d !! id) as [r|] eqn:E; [|by intros [= <- <-]]. case_decide; [|by intros [= <- <-]].
  intros [= <- <-]. apply whole_same; try done. by apply placed_insert with r.
Qed.

Lemma whole_outcome d id o : whole d -> whole (update_controller_state_outcome d id o).
Proof.
  apply whole_same; try done. simpl. apply map_eq. intros j. rewrite !lookup_fmap.
  destruct (decide (j = id)) as [->|]; [|by rewrite lookup_alter_ne].
  rewrite lookup_alter_eq. by destruct (vpc_prefixes d !! id).
Qed.

Lemma lock_for_allocation_row d id r : lock_for_allocation d id = Some r -> vpc_prefixes d !! id = Some r /\ deleted r = None.
Proof.
  unfold lock_for_allocation. destruct (vpc_prefixes d !! id) as [q|]; [|done]. simpl.
  unfold is_marked_as_deleted. destruct (deleted q) eqn:E; [done|]. intros [= <-]. done.
Qed.

Lemma whole_last_used id n d d' : update_last_used_prefix id n d = Ok d' -> whole d -> whole d'.
Proof.
  unfold update_last_used_prefix. destruct (lock_for_allocation d id) as [r|] eqn:E; [|done].
  apply lock_for_allocation_row in E as [E _]. intros [= <-]. apply whole_same; try done.
  by apply placed_insert with r.
Qed.

(** ** Network prefixes stay whole *)

Lemma insert_network_prefix_iff n d d' :
  insert_network_prefix n d = Ok d' <->
  gateway_within_network n = true /\ within_vpc_prefix n = true /\ no_gateway_on_ipv6 n = true /\
  (forall m, m ∈ network_prefixes d -> network_prefix_conflict m n = false) /\
  d' = set_network_prefixes (fun l => l ++ [n]) d.
Proof.
  unfold insert_network_prefix. destruct (gateway_within_network n); simpl; [|naive_solver].
  destruct (within_vpc_prefix n); simpl; [|naive_solver]. destruct (no_gateway_on_ipv6 n); simpl; [|naive_solver].
  destruct (existsb _ _) eqn:E; split; [done| |intros [= <-]|naive_solver].
  - apply existsb_exists in E as (m & Hm%list_elem_of_In & Hc). intros (_ & _ & _ & H & _). apply H in Hm. congruence.
  - split_and!; try done. intros m Hm. apply not_true_iff_false. intros Hc. apply not_true_iff_false in E.
    apply E, existsb_exists. exists m. by rewrite <- list_elem_of_In.
Qed.

Lemma whole_insert_network n d d' :
  insert_network_prefix n d = Ok d' -> child_ok d n -> whole d -> whole d'.
Proof.
  intros (_ & _ & _ & Hc & ->)%insert_network_prefix_iff Hn [H1 H2 H3 H4 H5]. split; simpl; try done.
  - intros m [Hm| ->%list_elem_of_singleton]%elem_of_app; [by apply H4|done].
  - intros i j x y [Hx|[Hi Hx]]%lookup_app_Some [Hy|[Hj Hy]]%lookup_app_Some Hne.
    + eauto.
    + apply list_lookup_singleton_Some in Hy as [_ <-]. apply Hc. by apply list_elem_of_lookup_2 in Hx.
    + apply list_lookup_singleton_Some in Hx as [_ <-]. rewrite network_prefix_conflict_comm.
      apply Hc. by apply list_elem_of_lookup_2 in Hy.
    + apply list_lookup_singleton_Some in Hx as [? _], Hy as [? _]. lia.
Qed.

Lemma whole_create_one seg vp d p d' : create_one seg vp d p = Ok d' -> whole d -> whole d'.
Proof.
  unfold create_one. destruct (segments d !! seg) as [s|] eqn:Es; [|done]. destruct vp as [id|].
  - destruct (vpc_prefixes d !! id) as [r|] eqn:Er; [|done]. intros H. apply (whole_insert_network _ _ _ H).
    apply insert_network_prefix_iff in H as (_ & Hin & _). split; [by eexists|]. simpl. exists r.
    split_and!; try done. unfold inherited_scope. destruct (_ && _); auto.
  - intros H. apply (whole_insert_network _ _ _ H). split; [by eexists|]. done.
Qed.

Lemma whole_create_for seg vp ps : forall d d', create_for seg ps vp d = Ok d' -> whole d -> whole d'.
Proof.
  induction ps as [|p ps IH]; simpl; intros d d'; [by intros [= <-]|].
  intros (d1 & H1 & H2)%bind_ok Hw. apply (IH _ _ H2), (whole_create_one _ _ _ _ _ H1 Hw).
Qed.

Lemma whole_persist_segment id s d d' : persist_segment id s d = Ok d' -> whole d -> whole d'.
Proof.
  unfold persist_segment. case_bool_decide; [done|]. destruct (negb _); [done|]. intros [= <-].
  apply whole_same; try done. intros j Hj. apply lookup_insert_is_Some'. by right.
Qed.

Lemma whole_delete_for_segment id d : whole d -> whole (delete_for_segment id d).
Proof.
  intros [H1 H2 H3 H4 H5]. split; simpl; try done.
  - intros n [_ Hn]%list_elem_of_filter. by apply H4.
  - intros i j n m Hn Hm Hne.
    destruct (sublist_pair _ (network_prefixes d) i j n m (sublist_filter _ _) Hn Hm Hne) as (i' & j' & ? & ? & ?).
    eauto.
Qed.

Lemma whole_set_vpc_prefix place id p d d' : set_vpc_prefix place id p d = Ok d' -> whole d -> whole d'.
Proof.
  unfold set_vpc_prefix. destruct (network_prefixes d !! place) as [n|] eqn:En; [|done].
  destruct (within_vpc_prefix _) eqn:Ew; [|done]. simpl. destruct (vpc_prefixes d !! id) as [r|] eqn:Er; [|done].
  case_bool_decide as Hp; [done|]. case_bool_decide as Hs; [done|]. intros [= <-] [H1 H2 H3 H4 H5].
  split; simpl; try done.
  - intros m [j Hm]%list_elem_of_lookup. apply list_lookup_insert_Some in Hm as [(-> & <- & _)|[_ Hm]].
    + destruct (H4 n (list_elem_of_lookup_2 _ _ _ En)) as [Hseg _]. split; [done|]. exists r.
      split_and!; [done|done|done|]. simpl.
      destruct (decide (np_overlap_vpc_id n = None)); [by left|]. right. apply dec_stable. tauto.
    + by apply H4, (list_elem_of_lookup_2 _ j).
  - assert (Hk : forall j m, <[place := with_parent id (to_cidr p) n]> (network_prefixes d) !! j = Some m ->
      exists m', network_prefixes d !! j = Some m' /\ np_prefix m' = np_prefix m /\
        np_overlap_vpc_id m' = np_overlap_vpc_id m).
    { intros j m [(-> & <- & _)|[_ Hm]]%list_lookup_insert_Some; eauto. }
    intros i j x y (x' & Hx & Ex & Ox)%Hk (y' & Hy & Ey & Oy)%Hk Hne. pose proof (H5 i j x' y' Hx Hy Hne) as Hc.
    unfold network_prefix_conflict in *. by rewrite <- Ex, <- Ox, <- Ey, <- Oy.
Qed.

(** ** Every statement *)

Inductive statement : db -> db -> Prop :=
| st_persist now clock n v d d' : persist now clock n v d = Ok d' -> statement d d'
| st_mark now clock id v d d' : mark_as_deleted now clock id v d = Ok d' -> statement d d'
| st_final_delete id d d' : final_delete id d = Ok d' -> statement d d'
| st_try_update id old new c d d' w : try_update_controller_state d id old new c = (d', w) -> statement d d'
| st_outcome id o d : statement d (update_controller_state_outcome d id o)
| st_history id v c d : statement d (StateTable.persist_history d id v c)
| st_last_used id n d d' : update_last_used_prefix id n d = Ok d' -> statement d d'
| st_create seg ps vp d d' : create_for seg ps vp d = Ok d' -> statement d d'
| st_adopt place id p d d' : set_vpc_prefix place id p d = Ok d' -> statement d d'
| st_segment id s d d' : persist_segment id s d = Ok d' -> statement d d'
| st_delete_for id d : statement d (delete_for_segment id d).

Lemma statement_whole d d' : statement d d' -> whole d -> whole d'.
Proof.
  destruct 1; eauto using whole_persist, whole_mark, whole_final_delete, whole_try_update, whole_outcome,
    whole_last_used, whole_create_for, whole_set_vpc_prefix, whole_persist_segment, whole_delete_for_segment.
  by apply whole_same.
Qed.

Lemma statements_whole d d' : rtc statement d d' -> whole d -> whole d'.
Proof. induction 1; eauto using statement_whole. Qed.

(** The tables before any prefix is made. *)
Definition start (vs : gmap string vpc_row) (sites : gset string) : db := mk_db vs sites ∅ ∅ [] ∅.

Lemma start_whole vs sites : whole (start vs sites).
Proof. split; simpl; try done. intros n ?%elem_of_nil. done. Qed.

(** ** What the handler leaves in its transaction *)

Section Controller.
Context {chrono : Chrono} (drain_period : Z).

Lemma prefix_drain_ok fault now s delete_at d o :
  drain drain_period fault now s delete_at d = Ok o ->
  fault PBegin = false /\ fault PCount = false /\ (take_transaction o).1 = Some d /\
  (take_transaction o).2 =
    (if existsb (refers_to (snap_id s)) (network_prefixes d) then transition (drain_state drain_period now)
     else if delete_at <=? now then transition (Deleting DBDelete)
     else wait ("Cannot delete VPC prefix from database until draining completes at " +:+ to_rfc3339 delete_at)).
Proof.
  unfold drain, reaches. destruct (fault PBegin); [done|]. destruct (fault PCount); [done|]. simpl.
  rewrite count_network_prefixes_zero. destruct (existsb _ _); [by intros [= <-]|]. by destruct (_ <=? _); intros [= <-].
Qed.

(** Every transaction of the handler is its database, or that without the prefix. *)
Lemma prefix_handler_txn fault now id s c d o t :
  h_out (handle_object_state drain_period fault now id s c d) = Ok o -> (take_transaction o).1 = Some t ->
  t = d \/ final_delete id d = Ok t.
Proof.
  simpl. destruct c as [| |[delete_at|]].
  - intros [= <-]. done.
  - destruct (is_marked_as_deleted (row s)); intros [= <-]; done.
  - intros (_ & _ & Ht & _)%prefix_drain_ok Ht'. left. congruence.
  - intros (_ & _ & (_ & _ & (d' & Hd & [= <-])%bind_ok)%bind_ok)%bind_ok [= <-]. right.
    by destruct (final_delete id d); simplify_eq/=.
Qed.

Lemma vpc_prefix_handler_frame fault now : handler_frame (handle_object_state drain_period fault now).
Proof.
  intros id s c d h. split_and!; [done| |constructor]. intros o t Ho Ht.
  destruct (prefix_handler_txn _ _ _ _ _ _ _ _ Ho Ht) as [->|(_ & _ & ->)%final_delete_iff]; [done|].
  intros j. split; [done|]. simpl. unfold StateTable.state_of. simpl. destruct (decide (j = id)) as [->|].
  - right. by rewrite lookup_delete_eq.
  - left. by rewrite lookup_delete_ne.
Qed.

(** ** Safety *)

(** What happens to the tables: statements of any transaction, and attempts of the
    controller, in which any call can fail and other transactions commit at
    every await. *)
Inductive activity : db -> db -> Prop :=
| act_statement d d' : statement d d' -> activity d d'
| act_attempt fault ev others id late now clock d :
    (forall p d, rtc statement d (others p d)) ->
    activity d (p_db (process_object (handle_object_state drain_period fault now) ev others id late now clock d)).

Lemma vpc_prefix_handler_keeps fault now : handler_keeps whole (handle_object_state drain_period fault now).
Proof.
  intros id s c d h. split_and!; [done| |constructor]. intros o t Ho Ht Hd.
  destruct (prefix_handler_txn _ _ _ _ _ _ _ _ Ho Ht) as [->|H]; [done|]. by apply (whole_final_delete _ _ _ H).
Qed.

Lemma activity_whole d d' : activity d d' -> whole d -> whole d'.
Proof.
  intros [d0 d1 Hs|fault ev others id late now clock d0 Ho] Hw; [by apply (statement_whole _ _ Hs)|].
  apply process_object_preserves; [..|apply vpc_prefix_handler_keeps| |done].
  - intros d1 j old new c d2 w [= E]. by apply (whole_try_update _ _ _ _ _ _ _ E).
  - intros d1 j v c d2 [= <-]. by apply whole_same.
  - intros d1 j o d2 [= <-]. apply whole_outcome.
  - intros p d1. apply statements_whole, Ho.
Qed.

Lemma reachable_whole vs sites d : rtc activity (start vs sites) d -> whole d.
Proof.
  intros H. assert (Hw := start_whole vs sites). revert Hw. induction H; eauto using activity_whole.
Qed.

Lemma contained_eq_subnet n m : contained_eq n m = true -> subnet n m.
Proof.
  unfold contained_eq. intros [H1%Z.leb_le H2%contains_covers]%andb_true_iff. by apply PrefixAllocator.network_in_subnet.
Qed.

(** ** Draining *)

Record call_args := mk_call {
  c_fault : point -> bool;
  c_now : Z;
  c_id : string;
  c_snapshot : snapshot;
  c_db : db
}.
Definition saw_use (x : call_args) (c : VpcPrefixControllerState) : option bool :=
  match c with
  | Deleting (DrainNetworkPrefixes _) =>
      if c_fault x PBegin || c_fault x PCount then None
      else Some (existsb (refers_to (snap_id (c_snapshot x))) (network_prefixes (c_db x)))
  | _ => None
  end.
Definition state_after (x : call_args) (c : VpcPrefixControllerState) : VpcPrefixControllerState :=
  match h_out (handle_object_state drain_period (c_fault x) (c_now x) (c_id x) (c_snapshot x) c (c_db x)) with
  | Ok o => match (take_transaction o).2 with Transition n _ => n | _ => c end
  | Err _ => c
  end.

(** The handler follows the protocol of [Drain]. *)
Definition phase_of (c : VpcPrefixControllerState) : Drain.phase :=
  match c with
  | Provisioning | Ready => Drain.Active
  | Deleting (DrainNetworkPrefixes delete_at) => Drain.Draining delete_at
  | Deleting DBDelete => Drain.Removing
  end.

(** The attempts on one VPC prefix and its state after them. *)
Definition visits : list Drain.visit -> VpcPrefixControllerState -> Prop :=
  Drain.runs phase_of c_now (fun x => is_marked_as_deleted (row (c_snapshot x))) saw_use state_after.

Lemma prefix_handler_refines_drain x c :
  phase_of (state_after x c) =
  Drain.next drain_period (c_now x) (is_marked_as_deleted (row (c_snapshot x))) (saw_use x c) (phase_of c).
Proof.
  destruct x as [fault now id s d]. unfold state_after, saw_use. simpl. destruct c as [| |[delete_at|]]; simpl.
  - by destruct (is_marked_as_deleted (row s)).
  - by destruct (is_marked_as_deleted (row s)).
  - destruct (drain _ _ _ _ _ _) as [o|e] eqn:E.
    + apply prefix_drain_ok in E as (-> & -> & _ & ->). simpl. destruct (existsb _ _); [done|].
      by destruct (Z.leb_spec delete_at now).
    + unfold drain, reaches in E. destruct (fault PBegin); [done|]. destruct (fault PCount); [done|]. simpl in E.
      destruct (_ <? _)%nat; [done|]. by destruct (_ <=? _).
  - destruct (_ ← reaches _ _; _) as [o|] eqn:E; [|done].
    by apply bind_ok in E as (_ & _ & (_ & _ & (d' & _ & [= <-])%bind_ok)%bind_ok).
Qed.

(** A VPC prefix drains before it is deleted. Whenever it has reached the final
    deletion state, some attempt found no network prefix in it, not before the
    deadline set by an earlier attempt that noticed the deletion mark or saw one,
    and no attempt in between saw one. *)
Theorem vpc_prefix_drained_before_delete l :
  visits l (Deleting DBDelete) ->
  exists later t1 mid t0 s0 rest,
    l = later ++ Drain.mk_visit t1 Drain.Unused :: mid ++ Drain.mk_visit t0 s0 :: rest /\
    (s0 = Drain.Noticed \/ s0 = Drain.Used) /\
    Drain.drain_deadline drain_period t0 <= t1 /\ Forall (fun v => Drain.saw v <> Drain.Used) mid.
Proof.
  intros H. apply (Drain.runs_drained drain_period) in H
    as (later & t1 & before & t0 & -> & Ht & mid & s0 & rest & -> & Hs & Hm).
  - by exists later, t1, mid, t0, s0, rest.
  - intros x c. left. apply prefix_handler_refines_drain.
  - done.
Qed.

(** ** Deletion completes *)

Definition no_fault (p : point) : bool := false.

(** An attempt in which nothing fails and nobody interferes. *)
Definition attempt (now clock : Z) (id : string) (d : db) : db :=
  StateTable.attempt (handle_object_state drain_period no_fault now) now clock id d.

(** The VPC prefix [id] is in state [c], marked as deleted as [del] says, and
    nothing refers to it. *)
Definition idle_in (id : string) (del : option Z) (c : VpcPrefixControllerState) (d : db) : Prop :=
  exists r, vpc_prefixes d !! id = Some r /\ deleted r = del /\ value (controller_state r) = c /\
    is_Some (vpcs d !! vpc_id r) /\ existsb (refers_to id) (network_prefixes d) = false.

Lemma load_ok d id r :
  vpc_prefixes d !! id = Some r -> is_Some (vpcs d !! vpc_id r) ->
  exists st, load_object_state d id = Ok (Some (mk_snapshot id r st)).
Proof.
  intros Hr [v Hv]. simpl. unfold load_vpc_prefix, load_stats. rewrite Hr, Hv. simpl. eauto.
Qed.

Lemma prefix_attempt_moves now clock id del d c n :
  idle_in id del c d ->
  (forall s, snap_id s = id -> deleted (row s) = del -> exists o,
     h_out (handle_object_state drain_period no_fault now id s c d) = Ok o /\
     (take_transaction o = (None, transition n) \/ take_transaction o = (Some d, transition n))) ->
  idle_in id del n (attempt now clock id d).
Proof.
  intros (r & Hr & Hdel & Hc & Hv & Hn) Hh. destruct (load_ok d id r Hr Hv) as [st Hl].
  destruct (Hh (mk_snapshot id r st) eq_refl Hdel) as (o & Ho & Ht). unfold attempt.
  rewrite (StateTable.attempt_moves _ now clock id d (mk_snapshot id r st) r n o); [|done..| |done].
  - eexists. split; [exact (StateTable.moved_to_row id n _ r d)|]. done.
  - simpl. rewrite Hc. unfold handle_object_state in *. simpl in *. by rewrite Ho.
Qed.

Lemma prefix_attempt_deletes now clock id del d :
  idle_in id del (Deleting DBDelete) d -> attempt now clock id d = set_vpc_prefixes (delete id) d.
Proof.
  intros (r & Hr & _ & Hc & Hv & Hn). destruct (load_ok d id r Hr Hv) as [st Hl].
  apply (StateTable.attempt_deletes _ now clock id d (mk_snapshot id r st) (controller_state r)); [done..|].
  rewrite Hc. unfold handle_object_state, reaches, no_fault. cbn [mbind result_bind].
  destruct (final_delete id d) as [d'|e] eqn:E.
  - apply final_delete_iff in E as (_ & _ & ->). done.
  - unfold final_delete in E. by rewrite Hr, Hn in E.
Qed.

(** Deletion completes. A VPC prefix that is marked as deleted and has no
    network prefix is gone after three undisturbed attempts, the second of them
    after the drain period, whether it was ready or still provisioning. *)
Theorem marked_vpc_prefix_is_deleted id del d c t1 t2 t3 c1 c2 c3 :
  idle_in id (Some del) c d -> c = Provisioning \/ c = Ready -> Drain.drain_deadline drain_period t1 <= t2 ->
  vpc_prefixes (attempt t3 c3 id (attempt t2 c2 id (attempt t1 c1 id d))) !! id = None.
Proof.
  intros Hi Hc Ht%Z.leb_le.
  assert (H1 : idle_in id (Some del) (drain_state drain_period t1) (attempt t1 c1 id d)).
  { eapply prefix_attempt_moves; [exact Hi|]. intros s _ Hdel. exists (transition (drain_state drain_period t1)).
    split; [|by left]. destruct Hc as [->| ->]; simpl; unfold is_marked_as_deleted; by rewrite Hdel. }
  assert (H2 : idle_in id (Some del) (Deleting DBDelete) (attempt t2 c2 id (attempt t1 c1 id d))).
  { eapply prefix_attempt_moves; [exact H1|]. intros s Hs _.
    exists (Transition (Deleting DBDelete) (Some (attempt t1 c1 id d))). split; [|by right]. simpl.
    destruct H1 as (_ & _ & _ & _ & _ & Hn). unfold drain. simpl. rewrite count_network_prefixes_zero, Hs, Hn, Ht. done. }
  rewrite (prefix_attempt_deletes t3 c3 id _ _ H2). apply lookup_delete_eq.
Qed.
End Controller.
End VpcPrefixes.
End VpcPrefix.

(** ** Witnesses *)

Module VpcPrefixExample.
Import VpcPrefix.
#[local] Existing Instances ipnetwork_reference chrono_reference.

Definition v1 : ConfigVersion.t := ConfigVersion.mk 1 0.
Definition base_address : Z := 10 * 2 ^ 24.
Definition block24 : IpNetwork := exist _ (V4 base_address, 24) eq_refl.
Definition link0 : IpNetwork := exist _ (V4 base_address, 31) eq_refl.
Definition link1 : IpNetwork := exist _ (V4 (base_address + 2), 31) eq_refl.
Definition no_show (n : IpNetwork) : string := "".
Definition vpc : vpc_row := mk_vpc v1 false "tenant" Fnn false.
Definition empty : db := start {[ "vpc" := vpc ]} ∅.
Definition hour : Z := secs 3600.

Definition got (m : result DatabaseError db) : db := match m with Ok d => d | Err _ => empty end.
Lemma got_ok m : is_ok m = true -> m = Ok (got m).
Proof. by destruct m. Qed.

(** A prefix of the VPC, a segment, and two link networks of the segment in it. *)
Definition make_prefix : result DatabaseError db :=
  persist no_show 0 1 (mk_new "p" None "vpc" None block24) v1 empty.
Definition make_segment : result DatabaseError db :=
  persist_segment "s" (mk_segment (Some "vpc") NetworkSegment.Tenant (Some false)) (got make_prefix).
Definition make_links : result DatabaseError db :=
  create_for "s" [mk_new_network_prefix link0 (Some (V4 base_address)) 0;
                  mk_new_network_prefix link1 (Some (V4 (base_address + 2))) 0] (Some "p") (got make_segment).
Definition with_links : db := got make_links.

Lemma make_ok : is_ok make_prefix = true /\ is_ok make_segment = true /\ is_ok make_links = true.
Proof. vm_compute. done. Qed.

Lemma links_reachable : rtc (activity no_show show_Z show_Z hour) empty with_links.
Proof.
  destruct make_ok as (H1%got_ok & H2%got_ok & H3%got_ok).
  apply (rtc_l _ _ (got make_prefix)); [apply act_statement; exact (st_persist _ _ _ _ _ _ _ H1)|].
  apply (rtc_l _ _ (got make_segment)); [apply act_statement; exact (st_segment _ _ _ _ _ H2)|].
  apply rtc_once, act_statement. exact (st_create _ _ _ _ _ _ H3).
Qed.

Definition ready_row (del : option Z) (c : VpcPrefixControllerState) : vpc_prefix_row :=
  mk_row None "vpc" None block24 None del (versioned_new c v1) None.
Definition one_prefix (del : option Z) (c : VpcPrefixControllerState) : db :=
  mk_db {[ "vpc" := vpc ]} ∅ ∅ {[ "p" := ready_row del c ]} [] ∅.

Lemma marked_vpc_prefix_is_deleted_witness :
  vpc_prefixes (attempt show_Z show_Z hour (hour + 20) 3 "p" (attempt show_Z show_Z hour (hour + 10) 2 "p"
    (attempt show_Z show_Z hour 0 1 "p" (one_prefix (Some 5) Provisioning)))) !! "p" = None.
Proof.
  apply (marked_vpc_prefix_is_deleted show_Z show_Z hour "p" 5 (one_prefix (Some 5) Provisioning) Provisioning).
  - exists (ready_row (Some 5) Provisioning). split_and!; try reflexivity. by exists vpc.
  - by left.
  - vm_compute. done.
Defined.

Lemma prefix_visits_next l c x v c' :
  visits show_Z hour l c -> state_after show_Z hour x c = c' ->
  Drain.sight_of (is_marked_as_deleted (row (c_snapshot x))) (saw_use x c) (phase_of c) (phase_of c') = v ->
  visits show_Z hour (Drain.mk_visit (c_now x) v :: l) c'.
Proof. intros H <- <-. exact (Drain.runs_committed _ _ _ _ _ l c x H). Qed.

(** Noticed at 0, still used at 10, unused when the hour after that has passed. *)
Lemma vpc_prefix_drained_before_delete_witness :
  let l := [Drain.mk_visit (hour + 20) Drain.Unused; Drain.mk_visit 15 Drain.Nothing; Drain.mk_visit 10 Drain.Used;
            Drain.mk_visit 0 Drain.Noticed] in
  exists later t1 mid t0 s0 rest,
    l = later ++ Drain.mk_visit t1 Drain.Unused :: mid ++ Drain.mk_visit t0 s0 :: rest /\
    (s0 = Drain.Noticed \/ s0 = Drain.Used) /\
    Drain.drain_deadline hour t0 <= t1 /\ Forall (fun v => Drain.saw v <> Drain.Used) mid.
Proof.
  set (s := mk_snapshot "p" (ready_row (Some 5) Ready) (PrefixAllocator.mk_stats 0 0 0 0)).
  apply (vpc_prefix_drained_before_delete show_Z hour).
  apply (prefix_visits_next _ (Deleting (DrainNetworkPrefixes (Drain.drain_deadline hour 10)))
           (mk_call no_fault (hour + 20) "p" s (one_prefix None Ready))); [|vm_compute; reflexivity|vm_compute; reflexivity].
  apply Drain.runs_lost.
  apply (prefix_visits_next _ (Deleting (DrainNetworkPrefixes (Drain.drain_deadline hour 0)))
           (mk_call no_fault 10 "p" s with_links)); [|vm_compute; reflexivity|vm_compute; reflexivity].
  apply (prefix_visits_next _ Ready (mk_call no_fault 0 "p" s (one_prefix None Ready)));
    [|vm_compute; reflexivity|vm_compute; reflexivity].
  by apply Drain.runs_new.
Defined.

End VpcPrefixExample.
