(* ===== verification/PrefixAllocation.v ===== *)
(** * PrefixAllocation: network prefixes for the interfaces of instances

    The allocation of crates/api-core/src/instance/mod.rs ([allocate_networks] and
    what it calls): a batch of instances is planned as work items, and the items
    are executed group by group, in one transaction that locks VPC prefixes in
    ascending order. The database is the one of [VpcPrefix]. What other
    transactions commit between the read and the writes of an attempt is the
    parameter [race], and the ids of new segments are [fresh]; both are given by
    the number of the call and of the attempt in it. Failures of the database
    connection are not modelled. *)

From S2P Require Import Prelude Text ConfigVersion StateHandler Processor StateTable IpNetwork.
From S2P Require Import PrefixAllocator BTree NetworkSegment VpcPrefix.
Import AddressFamily PrefixAllocator VpcPrefix.

(** IPv4 before IPv6, as the group keys are ordered. *)
#[export] Instance family_ord : Ord IpAddressFamily.
Proof.
  refine {| cmp f g := match f, g with Ipv4, Ipv6 => Lt | Ipv6, Ipv4 => Gt | _, _ => Eq end |}.
  - by intros [] [].
  - by intros [] [].
  - by intros [] [] [].
Defined.

Module PrefixAllocation.

(** ** Data *)

(** The error of a call, or its panic. [Diverged] is a loop that has not ended
    within the bound of the model. *)
Inductive failure := Failed (e : CarbideError) | Panicked | Diverged.

Inductive NetworkDetails := ByNetworkSegment (id : string) | ByVpcPrefixId (id : string).
Inductive InstanceInterfaceIpFamilyMode := Ipv4Only | Ipv6Only | DualStack.
#[export] Instance family_mode_eq_dec : EqDecision InstanceInterfaceIpFamilyMode.
Proof. solve_decision. Defined.
Record InstanceInterfaceVpcSelection := mk_selection {
  sel_vpc_id : string;
  family_mode : InstanceInterfaceIpFamilyMode
}.
Record Ipv6InterfaceConfig := mk_ipv6 {
  v6_vpc_prefix_id : string;
  v6_requested_ip_addr : option Z
}.

Inductive PrefixAllocationSlot := Primary | SecondaryIpv6.
#[export] Instance slot_eq_dec : EqDecision PrefixAllocationSlot.
Proof. solve_decision. Defined.
Inductive PrefixAllocationOperation := Create | Attach (segment : string).
Inductive CandidateAllocationOutcome := Allocated (network_segment_id : option string) | Exhausted | Deleted.
Inductive CandidateUnavailable := UnavailableExhausted | UnavailableDeleted.

Section Allocation.
Context {crate : IpNetworkCrate}.

(** The fields of [InstanceInterfaceConfig] that the allocation reads or writes. *)
Record InstanceInterfaceConfig := mk_interface {
  network_details : option NetworkDetails;
  vpc_selection : option InstanceInterfaceVpcSelection;
  network_segment_id : option string;
  if_vpc_id : option string;
  ip_addrs : gmap string IpAddr;
  requested_ip_addr : option IpAddr;
  ipv6_interface_config : option Ipv6InterfaceConfig;
  interface_prefixes : gmap string IpNetwork
}.

Record NetworkAllocationTarget := mk_target {
  interfaces : list InstanceInterfaceConfig;
  target_organization_id : string
}.

Record PrefixAllocationWork := mk_work {
  target_index : nat;
  interface_index : nat;
  w_vpc_id : string;
  family : IpAddressFamily;
  allocation_prefix_len : Z;
  candidates : list string;
  candidate_index : nat;
  slot : PrefixAllocationSlot;
  requested_prefix : option IpNetwork;
  automatic : bool
}.

Record PrefixAllocationContext := mk_context {
  explicit_prefixes : gmap string vpc_prefix_row;
  automatic_candidates : BTreeMap (string * IpAddressFamily) (list string);
  ctx_vpcs : gmap string vpc_row
}.

Definition fail {A} (e : CarbideError) : result failure A := Err (Failed e).
Definition ensure (b : bool) (e : CarbideError) : result failure unit := if b then Ok () else fail e.

(** [IpAddr::to_canonical]: an IPv4-mapped IPv6 address is the IPv4 address. *)
Definition to_canonical (a : IpAddr) : IpAddr :=
  match a with
  | V4 _ => a
  | V6 b => if b / 2 ^ 32 =? 65535 then V4 (b mod 2 ^ 32) else a
  end.

Definition build_requested_linknet_prefix (a : IpAddr) (linknet_prefix_len : Z) : result failure IpNetwork :=
  if Z.even (bits a) then fail InvalidConfiguration
  else ok_or (Failed InternalError) (net_new (to_canonical a) linknet_prefix_len).

(** [Option::map] of it, then [transpose]. *)
Definition build_requested (a : option IpAddr) (len : Z) : result failure (option IpNetwork) :=
  match a with
  | None => Ok None
  | Some a => Some <$> build_requested_linknet_prefix a len
  end.

Definition validate_vpc_prefix_allocation_capacity (r : vpc_prefix_row) (f : IpAddressFamily) (len : Z)
    : result failure unit :=
  ensure (vpc_prefix_can_allocate_interface_prefix f (prefix (vp_prefix r)) len) InvalidArgument.

Definition requested_families (mode : InstanceInterfaceIpFamilyMode) : list IpAddressFamily :=
  match mode with Ipv4Only => [Ipv4] | Ipv6Only => [Ipv6] | DualStack => [Ipv4; Ipv6] end.

Definition interface_needs_prefix_allocation (i : InstanceInterfaceConfig) : bool :=
  bool_decide (ip_addrs i = ∅) && bool_decide (interface_prefixes i = ∅).

(** The capabilities of crates/api-model/src/vpc/capability.rs. *)
Definition vpc_supports_family (t : VpcVirtualizationType) (f : IpAddressFamily) : bool :=
  match f, t with
  | Ipv4, _ => true
  | Ipv6, (Fnn | Flat) => true
  | Ipv6, (EthernetVirtualizer | EthernetVirtualizerWithNvue) => false
  end.

Definition is_overlap_constraint (constraint : string) : bool :=
  bool_decide (constraint ∈ ["network_prefixes_prefix_excl"; "network_prefixes_global_prefix_excl";
                             "network_prefixes_scoped_prefix_excl"]).

Definition is_network_prefix_overlap_conflict (e : failure) : bool :=
  match e with
  | Failed (DatabaseFailure (ConstraintViolation constraint _)) => is_overlap_constraint constraint
  | _ => false
  end.

(** ** One candidate *)

Definition db_call {A} (r : result DatabaseError A) : result failure A := map_err (fun e => Failed (DatabaseFailure e)) r.

(** [allocate_linknet_for_segment_with_prefix]. *)
Definition allocate_linknet_for_segment_with_prefix (a : PrefixAllocator.t) (segment : string) (n : IpNetwork)
    (d : db) : result failure db :=
  let gateway := if is_ipv4 (ip n) then Some (network n) else None in
  db_call (create_for segment [mk_new_network_prefix n gateway (generated_linknet_num_reserved n)]
             (Some (vpc_prefix_id a)) d).

(** [allocate_network_segment_for_prefix], with the new segment's id. *)
Definition allocate_network_segment_for_prefix (a : PrefixAllocator.t) (segment vpc : string) (n : IpNetwork)
    (d : db) : result failure db :=
  d ← db_call (persist_segment segment (mk_segment (Some vpc) NetworkSegment.Tenant (Some false)) d);
  allocate_linknet_for_segment_with_prefix a segment n d.

(** The prefix to allocate, or [None] when the candidate has no free one. *)
Definition select_prefix (a : PrefixAllocator.t) (requested : option IpNetwork) (d : db)
    : result failure (option IpNetwork) :=
  let used := find_allocation_occupancy d (vpc_prefix_id a) (vpc_prefix a) in
  match requested with
  | Some n => _ ← map_err Failed (validate_desired_prefix a used n); Ok (Some n)
  | None =>
      match next_free_prefix a used with
      | None => Err Panicked
      | Some (Ok n) => Ok (Some n)
      | Some (Err ResourceExhausted) => Ok None
      | Some (Err e) => fail e
      end
  end.

(** The writes of an operation. *)
Definition perform (a : PrefixAllocator.t) (operation : PrefixAllocationOperation) (segment vpc : string)
    (n : IpNetwork) (d : db) : result failure db :=
  match operation with
  | Create => allocate_network_segment_for_prefix a segment vpc n d
  | Attach s => allocate_linknet_for_segment_with_prefix a s n d
  end.

(** [race] is what others commit between the reads and the writes. *)
Definition allocate_prefix_candidate_once (race : db -> db) (segment : string) (vpc : string) (f : IpAddressFamily)
    (len : Z) (id : string) (operation : PrefixAllocationOperation) (requested : option IpNetwork) (d : db)
    : result failure (db * CandidateAllocationOutcome) :=
  match lock_for_allocation d id with
  | None => Ok (d, Deleted)
  | Some r =>
      _ ← ensure (String.eqb (vpc_id r) vpc && bool_decide (family_of (vp_prefix r) = f)) FailedPrecondition;
      a ← map_err Failed (PrefixAllocator.new id (vp_prefix r) (VpcPrefix.last_used_prefix r) len);
      n ← select_prefix a requested d;
      match n with
      | None => Ok (d, Exhausted)
      | Some n =>
          let d := race d in
          d ← perform a operation segment vpc n d;
          d ← db_call (update_last_used_prefix id n d);
          Ok (d, Allocated match operation with Create => Some segment | Attach _ => None end)
      end
  end.

Definition PREFIX_ALLOCATION_TOTAL_ATTEMPTS : nat := 2.

(** The loop of [attempt_prefix_candidate]: an unsuccessful attempt is rolled back,
    what others committed stays. *)
Fixpoint attempt_loop (attempts : nat) (race : nat -> db -> db) (fresh : nat -> string) (vpc : string)
    (f : IpAddressFamily) (len : Z) (id : string) (operation : PrefixAllocationOperation)
    (requested : option IpNetwork) (d : db) : db * result failure CandidateAllocationOutcome :=
  match attempts with
  | O => (d, fail UnavailableError)
  | S attempts =>
      match allocate_prefix_candidate_once (race attempts) (fresh attempts) vpc f len id operation requested d with
      | Ok (d', Allocated s) => (d', Ok (Allocated s))
      | Ok (_, o) => (d, Ok o)
      | Err e =>
          if is_network_prefix_overlap_conflict e
          then attempt_loop attempts race fresh vpc f len id operation requested (race attempts d)
          else (race attempts d, Err e)
      end
  end.

Definition attempt_prefix_candidate := attempt_loop PREFIX_ALLOCATION_TOTAL_ATTEMPTS.

(** ** Planning *)

Definition set_insert {K} `{Ord K} (k : K) (s : BTreeSet K) : BTreeSet K := BTree.insert k () s.
(** [entry(k).or_default().push(x)]. *)
Definition push_entry {K A} `{Ord K} (k : K) (x : A) (m : BTreeMap K (list A)) : BTreeMap K (list A) :=
  BTree.insert k (default [] (BTree.get k m) ++ [x]) m.

(** The three sets the first loop of [load_prefix_allocation_context] collects. *)
Record discovered := mk_discovered {
  explicit_prefix_ids : BTreeSet string;
  automatic_vpc_ids : BTreeSet string;
  automatic_candidate_vpc_ids : BTreeSet string
}.

Definition discover (s : discovered) (i : InstanceInterfaceConfig) : discovered :=
  match vpc_selection i with
  | Some selection =>
      mk_discovered (explicit_prefix_ids s) (set_insert (sel_vpc_id selection) (automatic_vpc_ids s))
        (if interface_needs_prefix_allocation i
         then set_insert (sel_vpc_id selection) (automatic_candidate_vpc_ids s)
         else automatic_candidate_vpc_ids s)
  | None =>
      let ids := explicit_prefix_ids s in
      let ids := match network_details i with Some (ByVpcPrefixId id) => set_insert id ids | _ => ids end in
      let ids := match ipv6_interface_config i with Some c => set_insert (v6_vpc_prefix_id c) ids | None => ids end in
      mk_discovered ids (automatic_vpc_ids s) (automatic_candidate_vpc_ids s)
  end.

Definition discover_all (targets : list NetworkAllocationTarget) : discovered :=
  fold_left (fun s t => fold_left discover (interfaces t) s) targets (mk_discovered [] [] []).

(** [db::vpc::find_by] with a list of ids, as the map the caller makes of it. *)
Definition find_vpcs (d : db) (ids : list string) : gmap string vpc_row :=
  filter (fun kv => kv.1 ∈ ids /\ vpc_deleted kv.2 = false) (vpcs d).

(** [db::vpc_prefix::find_allocation_candidates], in the order of (VPC, id). *)
Definition find_allocation_candidates (d : db) (vpc_ids : list string) : list (string * vpc_prefix_row) :=
  merge_sort (fun x y => cmp (vpc_id x.2, x.1) (vpc_id y.2, y.1) <> Gt)
    (filter (fun kr => vpc_id kr.2 ∈ vpc_ids /\ VpcPrefix.deleted kr.2 = None) (map_to_list (vpc_prefixes d))).

Fixpoint check_explicit (m : gmap string vpc_prefix_row) (ids : list string) : result failure unit :=
  match ids with
  | [] => Ok ()
  | id :: ids =>
      match m !! id with
      | None => fail FailedPrecondition
      | Some r => if is_marked_as_deleted r then fail InvalidArgument else check_explicit m ids
      end
  end.

(** One turn of the loop that freezes the candidates. *)
Definition freeze (vs : gmap string vpc_row) (m : BTreeMap (string * IpAddressFamily) (list string))
    (c : string * vpc_prefix_row) : BTreeMap (string * IpAddressFamily) (list string) :=
  match vs !! vpc_id c.2 with
  | None => m
  | Some v =>
      let f := family_of (vp_prefix c.2) in
      if vpc_prefix_can_allocate_interface_prefix f (prefix (vp_prefix c.2)) (instance_prefix_len f (slaac_enabled v))
      then push_entry (vpc_id c.2, f) c.1 m else m
  end.

(** The reads and checks after the discovery. *)
Definition load_context (s : discovered) (d : db) : result failure PrefixAllocationContext :=
  let explicit_ids := BTree.keys (explicit_prefix_ids s) in
  let automatic_ids := BTree.keys (automatic_vpc_ids s) in
  let explicit : gmap string vpc_prefix_row := list_to_map (get_for_allocation_by_ids d explicit_ids) in
  _ ← check_explicit explicit explicit_ids;
  let automatic := find_allocation_candidates d (BTree.keys (automatic_candidate_vpc_ids s)) in
  let vs := find_vpcs d (automatic_ids ++ (vpc_id <$> (map_to_list explicit).*2)) in
  _ ← ensure (forallb (fun v => bool_decide (is_Some (vs !! v))) automatic_ids) FailedPrecondition;
  _ ← ensure (forallb (fun r => bool_decide (is_Some (vs !! vpc_id r))) (map_to_list explicit).*2)
        FailedPrecondition;
  Ok (mk_context explicit (fold_left (freeze vs) automatic []) vs).

Definition load_prefix_allocation_context (targets : list NetworkAllocationTarget) (d : db)
    : result failure (option PrefixAllocationContext) :=
  let s := discover_all targets in
  match BTree.keys (explicit_prefix_ids s), BTree.keys (automatic_vpc_ids s) with
  | [], [] => Ok None
  | _, _ => Some <$> load_context s d
  end.

Section Plan.
Context (ctx : PrefixAllocationContext) (organization : string) (ti ii : nat) (i : InstanceInterfaceConfig).

(** What automatic selection does not accept. *)
Definition conflicts_with_automatic (mode : InstanceInterfaceIpFamilyMode) : bool :=
  bool_decide (is_Some (requested_ip_addr i))
  || match ipv6_interface_config i with Some c => bool_decide (is_Some (v6_requested_ip_addr c)) | None => false end
  || (bool_decide (network_details i = None) && bool_decide (is_Some (ipv6_interface_config i)))
  || (negb (bool_decide (mode = DualStack)) && bool_decide (is_Some (ipv6_interface_config i)))
  || match network_details i with Some (ByNetworkSegment _) => true | _ => false end.

Definition automatic_work (vpc : string) (v : vpc_row) (families : list IpAddressFamily) (f : IpAddressFamily)
    : result failure PrefixAllocationWork :=
  let cs := default [] (BTree.get (vpc, f) (automatic_candidates ctx)) in
  match cs with
  | [] => fail ResourceExhausted
  | _ =>
      Ok (mk_work ti ii vpc f (instance_prefix_len f (slaac_enabled v)) cs 0
            (if (length families =? 2)%nat && bool_decide (f = Ipv6) then SecondaryIpv6 else Primary) None true)
  end.

Definition plan_automatic (selection : InstanceInterfaceVpcSelection)
    : result failure (list PrefixAllocationWork) :=
  let vpc := sel_vpc_id selection in
  v ← ok_or (Failed InternalError) (ctx_vpcs ctx !! vpc);
  _ ← ensure (String.eqb (tenant_organization_id v) organization) FailedPrecondition;
  _ ← ensure (bool_decide (network_virtualization_type v = Fnn)) FailedPrecondition;
  let families := requested_families (family_mode selection) in
  _ ← ensure (forallb (vpc_supports_family (network_virtualization_type v)) families) FailedPrecondition;
  _ ← ensure (negb (conflicts_with_automatic (family_mode selection))) InvalidArgument;
  if interface_needs_prefix_allocation i then mapM (automatic_work vpc v families) families else Ok [].

(** The checks of an explicit dual-stack configuration. *)
Definition check_secondary (r : vpc_prefix_row) (v : vpc_row) (c : Ipv6InterfaceConfig)
    : result failure vpc_prefix_row :=
  _ ← ensure (bool_decide (family_of (vp_prefix r) = Ipv4)) InvalidConfiguration;
  q ← ok_or (Failed FailedPrecondition) (explicit_prefixes ctx !! v6_vpc_prefix_id c);
  _ ← ensure (is_ipv6_net (vp_prefix q)) InvalidArgument;
  _ ← ensure (String.eqb (vpc_id q) (vpc_id r)) InvalidConfiguration;
  _ ← ensure (negb (slaac_enabled v && bool_decide (is_Some (v6_requested_ip_addr c)))) InvalidArgument;
  Ok q.

Definition secondary_work (v : vpc_row) (c : Ipv6InterfaceConfig) (q : vpc_prefix_row)
    : result failure PrefixAllocationWork :=
  let len := instance_prefix_len Ipv6 (slaac_enabled v) in
  _ ← validate_vpc_prefix_allocation_capacity q Ipv6 len;
  n ← build_requested (V6 <$> v6_requested_ip_addr c) len;
  Ok (mk_work ti ii (vpc_id q) Ipv6 len [v6_vpc_prefix_id c] 0 SecondaryIpv6 n false).

Definition plan_explicit (id : string) (r : vpc_prefix_row) (v : vpc_row)
    : result failure (list PrefixAllocationWork) :=
  _ ← ensure (String.eqb (tenant_organization_id v) organization) FailedPrecondition;
  let f := family_of (vp_prefix r) in
  let len := instance_prefix_len f (slaac_enabled v) in
  _ ← ensure match requested_ip_addr i with Some a => bool_decide (address_family a = f) | None => true end
        InvalidArgument;
  _ ← ensure (negb (slaac_enabled v && bool_decide (f = Ipv6) && bool_decide (is_Some (requested_ip_addr i))))
        InvalidArgument;
  secondary ← match ipv6_interface_config i with
              | Some c => (fun q => Some (c, q)) <$> check_secondary r v c
              | None => Ok None
              end;
  if interface_needs_prefix_allocation i then
    _ ← validate_vpc_prefix_allocation_capacity r f len;
    n ← build_requested (requested_ip_addr i) len;
    let primary := mk_work ti ii (vpc_id r) f len [id] 0 Primary n false in
    match secondary with
    | None => Ok [primary]
    | Some (c, q) => w ← secondary_work v c q; Ok [primary; w]
    end
  else Ok [].

(** The VPC an interface selects and the work it needs. *)
Definition plan_interface : result failure (option string * list PrefixAllocationWork) :=
  match vpc_selection i with
  | Some selection => (fun ws => (Some (sel_vpc_id selection), ws)) <$> plan_automatic selection
  | None =>
      match network_details i with
      | Some (ByVpcPrefixId id) =>
          r ← ok_or (Failed FailedPrecondition) (explicit_prefixes ctx !! id);
          v ← ok_or (Failed InternalError) (ctx_vpcs ctx !! vpc_id r);
          (fun ws => (Some (vpc_id r), ws)) <$> plan_explicit id r v
      | _ => Ok (None, [])
      end
  end.
End Plan.

Fixpoint plan_interfaces (ctx : PrefixAllocationContext) (organization : string) (ti ii : nat)
    (l : list InstanceInterfaceConfig) : result failure (list string * list PrefixAllocationWork) :=
  match l with
  | [] => Ok ([], [])
  | i :: l =>
      p ← plan_interface ctx organization ti ii i;
      q ← plan_interfaces ctx organization ti (S ii) l;
      Ok (match p.1 with Some v => v :: q.1 | None => q.1 end, p.2 ++ q.2)
  end.

(** Several VPCs on one instance must all use FNN. *)
Definition vpcs_compatible (ctx : PrefixAllocationContext) (ids : list string) : bool :=
  (length (remove_dups ids) <=? 1)%nat
  || forallb (fun v => match ctx_vpcs ctx !! v with
                       | Some v => bool_decide (network_virtualization_type v = Fnn)
                       | None => false
                       end) ids.

Fixpoint plan_targets (ctx : PrefixAllocationContext) (ti : nat) (l : list NetworkAllocationTarget)
    : result failure (list PrefixAllocationWork) :=
  match l with
  | [] => Ok []
  | t :: l =>
      p ← plan_interfaces ctx (target_organization_id t) ti 0 (interfaces t);
      _ ← ensure (vpcs_compatible ctx p.1) InvalidConfiguration;
      ws ← plan_targets ctx (S ti) l;
      Ok (p.2 ++ ws)
  end.

Definition plan_prefix_allocations (targets : list NetworkAllocationTarget) (ctx : PrefixAllocationContext)
    : result failure (list PrefixAllocationWork) :=
  plan_targets ctx 0 targets.

(** ** Execution

    The mutable state of [execute_prefix_allocations] with its transaction, the
    number of calls of [attempt_prefix_candidate] so far and, newest first, a
    record of the rows it locked: the group and the prefix length of the work,
    the row, the segment that got a prefix from it, if the call succeeded, the
    requested prefix and the interface of the work, and whether the call was to
    create a segment. *)
Record lock_entry := mk_entry {
  l_group : string * IpAddressFamily;
  l_id : string;
  l_len : Z;
  l_segment : option string;
  l_requested : option IpNetwork;
  l_place : nat * nat;
  l_created : bool
}.
Record exec := mk_exec {
  x_db : db;
  x_targets : list NetworkAllocationTarget;
  x_works : list PrefixAllocationWork;
  x_pending : BTreeMap string (list nat);
  x_calls : nat;
  x_locks : list lock_entry
}.

Definition M (A : Type) : Type := exec -> exec * result failure A.
#[global] Instance M_ret : MRet M := fun A a x => (x, Ok a).
#[global] Instance M_bind : MBind M :=
  fun A B f m x => match m x with (x, Ok a) => f a x | (x, Err e) => (x, Err e) end.

Definition lift {A} (r : result failure A) : M A := fun x => (x, r).
Definition gets {A} (f : exec -> A) : M A := fun x => (x, Ok (f x)).
Definition modify (f : exec -> exec) : M unit := fun x => (f x, Ok ()).
Definition internal : failure := Failed InternalError.

Definition set_works f (x : exec) : exec :=
  mk_exec (x_db x) (x_targets x) (f (x_works x)) (x_pending x) (x_calls x) (x_locks x).
Definition set_pending f (x : exec) : exec :=
  mk_exec (x_db x) (x_targets x) (x_works x) (f (x_pending x)) (x_calls x) (x_locks x).
Definition set_targets f (x : exec) : exec :=
  mk_exec (x_db x) (f (x_targets x)) (x_works x) (x_pending x) (x_calls x) (x_locks x).

Definition work_at (i : nat) : M PrefixAllocationWork :=
  x ← gets x_works; lift (ok_or internal (x !! i)).
Definition interface_at (w : PrefixAllocationWork) : M InstanceInterfaceConfig :=
  ts ← gets x_targets;
  t ← lift (ok_or internal (ts !! target_index w));
  lift (ok_or internal (interfaces t !! interface_index w)).

Definition next_work (w : PrefixAllocationWork) : PrefixAllocationWork :=
  mk_work (target_index w) (interface_index w) (w_vpc_id w) (family w) (allocation_prefix_len w) (candidates w)
    (S (candidate_index w)) (slot w) (requested_prefix w) (automatic w).

Definition advance_prefix_work (i : nat) (current : string) (u : CandidateUnavailable) : M unit :=
  w ← work_at i;
  _ ← lift match u with UnavailableDeleted => ensure (automatic w) InvalidArgument | UnavailableExhausted => Ok () end;
  _ ← modify (set_works (alter next_work i));
  next ← lift (ok_or (Failed ResourceExhausted) (candidates w !! S (candidate_index w)));
  _ ← lift (ensure (bool_decide (cmp current next = Lt)) InternalError);
  modify (set_pending (push_entry next i)).

Definition resolve_interface (w : PrefixAllocationWork) (id : string) (segment : option string)
    (i : InstanceInterfaceConfig) : result failure InstanceInterfaceConfig :=
  match slot w with
  | Primary =>
      s ← ok_or internal segment;
      Ok (mk_interface (Some (ByVpcPrefixId id)) (vpc_selection i) (Some s) (Some (w_vpc_id w)) (ip_addrs i)
            (requested_ip_addr i) (ipv6_interface_config i) (interface_prefixes i))
  | SecondaryIpv6 =>
      Ok (mk_interface (network_details i) (vpc_selection i) (network_segment_id i) (if_vpc_id i) (ip_addrs i)
            (requested_ip_addr i) (Some (mk_ipv6 id (c ← ipv6_interface_config i; v6_requested_ip_addr c)))
            (interface_prefixes i))
  end.

Definition put_interface (w : PrefixAllocationWork) (i : InstanceInterfaceConfig)
    (ts : list NetworkAllocationTarget) : list NetworkAllocationTarget :=
  alter (fun t => mk_target (<[interface_index w := i]> (interfaces t)) (target_organization_id t))
    (target_index w) ts.

Definition apply_prefix_resolution (w : PrefixAllocationWork) (id : string) (segment : option string) : M unit :=
  i ← interface_at w;
  i ← lift (resolve_interface w id segment i);
  modify (set_targets (put_interface w i)).

Definition operation_for (w : PrefixAllocationWork) : M PrefixAllocationOperation :=
  match slot w with
  | Primary => mret Create
  | SecondaryIpv6 =>
      i ← interface_at w;
      s ← lift (ok_or internal (network_segment_id i));
      mret (Attach s)
  end.

Section Execute.
Context (race : nat -> nat -> db -> db) (fresh : nat -> nat -> string).

Definition call_attempt (w : PrefixAllocationWork) (id : string) (operation : PrefixAllocationOperation)
    : M CandidateAllocationOutcome :=
  fun x =>
    let r := attempt_prefix_candidate (race (x_calls x)) (fresh (x_calls x)) (w_vpc_id w) (family w)
               (allocation_prefix_len w) id operation (requested_prefix w) (x_db x) in
    let granted := match r.2, operation with
                   | Ok (Allocated s), Create => s
                   | Ok (Allocated _), Attach s => Some s
                   | _, _ => None
                   end in
    (mk_exec r.1 (x_targets x) (x_works x) (x_pending x) (S (x_calls x))
       (mk_entry (w_vpc_id w, family w) id (allocation_prefix_len w) granted (requested_prefix w)
          (target_index w, interface_index w) (match operation with Create => true | Attach _ => false end)
        :: x_locks x), r.2).

(** The inner loop, over the work queued on one candidate. *)
Fixpoint drain_candidate (id : string) (unavailable : option CandidateUnavailable) (queue : list nat) : M unit :=
  match queue with
  | [] => mret ()
  | i :: queue =>
      match unavailable with
      | Some u => _ ← advance_prefix_work i id u; drain_candidate id unavailable queue
      | None =>
          w ← work_at i;
          operation ← operation_for w;
          outcome ← call_attempt w id operation;
          match outcome with
          | Allocated segment => _ ← apply_prefix_resolution w id segment; drain_candidate id None queue
          | Exhausted =>
              _ ← advance_prefix_work i id UnavailableExhausted;
              drain_candidate id (Some UnavailableExhausted) queue
          | Deleted =>
              _ ← advance_prefix_work i id UnavailableDeleted;
              drain_candidate id (Some UnavailableDeleted) queue
          end
      end
  end.

(** The outer loop: [pop_first] takes the least candidate. *)
Fixpoint drain_pending (fuel : nat) : M unit :=
  match fuel with
  | O => lift (Err Diverged)
  | S fuel =>
      p ← gets x_pending;
      match p with
      | [] => mret ()
      | (id, queue) :: rest =>
          _ ← modify (set_pending (fun _ => rest));
          _ ← drain_candidate id None queue;
          drain_pending fuel
      end
  end.

Fixpoint enter_group (indices : list nat) (pending : BTreeMap string (list nat)) : M (BTreeMap string (list nat)) :=
  match indices with
  | [] => mret pending
  | i :: indices =>
      w ← work_at i;
      c ← lift (ok_or internal (head (candidates w)));
      enter_group indices (push_entry c i pending)
  end.

(** A bound on the candidates of a group. *)
Definition total_candidates (ws : list PrefixAllocationWork) : nat := sum_list (length ∘ candidates <$> ws).

Definition run_group (fuel : nat) (indices : list nat) : M unit :=
  p ← enter_group indices [];
  _ ← modify (set_pending (fun _ => p));
  drain_pending fuel.

Fixpoint run_groups (fuel : nat) (groups : list (list nat)) : M unit :=
  match groups with
  | [] => mret ()
  | g :: groups => _ ← run_group fuel g; run_groups fuel groups
  end.

Fixpoint group_works (i : nat) (ws : list PrefixAllocationWork)
    (m : BTreeMap (string * IpAddressFamily) (list nat)) : BTreeMap (string * IpAddressFamily) (list nat) :=
  match ws with
  | [] => m
  | w :: ws => group_works (S i) ws (push_entry (w_vpc_id w, family w) i m)
  end.

Definition execute_prefix_allocations (targets : list NetworkAllocationTarget) (d : db)
    (ws : list PrefixAllocationWork) : exec * result failure unit :=
  run_groups (S (total_candidates ws)) (BTree.values (group_works 0 ws [])) (mk_exec d targets ws [] 0 []).

(** The transaction after [allocate_networks], and the targets it leaves. *)
Definition allocate_networks (targets : list NetworkAllocationTarget) (d : db) : exec * result failure unit :=
  match load_prefix_allocation_context targets d with
  | Err e => (mk_exec d targets [] [] 0 [], Err e)
  | Ok None => (mk_exec d targets [] [] 0 [], Ok ())
  | Ok (Some ctx) =>
      match plan_prefix_allocations targets ctx with
      | Err e => (mk_exec d targets [] [] 0 [], Err e)
      | Ok ws => execute_prefix_allocations targets d ws
      end
  end.
End Execute.

(** ** One attempt at a candidate *)

Lemma to_cidr_spec n :
  prefix (to_cidr n) = prefix n /\ ip (to_cidr n) = network n /\ network (to_cidr n) = network n /\
  (forall a, covers (to_cidr n) a <-> covers n a).
Proof.
  unfold to_cidr. pose proof (net_valid n) as [Hv Hp]. destruct (lo_hi_range n) as [Hl Hh].
  assert (Hf : same_family (ip n) (network n)) by (rewrite network_spec; apply same_family_with_bits).
  pose proof (same_family_width _ _ Hf) as Hw.
  destruct (net_new_ok (network n) (prefix n)) as (m & -> & Hi & Hm).
  { unfold valid_addr. rewrite <- Hw. unfold lo in *. lia. }
  { lia. }
  assert (Hb : block m = block n) by (unfold block; by rewrite Hi, Hm, Hw).
  assert (Hlo : lo m = lo n).
  { rewrite (lo_spec m), Hb, Hi. fold (lo n). destruct (lo_aligned n) as [k ->].
    rewrite Z.div_mul by (pose proof (block_pos n); lia). done. }
  simpl. split_and!; [done..| |].
  - rewrite network_spec, Hi. unfold block in Hb. rewrite Hm, <- Hw.
    transitivity (with_bits (network n) (lo m)); [|rewrite Hlo; by apply same_family_with_bits_eq].
    rewrite lo_spec. unfold block. by rewrite Hi, Hm, <- Hw.
  - apply covers_ext; [by rewrite Hi|done|]. by rewrite !hi_spec, Hlo, Hb.
Qed.

(** The row of a linknet [n] in VPC prefix [r]. *)
Definition linknet_row (id : string) (r : vpc_prefix_row) (segment : string) (s : segment_row) (n : IpNetwork)
    : network_prefix_row :=
  mk_network_prefix segment (to_cidr n) (if is_ipv4 (ip n) then Some (network n) else None)
    (generated_linknet_num_reserved n) (Some (id, vp_prefix r)) (inherited_scope s r).

Definition clashes (d : db) (n : network_prefix_row) : bool :=
  existsb (fun m => network_prefix_conflict m n) (network_prefixes d).

Lemma linknet_checks id r segment s n len slaac :
  len = instance_prefix_len (family_of (vp_prefix r)) slaac -> prefix n = len ->
  same_family (ip (vp_prefix r)) (ip n) -> prefix (vp_prefix r) <= len -> covers (vp_prefix r) (network n) ->
  let row := linknet_row id r segment s n in
  gateway_within_network row = true /\ within_vpc_prefix row = true /\ no_gateway_on_ipv6 row = true.
Proof.
  intros Hlen Hp Hf Hle Hc row. destruct (to_cidr_spec n) as (Hp' & Hi & Hnet & Hcov). split_and!.
  - unfold gateway_within_network. simpl. destruct (is_ipv4 (ip n)) eqn:E4; [|done].
    rewrite Hp', Hp, Hlen, andb_true_iff. split; [apply contains_covers, Hcov, network_covers|].
    rewrite network_spec, width_with_bits. unfold family_of, same_family in *. rewrite Hf.
    by destruct (ip n).
  - unfold within_vpc_prefix, contained_eq. simpl. rewrite Hp', Hp, Hnet, andb_true_iff. split; [by apply Z.leb_le|].
    by apply contains_covers.
  - unfold no_gateway_on_ipv6. simpl. destruct (is_ipv4 (ip n)) eqn:E4; [|done]. rewrite Hi, network_spec.
    by destruct (ip n).
Qed.

(** The insertion of a linknet fails only where it overlaps a prefix of its scope. *)
Lemma allocate_linknet_eq a segment s n d r len slaac :
  segments d !! segment = Some s -> vpc_prefixes d !! vpc_prefix_id a = Some r ->
  len = instance_prefix_len (family_of (vp_prefix r)) slaac -> prefix n = len ->
  same_family (ip (vp_prefix r)) (ip n) -> prefix (vp_prefix r) <= len -> covers (vp_prefix r) (network n) ->
  let row := linknet_row (vpc_prefix_id a) r segment s n in
  allocate_linknet_for_segment_with_prefix a segment n d =
  if clashes d row
  then Err (Failed (DatabaseFailure (violates (exclusion_constraint "network_prefixes" (np_overlap_vpc_id row)))))
  else Ok (set_network_prefixes (fun l => l ++ [row]) d).
Proof.
  intros Hs Hr Hlen Hp Hf Hle Hc row.
  destruct (linknet_checks (vpc_prefix_id a) r segment s n len slaac Hlen Hp Hf Hle Hc) as (H1 & H2 & H3).
  unfold allocate_linknet_for_segment_with_prefix. simpl. unfold create_one. rewrite Hs, Hr. simpl.
  fold (linknet_row (vpc_prefix_id a) r segment s n). fold row in H1, H2, H3 |- *.
  unfold insert_network_prefix, clashes. rewrite H1, H2, H3. simpl. by destruct (existsb _ _).
Qed.

Lemma exclusion_is_overlap scope : is_overlap_constraint (exclusion_constraint "network_prefixes" scope) = true.
Proof. by destruct scope. Qed.

(** ** The choice of a prefix *)

Definition child (r : vpc_prefix_row) (len : Z) (c : IpNetwork) : Prop :=
  prefix c = len /\ subnet c (vp_prefix r).
(** Some prefix in the table that counts for [r] shares an address with [c]. *)
Definition taken (d : db) (id : string) (r : vpc_prefix_row) (c : IpNetwork) : Prop :=
  exists n, n ∈ find_allocation_occupancy d id (vp_prefix r) /\ ~ disjoint_nets c n.

Lemma subnet_family n m : subnet n m -> same_family (ip m) (ip n) /\ covers m (network n).
Proof.
  intros H. pose proof (H _ (network_covers n)) as Hc. split; [|done]. destruct Hc as [Hf _].
  rewrite network_spec in Hf. unfold same_family in *. by destruct (ip m), (ip n).
Qed.

Lemma select_automatic id r len a d :
  PrefixAllocator.new id (vp_prefix r) (VpcPrefix.last_used_prefix r) len = Ok a -> len < 128 ->
  match select_prefix a None d with
  | Ok (Some c) => child r len c /\ ip c = network c /\ ~ taken d id r c
  | Ok None => forall c, child r len c -> taken d id r c
  | Err _ => False
  end.
Proof.
  intros Ha Hlen. pose proof (next_free_prefix_cases id (vp_prefix r) _ len a
    (find_allocation_occupancy d id (vp_prefix r)) Ha) as H. apply new_ok in Ha as (-> & _ & _).
  unfold select_prefix. simpl in *. destruct (next_free_prefix _ _) as [[c|[]]|]; try done; [|lia].
  destruct H as (Hc & Hi & Hd & _). split_and!; [done..|]. intros (n & Hn & Hnd). by apply Hnd, Hd.
Qed.

(** A prefix of the table that overlaps the VPC prefix and conflicts with a linknet
    of it counts as taken. *)
Lemma clash_taken d id r segment s c :
  vpc_prefixes d !! id = Some r -> subnet c (vp_prefix r) ->
  clashes d (linknet_row id r segment s c) = true -> taken d id r c.
Proof.
  intros Hr Hsub (m & Hm%list_elem_of_In & Hc)%existsb_exists.
  apply andb_true_iff in Hc as [Hs%bool_decide_eq_true Ho]. simpl in Hs, Ho.
  destruct (to_cidr_spec c) as (_ & _ & _ & Hcov). unfold overlap in Ho. apply overlap_spec in Ho.
  assert (Hnd : ~ disjoint_nets c (np_prefix m)).
  { intros Hd. apply Ho. intros x Hx Hx'. apply (Hd x); [by apply Hcov|done]. }
  exists (np_prefix m). split; [|done]. unfold find_allocation_occupancy. rewrite Hr.
  apply list_elem_of_fmap. exists m. split; [done|]. apply list_elem_of_filter. split; [|done].
  apply andb_true_iff. split.
  - apply overlap_spec. intros Hd. apply Hnd. intros x Hx Hx'. apply (Hd x); auto.
  - rewrite Hs. unfold inherited_scope. destruct (_ && _); [|done]. rewrite !orb_true_iff. right. by apply bool_decide_eq_true.
Qed.

(** ** What an attempt does *)

(** The tables after a linknet [n] of VPC prefix [r] was allocated. *)
Definition with_segment (operation : PrefixAllocationOperation) (segment vpc : string) (d : db) : db :=
  match operation with
  | Create => set_segments (<[segment := mk_segment (Some vpc) NetworkSegment.Tenant (Some false)]>) d
  | Attach _ => d
  end.
Definition segment_of (operation : PrefixAllocationOperation) (segment : string) : string :=
  match operation with Create => segment | Attach s => s end.
Definition allocated (operation : PrefixAllocationOperation) (segment id : string) (r : vpc_prefix_row)
    (s : segment_row) (n : IpNetwork) (d : db) : db :=
  set_vpc_prefixes (<[id := set_last_used n r]>)
    (set_network_prefixes (fun l => l ++ [linknet_row id r (segment_of operation segment) s n])
      (with_segment operation segment (vpc_id r) d)).

(** The segment an operation needs: none yet, or one that exists. *)
Definition operation_ready (operation : PrefixAllocationOperation) (segment : string) (d : db) : Prop :=
  match operation with
  | Create => segments d !! segment = None
  | Attach s => is_Some (segments d !! s)
  end.

Lemma write_linknet operation segment a d r n len slaac :
  whole d -> vpc_prefixes d !! vpc_prefix_id a = Some r -> operation_ready operation segment d ->
  len = instance_prefix_len (family_of (vp_prefix r)) slaac -> prefix n = len ->
  same_family (ip (vp_prefix r)) (ip n) -> prefix (vp_prefix r) <= len -> covers (vp_prefix r) (network n) ->
  exists s, segments (with_segment operation segment (vpc_id r) d) !! segment_of operation segment = Some s /\
  let row := linknet_row (vpc_prefix_id a) r (segment_of operation segment) s n in
  perform a operation segment (vpc_id r) n d =
  if clashes d row
  then Err (Failed (DatabaseFailure (violates (exclusion_constraint "network_prefixes" (np_overlap_vpc_id row)))))
  else Ok (set_network_prefixes (fun l => l ++ [row]) (with_segment operation segment (vpc_id r) d)).
Proof.
  intros Hw Hr Hop Hlen Hp Hf Hle Hc. destruct operation as [|s]; simpl in *.
  - eexists. split; [apply lookup_insert_eq|]. unfold allocate_network_segment_for_prefix, persist_segment.
    rewrite bool_decide_false by (rewrite Hop; by intros []).
    simpl. rewrite bool_decide_true by (by apply (whole_vpc _ Hw (vpc_prefix_id a))). simpl.
    by erewrite allocate_linknet_eq; [..|apply lookup_insert_eq|exact Hr|done|done|done|done|done].
  - destruct Hop as [row Hrow]. exists row. split; [done|]. by eapply allocate_linknet_eq.
Qed.

(** What the others do in an attempt leaves the locked row alone. *)
Definition respects_lock (race : db -> db) (id : string) (r : vpc_prefix_row) (d : db) : Prop :=
  whole (race d) /\ vpc_prefixes (race d) !! id = Some r.

Lemma once_unlocked race segment f len id vpc operation requested d :
  lock_for_allocation d id = None ->
  allocate_prefix_candidate_once race segment vpc f len id operation requested d = Ok (d, Deleted).
Proof. unfold allocate_prefix_candidate_once. by intros ->. Qed.

Section Attempt.
Context (race : db -> db) (segment : string) (slaac : bool) (id : string) (operation : PrefixAllocationOperation).
Context (d : db) (r : vpc_prefix_row).

#[local] Abbreviation f := (family_of (vp_prefix r)).
#[local] Abbreviation len := (instance_prefix_len f slaac).
#[local] Abbreviation attempt requested :=
  (allocate_prefix_candidate_once race segment (vpc_id r) f len id operation requested d).

Context (Hlock : lock_for_allocation d id = Some r).
Context (Hcap : vpc_prefix_can_allocate_interface_prefix f (prefix (vp_prefix r)) len = true).

Lemma len_bounds : prefix (vp_prefix r) <= len <= width (ip (vp_prefix r)) /\ len < 128.
Proof.
  revert Hcap. unfold vpc_prefix_can_allocate_interface_prefix. rewrite <- family_width.
  destruct (family_of (vp_prefix r)), slaac; cbn; lia.
Qed.

Lemma allocator_new :
  PrefixAllocator.new id (vp_prefix r) (VpcPrefix.last_used_prefix r) len
  = Ok (PrefixAllocator.mk id (vp_prefix r) (VpcPrefix.last_used_prefix r) len).
Proof.
  unfold PrefixAllocator.new. pose proof len_bounds as [[_ Hw] _]. rewrite <- family_width in Hw.
  rewrite (proj2 (Z.ltb_ge _ _) Hw). by rewrite Hcap.
Qed.

Lemma once_steps requested :
  attempt requested =
  (n ← select_prefix (PrefixAllocator.mk id (vp_prefix r) (VpcPrefix.last_used_prefix r) len) requested d;
   match n with
   | None => Ok (d, Exhausted)
   | Some n =>
       d ← perform (PrefixAllocator.mk id (vp_prefix r) (VpcPrefix.last_used_prefix r) len) operation segment
             (vpc_id r) n (race d);
       d ← db_call (update_last_used_prefix id n d);
       Ok (d, Allocated match operation with Create => Some segment | Attach _ => None end)
   end).
Proof.
  unfold allocate_prefix_candidate_once. rewrite Hlock, String.eqb_refl, bool_decide_true by done.
  cbn [ensure andb mbind result_bind]. by rewrite allocator_new.
Qed.

(** Once a prefix is selected, the attempt fails only if it is taken meanwhile. *)
Lemma once_selected requested n :
  select_prefix (PrefixAllocator.mk id (vp_prefix r) (VpcPrefix.last_used_prefix r) len) requested d = Ok (Some n) ->
  prefix n = len -> same_family (ip (vp_prefix r)) (ip n) -> covers (vp_prefix r) (network n) ->
  respects_lock race id r d -> operation_ready operation segment (race d) ->
  exists s, segments (with_segment operation segment (vpc_id r) (race d)) !! segment_of operation segment = Some s /\
  let row := linknet_row id r (segment_of operation segment) s n in
  attempt requested =
  if clashes (race d) row
  then Err (Failed (DatabaseFailure (violates (exclusion_constraint "network_prefixes" (np_overlap_vpc_id row)))))
  else Ok (allocated operation segment id r s n (race d),
           Allocated match operation with Create => Some segment | Attach _ => None end).
Proof.
  intros Hsel Hp Hf Hc [Hw Hr] Hop. apply lock_for_allocation_row in Hlock as Hd. destruct Hd as [_ Hdel].
  destruct (write_linknet operation segment (PrefixAllocator.mk id (vp_prefix r) (VpcPrefix.last_used_prefix r) len)
    (race d) r n len slaac Hw Hr Hop eq_refl Hp Hf (proj1 (proj1 len_bounds)) Hc) as (s & Hs & E).
  exists s. split; [done|]. rewrite once_steps, Hsel. cbn [mbind result_bind]. cbv zeta in E. cbn [PrefixAllocator.vpc_prefix_id] in E. rewrite E.
  destruct (clashes _ _); [done|]. cbn [mbind result_bind]. unfold update_last_used_prefix, lock_for_allocation.
  assert (Hr' : forall g, vpc_prefixes (set_network_prefixes g (with_segment operation segment (vpc_id r) (race d))) !! id
    = Some r) by (by intros g; destruct operation).
  rewrite Hr'. simpl. unfold is_marked_as_deleted. by rewrite Hdel.
Qed.

Lemma allocated_whole n s :
  prefix n = len -> same_family (ip (vp_prefix r)) (ip n) -> covers (vp_prefix r) (network n) ->
  respects_lock race id r d -> operation_ready operation segment (race d) ->
  segments (with_segment operation segment (vpc_id r) (race d)) !! segment_of operation segment = Some s ->
  clashes (race d) (linknet_row id r (segment_of operation segment) s n) = false ->
  whole (allocated operation segment id r s n (race d)).
Proof.
  intros Hp Hf Hc [Hw Hr] Hop Hs Hcl. unfold allocated.
  set (d1 := with_segment operation segment (vpc_id r) (race d)) in *.
  assert (Hw1 : whole d1).
  { unfold d1, with_segment. destruct operation; [|done]. apply (whole_same (race d)); try done.
    intros j Hj. apply lookup_insert_is_Some'. by right. }
  assert (Hr1 : vpc_prefixes d1 !! id = Some r) by (unfold d1; by destruct operation).
  assert (Hn1 : network_prefixes d1 = network_prefixes (race d)) by (unfold d1; by destruct operation).
  destruct (linknet_checks id r (segment_of operation segment) s n len slaac eq_refl Hp Hf
    (proj1 (proj1 len_bounds)) Hc) as (H1 & H2 & H3).
  set (row := linknet_row id r (segment_of operation segment) s n) in *.
  apply (whole_same (set_network_prefixes (fun l => l ++ [row]) d1)); try done.
  { by apply placed_insert with r. }
  apply (whole_insert_network row d1); [|split; [by eexists|]|done].
  - apply insert_network_prefix_iff. split_and!; try done. intros m Hm. rewrite Hn1 in Hm.
    apply not_true_iff_false. intros Hc'. apply not_true_iff_false in Hcl. apply Hcl, existsb_exists.
    exists m. by rewrite <- list_elem_of_In.
  - exists r. split_and!; try done. simpl. unfold inherited_scope. destruct (_ && _); auto.
Qed.
End Attempt.

(** An attempt at a candidate is exact. When the locked VPC prefix has a free
    linknet, the attempt allocates one in it: its row is added, overlaps no other
    prefix of its scope, and becomes the cursor of the search; the tables stay
    whole. It reports exhaustion only when every linknet is taken. It fails
    only with a conflict that is retried, and only because of what others
    committed meanwhile. *)
Theorem allocate_candidate_exact race segment slaac id operation d r :
  let f := family_of (vp_prefix r) in
  let len := instance_prefix_len f slaac in
  whole d -> lock_for_allocation d id = Some r -> respects_lock race id r d ->
  vpc_prefix_can_allocate_interface_prefix f (prefix (vp_prefix r)) len = true ->
  operation_ready operation segment (race d) ->
  match allocate_prefix_candidate_once race segment (vpc_id r) f len id operation None d with
  | Ok (d', Allocated new_segment) =>
      exists n s, child r len n /\ ~ taken d id r n /\ d' = allocated operation segment id r s n (race d) /\
        new_segment = match operation with Create => Some segment | Attach _ => None end /\ whole d'
  | Ok (d', Exhausted) => d' = d /\ forall n, child r len n -> taken d id r n
  | Ok (_, Deleted) => False
  | Err e => is_network_prefix_overlap_conflict e = true /\ race d <> d
  end.
Proof.
  intros f len Hw Hlock Hrace Hcap Hop. pose proof (len_bounds slaac r Hcap) as [_ H128].
  pose proof (allocator_new slaac id r Hcap) as Ha. pose proof (select_automatic id r len _ d Ha H128) as Hsel.
  destruct (select_prefix _ None d) as [[n|]|] eqn:Es; [|..|done].
  - destruct Hsel as (Hch & _ & Hfree). destruct (subnet_family _ _ (proj2 Hch)) as [Hf Hc].
    destruct (once_selected race segment slaac id operation d r Hlock Hcap None n Es (proj1 Hch) Hf Hc Hrace Hop)
      as (s & Hs & E). fold f len in E. rewrite E. destruct (clashes (race d) _) eqn:Ec.
    + split; [apply exclusion_is_overlap|]. intros Hid. rewrite Hid in Ec. apply Hfree.
      eapply clash_taken; [|exact (proj2 Hch)|exact Ec]. by apply lock_for_allocation_row in Hlock as [? _].
    + exists n, s. split_and!; try done. exact (allocated_whole race segment slaac id operation d r Hcap n s (proj1 Hch) Hf Hc Hrace Hop Hs Ec).
  - unfold f, len. rewrite once_steps by done. by rewrite Es.
Qed.

End Allocation.
End PrefixAllocation.
