(* ===== verification/PrefixBatch.v ===== *)
(** * PrefixBatch: batches of prefix allocations

    What the execution of a plan does as a whole: the order in which it locks
    rows, the errors it can end with, and what it leaves when it succeeds; then
    the plans that the planner makes. The execution is a computation with state
    and errors, and is reasoned about with triples whose second postcondition is
    for the errors. *)

From S2P Require Import Prelude Text ConfigVersion StateHandler Processor StateTable IpNetwork.
From S2P Require Import PrefixAllocator BTree NetworkSegment VpcPrefix PrefixAllocation.
Import AddressFamily PrefixAllocator VpcPrefix PrefixAllocation.

Module PrefixBatch.
Section Batch.
Context {crate : IpNetworkCrate}.

(** ** Triples *)

Definition triple {A} (P : exec -> Prop) (m : M A) (Q : A -> exec -> Prop) (E : failure -> exec -> Prop) : Prop :=
  forall x, P x -> match m x with (x', Ok a) => Q a x' | (x', Err e) => E e x' end.

Lemma triple_ret {A} (a : A) P (Q : A -> exec -> Prop) E : (forall x, P x -> Q a x) -> triple P (mret a) Q E.
Proof. intros H x Hx. by apply H. Qed.

Lemma triple_bind {A B} (m : M A) (f : A -> M B) P (Q : A -> exec -> Prop) R E :
  triple P m Q E -> (forall a, triple (Q a) (f a) R E) -> triple P (x ← m; f x) R E.
Proof.
  intros Hm Hf x Hx. specialize (Hm x Hx). unfold mbind, M_bind. destruct (m x) as [x' [a|e]]; [|done].
  by apply Hf.
Qed.

Lemma triple_weaken {A} (m : M A) (P P' : exec -> Prop) (Q Q' : A -> exec -> Prop) E :
  triple P m Q E -> (forall x, P' x -> P x) -> (forall a x, Q a x -> Q' a x) -> triple P' m Q' E.
Proof.
  intros H HP HQ x Hx. specialize (H x (HP x Hx)). destruct (m x) as [x' [a|e]]; auto.
Qed.

Lemma triple_lift {A} (r : result failure A) (P : exec -> Prop) (Q : A -> exec -> Prop) (E : failure -> exec -> Prop) :
  (forall x, P x -> match r with Ok a => Q a x | Err e => E e x end) -> triple P (lift r) Q E.
Proof. intros H x Hx. specialize (H x Hx). simpl. by destruct r. Qed.

Lemma triple_modify f (P : exec -> Prop) (Q : unit -> exec -> Prop) E :
  (forall x, P x -> Q () (f x)) -> triple P (modify f) Q E.
Proof. intros H x Hx. by apply H. Qed.

(** The state read is kept. *)
Lemma triple_gets {A B} (g : exec -> A) (f : A -> M B) (P : exec -> Prop) Q E :
  (forall a, triple (fun x => P x /\ g x = a) (f a) Q E) -> triple P (x ← gets g; f x) Q E.
Proof. intros H x Hx. by apply (H (g x)). Qed.

(** ** Queues of work *)

Lemma elem_of_values_concat {K V} (m : BTreeMap K (list V)) i :
  i ∈ concat (BTree.values m) <-> exists k q, (k, q) ∈ m /\ i ∈ q.
Proof.
  unfold BTree.values. split.
  - intros H. induction m as [|[k q] m IH]; csimpl in *; [by apply elem_of_nil in H|].
    apply elem_of_app in H as [H|H]; [exists k, q; set_solver|].
    destruct (IH H) as (k' & q' & ? & ?). exists k', q'. set_solver.
  - intros (k & q & Hm & Hi). induction m as [|[k' q'] m IH]; csimpl; [by apply elem_of_nil in Hm|].
    apply elem_of_app. apply elem_of_cons in Hm as [[= <- <-]|Hm]; auto.
Qed.

Section Push.
Context {K A : Type} `{Ord K, EqDecision K}.
Implicit Types m : BTreeMap K (list A).

Lemma insert_concat k q m :
  BTree.wf m -> concat (BTree.values (BTree.insert k (default [] (BTree.get k m) ++ q) m))
    ≡ₚ q ++ concat (BTree.values m).
Proof.
  unfold BTree.values. induction m as [|[k' q'] m IH]; csimpl; [done|].
  intros [Hm Hk]%BTree.wf_cons. destruct (cmp k k') eqn:Ec; csimpl.
  - by rewrite (Permutation_app_comm q' q), <- app_assoc.
  - done.
  - rewrite IH by done. by rewrite !app_assoc, (Permutation_app_comm q' q).
Qed.

Lemma push_concat k x m :
  BTree.wf m -> concat (BTree.values (push_entry k x m)) ≡ₚ x :: concat (BTree.values m).
Proof. apply (insert_concat k [x] m). Qed.

Lemma push_wf k x m : BTree.wf m -> BTree.wf (push_entry k x m).
Proof. apply BTree.insert_wf. Qed.

Lemma get_push k k' x m :
  BTree.wf m -> BTree.get k (push_entry k' x m) =
  if decide (k = k') then Some (default [] (BTree.get k m) ++ [x]) else BTree.get k m.
Proof. intros Hm. unfold push_entry. rewrite BTree.get_insert by done. case_decide; by subst. Qed.

(** What holds of the old entries and of the new one holds of all. *)
Lemma push_forall (P : K -> A -> Prop) k x m :
  BTree.wf m -> (forall k q i, (k, q) ∈ m -> i ∈ q -> P k i) -> P k x ->
  forall k' q i, (k', q) ∈ push_entry k x m -> i ∈ q -> P k' i.
Proof.
  intros Hm Hold Hnew k' q i Hq Hi. apply BTree.get_elem in Hq; [|by apply push_wf].
  rewrite get_push in Hq by done. case_decide as E; [subst k'|].
  - injection Hq as <-. apply elem_of_app in Hi as [Hi| ->%list_elem_of_singleton]; [|done].
    destruct (BTree.get k m) as [q|] eqn:Eg; [|by apply elem_of_nil in Hi].
    apply BTree.get_elem in Eg; [|done]. eauto.
  - apply BTree.get_elem in Hq; [|done]. eauto.
Qed.
End Push.

(** ** One call *)

(** Errors that a request can cause; the others are bugs. *)
Definition benign (e : failure) : Prop :=
  match e with Failed InternalError | Panicked | Diverged => False | _ => True end.

Lemma select_benign id r len a requested d e :
  PrefixAllocator.new id (vp_prefix r) (VpcPrefix.last_used_prefix r) len = Ok a -> len < 128 ->
  select_prefix a requested d = Err e -> benign e.
Proof.
  intros Ha Hlen. destruct requested as [n|].
  - unfold select_prefix, validate_desired_prefix. destruct (negb _); [by intros [= <-]|].
    destruct (existsb _ _); by intros [= <-].
  - pose proof (select_automatic id r len a d Ha Hlen) as H. intros E. by rewrite E in H.
Qed.

Lemma new_benign id n l len e : PrefixAllocator.new id n l len = Err e -> e = InvalidArgument.
Proof. unfold PrefixAllocator.new. repeat case_match; congruence. Qed.

Lemma db_call_benign {A} (r : result DatabaseError A) e : db_call r = Err e -> benign e.
Proof. destruct r; [done|]. by intros [= <-]. Qed.

Lemma write_benign a operation segment vpc n d e :
  perform a operation segment vpc n d = Err e -> benign e.
Proof.
  unfold perform. destruct operation; [|apply db_call_benign]. unfold allocate_network_segment_for_prefix.
  destruct (db_call (persist_segment _ _ _)) as [d'|] eqn:E; [apply db_call_benign|].
  intros [= <-]. by apply db_call_benign in E.
Qed.

Lemma once_benign race segment vpc f len id operation requested d e :
  len < 128 ->
  allocate_prefix_candidate_once race segment vpc f len id operation requested d = Err e -> benign e.
Proof.
  intros Hlen. unfold allocate_prefix_candidate_once. destruct (lock_for_allocation d id) as [r|]; [|done].
  unfold ensure. destruct (_ && _); [|by intros [= <-]]. cbn [mbind result_bind].
  destruct (PrefixAllocator.new _ _ _ _) as [a|e'] eqn:Ea; [|apply new_benign in Ea as ->; by intros [= <-]].
  cbn [map_err mbind result_bind]. destruct (select_prefix a requested d) as [[n|]|e'] eqn:Es; [|done|].
  2:{ intros [= <-]. by eapply select_benign. }
  cbn [mbind result_bind]. destruct (perform _ _ _ _ _ _) as [d1|e'] eqn:Ew.
  - cbn [mbind result_bind]. destruct (db_call _) as [d2|e'] eqn:Eu; [done|]. intros [= <-]. by apply db_call_benign in Eu.
  - intros [= <-]. by eapply write_benign.
Qed.

(** A successful attempt added one row, of the segment and for the candidate, and with
    the prefix that was requested. *)
Definition grants (id segment : string) (len : Z) (f : IpAddressFamily) (requested : option IpNetwork)
    (row : network_prefix_row) : Prop :=
  np_segment row = segment /\ (exists p, np_parent row = Some (id, p)) /\ prefix (np_prefix row) = len /\
  family_of (np_prefix row) = f /\ forall n, requested = Some n -> np_prefix row = to_cidr n.

Lemma create_for_one segment n id d d' :
  create_for segment [n] (Some id) d = Ok d' ->
  is_Some (segments d !! segment) /\ exists row, d' = set_network_prefixes (fun l => l ++ [row]) d /\
    np_segment row = segment /\ (exists p, np_parent row = Some (id, p)) /\ np_prefix row = to_cidr (nnp_prefix n).
Proof.
  simpl. intros (d1 & H & [= <-])%bind_ok. unfold create_one in H.
  destruct (segments d !! segment) as [s|]; [|done]. destruct (vpc_prefixes d !! id) as [r|]; [|done].
  apply insert_network_prefix_iff in H as (_ & _ & _ & _ & ->). split; [by eexists|]. eexists. split; [done|].
  simpl. eauto.
Qed.

Lemma db_call_ok {A} (r : result DatabaseError A) a : db_call r = Ok a -> r = Ok a.
Proof. by destruct r; intros [= <-]. Qed.

Lemma write_ok a operation segment vpc n d d' :
  perform a operation segment vpc n d = Ok d' ->
  exists row, network_prefixes d' = network_prefixes d ++ [row] /\ np_segment row = segment_of operation segment /\
    (exists p, np_parent row = Some (vpc_prefix_id a, p)) /\ np_prefix row = to_cidr n /\
    segments d' = segments (with_segment operation segment vpc d) /\
    is_Some (segments d' !! segment_of operation segment) /\ vpc_prefixes d' = vpc_prefixes d /\ rtc (statement (fun _ => "")) d d'.
Proof.
  destruct operation as [|s]; simpl.
  - unfold allocate_network_segment_for_prefix. intros (d1 & H1%db_call_ok & H2%db_call_ok)%bind_ok.
    assert (Hrtc : rtc (statement (fun _ => "")) d d').
    { eapply rtc_l; [by eapply st_segment|]. eapply rtc_once. by eapply st_create. }
    apply create_for_one in H2 as Hc. destruct Hc as (Hs & row & -> & Hrow).
    pose proof H1 as Hd. unfold persist_segment in Hd. case_bool_decide; [done|]. destruct (negb _); [done|].
    injection Hd as Hd. exists row. simpl. rewrite <- Hd in *. simpl in *. split_and!; try done; apply Hrow.
  - intros H%db_call_ok. apply create_for_one in H as Hc. destruct Hc as (Hs & row & -> & Hrow).
    exists row. simpl. split_and!; try done; try apply Hrow. eapply rtc_once. by eapply st_create.
Qed.

Lemma select_ok id r len a requested d n :
  PrefixAllocator.new id (vp_prefix r) (VpcPrefix.last_used_prefix r) len = Ok a ->
  (forall n, requested = Some n -> prefix n = len) -> select_prefix a requested d = Ok (Some n) ->
  prefix n = len /\ covers (vp_prefix r) (network n) /\ forall m, requested = Some m -> m = n.
Proof.
  intros Ha Hreq Hs. pose proof (new_ok _ _ _ _ _ Ha) as (E & _ & _). destruct requested as [m|].
  - simpl in Hs. destruct (validate_desired_prefix a _ m) as [[]|] eqn:Ev; [|done]. injection Hs as ->.
    apply validate_desired_prefix_iff in Ev as [Hc _]. rewrite E in Hc. split_and!; [by apply Hreq|done|congruence].
  - unfold select_prefix in Hs. pose proof (next_free_prefix_cases id (vp_prefix r) _ len a
      (find_allocation_occupancy d (vpc_prefix_id a) (vpc_prefix a)) Ha) as H.
    destruct (next_free_prefix _ _) as [[c|[]]|]; simplify_eq. destruct H as ((Hp & Hsub) & _).
    split_and!; [done|by apply subnet_family|done].
Qed.

Lemma family_covers m n : covers m (network n) -> family_of (to_cidr n) = family_of m.
Proof.
  intros [Hf _]. destruct (to_cidr_spec n) as (_ & Hi & _). unfold family_of. rewrite Hi. symmetry. exact Hf.
Qed.

Lemma once_ok race segment vpc f len id operation requested d d' s :
  (forall n, requested = Some n -> prefix n = len) ->
  allocate_prefix_candidate_once race segment vpc f len id operation requested d = Ok (d', Allocated s) ->
  s = match operation with Create => Some segment | Attach _ => None end /\ rtc (statement (fun _ => "")) (race d) d' /\
  segments d' = segments (with_segment operation segment vpc (race d)) /\
  is_Some (segments d' !! segment_of operation segment) /\
  exists row, network_prefixes d' = network_prefixes (race d) ++ [row] /\
    grants id (segment_of operation segment) len f requested row.
Proof.
  intros Hreq. unfold allocate_prefix_candidate_once. destruct (lock_for_allocation d id) as [r|]; [|done].
  intros (u & Hen & (a & Ha & (sel & Hsel & H)%bind_ok)%bind_ok)%bind_ok.
  destruct sel as [n|]; [|done]. apply bind_ok in H as (d1 & Hp & (d2 & Hu%db_call_ok & [= <- <-])%bind_ok).
  destruct (PrefixAllocator.new _ _ _ _) as [a'|] eqn:En; [|done]. injection Ha as <-.
  pose proof (select_ok _ _ _ _ _ _ _ En Hreq Hsel) as (Hlen & Hcov & Hsame).
  apply write_ok in Hp as (row & Hn & Hseg & Hpar & Hpre & Hsegs & His & Hvp & Hrtc).
  unfold update_last_used_prefix in Hu. destruct (lock_for_allocation d1 id) as [r1|] eqn:El; [|done].
  injection Hu as <-. simpl. split_and!; try done.
  - eapply rtc_r; [done|]. apply (st_last_used _ id n). unfold update_last_used_prefix. by rewrite El.
  - exists row. split; [done|]. split_and!; try done.
    + destruct Hpar as [p Hpar]. exists p. by rewrite Hpar, (proj1 (new_ok _ _ _ _ _ En)).
    + rewrite Hpre. destruct (to_cidr_spec n) as (Hpn & _). congruence.
    + rewrite Hpre, (family_covers _ _ Hcov). unfold ensure in Hen.
      destruct (_ && _) eqn:Eb; [|done]. apply andb_true_iff in Eb as [_ Hf%bool_decide_eq_true]. done.
    + intros m ->%Hsame. done.
Qed.

(** ** The transaction among others *)

Section Execution.
Context (race : nat -> nat -> db -> db) (fresh : nat -> nat -> string).

(** Segments made by this transaction, which the others do not see. *)
Definition ours (s : string) : Prop := exists a b, s = fresh a b.

(** What the others may do: they keep the tables whole, and neither make nor
    touch what this transaction has made. New ids are all different. *)
Record interference : Prop := {
  fresh_inj a b a' b' : fresh a b = fresh a' b' -> a = a' /\ b = b';
  race_whole n k d : whole d -> whole (race n k d);
  race_fresh n k d a b : segments d !! fresh a b = None -> segments (race n k d) !! fresh a b = None;
  race_ours n k d s : ours s -> is_Some (segments d !! s) -> is_Some (segments (race n k d) !! s);
  race_rows n k d row :
    row ∈ network_prefixes d -> ours (np_segment row) -> row ∈ network_prefixes (race n k d)
}.

(** The tables hold what the record of the execution says. *)
Record db_ok (calls : nat) (locks : list lock_entry) (d : db) : Prop := {
  ok_whole : whole d;
  ok_fresh a b : (calls <= a)%nat -> segments d !! fresh a b = None;
  ok_rows e s : e ∈ locks -> l_segment e = Some s ->
    ours s /\ is_Some (segments d !! s) /\
    exists row, row ∈ network_prefixes d /\ grants (l_id e) s (l_len e) (l_group e).2 (l_requested e) row;
  ok_calls : length locks = calls;
  ok_created newer e older s : locks = newer ++ e :: older -> l_created e = true -> l_segment e = Some s ->
    exists k, s = fresh (length older) k
}.

Lemma db_ok_race calls locks d n k : interference -> db_ok calls locks d -> db_ok calls locks (race n k d).
Proof.
  intros Hi [H1 H2 H3 H4 H5]. split; [..|done|done].
  - by apply race_whole.
  - intros a b Ha. by apply race_fresh, H2.
  - intros e s He Hs. destruct (H3 e s He Hs) as (Ho & Hseg & row & Hrow & Hg). split_and!; [done|by apply race_ours|].
    exists row. split; [|done]. apply race_rows; [done..|]. by rewrite (proj1 Hg).
Qed.

Lemma db_ok_later calls locks d e : l_segment e = None -> db_ok calls locks d -> db_ok (S calls) (e :: locks) d.
Proof.
  intros Hn [H1 H2 H3 H4 H5]. split; [done| | |simpl; lia|].
  - intros a b Ha. apply H2. lia.
  - intros e' s [->|He]%elem_of_cons Hs; [congruence|eauto].
  - intros [|e' newer] e0 older s E Hc Hs; [injection E as -> ->; congruence|injection E as _ E]. eauto.
Qed.

(** The record of a call. *)
Definition granted_segment (r : result failure CandidateAllocationOutcome) (operation : PrefixAllocationOperation)
    : option string :=
  match r, operation with
  | Ok (Allocated s), Create => s
  | Ok (Allocated _), Attach s => Some s
  | _, _ => None
  end.

Definition attachable (operation : PrefixAllocationOperation) (d : db) : Prop :=
  match operation with Create => True | Attach s => ours s /\ is_Some (segments d !! s) end.

Definition creates (operation : PrefixAllocationOperation) : bool :=
  match operation with Create => true | Attach _ => false end.

Lemma db_ok_allocated calls locks d d' k vpc f len id operation requested place s :
  interference -> db_ok calls locks d -> attachable operation d ->
  (forall n, requested = Some n -> prefix n = len) ->
  allocate_prefix_candidate_once (race calls k) (fresh calls k) vpc f len id operation requested d
    = Ok (d', Allocated s) ->
  db_ok (S calls) (mk_entry (vpc, f) id len (granted_segment (Ok (Allocated s)) operation) requested place
    (creates operation) :: locks) d'.
Proof.
  intros Hi Hok Hop Hreq H. apply once_ok in H as (-> & Hrtc & Hsegs & Hhas & row & Hn & Hg); [|done].
  apply (db_ok_race _ _ _ calls k Hi) in Hok as Hok'. destruct Hok' as [H1 H2 H3 H4 H5].
  split; [..|simpl; lia|].
  - by apply (statements_whole _ _ _ Hrtc).
  - intros a b Ha. rewrite Hsegs. destruct operation; simpl; [|apply H2; lia].
    rewrite lookup_insert_ne; [apply H2; lia|]. intros E%(fresh_inj Hi). lia.
  - intros e s' [->|He]%elem_of_cons Hs; simpl in *.
    + assert (s' = segment_of operation (fresh calls k)) as -> by (by destruct operation; injection Hs as <-).
      split_and!; [|done|exists row; rewrite Hn; split; [set_solver|done]].
      destruct operation; simpl; [by exists calls, k|apply Hop].
    + destruct (H3 e s' He Hs) as (Ho & Hseg & row' & Hrow & Hg'). split_and!; [done| |].
      * rewrite Hsegs. destruct operation; simpl; [|done]. apply lookup_insert_is_Some'. by right.
      * exists row'. rewrite Hn. split; [set_solver|done].
  - intros [|e' newer] e older s' E Hc Hs; [|injection E as _ E; by apply (H5 newer e older)].
    injection E as <- <-. exists k. rewrite H4. simpl in *. destruct operation; [|done]. by injection Hs as <-.
Qed.

Lemma attempt_db calls locks vpc f len id operation requested place m : forall d,
  interference -> db_ok calls locks d -> attachable operation d ->
  (forall n, requested = Some n -> prefix n = len) ->
  let r := attempt_loop m (race calls) (fresh calls) vpc f len id operation requested d in
  db_ok (S calls) (mk_entry (vpc, f) id len (granted_segment r.2 operation) requested place (creates operation) :: locks)
    r.1.
Proof.
  induction m as [|m IH]; intros d Hi Hok Hop Hreq; simpl; [by apply db_ok_later|].
  destruct (allocate_prefix_candidate_once _ _ _ _ _ _ _ _ _) as [[d' [s| |]]|e] eqn:E; simpl.
  - by eapply db_ok_allocated.
  - by apply db_ok_later.
  - by apply db_ok_later.
  - destruct (is_network_prefix_overlap_conflict e); [|by apply db_ok_later, db_ok_race].
    apply IH; [done|by apply db_ok_race| |done]. destruct operation; [done|]. destruct Hop as [Ho Hs].
    split; [done|]. by apply race_ours.
Qed.

(** Whatever the others do, a call that creates returns the segment it made. *)
Lemma attempt_result calls vpc f len id operation requested m : forall d,
  len < 128 ->
  match (attempt_loop m (race calls) (fresh calls) vpc f len id operation requested d).2 with
  | Ok (Allocated s) => operation = Create -> is_Some s
  | Ok _ => True
  | Err e => benign e
  end.
Proof.
  induction m as [|m IH]; intros d Hlen; simpl; [done|].
  destruct (allocate_prefix_candidate_once _ _ _ _ _ _ _ _ _) as [[d' [s| |]]|e] eqn:E; simpl; try done.
  - intros ->. revert E. unfold allocate_prefix_candidate_once.
    destruct (lock_for_allocation d id); [|done]. destruct (ensure _ _); [|done]. cbn [mbind result_bind].
    destruct (PrefixAllocator.new _ _ _ _); [|done]. cbn [map_err mbind result_bind].
    destruct (select_prefix _ _ _) as [[n|]|]; [|done..]. cbn [mbind result_bind].
    destruct (perform _ _ _ _ _ _); [|done]. cbn [mbind result_bind]. destruct (db_call _); [|done].
    intros [= _ <-]. by eexists.
  - destruct (is_network_prefix_overlap_conflict e); [by apply IH|]. by eapply once_benign.
Qed.

(** ** Plans *)

Definition group (w : PrefixAllocationWork) : string * IpAddressFamily := (w_vpc_id w, family w).
Definition interface_of (ts : list NetworkAllocationTarget) (w : PrefixAllocationWork)
    : option InstanceInterfaceConfig :=
  t ← ts !! target_index w; interfaces t !! interface_index w.

(** The work [w] as it is with its cursor at [k]. *)
Definition at_cursor (k : nat) (w : PrefixAllocationWork) : PrefixAllocationWork :=
  mk_work (target_index w) (interface_index w) (w_vpc_id w) (family w) (allocation_prefix_len w) (candidates w) k
    (slot w) (requested_prefix w) (automatic w).

Definition same_place (w v : PrefixAllocationWork) : Prop :=
  target_index w = target_index v /\ interface_index w = interface_index v.

(** What planning promises to execution. *)
Record plan_ok (targets : list NetworkAllocationTarget) (ws : list PrefixAllocationWork) : Prop := {
  plan_cursor w : w ∈ ws -> at_cursor 0 w = w;
  plan_candidates w : w ∈ ws -> candidates w <> [] /\ BTree.ascending (candidates w);
  plan_interface w : w ∈ ws -> is_Some (interface_of targets w);
  plan_unique i j w v :
    ws !! i = Some w -> ws !! j = Some v -> same_place w v -> slot w = slot v -> i = j;
  plan_secondary w : w ∈ ws -> slot w = SecondaryIpv6 ->
    family w = Ipv6 /\ exists j v, ws !! j = Some v /\ same_place w v /\ slot v = Primary /\
      group v = (w_vpc_id w, Ipv4);
  plan_len w : w ∈ ws -> allocation_prefix_len w < 128;
  plan_requested w n : w ∈ ws -> requested_prefix w = Some n -> prefix n = allocation_prefix_len w
}.

Context (targets : list NetworkAllocationTarget) (ws : list PrefixAllocationWork) (Hplan : plan_ok targets ws).
Context (start : db).

(** The others behave, and the tables are whole before the first step. *)
Definition sound_start : Prop := interference /\ whole start /\ forall a b, segments start !! fresh a b = None.

(** ** What execution keeps *)

Definition granted (x : exec) (w : PrefixAllocationWork) (c s : string) : Prop :=
  mk_entry (group w) c (allocation_prefix_len w) (Some s) (requested_prefix w) (target_index w, interface_index w)
    (match slot w with Primary => true | SecondaryIpv6 => false end) ∈ x_locks x.

(** The interface of [w] has the result of a successful call for [w]. *)
Definition settled (w : PrefixAllocationWork) (x : exec) : Prop :=
  exists i c s, interface_of (x_targets x) w = Some i /\ network_segment_id i = Some s /\ c ∈ candidates w /\
    granted x w c s /\
    match slot w with
    | Primary => network_details i = Some (ByVpcPrefixId c) /\ if_vpc_id i = Some (w_vpc_id w)
    | SecondaryIpv6 => v6_vpc_prefix_id <$> ipv6_interface_config i = Some c
    end.

(** The interfaces without work are as they were. *)
Definition untouched (x : exec) : Prop :=
  forall v, (forall w, w ∈ ws -> ~ same_place w v) -> interface_of (x_targets x) v = interface_of targets v.

Definition lock_key (e : lock_entry) : string * IpAddressFamily * string := (l_group e, l_id e).
(** Locks in order, newest first. *)
Definition in_order (l : list lock_entry) : Prop :=
  StronglySorted (fun newer older => cmp (lock_key older) (lock_key newer) <> Gt) l.
(** In order, and each for a candidate of some work. *)
Definition locks_ok (l : list lock_entry) : Prop :=
  in_order l /\ forall e, e ∈ l -> exists w, w ∈ ws /\ group w = l_group e /\ l_id e ∈ candidates w.
(** Locked before group [g], or in it at a candidate up to [b]. *)
Definition before (g : string * IpAddressFamily) (b : option string) (e : lock_entry) : Prop :=
  cmp (l_group e) g = Lt \/ l_group e = g /\ exists c, b = Some c /\ cmp (l_id e) c <> Gt.

(** The work item [i] of group [g] is at candidate [c]. *)
Definition waits (g : string * IpAddressFamily) (c : string) (i : nat) (x : exec) : Prop :=
  exists w k, ws !! i = Some w /\ group w = g /\ x_works x !! i = Some (at_cursor k w) /\ candidates w !! k = Some c.

Definition todo (queue : list nat) (x : exec) : list nat := queue ++ concat (BTree.values (x_pending x)).

(** In group [g], with candidates up to [b] visited and [queue] left at [b]. *)
Record inv (g : string * IpAddressFamily) (b : option string) (queue : list nat) (x : exec) : Prop := {
  inv_works i w : ws !! i = Some w -> exists k, x_works x !! i = Some (at_cursor k w);
  inv_targets w : w ∈ ws -> is_Some (interface_of (x_targets x) w);
  inv_frame : untouched x;
  inv_settled i w : ws !! i = Some w -> cmp (group w) g = Lt \/ group w = g /\ i ∉ todo queue x -> settled w x;
  inv_todo : NoDup (todo queue x);
  inv_queue i : i ∈ queue -> exists c, b = Some c /\ waits g c i x;
  inv_wf : BTree.wf (x_pending x);
  inv_pending c q i : (c, q) ∈ x_pending x -> i ∈ q -> waits g c i x;
  inv_keys c : c ∈ BTree.keys (x_pending x) -> c ∈ concat (candidates <$> ws);
  inv_later i w : ws !! i = Some w -> cmp g (group w) = Lt -> x_works x !! i = Some w;
  inv_above c c' : b = Some c -> c' ∈ BTree.keys (x_pending x) -> cmp c c' = Lt;
  inv_order : locks_ok (x_locks x);
  inv_before e : e ∈ x_locks x -> before g b e;
  inv_db : sound_start -> db_ok (x_calls x) (x_locks x) (x_db x)
}.

(** Every way to fail. *)
Definition failed (e : failure) (x : exec) : Prop := benign e /\ locks_ok (x_locks x).

Lemma next_at_cursor k w : next_work (at_cursor k w) = at_cursor (S k) w.
Proof. done. Qed.

Lemma ascending_next (l : list string) k c c' :
  BTree.ascending l -> l !! k = Some c -> l !! S k = Some c' -> cmp c c' = Lt.
Proof.
  intros Hs. revert k. induction Hs as [|x l Hs IH Hx]; intros k; [done|]. destruct k as [|k]; simpl.
  - intros [= ->] Hc. eapply Forall_forall in Hx; [exact Hx|]. by eapply list_elem_of_lookup_2.
  - apply IH.
Qed.

Lemma candidate_known i w c : ws !! i = Some w -> c ∈ candidates w -> c ∈ concat (candidates <$> ws).
Proof.
  intros Hw Hc. apply list_elem_of_In, in_concat. exists (candidates w).
  split; apply list_elem_of_In; [|done]. apply list_elem_of_fmap. exists w. split; [done|].
  by eapply list_elem_of_lookup_2.
Qed.

Lemma waits_works g c i x x' : x_works x' !! i = x_works x !! i -> waits g c i x -> waits g c i x'.
Proof. intros E (w & k & ? & ? & Hw & ?). exists w, k. by rewrite E. Qed.

Lemma settled_mono w x x' :
  interface_of (x_targets x') w = interface_of (x_targets x) w -> x_locks x ⊆ x_locks x' -> settled w x -> settled w x'.
Proof.
  intros Ht Hl (i & c & s & Hi & Hs & Hc & Hg & Hm). exists i, c, s. rewrite Ht. split_and!; try done. by apply Hl.
Qed.

(** ** Advancing to the next candidate *)

Lemma advance_keeps g c i queue u :
  triple (inv g (Some c) (i :: queue)) (advance_prefix_work i c u) (fun _ => inv g (Some c) queue) failed.
Proof.
  intros x Hx. destruct (inv_queue _ _ _ _ Hx i) as (c0 & [= <-] & w & k & Hw & Hg & Hxw & Hc); [set_solver|].
  unfold advance_prefix_work, work_at, gets, lift, mbind, M_bind. rewrite Hxw. simpl.
  assert (Hord : locks_ok (x_locks x)) by apply Hx.
  destruct (match u with UnavailableExhausted => _ | UnavailableDeleted => _ end) as [[]|e] eqn:Eu.
  2:{ split; [|done]. destruct u; [done|]. revert Eu. unfold ensure.
      by destruct (automatic _); intros [= <-]. }
  simpl. destruct (candidates w !! S k) as [c'|] eqn:Hc'; simpl; [|done].
  destruct (plan_candidates _ _ Hplan w (list_elem_of_lookup_2 _ _ _ Hw)) as [_ Hasc].
  pose proof (ascending_next _ _ _ _ Hasc Hc Hc') as Hlt.
  unfold ensure. rewrite bool_decide_true by done. simpl.
  assert (Hnew : forall j, x_works (set_pending (push_entry c' i) (set_works (alter next_work i) x)) !! j =
    if decide (j = i) then Some (at_cursor (S k) w) else x_works x !! j).
  { intros j. simpl. case_decide; [subst; by rewrite list_lookup_alter_eq, Hxw|by rewrite list_lookup_alter_ne]. }
  set (x' := set_pending (push_entry c' i) (set_works (alter next_work i) x)) in *.
  assert (Hold : forall c j, j <> i -> waits g c j x -> waits g c j x').
  { intros c0 j Hj. apply waits_works. by rewrite Hnew, decide_False. }
  assert (Hi' : waits g c' i x').
  { exists w, (S k). rewrite Hnew, decide_True by done. done. }
  assert (Hperm : todo queue x' ≡ₚ todo (i :: queue) x).
  { unfold todo. simpl. rewrite push_concat by apply Hx. by rewrite Permutation_middle. }
  assert (Hni : i ∉ queue ++ concat (BTree.values (x_pending x))) by (pose proof (inv_todo _ _ _ _ Hx); by inversion H).
  split; try apply Hx.
  - intros j v Hv. rewrite Hnew. case_decide as E; [|by apply (inv_works _ _ _ _ Hx j)]. subst j. rewrite Hw in Hv.
    injection Hv as <-. eauto.
  - intros j v Hv Hd. rewrite Hperm in Hd. apply (settled_mono _ x); try done. by apply (inv_settled _ _ _ _ Hx j).
  - rewrite Hperm. apply Hx.
  - intros j Hj. destruct (inv_queue _ _ _ _ Hx j) as (c0 & Hb & Hwt); [set_solver|]. exists c0. split; [done|].
    apply Hold; [|done]. intros ->. set_solver.
  - apply push_wf, Hx.
  - apply (push_forall (fun c j => waits g c j x')); [apply Hx| |done]. intros c0 q j Hq Hj.
    apply Hold; [|by eapply inv_pending]. intros ->. apply Hni, elem_of_app. right. apply elem_of_values_concat. eauto.
  - intros c0 [->|H0]%BTree.elem_of_insert; [|by apply Hx]. eapply candidate_known; [done|by eapply list_elem_of_lookup_2].
  - intros j v Hv Hl. rewrite Hnew. case_decide as E; [|by apply (inv_later _ _ _ _ Hx)]. subst j. simplify_eq.
    by rewrite cmp_refl in Hl.
  - intros c0 c1 [= <-] [->|H1]%BTree.elem_of_insert; [done|]. by apply (inv_above _ _ _ _ Hx).
Qed.

(** ** One call of the execution *)

Definition operation_ok (w : PrefixAllocationWork) (operation : PrefixAllocationOperation) (x : exec) : Prop :=
  match slot w with
  | Primary => operation = Create
  | SecondaryIpv6 => exists s v c i, operation = Attach s /\ granted x v c s /\
      interface_of (x_targets x) w = Some i /\ network_segment_id i = Some s
  end.

Lemma interface_at_eq w x i :
  interface_of (x_targets x) w = Some i -> interface_at w x = (x, Ok i).
Proof.
  unfold interface_of, interface_at, gets, lift, mbind, M_bind, option_bind.
  destruct (x_targets x !! target_index w) as [t|]; simpl; [|done]. by intros ->.
Qed.

Lemma same_place_interface ts w v : same_place w v -> interface_of ts w = interface_of ts v.
Proof. unfold interface_of. by intros [-> ->]. Qed.

Lemma group_before w v : group v = (w_vpc_id w, Ipv4) -> family w = Ipv6 -> cmp (group v) (group w) = Lt.
Proof. intros -> Hf. unfold group. by rewrite Hf, cmp_pair, cmp_refl. Qed.

Lemma operation_keeps g b queue w k :
  w ∈ ws -> group w = g ->
  triple (inv g b queue) (operation_for (at_cursor k w)) (fun op x => inv g b queue x /\ operation_ok w op x) failed.
Proof.
  intros Hw Hg x Hx. unfold operation_for, operation_ok. simpl. destruct (slot w) eqn:Es; [done|].
  destruct (plan_secondary _ _ Hplan w Hw Es) as (Hf & j & v & Hv & Hsame & Hp & Hgv).
  destruct (inv_settled _ _ _ _ Hx j v Hv) as (i & c & s & Hi & Hs & _ & Hgr & _).
  { left. subst g. by apply group_before. }
  rewrite <- (same_place_interface _ w v Hsame) in Hi.
  assert (Hat : interface_at (at_cursor k w) x = (x, Ok i)) by (by apply interface_at_eq).
  unfold mbind, M_bind. rewrite Hat. unfold lift. rewrite Hs. simpl. split; [done|]. exists s, v, c, i. done.
Qed.

Lemma key_below g c e : before g (Some c) e -> cmp (lock_key e) (g, c) <> Gt.
Proof.
  unfold lock_key. rewrite cmp_pair. intros [->|(-> & c' & [= <-] & H)]; [done|]. by rewrite cmp_refl.
Qed.

Lemma call_keeps g c queue w k operation :
  w ∈ ws -> group w = g -> c ∈ candidates w ->
  triple (fun x => inv g (Some c) queue x /\ operation_ok w operation x)
    (call_attempt race fresh (at_cursor k w) c operation)
    (fun o x => inv g (Some c) queue x /\ operation_ok w operation x /\
       match o with
       | Allocated sg => exists s, granted x w c s /\ match operation with Create => sg = Some s | Attach s' => s = s' end
       | _ => True
       end) failed.
Proof.
  intros Hw Hg Hcand x [Hx Hop]. unfold call_attempt. simpl.
  set (r := attempt_prefix_candidate _ _ _ _ _ _ _ _ _).
  pose proof (attempt_result (x_calls x) (w_vpc_id w) (family w) (allocation_prefix_len w) c operation
    (requested_prefix w) PREFIX_ALLOCATION_TOTAL_ATTEMPTS (x_db x) (plan_len _ _ Hplan w Hw)) as Hr.
  fold attempt_prefix_candidate in Hr. fold r in Hr.
  set (e := mk_entry _ _ _ _ _ _ _).
  set (x' := mk_exec _ _ _ _ _ _).
  assert (Hle : Forall (fun old => cmp (lock_key old) (lock_key e) <> Gt) (x_locks x)).
  { apply Forall_forall. intros old Hold. unfold lock_key at 2. simpl. fold (group w). rewrite Hg.
    by apply key_below, (inv_before _ _ _ _ Hx). }
  assert (Hord : locks_ok (x_locks x')).
  { destruct (inv_order _ _ _ _ Hx) as [Ho He]. split; [by constructor|].
    intros e' [->|He']%elem_of_cons; [by exists w|by apply He]. }
  assert (Hx' : inv g (Some c) queue x').
  { split; try apply Hx; try done.
    - intros i v Hv Hd. apply (settled_mono _ x); [done|set_solver|]. by apply (inv_settled _ _ _ _ Hx i).
    - intros old [->|Hold]%elem_of_cons; [|by apply Hx]. right. split; [done|]. exists c. split; [done|].
      by rewrite cmp_refl.
    - intros Hi. apply attempt_db; [apply Hi|by apply Hx| |intros n; by apply (plan_requested _ _ Hplan)].
      unfold attachable, operation_ok in *. destruct operation as [|s]; [done|]. destruct (slot w); [done|].
      destruct Hop as (s' & v & c' & i & [= <-] & Hgr & _). destruct (ok_rows _ _ _ (inv_db _ _ _ _ Hx Hi) _ s Hgr eq_refl).
      naive_solver. }
  destruct r.2 as [o|err] eqn:Er; [|done]. split_and!; [done| |].
  - unfold operation_ok in *. destruct (slot w); [done|]. destruct Hop as (s & v & c' & i & Ho & Hgr & Hi & Hs).
    exists s, v, c', i. split_and!; try done. unfold granted in *. set_solver.
  - destruct o as [sg| |]; [|done..]. unfold granted, operation_ok in *. simpl. destruct operation as [|s'].
    + destruct Hr as [s ->]; [done|]. exists s. split; [|done]. unfold e, group.
      destruct (slot w); [by left|naive_solver].
    + exists s'. split; [|done]. unfold e, group. destruct (slot w); [done|by left].
Qed.

(** ** Recording a result *)

Lemma interface_of_put ts w v i i0 :
  interface_of ts w = Some i0 ->
  interface_of (put_interface w i ts) v =
  if decide (same_place w v) then Some i else interface_of ts v.
Proof.
  unfold interface_of, put_interface, same_place. intros H.
  destruct (ts !! target_index w) as [t|] eqn:Et; [|done]. simpl in H.
  destruct (decide (target_index w = target_index v)) as [E|E].
  - rewrite <- E, list_lookup_alter_eq, Et. simpl. case_decide as Hd.
    + destruct Hd as [_ <-]. apply list_lookup_insert_eq. by apply lookup_lt_Some in H.
    + rewrite list_lookup_insert_ne; [done|]. intros E'. by apply Hd.
  - rewrite list_lookup_alter_ne by done. rewrite decide_False; [done|]. naive_solver.
Qed.

(** What a result leaves of the other work on the same interface. *)
Lemma settled_other w v x c sg i i' :
  interface_of (x_targets x) w = Some i -> resolve_interface w c sg i = Ok i' -> slot w = SecondaryIpv6 -> slot v = Primary ->
  same_place w v -> settled v x -> settled v (set_targets (put_interface w i') x).
Proof.
  intros Hi Hr Hw Hv Hs (i0 & c0 & s & Hi0 & Hseg & Hc & Hg & Hm). rewrite Hv in Hm.
  rewrite <- (same_place_interface _ w v Hs), Hi in Hi0. injection Hi0 as <-. unfold resolve_interface in Hr.
  rewrite Hw in Hr. injection Hr as <-.
  exists (mk_interface (network_details i) (vpc_selection i) (network_segment_id i) (if_vpc_id i) (ip_addrs i)
    (requested_ip_addr i) (Some (mk_ipv6 c (c ← ipv6_interface_config i; v6_requested_ip_addr c)))
    (interface_prefixes i)), c0, s. simpl.
  rewrite (interface_of_put _ w v _ i Hi), decide_True by done. rewrite Hv. done.
Qed.

(** The primary work of an interface comes before its IPv6 work. *)
Lemma primary_first g w v j :
  ws !! j = Some v -> group w = g -> slot w = Primary -> slot v = SecondaryIpv6 -> same_place w v ->
  (exists i, ws !! i = Some w) -> cmp (group v) g = Lt \/ group v = g -> False.
Proof.
  intros Hv Hg Hw Hs [Hp1 Hp2] [i Hi] Hc.
  destruct (plan_secondary _ _ Hplan v (list_elem_of_lookup_2 _ _ _ Hv) Hs) as (Hf & j' & p & Hp & [Hq1 Hq2] & Hpp & Hgp).
  assert (j' = i) as ->.
  { eapply (plan_unique _ _ Hplan j' i p w); try done; [|congruence]. split; congruence. }
  rewrite Hi in Hp. injection Hp as ->. subst g. pose proof (group_before v p Hgp Hf) as Hlt.
  destruct Hc as [Hc|Hc]; [|rewrite Hc, cmp_refl in Hlt; done].
  pose proof (cmp_trans _ _ _ Hlt Hc) as H. by rewrite cmp_refl in H.
Qed.

Lemma apply_keeps g c i queue w k sg operation s :
  ws !! i = Some w -> group w = g -> c ∈ candidates w ->
  match operation with Create => sg = Some s | Attach s' => s = s' end ->
  triple (fun x => inv g (Some c) (i :: queue) x /\ operation_ok w operation x /\ granted x w c s)
    (apply_prefix_resolution (at_cursor k w) c sg) (fun _ => inv g (Some c) queue) failed.
Proof.
  intros Hw Hg Hc Hsg x (Hx & Hop & Hgr). pose proof (list_elem_of_lookup_2 _ _ _ Hw) as Hin.
  destruct (inv_targets _ _ _ _ Hx w Hin) as [i0 Hi0].
  assert (Hat : interface_at (at_cursor k w) x = (x, Ok i0)) by (by apply interface_at_eq).
  assert (exists i', resolve_interface (at_cursor k w) c sg i0 = Ok i' /\ network_segment_id i' = Some s /\
    match slot w with
    | Primary => network_details i' = Some (ByVpcPrefixId c) /\ if_vpc_id i' = Some (w_vpc_id w)
    | SecondaryIpv6 => v6_vpc_prefix_id <$> ipv6_interface_config i' = Some c
    end) as (i' & Hr & Hseg & Hm).
  { unfold resolve_interface, operation_ok in *. simpl. destruct (slot w).
    - subst operation. rewrite Hsg. simpl. eexists. split; [done|]. done.
    - destruct Hop as (s' & v & c' & i1 & -> & _ & Hi1 & Hs1). rewrite Hi0 in Hi1. injection Hi1 as <-.
      subst s. eexists. split; [done|]. done. }
  unfold apply_prefix_resolution, mbind, M_bind. rewrite Hat. unfold lift. rewrite Hr. simpl.
  set (x' := set_targets (put_interface (at_cursor k w) i') x).
  assert (Hput : forall v, interface_of (x_targets x') v =
    if decide (same_place w v) then Some i' else interface_of (x_targets x) v).
  { intros v. apply (interface_of_put (x_targets x) (at_cursor k w) v i' i0 Hi0). }
  assert (Hnew : settled w x').
  { exists i', c, s. rewrite Hput, decide_True by done. done. }
  pose proof (inv_todo _ _ _ _ Hx) as Hnd. apply NoDup_cons in Hnd as [Hni Hnd].
  split; try apply Hx; try done.
  - intros v Hv. rewrite Hput. case_decide; [done|]. by apply Hx.
  - intros v Hv. rewrite Hput, decide_False by (by apply Hv). by apply (inv_frame _ _ _ _ Hx).
  - intros j v Hv Hd. destruct (decide (j = i)) as [->|Hne]; [by simplify_eq|].
    assert (Hold : settled v x).
    { apply (inv_settled _ _ _ _ Hx j v Hv). destruct Hd as [?|[? Hd]]; [by left|right]. split; [done|].
      intros [?|?]%elem_of_cons; [done|]. by apply Hd. }
    destruct (decide (same_place w v)) as [Hs|Hs].
    + destruct (slot w) eqn:Ew, (slot v) eqn:Ev.
      * destruct Hne. apply (plan_unique _ _ Hplan j i v w); try done; [|congruence]. split; symmetry; apply Hs.
      * exfalso. apply (primary_first g w v j); try done; [by exists i|].
        destruct Hd as [?|[? _]]; [by left|by right].
      * by apply (settled_other (at_cursor k w) v x c sg i0).
      * destruct Hne. apply (plan_unique _ _ Hplan j i v w); try done; [|congruence]. split; symmetry; apply Hs.
    + apply (settled_mono _ x); [|done|done]. by rewrite Hput, decide_False.
  - intros j Hj. destruct (inv_queue _ _ _ _ Hx j) as (c0 & Hb & Hwt); [set_solver|]. exists c0. split; [done|].
    by apply (waits_works _ _ _ x).
Qed.

(** ** The loops *)

Lemma triple_pure {A} (phi : Prop) P (m : M A) Q E : (phi -> triple P m Q E) -> triple (fun x => P x /\ phi) m Q E.
Proof. intros H x [Hx Hp]. exact (H Hp x Hx). Qed.

Lemma work_at_keeps g c i queue :
  triple (inv g (Some c) (i :: queue)) (work_at i)
    (fun w' x => inv g (Some c) (i :: queue) x /\
       exists w k, w' = at_cursor k w /\ ws !! i = Some w /\ group w = g /\ c ∈ candidates w) failed.
Proof.
  intros x Hx. destruct (inv_queue _ _ _ _ Hx i) as (c0 & [= <-] & w & k & Hw & Hg & Hxw & Hc); [set_solver|].
  unfold work_at, gets, lift, mbind, M_bind. rewrite Hxw. simpl. split; [done|]. exists w, k. split_and!; try done.
  by eapply list_elem_of_lookup_2.
Qed.

Lemma drain_candidate_keeps g c queue : forall u,
  triple (inv g (Some c) queue) (drain_candidate race fresh c u queue) (fun _ => inv g (Some c) []) failed.
Proof.
  induction queue as [|i queue IH]; intros u; simpl; [by apply triple_ret|]. destruct u as [u|].
  { eapply triple_bind; [apply advance_keeps|]. intros []. apply IH. }
  eapply triple_bind; [apply work_at_keeps|]. intros w'. simpl. apply triple_pure.
  intros (w & k & -> & Hw & Hg & Hc). pose proof (list_elem_of_lookup_2 _ _ _ Hw) as Hin.
  eapply triple_bind; [by apply operation_keeps|]. intros op. simpl.
  eapply triple_bind; [by apply call_keeps|]. intros [sg| |]; simpl.
  - apply (triple_bind _ _ _ (fun _ => inv g (Some c) queue)); [|intros []; apply IH]. intros x (Hx & Ho & s & Hgr & Hsg).
    by apply (apply_keeps g c i queue w k sg op s Hw Hg Hc Hsg).
  - apply (triple_bind _ _ _ (fun _ => inv g (Some c) queue)); [|intros []; apply IH]. intros x (Hx & _). by apply advance_keeps.
  - apply (triple_bind _ _ _ (fun _ => inv g (Some c) queue)); [|intros []; apply IH]. intros x (Hx & _). by apply advance_keeps.
Qed.

(** Candidates that can still come up. *)
Definition after (b : option string) (c : string) : bool :=
  match b with Some c0 => bool_decide (cmp c0 c = Lt) | None => true end.
Definition above (b : option string) : nat :=
  length (filter (fun c => after b c = true) (concat (candidates <$> ws))).

Lemma above_pop g b queue x c : inv g b queue x -> c ∈ BTree.keys (x_pending x) -> (above (Some c) < above b)%nat.
Proof.
  intros Hx Hc. unfold above. apply filter_shorter with c; unfold after.
  - intros c' Hl%bool_decide_eq_true. destruct b as [c0|]; [|done]. apply bool_decide_eq_true.
    by eapply cmp_trans; [apply (inv_above _ _ _ _ Hx c0)|].
  - by apply (inv_keys _ _ _ _ Hx).
  - destruct b as [c0|]; [|done]. by apply bool_decide_eq_true, (inv_above _ _ _ _ Hx c0).
  - by rewrite bool_decide_eq_true, cmp_refl.
Qed.

Lemma pop_keeps g b x c queue rest :
  inv g b [] x -> x_pending x = (c, queue) :: rest -> inv g (Some c) queue (set_pending (fun _ => rest) x).
Proof.
  intros Hx Hp. pose proof (inv_wf _ _ _ _ Hx) as Hwf. rewrite Hp in Hwf. apply BTree.wf_cons in Hwf as [Hwf Hlt].
  assert (Htodo : todo queue (set_pending (fun _ => rest) x) = todo [] x) by (unfold todo; by rewrite Hp).
  split; try apply Hx; try done.
  - intros i w Hw. rewrite Htodo. apply (inv_settled _ _ _ _ Hx i w Hw).
  - rewrite Htodo. apply Hx.
  - intros i Hi. exists c. split; [done|]. apply (inv_pending _ _ _ _ Hx c queue i); [|done]. rewrite Hp. set_solver.
  - intros c' q i Hq. apply (inv_pending _ _ _ _ Hx). rewrite Hp. set_solver.
  - intros c' Hc'. apply (inv_keys _ _ _ _ Hx). rewrite Hp. csimpl. set_solver.
  - intros c0 c1 [= <-] H1. by eapply Forall_forall in Hlt.
  - intros e He. destruct (inv_before _ _ _ _ Hx e He) as [Hl|(Hl & c0 & -> & Hc)]; [by left|right].
    split; [done|]. exists c. split; [done|]. assert (Hlt' : cmp c0 c = Lt).
    { apply (inv_above _ _ _ _ Hx c0 c); [done|]. rewrite Hp. csimpl. set_solver. }
    destruct (cmp (l_id e) c0) eqn:E; [apply cmp_eq in E as ->; by rewrite Hlt'|by rewrite (cmp_trans _ _ _ E Hlt')|done].
Qed.

Lemma drain_pending_keeps g fuel : forall b,
  (above b < fuel)%nat ->
  triple (inv g b []) (drain_pending race fresh fuel) (fun _ x => exists b, inv g b [] x /\ x_pending x = []) failed.
Proof.
  induction fuel as [|fuel IH]; intros b Hb; [lia|]. simpl. apply triple_gets. intros [|[c queue] rest].
  { apply triple_ret. intros x [Hx Hp]. by exists b. }
  intros x [Hx Hp]. pose proof (pop_keeps _ _ _ _ _ _ Hx Hp) as Hx1.
  assert (Hlt : (above (Some c) < above b)%nat) by (eapply above_pop; [exact Hx|rewrite Hp; csimpl; set_solver]).
  refine (triple_bind (modify _) _ (fun y => y = x) (fun _ y => inv g (Some c) queue y) _ _ _ _ x eq_refl).
  - intros y ->. exact Hx1.
  - intros []. eapply triple_bind; [apply drain_candidate_keeps|]. intros []. apply IH. lia.
Qed.

(** ** Groups *)

(** Works with their indices, in the map of groups. *)
Lemma group_works_spec l : forall n m,
  BTree.wf m -> BTree.wf (group_works n l m) /\
  forall g i, (exists q, BTree.get g (group_works n l m) = Some q /\ i ∈ q) <->
    (exists q, BTree.get g m = Some q /\ i ∈ q) \/ exists k w, l !! k = Some w /\ group w = g /\ i = (n + k)%nat.
Proof.
  induction l as [|w l IH]; intros n m Hm; simpl.
  { split; [done|]. intros g i. split; [by left|]. intros [?|(k & v & Hk & _)]; done. }
  destruct (IH (S n) (push_entry (group w) n m)) as [Hwf Hspec]; [by apply push_wf|]. split; [done|].
  intros g i. rewrite Hspec. rewrite get_push by done. split.
  - intros [(q & Hq & Hi)|(k & v & Hk & Hv & ->)].
    + case_decide as E; [|left; by exists q]. injection Hq as <-.
      apply elem_of_app in Hi as [Hi| ->%list_elem_of_singleton].
      * left. subst g. destruct (BTree.get (group w) m) as [q|]; [|by apply elem_of_nil in Hi]. by exists q.
      * right. exists 0%nat, w. split_and!; [done|done|lia].
    + right. exists (S k), v. split_and!; [done|done|lia].
  - intros [(q & Hq & Hi)|([|k] & v & Hk & Hv & ->)].
    + left. case_decide as E; [|by exists q]. subst g. rewrite Hq. eexists. split; [done|]. set_solver.
    + injection Hk as <-. left. rewrite decide_True by done. eexists. split; [done|].
      replace (n + 0)%nat with n by lia. set_solver.
    + right. exists k, v. split_and!; [done|done|lia].
Qed.

Lemma group_works_concat l : forall n m,
  BTree.wf m -> concat (BTree.values (group_works n l m)) ≡ₚ concat (BTree.values m) ++ seq n (length l).
Proof.
  induction l as [|w l IH]; intros n m Hm; simpl; [by rewrite app_nil_r|].
  rewrite IH by (by apply push_wf). rewrite push_concat by done. by rewrite <- Permutation_middle.
Qed.

Definition groups : BTreeMap (string * IpAddressFamily) (list nat) := group_works 0 ws [].

Lemma groups_wf : BTree.wf groups.
Proof. apply group_works_spec, BTree.wf_nil. Qed.

Lemma elem_of_groups g q i : (g, q) ∈ groups -> i ∈ q <-> exists w, ws !! i = Some w /\ group w = g.
Proof.
  intros Hq%BTree.get_elem; [|apply groups_wf]. destruct (group_works_spec ws 0 []) as [_ Hs]; [apply BTree.wf_nil|].
  specialize (Hs g i). fold groups in Hs. rewrite Hq in Hs. split.
  - intros Hi. destruct (proj1 Hs) as [(? & ? & _)|(k & w & Hk & Hg & ->)]; [by exists q|done|eauto].
  - intros (w & Hw & Hg). destruct (proj2 Hs) as (q' & [= <-] & Hi); [|done]. right. by exists i, w.
Qed.

Lemma group_listed i w : ws !! i = Some w -> group w ∈ BTree.keys groups.
Proof.
  intros Hw. apply BTree.elem_of_keys; [apply groups_wf|].
  destruct (group_works_spec ws 0 []) as [_ Hs]; [apply BTree.wf_nil|]. specialize (Hs (group w) i). fold groups in Hs.
  destruct (proj2 Hs) as (q & Hq & _); [|by eexists]. right. by exists i, w.
Qed.

Lemma groups_NoDup : NoDup (concat (BTree.values groups)).
Proof. unfold groups. rewrite group_works_concat by apply BTree.wf_nil. apply NoDup_seq. Qed.

(** ** Entering a group *)

Lemma enter_group_ok x indices : forall p,
  BTree.wf p -> (forall i, i ∈ indices -> exists w, ws !! i = Some w /\ x_works x !! i = Some w) ->
  exists p', enter_group indices p x = (x, Ok p') /\ BTree.wf p' /\
    concat (BTree.values p') ≡ₚ concat (BTree.values p) ++ indices /\
    (forall c, c ∈ BTree.keys p' -> c ∈ BTree.keys p \/ c ∈ concat (candidates <$> ws)) /\
    forall c q i, (c, q) ∈ p' -> i ∈ q ->
      (exists q, (c, q) ∈ p /\ i ∈ q) \/ exists w, ws !! i = Some w /\ x_works x !! i = Some w /\ head (candidates w) = Some c.
Proof.
  induction indices as [|i indices IH]; intros p Hp Hin; simpl.
  { exists p. split_and!; [done|done|by rewrite app_nil_r|eauto..]. }
  destruct (Hin i) as (w & Hw & Hxw); [set_solver|].
  destruct (plan_candidates _ _ Hplan w (list_elem_of_lookup_2 _ _ _ Hw)) as [Hne _].
  destruct (candidates w) as [|c cs] eqn:Ec; [done|].
  destruct (IH (push_entry c i p)) as (p' & E & Hwf & Hperm & Hk & Hall); [by apply push_wf|set_solver|].
  exists p'. split_and!.
  - unfold work_at, gets, lift, mbind, M_bind. rewrite Hxw. simpl. rewrite Ec. simpl. done.
  - done.
  - rewrite Hperm, push_concat by done. simpl. by rewrite Permutation_middle.
  - intros c' [Hc'|Hc']%Hk; [|by right]. apply BTree.elem_of_insert in Hc' as [->|Hc']; [right|by left].
    eapply candidate_known; [done|]. rewrite Ec. set_solver.
  - intros c' q j Hq Hj. destruct (Hall c' q j Hq Hj) as [(q' & Hq' & Hj')|H]; [|by right].
    refine (push_forall (fun c' j => (exists q, (c', q) ∈ p /\ j ∈ q) \/
      exists w, ws !! j = Some w /\ x_works x !! j = Some w /\ head (candidates w) = Some c') c i p Hp _ _ c' q' j Hq' Hj').
    + eauto.
    + right. exists w. by rewrite Ec.
Qed.

(** ** Group after group *)

(** The groups [m] are left. *)
Record left_groups (m : BTreeMap (string * IpAddressFamily) (list nat)) : Prop := {
  left_wf : BTree.wf m;
  left_groups_of g q : (g, q) ∈ m -> (g, q) ∈ groups;
  left_rest i w : ws !! i = Some w -> group w ∈ BTree.keys m \/ forall g, g ∈ BTree.keys m -> cmp (group w) g = Lt
}.

Record between (m : BTreeMap (string * IpAddressFamily) (list nat)) (x : exec) : Prop := {
  btw_works i w : ws !! i = Some w -> exists k, x_works x !! i = Some (at_cursor k w);
  btw_later i w : ws !! i = Some w -> group w ∈ BTree.keys m -> x_works x !! i = Some w;
  btw_targets w : w ∈ ws -> is_Some (interface_of (x_targets x) w);
  btw_frame : untouched x;
  btw_settled i w : ws !! i = Some w -> group w ∈ BTree.keys m \/ settled w x;
  btw_order : locks_ok (x_locks x);
  btw_before e g : e ∈ x_locks x -> g ∈ BTree.keys m -> cmp (l_group e) g = Lt;
  btw_db : sound_start -> db_ok (x_calls x) (x_locks x) (x_db x)
}.

Lemma left_tail g q m : left_groups ((g, q) :: m) -> left_groups m.
Proof.
  intros [Hwf Hg Hr]. apply BTree.wf_cons in Hwf as [Hwf Hlt]. split; [done|set_solver|].
  intros i w Hw. destruct (Hr i w Hw) as [Hk|Hk].
  - csimpl in Hk. apply elem_of_cons in Hk as [Hk|Hk]; [|by left]. right. intros g' Hg'. rewrite Hk.
    by eapply Forall_forall in Hlt.
  - right. intros g' Hg'. apply Hk. csimpl. set_solver.
Qed.

Lemma group_start m g q x p :
  left_groups ((g, q) :: m) -> between ((g, q) :: m) x ->
  BTree.wf p -> concat (BTree.values p) ≡ₚ q ->
  (forall c, c ∈ BTree.keys p -> c ∈ concat (candidates <$> ws)) ->
  (forall c l i, (c, l) ∈ p -> i ∈ l -> exists w, ws !! i = Some w /\ x_works x !! i = Some w /\ head (candidates w) = Some c) ->
  inv g None [] (set_pending (fun _ => p) x).
Proof.
  intros Hm Hx Hp Hperm Hkeys Hall. pose proof (left_wf _ Hm) as Hwf. apply BTree.wf_cons in Hwf as [_ Hlt].
  assert (Hq : forall i, i ∈ q <-> exists w, ws !! i = Some w /\ group w = g).
  { intros i. apply elem_of_groups. apply (left_groups_of _ Hm). set_solver. }
  assert (Hwait : forall c l i, (c, l) ∈ p -> i ∈ l -> waits g c i (set_pending (fun _ => p) x)).
  { intros c l i Hc Hi. destruct (Hall c l i Hc Hi) as (w & Hw & Hxw & Hh). exists w, 0%nat.
    assert (Hiq : i ∈ q) by (rewrite <- Hperm; apply elem_of_values_concat; eauto).
    apply Hq in Hiq as (w' & Hw' & Hg). simplify_eq. split_and!; [done..| |].
    - simpl. rewrite Hxw. f_equal. symmetry. apply (plan_cursor _ _ Hplan). by eapply list_elem_of_lookup_2.
    - by destruct (candidates w). }
  split; try apply Hx; try done.
  - intros i w Hw [Hl|[Hg Hn]].
    + destruct (btw_settled _ _ Hx i w Hw) as [Hk|]; [|done]. csimpl in Hk. apply elem_of_cons in Hk as [Hk|Hk].
      * by rewrite Hk, cmp_refl in Hl.
      * eapply Forall_forall in Hk; [|exact Hlt]. destruct (cmp_asym _ _ Hl Hk).
    + destruct Hn. unfold todo. simpl. rewrite Hperm. apply Hq. eauto.
  - unfold todo. simpl. rewrite Hperm. pose proof groups_NoDup as Hnd.
    assert (Hin : (g, q) ∈ groups) by (apply (left_groups_of _ Hm); set_solver).
    apply list_elem_of_split in Hin as (l1 & l2 & E). rewrite E in Hnd. unfold BTree.values in Hnd.
    rewrite fmap_app, concat_app in Hnd. csimpl in Hnd. apply NoDup_app in Hnd as (_ & _ & Hnd).
    by apply NoDup_app in Hnd as [Hnd _].
  - intros i Hi. by apply elem_of_nil in Hi.
  - intros i w Hw Hl. apply (btw_later _ _ Hx i w Hw). destruct (left_rest _ Hm i w Hw) as [Hk|Hk]; [done|].
    destruct (cmp_asym _ _ Hl). apply Hk. csimpl. set_solver.
  - intros e He. left. apply (btw_before _ _ Hx e g He). csimpl. set_solver.
Qed.

Lemma group_end m g q x b :
  left_groups ((g, q) :: m) -> inv g b [] x -> x_pending x = [] -> between m x.
Proof.
  intros Hm Hx Hp. pose proof (left_wf _ Hm) as Hwf. apply BTree.wf_cons in Hwf as [_ Hlt].
  assert (Hl : forall g', g' ∈ BTree.keys m -> cmp g g' = Lt) by (intros g' Hg'; by eapply Forall_forall in Hlt).
  split; try apply Hx.
  - intros i w Hw Hk. apply (inv_later _ _ _ _ Hx i w Hw). by apply Hl.
  - intros i w Hw. destruct (left_rest _ Hm i w Hw) as [Hk|Hk].
    + csimpl in Hk. apply elem_of_cons in Hk as [Hk|Hk]; [|by left]. right. apply (inv_settled _ _ _ _ Hx i w Hw).
      right. split; [done|]. unfold todo. rewrite Hp. by apply not_elem_of_nil.
    + right. apply (inv_settled _ _ _ _ Hx i w Hw). left. apply Hk. csimpl. set_solver.
  - intros e g' He Hg'. destruct (inv_before _ _ _ _ Hx e He) as [H|[-> _]]; [|by apply Hl].
    eapply cmp_trans; [done|by apply Hl].
Qed.

Lemma run_group_keeps fuel m g q :
  (length (concat (candidates <$> ws)) < fuel)%nat -> left_groups ((g, q) :: m) ->
  triple (between ((g, q) :: m)) (run_group race fresh fuel q) (fun _ => between m) failed.
Proof.
  intros Hf Hm x Hx.
  destruct (enter_group_ok x q [] BTree.wf_nil) as (p & E & Hwf & Hperm & Hkeys & Hall).
  { intros i Hi. apply (elem_of_groups g q) in Hi as (w & Hw & Hg); [|apply (left_groups_of _ Hm); set_solver].
    exists w. split; [done|]. apply (btw_later _ _ Hx i w Hw). rewrite Hg. csimpl. set_solver. }
  unfold run_group, mbind, M_bind. rewrite E. cbn [modify].
  assert (Hi : inv g None [] (set_pending (fun _ => p) x)).
  { eapply group_start; [exact Hm|done|done|by rewrite Hperm| |].
    - intros c Hc. destruct (Hkeys c Hc) as [Hn|]; [by apply elem_of_nil in Hn|done].
    - intros c l i Hc Hi. destruct (Hall c l i Hc Hi) as [(l' & Hn & _)|]; [by apply elem_of_nil in Hn|done]. }
  assert (Ha : (above None < fuel)%nat).
  { eapply Nat.le_lt_trans; [|exact Hf]. apply length_filter. }
  pose proof (drain_pending_keeps g fuel None Ha _ Hi) as H.
  destruct (drain_pending race fresh fuel _) as [x' [[]|e]]; [|done]. destruct H as (b & Hb & Hp).
  by eapply group_end.
Qed.

Lemma run_groups_keeps fuel m :
  (length (concat (candidates <$> ws)) < fuel)%nat -> left_groups m ->
  triple (between m) (run_groups race fresh fuel (BTree.values m)) (fun _ => between []) failed.
Proof.
  intros Hf. induction m as [|[g q] m IH]; intros Hm; csimpl; [by apply triple_ret|].
  eapply triple_bind; [by apply run_group_keeps|]. intros []. apply IH. by eapply left_tail.
Qed.

Lemma total_candidates_eq : total_candidates ws = length (concat (candidates <$> ws)).
Proof.
  unfold total_candidates. clear. induction ws as [|w l IH]; csimpl; [done|]. rewrite length_app. by f_equal.
Qed.

(** An execution of a plan fails cleanly, or settles every work item. *)
Lemma execute_spec :
  match execute_prefix_allocations race fresh targets start ws with
  | (x, Ok _) => locks_ok (x_locks x) /\ untouched x /\ (forall w, w ∈ ws -> settled w x) /\
      (sound_start -> db_ok (x_calls x) (x_locks x) (x_db x))
  | (x, Err e) => failed e x
  end.
Proof.
  unfold execute_prefix_allocations.
  pose proof (run_groups_keeps (S (total_candidates ws)) groups) as H. rewrite total_candidates_eq in *.
  specialize (H (Nat.lt_succ_diag_r _)).
  assert (Hl : left_groups groups).
  { split; [apply groups_wf|done|]. intros i w Hw. left. by eapply group_listed. }
  assert (Hs : between groups (mk_exec start targets ws [] 0 [])).
  { assert (Hc : forall i w, ws !! i = Some w -> at_cursor 0 w = w).
    { intros i w Hw. apply (plan_cursor _ _ Hplan). by eapply list_elem_of_lookup_2. }
    split; simpl; try done.
    - intros i w Hw. exists 0%nat. by rewrite (Hc i w Hw).
    - apply Hplan.
    - intros i w Hw. left. by eapply group_listed.
    - split; [constructor|]. intros e He. by apply elem_of_nil in He.
    - intros e g He. by apply elem_of_nil in He.
    - intros (_ & Hw & Hf). split; [done|by intros a b _| |done|by intros []].
      intros e s He. by apply elem_of_nil in He. }
  specialize (H Hl _ Hs). fold groups.
  destruct (run_groups _ _ _ _ _) as [x [[]|e]]; [|done]. destruct H as [H1 H2 H3 H4 H5 H6 H7 H8].
  split_and!; [done..| |done]. intros w [i Hi]%list_elem_of_lookup. destruct (H5 i w Hi) as [Hn|]; [|done].
  by apply elem_of_nil in Hn.
Qed.

End Execution.

End Batch.
End PrefixBatch.
