(* ===== verification/PrefixPlan.v ===== *)
(** * PrefixPlan: the plans of the prefix allocation, and the whole of it

    What [load_prefix_allocation_context] and [plan_prefix_allocations] promise to
    the execution, and with it the theorems about [allocate_networks]: how it can
    fail, what it leaves when it succeeds, and that concurrent batches cannot
    deadlock. *)

From S2P Require Import Prelude Text ConfigVersion StateHandler Processor StateTable IpNetwork.
From S2P Require Import PrefixAllocator BTree NetworkSegment VpcPrefix PrefixAllocation PrefixBatch.
Import AddressFamily PrefixAllocator VpcPrefix PrefixAllocation PrefixBatch.

Module PrefixPlan.
Section Plan.
Context {crate : IpNetworkCrate}.

(** ** Discovery *)

Definition all_interfaces (targets : list NetworkAllocationTarget) : list InstanceInterfaceConfig :=
  concat (interfaces <$> targets).

Lemma discover_all_flat targets :
  discover_all targets = fold_left discover (all_interfaces targets) (mk_discovered [] [] []).
Proof.
  unfold discover_all, all_interfaces. generalize (mk_discovered [] [] []).
  induction targets as [|t targets IH]; intros s; csimpl; [done|]. by rewrite fold_left_app.
Qed.

Lemma discover_automatic i s v :
  v ∈ BTree.keys (automatic_vpc_ids (discover s i)) <->
  v ∈ BTree.keys (automatic_vpc_ids s) \/ sel_vpc_id <$> vpc_selection i = Some v.
Proof.
  unfold discover. destruct (vpc_selection i) as [sel|]; simpl; [|naive_solver].
  unfold set_insert. rewrite BTree.elem_of_insert. naive_solver.
Qed.

Lemma discovered_automatic targets i sel :
  i ∈ all_interfaces targets -> vpc_selection i = Some sel ->
  sel_vpc_id sel ∈ BTree.keys (automatic_vpc_ids (discover_all targets)).
Proof.
  intros Hi Hs. rewrite discover_all_flat.
  apply (fold_left_reach discover (fun s => sel_vpc_id sel ∈ BTree.keys (automatic_vpc_ids s)) i).
  - done.
  - intros s j H. apply discover_automatic. by left.
  - intros s. apply discover_automatic. right. by rewrite Hs.
Qed.

Lemma discover_explicit i s v :
  v ∈ BTree.keys (explicit_prefix_ids s) \/ vpc_selection i = None /\ network_details i = Some (ByVpcPrefixId v) ->
  v ∈ BTree.keys (explicit_prefix_ids (discover s i)).
Proof.
  unfold discover. destruct (vpc_selection i) as [sel|]; simpl; [naive_solver|]. intros H.
  assert (H' : v ∈ BTree.keys match network_details i with
    | Some (ByVpcPrefixId id) => set_insert id (explicit_prefix_ids s) | _ => explicit_prefix_ids s end).
  { destruct (network_details i) as [[?|id]|]; [naive_solver| |naive_solver].
    apply BTree.elem_of_insert. naive_solver. }
  destruct (ipv6_interface_config i); [|done]. apply BTree.elem_of_insert. by right.
Qed.

Lemma discovered_explicit targets i id :
  i ∈ all_interfaces targets -> vpc_selection i = None -> network_details i = Some (ByVpcPrefixId id) ->
  id ∈ BTree.keys (explicit_prefix_ids (discover_all targets)).
Proof.
  intros Hi Hs Hn. rewrite discover_all_flat. apply (fold_left_reach discover (fun s => id ∈ BTree.keys (explicit_prefix_ids s)) i).
  - done.
  - intros s j H. apply discover_explicit. by left.
  - intros s. apply discover_explicit. by right.
Qed.

(** ** Frozen candidates *)

Definition candidate_key (c : string * vpc_prefix_row) : string * string := (vpc_id c.2, c.1).

Lemma ascending_of_sorted {A K} `{Ord K} (f : A -> K) (l : list A) :
  StronglySorted (fun x y => cmp (f x) (f y) <> Gt) l -> NoDup (f <$> l) -> BTree.ascending (f <$> l).
Proof.
  induction 1 as [|x l Hs IH Hx]; csimpl; [constructor|]. intros [Hn Hnd]%NoDup_cons. constructor; [by apply IH|].
  apply Forall_fmap, Forall_forall. intros y Hy. simpl. eapply Forall_forall in Hx; [|exact Hy].
  destruct (cmp (f x) (f y)) eqn:E; [|done|done]. apply cmp_eq in E. destruct Hn. rewrite E. by apply list_elem_of_fmap_2.
Qed.

Lemma candidates_ascending d vs : BTree.ascending (candidate_key <$> find_allocation_candidates d vs).
Proof.
  apply ascending_of_sorted; unfold find_allocation_candidates.
  - apply StronglySorted_merge_sort; [intros x y z; apply cmp_le_trans|].
    intros x y. rewrite (cmp_opp (vpc_id x.2, x.1)). destruct (cmp _ _); simpl; auto.
  - rewrite merge_sort_Permutation. apply (NoDup_fmap_1 snd). rewrite <- list_fmap_compose.
    eapply sublist_NoDup; [apply (NoDup_fst_map_to_list (vpc_prefixes d))|]. apply fmap_sublist, sublist_filter.
Qed.

Lemma elem_of_allocation_candidates d vs c r :
  (c, r) ∈ find_allocation_candidates d vs -> vpc_prefixes d !! c = Some r.
Proof.
  unfold find_allocation_candidates. rewrite merge_sort_Permutation, list_elem_of_filter.
  by intros [_ H%elem_of_map_to_list].
Qed.

(** The candidates in a map are rows of their group, in ascending order, and come
    before the rows [l] that are still to be visited. *)
Definition frozen (d : db) (l : list (string * vpc_prefix_row))
    (m : BTreeMap (string * IpAddressFamily) (list string)) : Prop :=
  BTree.wf m /\ forall v f cs, BTree.get (v, f) m = Some cs ->
    BTree.ascending cs /\ forall c, c ∈ cs ->
      (exists r, vpc_prefixes d !! c = Some r /\ vpc_id r = v /\ family_of (vp_prefix r) = f) /\
      forall y, y ∈ l -> cmp (v, c) (candidate_key y) = Lt.

Lemma ascending_snoc (l : list string) x :
  BTree.ascending l -> (forall y, y ∈ l -> cmp y x = Lt) -> BTree.ascending (l ++ [x]).
Proof.
  intros Hl Hx. induction Hl as [|y l Hl IH Hy]; simpl; [repeat constructor|]. constructor.
  - apply IH. intros z Hz. apply Hx. set_solver.
  - apply Forall_app. split; [done|]. constructor; [|done]. apply Hx. set_solver.
Qed.

Lemma freeze_frozen d vs l : forall m,
  BTree.ascending (candidate_key <$> l) -> (forall c r, (c, r) ∈ l -> vpc_prefixes d !! c = Some r) ->
  frozen d l m -> frozen d [] (fold_left (freeze vs) l m).
Proof.
  induction l as [|[c r] l IH]; intros m Hasc Hl Hm; simpl; [done|]. csimpl in Hasc.
  apply StronglySorted_inv in Hasc as [Hasc Hlt]. apply IH; [done|set_solver|].
  assert (Htail : frozen d l m).
  { destruct Hm as [Hwf Hm]. split; [done|]. intros v f cs Hg. destruct (Hm v f cs Hg) as [Ha Hc].
    split; [done|]. intros c0 Hc0. destruct (Hc c0 Hc0) as [? Hy]. split; [done|]. set_solver. }
  unfold freeze. simpl. destruct (vs !! vpc_id r) as [v|]; [|done]. destruct (vpc_prefix_can_allocate_interface_prefix _ _ _); [|done].
  destruct Hm as [Hwf Hm]. split; [by apply push_wf|]. intros v0 f0 cs. rewrite get_push by done.
  case_decide as E; [|by apply Htail]. injection E as -> ->. intros [= <-].
  assert (Hold : forall c0, c0 ∈ default [] (BTree.get (vpc_id r, family_of (vp_prefix r)) m) -> cmp c0 c = Lt).
  { intros c0 Hc0. destruct (BTree.get _ m) as [cs|] eqn:Eg; [|by apply elem_of_nil in Hc0].
    destruct (Hm _ _ _ Eg) as [_ Hc]. destruct (Hc c0 Hc0) as [_ Hy]. specialize (Hy (c, r) (list_elem_of_here _ _)).
    change (cmp (vpc_id r, c0) (vpc_id r, c) = Lt) in Hy. by rewrite cmp_pair, cmp_refl in Hy. }
  split.
  - apply ascending_snoc; [|done]. destruct (BTree.get _ m) as [cs|] eqn:Eg; simpl; [by apply Hm in Eg as [? _]|constructor].
  - intros c0 [Hc0| ->%list_elem_of_singleton]%elem_of_app.
    + destruct (BTree.get _ m) as [cs|] eqn:Eg; [|by apply elem_of_nil in Hc0]. destruct Htail as [_ Ht].
      by apply (Ht _ _ _ Eg).
    + split; [exists r; split_and!; [apply Hl; set_solver|done..]|]. intros y Hy. eapply Forall_forall in Hlt; [exact Hlt|].
      by apply list_elem_of_fmap_2.
Qed.

(** ** The context *)

(** Row [c] is a VPC prefix of group [g]. *)
Definition placed_in (d : db) (g : string * IpAddressFamily) (c : string) : Prop :=
  exists r, vpc_prefixes d !! c = Some r /\ (vpc_id r, family_of (vp_prefix r)) = g.

Record context_ok (targets : list NetworkAllocationTarget) (d : db) (ctx : PrefixAllocationContext) : Prop := {
  ctx_automatic v f cs : BTree.get (v, f) (automatic_candidates ctx) = Some cs ->
    BTree.ascending cs /\ forall c, c ∈ cs -> placed_in d (v, f) c;
  ctx_explicit id r : explicit_prefixes ctx !! id = Some r ->
    vpc_prefixes d !! id = Some r /\ is_Some (ctx_vpcs ctx !! vpc_id r);
  ctx_selected i sel : i ∈ all_interfaces targets -> vpc_selection i = Some sel ->
    is_Some (ctx_vpcs ctx !! sel_vpc_id sel);
  ctx_vpc v r : ctx_vpcs ctx !! v = Some r -> vpcs d !! v = Some r
}.

Lemma explicit_row d ids id r :
  (list_to_map (get_for_allocation_by_ids d ids) : gmap string vpc_prefix_row) !! id = Some r ->
  vpc_prefixes d !! id = Some r.
Proof.
  intros H%elem_of_list_to_map_2. unfold get_for_allocation_by_ids in H.
  apply list_elem_of_omap in H as (id' & _ & E). destruct (vpc_prefixes d !! id') eqn:Ev; simplify_eq/=. done.
Qed.

Lemma check_explicit_benign m ids e : check_explicit m ids = Err e -> benign e.
Proof.
  induction ids as [|id ids IH]; simpl; [done|]. destruct (m !! id) as [r|]; [|by intros [= <-]].
  destruct (is_marked_as_deleted r); [by intros [= <-]|done].
Qed.

Lemma ensure_ok b e u : ensure b e = Ok u -> b = true.
Proof. by destruct b. Qed.
Lemma ensure_err b e e' : ensure b e = Err e' -> e' = Failed e.
Proof. destruct b; [done|]. by intros [= <-]. Qed.

(** The checks that a computation which failed later has passed. *)
Ltac pass_checks E := repeat (apply bind_err in E as [->%ensure_err|(? & _ & E)]; [done|]).

Lemma load_cases targets d :
  load_prefix_allocation_context targets d = Some <$> load_context (discover_all targets) d \/
  load_prefix_allocation_context targets d = Ok None /\ BTree.keys (explicit_prefix_ids (discover_all targets)) = [] /\
  BTree.keys (automatic_vpc_ids (discover_all targets)) = [].
Proof.
  unfold load_prefix_allocation_context. destruct (BTree.keys (explicit_prefix_ids _)); [|by left].
  destruct (BTree.keys (automatic_vpc_ids _)); [by right|by left].
Qed.

Lemma load_some targets d ctx :
  load_prefix_allocation_context targets d = Ok (Some ctx) -> load_context (discover_all targets) d = Ok ctx.
Proof.
  destruct (load_cases targets d) as [->|[-> _]]; [|done]. by destruct (load_context _ d); intros [= ->].
Qed.

Lemma load_context_ok targets d ctx : load_context (discover_all targets) d = Ok ctx -> context_ok targets d ctx.
Proof.
  intros (u1 & _ & (u2 & H2%ensure_ok & (u3 & H3%ensure_ok & [= <-])%bind_ok)%bind_ok)%bind_ok.
  rewrite forallb_forall in H2, H3. split; simpl.
  - intros v f cs Hg. eapply freeze_frozen in Hg.
    + destruct Hg as [Ha Hc]. split; [done|]. intros c ((r & Hr & <- & <-) & _)%Hc. by exists r.
    + apply candidates_ascending.
    + apply elem_of_allocation_candidates.
    + split; [apply BTree.wf_nil|done].
  - intros id r Hr. split; [by eapply explicit_row|]. eapply bool_decide_eq_true_1, H3, list_elem_of_In.
    apply list_elem_of_fmap. exists (id, r). split; [done|]. by apply elem_of_map_to_list.
  - intros i sel Hi Hs. eapply bool_decide_eq_true_1, H2, list_elem_of_In. by eapply discovered_automatic.
  - intros v r Hv. by apply map_lookup_filter_Some in Hv as [? _].
Qed.

Lemma load_context_benign targets d e : load_prefix_allocation_context targets d = Err e -> benign e.
Proof.
  intros H. assert (E : load_context (discover_all targets) d = Err e).
  { destruct (load_cases targets d) as [E|[E _]]; rewrite E in H; [|done].
    destruct (load_context _ d); [done|]. by injection H as ->. }
  unfold load_context in E. apply bind_err in E as [E|(u & _ & E)]; [by eapply check_explicit_benign|].
  apply bind_err in E as [->%ensure_err|(u' & _ & E)]; [done|].
  by apply bind_err in E as [->%ensure_err|(u'' & _ & E)].
Qed.

(** ** Requested addresses *)

(** A valid address that is not an IPv4 address mapped to IPv6. *)
Definition address_ok (a : IpAddr) : Prop := valid_addr a /\ to_canonical a = a.
Definition requests_ok (i : InstanceInterfaceConfig) : Prop :=
  (forall a, requested_ip_addr i = Some a -> address_ok a) /\
  (forall c b, ipv6_interface_config i = Some c -> v6_requested_ip_addr c = Some b -> address_ok (V6 b)).

Lemma build_requested_spec a len :
  (forall b, a = Some b -> address_ok b /\ 0 <= len <= width b) ->
  match build_requested a len with
  | Ok n => (forall m, n = Some m -> prefix m = len) /\
      forall b, a = Some b -> exists m, n = Some m /\ covers m b
  | Err e => benign e
  end.
Proof.
  intros H. destruct a as [b|]; [|done]. destruct (H b eq_refl) as [[Hv Hc] Hl]. unfold build_requested,
    build_requested_linknet_prefix. rewrite Hc. destruct (Z.even (bits b)); [done|].
  destruct (net_new_ok b len Hv Hl) as (n & -> & Hi & Hp). simpl. split; [by intros m [= <-]|].
  intros b' [= <-]. exists n. split; [done|]. rewrite <- Hi. split; [done|apply lo_le_ip].
Qed.

Lemma instance_len_width f slaac : 0 <= instance_prefix_len f slaac <= interface_prefix_len f.
Proof. by destruct f, slaac. Qed.

(** ** The work of one interface *)

Record work_ok (d : db) (w : PrefixAllocationWork) : Prop := {
  wk_cursor : at_cursor 0 w = w;
  wk_candidates : candidates w <> [] /\ BTree.ascending (candidates w);
  wk_placed c : c ∈ candidates w -> placed_in d (group w) c;
  wk_len : exists v, vpcs d !! w_vpc_id w = Some v /\
    allocation_prefix_len w = instance_prefix_len (family w) (slaac_enabled v);
  wk_requested n : requested_prefix w = Some n -> prefix n = allocation_prefix_len w
}.

(** An interface asks for prefixes, of both families. *)
Definition selects (i : InstanceInterfaceConfig) : Prop :=
  is_Some (vpc_selection i) \/ exists id, network_details i = Some (ByVpcPrefixId id).
Definition dual (i : InstanceInterfaceConfig) : Prop :=
  match vpc_selection i with
  | Some sel => family_mode sel = DualStack
  | None => is_Some (ipv6_interface_config i)
  end.
Definition wants (i : InstanceInterfaceConfig) : Prop :=
  interface_needs_prefix_allocation i = true /\ selects i.

(** Prefix [c] of family [f] in [vpc] is what the interface asks for: one in the
    selected VPC, or the one that it names. *)
Definition asked (i : InstanceInterfaceConfig) (s : PrefixAllocationSlot) (vpc : string) (f : IpAddressFamily)
    (c : string) : Prop :=
  match vpc_selection i with
  | Some sel => vpc = sel_vpc_id sel /\ f ∈ requested_families (family_mode sel)
  | None =>
      match s with
      | Primary => network_details i = Some (ByVpcPrefixId c)
      | SecondaryIpv6 => v6_vpc_prefix_id <$> ipv6_interface_config i = Some c
      end
  end.

(** The address that the interface requests. *)
Definition requested_address (i : InstanceInterfaceConfig) (s : PrefixAllocationSlot) : option IpAddr :=
  match s with
  | Primary => requested_ip_addr i
  | SecondaryIpv6 => c ← ipv6_interface_config i; V6 <$> v6_requested_ip_addr c
  end.

Section Interface.
Context (d : db) (i : InstanceInterfaceConfig) (ti ii : nat).

Record planned (w : PrefixAllocationWork) : Prop := {
  planned_ok : work_ok d w;
  planned_place : target_index w = ti /\ interface_index w = ii;
  planned_asked c : c ∈ candidates w -> asked i (slot w) (w_vpc_id w) (family w) c;
  planned_address a : requested_address i (slot w) = Some a -> exists n, requested_prefix w = Some n /\ covers n a
}.

Inductive interface_plan : list PrefixAllocationWork -> Prop :=
| plan_nothing : ~ wants i -> interface_plan []
| plan_single w : wants i -> planned w -> slot w = Primary -> ~ dual i -> interface_plan [w]
| plan_dual w v : wants i -> planned w -> planned v -> slot w = Primary -> group w = (w_vpc_id v, Ipv4) ->
    slot v = SecondaryIpv6 -> family v = Ipv6 -> interface_plan [w; v].

Context (ctx : PrefixAllocationContext) (targets : list NetworkAllocationTarget) (organization : string).
Context (Hctx : context_ok targets d ctx) (Hi : i ∈ all_interfaces targets) (Hreq : requests_ok i).

Lemma no_need : interface_needs_prefix_allocation i = false -> interface_plan [].
Proof. intros H. apply plan_nothing. intros [Hn _]. congruence. Qed.

Lemma automatic_work_spec v families f sel :
  ctx_vpcs ctx !! sel_vpc_id sel = Some v -> vpc_selection i = Some sel -> f ∈ requested_families (family_mode sel) ->
  (forall s, requested_address i s = None) ->
  match automatic_work ctx ti ii (sel_vpc_id sel) v families f with
  | Ok w => planned w /\ group w = (sel_vpc_id sel, f) /\
      slot w = if (length families =? 2)%nat && bool_decide (f = Ipv6) then SecondaryIpv6 else Primary
  | Err e => benign e
  end.
Proof.
  intros Hv Hs Hf Hnone. unfold automatic_work. destruct (BTree.get _ _) as [[|c cs]|] eqn:Eg; simpl; [done| |done].
  destruct (ctx_automatic _ _ _ Hctx _ _ _ Eg) as [Ha Hc]. split; [|done]. split.
  - split; simpl; try done. exists v. split; [|done]. by apply (ctx_vpc _ _ _ Hctx).
  - done.
  - intros c0 _. unfold asked. by rewrite Hs.
  - intros a. by rewrite Hnone.
Qed.

Lemma automatic_requests_none mode : conflicts_with_automatic i mode = false -> forall s, requested_address i s = None.
Proof.
  unfold conflicts_with_automatic. intros [[[[H1 H2]%orb_false_iff _]%orb_false_iff _]%orb_false_iff _]%orb_false_iff.
  apply bool_decide_eq_false, eq_None_not_Some in H1. intros [|]; [done|]. simpl.
  destruct (ipv6_interface_config i) as [c|]; [|done]. simpl. apply bool_decide_eq_false, eq_None_not_Some in H2.
  by rewrite H2.
Qed.

Lemma plan_automatic_spec sel :
  vpc_selection i = Some sel ->
  match plan_automatic ctx organization ti ii i sel with
  | Ok l => interface_plan l
  | Err e => benign e
  end.
Proof.
  intros Hs. destruct (plan_automatic _ _ _ _ _ _) as [l|e] eqn:E.
  - apply bind_ok in E as (v & Hv & (u1 & _ & (u2 & _ & (u3 & _ & (u4 & Hno%ensure_ok & E)%bind_ok)%bind_ok)%bind_ok)%bind_ok).
    apply negb_true_iff in Hno. pose proof (automatic_requests_none _ Hno) as Hnone.
    destruct (interface_needs_prefix_allocation i) eqn:Hn; [|injection E as <-; by apply no_need].
    destruct (ctx_vpcs ctx !! sel_vpc_id sel) as [v'|] eqn:Ev; [|done]. injection Hv as ->.
    pose proof (fun families f Hf => automatic_work_spec v families f sel Ev Hs Hf Hnone) as Hw.
    assert (Hwant : wants i) by (split; [done|left; by rewrite Hs]).
    assert (Hd : dual i <-> family_mode sel = DualStack) by (unfold dual; by rewrite Hs).
    destruct (family_mode sel) eqn:Em; simpl in E.
    + specialize (Hw [Ipv4] Ipv4 (list_elem_of_here _ _)). destruct (automatic_work _ _ _ _ _ _ _) as [w|]; [|done]. injection E as <-.
      apply plan_single; [done|apply Hw..|by rewrite Hd].
    + specialize (Hw [Ipv6] Ipv6 (list_elem_of_here _ _)). destruct (automatic_work _ _ _ _ _ _ _) as [w|]; [|done]. injection E as <-.
      apply plan_single; [done|apply Hw..|by rewrite Hd].
    + pose proof (Hw [Ipv4; Ipv6] Ipv4 (list_elem_of_here _ _)) as H4.
      pose proof (Hw [Ipv4; Ipv6] Ipv6 (list_elem_of_further _ _ _ (list_elem_of_here _ _))) as H6.
      destruct (automatic_work _ _ _ _ _ _ Ipv4) as [w|]; [|done]. simpl in E.
      destruct (automatic_work _ _ _ _ _ _ Ipv6) as [w'|]; [|done]. injection E as <-.
      destruct H4 as (P4 & G4 & S4), H6 as (P6 & G6 & S6). injection G6 as Gv Gf.
      apply plan_dual; try done. by rewrite Gv.
  - unfold plan_automatic in E. destruct (ctx_selected _ _ _ Hctx i sel Hi Hs) as [v Hv]. rewrite Hv in E.
    cbn [ok_or mbind result_bind] in E. pass_checks E.
    destruct (interface_needs_prefix_allocation i); [|done]. apply mapM_err in E as (f & Hf & E).
    unfold automatic_work in E. destruct (default [] _); [by injection E as <-|done].
Qed.

Lemma check_secondary_spec r v c :
  match check_secondary ctx r v c with
  | Ok q => family_of (vp_prefix r) = Ipv4 /\ explicit_prefixes ctx !! v6_vpc_prefix_id c = Some q /\
      family_of (vp_prefix q) = Ipv6 /\ vpc_id q = vpc_id r
  | Err e => benign e
  end.
Proof.
  destruct (check_secondary _ _ _ _) as [q|e] eqn:E.
  - apply bind_ok in E as (u1 & H1%ensure_ok%bool_decide_eq_true & (q' & Hq & (u2 & H2%ensure_ok &
      (u3 & H3%ensure_ok%String.eqb_eq & (u4 & _ & [= <-])%bind_ok)%bind_ok)%bind_ok)%bind_ok).
    destruct (explicit_prefixes ctx !! _) as [q0|]; [|done]. injection Hq as ->. split_and!; try done.
    revert H2. unfold is_ipv6_net, family_of. by destruct (ip (vp_prefix q')).
  - apply bind_err in E as [->%ensure_err|(u1 & _ & E)]; [done|].
    apply bind_err in E as [E|(q & _ & E)]; [destruct (explicit_prefixes ctx !! _); by simplify_eq/=|].
    by pass_checks E.
Qed.

Lemma explicit_work_ok id r v w :
  explicit_prefixes ctx !! id = Some r -> ctx_vpcs ctx !! vpc_id r = Some v ->
  w_vpc_id w = vpc_id r -> family w = family_of (vp_prefix r) -> candidates w = [id] -> at_cursor 0 w = w ->
  allocation_prefix_len w = instance_prefix_len (family w) (slaac_enabled v) ->
  (forall n, requested_prefix w = Some n -> prefix n = allocation_prefix_len w) -> work_ok d w.
Proof.
  intros Hr Hv Hw Hf Hc Hcur Hlen Hn. split; try done.
  - rewrite Hc. split; [done|]. repeat constructor.
  - intros c. rewrite Hc. intros ->%list_elem_of_singleton. exists r. split; [by apply (ctx_explicit _ _ _ Hctx)|].
    unfold group. by rewrite Hw, Hf.
  - exists v. split; [|done]. rewrite Hw. by apply (ctx_vpc _ _ _ Hctx).
Qed.

Lemma secondary_work_spec r v c q :
  vpc_selection i = None -> ipv6_interface_config i = Some c -> ctx_vpcs ctx !! vpc_id r = Some v ->
  explicit_prefixes ctx !! v6_vpc_prefix_id c = Some q -> family_of (vp_prefix q) = Ipv6 -> vpc_id q = vpc_id r ->
  match secondary_work ti ii v c q with
  | Ok w => planned w /\ slot w = SecondaryIpv6 /\ family w = Ipv6 /\ w_vpc_id w = vpc_id r
  | Err e => benign e
  end.
Proof.
  intros Hs Hc Hv Hq Hf Hvpc. unfold secondary_work. destruct (validate_vpc_prefix_allocation_capacity _ _ _) eqn:Ec.
  2:{ by apply ensure_err in Ec as ->. }
  cbn [mbind result_bind]. pose proof (build_requested_spec (V6 <$> v6_requested_ip_addr c)
    (instance_prefix_len Ipv6 (slaac_enabled v))) as Hb.
  assert (Hreq' : forall b, V6 <$> v6_requested_ip_addr c = Some b ->
    address_ok b /\ 0 <= instance_prefix_len Ipv6 (slaac_enabled v) <= width b).
  { intros b Hb'. destruct (v6_requested_ip_addr c) as [x|] eqn:Ex; simplify_eq/=. split; [by apply (proj2 Hreq c x)|].
    apply (instance_len_width Ipv6). }
  specialize (Hb Hreq'). destruct (build_requested _ _) as [n|e]; [|done]. simpl. split; [|by rewrite Hvpc].
  split; [|done|..].
  - eapply explicit_work_ok; try done; [by rewrite Hvpc..|apply Hb].
  - intros c' ->%list_elem_of_singleton. unfold asked. by rewrite Hs, Hc.
  - intros b. simpl. rewrite Hc. apply Hb.
Qed.

Lemma primary_request_ok r slaac b :
  requested_ip_addr i = Some b -> address_family b = family_of (vp_prefix r) ->
  address_ok b /\ 0 <= instance_prefix_len (family_of (vp_prefix r)) slaac <= width b.
Proof.
  intros Hb Hf. split; [by apply (proj1 Hreq)|]. unfold width. rewrite Hf. apply instance_len_width.
Qed.

Lemma plan_explicit_spec id r v :
  vpc_selection i = None -> network_details i = Some (ByVpcPrefixId id) ->
  explicit_prefixes ctx !! id = Some r -> ctx_vpcs ctx !! vpc_id r = Some v ->
  match plan_explicit ctx organization ti ii i id r v with
  | Ok l => interface_plan l
  | Err e => benign e
  end.
Proof.
  intros Hs Hnd Hr Hv. unfold plan_explicit. set (f := family_of (vp_prefix r)).
  set (len := instance_prefix_len f (slaac_enabled v)).
  destruct (ensure (String.eqb _ _) _) eqn:E1; [|by apply ensure_err in E1 as ->]. cbn [mbind result_bind].
  destruct (ensure match requested_ip_addr i with Some _ => _ | None => _ end _) eqn:E2; [|by apply ensure_err in E2 as ->].
  apply ensure_ok in E2. cbn [mbind result_bind].
  destruct (ensure (negb _) _) eqn:E3; [|by apply ensure_err in E3 as ->]. cbn [mbind result_bind].
  assert (Hreqp : forall b, requested_ip_addr i = Some b -> address_ok b /\ 0 <= len <= width b).
  { intros b Hb. apply primary_request_ok; [done|]. rewrite Hb in E2. by apply bool_decide_eq_true in E2. }
  assert (Hprim : forall n, (forall m, n = Some m -> prefix m = len) /\
      (forall b, requested_ip_addr i = Some b -> exists m, n = Some m /\ covers m b) ->
    planned (mk_work ti ii (vpc_id r) f len [id] 0 Primary n false)).
  { intros n [Hn Ha]. split; [eapply explicit_work_ok; eauto|done| |exact Ha]. intros c ->%list_elem_of_singleton.
    unfold asked. by rewrite Hs. }
  assert (Hsel : selects i) by (right; by exists id).
  pose proof (build_requested_spec _ _ Hreqp) as Hb. fold len in Hb.
  destruct (ipv6_interface_config i) as [c|] eqn:Ec.
  - pose proof (check_secondary_spec r v c) as Hc. destruct (check_secondary ctx r v c) as [q|]; [|done].
    destruct Hc as (H4 & Hq & H6 & Hvpc). cbn [fmap result_fmap mbind result_bind].
    destruct (interface_needs_prefix_allocation i) eqn:Hn; [|by apply no_need].
    destruct (validate_vpc_prefix_allocation_capacity r f len) eqn:Ev; [|by apply ensure_err in Ev as ->].
    cbn [mbind result_bind]. destruct (build_requested _ _) as [n|]; [|done]. cbn [mbind result_bind].
    pose proof (secondary_work_spec r v c q Hs Ec Hv Hq H6 Hvpc) as Hw. destruct (secondary_work _ _ _ _ _) as [w|]; [|done].
    simpl. destruct Hw as (Hp & Hsl & Hf & Hwv). apply plan_dual; try done; [by apply Hprim|].
    unfold group. simpl. by rewrite Hwv, <- H4.
  - cbn [mbind result_bind]. destruct (interface_needs_prefix_allocation i) eqn:Hn; [|by apply no_need].
    destruct (validate_vpc_prefix_allocation_capacity r f len) eqn:Ev; [|by apply ensure_err in Ev as ->].
    cbn [mbind result_bind]. destruct (build_requested _ _) as [n|]; [|done]. simpl.
    apply plan_single; [done|by apply Hprim|done|]. unfold dual. rewrite Hs, Ec. by intros [].
Qed.

Lemma plan_interface_spec :
  match PrefixAllocation.plan_interface ctx organization ti ii i with
  | Ok (_, l) => interface_plan l
  | Err e => benign e
  end.
Proof.
  unfold PrefixAllocation.plan_interface. destruct (vpc_selection i) as [sel|] eqn:Hs.
  - pose proof (plan_automatic_spec sel Hs) as H. by destruct (plan_automatic _ _ _ _ _ _).
  - destruct (network_details i) as [[seg|id]|] eqn:Hn.
    + apply plan_nothing. intros [_ [[]|[]]]; congruence.
    + destruct (explicit_prefixes ctx !! id) as [r|] eqn:Hr; [|done]. cbn [ok_or mbind result_bind].
      destruct (ctx_explicit _ _ _ Hctx id r Hr) as [_ [v Hv]]. rewrite Hv. cbn [ok_or mbind result_bind].
      pose proof (plan_explicit_spec id r v Hs Hn Hr Hv) as H. by destruct (plan_explicit _ _ _ _ _ _ _ _).
    + apply plan_nothing. intros [_ [[]|[]]]; congruence.
Qed.
End Interface.

(** ** The whole plan *)

Definition work_key (w : PrefixAllocationWork) : nat * nat * PrefixAllocationSlot :=
  (target_index w, interface_index w, slot w).

(** The works [ws] are those of the interfaces that [at_place] gives, each once. *)
Record plans (d : db) (at_place : nat -> nat -> option InstanceInterfaceConfig) (ws : list PrefixAllocationWork)
    : Prop := {
  plans_once : NoDup (work_key <$> ws);
  plans_sound w : w ∈ ws -> exists i b, at_place (target_index w) (interface_index w) = Some i /\
    interface_plan d i (target_index w) (interface_index w) b /\ w ∈ b /\ b ⊆ ws;
  plans_complete t k i : at_place t k = Some i -> exists b, interface_plan d i t k b /\ b ⊆ ws
}.

Lemma interface_plan_place d i t k b w :
  interface_plan d i t k b -> w ∈ b -> target_index w = t /\ interface_index w = k.
Proof.
  intros Hb Hw. destruct Hb as [|v _ Hv|v u _ Hv Hu]; [by apply elem_of_nil in Hw|..].
  - apply list_elem_of_singleton in Hw as ->. apply Hv.
  - apply elem_of_cons in Hw as [->|Hw]; [apply Hv|]. apply list_elem_of_singleton in Hw as ->. apply Hu.
Qed.

Lemma interface_plan_once d i t k b : interface_plan d i t k b -> NoDup (work_key <$> b).
Proof.
  destruct 1 as [|v|v u _ Hv Hu Hs _ Hs']; csimpl; [constructor|apply NoDup_singleton|].
  apply NoDup_cons. split; [|apply NoDup_singleton]. intros E%list_elem_of_singleton. unfold work_key in E. congruence.
Qed.

(** The works of one interface, added to those of other places. *)
Lemma plans_app d at_place at_place' i t k b ws :
  interface_plan d i t k b -> plans d at_place ws -> at_place t k = None ->
  (forall t' k', at_place' t' k' = if decide (t' = t /\ k' = k) then Some i else at_place t' k') ->
  plans d at_place' (b ++ ws).
Proof.
  intros Hb [H1 H2 H3] Hnone Heq. split.
  - rewrite fmap_app. apply NoDup_app. split_and!; [by eapply interface_plan_once| |done].
    intros x (w & -> & Hw)%list_elem_of_fmap (w' & E & Hw')%list_elem_of_fmap.
    destruct (interface_plan_place _ _ _ _ _ _ Hb Hw) as [Ht Hk]. destruct (H2 w' Hw') as (i' & b' & Hp & _).
    unfold work_key in E. injection E as E1 E2 _. rewrite <- E1, <- E2, Ht, Hk in Hp. congruence.
  - intros w [Hw|Hw]%elem_of_app.
    + destruct (interface_plan_place _ _ _ _ _ _ Hb Hw) as [-> ->]. exists i, b. rewrite Heq, decide_True by done.
      split_and!; try done. set_solver.
    + destruct (H2 w Hw) as (i' & b' & Hp & Hb' & Hw' & Hsub). exists i', b'. rewrite Heq, decide_False.
      { split_and!; try done. set_solver. }
      intros [E1 E2]. rewrite E1, E2 in Hp. congruence.
  - intros t' k' i'. rewrite Heq. case_decide as E.
    + intros [= <-]. destruct E as [-> ->]. exists b. split; [done|]. set_solver.
    + intros Hp. destruct (H3 t' k' i' Hp) as (b' & Hb' & Hsub). exists b'. split; [done|]. set_solver.
Qed.

Lemma plans_ext d p p' ws : (forall t k, p t k = p' t k) -> plans d p ws -> plans d p' ws.
Proof.
  intros E [H1 H2 H3]. split; [done|..].
  - intros w Hw. rewrite <- E. by apply H2.
  - intros t k i. rewrite <- E. apply H3.
Qed.

Section Plans.
Context (d : db) (ctx : PrefixAllocationContext) (targets : list NetworkAllocationTarget).
Context (Hctx : context_ok targets d ctx).

(** The interfaces [l] of target [ti], from index [ii] on, and those of [p]. *)
Definition row_at (ti ii : nat) (l : list InstanceInterfaceConfig) (p : nat -> nat -> option InstanceInterfaceConfig)
    (t k : nat) : option InstanceInterfaceConfig :=
  if decide (t = ti /\ (ii <= k)%nat) then l !! (k - ii)%nat else p t k.

Lemma plan_interfaces_spec organization ti p rest l : forall ii,
  (forall i, i ∈ l -> i ∈ all_interfaces targets /\ requests_ok i) ->
  plans d p rest -> (forall k, (ii <= k)%nat -> p ti k = None) ->
  match plan_interfaces ctx organization ti ii l with
  | Ok (_, ws) => plans d (row_at ti ii l p) (ws ++ rest)
  | Err e => benign e
  end.
Proof.
  induction l as [|i l IH]; intros ii Hl Hrest Hp; cbn [plan_interfaces].
  { eapply plans_ext; [|exact Hrest]. intros t k. unfold row_at. case_decide as E; [|done].
    destruct E as [-> E]. by apply Hp. }
  destruct (Hl i (list_elem_of_here _ _)) as [Hi Hr].
  assert (Hl' : forall j, j ∈ l -> j ∈ all_interfaces targets /\ requests_ok j) by (intros j Hj; by apply Hl, elem_of_cons; right).
  pose proof (plan_interface_spec d i ti ii ctx targets organization Hctx Hi Hr) as H.
  destruct (PrefixAllocation.plan_interface _ _ _ _ _) as [[o b]|]; [|done]. cbn [mbind result_bind].
  specialize (IH (S ii)). destruct (plan_interfaces _ _ _ _ _) as [[vs ws]|e]; cbn [mbind result_bind].
  - simpl. rewrite <- app_assoc. eapply plans_app; [exact H|apply IH| |].
    + done.
    + done.
    + intros k Hk. apply Hp. lia.
    + unfold row_at. rewrite decide_False by lia. by apply Hp.
    + intros t k. unfold row_at. destruct (decide (t = ti)) as [->|].
      2:{ by rewrite !decide_False by lia. }
      destruct (decide (k = ii)) as [->|].
      { rewrite !decide_True by lia. by rewrite Nat.sub_diag. }
      destruct (decide (ii <= k)%nat).
      * rewrite decide_True, decide_False, decide_True by lia.
        by replace (k - ii)%nat with (S (k - S ii)) by lia.
      * by rewrite !decide_False by lia.
  - apply IH; [done|done|]. intros k Hk. apply Hp. lia.
Qed.

(** The interfaces of the targets [l], which are numbered from [ti] on. *)
Definition target_at (ti : nat) (l : list NetworkAllocationTarget) (t k : nat) : option InstanceInterfaceConfig :=
  if decide (ti <= t)%nat then tgt ← l !! (t - ti)%nat; interfaces tgt !! k else None.

Lemma target_at_cons ti tgt l t k :
  row_at ti 0 (interfaces tgt) (target_at (S ti) l) t k = target_at ti (tgt :: l) t k.
Proof.
  unfold row_at, target_at. destruct (decide (t = ti)) as [->|].
  - rewrite (decide_True (P := ti = ti /\ _)), (decide_True (P := (ti <= ti)%nat)) by lia.
    by rewrite Nat.sub_diag, Nat.sub_0_r.
  - rewrite (decide_False (P := t = ti /\ _)) by lia. destruct (decide (ti <= t)%nat).
    + rewrite decide_True by lia. by replace (t - ti)%nat with (S (t - S ti)) by lia.
    + by rewrite decide_False by lia.
Qed.

Lemma plan_targets_spec l : forall ti,
  (forall tgt i, tgt ∈ l -> i ∈ interfaces tgt -> i ∈ all_interfaces targets /\ requests_ok i) ->
  match plan_targets ctx ti l with
  | Ok ws => plans d (target_at ti l) ws
  | Err e => benign e
  end.
Proof.
  induction l as [|tgt l IH]; intros ti Hl; cbn [plan_targets].
  { split; [constructor|intros w Hw; by apply elem_of_nil in Hw|]. intros t k i. unfold target_at. by case_decide. }
  assert (Hi : forall i, i ∈ interfaces tgt -> i ∈ all_interfaces targets /\ requests_ok i).
  { intros i. apply Hl, list_elem_of_here. }
  assert (Hnone : forall k, (0 <= k)%nat -> target_at (S ti) l ti k = None).
  { intros k _. unfold target_at. by rewrite decide_False by lia. }
  assert (Hempty : plans d (fun _ _ => None) []).
  { split; [constructor|intros w Hw; by apply elem_of_nil in Hw|done]. }
  pose proof (plan_interfaces_spec (target_organization_id tgt) ti (fun _ _ => None) [] (interfaces tgt) 0 Hi Hempty
    (fun _ _ => eq_refl)) as H0.
  specialize (IH (S ti)). assert (Hl' : forall t i, t ∈ l -> i ∈ interfaces t -> i ∈ all_interfaces targets /\ requests_ok i).
  { intros t i Ht. apply Hl, elem_of_cons. by right. }
  specialize (IH Hl').
  destruct (plan_interfaces _ _ _ _ _) as [[vs ws]|e] eqn:E1; [|done]. cbn [mbind result_bind].
  destruct (ensure _ _) eqn:E2; [|by apply ensure_err in E2 as ->]. cbn [mbind result_bind].
  destruct (plan_targets _ _ _) as [ws'|e]; [|done]. cbn [mbind result_bind].
  pose proof (plan_interfaces_spec (target_organization_id tgt) ti _ ws' (interfaces tgt) 0 Hi IH Hnone) as H.
  rewrite E1 in H. eapply plans_ext; [|exact H]. intros t k. apply target_at_cons.
Qed.
End Plans.

Definition all_requests_ok (targets : list NetworkAllocationTarget) : Prop :=
  forall i, i ∈ all_interfaces targets -> requests_ok i.

Lemma elem_of_interfaces targets t tgt k i :
  targets !! t = Some tgt -> interfaces tgt !! k = Some i -> i ∈ all_interfaces targets.
Proof.
  intros Ht Hk. apply list_elem_of_In, in_concat. exists (interfaces tgt).
  split; apply list_elem_of_In; [|by eapply list_elem_of_lookup_2].
  apply list_elem_of_fmap. exists tgt. split; [done|]. by eapply list_elem_of_lookup_2.
Qed.

Lemma plan_spec targets d ctx :
  context_ok targets d ctx -> all_requests_ok targets ->
  match plan_prefix_allocations targets ctx with
  | Ok ws => plans d (target_at 0 targets) ws
  | Err e => benign e
  end.
Proof.
  intros Hctx Hreq. apply (plan_targets_spec d ctx targets Hctx targets 0).
  intros tgt i [t Ht]%list_elem_of_lookup [k Hk]%list_elem_of_lookup.
  pose proof (elem_of_interfaces _ _ _ _ _ Ht Hk). auto.
Qed.

Lemma interface_of_at targets w : interface_of targets w = target_at 0 targets (target_index w) (interface_index w).
Proof. unfold interface_of, target_at. rewrite decide_True by lia. by rewrite Nat.sub_0_r. Qed.

Lemma interface_plan_ok d i t k b w : interface_plan d i t k b -> w ∈ b -> planned d i t k w.
Proof.
  intros Hb Hw. destruct Hb as [|v _ Hv|v u _ Hv Hu]; [by apply elem_of_nil in Hw|..].
  - by apply list_elem_of_singleton in Hw as ->.
  - apply elem_of_cons in Hw as [->|Hw]; [done|]. by apply list_elem_of_singleton in Hw as ->.
Qed.

Lemma plans_plan_ok targets d ws : plans d (target_at 0 targets) ws -> plan_ok targets ws.
Proof.
  intros [H1 H2 H3].
  assert (Hok : forall w, w ∈ ws -> work_ok d w).
  { intros w Hw. destruct (H2 w Hw) as (i & b & _ & Hb & Hin & _). by apply (interface_plan_ok _ _ _ _ _ _ Hb Hin). }
  split.
  - intros w Hw. apply (Hok w Hw).
  - intros w Hw. apply (Hok w Hw).
  - intros w Hw. rewrite interface_of_at. destruct (H2 w Hw) as (i & b & -> & _). by eexists.
  - intros a b w v Ha Hb [Ht Hk] Hs. eapply (NoDup_lookup _ _ _ (work_key w) H1); rewrite list_lookup_fmap.
    + by rewrite Ha.
    + rewrite Hb. simpl. unfold work_key. congruence.
  - intros w Hw Hs. destruct (H2 w Hw) as (i & b & _ & Hb & Hin & Hsub).
    inversion Hb as [|v _ Hv Hvs|v u _ Hv Hu Hvs Hg Hus Hf]; subst; [by apply elem_of_nil in Hin|..].
    + apply list_elem_of_singleton in Hin as ->. congruence.
    + apply elem_of_cons in Hin as [->|Hin]; [congruence|]. apply list_elem_of_singleton in Hin as ->. split; [done|].
      destruct (list_elem_of_lookup_1 ws v) as [j Hj]; [apply Hsub, list_elem_of_here|]. exists j, v. split_and!; try done.
      split; symmetry; apply Hv.
  - intros w Hw. destruct (wk_len _ _ (Hok w Hw)) as (v & _ & ->). by destruct (family w), (slaac_enabled v).
  - intros w n Hw. apply (Hok w Hw).
Qed.

(** ** The whole of [allocate_networks] *)

Lemma load_none targets d t k i :
  load_prefix_allocation_context targets d = Ok None -> target_at 0 targets t k = Some i -> ~ selects i.
Proof.
  unfold target_at. rewrite decide_True, Nat.sub_0_r by lia. intros Hl Hi.
  apply bind_Some in Hi as (tgt & Ht & Hk). pose proof (elem_of_interfaces _ _ _ _ _ Ht Hk) as Hin.
  destruct (load_cases targets d) as [H|(_ & He & Ha)].
  { rewrite H in Hl. by destruct (load_context _ _). }
  intros Hs. destruct (vpc_selection i) as [sel|] eqn:Es.
  - pose proof (discovered_automatic _ _ _ Hin Es) as H. rewrite Ha in H. by apply elem_of_nil in H.
  - destruct Hs as [[sel Hs]|[id Hid]]; [congruence|].
    pose proof (discovered_explicit _ _ _ Hin Es Hid) as H. rewrite He in H. by apply elem_of_nil in H.
Qed.

Section Networks.
Context (race : nat -> nat -> db -> db) (fresh : nat -> nat -> string).
Context (targets : list NetworkAllocationTarget) (d : db).

Lemma no_locks : locks_ok [] [].
Proof. split; [constructor|]. intros e He. by apply elem_of_nil in He. Qed.

Lemma allocate_cases :
  all_requests_ok targets ->
  match allocate_networks race fresh targets d with
  | (x, Ok _) => exists ws, plans d (target_at 0 targets) ws /\ locks_ok ws (x_locks x) /\ untouched targets ws x /\
      (forall w, w ∈ ws -> settled w x) /\ (sound_start race fresh d -> db_ok fresh (x_calls x) (x_locks x) (x_db x))
  | (x, Err e) => benign e /\ exists ws, (forall w, w ∈ ws -> work_ok d w) /\ locks_ok ws (x_locks x)
  end.
Proof.
  intros Hreq. unfold allocate_networks.
  assert (Hnone : exists ws, (forall w, w ∈ ws -> work_ok d w) /\ locks_ok ws (x_locks (mk_exec d targets [] [] 0 []))).
  { exists []. split; [intros w Hw; by apply elem_of_nil in Hw|apply no_locks]. }
  destruct (load_prefix_allocation_context targets d) as [[ctx|]|e] eqn:El.
  - pose proof (plan_spec targets d ctx (load_context_ok _ _ _ (load_some _ _ _ El)) Hreq) as Hp.
    destruct (plan_prefix_allocations targets ctx) as [ws|e]; [|done].
    pose proof (execute_spec race fresh targets ws (plans_plan_ok _ _ _ Hp) d) as H.
    destruct (execute_prefix_allocations _ _ _ _ _) as [x [[]|e]]; [by exists ws|]. destruct H as [Hb Hl].
    split; [done|]. exists ws. split; [|done]. intros w Hw. destruct (plans_sound _ _ _ Hp w Hw) as (i & b & _ & Hb' & Hin & _).
    by apply (interface_plan_ok _ _ _ _ _ _ Hb' Hin).
  - exists []. split_and!; [|apply no_locks|done|intros w Hw; by apply elem_of_nil in Hw|].
    + split; [constructor|intros w Hw; by apply elem_of_nil in Hw|]. intros t k i Hi. exists []. split; [|done].
      apply plan_nothing. intros [_ Hs]. by eapply load_none.
    + intros (_ & Hw & Hf). split; [done|by intros a b _| |done|by intros []]. intros e s He. by apply elem_of_nil in He.
  - split; [by eapply load_context_benign|done].
Qed.
End Networks.
End Plan.
End PrefixPlan.
