(* ===== verification/PrefixNetworks.v ===== *)
(** * PrefixNetworks: what a batch of prefix allocations guarantees

    The theorems about [allocate_networks] of crates/api-core/src/instance/mod.rs:
    how it can fail, what it leaves in the targets and in the tables when it
    succeeds, and that concurrent batches cannot deadlock on the VPC prefixes. *)

From S2P Require Import Prelude Text ConfigVersion StateHandler Processor StateTable IpNetwork.
From S2P Require Import PrefixAllocator BTree NetworkSegment VpcPrefix PrefixAllocation PrefixBatch PrefixPlan.
Import AddressFamily PrefixAllocator VpcPrefix PrefixAllocation PrefixBatch PrefixPlan.

Module PrefixNetworks.
Section Networks.
Context {crate : IpNetworkCrate}.
Implicit Types (race : nat -> nat -> db -> db) (fresh : nat -> nat -> string).

(** C17: An allocation of networks never panics, never runs on forever, and fails
    with an internal error never, whatever the other transactions do to the tables,
    if no requested address is an IPv4 address mapped to IPv6: each failure is one
    that the request or the state of the tables has caused. *)
Theorem allocate_networks_fails_cleanly race fresh targets d :
  all_requests_ok targets ->
  match (allocate_networks race fresh targets d).2 with
  | Ok _ => True
  | Err e => e <> Failed InternalError /\ e <> Panicked /\ e <> Diverged
  end.
Proof.
  intros Hreq. pose proof (allocate_cases race fresh targets d Hreq) as H.
  destruct (allocate_networks race fresh targets d) as [x [[]|e]]; [done|]. destruct H as [H _]. simpl.
  split_and!; by intros ->.
Qed.

(** ** The result *)

(** The tables [d'] have a row for segment [s] in prefix [c] of [vpc], of family [f]
    and of the length that the VPC gives to instances, which covers the requested
    address, if there is one. *)
Definition backed (d d' : db) (vpc : string) (f : IpAddressFamily) (requested : option IpAddr) (c s : string) : Prop :=
  exists r v row p, vpc_prefixes d !! c = Some r /\ vpc_id r = vpc /\ vpcs d !! vpc = Some v /\
    row ∈ network_prefixes d' /\ np_segment row = s /\ np_parent row = Some (c, p) /\
    prefix (np_prefix row) = instance_prefix_len f (slaac_enabled v) /\ family_of (np_prefix row) = f /\
    forall a, requested = Some a -> covers (np_prefix row) a.

(** What interface [i] asked for is in [i'], on a segment that was not there before, and
    [d'] backs it. *)
Definition resolved (d d' : db) (i i' : InstanceInterfaceConfig) : Prop :=
  exists vpc f c s,
    network_details i' = Some (ByVpcPrefixId c) /\ network_segment_id i' = Some s /\ if_vpc_id i' = Some vpc /\
    segments d !! s = None /\ is_Some (segments d' !! s) /\
    asked i Primary vpc f c /\ backed d d' vpc f (requested_address i Primary) c s /\
    (dual i -> f = Ipv4 /\ exists c6, v6_vpc_prefix_id <$> ipv6_interface_config i' = Some c6 /\
       asked i SecondaryIpv6 vpc Ipv6 c6 /\ backed d d' vpc Ipv6 (requested_address i SecondaryIpv6) c6 s).

Lemma settled_backed fresh d x i t k w c s :
  planned d i t k w -> c ∈ candidates w -> granted x w c s -> db_ok fresh (x_calls x) (x_locks x) (x_db x) ->
  backed d (x_db x) (w_vpc_id w) (family w) (requested_address i (slot w)) c s.
Proof.
  intros [Hw _ _ Haddr] Hc Hg Hd. destruct (wk_placed _ _ Hw c Hc) as (r & Hr & [= Hv Hf]).
  destruct (wk_len _ _ Hw) as (v & Hv' & Hl).
  destruct (ok_rows _ _ _ _ Hd _ s Hg eq_refl) as (_ & _ & row & Hrow & Hseg & [p Hp] & Hlen & Hfam & Hn).
  exists r, v, row, p. simpl in *. rewrite Hl in Hlen. split_and!; try done.
  intros a (n & Hn' & Ha)%Haddr. rewrite (Hn n Hn'). by apply to_cidr_spec.
Qed.

Lemma granted_new fresh race d x w c s :
  sound_start race fresh d -> granted x w c s -> db_ok fresh (x_calls x) (x_locks x) (x_db x) ->
  segments d !! s = None /\ is_Some (segments (x_db x) !! s).
Proof.
  intros (_ & _ & Hf) Hg Hd. destruct (ok_rows _ _ _ _ Hd _ s Hg eq_refl) as ((a & b & ->) & Hs & _). by rewrite Hf.
Qed.

(** Primary work on different interfaces got different segments. *)
Lemma granted_apart fresh race x w v c c' s :
  interference race fresh -> slot w = Primary -> slot v = Primary -> granted x w c s -> granted x v c' s ->
  db_ok fresh (x_calls x) (x_locks x) (x_db x) -> same_place w v.
Proof.
  intros Hi Hw Hv Hgw Hgv Hd. unfold granted in *. rewrite Hw in Hgw. rewrite Hv in Hgv.
  pose proof Hgw as (n1 & o1 & E1)%list_elem_of_split. pose proof Hgv as (n2 & o2 & E2)%list_elem_of_split.
  destruct (ok_created _ _ _ _ Hd _ _ _ s E1 eq_refl eq_refl) as [k1 ->].
  destruct (ok_created _ _ _ _ Hd _ _ _ _ E2 eq_refl eq_refl) as [k2 [E _]%(fresh_inj _ _ Hi)].
  rewrite E1 in E2. apply app_inj_2 in E2 as [_ E2]; [|simpl; lia]. apply (f_equal (fun l => l_place <$> head l)) in E2.
  by injection E2 as Ht Hk.
Qed.

Lemma settled_resolved race fresh d x i w :
  planned d i (target_index w) (interface_index w) w -> slot w = Primary -> settled w x ->
  sound_start race fresh d -> db_ok fresh (x_calls x) (x_locks x) (x_db x) ->
  (dual i -> exists v, planned d i (target_index w) (interface_index w) v /\ settled v x /\ slot v = SecondaryIpv6 /\
     family v = Ipv6 /\ group w = (w_vpc_id v, Ipv4)) ->
  exists i', interface_of (x_targets x) w = Some i' /\ resolved d (x_db x) i i'.
Proof.
  intros Hpl Hs (i' & c & s & Hi & Hseg & Hc & Hg & Hm) Hst Hd Hdual. exists i'. split; [done|].
  rewrite Hs in Hm. destruct Hm as [Hnd Hvpc]. destruct (granted_new _ _ _ _ _ _ _ Hst Hg Hd) as [Hnew Hhas].
  exists (w_vpc_id w), (family w), c, s. split_and!; try done.
  - pose proof (planned_asked _ _ _ _ _ Hpl c Hc) as H. by rewrite Hs in H.
  - pose proof (settled_backed _ _ _ _ _ _ _ _ _ Hpl Hc Hg Hd) as H. by rewrite Hs in H.
  - intros (v & Hplv & (i1 & c6 & s1 & Hi1 & Hseg1 & Hc6 & Hg6 & Hm6) & Hsv & Hfv & [= Hwv Hfw])%Hdual.
    pose proof (planned_place _ _ _ _ _ Hplv) as [Ht Hk].
    assert (Hsp : same_place v w) by done. rewrite (same_place_interface _ v w Hsp), Hi in Hi1. injection Hi1 as <-.
    rewrite Hseg in Hseg1. injection Hseg1 as <-. rewrite Hsv in Hm6. split; [done|]. exists c6. split_and!; [done| |].
    + pose proof (planned_asked _ _ _ _ _ Hplv c6 Hc6) as H. by rewrite Hsv, Hfv, <- Hwv in H.
    + pose proof (settled_backed _ _ _ _ _ _ _ _ _ Hplv Hc6 Hg6 Hd) as H. by rewrite Hsv, Hfv, <- Hwv in H.
Qed.

(** The primary work of an interface that needs a prefix. *)
Lemma wanted_work race fresh targets d x ws t k i :
  plans d (target_at 0 targets) ws -> (forall w, w ∈ ws -> settled w x) ->
  sound_start race fresh d -> db_ok fresh (x_calls x) (x_locks x) (x_db x) ->
  target_at 0 targets t k = Some i -> wants i ->
  exists i', target_at 0 (x_targets x) t k = Some i' /\ resolved d (x_db x) i i' /\
    exists w c s, target_index w = t /\ interface_index w = k /\ slot w = Primary /\ granted x w c s /\
      network_segment_id i' = Some s.
Proof.
  intros Hp Hset Hst Hdb Hat Hw. destruct (plans_complete _ _ _ Hp t k i Hat) as (b & Hb & Hsub).
  assert (exists w, w ∈ b /\ planned d i t k w /\ slot w = Primary /\ (dual i -> exists v, planned d i t k v /\ settled v x /\
    slot v = SecondaryIpv6 /\ family v = Ipv6 /\ group w = (w_vpc_id v, Ipv4))) as (w & Hin & Hpl & Hs & Hdual).
  { destruct Hb as [|w _ Hpl Hs Hnd|w v _ Hpl Hpv Hs Hg Hsv Hfv]; [done|exists w|exists w].
    - split_and!; [by left|done..].
    - split_and!; [by left|done..|]. intros _. exists v. split_and!; try done. apply Hset, Hsub. by right; left. }
  destruct (planned_place _ _ _ _ _ Hpl) as [Ht Hk]. rewrite <- Ht, <- Hk in Hpl, Hdual.
  pose proof (Hset w (Hsub w Hin)) as Hsw.
  destruct (settled_resolved race fresh d x i w Hpl Hs Hsw Hst Hdb Hdual) as (i' & Hi' & Hr).
  exists i'. rewrite interface_of_at, Ht, Hk in Hi'. split_and!; [done..|].
  destruct Hsw as (i1 & c & s & Hi1 & Hseg & _ & Hg & _). rewrite interface_of_at, Ht, Hk, Hi' in Hi1. injection Hi1 as <-.
  by exists w, c, s.
Qed.

(** C15: Let an allocation of networks succeed in tables that are whole, while the other
    transactions keep them whole and neither make nor touch the segments of this one,
    new ids being all different, and no requested address being an IPv4 address mapped
    to IPv6. Then the tables are whole; every interface that needs a prefix has one in
    the VPC that it selects, or the one that it names, on a segment that was not there
    before and that no other interface of the batch has, with a row of the right family
    and length in the tables, which covers the address that the interface requests; a
    dual-stack interface has an IPv6 prefix of the same VPC and segment too, with the
    IPv6 address that it requests; every other interface is as it was. *)
Theorem allocate_networks_resolves race fresh targets d x :
  interference race fresh -> whole d -> (forall a b, segments d !! fresh a b = None) -> all_requests_ok targets ->
  allocate_networks race fresh targets d = (x, Ok ()) ->
  whole (x_db x) /\
  (forall t k i, target_at 0 targets t k = Some i ->
    wants i /\ (exists i', target_at 0 (x_targets x) t k = Some i' /\ resolved d (x_db x) i i') \/
    ~ wants i /\ target_at 0 (x_targets x) t k = Some i) /\
  (forall t k i i' u l j j', target_at 0 targets t k = Some i -> wants i -> target_at 0 (x_targets x) t k = Some i' ->
    target_at 0 targets u l = Some j -> wants j -> target_at 0 (x_targets x) u l = Some j' ->
    network_segment_id i' = network_segment_id j' -> t = u /\ k = l).
Proof.
  intros Hi Hd Hf Hreq E. pose proof (allocate_cases race fresh targets d Hreq) as H. rewrite E in H.
  destruct H as (ws & Hp & _ & Hun & Hset & Hdb). assert (Hst : sound_start race fresh d) by done.
  specialize (Hdb Hst). split_and!; [apply Hdb|..].
  - intros t k i Hat. destruct (plans_complete _ _ _ Hp t k i Hat) as (b & Hb & Hsub).
    assert (Hdec : wants i \/ ~ wants i) by (destruct Hb; auto). destruct Hdec as [Hw|Hn].
    + left. split; [done|]. destruct (wanted_work race fresh targets d x ws t k i) as (i' & ? & ? & _); eauto.
    + right. split; [done|]. rewrite <- Hat. set (p := mk_work t k "" Ipv4 0 [] 0 Primary None false).
      specialize (Hun p). rewrite !interface_of_at in Hun. apply Hun. intros w Hw [Ht Hk]. simpl in Ht, Hk.
      destruct (plans_sound _ _ _ Hp w Hw) as (i0 & b0 & Hi0 & Hb0 & Hin & _). rewrite Ht, Hk, Hat in Hi0. injection Hi0 as <-.
      inversion Hb0; subst; [by apply elem_of_nil in Hin|done..].
  - intros t k i i' u l j j' Hi1 Hw1 Hi1' Hj1 Hw2 Hj1' Heq.
    destruct (wanted_work race fresh targets d x ws t k i Hp Hset Hst Hdb Hi1 Hw1) as (i2 & Ei & _ & w & c & s & <- & <- & Hs & Hg & Hseg).
    destruct (wanted_work race fresh targets d x ws u l j Hp Hset Hst Hdb Hj1 Hw2) as (j2 & Ej & _ & v & c' & s' & <- & <- & Hs' & Hg' & Hseg').
    rewrite Ei in Hi1'. injection Hi1' as <-. rewrite Ej in Hj1'. injection Hj1' as <-.
    rewrite Hseg, Hseg' in Heq. injection Heq as <-. by apply (granted_apart fresh race x w v c c' s).
Qed.

(** ** Locks *)

Lemma allocate_locks race fresh targets d :
  all_requests_ok targets ->
  let l := x_locks (allocate_networks race fresh targets d).1 in
  in_order l /\ forall e, e ∈ l -> placed_in d (l_group e) (l_id e).
Proof.
  intros Hreq. pose proof (allocate_cases race fresh targets d Hreq) as H.
  assert (Hplace : forall ws l, (forall w, w ∈ ws -> work_ok d w) -> locks_ok ws l ->
    in_order l /\ forall e, e ∈ l -> placed_in d (l_group e) (l_id e)).
  { intros ws l Hws [Ho Hl]. split; [done|]. intros e (w & Hw & <- & Hc)%Hl. by apply (Hws w Hw). }
  destruct (allocate_networks race fresh targets d) as [x [[]|e]].
  - destruct H as (ws & Hp & Hl & _). apply (Hplace ws); [|done]. intros w Hw.
    destruct (plans_sound _ _ _ Hp w Hw) as (i & b & _ & Hb & Hin & _). by apply (interface_plan_ok _ _ _ _ _ _ Hb Hin).
  - destruct H as (_ & ws & Hws & Hl). by apply (Hplace ws).
Qed.

(** The rows that a transaction locks, in the order of its calls. *)
Definition lock_log race fresh targets (d : db) : list string :=
  l_id <$> reverse (x_locks (allocate_networks race fresh targets d).1).

Lemma lock_log_before race fresh targets d (place : string -> string * IpAddressFamily) n c c' :
  all_requests_ok targets -> (forall g c, placed_in d g c -> place c = g) ->
  lock_log race fresh targets d !! n = Some c -> c' ∈ take n (lock_log race fresh targets d) ->
  cmp (place c', c') (place c, c) <> Gt.
Proof.
  intros Hreq Hplace Hc Hc'. destruct (allocate_locks race fresh targets d Hreq) as [Ho Hl]. unfold lock_log in *.
  set (l := x_locks _) in *. rewrite <- fmap_take in Hc'. apply list_elem_of_fmap in Hc' as (e' & -> & He').
  rewrite list_lookup_fmap in Hc. destruct (reverse l !! n) as [e|] eqn:Ee; [|done]. injection Hc as <-.
  assert (El : l = reverse (drop (S n) (reverse l)) ++ e :: reverse (take n (reverse l))).
  { rewrite <- (reverse_involutive l) at 1. rewrite <- (take_drop_middle _ _ _ Ee) at 1.
    by rewrite reverse_app, reverse_cons, <- app_assoc. }
  assert (Hin : forall y, y ∈ reverse l -> y ∈ l) by (intros y; by rewrite elem_of_reverse).
  rewrite (Hplace (l_group e) (l_id e)), (Hplace (l_group e') (l_id e')).
  - unfold in_order in Ho. rewrite El in Ho. apply StronglySorted_app_1_r, StronglySorted_cons in Ho as [Hall _].
    eapply Forall_forall in Hall; [exact Hall|]. by apply elem_of_reverse.
  - apply Hl, Hin. apply elem_of_take in He' as (j & Hj & _). by eapply list_elem_of_lookup_2.
  - apply Hl, Hin. by eapply list_elem_of_lookup_2.
Qed.

(** Transactions [T] that allocate networks, each on the tables as it sees them. *)
Section Deadlock.
Context {T : Type} (race : T -> nat -> nat -> db -> db) (fresh : T -> nat -> nat -> string).
Context (targets : T -> list NetworkAllocationTarget) (tables : T -> db) (done_calls : T -> nat).

Let log t := lock_log (race t) (fresh t) (targets t) (tables t).

(** [t] asks for a row that it has not locked yet, and that [u] may have locked. *)
Definition waits_for (t u : T) : Prop :=
  exists c, log t !! done_calls t = Some c /\ c ∉ take (done_calls t) (log t) /\ c ∈ take (done_calls u) (log u).

Lemma waits_increase (place : string -> string * IpAddressFamily) t u :
  (forall t, all_requests_ok (targets t)) -> (forall t g c, placed_in (tables t) g c -> place c = g) ->
  tc waits_for t u ->
  exists c c', log t !! done_calls t = Some c /\ c ∉ take (done_calls t) (log t) /\
    c' ∈ take (done_calls u) (log u) /\ cmp (place c, c) (place c', c') <> Gt.
Proof.
  intros Hreq Hplace H. induction H as [t u (c & Hc & Hn & Hu)|t u v (c & Hc & Hn & Hu) _ (c1 & c2 & Hc1 & _ & Hc2 & Hle)].
  - exists c, c. split_and!; try done. by rewrite cmp_refl.
  - exists c, c2. split_and!; try done. eapply cmp_le_trans; [|done].
    eapply (lock_log_before (race u) (fresh u) (targets u) (tables u)); eauto.
Qed.

(** C16: Concurrent allocations of networks cannot deadlock on the VPC prefixes: at no
    point of their executions is there a cycle of transactions in which each asks for
    the row of a VPC prefix that the next has locked. The VPC and the family of a
    prefix are the same for all of them; what else they see of the tables may differ. *)
Theorem allocation_deadlock_free (place : string -> string * IpAddressFamily) :
  (forall t, all_requests_ok (targets t)) ->
  (forall t c r, vpc_prefixes (tables t) !! c = Some r -> place c = (vpc_id r, family_of (vp_prefix r))) ->
  forall t, ~ tc waits_for t t.
Proof.
  intros Hreq Hrow t Ht.
  assert (Hplace : forall t g c, placed_in (tables t) g c -> place c = g).
  { intros u g c (r & Hr & <-). by eapply Hrow. }
  destruct (waits_increase place t t Hreq Hplace Ht) as (c & c' & Hc & Hn & Hc' & Hle).
  assert (Hge : cmp (place c', c') (place c, c) <> Gt) by (by eapply (lock_log_before (race t) (fresh t) (targets t) (tables t)); eauto).
  pose proof (cmp_le_antisym _ _ Hle Hge) as [= _ ->]. done.
Qed.
End Deadlock.
End Networks.
End PrefixNetworks.

(** Two instances that want both families in a VPC with a prefix of each. *)
Module PrefixNetworksExample.
Import PrefixNetworks VpcPrefixExample.
#[local] Existing Instances ipnetwork_reference.

Definition block6 : IpNetwork := exist _ (V6 (2 ^ 125), 64) eq_refl.
Definition make_prefix6 : result DatabaseError db :=
  persist no_show 0 1 (mk_new "q" None "vpc" None block6) (default v1 (vpc_version <$> vpcs (got make_prefix) !! "vpc"))
    (got make_prefix).
Definition tables : db := got make_prefix6.

Lemma tables_whole : whole tables.
Proof.
  assert (H : is_ok make_prefix6 = true) by (vm_compute; reflexivity). apply got_ok in H.
  destruct make_ok as (H1%got_ok & _). eapply whole_persist; [exact H|]. eapply whole_persist; [exact H1|].
  apply start_whole.
Qed.

Definition automatic_interface : InstanceInterfaceConfig :=
  mk_interface None (Some (mk_selection "vpc" DualStack)) None None ∅ None None ∅.
Definition explicit_interface (a : IpAddr) : InstanceInterfaceConfig :=
  mk_interface (Some (ByVpcPrefixId "q")) None None None ∅ (Some a) None ∅.
Definition batch : list NetworkAllocationTarget :=
  [mk_target [automatic_interface] "tenant"; mk_target [automatic_interface; explicit_interface (V6 (2 ^ 125 + 101))] "tenant"].

(** Ids of segments: two numbers, in unary. *)
Fixpoint tally (n : nat) (s : string) : string := match n with O => s | S n => ("*" +:+ tally n s) end.
Definition fresh (a b : nat) : string := tally a ("/" +:+ tally b "").
Definition alone (a b : nat) (d : db) : db := d.

Lemma tally_inj a a' s s' : tally a ("/" +:+ s) = tally a' ("/" +:+ s') -> a = a' /\ s = s'.
Proof.
  revert a'. induction a as [|a IH]; intros [|a']; simpl; try done; intros [= H]; [done|].
  destruct (IH a' H) as [-> ->]. done.
Qed.
Lemma tally_end b b' : tally b "" = tally b' "" -> b = b'.
Proof. revert b'. induction b as [|b IH]; intros [|b']; simpl; try done. intros [= H]. by f_equal; apply IH. Qed.
Lemma alone_interference : interference alone fresh.
Proof.
  split; try done. intros a b a' b' [-> H%tally_end]%tally_inj. done.
Qed.
Lemma fresh_unused a b : segments tables !! fresh a b = None.
Proof. by vm_compute (segments tables). Qed.

Lemma automatic_ok : requests_ok automatic_interface.
Proof. by split. Qed.
Lemma explicit_ok a : address_ok a -> requests_ok (explicit_interface a).
Proof. intros Ha. split; simpl; [by intros b [= <-]|done]. Qed.
Lemma batch_ok : all_requests_ok batch.
Proof.
  intros i Hi. unfold all_interfaces in Hi. simpl in Hi.
  apply elem_of_cons in Hi as [->|[->|Hi]%elem_of_cons]; [apply automatic_ok..|].
  apply list_elem_of_singleton in Hi as ->. apply explicit_ok. by split; vm_compute.
Qed.

Definition after_batch : exec := (allocate_networks alone fresh batch tables).1.
Lemma batch_succeeds : allocate_networks alone fresh batch tables = (after_batch, Ok ()).
Proof.
  assert (E : (allocate_networks alone fresh batch tables).2 = Ok ()) by (vm_compute; reflexivity).
  rewrite <- E. apply surjective_pairing.
Qed.

Lemma allocate_networks_resolves_witness :
  length (network_prefixes (x_db after_batch)) = 5%nat /\ whole (x_db after_batch) /\
  exists i', target_at 0 (x_targets after_batch) 1 0 = Some i' /\ resolved tables (x_db after_batch) automatic_interface i'.
Proof.
  split; [vm_compute; reflexivity|].
  destruct (allocate_networks_resolves alone fresh batch tables after_batch alone_interference tables_whole fresh_unused
    batch_ok batch_succeeds) as (Hw & H & _). split; [exact Hw|].
  destruct (H 1%nat 0%nat automatic_interface eq_refl) as [[_ Hr]|[Hn _]]; [exact Hr|].
  destruct Hn. split; [reflexivity|left; by eexists].
Defined.

(** An address of the wrong end of its link network is refused. *)
Definition bad_batch : list NetworkAllocationTarget :=
  [mk_target [explicit_interface (V6 (2 ^ 125 + 100))] "tenant"].

Lemma bad_batch_ok : all_requests_ok bad_batch.
Proof. intros i Hi. apply list_elem_of_singleton in Hi as ->. apply explicit_ok. by split; vm_compute. Qed.

Lemma allocate_networks_fails_cleanly_witness :
  (allocate_networks alone fresh bad_batch tables).2 = Err (Failed InvalidConfiguration) /\
  Failed InvalidConfiguration <> Failed InternalError.
Proof.
  assert (E : (allocate_networks alone fresh bad_batch tables).2 = Err (Failed InvalidConfiguration))
    by (vm_compute; reflexivity).
  split; [exact E|]. pose proof (allocate_networks_fails_cleanly alone fresh bad_batch tables bad_batch_ok) as H.
  rewrite E in H. apply H.
Defined.

(** An IPv4 address mapped to IPv6 passes the check of the family, and is an
    IPv4 address when its link network is made: an internal error. *)
Definition mapped_batch : list NetworkAllocationTarget :=
  [mk_target [explicit_interface (V6 (65535 * 2 ^ 32 + 1))] "tenant"].
Lemma mapped_address_is_internal :
  (allocate_networks alone fresh mapped_batch tables).2 = Err (Failed InternalError).
Proof. vm_compute. reflexivity. Qed.

(** Of two transactions with the same batch, the first waits for the second, which has made one call. *)
Definition row_place (c : string) : string * IpAddressFamily :=
  match vpc_prefixes tables !! c with Some r => (vpc_id r, family_of (vp_prefix r)) | None => ("", Ipv4) end.
Definition calls (t : bool) : nat := if t then 0 else 1.
Definition two_wait : bool -> bool -> Prop :=
  waits_for (fun _ => alone) (fun _ => fresh) (fun _ => batch) (fun _ => tables) calls.

Lemma allocation_deadlock_free_witness : two_wait true false /\ ~ two_wait false true.
Proof.
  assert (Hw : two_wait true false).
  { exists "p". split_and!; [vm_compute; reflexivity|apply not_elem_of_nil|].
    apply list_elem_of_lookup_2 with 0%nat. vm_compute. reflexivity. }
  split; [exact Hw|]. intros Hb.
  apply (allocation_deadlock_free (fun _ => alone) (fun _ => fresh) (fun _ => batch) (fun _ => tables) calls row_place)
    with true.
  - intros _. exact batch_ok.
  - intros _ c r Hc. unfold row_place. by rewrite Hc.
  - eapply tc_l; [exact Hw|]. by apply tc_once.
Defined.

Lemma links_whole : whole with_links.
Proof.
  destruct make_ok as (H1%got_ok & H2%got_ok & H3%got_ok). eapply whole_create_for; [exact H3|].
  eapply whole_persist_segment; [exact H2|]. eapply whole_persist; [exact H1|]. apply start_whole.
Qed.
Definition prefix_row : vpc_prefix_row := default (ready_row None Ready) (lock_for_allocation with_links "p").
Lemma prefix_row_locked : lock_for_allocation with_links "p" = Some prefix_row.
Proof.
  assert (H : match lock_for_allocation with_links "p" with Some _ => true | None => false end = true)
    by (vm_compute; reflexivity).
  unfold prefix_row. destruct (lock_for_allocation with_links "p"); [reflexivity|discriminate H].
Qed.
Definition one_attempt : result failure (db * CandidateAllocationOutcome) :=
  allocate_prefix_candidate_once (fun d => d) "new" "vpc" Ipv4 31 "p" Create None with_links.
Lemma one_attempt_allocates : exists d', one_attempt = Ok (d', Allocated (Some "new")).
Proof.
  assert (H : snd <$> one_attempt = Ok (Allocated (Some "new"))) by (vm_compute; reflexivity).
  destruct one_attempt as [[d' o]|e]; [|done]. injection H as ->. by exists d'.
Qed.

Lemma allocate_candidate_exact_witness :
  exists d' n s, one_attempt = Ok (d', Allocated (Some "new")) /\ child prefix_row 31 n /\
    ~ taken with_links "p" prefix_row n /\ d' = allocated Create "new" "p" prefix_row s n with_links /\ whole d'.
Proof.
  pose proof (allocate_candidate_exact (fun d => d) "new" false "p" Create with_links prefix_row links_whole
    prefix_row_locked (conj links_whole (proj1 (lock_for_allocation_row _ _ _ prefix_row_locked))) eq_refl eq_refl) as H.
  change (match one_attempt with
    | Ok (d', Allocated new_segment) =>
        exists n s, child prefix_row 31 n /\ ~ taken with_links "p" prefix_row n /\
          d' = allocated Create "new" "p" prefix_row s n with_links /\ new_segment = Some "new" /\ whole d'
    | Ok (d', Exhausted) => d' = with_links /\ forall n, child prefix_row 31 n -> taken with_links "p" prefix_row n
    | Ok (_, Deleted) => False
    | Err e => is_network_prefix_overlap_conflict e = true /\ with_links <> with_links
    end) in H.
  destruct one_attempt_allocates as [d' E]. rewrite E in H. destruct H as (n & s & Hc & Ht & Hd & _ & Hw).
  exists d', n, s. split_and!; assumption.
Defined.
End PrefixNetworksExample.
