(* ===== verification/IbPartition.v ===== *)
(** * IbPartition: InfiniBand partitions, their partition keys and their controller

    The table of partitions with the statements of crates/api-db/src/ib_partition.rs,
    the handlers of the API in crates/api-core/src/handlers/ib_partition.rs, and the
    controller of crates/ib-partition-controller/src (handler.rs, io.rs) as an
    instance of the controller interface. Partition keys come from a pool of
    [ResourcePool]; the theorems say that the key of a partition stays reserved as
    long as the partition exists. The fabric manager (UFM) is a parameter: each of
    its calls can answer anything. Texts of errors are shortened. *)

From S2P Require Import Prelude Text ConfigVersion StateHandler Processor StateTable ResourcePool PoolDefs.
From Stdlib Require Import Ascii.
Import ConfigVersion StateHandler Processor.

Module IbPartition.

(** ** Partition keys (crates/api-model/src/ib_partition/mod.rs) *)

(** A [PartitionKey] is the number in it. *)
Definition partition_key (v : Z) : option Z := if v =? Z.land v 0x7fff then Some v else None.
Definition is_key (k : Z) : Prop := 0 <= k <= 0x7fff.

(** [u16::from_str_radix]: an unsigned type has no negative sign. *)
Definition u16_from_str_radix (radix : Z) (s : string) : option Z :=
  match s with
  | String "-" _ => None
  | _ => PoolDefs.from_str_radix radix 0 65535 s
  end.

Definition key_from_str (s : string) : option Z :=
  let s := to_lowercase s in
  let base := if PoolDefs.starts_with_hex s then 16 else 10 in
  v ← u16_from_str_radix base (PoolDefs.trim_hex s); partition_key v.

(** [Display]: the format [0x{:x}]. A key has at most four digits. *)
Definition hex_digit (d : Z) : ascii := ascii_of_N (Z.to_N (if d <? 10 then 48 + d else 87 + d)).
Fixpoint hex (fuel : nat) (k : Z) (acc : string) : string :=
  match fuel with
  | O => acc
  | S fuel => let acc := String (hex_digit (k mod 16)) acc in if k / 16 =? 0 then acc else hex fuel (k / 16) acc
  end.
Definition show_key (k : Z) : string := "0x" +:+ hex 4 k "".

(** How the API and [find_pkey_by_partition_id] read a key. *)
Definition parse_hex (s : string) : option Z := u16_from_str_radix 16 (PoolDefs.trim_hex s).

(** ** Data *)

Inductive IBPartitionControllerState := Provisioning | Ready | Error (cause : string) | Deleting.
#[export] Instance controller_state_eq_dec : EqDecision IBPartitionControllerState.
Proof. solve_decision. Defined.

Record IBQosConf := mk_qos { mtu : Z; service_level : Z; rate_limit : Z }.
Record IBNetwork := mk_network { net_name : string; net_pkey : Z; qos_conf : option IBQosConf }.

Record IBPartitionStatus := mk_status {
  partition : option string;
  st_mtu : option Z;
  st_rate_limit : option Z;
  st_service_level : option Z;
  pkey : option Z
}.

(** crates/api-model/src/metadata.rs *)
Record Metadata := mk_metadata { name : string; description : string; labels : gmap string string }.

Definition is_ascii (s : string) : bool := all_chars (fun c => (N_of_ascii c <? 128)%N) s.
Definition MAX_LABELS : nat := 16.
Definition valid_label (kv : string * string) : bool :=
  is_ascii kv.1 && (String.length kv.1 <=? 255)%nat && negb (String.eqb kv.1 "") && (String.length kv.2 <=? 255)%nat.
Definition validate (m : Metadata) (require_min_length : bool) : bool :=
  let min_len := if require_min_length then 2%nat else 0%nat in
  (min_len <=? String.length (name m))%nat && (String.length (name m) <=? 256)%nat && is_ascii (name m)
  && (String.length (description m) <=? 1024)%nat && forallb valid_label (map_to_list (labels m))
  && (size (labels m) <=? MAX_LABELS)%nat.

(** [TenantOrganizationId::try_from] (crates/api-model/src/tenant/mod.rs). *)
Definition is_org_char (c : ascii) : bool :=
  let n := N_of_ascii c in
  is_digit c || ((65 <=? n) && (n <=? 90))%N || ((97 <=? n) && (n <=? 122))%N || Ascii.eqb c "_" || Ascii.eqb c "-".
Definition valid_organization (s : string) : bool := negb (String.eqb s "") && all_chars is_org_char s.

(** A row of [ib_partitions]. *)
Record row := mk_row {
  metadata : Metadata;
  organization_id : string;
  pkey_column : option Z;
  qos : IBQosConf;
  config_version : ConfigVersion.t;
  status : option IBPartitionStatus;
  deleted : option Z;
  controller_state : versioned IBPartitionControllerState;
  outcome : option PersistentOutcome
}.

(** The key the controller reads. *)
Definition row_key (r : row) : option Z := s ← status r; pkey s.
Definition is_marked_as_deleted (r : row) : bool := bool_decide (is_Some (deleted r)).

(** The tables: partitions and their histories, the pools, and the partitions each
    instance refers to in its [ib_config]. *)
Record db := mk_db {
  partitions : gmap string row;
  history : gmap string (list (versioned IBPartitionControllerState));
  pools : ResourcePool.table;
  instances : gmap string (list string)
}.
Definition set_partitions f (d : db) : db := mk_db (f (partitions d)) (history d) (pools d) (instances d).
Definition set_history f (d : db) : db := mk_db (partitions d) (f (history d)) (pools d) (instances d).
Definition set_pools f (d : db) : db := mk_db (partitions d) (history d) (f (pools d)) (instances d).
Definition set_instances f (d : db) : db := mk_db (partitions d) (history d) (pools d) (f (instances d)).

Definition set_controller_state v (r : row) : row :=
  mk_row (metadata r) (organization_id r) (pkey_column r) (qos r) (config_version r) (status r) (deleted r) v (outcome r).
Definition set_outcome o (r : row) : row :=
  mk_row (metadata r) (organization_id r) (pkey_column r) (qos r) (config_version r) (status r) (deleted r)
    (controller_state r) (Some o).
Definition set_status s (r : row) : row :=
  mk_row (metadata r) (organization_id r) (pkey_column r) (qos r) (config_version r) s (deleted r)
    (controller_state r) (outcome r).
Definition set_deleted t (r : row) : row :=
  mk_row (metadata r) (organization_id r) (pkey_column r) (qos r) (config_version r) (status r) t
    (controller_state r) (outcome r).
Definition set_metadata m v (r : row) : row :=
  mk_row m (organization_id r) (pkey_column r) (qos r) v (status r) (deleted r) (controller_state r) (outcome r).

#[export] Program Instance ib_table : StateTable db row IBPartitionControllerState := {
  rows := partitions;
  set_rows := set_partitions;
  histories := history;
  set_histories := set_history;
  row_state := controller_state;
  put_state := set_controller_state;
  put_outcome := set_outcome
}.
Solve All Obligations with done.

(** ** Statements (crates/api-db/src/ib_partition.rs) *)

Definition row_not_found : DatabaseError := QueryError "no rows returned".
Definition violates (constraint : string) : DatabaseError :=
  ConstraintViolation constraint ("violates constraint " +:+ constraint).

Record IBPartition := mk_partition { ib_id : string; ib_row : row }.

(** [FromRow]: a row with an organisation or a key that is not valid fails. The
    cast [p as u16] drops the high bits of the column. *)
Definition decode (id : string) (r : row) : result DatabaseError IBPartition :=
  if negb (valid_organization (organization_id r)) then Err (QueryError "not a valid tenant organization ID")
  else match pkey_column r with
       | Some k => match partition_key (k mod 65536) with
                   | Some _ => Ok (mk_partition id r)
                   | None => Err (QueryError "pkey is not valid")
                   end
       | None => Ok (mk_partition id r)
       end.

(** [find_by] with an id, which is the primary key. *)
Definition find_by (d : db) (id : string) : result DatabaseError (list IBPartition) :=
  match partitions d !! id with
  | None => Ok []
  | Some r => p ← decode id r; Ok [p]
  end.

(** A statement that returns the row it has written fails if that cannot be decoded. *)
Definition write_row (id : string) (r : row) (d : db) : result DatabaseError db :=
  _ ← decode id r; Ok (set_partitions (<[id := r]>) d).

(** The text of [status->>'pkey'], on which there is a unique index. *)
Definition key_text (r : row) : option string := show_key <$> row_key r.
Definition key_taken (d : db) (k : option string) : bool :=
  match k with
  | None => false
  | Some _ => existsb (fun r => bool_decide (key_text r.2 = k)) (map_to_list (partitions d))
  end.
Definition column_taken (d : db) (k : option Z) : bool :=
  match k with
  | None => false
  | Some _ => existsb (fun r => bool_decide (pkey_column r.2 = k)) (map_to_list (partitions d))
  end.
Definition count_of_tenant (d : db) (org : string) : nat :=
  length (filter (fun r : string * row => organization_id r.2 = org) (map_to_list (partitions d))).

Record NewIBPartition := mk_new { new_id : string; new_org : string; new_qos : IBQosConf; new_metadata : Metadata }.

Definition persist (n : NewIBPartition) (max_partition_per_tenant : Z) (st : IBPartitionStatus) (clock : Z) (d : db)
    : result DatabaseError db :=
  if negb (validate (new_metadata n) true) then Err (InvalidArgument "Invalid metadata for IBPartition")
  else if negb (Z.of_nat (count_of_tenant d (new_org n)) <? max_partition_per_tenant) then Err row_not_found
  else if bool_decide (is_Some (partitions d !! new_id n)) then Err (violates "ib_subnets_pkey")
  else if column_taken d (pkey st) then Err (violates "ib_subnets_pkey_key")
  else if key_taken d (show_key <$> pkey st) then Err (violates "unique_ib_partition_status_pkey")
  else let v := initial clock in
       write_row (new_id n) (mk_row (new_metadata n) (new_org n) (pkey st) (new_qos n) v (Some st) None
                               (versioned_new Provisioning v) None) d.

Definition find_pkey_by_partition_id (d : db) (id : string) : result DatabaseError (option Z) :=
  match partitions d !! id with
  | None => Ok None
  | Some r =>
      match key_text r with
      | None => Err (QueryError "unexpected null")
      | Some t => Some <$> ok_or (Internal "invalid digit") (parse_hex t)
      end
  end.

Definition try_update_controller_state (d : db) (id : string) (expected_version new_version : ConfigVersion.t)
    (new_state : IBPartitionControllerState) : db * ConditionalWrite unit ControllerStateNotCurrent :=
  StateTable.try_update d id expected_version new_version new_state.

Definition update_controller_state_outcome (d : db) (id : string) (o : PersistentOutcome) : db :=
  StateTable.update_outcome d id o.

Definition mark_as_deleted (id : string) (now : Z) (d : db) : result DatabaseError db :=
  match partitions d !! id with
  | Some r => write_row id (set_deleted (Some now) r) d
  | None => Err row_not_found
  end.

(** The values of the pool are [u16]. *)
#[export] Instance u16_value : ResourcePool.PoolValue Z := PoolDefs.int_value 0 65535.

(** [delete_and_release_pkey]: in a transaction of its own, all or nothing. *)
Definition delete_and_release_pkey (id : string) (expected_pkey : Z) (pool : ResourcePool.pool) (d : db)
    : result DatabaseError (db * ConditionalWrite string ControllerStateNotCurrent) :=
  match partitions d !! id with
  | Some r =>
      if bool_decide (key_text r = Some (show_key expected_pkey)) then
        let d' := set_partitions (delete id) d in
        match pools d !! (ResourcePool.name pool, show_Z expected_pkey) with
        | Some e =>
            match ResourcePool.state e with
            | ResourcePool.Allocated owner owner_type =>
                if negb (String.eqb owner_type (ResourcePool.display_owner ResourcePool.IBPartition))
                then Err (FailedPrecondition "PKey is allocated to another owner type")
                else match ResourcePool.release pool expected_pkey ResourcePool.IBPartition owner (pools d) with
                     | (t, Applied _) => Ok (set_pools (fun _ => t) d', Applied id)
                     | (_, NotApplied _) => Err (FailedPrecondition "PKey did not match the locked IB reservation")
                     end
            | ResourcePool.Free => Ok (d', Applied id)
            end
        | None => Ok (d', Applied id)
        end
      else Ok (d, NotApplied ControllerStateNotCurrent_)
  | None => Ok (d, NotApplied ControllerStateNotCurrent_)
  end.

Definition count_instances_referencing_partition (d : db) (id : string) : nat :=
  length (filter (fun i : string * list string => id ∈ i.2) (map_to_list (instances d))).

Inductive PartitionNotCurrent := PartitionNotCurrent_.
Definition update_metadata (id : string) (expected_version : ConfigVersion.t) (m : Metadata) (clock : Z) (d : db)
    : result DatabaseError (db * ConditionalWrite row PartitionNotCurrent) :=
  if negb (validate m true) then Err (InvalidArgument "Invalid metadata for IBPartition")
  else match partitions d !! id with
       | Some r =>
           if decide (config_version r = expected_version)
           then let r' := set_metadata m (increment expected_version clock) r in
                d' ← write_row id r' d; Ok (d', Applied r')
           else Ok (d, NotApplied PartitionNotCurrent_)
       | None => Ok (d, NotApplied PartitionNotCurrent_)
       end.

Definition update_status (id : string) (st : option IBPartitionStatus) (d : db) : result DatabaseError db :=
  match partitions d !! id with
  | Some r =>
      if key_taken (set_partitions (delete id) d) (show_key <$> (st ≫= pkey))
      then Err (violates "unique_ib_partition_status_pkey")
      else write_row id (set_status st r) d
  | None => Err row_not_found
  end.

(** ** The API (crates/api-core/src/handlers/ib_partition.rs) *)

(** The errors of [CarbideError] that the handlers use. *)
Inductive ApiError :=
| ErrMissingArgument (argument : string)
| ErrInvalidArgument
| ErrNotFound
| ErrFailedPrecondition
| ErrConcurrentModification
| ErrResourceExhausted
| ErrInternal
| FromPool (e : ResourcePool.ResourcePoolDatabaseError)
| FromDatabase (e : DatabaseError).

(** [DatabaseError::is_not_found]. *)
Definition is_not_found (e : DatabaseError) : bool :=
  match e with
  | NotFoundError _ _ => true
  | _ => bool_decide (e = row_not_found)
  end.

(** Messages: the metadata of the API, and the configuration with the name that was
    its predecessor. *)
Record RpcMetadata := mk_rpc_metadata {
  rpc_name : string;
  rpc_description : string;
  rpc_labels : list (string * option string)
}.
Record RpcConfig := mk_rpc_config { rpc_conf_name : string; rpc_org : string; rpc_pkey : option string }.

(** [Metadata::try_from] (crates/rpc/src/model/metadata.rs): a label once. *)
Fixpoint collect_labels (ls : list (string * option string)) (m : gmap string string)
    : result ApiError (gmap string string) :=
  match ls with
  | [] => Ok m
  | (key, v) :: ls =>
      if bool_decide (is_Some (m !! key)) then Err ErrInvalidArgument
      else collect_labels ls (<[key := default "" v]> m)
  end.
Definition metadata_try_from (m : RpcMetadata) : result ApiError Metadata :=
  ls ← collect_labels (rpc_labels m) ∅; Ok (mk_metadata (rpc_name m) (rpc_description m) ls).

(** A request to create a partition; its id is new if it names none. *)
Record CreationRequest := mk_creation {
  cr_id : string;
  cr_config : option RpcConfig;
  cr_metadata : option RpcMetadata
}.

Section Api.
Context (pkey_pool : option ResourcePool.pool) (max_partition_per_tenant : Z) (fabric_qos : IBQosConf).

(** [pick] and [locked] resolve the choice of [ResourcePool.allocate], [seen] is
    the table its accounting reads. *)
Definition allocate_pkey (pick : nat) (locked : gset (string * string)) (now : Z) (seen : ResourcePool.table)
    (owner_id : string) (requested_pkey : option Z) (d : db) : result ApiError (db * Z) :=
  p ← ok_or ErrInternal pkey_pool;
  match ResourcePool.allocate pick locked now p ResourcePool.IBPartition owner_id requested_pkey seen (pools d) with
  | (t, Ok v) => k ← ok_or ErrInternal (partition_key v); Ok (set_pools (fun _ => t) d, k)
  | (_, Err (ResourcePool.PoolError ResourcePool.Empty)) => Err ErrResourceExhausted
  | (_, Err e) => Err (FromPool e)
  end.

(** [NewIBPartition::try_from] (crates/rpc/src/model/ib_partition.rs). *)
Definition new_partition (req : CreationRequest) : result ApiError NewIBPartition :=
  match cr_config req with
  | None => Err ErrInvalidArgument
  | Some conf =>
      if valid_organization (rpc_org conf)
      then m ← match cr_metadata req with
               | Some m => metadata_try_from m
               | None => Ok (mk_metadata (rpc_conf_name conf) "" ∅)
               end;
           Ok (mk_new (cr_id req) (rpc_org conf) fabric_qos m)
      else Err ErrInvalidArgument
  end.

Definition create (pick : nat) (locked : gset (string * string)) (now clock : Z) (seen : ResourcePool.table)
    (req : CreationRequest) (d : db) : result ApiError db :=
  requested ← match cr_config req ≫= rpc_pkey with
              | Some s => Some <$> ok_or ErrInvalidArgument (parse_hex s)
              | None => Ok None
              end;
  n ← new_partition req;
  a ← allocate_pkey pick locked now seen (name (new_metadata n)) requested d;
  map_err (fun e => if is_not_found e then ErrInvalidArgument else FromDatabase e)
    (persist n max_partition_per_tenant (mk_status None None None None (Some a.2)) clock a.1).

(** The version that a request asks for is what [ConfigVersion.from_str] makes of its text. *)
Record UpdateRequest := mk_update {
  up_id : option string;
  up_config : option RpcConfig;
  up_metadata : option RpcMetadata;
  up_if_version_match : option (result ConfigVersion.parse_error ConfigVersion.t)
}.

(** The one partition with an id. *)
Definition find_partition (seen : db) (id : string) : result ApiError IBPartition :=
  found ← map_err FromDatabase (find_by seen id);
  match found with
  | [p] => Ok p
  | _ => Err ErrNotFound
  end.

(** The partition is read in [seen]; other transactions may commit before the write. *)
Definition update (req : UpdateRequest) (clock : Z) (seen d : db) : result ApiError db :=
  id ← ok_or (ErrMissingArgument "id") (up_id req);
  config ← ok_or (ErrMissingArgument "config") (up_config req);
  m ← ok_or (ErrMissingArgument "metadata") (up_metadata req);
  p ← find_partition seen id;
  let r := ib_row p in
  _ ← match up_if_version_match req with
      | Some s => target ← map_err (fun _ => ErrInvalidArgument) s;
                  if decide (config_version r = target) then Ok () else Err ErrConcurrentModification
      | None => Ok ()
      end;
  _ ← if String.eqb (rpc_org config) (organization_id r) then Ok () else Err ErrInvalidArgument;
  _ ← match rpc_pkey config with
      | Some s => if bool_decide ((parse_hex s ≫= partition_key) = row_key r) then Ok () else Err ErrInvalidArgument
      | None => Ok ()
      end;
  m ← metadata_try_from m;
  w ← map_err FromDatabase (update_metadata id (config_version r) m clock d);
  match w.2 with
  | Applied _ => Ok w.1
  | NotApplied _ => Err ErrConcurrentModification
  end.

Definition delete (id : option string) (now : Z) (seen d : db) : result ApiError db :=
  id ← ok_or (ErrMissingArgument "id") id;
  _ ← find_partition seen id;
  if (0 <? count_instances_referencing_partition seen id)%nat then Err ErrFailedPrecondition
  else map_err FromDatabase (mark_as_deleted id now d).
End Api.

(** ** The controller's interface (crates/ib-partition-controller/src/io.rs) *)

Definition load_partition (d : db) (id : string) : result DatabaseError (option IBPartition) :=
  partitions ← find_by d id;
  match partitions with
  | [] => Ok None
  | [p] => Ok (Some p)
  | _ => Err (QueryError "returned multiple results")
  end.

Lemma decode_ok id r p : decode id r = Ok p -> p = mk_partition id r.
Proof.
  unfold decode. destruct (negb _); [done|]. destruct (pkey_column r) as [k|]; [destruct (partition_key _)|];
    by intros [= <-].
Qed.

Lemma load_row d id s : load_partition d id = Ok (Some s) -> partitions d !! id = Some (ib_row s).
Proof.
  intros (ps & Hf & H)%bind_ok. unfold find_by in Hf. destruct (partitions d !! id) as [r|]; [|by injection Hf as <-].
  apply bind_ok in Hf as (p & ->%decode_ok & [= <-]). by injection H as <-.
Qed.

Definition PROVISIONING_SLA : Z := secs (15 * 60).
Definition DELETING_SLA : Z := secs (15 * 60).
Definition partition_sla (s : IBPartitionControllerState) (v : ConfigVersion.t) (now : Z) : StateSla :=
  match s with
  | Provisioning => with_sla PROVISIONING_SLA (since_version v now)
  | Ready | Error _ => no_sla
  | Deleting => with_sla DELETING_SLA (since_version v now)
  end.

Definition state_names (s : IBPartitionControllerState) : string * string :=
  match s with
  | Provisioning => ("provisioning", "")
  | Ready => ("ready", "")
  | Error _ => ("error", "")
  | Deleting => ("deleting", "")
  end.

Definition debug_state (s : IBPartitionControllerState) : string :=
  match s with
  | Provisioning => "Provisioning"
  | Ready => "Ready"
  | Error cause => "Error { cause: " +:+ quoted cause +:+ " }"
  | Deleting => "Deleting"
  end.

#[export] Instance partition_io : StateControllerIO db string IBPartition IBPartitionControllerState := {
  id_to_string id := id;
  show_state := debug_state;
  list_objects d := Ok (map_to_list (partitions d)).*1;
  load_object_state := load_partition;
  load_controller_state _ _ s := Ok (controller_state (ib_row s));
  persist_controller_state d id old new c := Ok (try_update_controller_state d id old new c);
  persist_state_history d id v c := Ok (StateTable.persist_history d id v c);
  persist_outcome d id o := Ok (update_controller_state_outcome d id o);
  metric_state_names := state_names;
  manual_intervention_reason s := match s with Error _ => Some "error" | _ => None end;
  state_sla vc now _ := partition_sla (value vc) (version vc) now
}.

#[export] Instance partition_table_io : StateTable.TableIO db row IBPartition IBPartitionControllerState.
Proof.
  split; try done. unfold StateTable.state_of. simpl. intros d id s cs H%load_row [= <-]. by rewrite H.
Qed.

#[export] Instance partition_guarded : GuardedIO db string IBPartition IBPartitionControllerState :=
  StateTable.table_guarded.

(** ** The handler (crates/ib-partition-controller/src/handler.rs) *)

(** What the handler tells apart of [IbError]. *)
Inductive IbError := IbNotFound (kind id : string) | IbOther (msg : string).
Definition display_ib (e : IbError) : string :=
  match e with IbNotFound kind id => kind +:+ " not found: " +:+ id | IbOther m => m end.

(** The answers of the fabric manager during one call of the handler. *)
Record Fabric := mk_fabric {
  new_client : result IbError unit;
  get_ib_network : Z -> result IbError IBNetwork;
  update_partition_qos_conf : Z -> IBQosConf -> result IbError unit
}.

Definition ufm_error (operation message : string) : StateHandlerError :=
  ExternalError {| service := "ufm"; operation := operation; details := message;
                   external_metric_label := "ib_fabric_error" |}.

(** Where a call of the handler can fail in the database. *)
Inductive point := PBegin | PCount | PDelete | PStatus.

Section Handler.
Context (pkey_pool : option ResourcePool.pool) (fabric_qos : IBQosConf) (fabric : Fabric) (fault : point -> bool).

Definition reaches (p : point) : result StateHandlerError unit :=
  if fault p
  then Err match p with PBegin => TransactionError "database" | _ => DBError (QueryError "database") end
  else Ok ().

Definition connect_ib_fabric : result StateHandlerError unit :=
  map_err (fun e => ufm_error "connect" (display_ib e)) (new_client fabric).

Definition missing_pkey_transition (cause : string) : StateHandlerOutcome db IBPartitionControllerState :=
  transition (Error cause).

Definition is_qos_conf_applied (actual : IBQosConf) : bool :=
  (mtu fabric_qos =? mtu actual) && (rate_limit fabric_qos =? rate_limit actual)
  && (service_level fabric_qos =? service_level actual).

(** The arm of a partition that is being deleted. *)
Definition handle_deleting (id : string) (k : Z) (d : db)
    : result StateHandlerError (StateHandlerOutcome db IBPartitionControllerState) :=
  _ ← connect_ib_fabric;
  match get_ib_network fabric k with
  | Ok _ => Ok (wait "Waiting for all IB instances are released")
  | Err (IbNotFound _ _) =>
      _ ← reaches PBegin;
      _ ← reaches PCount;
      let instance_count := count_instances_referencing_partition d id in
      if (0 <? instance_count)%nat
      then Ok (in_txn (wait ("Waiting for " +:+ show_N (N.of_nat instance_count)
                               +:+ " instance(s) to release IB partition")) d)
      else
        p ← ok_or (ufm_error "release_pkey" ("pkey pool for fabric " +:+ quoted "default" +:+ " was not found")) pkey_pool;
        _ ← reaches PDelete;
        w ← map_err DBError (delete_and_release_pkey id k p d);
        _ ← check_applied w.2;
        Ok (in_txn StateHandler.deleted w.1)
  | Err e => Err (ufm_error "get_ib_network" (display_ib e))
  end.

(** The arm of a partition in use: its status follows the fabric. *)
Definition handle_ready (id : string) (k : Z) (d : db)
    : result StateHandlerError (StateHandlerOutcome db IBPartitionControllerState) :=
  _ ← connect_ib_fabric;
  match get_ib_network fabric k with
  | Ok ibnetwork =>
      q ← ok_or (MissingData id "qos_conf") (qos_conf ibnetwork);
      let st := mk_status (Some (net_name ibnetwork)) (Some (mtu q)) (Some (rate_limit q)) (Some (service_level q))
                  (Some k) in
      let ib_result := if is_qos_conf_applied q then Ok ()
                       else update_partition_qos_conf fabric (net_pkey ibnetwork) fabric_qos in
      _ ← reaches PBegin;
      _ ← reaches PStatus;
      d ← map_err DBError (update_status id (Some st) d);
      match ib_result with
      | Err e => Ok (in_txn (transition (Error ("Failed to update IB partition " +:+ display_ib e))) d)
      | Ok _ => Ok (in_txn do_nothing d)
      end
  | Err (IbNotFound _ _) => Ok do_nothing
  | Err e => Err (ufm_error "get_ib_network" (display_ib e))
  end.

Definition handle_object_state (id : string) (s : IBPartition) (c : IBPartitionControllerState) (d : db)
    : handled db IBPartitionControllerState :=
  mk_handled d []
    match c with
    | Provisioning => Ok (transition Ready)
    | Deleting =>
        match row_key (ib_row s) with
        | None => Ok (missing_pkey_transition "The pkey is None when deleting an IBPartition.")
        | Some k => handle_deleting id k d
        end
    | Ready =>
        match row_key (ib_row s) with
        | None => Ok (missing_pkey_transition "The pkey is None when IBPartition is ready")
        | Some k => if is_marked_as_deleted (ib_row s) then Ok (transition Deleting) else handle_ready id k d
        end
    | Error _ =>
        if bool_decide (is_Some (row_key (ib_row s))) && is_marked_as_deleted (ib_row s)
        then Ok (transition Deleting) else Ok do_nothing
    end.
End Handler.

(** ** Keys as text *)

Lemma partition_key_iff v k : 0 <= v -> partition_key v = Some k <-> k = v /\ is_key v.
Proof.
  intros Hv. unfold partition_key, is_key. change 0x7fff with (Z.ones 15). rewrite Z.land_ones by lia.
  change (2 ^ 15) with 32768. change (Z.ones 15) with 32767. destruct (Z.eqb_spec v (v mod 32768)) as [E|E].
  - pose proof (Z.mod_pos_bound v 32768). split; [intros [= <-]; lia|by intros [-> _]].
  - split; [done|]. intros [_ Hk]. destruct E. symmetry. apply Z.mod_small. lia.
Qed.

(** A digit as the format prints it. *)
Definition is_hex (c : ascii) : bool :=
  let n := Z.of_N (N_of_ascii c) in ((48 <=? n) && (n <=? 57)) || ((97 <=? n) && (n <=? 102)).

Lemma hex_digit_spec d :
  0 <= d < 16 -> is_hex (hex_digit d) = true /\ PoolDefs.digit_of 16 (hex_digit d) = Some d.
Proof.
  intros Hd.
  assert (H : forallb (fun d => is_hex (hex_digit d) && bool_decide (PoolDefs.digit_of 16 (hex_digit d) = Some d))
    (seqZ 0 16) = true) by (vm_compute; reflexivity).
  rewrite forallb_forall in H. specialize (H d). rewrite andb_true_iff, bool_decide_eq_true in H.
  apply H, list_elem_of_In, elem_of_seqZ. lia.
Qed.

Lemma hex_spec fuel : forall k s, 0 <= k < 16 ^ Z.of_nat fuel ->
  (all_chars is_hex s = true -> all_chars is_hex (hex fuel k s) = true) /\
  (fuel <> O -> hex fuel k s <> "") /\
  (fuel <> O -> PoolDefs.digits 16 0 (hex fuel k s) = PoolDefs.digits 16 k s).
Proof.
  induction fuel as [|fuel IH]; intros k s Hk; [done|]. rewrite Nat2Z.inj_succ, Z.pow_succ_r in Hk by lia.
  pose proof (Z.mod_pos_bound k 16). pose proof (Z.div_mod k 16).
  destruct (hex_digit_spec (k mod 16)) as [Hh Hd]; [lia|]. cbn [hex]. destruct (Z.eqb_spec (k / 16) 0) as [E|E].
  - split_and!; [intros Hs; simpl; by rewrite Hh|done|]. intros _. simpl. rewrite Hd. simpl. f_equal. lia.
  - assert (Hf : fuel <> O). { intros ->. apply E, Z.div_small. lia. }
    destruct (IH (k / 16) (String (hex_digit (k mod 16)) s)) as (H1 & H2 & H3).
    { split; [apply Z.div_pos; lia|apply Z.div_lt_upper_bound; lia]. }
    split_and!; [intros Hs; apply H1; simpl; by rewrite Hh|auto|]. intros _. rewrite H3 by done.
    cbn [PoolDefs.digits]. rewrite Hd. cbn [mbind option_bind]. f_equal. lia.
Qed.

(** The functions that read a key do not change its digits. *)
Lemma trim_hex_id s : all_chars is_hex s = true -> PoolDefs.trim_hex s = s.
Proof.
  destruct s as [|c [|c' s]]; [done|by destruct c as [[] [] [] [] [] [] [] []]|]. simpl.
  intros [_ [H _]%andb_true_iff]%andb_true_iff. revert H.
  destruct c as [[] [] [] [] [] [] [] []]; try done. by destruct c' as [[] [] [] [] [] [] [] []].
Qed.

Lemma lowercase_hex s : all_chars is_hex s = true -> to_lowercase s = s.
Proof.
  induction s as [|c s IH]; [done|]. simpl. intros [Hc Hs]%andb_true_iff. rewrite IH by done. f_equal. revert Hc.
  by destruct c as [[] [] [] [] [] [] [] []].
Qed.

Lemma u16_hex s v :
  all_chars is_hex s = true -> s <> "" -> PoolDefs.digits 16 0 s = Some v -> 0 <= v <= 65535 ->
  u16_from_str_radix 16 s = Some v.
Proof.
  destruct s as [|c s]; [done|]. cbn [all_chars]. intros [Hc _]%andb_true_iff _ Hd Hv.
  assert (Hr : (0 <=? v) && (v <=? 65535) = true) by (rewrite andb_true_iff, !Z.leb_le; lia).
  unfold u16_from_str_radix, PoolDefs.from_str_radix. revert Hc Hd.
  destruct c as [[] [] [] [] [] [] [] []]; try done; intros _ Hd; rewrite Hd; cbn [mbind option_bind]; by rewrite Hr.
Qed.

(** Every key is read back from its text, as the model, the API and the database
    functions read it. *)
Lemma show_key_parse k : is_key k -> key_from_str (show_key k) = Some k /\ parse_hex (show_key k) = Some k.
Proof.
  intros Hk. destruct (hex_spec 4 k "") as (H1 & H2 & H3); [unfold is_key in Hk; simpl; lia|]. specialize (H1 eq_refl).
  assert (Hu : u16_from_str_radix 16 (hex 4 k "") = Some k).
  { apply u16_hex; [done|auto|by rewrite H3|]. unfold is_key in Hk. lia. }
  assert (Ht : PoolDefs.trim_hex (show_key k) = hex 4 k "").
  { unfold show_key. change (PoolDefs.trim_hex ("0x" +:+ hex 4 k "")) with (PoolDefs.trim_hex (hex 4 k "")).
    by apply trim_hex_id. }
  assert (Hl : to_lowercase (show_key k) = show_key k).
  { unfold show_key. change (to_lowercase ("0x" +:+ hex 4 k "")) with ("0x" +:+ to_lowercase (hex 4 k "")).
    by rewrite lowercase_hex. }
  split.
  - unfold key_from_str. rewrite Hl, Ht. change (PoolDefs.starts_with_hex (show_key k)) with true. cbv iota. rewrite Hu.
    cbn [mbind option_bind]. apply partition_key_iff; [unfold is_key in Hk; lia|done].
  - unfold parse_hex. by rewrite Ht.
Qed.

Lemma show_key_inj k k' : is_key k -> is_key k' -> show_key k = show_key k' -> k = k'.
Proof.
  intros Hk Hk' E. pose proof (proj2 (show_key_parse k Hk)) as H. rewrite E, (proj2 (show_key_parse k' Hk')) in H.
  congruence.
Qed.

(** ** Reserved keys *)

Section Keys.
Context (pkey_pool : option ResourcePool.pool) (max_partition_per_tenant : Z) (fabric_qos : IBQosConf).

Definition keys (d : db) : gmap string (option Z) := row_key <$> partitions d.

(** The pool's row for key [k] belongs to an InfiniBand partition. *)
Definition reserved_in (t : ResourcePool.table) (k : Z) : Prop :=
  exists p owner, pkey_pool = Some p /\
    ResourcePool.state_of t (ResourcePool.name p, show_Z k)
      = Some (ResourcePool.owned_by ResourcePool.IBPartition owner).

(** Keys are valid, reserved and different, and the pool's texts are those of its numbers. *)
Record keyed (d : db) : Prop := {
  keyed_valid id k : keys d !! id = Some (Some k) -> is_key k;
  keyed_reserved id k : keys d !! id = Some (Some k) -> reserved_in (pools d) k;
  keyed_unique i j k : keys d !! i = Some (Some k) -> keys d !! j = Some (Some k) -> i = j;
  keyed_canonical p : pkey_pool = Some p -> ResourcePool.canonical (T := Z) p (pools d)
}.

Lemma keyed_same d d' : keys d' = keys d -> pools d' = pools d -> keyed d -> keyed d'.
Proof. intros E1 E2 [H1 H2 H3 H4]. split; rewrite ?E1, ?E2; done. Qed.

Lemma keys_insert id r d : keys (set_partitions (<[id := r]>) d) = <[id := row_key r]> (keys d).
Proof. apply fmap_insert. Qed.
Lemma keys_lookup d id r : partitions d !! id = Some r -> keys d !! id = Some (row_key r).
Proof. intros H. unfold keys. by rewrite lookup_fmap, H. Qed.

(** Statements that leave every key as it is. *)
Definition same_keys (d d' : db) : Prop := keys d' = keys d /\ pools d' = pools d.

Lemma same_keys_keyed d d' : same_keys d d' -> keyed d -> keyed d'.
Proof. intros []. by apply keyed_same. Qed.

Lemma write_row_ok id r d d' : write_row id r d = Ok d' -> d' = set_partitions (<[id := r]>) d.
Proof. by intros (p & _ & [= <-])%bind_ok. Qed.

(** A new version of a row with the key of the old one. *)
Lemma rewrite_same id r r' d :
  partitions d !! id = Some r -> row_key r' = row_key r -> same_keys d (set_partitions (<[id := r']>) d).
Proof.
  intros Hr Hk. split; [|done]. rewrite keys_insert, Hk. apply insert_id. by apply keys_lookup.
Qed.

Lemma try_update_same d id old new c d' w :
  try_update_controller_state d id old new c = (d', w) -> same_keys d d'.
Proof.
  unfold try_update_controller_state, StateTable.try_update. simpl. destruct (partitions d !! id) as [r|] eqn:E.
  - case_decide; intros [= <- <-]; [by apply (rewrite_same id r)|done].
  - by intros [= <- <-].
Qed.

Lemma outcome_same d id o : same_keys d (update_controller_state_outcome d id o).
Proof.
  split; [|done]. unfold keys, update_controller_state_outcome, StateTable.update_outcome. simpl.
  apply map_eq. intros j. rewrite !lookup_fmap. destruct (decide (j = id)) as [->|]; [|by rewrite lookup_alter_ne].
  rewrite lookup_alter_eq. by destruct (partitions d !! id).
Qed.

Lemma metadata_same id v m clock d d' w : update_metadata id v m clock d = Ok (d', w) -> same_keys d d'.
Proof.
  unfold update_metadata. destruct (negb _); [done|]. destruct (partitions d !! id) as [r|] eqn:E; [|by intros [= <- <-]].
  case_decide; [|by intros [= <- <-]]. intros (d1 & ->%write_row_ok & [= <- <-])%bind_ok. by apply (rewrite_same id r).
Qed.

Lemma update_same req clock seen d d' : update req clock seen d = Ok d' -> same_keys d d'.
Proof.
  unfold update. intros H. do 8 (apply bind_ok in H as (? & _ & H)). apply bind_ok in H as ([d1 w] & Hw & H).
  simpl in H. destruct w; [|done]. injection H as <-.
  destruct (update_metadata _ _ _ _ d) as [p|] eqn:E; [|done]. injection Hw as ->. by eapply metadata_same.
Qed.

Lemma delete_same id now seen d d' : delete id now seen d = Ok d' -> same_keys d d'.
Proof.
  intros (j & _ & (r & _ & H)%bind_ok)%bind_ok. destruct (_ <? _)%nat; [done|]. unfold mark_as_deleted in H.
  destruct (partitions d !! j) as [q|] eqn:E; [|done]. destruct (write_row j _ d) as [d1|] eqn:Ew; [|done].
  apply write_row_ok in Ew as ->. injection H as <-. by apply (rewrite_same j q).
Qed.

(** A status with the key that the row has. *)
Lemma status_same id st d d' :
  update_status id st d = Ok d' -> keys d !! id = Some (st ≫= pkey) -> same_keys d d'.
Proof.
  unfold update_status. destruct (partitions d !! id) as [r|] eqn:E; [|done]. destruct (key_taken _ _); [done|].
  intros ->%write_row_ok Hk. apply (rewrite_same id r); [done|]. rewrite (keys_lookup _ _ _ E) in Hk. injection Hk as Hk.
  symmetry. exact Hk.
Qed.

(** ** The pool *)

(** What the others do with pools: they release no key of a partition, and fill the
    pool of keys with numbers. *)
Definition spares_keys (o : ResourcePool.op) : Prop :=
  match o with
  | ResourcePool.OpRelease _ _ _ ot _ => ot <> ResourcePool.IBPartition
  | ResourcePool.OpPopulate _ p vs _ =>
      forall p' v, pkey_pool = Some p' -> ResourcePool.name p = ResourcePool.name p' ->
        v ∈ vs -> exists z, ResourcePool.to_text v = show_Z z
  | _ => True
  end.

Lemma radix_range radix min max s v :
  PoolDefs.from_str_radix radix min max s = Some v ->
  min <= v <= max /\ forall min' max', min' <= v <= max' -> PoolDefs.from_str_radix radix min' max' s = Some v.
Proof.
  unfold PoolDefs.from_str_radix. destruct (match s with String _ _ => _ | _ => _ end) as [neg body].
  destruct body; [done|]. destruct (PoolDefs.digits _ _ _) as [w|]; [|done]. cbn [mbind option_bind].
  destruct ((min <=? _) && _) eqn:Er; [|done]. intros [= <-]. rewrite andb_true_iff, !Z.leb_le in Er. split; [done|].
  intros min' max' [H1%Z.leb_le H2%Z.leb_le]. by rewrite H1, H2.
Qed.

Lemma u16_of_text s z : ResourcePool.of_text s = Ok z -> PoolDefs.from_str_radix 10 0 65535 s = Some z.
Proof. simpl. by destruct (PoolDefs.from_str_radix 10 0 65535 s); intros [= <-]. Qed.

Lemma show_Z_canonical z z' : ResourcePool.of_text (show_Z z) = Ok z' -> z' = z.
Proof.
  intros H%u16_of_text%radix_range. destruct H as [_ H].
  specialize (H (Z.min z z') (Z.max z z')). rewrite (PoolDefs.parse_show_int _ _ z) in H by lia. injection H; lia.
Qed.

Lemma show_Z_inj z z' : show_Z z = show_Z z' -> z = z'.
Proof.
  intros E. pose proof (PoolDefs.parse_show_int (Z.min z z') (Z.max z z') z) as H. rewrite E in H.
  rewrite PoolDefs.parse_show_int in H by lia. injection H; lia.
Qed.

Lemma spares_keeps o t k : spares_keys o -> reserved_in t k -> reserved_in (ResourcePool.run o t).1 k.
Proof.
  intros Ho (p & owner & Hp & Hs). exists p, owner. split; [done|].
  apply (ResourcePool.run_keeps o t _ _ _ Hs). destruct o as [| | |T TV q v ot id]; [by intros []..|]. intros [_ E].
  apply Ho. by apply (ResourcePool.owned_by_inj ResourcePool.IBPartition owner) in E as [<- _].
Qed.

Lemma spares_canonical o t p :
  spares_keys o -> pkey_pool = Some p -> ResourcePool.canonical (T := Z) p t ->
  ResourcePool.canonical (T := Z) p (ResourcePool.run o t).1.
Proof.
  intros Ho Hp Hc text e v He Hv. destruct (ResourcePool.run_rows o t (ResourcePool.name p, text)) as [[e' He']|H].
  - by eexists.
  - by apply (Hc text e').
  - destruct o as [T TV q vs auto| | |]; try done. destruct H as [E Hin]. simpl in E, Hin.
    apply list_elem_of_fmap in Hin as (w & -> & Hw). destruct (Ho p w Hp) as [z Hz]; [done..|].
    rewrite Hz in Hv |- *. by apply show_Z_canonical in Hv as ->.
Qed.

Lemma keyed_pool o d : spares_keys o -> keyed d -> keyed (set_pools (fun t => (ResourcePool.run o t).1) d).
Proof.
  intros Ho [H1 H2 H3 H4]. split; try done.
  - intros id k Hk. apply spares_keeps; [done|by eapply H2].
  - intros p Hp. apply spares_canonical; auto.
Qed.

(** What [ResourcePool.allocate] hands out was not reserved, and is now. *)
Lemma allocate_reserves pick locked now p owner (requested : option Z) seen d t v :
  pkey_pool = Some p -> keyed d ->
  ResourcePool.allocate pick locked now p ResourcePool.IBPartition owner requested seen (pools d) = (t, Ok v) ->
  keyed (set_pools (fun _ => t) d) /\ 0 <= v /\ ~ reserved_in (pools d) v /\ reserved_in t v.
Proof.
  intros Hp Hd Ha. pose proof (keyed_pool (ResourcePool.OpAllocate u16_value pick locked now p ResourcePool.IBPartition
    owner requested seen) d I Hd) as Hk.
  apply ResourcePool.allocate_ok in Ha as Ht. destruct Ht as (text & (e & He & Hf & _ & _ & _ & E) & Hv).
  pose proof (keyed_canonical _ Hd p Hp text e v He Hv) as Htext. change (show_Z v = text) in Htext. subst text.
  split_and!.
  - eapply keyed_same; [..|exact Hk]; [done|]. simpl. by rewrite Ha.
  - apply u16_of_text, radix_range in Hv. lia.
  - intros (q & o & Hq & Hs). rewrite Hp in Hq. injection Hq as <-. unfold ResourcePool.state_of in Hs.
    rewrite He in Hs. simpl in Hs. rewrite Hf in Hs. done.
  - exists p, owner. split; [done|]. unfold ResourcePool.state_of. by rewrite E, lookup_insert_eq.
Qed.

(** A key from the pool is not that of any partition. *)
Lemma allocate_pkey_ok pick locked now seen owner requested d d' k :
  keyed d -> allocate_pkey pkey_pool pick locked now seen owner requested d = Ok (d', k) ->
  keyed d' /\ partitions d' = partitions d /\ is_key k /\ reserved_in (pools d') k /\
  forall id, keys d !! id <> Some (Some k).
Proof.
  intros Hd (p & Hp & H)%bind_ok. assert (Hp' : pkey_pool = Some p) by (destruct pkey_pool; by simplify_eq/=).
  destruct (ResourcePool.allocate _ _ _ _ _ _ _ _ _) as [t [v|e]] eqn:Ea; [|by destruct e as [[]|]].
  destruct (allocate_reserves _ _ _ _ _ _ _ _ _ _ Hp' Hd Ea) as (H1 & H2 & H3 & H4).
  apply bind_ok in H as (k' & Hk & [= <- <-]). destruct (partition_key v) as [k0|] eqn:Ev; [|done]. injection Hk as ->.
  apply partition_key_iff in Ev as [-> Hk]; [|done]. split_and!; try done. intros id Hid.
  by apply H3, (keyed_reserved _ Hd id).
Qed.

Lemma persist_ok n max st clock d d' :
  persist n max st clock d = Ok d' ->
  partitions d !! new_id n = None /\ exists r, row_key r = pkey st /\ d' = set_partitions (<[new_id n := r]>) d.
Proof.
  unfold persist. destruct (negb (validate _ _)); [done|]. destruct (negb (_ <? _)); [done|].
  case_bool_decide as Hn; [done|]. destruct (column_taken _ _); [done|]. destruct (key_taken _ _); [done|].
  intros ->%write_row_ok. split; [by apply eq_None_not_Some|]. eexists. split; [|reflexivity]. done.
Qed.

(** A row with a new key that is reserved. *)
Lemma keyed_insert id r k d :
  keyed d -> row_key r = Some k -> is_key k -> reserved_in (pools d) k ->
  (forall j, keys d !! j <> Some (Some k)) -> keyed (set_partitions (<[id := r]>) d).
Proof.
  intros [H1 H2 H3 H4] Hr Hk Hres Hnew. split; rewrite ?keys_insert, ?Hr; [..|done].
  - intros j k' [[_ [= ->]]|[_ Hj]]%lookup_insert_Some; [done|by eapply H1].
  - intros j k' [[_ [= ->]]|[_ Hj]]%lookup_insert_Some; [done|by eapply H2].
  - intros i j k' [[<- [= ->]]|[Hi Hi']]%lookup_insert_Some [[<- Hj]|[Hj Hj']]%lookup_insert_Some; try done.
    + by apply Hnew in Hj'.
    + injection Hj as ->. by apply Hnew in Hi'.
    + by eapply H3.
Qed.

Lemma create_ok pick locked now clock seen req d d' :
  create pkey_pool max_partition_per_tenant fabric_qos pick locked now clock seen req d = Ok d' -> keyed d ->
  keyed d' /\ forall id k, keys d !! id = Some k -> keys d' !! id = Some k.
Proof.
  intros (requested & _ & (n & _ & ([d1 k] & Ha & Hp)%bind_ok)%bind_ok)%bind_ok Hd.
  apply allocate_pkey_ok in Ha as (Hd1 & Hparts & Hk & Hres & Hnew); [|done]. simpl in Hp.
  destruct (persist n _ _ _ d1) as [d2|e] eqn:E; [|by destruct (is_not_found e)]. injection Hp as <-.
  apply persist_ok in E as (Hnone & r & Hr & ->). assert (Ekeys : keys d1 = keys d) by (unfold keys; by rewrite Hparts).
  split.
  - apply (keyed_insert _ _ k); try done. intros j. rewrite Ekeys. apply Hnew.
  - intros id k' Hid. rewrite keys_insert, Ekeys. rewrite lookup_insert_ne; [done|]. intros <-.
    rewrite <- Ekeys in Hid. unfold keys in Hid. by rewrite lookup_fmap, Hnone in Hid.
Qed.

(** ** Removal *)

(** The partition and its reservation: what is left when [delete_and_release_pkey] removes it. *)
Record removed (id : string) (k : Z) (p : ResourcePool.pool) (d d' : db) : Prop := {
  removed_key : keys d !! id = Some (Some k);
  removed_partitions : partitions d' = base.delete id (partitions d);
  removed_history : history d' = history d;
  removed_pools : exists owner, pools d' = (ResourcePool.release p k ResourcePool.IBPartition owner (pools d)).1;
  removed_free : ResourcePool.state_of (pools d') (ResourcePool.name p, show_Z k) = Some ResourcePool.Free
}.

Lemma key_text_key d id r k :
  keyed d -> partitions d !! id = Some r -> is_key k -> key_text r = Some (show_key k) -> row_key r = Some k.
Proof.
  intros Hd Hr Hk. unfold key_text. destruct (row_key r) as [k'|] eqn:E; [|done]. intros H%(inj Some).
  f_equal. apply show_key_inj; [|done..]. apply (keyed_valid _ Hd id). by rewrite (keys_lookup _ _ _ Hr), E.
Qed.

Lemma delete_and_release_cases id k p d d' w :
  keyed d -> pkey_pool = Some p -> is_key k -> delete_and_release_pkey id k p d = Ok (d', w) ->
  d' = d /\ w = NotApplied ControllerStateNotCurrent_ \/ w = Applied id /\ removed id k p d d'.
Proof.
  intros Hd Hp Hk. unfold delete_and_release_pkey. destruct (partitions d !! id) as [r|] eqn:Er; [|by intros [= <- <-]; left].
  case_bool_decide as Ht; [|by intros [= <- <-]; left]. apply (key_text_key d id) in Ht; [|done..].
  assert (Hid : keys d !! id = Some (Some k)) by (by rewrite (keys_lookup _ _ _ Er), Ht).
  destruct (keyed_reserved _ Hd id k Hid) as (p' & owner & Hp' & Hs). rewrite Hp in Hp'. injection Hp' as <-.
  unfold ResourcePool.state_of in Hs. destruct (pools d !! _) as [e|] eqn:Ee; [|done]. injection Hs as Hs. rewrite Hs.
  cbn [ResourcePool.owned_by]. rewrite String.eqb_refl. cbn [negb].
  assert (Hrel : ResourcePool.release p k ResourcePool.IBPartition owner (pools d)
    = (<[(ResourcePool.name p, show_Z k) := ResourcePool.set_state ResourcePool.Free None e]> (pools d), Applied ())).
  { unfold ResourcePool.release, ResourcePool.release_text. change (ResourcePool.to_text k) with (show_Z k).
    rewrite Ee. by rewrite decide_True. }
  rewrite Hrel. intros [= <- <-]. right. split; [done|]. split; try done.
  - exists owner. by rewrite Hrel.
  - simpl. unfold ResourcePool.state_of. by rewrite lookup_insert_eq.
Qed.

Lemma keyed_removed id k p d d' : pkey_pool = Some p -> removed id k p d d' -> keyed d -> keyed d'.
Proof.
  intros Hp [Hid Hparts _ [owner Hpools] _] [H1 H2 H3 H4].
  assert (Hk : forall j k', keys d' !! j = Some k' -> j <> id /\ keys d !! j = Some k').
  { intros j k'. unfold keys. rewrite Hparts, fmap_delete. by intros [? ?]%lookup_delete_Some. }
  split.
  - intros j k' [_ Hj]%Hk. by eapply H1.
  - intros j k' [Hne Hj]%Hk. destruct (H2 j k' Hj) as (q & o & Hq & Hs). exists q, o. split; [done|].
    assert (Hdiff : k' <> k) by (intros ->; by apply Hne, (H3 j id k)).
    rewrite Hpools. apply (ResourcePool.run_keeps (ResourcePool.OpRelease u16_value p k ResourcePool.IBPartition owner));
      [done|]. intros [E _]. rewrite Hp in Hq. injection Hq as <-. injection E as E.
    by apply Hdiff, show_Z_inj.
  - intros i j k' [_ Hi]%Hk [_ Hj]%Hk. by eapply H3.
  - intros q Hq text e v He. rewrite Hpools in He.
    destruct (ResourcePool.run_rows (ResourcePool.OpRelease u16_value p k ResourcePool.IBPartition owner) (pools d)
      (ResourcePool.name q, text)) as [[e' He']|[]]; [by eexists|]. by apply (H4 q Hq text e').
Qed.

(** ** What the others do *)

(** The API, the users of the pools and of instances, and the controllers that
    handle another partition than [mine]. *)
Inductive elsewhere (mine : option string) : db -> db -> Prop :=
| else_create pick locked now clock seen req d d' :
    create pkey_pool max_partition_per_tenant fabric_qos pick locked now clock seen req d = Ok d' -> elsewhere mine d d'
| else_update req clock seen d d' : update req clock seen d = Ok d' -> elsewhere mine d d'
| else_delete id now seen d d' : delete id now seen d = Ok d' -> elsewhere mine d d'
| else_pool o d : spares_keys o -> elsewhere mine d (set_pools (fun t => (ResourcePool.run o t).1) d)
| else_instances f d : elsewhere mine d (set_instances f d)
| else_remove j k p d d' w : mine <> Some j -> is_key k -> pkey_pool = Some p ->
    delete_and_release_pkey j k p d = Ok (d', w) -> elsewhere mine d d'
| else_status j st d d' : mine <> Some j -> keys d !! j = Some (st ≫= pkey) ->
    update_status j st d = Ok d' -> elsewhere mine d d'
| else_state j old new c d d' w : mine <> Some j -> try_update_controller_state d j old new c = (d', w) -> elsewhere mine d d'
| else_outcome j o d : mine <> Some j -> elsewhere mine d (update_controller_state_outcome d j o)
| else_history j v c d : mine <> Some j -> elsewhere mine d (StateTable.persist_history d j v c).

Lemma elsewhere_keyed mine d d' : elsewhere mine d d' -> keyed d -> keyed d'.
Proof.
  destruct 1 as [pick locked now clock seen req d d' H|req clock seen d d' H|id now seen d d' H|o d H|f d
    |j k p d d' w _ Hk Hp H|j st d d' _ Hk H|j old new c d d' w _ H|j o d _|j v c d _].
  - intros Hd. by eapply create_ok.
  - by eapply same_keys_keyed, update_same.
  - by eapply same_keys_keyed, delete_same.
  - by apply keyed_pool.
  - by apply keyed_same.
  - intros Hd. destruct (delete_and_release_cases _ _ _ _ _ _ Hd Hp Hk H) as [[-> _]|[_ Hr]]; [done|].
    by eapply keyed_removed.
  - eapply same_keys_keyed, status_same; done.
  - by eapply same_keys_keyed, try_update_same.
  - apply same_keys_keyed, outcome_same.
  - by apply keyed_same.
Qed.

(** A partition that is not handled elsewhere keeps its key. *)
Lemma elsewhere_key id k d d' :
  elsewhere (Some id) d d' -> keyed d -> keys d !! id = Some k -> keys d' !! id = Some k.
Proof.
  assert (Hsame : forall d d', same_keys d d' -> keys d !! id = Some k -> keys d' !! id = Some k) by (by intros ? ? [-> _]).
  destruct 1 as [pick locked now clock seen req d d' H|req clock seen d d' H|j now seen d d' H|o d H|f d
    |j k' p d d' w Hj Hk Hp H|j st d d' _ Hk H|j old new c d d' w _ H|j o d _|j v c d _]; intros Hd.
  - apply (create_ok _ _ _ _ _ _ _ _ H Hd).
  - by eapply Hsame, update_same.
  - by eapply Hsame, delete_same.
  - done.
  - done.
  - destruct (delete_and_release_cases _ _ _ _ _ _ Hd Hp Hk H) as [[-> _]|[_ Hr]]; [done|]. unfold keys.
    rewrite (removed_partitions _ _ _ _ _ Hr), fmap_delete, lookup_delete_ne by congruence. done.
  - by eapply Hsame, status_same.
  - by eapply Hsame, try_update_same.
  - apply Hsame, outcome_same.
  - done.
Qed.

(** ** Attempts of the controller *)

(** What the handler saw when it removed the partition. *)
Record may_remove (fabric : Fabric) (id : string) (k : Z) (d : db) : Prop := {
  fabric_connected : new_client fabric = Ok ();
  fabric_gone : exists kind key, get_ib_network fabric k = Err (IbNotFound kind key);
  unreferenced : count_instances_referencing_partition d id = 0%nat
}.

(** Every transaction of the handler is its database, or that with the status of the
    partition, or that without the partition. *)
Lemma partition_txn fabric fault id s c d o t :
  h_out (handle_object_state pkey_pool fabric_qos fabric fault id s c d) = Ok o -> (take_transaction o).1 = Some t ->
  t = d \/
  (exists st, row_key (ib_row s) = (st ≫= pkey) /\ update_status id st d = Ok t) \/
  (exists k p w, c = Deleting /\ row_key (ib_row s) = Some k /\ pkey_pool = Some p /\ may_remove fabric id k d /\
     o = Deleted (Some t) /\ delete_and_release_pkey id k p d = Ok (t, Applied w)).
Proof.
  simpl. destruct c as [| |cause|].
  - by intros [= <-].
  - destruct (row_key (ib_row s)) as [k|] eqn:Ek; [|by intros [= <-]].
    destruct (is_marked_as_deleted _); [by intros [= <-]|]. intros ([] & _ & H)%bind_ok.
    destruct (get_ib_network fabric k) as [net|[kind key|m]]; [|by injection H as <-|done].
    apply bind_ok in H as (q & _ & (_ & _ & (_ & _ & (d' & Hd & H)%bind_ok)%bind_ok)%bind_ok). intros Ht. right. left.
    set (st := mk_status _ _ _ _ _) in Hd. exists (Some st). split; [done|].
    destruct (update_status id (Some st) d) as [d1|]; [|done]. injection Hd as ->.
    destruct (match is_qos_conf_applied fabric_qos q with true => _ | false => _ end); injection H as <-;
      injection Ht as <-; done.
  - destruct (_ && _); by intros [= <-].
  - destruct (row_key (ib_row s)) as [k|] eqn:Ek; [|by intros [= <-]]. intros ([] & Hc & H)%bind_ok.
    assert (Hconn : new_client fabric = Ok ()).
    { unfold connect_ib_fabric in Hc. by destruct (new_client fabric) as [[]|]. }
    destruct (get_ib_network fabric k) as [net|[kind key|m]] eqn:En; [by injection H as <-| |done].
    apply bind_ok in H as (_ & _ & (_ & _ & H)%bind_ok). destruct (0 <? _)%nat eqn:E0; [injection H as <-; intros [= <-]; by left|].
    apply bind_ok in H as (p & Hp & (_ & _ & ([d' w] & Hw & (u & Hu & [= <-])%bind_ok)%bind_ok)%bind_ok). intros [= <-].
    right. right. destruct pkey_pool as [p'|]; [|done]. injection Hp as ->.
    destruct (delete_and_release_pkey id k p d) as [r|] eqn:Ed; [|done]. injection Hw as ->. simpl in Hu.
    destruct w as [w|]; [|done]. exists k, p, w. split_and!; try done. split; [done|by eauto|].
    apply Nat.ltb_ge in E0. lia.
Qed.

Section Attempt.
Context (fabric : Fabric) (fault : point -> bool) (ev : await_point -> call) (others : await_point -> db -> db).
Context (id : string) (Hothers : forall p d, rtc (elsewhere (Some id)) d (others p d)).

Lemma others_keyed p d : keyed d -> keyed (others p d).
Proof. specialize (Hothers p d). induction Hothers; eauto using elsewhere_keyed. Qed.

Lemma others_key p d k : keyed d -> keys d !! id = Some k -> keys (others p d) !! id = Some k.
Proof.
  specialize (Hothers p d). induction Hothers as [|d1 d2 d3 H1 H2 IH]; [done|]. intros Hd Hk.
  apply IH; [by eapply elsewhere_keyed|by eapply elsewhere_key].
Qed.

(** The partition has its key. *)
Definition kept (k : option Z) (d : db) : Prop := keyed d /\ keys d !! id = Some k.

Lemma kept_same k d d' : same_keys d d' -> kept k d -> kept k d'.
Proof. intros Hs [Hd Hk]. split; [by eapply same_keys_keyed|]. by rewrite (proj1 Hs). Qed.
Lemma kept_others k p d : kept k d -> kept k (others p d).
Proof. intros [Hd Hk]. split; [by apply others_keyed|by apply others_key]. Qed.

(** The handler runs on the tables with the key that it has loaded. *)
Lemma loaded d s :
  keyed d -> load_object_state (others BeginLoad d) id = Ok (Some s) ->
  partitions (others BeginLoad d) !! id = Some (ib_row s) /\
  kept (row_key (ib_row s)) (others RunHandler (others BeginLoad d)) /\
  forall k, row_key (ib_row s) = Some k -> is_key k.
Proof.
  intros Hd Hl%load_row. pose proof (others_keyed BeginLoad d Hd) as Hd1. pose proof (keys_lookup _ _ _ Hl) as Hk.
  split_and!; [done|by apply kept_others|]. intros k E. apply (keyed_valid _ Hd1 id). by rewrite Hk, E.
Qed.

(** Every transaction of it keeps the key, or removes the partition. *)
Lemma handler_keeps_key d s c o t :
  let d2 := others RunHandler (others BeginLoad d) in
  keyed d -> load_object_state (others BeginLoad d) id = Ok (Some s) ->
  h_out (handle_object_state pkey_pool fabric_qos fabric fault id s c d2) = Ok o -> (take_transaction o).1 = Some t ->
  kept (row_key (ib_row s)) t \/
  o = Deleted (Some t) /\ c = Deleting /\
  exists k p, row_key (ib_row s) = Some k /\ pkey_pool = Some p /\ may_remove fabric id k d2 /\ removed id k p d2 t.
Proof.
  intros d2 Hd Hl Ho Ht. destruct (loaded d s Hd Hl) as (_ & H2 & Hkey). fold d2 in H2.
  destruct (partition_txn _ _ _ _ _ _ _ _ Ho Ht) as [->|[(st & Hst & Hu)|(k & p & w & Hc & Hk & Hp & Hm & -> & Hr)]].
  - by left.
  - left. eapply kept_same; [|exact H2]. eapply status_same; [exact Hu|]. rewrite <- Hst. apply H2.
  - right. split_and!; try done. exists k, p. split_and!; try done.
    by destruct (delete_and_release_cases _ _ _ _ _ _ (proj1 H2) Hp (Hkey k Hk) Hr) as [[_ ?]|[_ ?]].
Qed.

Lemma attempt_keyed late now clock d :
  keyed d ->
  keyed (p_db (process_object (handle_object_state pkey_pool fabric_qos fabric fault) ev others id late now clock d)).
Proof.
  intros Hd. apply process_object_preserves_loaded; [..|done|].
  - intros d1 j old new c d2 w [= E]. by eapply same_keys_keyed, try_update_same.
  - intros d1 j v c d2 [= <-]. by apply keyed_same.
  - intros d1 j o d2 [= <-]. apply same_keys_keyed, outcome_same.
  - intros p d1. apply others_keyed.
  - intros s cs Hs _. destruct (loaded d s Hd Hs) as (_ & [H2 _] & _). split_and!; [done| |constructor].
    intros o t Ho Ht. destruct (handler_keeps_key d s (value cs) o t Hd Hs Ho Ht) as [[? _]|(_ & _ & k & p & _ & Hp & _ & Hr)];
      [done|by eapply keyed_removed].
Qed.
End Attempt.

(** What happens to the tables. *)
Inductive activity : db -> db -> Prop :=
| act_elsewhere d d' : elsewhere None d d' -> activity d d'
| act_attempt fabric fault ev others id late now clock d :
    (forall p d, rtc (elsewhere (Some id)) d (others p d)) ->
    activity d (p_db (process_object (handle_object_state pkey_pool fabric_qos fabric fault) ev others id late now clock d)).

(** Before the first partition. *)
Definition start (t : ResourcePool.table) (refs : gmap string (list string)) : db := mk_db ∅ ∅ t refs.

Lemma activity_keyed d d' : activity d d' -> keyed d -> keyed d'.
Proof. intros [d1 d2 H|]; [by eapply elsewhere_keyed|by apply attempt_keyed]. Qed.

Lemma start_keyed t refs :
  (forall p, pkey_pool = Some p -> ResourcePool.canonical (T := Z) p t) -> keyed (start t refs).
Proof. intros Ht. split; try done; intros id; unfold keys; simpl; by rewrite fmap_empty, lookup_empty. Qed.

(** The tables after some activity on pools that hold the texts of numbers. *)
Definition reachable (d : db) : Prop :=
  exists t refs, (forall p, pkey_pool = Some p -> ResourcePool.canonical (T := Z) p t) /\ rtc activity (start t refs) d.

Lemma reachable_keyed d : reachable d -> keyed d.
Proof.
  intros (t & refs & Ht & Hd). pose proof (start_keyed t refs Ht) as H0. revert H0. clear Ht.
  induction Hd; eauto using activity_keyed.
Qed.

(** C19: the key of a partition is its own for as long as the partition exists. Whatever
    the API, the controller and the users of the resource pools do, whatever the fabric
    answers and whatever fails, no two partitions have the same key, the pool holds
    each key as reserved for an InfiniBand partition, no allocation hands it
    out, to whomever, and the key is read back from its text in the table. *)
Theorem partition_keys_reserved d id r k :
  reachable d -> partitions d !! id = Some r -> row_key r = Some k ->
  (forall j q, partitions d !! j = Some q -> row_key q = Some k -> j = id) /\
  (exists p owner, pkey_pool = Some p /\
     ResourcePool.state_of (pools d) (ResourcePool.name p, show_Z k)
       = Some (ResourcePool.owned_by ResourcePool.IBPartition owner)) /\
  (forall pick locked now seen owner requested d' k',
     allocate_pkey pkey_pool pick locked now seen owner requested d = Ok (d', k') -> k' <> k) /\
  find_pkey_by_partition_id d id = Ok (Some k).
Proof.
  intros Hd%reachable_keyed Hr Hk.
  assert (Hid : keys d !! id = Some (Some k)) by (by rewrite (keys_lookup _ _ _ Hr), Hk).
  split_and!.
  - intros j q Hj Hq. apply (keyed_unique _ Hd j id k); [|done]. by rewrite (keys_lookup _ _ _ Hj), Hq.
  - exact (keyed_reserved _ Hd id k Hid).
  - intros pick locked now seen owner requested d' k' Ha ->. apply allocate_pkey_ok in Ha as (_ & _ & _ & _ & Hnew); [|done].
    by apply (Hnew id).
  - unfold find_pkey_by_partition_id, key_text. rewrite Hr, Hk. simpl.
    by rewrite (proj2 (show_key_parse k (keyed_valid _ Hd id k Hid))).
Qed.

(** C20: a partition goes only when nobody uses it, and its key goes with it. If an
    attempt of the controller has removed a partition, the partition was being
    deleted, the fabric had no network for its key, no instance referred to it in
    the transaction that removed it, and that transaction made the key available
    again and touched no other partition. *)
Theorem partition_removed_safely fabric fault ev others id late now clock d :
  let d1 := others BeginLoad d in
  let d2 := others RunHandler d1 in
  let d' := p_db (process_object (handle_object_state pkey_pool fabric_qos fabric fault) ev others id late now clock d) in
  reachable d -> (forall p d, rtc (elsewhere (Some id)) d (others p d)) ->
  is_Some (partitions d !! id) -> partitions d' !! id = None ->
  exists r k p, partitions d1 !! id = Some r /\ value (controller_state r) = Deleting /\ row_key r = Some k /\
    pkey_pool = Some p /\ may_remove fabric id k d2 /\ removed id k p d2 d'.
Proof.
  intros d1 d2 d' Hd%reachable_keyed Ho [r0 Hr0] Hgone.
  destruct (process_object_removes (kept id (row_key r0))) with (handler := handle_object_state pkey_pool fabric_qos fabric fault)
    (others := others) (ev := ev) (id := id) (late := late) (now := now) (clock := clock) (db := d) as [H|H].
  - intros a j old new c b w [= E]. by eapply kept_same, try_update_same.
  - intros a j v c b [= <-]. by apply kept_same.
  - intros a j o b [= <-]. apply kept_same, outcome_same.
  - intros p a. by apply kept_others.
  - split; [done|by apply keys_lookup].
  - intros s cs Hs _. destruct (loaded others id Ho d s Hd Hs) as (Hrow & Hkept & _).
    assert (E : row_key (ib_row s) = row_key r0).
    { pose proof (others_key others id Ho BeginLoad d _ Hd (keys_lookup _ _ _ Hr0)) as Hk.
      rewrite (keys_lookup _ _ _ Hrow) in Hk. by injection Hk. }
    rewrite E in Hkept. split_and!; [done..|]. intros o t Hout Ht.
    destruct (handler_keeps_key _ _ _ _ Ho _ _ _ _ _ Hd Hs Hout Ht) as [Hk|[? _]]; [left; by rewrite E in Hk|by right].
  - exfalso. destruct H as [_ H]. unfold keys in H. fold d' in H. by rewrite lookup_fmap, Hgone in H.
  - destruct H as (s & cs & Hs & [= <-] & Hout). destruct (loaded others id Ho d s Hd Hs) as (Hrow & _ & _).
    destruct (handler_keeps_key _ _ _ _ Ho _ _ _ _ _ Hd Hs Hout eq_refl) as [[_ Hk]|(_ & Hc & k & p & Hk & Hp & Hm & Hr)].
    + exfalso. fold d' in Hk. unfold keys in Hk. by rewrite lookup_fmap, Hgone in Hk.
    + by exists (ib_row s), k, p.
Qed.

(** ** Deletion completes *)

Section Deletion.
Context (fabric : Fabric) (id : string) (k : Z) (p : ResourcePool.pool).

Definition no_fault (q : point) : bool := false.
(** An attempt in which nothing fails and nobody interferes. *)
Definition attempt (now clock : Z) (d : db) : db :=
  StateTable.attempt (handle_object_state pkey_pool fabric_qos fabric no_fault) now clock id d.

(** The partition is in state [c] with key [k], is marked as deleted as [del] says,
    and no instance refers to it. *)
Definition idle_in (del : option Z) (c : IBPartitionControllerState) (d : db) : Prop :=
  exists r, partitions d !! id = Some r /\ decode id r = Ok (mk_partition id r) /\ deleted r = del /\
    row_key r = Some k /\ value (controller_state r) = c /\ count_instances_referencing_partition d id = 0%nat.

Lemma load_idle d r :
  partitions d !! id = Some r -> decode id r = Ok (mk_partition id r) ->
  load_object_state d id = Ok (Some (mk_partition id r)).
Proof. intros Hr Hdec. simpl. unfold load_partition, find_by. by rewrite Hr, Hdec. Qed.

Lemma partition_attempt_moves now clock del c n d :
  idle_in del c d ->
  (forall s, row_key (ib_row s) = Some k -> deleted (ib_row s) = del ->
     h_out (handle_object_state pkey_pool fabric_qos fabric no_fault id s c d) = Ok (transition n)) ->
  idle_in del n (attempt now clock d) /\ pools (attempt now clock d) = pools d.
Proof.
  intros (r & Hr & Hdec & Hdel & Hk & Hc & Hn) Hh. unfold attempt.
  rewrite (StateTable.attempt_moves _ now clock id d (mk_partition id r) r n (transition n));
    [|by apply load_idle|done|done| |by left].
  - split; [|done]. eexists. split; [exact (StateTable.moved_to_row id n _ r d)|]. split_and!; try done.
    unfold decode in *. simpl. destruct (negb _); [done|]. destruct (pkey_column r) as [q|]; [|done].
    by destruct (partition_key (q mod 65536)).
  - change (value (row_state r)) with (value (controller_state r)). rewrite Hc. unfold handle_object_state. f_equal.
    by apply (Hh (mk_partition id r)).
Qed.

Lemma partition_attempt_removes now clock del d :
  keyed d -> pkey_pool = Some p -> new_client fabric = Ok () ->
  (exists kind key, get_ib_network fabric k = Err (IbNotFound kind key)) ->
  idle_in del Deleting d -> removed id k p d (attempt now clock d).
Proof.
  intros Hd Hp Hc (kind & key & Hg) (r & Hr & Hdec & Hdel & Hk & Hst & Hn). unfold attempt.
  assert (Hid : keys d !! id = Some (Some k)) by (by rewrite (keys_lookup _ _ _ Hr), Hk).
  assert (exists d' w, delete_and_release_pkey id k p d = Ok (d', Applied w)) as (d' & w & E).
  { destruct (keyed_reserved _ Hd id k Hid) as (p' & owner & Hp' & Hs). rewrite Hp in Hp'. injection Hp' as <-.
    unfold delete_and_release_pkey, key_text. rewrite Hr, Hk. simpl. rewrite bool_decide_true by done.
    unfold ResourcePool.state_of in Hs. destruct (pools d !! _) as [e|] eqn:Ee; [|done]. injection Hs as Hs. rewrite Hs.
    simpl. unfold ResourcePool.release, ResourcePool.release_text. simpl. rewrite Ee, decide_True by done. eauto. }
  rewrite (StateTable.attempt_deletes _ now clock id d (mk_partition id r) (controller_state r) d');
    [|by apply load_idle|done|].
  - by destruct (delete_and_release_cases _ _ _ _ _ _ Hd Hp (keyed_valid _ Hd id k Hid) E) as [[_ ?]|[_ ?]].
  - unfold handle_object_state. rewrite Hst. simpl. rewrite Hk. unfold handle_deleting, connect_ib_fabric. rewrite Hc.
    cbn [map_err mbind result_bind]. rewrite Hg. cbn [reaches no_fault mbind result_bind]. rewrite Hn. simpl. rewrite Hp.
    cbn [ok_or mbind result_bind]. rewrite E. done.
Qed.
End Deletion.

(** Deletion completes. A partition with a key that is marked as deleted, that no
    instance refers to and that the fabric does not know is gone after two
    undisturbed attempts, whether it was ready or in error, and its key is free. *)
Theorem marked_partition_is_deleted fabric id k p del c d t1 t2 c1 c2 :
  reachable d -> pkey_pool = Some p -> new_client fabric = Ok () ->
  (exists kind key, get_ib_network fabric k = Err (IbNotFound kind key)) ->
  idle_in id k (Some del) c d -> (c = Ready \/ exists cause, c = Error cause) ->
  let d' := attempt fabric id t2 c2 (attempt fabric id t1 c1 d) in
  partitions d' !! id = None /\
  ResourcePool.state_of (pools d') (ResourcePool.name p, show_Z k) = Some ResourcePool.Free.
Proof.
  intros Hd Hp Hc Hg Hi Hst d'.
  assert (H1 : idle_in id k (Some del) Deleting (attempt fabric id t1 c1 d)).
  { apply (partition_attempt_moves fabric id k t1 c1 _ c); [done|]. intros s Hk Hdel.
    destruct Hst as [->|[cause ->]]; simpl; unfold is_marked_as_deleted; by rewrite Hk, Hdel. }
  assert (Hd1 : keyed (attempt fabric id t1 c1 d)).
  { apply reachable_keyed in Hd. by apply attempt_keyed. }
  destruct (partition_attempt_removes fabric id k p t2 c2 (Some del) _ Hd1 Hp Hc Hg H1) as [_ Hparts _ _ Hfree].
  split; [|exact Hfree]. unfold d'. rewrite Hparts. apply lookup_delete_eq.
Qed.
End Keys.
End IbPartition.

(** ** Witnesses: one partition with the only key of a pool *)

Module IbPartitionExample.
Import IbPartition.

Definition pkeys : ResourcePool.pool := ResourcePool.mk_pool "pkeys" ResourcePool.Integer.
Definition one_key : ResourcePool.table :=
  {[ ("pkeys", "291") := ResourcePool.mk_entry ResourcePool.Integer ResourcePool.Free None true ]}.
Definition conf : IBQosConf := mk_qos 4 0 200.
Definition no_network : Fabric :=
  mk_fabric (Ok ()) (fun _ => Err (IbNotFound "partition" "0x123")) (fun _ _ => Ok ()).
Definition request : CreationRequest := mk_creation "id" (Some (mk_rpc_config "name" "tenant" None)) None.
Definition got (r : result ApiError db) : db := match r with Ok d => d | Err _ => start ∅ ∅ end.

(** Created, ready, marked, and being deleted. *)
Definition creation : result ApiError db :=
  create (Some pkeys) 10 conf 0 ∅ 1 2 ∅ request (start one_key ∅).
Definition ready : db := attempt (Some pkeys) conf no_network "id" 10 11 (got creation).
Definition deletion : result ApiError db := delete (Some "id") 20 ready ready.
Definition marked : db := got deletion.
Definition deleting : db := attempt (Some pkeys) conf no_network "id" 30 31 marked.

Lemma one_key_canonical : ResourcePool.canonical (T := Z) pkeys one_key.
Proof.
  intros text e v H. unfold one_key in H. apply lookup_singleton_Some in H as [E _]. injection E as <-. intros Hv.
  change "291" with (show_Z 291) in Hv. by rewrite (show_Z_canonical 291 v Hv).
Qed.

Lemma got_result (r : result ApiError db) : is_ok r = true -> r = Ok (got r).
Proof. by destruct r. Qed.

Lemma attempt_reachable d now clock :
  reachable (Some pkeys) 10 conf d -> reachable (Some pkeys) 10 conf (attempt (Some pkeys) conf no_network "id" now clock d).
Proof.
  intros (t & refs & Ht & Hd). exists t, refs. split; [done|]. eapply rtc_r; [done|]. by apply act_attempt.
Qed.

Lemma marked_reachable : reachable (Some pkeys) 10 conf marked.
Proof.
  assert (H1 : is_ok creation = true) by (vm_compute; reflexivity). apply got_result in H1.
  assert (H2 : is_ok deletion = true) by (vm_compute; reflexivity). apply got_result in H2.
  assert (Hr : reachable (Some pkeys) 10 conf ready).
  { apply attempt_reachable. exists one_key, ∅. split; [intros p [= <-]; apply one_key_canonical|].
    apply rtc_once, act_elsewhere. by eapply else_create. }
  destruct Hr as (t & refs & Ht & Hd). exists t, refs. split; [done|]. eapply rtc_r; [done|].
  apply act_elsewhere. by eapply else_delete.
Qed.

Lemma partition_keys_reserved_witness :
  exists r, partitions marked !! "id" = Some r /\ row_key r = Some 291 /\
    find_pkey_by_partition_id marked "id" = Ok (Some 291).
Proof.
  eexists. split; [vm_compute; reflexivity|]. split; [reflexivity|].
  apply (partition_keys_reserved (Some pkeys) 10 conf marked "id" (default (mk_row (mk_metadata "" "" ∅) "" None conf
    (initial 0) None None (versioned_new Ready (initial 0)) None) (partitions marked !! "id")) 291 marked_reachable);
    vm_compute; reflexivity.
Defined.

Lemma partition_removed_safely_witness :
  exists k p d2, k = 291 /\ p = pkeys /\
    removed "id" k p d2 (attempt (Some pkeys) conf no_network "id" 40 41 deleting).
Proof.
  destruct (partition_removed_safely (Some pkeys) 10 conf no_network no_fault StateTable.all_ok StateTable.undisturbed "id"
    false 40 41 deleting) as (r & k & p & Hr & _ & Hk & Hp & _ & H).
  - apply attempt_reachable, marked_reachable.
  - intros q d. apply rtc_refl.
  - vm_compute. by eexists.
  - vm_compute. reflexivity.
  - exists k, p, deleting. split_and!; [|by injection Hp|exact H].
    vm_compute in Hr. injection Hr as <-. vm_compute in Hk. by injection Hk.
Defined.

Lemma marked_partition_is_deleted_witness :
  let d' := attempt (Some pkeys) conf no_network "id" 40 41 deleting in
  partitions d' !! "id" = None /\
  ResourcePool.state_of (pools d') ("pkeys", "291") = Some ResourcePool.Free.
Proof.
  apply (marked_partition_is_deleted (Some pkeys) 10 conf no_network "id" 291 pkeys 20 Ready marked 30 40 31 41).
  - exact marked_reachable.
  - reflexivity.
  - reflexivity.
  - by eexists _, _.
  - eexists. split; [vm_compute; reflexivity|]. split_and!; vm_compute; reflexivity.
  - by left.
Defined.
End IbPartitionExample.
