(* ===== verification/VpcPrefixCreate.v ===== *)
(** * VpcPrefixCreate: a new VPC prefix takes over the network prefixes in it

    The part of the handler [create] (crates/api-core/src/handlers/vpc_prefix.rs)
    that follows its checks of the site prefix, of routing and of peering: the
    network prefixes that overlap the new VPC prefix, which of them it can take
    over, the new row, and their association with it, in one transaction. *)

From S2P Require Import Prelude Text Chrono ConfigVersion StateHandler StateTable IpNetwork PrefixAllocator.
From S2P Require Import NetworkSegment VpcPrefix PrefixAllocation IbPartition.
Import ConfigVersion VpcPrefix.

Module VpcPrefixCreate.
Section Create.
Context {crate : IpNetworkCrate} {chrono : Chrono} (show_net : IpNetwork -> string).

(** A segment prefix that overlaps a range: its place in the table, and the VPC and
    the type of its segment. *)
Record OverlappingSegmentPrefix := mk_overlapping {
  osp_vpc_id : option string;
  osp_segment_type : NetworkSegment.NetworkSegmentType;
  osp_place : nat;
  osp_prefix : network_prefix_row
}.

Definition probe_segment_prefixes (n : IpNetwork) (d : db) : list OverlappingSegmentPrefix :=
  omap (fun x => if overlap (np_prefix x.2) n && bool_decide (np_overlap_vpc_id x.2 = None)
                 then (fun s => mk_overlapping (seg_vpc_id s) (seg_type s) x.1 x.2) <$> segments d !! np_segment x.2
                 else None) (imap pair (network_prefixes d)).

Inductive CreateError :=
| Overlaps
| TooSmall (segment_prefix : IpNetwork)
| InvalidMetadata
| Database (e : DatabaseError)
| NotFoundAfterwards.

Fixpoint adoptable_segment_prefixes (overlaps : list OverlappingSegmentPrefix) (candidate : NewVpcPrefix)
    : result CreateError (list OverlappingSegmentPrefix) :=
  match overlaps with
  | [] => Ok []
  | o :: overlaps =>
      if bool_decide (new_overlap_vpc_id candidate = None) && bool_decide (osp_vpc_id o = None)
         && bool_decide (np_parent (osp_prefix o) = None)
      then adoptable_segment_prefixes overlaps candidate
      else if bool_decide (np_parent (osp_prefix o) <> None)
              || bool_decide (osp_vpc_id o <> Some (new_vpc_id candidate))
              || bool_decide (osp_segment_type o <> NetworkSegment.Tenant)
      then Err Overlaps
      else adoptable ← adoptable_segment_prefixes overlaps candidate; Ok (o :: adoptable)
  end.

(** The loop over the prefixes taken over. *)
Fixpoint associate (adopted : list OverlappingSegmentPrefix) (id : string) (n : IpNetwork) (d : db)
    : result DatabaseError db :=
  match adopted with
  | [] => Ok d
  | o :: adopted => d ← set_vpc_prefix (osp_place o) id n d; associate adopted id n d
  end.

Definition get_by_id (d : db) (id : string) : result CreateError snapshot :=
  s ← map_err Database (load_vpc_prefix d id);
  match s with
  | Some s => if is_marked_as_deleted (row s) then Err NotFoundAfterwards else Ok s
  | None => Err NotFoundAfterwards
  end.

(** [create] from [probe_segment_prefixes] on: the tables it commits and the prefix
    it answers with. *)
Definition create (now clock : Z) (new : NewVpcPrefix) (metadata : IbPartition.Metadata)
    (expected_vpc_version : ConfigVersion.t) (d : db) : result CreateError (db * snapshot) :=
  segment_prefixes ← adoptable_segment_prefixes (probe_segment_prefixes (new_prefix new) d) new;
  match find (fun o => prefix (np_prefix (osp_prefix o)) <? prefix (new_prefix new)) segment_prefixes with
  | Some larger => Err (TooSmall (np_prefix (osp_prefix larger)))
  | None =>
      if negb (IbPartition.validate metadata true) then Err InvalidMetadata
      else d ← map_err Database (persist show_net now clock new expected_vpc_version d);
           d ← map_err Database (associate segment_prefixes (new_id new) (to_cidr (new_prefix new)) d);
           s ← get_by_id d (new_id new);
           Ok (d, s)
  end.

(** ** What it promises *)

(** A network prefix that a VPC prefix of the whole site can lie over: one without a
    VPC. *)
Definition left_alone (d : db) (new : NewVpcPrefix) (n : network_prefix_row) : Prop :=
  new_overlap_vpc_id new = None /\ np_parent n = None /\
  exists s, segments d !! np_segment n = Some s /\ seg_vpc_id s = None.

(** One that the VPC prefix takes over: without a parent, in it, and of a tenant
    segment of its VPC. *)
Definition taken_over (d : db) (new : NewVpcPrefix) (n : network_prefix_row) : Prop :=
  np_parent n = None /\ subnet (np_prefix n) (new_prefix new) /\
  exists s, segments d !! np_segment n = Some s /\ seg_vpc_id s = Some (new_vpc_id new) /\
    seg_type s = NetworkSegment.Tenant.

Context (now clock : Z) (new : NewVpcPrefix) (metadata : IbPartition.Metadata) (expected : ConfigVersion.t).

(** What the new row and its VPC need: in the scope of the row no VPC prefix shares an
    address with it, and its VPC is as it was read. *)
Record placeable (d : db) : Prop := {
  pl_prefixes id r : vpc_prefixes d !! id = Some r -> overlap_vpc_id r = new_overlap_vpc_id new ->
    disjoint_nets (vp_prefix r) (new_prefix new);
  pl_id : vpc_prefixes d !! new_id new = None;
  pl_vpc : exists vpc, vpcs d !! new_vpc_id new = Some vpc /\ vpc_version vpc = expected /\ vpc_deleted vpc = false;
  pl_site s : new_site_prefix_id new = Some s -> s ∈ site_prefixes d;
  pl_scope v : new_overlap_vpc_id new = Some v ->
    v = new_vpc_id new /\ is_Some (new_site_prefix_id new) /\ is_ipv4 (ip (new_prefix new)) = true
}.

Record admissible (d : db) : Prop := {
  adm_segments n : n ∈ network_prefixes d -> np_overlap_vpc_id n = None ->
    disjoint_nets (np_prefix n) (new_prefix new) \/ left_alone d new n \/ taken_over d new n;
  adm_metadata : IbPartition.validate metadata true = true;
  adm_placeable : placeable d
}.

Lemma to_cidr_idemp n : to_cidr (to_cidr n) = to_cidr n.
Proof.
  destruct (PrefixAllocation.to_cidr_spec n) as (Hp & Hi & Hn & _). unfold to_cidr at 1. rewrite Hp, Hn.
  pose proof (net_valid (to_cidr n)) as [Hv Hl]. rewrite Hi, Hp in *.
  destruct (net_new_ok (network n) (prefix n)) as (m & Hm & _); [done..|]. unfold to_cidr. by rewrite Hm.
Qed.

Lemma overlap_to_cidr n m : overlap n (to_cidr m) = overlap n m.
Proof.
  apply eq_true_iff_eq. unfold overlap. setoid_rewrite overlap_spec. unfold disjoint_nets.
  destruct (PrefixAllocation.to_cidr_spec m) as (_ & _ & _ & Hc). by setoid_rewrite Hc.
Qed.

(** A network that shares an address with another and is not larger lies in it. *)
Lemma overlap_smaller n m : overlap n m = true -> prefix m <= prefix n -> contained_eq n (to_cidr m) = true.
Proof.
  intros Ho Hl. destruct (PrefixAllocation.to_cidr_spec m) as (Hp & _ & _ & Hc). unfold contained_eq. rewrite Hp.
  apply andb_true_iff. split; [by apply Z.leb_le|]. rewrite contains_covers, Hc.
  apply orb_true_iff in Ho as [Ho|Ho]; [|by apply contains_covers]. apply contains_covers in Ho.
  destruct Ho as [Hf Hr]. destruct (network_covers m) as [Hfm Hm], (network_covers n) as [Hfn _]. fold (lo m) in *.
  assert (Hfam : same_family (ip n) (ip m)) by (unfold same_family in *; congruence).
  split; [unfold same_family in *; congruence|]. fold (lo n).
  assert (Hb : block m = 2 ^ (prefix n - prefix m) * block n).
  { unfold block. pose proof (net_valid n) as [_ ?]. rewrite (same_family_width _ _ Hfam) in *.
    rewrite <- Z.pow_add_r by lia. f_equal. lia. }
  destruct (lo_aligned m) as [k Hk], (lo_aligned n) as [j Hj]. rewrite Hb in Hk. rewrite hi_spec in Hr.
  pose proof (block_pos n). assert (lo n = lo m); [|lia]. assert (k * 2 ^ (prefix n - prefix m) = j); nia.
Qed.

Lemma subnet_longer n m : subnet n m -> prefix m <= prefix n.
Proof.
  intros H. destruct (H _ (network_covers n)) as [Hf Hlo]. fold (lo n) in Hlo.
  assert (Hb : covers n (broadcast n)).
  { split; [rewrite broadcast_spec; apply same_family_with_bits|]. fold (hi n). pose proof (lo_hi_range n). lia. }
  destruct (H _ Hb) as [_ Hhi]. fold (hi n) in Hhi. rewrite !hi_spec in *.
  assert (Hw : width (ip m) = width (ip n)).
  { apply same_family_width. rewrite network_spec in Hf. unfold same_family in *. by destruct (ip n). }
  destruct (Z.le_gt_cases (prefix m) (prefix n)) as [|Hlt]; [done|]. exfalso. pose proof (net_valid m) as [_ ?].
  pose proof (Z.pow_lt_mono_r 2 (width (ip m) - prefix m) (width (ip m) - prefix n)). unfold block in *. rewrite Hw in *. lia.
Qed.

(** ** Which prefixes it finds, and which it takes *)

Lemma elem_of_probe n d o :
  o ∈ probe_segment_prefixes n d <->
  network_prefixes d !! osp_place o = Some (osp_prefix o) /\ np_overlap_vpc_id (osp_prefix o) = None /\
  overlap (np_prefix (osp_prefix o)) n = true /\
  exists s, segments d !! np_segment (osp_prefix o) = Some s /\ osp_vpc_id o = seg_vpc_id s /\ osp_segment_type o = seg_type s.
Proof.
  unfold probe_segment_prefixes. rewrite list_elem_of_omap. split.
  - intros ([i x] & Hx & Ho). apply elem_of_lookup_imap in Hx as (i' & x' & [= <- <-] & Hx). simpl in Ho.
    destruct (overlap (np_prefix x) n) eqn:E; [|done]. case_bool_decide as Hs; [|done]. simpl in Ho.
    apply fmap_Some in Ho as (s & Hseg & ->). simpl. eauto 10.
  - intros (Hp & Hs & Ho & s & Hseg & Hv & Ht). exists (osp_place o, osp_prefix o). split.
    + apply elem_of_lookup_imap. eauto.
    + simpl. rewrite Ho, bool_decide_true, Hseg by done. simpl. destruct o. simpl in *. by subst.
Qed.

(** The prefixes it passes over and those it would take over, whatever their size. *)
Definition passed_over (o : OverlappingSegmentPrefix) : Prop :=
  new_overlap_vpc_id new = None /\ osp_vpc_id o = None /\ np_parent (osp_prefix o) = None.
Definition adoptable (o : OverlappingSegmentPrefix) : Prop :=
  np_parent (osp_prefix o) = None /\ osp_vpc_id o = Some (new_vpc_id new) /\ osp_segment_type o = NetworkSegment.Tenant.

Lemma adoptable_exact l :
  match adoptable_segment_prefixes l new with
  | Ok l' => (forall o, o ∈ l -> passed_over o \/ adoptable o) /\ forall o, o ∈ l' <-> o ∈ l /\ adoptable o
  | Err _ => exists o, o ∈ l /\ ~ passed_over o /\ ~ adoptable o
  end.
Proof.
  unfold passed_over, adoptable. induction l as [|o l IH]; simpl; [set_solver|].
  destruct (_ && _ && _) eqn:Ep.
  - apply andb_true_iff in Ep as [[E1%bool_decide_eq_true E2%bool_decide_eq_true]%andb_true_iff E3%bool_decide_eq_true].
    destruct (adoptable_segment_prefixes l new); [|set_solver]. destruct IH as [IH1 IH2]. split; [set_solver|].
    intros x. rewrite IH2, elem_of_cons. split; [tauto|]. intros [[->|?] ?]; [|tauto]. naive_solver congruence.
  - destruct (_ || _ || _) eqn:Ea.
    + exists o. split; [set_solver|]. split.
      * intros (E1 & E2 & E3). by rewrite !bool_decide_true in Ep.
      * intros (E1 & E2 & E3). rewrite !bool_decide_false in Ea; naive_solver.
    + apply orb_false_iff in Ea as [[E1 E2]%orb_false_iff E3].
      apply bool_decide_eq_false, dec_stable in E1, E2, E3.
      destruct (adoptable_segment_prefixes l new); simpl; [|set_solver]. set_solver.
Qed.

(** ** The tables it leaves *)

Definition adopted_rows (places : list nat) (id : string) (n : IpNetwork) : list network_prefix_row -> list network_prefix_row :=
  imap (fun j x => if decide (j ∈ places) then with_parent id n x else x).

Lemma set_network_prefixes_twice f g d :
  set_network_prefixes f (set_network_prefixes g d) = set_network_prefixes (f ∘ g) d.
Proof. done. Qed.

Lemma set_network_prefixes_ext f g d :
  f (network_prefixes d) = g (network_prefixes d) -> set_network_prefixes f d = set_network_prefixes g d.
Proof. unfold set_network_prefixes. by intros ->. Qed.

(** Taking over prefixes that lie in the VPC prefix never fails. *)
Lemma associate_ok l id n r : forall d,
  vpc_prefixes d !! id = Some r -> vp_prefix r = to_cidr n ->
  (forall o, o ∈ l -> exists x, network_prefixes d !! osp_place o = Some x /\ np_overlap_vpc_id x = None /\
     contained_eq (np_prefix x) (to_cidr n) = true) ->
  associate l id n d = Ok (set_network_prefixes (adopted_rows (osp_place <$> l) id (to_cidr n)) d).
Proof.
  induction l as [|o l IH]; intros d Hr Hn Hl; simpl.
  { f_equal. destruct d as [vs ss sg vp np hs]. unfold set_network_prefixes. simpl. f_equal.
    unfold adopted_rows. apply list_eq. intros j. rewrite list_lookup_imap. by destruct (np !! j). }
  destruct (Hl o) as (x & Hx & Hs & Hc); [set_solver|].
  assert (E : set_vpc_prefix (osp_place o) id n d = Ok (set_network_prefixes (<[osp_place o := with_parent id (to_cidr n) x]>) d)).
  { unfold set_vpc_prefix. rewrite Hx. simpl. unfold within_vpc_prefix. simpl. rewrite Hc. simpl.
    rewrite Hr, bool_decide_false by tauto. rewrite bool_decide_false by tauto. done. }
  rewrite E. simpl. rewrite IH; [|done..|].
  - rewrite set_network_prefixes_twice. f_equal. apply set_network_prefixes_ext. simpl. unfold adopted_rows.
    apply list_eq. intros j. rewrite !list_lookup_imap. destruct (decide (j = osp_place o)) as [->|Hj].
    + rewrite list_lookup_insert_eq by (by apply lookup_lt_Some in Hx). rewrite Hx. simpl.
      rewrite (decide_True (P := osp_place o ∈ osp_place o :: _)) by set_solver. by case_decide.
    + rewrite list_lookup_insert_ne by done. destruct (network_prefixes d !! j); [|done]. simpl. f_equal.
      apply decide_ext. set_solver.
  - intros o' Ho'. destruct (Hl o') as (y & Hy & Hsy & Hcy); [set_solver|]. simpl.
    destruct (decide (osp_place o' = osp_place o)) as [Heq|Hne].
    + rewrite Heq, list_lookup_insert_eq by (by apply lookup_lt_Some in Hx). eauto.
    + rewrite list_lookup_insert_ne by done. eauto.
Qed.

Definition new_row : vpc_prefix_row :=
  mk_row (new_site_prefix_id new) (new_vpc_id new) (new_overlap_vpc_id new) (to_cidr (new_prefix new)) None None
    (versioned_new Provisioning (initial now)) None.

Lemma is_ipv4_to_cidr n : is_ipv4 (ip (to_cidr n)) = is_ipv4 (ip n).
Proof.
  destruct (PrefixAllocation.to_cidr_spec n) as (_ & -> & _). rewrite network_spec. by destruct (ip n).
Qed.

Lemma scope_check_iff :
  overlap_scope_check new_row = true <->
  forall v, new_overlap_vpc_id new = Some v ->
    v = new_vpc_id new /\ is_Some (new_site_prefix_id new) /\ is_ipv4 (ip (new_prefix new)) = true.
Proof.
  unfold overlap_scope_check, new_row. simpl. rewrite is_ipv4_to_cidr. destruct (new_overlap_vpc_id new) as [v|]; [|done].
  rewrite !andb_true_iff, String.eqb_eq, bool_decide_eq_true. naive_solver.
Qed.

Lemma conflict_false d :
  existsb (fun kr => vpc_prefix_conflict kr.2 new_row) (map_to_list (vpc_prefixes d)) = false <->
  forall id r, vpc_prefixes d !! id = Some r -> overlap_vpc_id r = new_overlap_vpc_id new ->
    disjoint_nets (vp_prefix r) (new_prefix new).
Proof.
  rewrite <- not_true_iff_false, existsb_exists. unfold vpc_prefix_conflict, new_row. simpl.
  split.
  - intros H id r Hr Ho. apply overlap_spec_false, not_true_iff_false. intros Hc. apply H. exists (id, r).
    split; [by apply list_elem_of_In, elem_of_map_to_list|]. simpl. rewrite overlap_to_cidr, bool_decide_true by done. done.
  - intros H ([id r] & Hr%list_elem_of_In%elem_of_map_to_list & Hc). simpl in Hc. rewrite overlap_to_cidr in Hc.
    apply andb_true_iff in Hc as [Ho%bool_decide_eq_true Hc]. apply overlap_spec in Hc. by apply Hc, (H id r).
Qed.

Definition with_row (vpc : vpc_row) (d : db) : db :=
  set_vpcs (<[new_vpc_id new := mk_vpc (increment expected clock) (vpc_deleted vpc) (tenant_organization_id vpc)
                (network_virtualization_type vpc) (slaac_enabled vpc)]>)
    (StateTable.persist_history (set_vpc_prefixes (<[new_id new := new_row]>) d) (new_id new) (initial now) Provisioning).

Lemma persist_placeable d d' :
  persist show_net now clock new expected d = Ok d' -> placeable d.
Proof.
  unfold persist. fold new_row. intros (d1 & H1 & H2)%bind_ok.
  destruct (insert_vpc_prefix (new_id new) new_row d) as [d0|e] eqn:E; [|done]. injection H1 as <-.
  unfold insert_vpc_prefix in E. destruct (overlap_scope_check new_row) eqn:E1; [|done]. simpl in E.
  case_bool_decide as E2; [done|]. destruct (existsb _ _) eqn:E3; [done|]. case_bool_decide as E4; [|done]. simpl in E.
  destruct (negb _) eqn:E5 in E; [done|]. injection E as <-. split.
  - by apply conflict_false.
  - by apply eq_None_not_Some.
  - unfold increment_vpc_version in H2. simpl in H2. destruct (vpcs d !! new_vpc_id new) as [v|]; [|done].
    exists v. split; [done|]. case_bool_decide; [|done]. by destruct (vpc_deleted v).
  - intros s Hs. rewrite Hs in E5. by case_bool_decide.
  - by apply scope_check_iff.
Qed.

Lemma persist_placed d :
  placeable d -> exists vpc, vpcs d !! new_vpc_id new = Some vpc /\
    persist show_net now clock new expected d = Ok (with_row vpc d).
Proof.
  intros [H1 H2 (v & Hv & Hver & Hdel) H4 H5]. exists v. split; [done|]. unfold persist. fold new_row.
  unfold insert_vpc_prefix. rewrite (proj2 scope_check_iff H5), (proj2 (conflict_false d) H1). simpl.
  rewrite H2, Hv, bool_decide_false by (by intros [? ?]). rewrite bool_decide_true by eauto. simpl.
  assert (E : match new_site_prefix_id new with Some s => bool_decide (s ∈ site_prefixes d) | None => true end = true).
  { destruct (new_site_prefix_id new) as [s|]; [|done]. by apply bool_decide_true, H4. }
  rewrite E. simpl. unfold increment_vpc_version. simpl. unfold with_row. by rewrite Hv, Hdel, bool_decide_true.
Qed.

(** The prefixes that are taken over, once both checks have passed. *)
Definition checked (d : db) (l : list OverlappingSegmentPrefix) : Prop :=
  adoptable_segment_prefixes (probe_segment_prefixes (new_prefix new) d) new = Ok l /\
  find (fun o => prefix (np_prefix (osp_prefix o)) <? prefix (new_prefix new)) l = None.

Lemma checked_small d l o : checked d l -> o ∈ l -> prefix (new_prefix new) <= prefix (np_prefix (osp_prefix o)).
Proof. intros [_ Hf] Ho%list_elem_of_In. apply Z.ltb_ge, (find_none _ _ Hf o Ho). Qed.

Lemma checked_contained d l o :
  checked d l -> o ∈ l -> network_prefixes d !! osp_place o = Some (osp_prefix o) /\
    np_overlap_vpc_id (osp_prefix o) = None /\ adoptable o /\ o ∈ probe_segment_prefixes (new_prefix new) d /\
    contained_eq (np_prefix (osp_prefix o)) (to_cidr (new_prefix new)) = true.
Proof.
  intros Hc Ho. pose proof (checked_small d l o Hc Ho) as Hl. destruct Hc as [Ha _].
  pose proof (adoptable_exact (probe_segment_prefixes (new_prefix new) d)) as Hx. rewrite Ha in Hx.
  apply Hx in Ho as [Ho Had]. pose proof Ho as (Hp & Hs & Hov & _)%elem_of_probe. split_and!; [done..|].
  by apply overlap_smaller.
Qed.

Lemma contained_subnet n m : contained_eq n (to_cidr m) = true -> subnet n m.
Proof.
  intros H%contained_eq_subnet a Ha%H. by apply (PrefixAllocation.to_cidr_spec m).
Qed.

Lemma probe_place d i n :
  whole d -> network_prefixes d !! i = Some n -> np_overlap_vpc_id n = None ->
  ~ disjoint_nets (np_prefix n) (new_prefix new) ->
  exists s, segments d !! np_segment n = Some s /\
    mk_overlapping (seg_vpc_id s) (seg_type s) i n ∈ probe_segment_prefixes (new_prefix new) d.
Proof.
  intros Hw Hi Hs Hov%overlap_spec. destruct (whole_child _ Hw n) as [[s Hseg] _]; [by eapply list_elem_of_lookup_2|].
  exists s. split; [done|]. apply elem_of_probe. simpl. eauto 10.
Qed.

(** Every row after it: taken over, or not concerned. *)
Lemma checked_rows d l i n :
  whole d -> checked d l -> network_prefixes d !! i = Some n ->
  (i ∈ (osp_place <$> l)) /\ np_overlap_vpc_id n = None /\ ~ disjoint_nets (np_prefix n) (new_prefix new) /\ taken_over d new n \/
  (i ∉ (osp_place <$> l)) /\
    (np_overlap_vpc_id n = None -> disjoint_nets (np_prefix n) (new_prefix new) \/ left_alone d new n).
Proof.
  intros Hw Hc Hi. destruct (decide (i ∈ (osp_place <$> l))) as [Hin|Hout].
  - left. pose proof Hin as (o & -> & Ho)%list_elem_of_fmap.
    destruct (checked_contained d l o Hc Ho) as (Hp & Hs & (A1 & A2 & A3) & Hpr & Hcon).
    assert (osp_prefix o = n) as <- by congruence.
    apply elem_of_probe in Hpr as (_ & _ & Hov & s & Hseg & Ev & Et). split_and!; try done; [by apply overlap_spec|].
    split_and!; [done|by apply contained_subnet|]. exists s. split_and!; congruence.
  - right. split; [done|]. intros Hs. destruct (overlap (np_prefix n) (new_prefix new)) eqn:Hov.
    2:{ left. by apply overlap_spec_false. }
    right. apply overlap_spec in Hov. destruct (probe_place d i n Hw Hi Hs Hov) as (s & Hseg & Hpr).
    pose proof (adoptable_exact (probe_segment_prefixes (new_prefix new) d)) as Hx. rewrite (proj1 Hc) in Hx.
    destruct Hx as [Hall Hiff]. destruct (Hall _ Hpr) as [(B1 & B2 & B3)|Ha].
    + split_and!; eauto.
    + destruct Hout. apply list_elem_of_fmap. eexists. split; [|by apply Hiff]. done.
Qed.

Lemma checked_of_segments d :
  (forall n, n ∈ network_prefixes d -> np_overlap_vpc_id n = None ->
     disjoint_nets (np_prefix n) (new_prefix new) \/ left_alone d new n \/ taken_over d new n) ->
  exists l, checked d l.
Proof.
  intros H. unfold checked.
  assert (Hpr : forall o, o ∈ probe_segment_prefixes (new_prefix new) d ->
    passed_over o \/ adoptable o /\ subnet (np_prefix (osp_prefix o)) (new_prefix new)).
  { intros o (Hp & Hs & Hov%overlap_spec & s & Hseg & Ev & Et)%elem_of_probe.
    destruct (H (osp_prefix o)) as [?|[(H1 & H2 & s' & Hs' & H3)|(H1 & H2 & s' & Hs' & H3 & H4)]];
      [by eapply list_elem_of_lookup_2|done|done|left|right]; simplify_eq/=.
    - split_and!; congruence.
    - split; [split_and!; congruence|done]. }
  pose proof (adoptable_exact (probe_segment_prefixes (new_prefix new) d)) as Hx.
  destruct (adoptable_segment_prefixes _ _) as [l|e].
  - exists l. split; [done|]. destruct (find _ l) as [o|] eqn:E; [|done]. exfalso.
    apply find_some in E as [Ho%list_elem_of_In Hlt%Z.ltb_lt]. apply Hx in Ho as [Ho Ha].
    destruct (Hpr o Ho) as [(_ & Hp & _)|[_ Hsub]]; [destruct Ha as (_ & Ha & _); congruence|].
    apply subnet_longer in Hsub. lia.
  - destruct Hx as (o & Ho & Hn1 & Hn2). destruct (Hpr o Ho) as [?|[? _]]; done.
Qed.

(** ** Success and failure *)

Lemma create_checked d x :
  create now clock new metadata expected d = Ok x ->
  exists l, checked d l /\ IbPartition.validate metadata true = true /\ placeable d.
Proof.
  unfold create. intros (l & Hl & H)%bind_ok. exists l. unfold checked.
  destruct (find _ l); [done|]. destruct (IbPartition.validate metadata true); [|done]. simpl in H.
  apply bind_ok in H as (d1 & H1 & _). split_and!; [done..|]. apply (persist_placeable d d1).
  by destruct (persist _ _ _ _ _ _); simplify_eq/=.
Qed.

Lemma create_succeeds d l :
  checked d l -> IbPartition.validate metadata true = true -> placeable d ->
  exists vpc s, vpcs d !! new_vpc_id new = Some vpc /\ snap_id s = new_id new /\ row s = new_row /\
    create now clock new metadata expected d =
    Ok (set_network_prefixes (adopted_rows (osp_place <$> l) (new_id new) (to_cidr (new_prefix new))) (with_row vpc d), s).
Proof.
  intros Hc Hm Hpl. destruct (persist_placed d Hpl) as (vpc & Hv & Hper).
  set (d' := set_network_prefixes (adopted_rows (osp_place <$> l) (new_id new) (to_cidr (new_prefix new))) (with_row vpc d)).
  destruct (load_ok (fun _ => "time") d' (new_id new) new_row) as [st Hst].
  { simpl. apply lookup_insert_eq. }
  { simpl. apply lookup_insert_is_Some'. by left. }
  exists vpc, (mk_snapshot (new_id new) new_row st). split_and!; [done..|].
  unfold create. rewrite (proj1 Hc). simpl. rewrite (proj2 Hc), Hm. simpl. rewrite Hper. simpl.
  rewrite (associate_ok l (new_id new) (to_cidr (new_prefix new)) new_row).
  - rewrite to_cidr_idemp. simpl. fold d'. unfold get_by_id. simpl in Hst. by rewrite Hst.
  - simpl. apply lookup_insert_eq.
  - simpl. by rewrite to_cidr_idemp.
  - intros o Ho. destruct (checked_contained d l o Hc Ho) as (H1 & H2 & _ & _ & H3). exists (osp_prefix o).
    rewrite to_cidr_idemp. done.
Qed.

(** C14: Creating a VPC prefix, once the earlier checks of the handler have passed,
    in tables that the API, the allocation and the controller lead to, succeeds exactly
    when the request is [admissible]: the metadata is valid; the id is new, the site
    prefix exists and the scope fits; no VPC prefix of the same scope shares an address
    with it; its VPC is there, not deleted and of the version read; and each network prefix without a scope that shares an
    address with it is one that it can take over (one without a parent, inside it, of a
    tenant segment of its VPC) or, if it has no scope itself, one of a segment without a
    VPC. It then takes over exactly the former, so that from then on they count as its
    children, and changes no other network prefix. *)
Theorem create_adopts debug_time to_rfc3339 drain_period vs sites d :
  rtc (activity show_net debug_time to_rfc3339 drain_period) (start vs sites) d ->
  ((exists x, create now clock new metadata expected d = Ok x) <-> admissible d) /\
  forall d' s, create now clock new metadata expected d = Ok (d', s) ->
    snap_id s = new_id new /\ row s = new_row /\ vpc_prefixes d' = <[new_id new := new_row]> (vpc_prefixes d) /\
    (exists vpc, vpcs d !! new_vpc_id new = Some vpc /\
       vpcs d' = <[new_vpc_id new := mk_vpc (increment expected clock) (vpc_deleted vpc) (tenant_organization_id vpc)
                    (network_virtualization_type vpc) (slaac_enabled vpc)]> (vpcs d)) /\
    segments d' = segments d /\ length (network_prefixes d') = length (network_prefixes d) /\
    forall i n, network_prefixes d !! i = Some n ->
      network_prefixes d' !! i = Some (with_parent (new_id new) (to_cidr (new_prefix new)) n) /\
        np_overlap_vpc_id n = None /\ ~ disjoint_nets (np_prefix n) (new_prefix new) /\ taken_over d new n \/
      network_prefixes d' !! i = Some n /\
        (np_overlap_vpc_id n = None -> disjoint_nets (np_prefix n) (new_prefix new) \/ left_alone d new n).
Proof.
  intros Hw%reachable_whole. split; [split|].
  - intros [x (l & Hc & Hm & Hp)%create_checked]. split; [|done..].
    intros n [i Hi]%list_elem_of_lookup Hs. destruct (checked_rows d l i n Hw Hc Hi) as [(_ & _ & _ & H)|[_ H]]; [tauto|].
    apply H in Hs. tauto.
  - intros [Hs Hm Hp]. destruct (checked_of_segments d Hs) as [l Hl].
    destruct (create_succeeds d l Hl Hm Hp) as (vpc & s & _ & _ & _ & ->). eauto.
  - intros d' s Hcr. pose proof Hcr as (l & Hc & Hm & Hp)%create_checked.
    destruct (create_succeeds d l Hc Hm Hp) as (vpc & s' & Hv & Hid & Hrow & E). rewrite E in Hcr. injection Hcr as <- <-.
    split_and!; [done..|by exists vpc|done|apply length_imap|].
    intros i n Hi. simpl. unfold adopted_rows. rewrite list_lookup_imap, Hi. simpl.
    destruct (checked_rows d l i n Hw Hc Hi) as [(Hin & H)|[Hout H]].
    + left. by rewrite decide_True.
    + right. by rewrite decide_False.
Qed.

End Create.
End VpcPrefixCreate.

(** ** A VPC prefix over a segment that is already there *)

Module VpcPrefixCreateExample.
Import VpcPrefixCreate VpcPrefixExample.
#[local] Existing Instances ipnetwork_reference chrono_reference.

Definition lone_segment : result DatabaseError db :=
  persist_segment "s" (mk_segment (Some "vpc") NetworkSegment.Tenant None) empty.
Definition direct_link : result DatabaseError db :=
  create_for "s" [mk_new_network_prefix link0 (Some (V4 base_address)) 0] None (got lone_segment).
Definition before : db := got direct_link.

Lemma before_reachable : rtc (activity no_show show_Z show_Z hour) empty before.
Proof.
  assert (H1 : lone_segment = Ok (got lone_segment)) by (apply got_ok; vm_compute; done).
  assert (H2 : direct_link = Ok before) by (apply got_ok; vm_compute; done).
  apply (rtc_l _ _ (got lone_segment)); [apply act_statement; exact (st_segment _ _ _ _ _ H1)|].
  apply rtc_once, act_statement. exact (st_create _ _ _ _ _ _ H2).
Qed.

Definition block : NewVpcPrefix := mk_new "p" None "vpc" None block24.
Definition named : IbPartition.Metadata := IbPartition.mk_metadata "block" "" ∅.

Lemma create_adopts_witness :
  admissible block named v1 before /\
  exists d' s n, create no_show 0 1 block named v1 before = Ok (d', s) /\ network_prefixes before !! 0%nat = Some n /\
    network_prefixes d' !! 0%nat = Some (with_parent "p" (to_cidr block24) n).
Proof.
  destruct (create_adopts no_show 0 1 block named v1 show_Z show_Z hour {[ "vpc" := vpc ]} ∅ before before_reachable)
    as [Hiff Heff].
  assert (Hok : is_ok (create no_show 0 1 block named v1 before) = true) by (vm_compute; reflexivity).
  destruct (create no_show 0 1 block named v1 before) as [[d' s]|e]; [|done].
  split; [apply Hiff; by eexists|]. destruct (Heff d' s eq_refl) as (_ & _ & _ & _ & _ & _ & Hrows).
  assert (Hn : (fun n => (np_overlap_vpc_id n, contains (np_prefix n) (V4 base_address),
                 seg_vpc_id <$> segments before !! np_segment n)) <$> network_prefixes before !! 0%nat
               = Some (None, true, Some (Some "vpc"))) by (vm_compute; reflexivity).
  destruct (network_prefixes before !! 0%nat) as [n|] eqn:En; [|done]. injection Hn as Hs Hc Hv.
  exists d', s, n. split_and!; [done..|]. destruct (Hrows 0%nat n En) as [[H _]|[_ H]]; [done|]. exfalso.
  destruct (H Hs) as [Hd|(_ & _ & s' & Hs' & Hnone)].
  - apply (Hd (V4 base_address)); apply contains_covers; [done|vm_compute; reflexivity].
  - rewrite Hs' in Hv. simpl in Hv. congruence.
Defined.
End VpcPrefixCreateExample.
