(* ===== verification/Interleave.v ===== *)
(** * Interleave: programs whose calls interleave, fail and are cut off

    An [async] function that works on shared, remote state (the database, the
    credential store, devices) is a program of [prog]: a tree whose nodes are the
    calls it awaits. Between two calls anything may happen elsewhere; a call can
    succeed, fail, or take effect without its reply arriving; and a program can
    stop anywhere, as it does when its process dies. [safe] is a weakest
    precondition for programs in such surroundings, with what the others may do
    (rely), what the program may do (guarantee), and an invariant; [system_safe]
    says that it is sound for any number of programs. *)

From S2P Require Import Prelude.

Module Interleave.

(** How a call ends: with its effect, without it, or with the effect and an error. *)
Inductive reply := Done | Failed (msg : string) | Lost (msg : string).

Inductive prog (W A : Type) : Type :=
| Ret (a : A)
| Act (B : Type) (f : reply -> W -> W * B) (k : B -> prog W A).
Arguments Ret {W A} a.
Arguments Act {W A B} f k.

Fixpoint prog_bind {W A B} (f : A -> prog W B) (p : prog W A) : prog W B :=
  match p with
  | Ret a => f a
  | Act g k => Act g (fun b => prog_bind f (k b))
  end.

(** Programs with errors: [?] ends them. *)
Definition M (W E A : Type) : Type := prog W (result E A).
#[export] Instance M_ret {W E} : MRet (M W E) := fun A a => Ret (Ok a).
#[export] Instance M_bind {W E} : MBind (M W E) :=
  fun A B f m => prog_bind (fun r => match r with Ok a => f a | Err e => Ret (Err e) end) m.

Definition lift {W E A} (r : result E A) : M W E A := Ret r.
Definition raise {W E A} (e : E) : M W E A := Ret (Err e).
(** [match p.await { Ok(_) => .., Err(_) => .. }]. *)
Definition try {W E F A} (m : M W E A) : M W F (result E A) := prog_bind (fun r => Ret (Ok r)) m.
Definition map_error {W E F A} (f : E -> F) (m : M W E A) : M W F A := prog_bind (fun r => Ret (map_err f r)) m.

(** A call with effect [f]; [err] makes an error of a message. *)
Definition call {W E B} (err : string -> E) (f : W -> W * result E B) : M W E B :=
  Act (fun r w => match r with
                  | Done => f w
                  | Failed m => (w, Err (err m))
                  | Lost m => ((f w).1, Err (err m))
                  end) Ret.

(** What happens in the process itself, like an access to a mutex, does not fail. *)
Definition local {W E B} (f : W -> W * B) : M W E B := Act (fun _ w => let r := f w in (r.1, Ok r.2)) Ret.

(** Tasks that are polled in some order ([FuturesUnordered]): the order of their
    calls is [order], after which those that are left run in turn. *)
Fixpoint in_turn {W A} (ps : list (prog W A)) : prog W (list A) :=
  match ps with
  | [] => Ret []
  | p :: ps => prog_bind (fun a => prog_bind (fun l => Ret (a :: l)) (in_turn ps)) p
  end.
Fixpoint join_all {W A} (order : list nat) (ps : list (prog W A)) : prog W (list A) :=
  match order with
  | [] => in_turn ps
  | i :: order =>
      match ps !! i with
      | Some (Act f k) => Act f (fun b => join_all order (<[i := k b]> ps))
      | _ => join_all order ps
      end
  end.

(** A run in which every call succeeds and nothing interferes. *)
Fixpoint run {W A} (p : prog W A) (w : W) : W * A :=
  match p with
  | Ret a => (w, a)
  | Act f k => let r := f Done w in run (k r.2) r.1
  end.

(** The first calls of a program, with these replies: what is left of it. *)
Fixpoint exec {W A} (rs : list reply) (p : prog W A) (w : W) : W * prog W A :=
  match rs, p with
  | r :: rs, Act f k => exec rs (k (f r w).2) (f r w).1
  | _, _ => (w, p)
  end.

Lemma run_bind {W A B} (p : prog W A) (f : A -> prog W B) w :
  run (prog_bind f p) w = run (f (run p w).2) (run p w).1.
Proof. revert w. induction p as [a|C g k IH]; intros w; simpl; [done|]. apply IH. Qed.

Lemma run_mbind {W E A B} (m : M W E A) (f : A -> M W E B) w :
  run (m ≫= f) w = match (run m w).2 with Ok a => run (f a) (run m w).1 | Err e => ((run m w).1, Err e) end.
Proof. unfold mbind, M_bind. rewrite run_bind. by destruct (run m w).2. Qed.

Lemma run_call {W E B} (err : string -> E) (f : W -> W * result E B) w : run (call err f) w = f w.
Proof. simpl. by destruct (f w). Qed.
Lemma run_try {W E F A} (m : M W E A) w : run (try m : M W F _) w = ((run m w).1, Ok (run m w).2).
Proof. unfold try. by rewrite run_bind. Qed.
Lemma run_map_error {W E F A} (g : E -> F) (m : M W E A) w :
  run (map_error g m) w = ((run m w).1, map_err g (run m w).2).
Proof. unfold map_error. by rewrite run_bind. Qed.

(** ** Programs among others *)
Section Safe.
Context {W : Type} (R G : W -> W -> Prop) (I : W -> Prop).
Context {Rrefl : Reflexive R} {Rtrans : Transitive R}.

(** From [w] on, whatever the replies and the others do, the program keeps the
    invariant and its guarantee in every step, and ends with [Q]. *)
Fixpoint safe {A} (p : prog W A) (Q : A -> W -> Prop) (w : W) : Prop :=
  match p with
  | Ret a => forall w', R w w' -> I w' -> Q a w'
  | Act f k => forall r w', R w w' -> I w' ->
      I (f r w').1 /\ G w' (f r w').1 /\ safe (k (f r w').2) Q (f r w').1
  end.

Lemma safe_rely {A} (p : prog W A) Q w w' : safe p Q w -> R w w' -> safe p Q w'.
Proof.
  destruct p as [a|B f k]; simpl; intros H Hw.
  - intros w'' Hw''. apply H. by transitivity w'.
  - intros r w'' Hw''. apply H. by transitivity w'.
Qed.

Lemma safe_mono {A} (p : prog W A) (Q Q' : A -> W -> Prop) w :
  (forall a w, I w -> Q a w -> Q' a w) -> safe p Q w -> safe p Q' w.
Proof.
  intros HQ. revert w. induction p as [a|B f k IH]; simpl; intros w H.
  - auto.
  - intros r w' Hw HI. destruct (H r w' Hw HI) as (? & ? & ?). auto.
Qed.

Lemma safe_bind {A B} (p : prog W A) (f : A -> prog W B) Q w :
  safe p (fun a => safe (f a) Q) w -> safe (prog_bind f p) Q w.
Proof.
  revert w. induction p as [a|C g k IH]; simpl; intros w H.
  - destruct (f a) as [b|D h l] eqn:E; simpl.
    + intros w' Hw HI. specialize (H w' Hw HI). simpl in H. by apply H.
    + intros r w' Hw HI. specialize (H w' Hw HI). simpl in H. by apply H.
  - intros r w' Hw HI. destruct (H r w' Hw HI) as (? & ? & ?). auto.
Qed.

Definition on_result {E A} (Q : A -> W -> Prop) (QE : E -> W -> Prop) (r : result E A) (w : W) : Prop :=
  match r with Ok a => Q a w | Err e => QE e w end.

(** The errors of the first program are errors of the whole. *)
Lemma safe_mbind {E A B} (m : M W E A) (f : A -> M W E B) (Q : B -> W -> Prop) (QE : E -> W -> Prop) w :
  safe m (on_result (fun a => safe (f a) (on_result Q QE)) (fun e w => forall w', R w w' -> I w' -> QE e w')) w ->
  safe (m ≫= f) (on_result Q QE) w.
Proof.
  intros H. apply safe_bind. eapply safe_mono; [|exact H]. intros [a|e] w' HI Hr; simpl in *; [done|]. auto.
Qed.

Lemma safe_try {E F A} (m : M W E A) (Q : result E A -> W -> Prop) (QE : F -> W -> Prop) w :
  safe m (fun r w => forall w', R w w' -> I w' -> Q r w') w -> safe (try m) (on_result Q QE) w.
Proof. intros H. apply safe_bind. eapply safe_mono; [|exact H]. by intros r w' HI Hr. Qed.

Lemma safe_map_error {E F A} (g : E -> F) (m : M W E A) (Q : A -> W -> Prop) (QE : F -> W -> Prop) w :
  safe m (on_result (fun a w => forall w', R w w' -> I w' -> Q a w')
                    (fun e w => forall w', R w w' -> I w' -> QE (g e) w')) w ->
  safe (map_error g m) (on_result Q QE) w.
Proof. intros H. apply safe_bind. eapply safe_mono; [|exact H]. by intros [a|e] w' HI Hr. Qed.

(** ** Triples

    Assertions that the others respect are stable; between the calls of a program
    there are only such. *)
Definition stable (A : W -> Prop) : Prop := forall w w', A w -> R w w' -> I w' -> A w'.
Definition triple {A} (P : W -> Prop) (p : prog W A) (Q : A -> W -> Prop) : Prop := forall w, P w -> safe p Q w.

Lemma stable_and P Q : stable P -> stable Q -> stable (fun w => P w /\ Q w).
Proof. intros HP HQ w w' [? ?] ? ?. split; eauto. Qed.
Lemma stable_pure (P : Prop) : stable (fun _ => P).
Proof. by intros w w' ?. Qed.
Lemma stable_exists {X} (P : X -> W -> Prop) : (forall x, stable (P x)) -> stable (fun w => exists x, P x w).
Proof. intros HP w w' [x Hx] ? ?. exists x. by eapply HP. Qed.
Lemma stable_impl (X : Prop) P : (X -> stable P) -> stable (fun w => X -> P w).
Proof. intros HP w w' H HR HI HX. exact (HP HX w w' (H HX) HR HI). Qed.

Lemma triple_conseq {A} (P P' : W -> Prop) (p : prog W A) (Q Q' : A -> W -> Prop) :
  triple P' p Q' -> (forall w, P w -> P' w) -> (forall a w, I w -> Q' a w -> Q a w) -> triple P p Q.
Proof. intros H HP HQ w Hw. eapply safe_mono; [exact HQ|]. auto. Qed.

Lemma hoare_ret {A} (a : A) (P : W -> Prop) (Q : A -> W -> Prop) :
  stable P -> (forall w, I w -> P w -> Q a w) -> triple P (Ret a) Q.
Proof. intros HP HQ w Hw w' Hw' HI. apply HQ; [done|]. by eapply HP. Qed.

Lemma hoare_pure {A} (X : Prop) (P : W -> Prop) (p : prog W A) (Q : A -> W -> Prop) :
  (X -> triple P p Q) -> triple (fun w => P w /\ X) p Q.
Proof. intros H w [Hw HX]. by apply H. Qed.

(** The errors of the first program are errors of the whole. *)
Lemma hoare_bind {E A B} (P : W -> Prop) (m : M W E A) (f : A -> M W E B) (X : A -> W -> Prop) (Q : B -> W -> Prop)
    (QE : E -> W -> Prop) :
  triple P m (on_result X QE) -> (forall e, stable (QE e)) -> (forall a, triple (X a) (f a) (on_result Q QE)) ->
  triple P (m ≫= f) (on_result Q QE).
Proof.
  intros Hm HQE Hf w Hw. apply safe_mbind. eapply safe_mono; [|by apply Hm]. intros [a|e] w' HI Hr; simpl in *.
  - by apply Hf.
  - intros w'' Hw'' HI''. by eapply HQE.
Qed.

Lemma triple_try {E F A} (P : W -> Prop) (m : M W E A) (Q : result E A -> W -> Prop) (QE : F -> W -> Prop) :
  triple P m Q -> (forall r, stable (Q r)) -> triple P (try m) (on_result Q QE).
Proof.
  intros Hm HQ w Hw. apply safe_try. eapply safe_mono; [|by apply Hm]. intros r w' HI Hr w'' Hw'' HI''. by eapply HQ.
Qed.

Lemma triple_map_error {E F A} (g : E -> F) (P : W -> Prop) (m : M W E A) (Q : A -> W -> Prop) (QE : F -> W -> Prop) :
  triple P m (on_result Q (fun e => QE (g e))) -> (forall a, stable (Q a)) -> (forall e, stable (QE e)) ->
  triple P (map_error g m) (on_result Q QE).
Proof.
  intros Hm HQ HQE w Hw. apply safe_map_error. eapply safe_mono; [|by apply Hm].
  intros [a|e] w' HI Hr w'' Hw'' HI''; simpl in *; [by eapply HQ|by eapply HQE].
Qed.

(** A call has its effect or not, and its reply arrives or not. *)
Lemma triple_call {E B} (err : string -> E) (f : W -> W * result E B) (P : W -> Prop) (Q : B -> W -> Prop)
    (QE : E -> W -> Prop) :
  (forall w, G w w) -> stable P -> (forall b, stable (Q b)) -> (forall e, stable (QE e)) ->
  (forall w, P w -> I w -> I (f w).1 /\ G w (f w).1 /\ on_result Q QE (f w).2 (f w).1) ->
  (forall w m, P w -> I w -> QE (err m) w /\ QE (err m) (f w).1) ->
  triple P (call err f) (on_result Q QE).
Proof.
  intros Grefl HP HQ HQE Hf Herr w Hw r w' Hw' HI. assert (Hw1 : P w') by (by eapply HP).
  destruct (Hf w' Hw1 HI) as (H1 & H2 & H3).
  destruct r as [|m|m]; simpl; split_and!; auto; intros w'' Hw'' HI''.
  - destruct (f w').2; simpl in *; [by eapply HQ|by eapply HQE].
  - eapply HQE; [exact (proj1 (Herr w' m Hw1 HI))|done..].
  - eapply HQE; [exact (proj2 (Herr w' m Hw1 HI))|done..].
Qed.

(** One that only reads. *)
Lemma triple_read {E B} (err : string -> E) (f : W -> result E B) (P : W -> Prop) (Q : B -> W -> Prop)
    (QE : E -> W -> Prop) :
  (forall w, G w w) -> stable P -> (forall b, stable (Q b)) -> (forall e, stable (QE e)) ->
  (forall w, P w -> I w -> on_result Q QE (f w) w) -> (forall w m, P w -> I w -> QE (err m) w) ->
  triple P (call err (fun w => (w, f w))) (on_result Q QE).
Proof. intros Grefl HP HQ HQE Hf Herr. apply triple_call; simpl; auto. Qed.

(** ** Triples of programs whose errors all leave the same *)
Definition spec {E A} (P : W -> Prop) (m : M W E A) (Q : A -> W -> Prop) (X : W -> Prop) : Prop :=
  triple P m (on_result Q (fun _ => X)).

Lemma spec_conseq {E A} (P P' : W -> Prop) (m : M W E A) (Q Q' : A -> W -> Prop) (X X' : W -> Prop) :
  spec P' m Q' X' -> (forall w, P w -> P' w) -> (forall a w, I w -> Q' a w -> Q a w) -> (forall w, X' w -> X w) -> spec P m Q X.
Proof. intros H HP HQ HX. eapply triple_conseq; [exact H|done|]. intros [a|e] w HI; simpl; auto. Qed.
Lemma spec_ret {E A} (a : A) (P : W -> Prop) (Q : A -> W -> Prop) X :
  stable P -> (forall w, I w -> P w -> Q a w) -> spec (E := E) P (Ret (Ok a)) Q X.
Proof. intros HP HQ. apply hoare_ret; [done|]. intros w HI Hw. simpl. auto. Qed.
Lemma spec_raise {E A} (e : E) (P : W -> Prop) (Q : A -> W -> Prop) X :
  stable P -> (forall w, I w -> P w -> X w) -> spec P (raise e) Q X.
Proof. intros HP HQ. apply hoare_ret; [done|]. intros w HI Hw. simpl. auto. Qed.
Lemma spec_bind {E A B} P (m : M W E A) (f : A -> M W E B) Y Q X :
  spec P m Y X -> stable X -> (forall a, spec (Y a) (f a) Q X) -> spec P (m ≫= f) Q X.
Proof. intros Hm HX Hf. eapply hoare_bind; [exact Hm|done|exact Hf]. Qed.
Lemma spec_map_error {E F A} (g : E -> F) P (m : M W E A) Q X :
  spec P m Q X -> (forall a, stable (Q a)) -> stable X -> spec P (map_error g m) Q X.
Proof. intros Hm HQ HX. by apply triple_map_error; [exact Hm|..]. Qed.
Lemma spec_try {E F A} P (m : M W E A) Q X (X' : W -> Prop) :
  spec P m Q X -> (forall a, stable (Q a)) -> stable X ->
  spec (E := F) P (try m) (on_result Q (fun _ => X)) X'.
Proof. intros Hm HQ HX. apply triple_try; [exact Hm|]. intros [a|e]; [exact (HQ a)|exact HX]. Qed.
Lemma spec_call {E B} (err : string -> E) (f : W -> W * result E B) P Q (X : W -> Prop) :
  (forall w, G w w) -> stable P -> (forall b, stable (Q b)) -> stable X -> (forall w, P w -> X w) ->
  (forall w, P w -> I w -> I (f w).1 /\ G w (f w).1 /\ X (f w).1 /\ forall b, (f w).2 = Ok b -> Q b (f w).1) ->
  spec P (call err f) Q X.
Proof.
  intros Grefl HP HQ HX HPX Hf. apply triple_call; [auto..| |].
  - intros w Hw HI. destruct (Hf w Hw HI) as (? & ? & ? & H). split_and!; [done..|].
    destruct (f w).2; simpl; auto.
  - intros w msg Hw HI. destruct (Hf w Hw HI) as (? & ? & ? & _). auto.
Qed.
Lemma spec_read {E B} (err : string -> E) (f : W -> result E B) P Q :
  (forall w, G w w) -> stable P -> (forall b, stable (Q b)) -> (forall w b, P w -> I w -> f w = Ok b -> Q b w) ->
  spec P (call err (fun w => (w, f w))) Q P.
Proof. intros Grefl HP HQ Hf. apply spec_call; simpl; eauto 6. Qed.

(** Programs that change nothing. *)
Fixpoint read_only {A} (p : prog W A) : Prop :=
  match p with
  | Ret _ => True
  | Act f k => forall r w, (f r w).1 = w /\ read_only (k (f r w).2)
  end.
Lemma read_only_bind {A B} (p : prog W A) (f : A -> prog W B) :
  read_only p -> (forall a, read_only (f a)) -> read_only (prog_bind f p).
Proof. intros Hp Hf. induction p as [a|C g k IH]; simpl; [done|]. intros r w. destruct (Hp r w). auto. Qed.
Lemma read_only_spec {E A} (m : M W E A) (P : W -> Prop) :
  (forall w, G w w) -> read_only m -> stable P -> spec P m (fun _ => P) P.
Proof.
  intros Grefl Hm HP. unfold spec, triple. induction m as [a|B f k IH]; intros w Hw; simpl in *.
  - intros w' Hw' HI. destruct a; simpl; by eapply HP.
  - intros r w' Hw' HI. destruct (Hm r w') as [E1 H1]. rewrite E1. split_and!; [done..|].
    clear E1. revert H1. generalize (f r w').2. intros b Hb. apply IH; [done|]. by eapply HP.
Qed.
End Safe.

(** ** Tasks within a program

    Each of them has to bear what the others do as well. *)
Section Tasks.
Context {W A : Type} (R G : W -> W -> Prop) (R' G' : nat -> W -> W -> Prop) (I : W -> Prop).
Context {Rrefl : Reflexive R} {Rtrans : Transitive R}.
Context {Rrefl' : forall i, Reflexive (R' i)} {Rtrans' : forall i, Transitive (R' i)}.
Hypothesis others_borne : forall i w w', R w w' -> R' i w w'.
Hypothesis tasks_borne : forall i j w w', i <> j -> G' i w w' -> R' j w w'.
Hypothesis tasks_guaranteed : forall i w w', G' i w w' -> G w w'.

Definition task_safe (i : nat) (p : prog W A) (w : W) : Prop := safe (R' i) (G' i) I p (fun _ _ => True) w.
(** The tasks from the [n]th on. *)
Definition tasks_safe (n : nat) (ps : list (prog W A)) (w : W) : Prop :=
  forall i p, ps !! i = Some p -> task_safe (n + i) p w.

Lemma task_rely i p w w' : task_safe i p w -> R' i w w' -> task_safe i p w'.
Proof. intros Hp Hw. eapply safe_rely; [apply Rtrans'|exact Hp|exact Hw]. Qed.

(** What is stable under the steps of one task holds after it. *)
Lemma task_in_program {B} i (p : prog W A) (f : A -> prog W B) (Q : B -> W -> Prop) (X : W -> Prop) w :
  task_safe i p w -> X w -> (forall w w', X w -> R w w' \/ G' i w w' -> X w') ->
  (forall a w', X w' -> I w' -> safe R G I (f a) Q w') -> safe R G I (prog_bind f p) Q w.
Proof.
  intros Hp Hw HX Hf. revert w Hp Hw. induction p as [a|C g k IH]; simpl; intros w Hp Hw.
  - assert (H : forall w', R w w' -> I w' -> safe R G I (f a) Q w') by eauto.
    destruct (f a); simpl in *; intros; eapply H; eauto.
  - intros r w' Hw' HI. destruct (Hp r w' (others_borne _ _ _ Hw') HI) as (H1 & H2 & H3). split_and!; [done|eauto|].
    apply IH; [done|]. eauto.
Qed.

(** What the steps of the others and of all tasks keep holds in the end. *)
Context (X : W -> Prop).
Hypothesis X_kept : forall i w w', X w -> R w w' \/ G' i w w' -> X w'.

Lemma in_turn_safe n (ps : list (prog W A)) w : tasks_safe n ps w -> X w -> safe R G I (in_turn ps) (fun _ => X) w.
Proof.
  revert n w. induction ps as [|p ps IH]; intros n w Hps Hw; simpl; [by intros w' ? _; eapply (X_kept 0); eauto|].
  eapply (task_in_program n p _ _ (fun w => tasks_safe (S n) ps w /\ X w)).
  - specialize (Hps 0%nat p eq_refl). by rewrite Nat.add_0_r in Hps.
  - split; [|done]. intros i q Hq. specialize (Hps (S i) q Hq). by rewrite Nat.add_succ_r in Hps.
  - intros w1 w2 [H HX] Hw12. split; [|by eapply X_kept]. intros i q Hq.
    destruct Hw12 as [Hw12|Hw12]; (eapply task_rely; [by apply H|]); [by apply others_borne|].
    eapply tasks_borne; [|exact Hw12]. lia.
  - intros a w' [Hw' HX] HI. apply safe_bind; [done|]. eapply safe_mono; [|by apply (IH (S n))].
    intros l w'' _ HX' w3 ? _. by eapply (X_kept 0); eauto.
Qed.

Lemma join_all_safe order (ps : list (prog W A)) w :
  tasks_safe 0 ps w -> X w -> safe R G I (join_all order ps) (fun _ => X) w.
Proof.
  revert ps w. induction order as [|i order IH]; intros ps w Hps Hx; simpl; [by apply (in_turn_safe 0)|].
  destruct (ps !! i) as [[a|B f k]|] eqn:Ei; [by apply IH| |by apply IH]. simpl.
  intros r w' Hw HI. destruct (Hps i _ Ei r w' (others_borne _ _ _ Hw) HI) as (H1 & H2 & H3). split_and!; [done|eauto|].
  apply IH; [|eapply (X_kept i w'); [eapply (X_kept i w); [done|by left]|by right]]. intros j q [(<- & <- & _)|[Hij Hj]]%list_lookup_insert_Some; [done|].
  eapply task_rely; [by apply Hps|]. transitivity w'; [by apply others_borne|]. by eapply tasks_borne.
Qed.
End Tasks.

(** ** Any number of programs *)
Section System.
Context {W O T : Type} `{Countable T} (R G : T -> W -> W -> Prop) (I : W -> Prop).
Context {Rrefl : forall i, Reflexive (R i)} {Rtrans : forall i, Transitive (R i)}.
(** [cleanup] is what the end of a task undoes: the guards that it drops. *)
Context (post : T -> O -> W -> Prop) (may_start : T -> prog W O -> Prop) (cleanup : T -> W -> W).
Hypothesis compatible : forall i j w w', i <> j -> G j w w' -> R i w w'.
Hypothesis cleanup_safe : forall i w, I w -> I (cleanup i w) /\ G i w (cleanup i w).
Hypothesis started_safe : forall i p w, may_start i p -> I w -> safe (R i) (G i) I p (post i) w.

Record system := mk_system { shared : W; running : gmap T (prog W O) }.

Inductive step : system -> system -> Prop :=
| step_start w ps i p : ps !! i = None -> may_start i p -> step (mk_system w ps) (mk_system w (<[i := p]> ps))
| step_act w ps i B (f : reply -> W -> W * B) k r :
    ps !! i = Some (Act f k) -> step (mk_system w ps) (mk_system (f r w).1 (<[i := k (f r w).2]> ps))
| step_stop w ps i : step (mk_system w ps) (mk_system (cleanup i w) (delete i ps)).

Lemma exec_steps i rs p w ps :
  ps !! i = Some p ->
  rtc step (mk_system w ps) (mk_system (exec rs p w).1 (<[i := (exec rs p w).2]> ps)).
Proof.
  revert p w ps. induction rs as [|r rs IH]; intros p w ps Hp.
  - rewrite insert_id; [done|]. destruct p; done.
  - destruct p as [o|B f k]; simpl; [by rewrite insert_id|].
    eapply rtc_l; [by apply (step_act w ps i B f k r)|].
    specialize (IH (k (f r w).2) (f r w).1 (<[i := k (f r w).2]> ps)). rewrite insert_insert_eq in IH.
    apply IH, lookup_insert_eq.
Qed.

(** A program that is started, makes some calls and stops. *)
Lemma episode i rs p w ps :
  ps !! i = None -> may_start i p -> rtc step (mk_system w ps) (mk_system (cleanup i (exec rs p w).1) ps).
Proof.
  intros Hn Hp. eapply rtc_l; [by apply (step_start w ps i p)|].
  etransitivity; [apply (exec_steps i rs p), lookup_insert_eq|]. apply rtc_once.
  rewrite insert_insert_eq. replace ps with (delete i (<[i := (exec rs p w).2]> ps)) at 2 by (by apply delete_insert_id).
  apply step_stop.
Qed.

(** Programs that take turns, each with the replies of its calls in that turn. *)
Fixpoint play (turns : list (T * list reply)) (s : system) : system :=
  match turns with
  | [] => s
  | (i, rs) :: turns =>
      match running s !! i with
      | Some p => let r := exec rs p (shared s) in play turns (mk_system r.1 (<[i := r.2]> (running s)))
      | None => play turns s
      end
  end.
Lemma play_steps turns s : rtc step s (play turns s).
Proof.
  revert s. induction turns as [|[i rs] turns IH]; intros [w ps]; [done|]. simpl.
  destruct (ps !! i) as [p|] eqn:Ep; [|apply IH]. etransitivity; [by apply (exec_steps i rs p)|apply IH].
Qed.

Record sound (s : system) : Prop := {
  sound_inv : I (shared s);
  sound_running : forall i p, running s !! i = Some p -> safe (R i) (G i) I p (post i) (shared s)
}.

Lemma step_sound s s' :
  step s s' -> sound s -> sound s' /\ (shared s' = shared s \/ exists i, G i (shared s) (shared s')).
Proof.
  intros Hs [HI Hp]. destruct Hs as [w ps i p Hn Hm|w ps i B f k r Hi|w ps i]; simpl in *.
  - split; [|by left]. split; [done|]. simpl. intros j q [[<- <-]|[_ Hj]]%lookup_insert_Some; [by apply started_safe|auto].
  - pose proof (Hp i _ Hi r w ltac:(reflexivity) HI) as (H1 & H2 & H3). split; [|eauto]. split; [done|].
    simpl. intros j q [[<- <-]|[Hij Hj]]%lookup_insert_Some; [done|]. eapply safe_rely; [apply Rtrans|by apply Hp|].
    by apply (compatible j i).
  - destruct (cleanup_safe i w HI) as [H1 H2]. split; [|eauto]. split; [done|].
    simpl. intros j q [Hij Hj]%lookup_delete_Some. eapply safe_rely; [apply Rtrans|by apply Hp|]. by apply (compatible j i).
Qed.

Lemma sound_start w : I w -> sound (mk_system w ∅).
Proof. by split. Qed.
Lemma sound_post s i o : sound s -> running s !! i = Some (Ret o) -> post i o (shared s).
Proof. intros [HI Hp] Ho. by apply (Hp i _ Ho (shared s)). Qed.

(** The invariant holds throughout, every change is guaranteed by a program, and a
    program that has ended has its postcondition. *)
Theorem system_safe (P : W -> W -> Prop) s s' :
  PreOrder P -> (forall i a b, G i a b -> P a b) ->
  sound s -> rtc step s s' -> sound s' /\ P (shared s) (shared s').
Proof.
  intros HP HG H0 Hs. induction Hs as [s|s s1 s2 H1 H2 IH]; [split; [done|reflexivity]|].
  destruct (step_sound _ _ H1 H0) as [H3 H4]. destruct (IH H3) as [H5 H6]. split; [done|].
  destruct H4 as [E|[i Hi]]; [by rewrite <- E|]. etransitivity; [by eapply HG|done].
Qed.
End System.
End Interleave.
