(* ===== verification/CredentialRotation.v ===== *)
(** * CredentialRotation: the bookkeeping of credential rotations

    crates/api-db/src/credential_rotation.rs: the version of each credential that is
    wanted site-wide, and for every device the version it has, the version it is
    being moved to, and the failures on the way; with the status reports and the
    cached gate ([RotationGate] of crates/credential-rotation/src/lib.rs) derived
    from them. A MAC address is its text, a time a number, [now] the [now()] of a
    transaction. The integers of the tables have 32 bits. *)

From S2P Require Import Prelude StateHandler.
Import StateHandler.

Module CredentialRotation.

(** ** Tables *)

Inductive CredentialRotationType := Bmc | HostUefi | DpuUefi | Nvos | LockdownIkm | DpuBmcService.
#[export] Instance rotation_type_eq_dec : EqDecision CredentialRotationType.
Proof. solve_decision. Defined.
Definition type_number (ty : CredentialRotationType) : nat :=
  match ty with Bmc => 0 | HostUefi => 1 | DpuUefi => 2 | Nvos => 3 | LockdownIkm => 4 | DpuBmcService => 5 end.
Definition type_of_number (n : nat) : CredentialRotationType :=
  match n with 0 => Bmc | 1 => HostUefi | 2 => DpuUefi | 3 => Nvos | 4 => LockdownIkm | _ => DpuBmcService end%nat.
#[export] Instance rotation_type_countable : Countable CredentialRotationType.
Proof. apply (inj_countable' type_number type_of_number). by intros []. Defined.

(** A row of [device_credential_rotation]. *)
Record device_row := mk_device {
  current_version : option Z;
  rotating_to_version : option Z;
  rotate_attempts : Z;
  rotate_last_attempt_at : option Z;
  rotate_last_error_redacted : option string;
  rotate_quarantined_until : option Z;
  rotate_job_id : option string
}.
(** A row of [sitewide_credential_rotation]. *)
Record StagedRotation := mk_staged { target_version : Z; started_at : Z }.

(** [switches] are the ids and MAC addresses of the switches that are not deleted;
    [expected_switches] has the NVOS user and password that are expected, by MAC address. *)
Record tables := mk_tables {
  sitewide : gmap CredentialRotationType StagedRotation;
  devices : gmap (string * CredentialRotationType) device_row;
  switches : list (string * option string);
  expected_switches : gmap string (option string * option string)
}.
Definition set_sitewide f (t : tables) : tables := mk_tables (f (sitewide t)) (devices t) (switches t) (expected_switches t).
Definition set_devices f (t : tables) : tables := mk_tables (sitewide t) (f (devices t)) (switches t) (expected_switches t).

Definition i32_max : Z := 2 ^ 31 - 1.
Definition in_i32 (z : Z) : bool := (0 <=? z) && (z <=? i32_max).
Definition opt_in_i32 (o : option Z) : bool := match o with Some z => in_i32 z | None => true end.

(** Writing a row checks the constraints of the table and the range of its integers. *)
Definition row_ok (r : device_row) : bool :=
  opt_in_i32 (current_version r) && opt_in_i32 (rotating_to_version r) && in_i32 (rotate_attempts r).
Definition write_device (k : string * CredentialRotationType) (r : device_row) (t : tables)
    : result DatabaseError tables :=
  if row_ok r then Ok (set_devices (<[k := r]>) t)
  else Err (ConstraintViolation "device_credential_rotation" "integer out of range or negative").

(** [UPDATE .. WHERE device_mac = .. AND credential_type = .. AND p]: whether a row was affected. *)
Definition update_device (k : string * CredentialRotationType) (p : device_row -> bool) (f : device_row -> device_row)
    (t : tables) : result DatabaseError (tables * bool) :=
  match devices t !! k with
  | Some r => if p r then t ← write_device k (f r) t; Ok (t, true) else Ok (t, false)
  | None => Ok (t, false)
  end.

Definition quarantined_at (now : Z) (r : device_row) : bool :=
  match rotate_quarantined_until r with Some u => now <? u | None => false end.
Definition reached (target : Z) (r : device_row) : bool :=
  match current_version r with Some v => target <=? v | None => false end.

(** ** Backoff *)

Definition BACKOFF_BASE_SECS : Z := 900.
Definition BACKOFF_CAP_SECS : Z := 3600.
Definition saturate_i64 (z : Z) : Z := Z.min z (2 ^ 63 - 1).
Definition nanos : Z := 1000000000.
Definition backoff_until (prior_attempts now : Z) : Z :=
  let exp := Z.max prior_attempts 0 in
  let secs := Z.min (saturate_i64 (BACKOFF_BASE_SECS * saturate_i64 (2 ^ exp))) BACKOFF_CAP_SECS in
  now + secs * nanos.

(** ** Statements *)

Definition new_device : device_row := mk_device None None 0 None None None None.

Definition record_device_enrolled (mac : string) (ty : CredentialRotationType) (applied_version : option Z) (t : tables)
    : result DatabaseError tables :=
  match devices t !! (mac, ty) with
  | Some _ => Ok t
  | None => write_device (mac, ty) (mk_device applied_version None 0 None None None None) t
  end.

Definition set_rotating_to (v : option Z) (r : device_row) : device_row :=
  mk_device (current_version r) v (rotate_attempts r) (rotate_last_attempt_at r) (rotate_last_error_redacted r)
    (rotate_quarantined_until r) (rotate_job_id r).

Definition mark_device_rotating_to_version (mac : string) (ty : CredentialRotationType) (v : Z) (t : tables)
    : result DatabaseError tables :=
  match devices t !! (mac, ty) with
  | None => write_device (mac, ty) (set_rotating_to (Some v) new_device) t
  | Some r => if decide (rotating_to_version r = Some v) then Ok t
              else write_device (mac, ty) (set_rotating_to (Some v) r) t
  end.

Inductive NoStagedCredentialRotation := NoStagedCredentialRotation_.
Definition promote_rotating_to_current (mac : string) (ty : CredentialRotationType) (t : tables)
    : result DatabaseError (tables * ConditionalWrite unit NoStagedCredentialRotation) :=
  w ← update_device (mac, ty) (fun r => bool_decide (is_Some (rotating_to_version r)))
        (fun r => mk_device (rotating_to_version r) None 0 (rotate_last_attempt_at r) None None (rotate_job_id r)) t;
  Ok (w.1, if w.2 : bool then Applied () else NotApplied NoStagedCredentialRotation_).

Definition record_device_unlocked (mac : string) (ty : CredentialRotationType) (t : tables)
    : result DatabaseError (tables * bool) :=
  update_device (mac, ty) (fun _ => true) (fun r => mk_device None None 0 (rotate_last_attempt_at r) None None None) t.

Definition increment_rotate_attempt (mac : string) (ty : CredentialRotationType) (error_redacted : string)
    (quarantined_until now : Z) (t : tables) : result DatabaseError tables :=
  w ← update_device (mac, ty) (fun _ => true)
        (fun r => mk_device (current_version r) (rotating_to_version r) (rotate_attempts r + 1) (Some now)
                    (Some error_redacted) (Some quarantined_until) (rotate_job_id r)) t;
  Ok w.1.

Definition delete_device_converged (mac : string) (ty : CredentialRotationType) (t : tables) : tables :=
  set_devices (delete (mac, ty)) t.

(** ** The site-wide target *)

Definition current_target_version (ty : CredentialRotationType) (t : tables) : option Z :=
  target_version <$> sitewide t !! ty.

Inductive RotationTargetNotCurrent := RotationTargetNotCurrent_.
Definition set_initial_target_version (ty : CredentialRotationType) (now : Z) (t : tables)
    : tables * ConditionalWrite StagedRotation RotationTargetNotCurrent :=
  match sitewide t !! ty with
  | Some _ => (t, NotApplied RotationTargetNotCurrent_)
  | None => let s := mk_staged 0 now in (set_sitewide (<[ty := s]>) t, Applied s)
  end.

Definition set_next_target_version (ty : CredentialRotationType) (expected_current now : Z) (t : tables)
    : result DatabaseError (tables * ConditionalWrite StagedRotation RotationTargetNotCurrent) :=
  match sitewide t !! ty with
  | Some s =>
      if target_version s =? expected_current then
        if in_i32 (target_version s + 1)
        then let s' := mk_staged (target_version s + 1) now in Ok (set_sitewide (<[ty := s']>) t, Applied s')
        else Err (ConstraintViolation "sitewide_credential_rotation" "integer out of range")
      else Ok (t, NotApplied RotationTargetNotCurrent_)
  | None => Ok (t, NotApplied RotationTargetNotCurrent_)
  end.

(** ** Rotations with backend jobs (NVOS)

    Every attempt has a number; what a backend answers is recorded only while the
    target, the attempt and the job are still those it was asked for. *)

Inductive RotationStartNotEligible := RotationStartNotEligible_.
Inductive RotationAttemptNotEligible := RotationAttemptNotEligible_.

Definition not_quarantined (now : Z) (r : device_row) : bool := negb (quarantined_at now r).

(** Only a device without work in flight starts, or one whose work for an earlier
    target was rejected before it was dispatched. *)
Definition may_start_rotation (v now : Z) (r : device_row) : bool :=
  match rotating_to_version r with
  | None => bool_decide (rotate_last_error_redacted r = None)
  | Some v' => (v' <? v) && bool_decide (is_Some (rotate_last_error_redacted r)) && bool_decide (rotate_job_id r = None)
  end
  && match current_version r with Some c => c <? v | None => true end
  && not_quarantined now r.

Definition record_device_rotation_started (mac : string) (ty : CredentialRotationType) (v now : Z) (t : tables)
    : result DatabaseError (tables * ConditionalWrite Z RotationStartNotEligible) :=
  if v <? 0 then Err (InvalidArgument "rotating_to_version must be non-negative")
  else if bool_decide (current_target_version ty t = Some v) then
    match devices t !! (mac, ty) with
    | None =>
        t ← write_device (mac, ty) (mk_device None (Some v) 1 (Some now) None None None) t; Ok (t, Applied 1)
    | Some r =>
        if may_start_rotation v now r then
          let a := rotate_attempts r + 1 in
          t ← write_device (mac, ty) (mk_device (current_version r) (Some v) a (Some now) None None None) t;
          Ok (t, Applied a)
        else Ok (t, NotApplied RotationStartNotEligible_)
    end
  else Ok (t, NotApplied RotationStartNotEligible_).

(** The row still has this target and attempt, and no rejection. *)
Definition attempt_current (v attempt : Z) (r : device_row) : bool :=
  bool_decide (rotating_to_version r = Some v) && (rotate_attempts r =? attempt)
  && bool_decide (rotate_last_error_redacted r = None).

Definition eligible (w : tables * bool) : tables * ConditionalWrite unit RotationAttemptNotEligible :=
  (w.1, if w.2 : bool then Applied () else NotApplied RotationAttemptNotEligible_).

Definition record_device_rotation_submitted (mac : string) (ty : CredentialRotationType) (v expected_attempt : Z)
    (job_id : string) (t : tables) : result DatabaseError (tables * ConditionalWrite unit RotationAttemptNotEligible) :=
  if String.eqb job_id "" then Err (InvalidArgument "rotation job ID must not be empty")
  else w ← update_device (mac, ty)
             (fun r => attempt_current v expected_attempt r
                       && (bool_decide (rotate_job_id r = None) || bool_decide (rotate_job_id r = Some job_id)))
             (fun r => mk_device (current_version r) (rotating_to_version r) (rotate_attempts r)
                         (rotate_last_attempt_at r) (rotate_last_error_redacted r) (rotate_quarantined_until r)
                         (Some job_id)) t;
       Ok (eligible w).

Definition record_device_rotation_retry_started (mac : string) (ty : CredentialRotationType) (v expected_attempt : Z)
    (expected_job_id : option string) (now : Z) (t : tables)
    : result DatabaseError (tables * ConditionalWrite Z RotationAttemptNotEligible) :=
  w ← update_device (mac, ty)
        (fun r => attempt_current v expected_attempt r && bool_decide (rotate_job_id r = expected_job_id)
                  && not_quarantined now r)
        (fun r => mk_device (current_version r) (rotating_to_version r) (rotate_attempts r + 1) (Some now)
                    None None None) t;
  Ok (w.1, if w.2 : bool then Applied (expected_attempt + 1) else NotApplied RotationAttemptNotEligible_).

Definition record_device_rotation_failed (mac : string) (ty : CredentialRotationType) (v expected_attempt : Z)
    (error_redacted : string) (t : tables)
    : result DatabaseError (tables * ConditionalWrite unit RotationAttemptNotEligible) :=
  w ← update_device (mac, ty)
        (fun r => attempt_current v expected_attempt r && bool_decide (rotate_job_id r = None))
        (fun r => mk_device (current_version r) (rotating_to_version r) (rotate_attempts r) (rotate_last_attempt_at r)
                    (Some error_redacted) (rotate_quarantined_until r) (rotate_job_id r)) t;
  Ok (eligible w).

Definition record_device_rotation_succeeded (mac : string) (ty : CredentialRotationType) (v expected_attempt : Z)
    (expected_job_id : string) (t : tables)
    : result DatabaseError (tables * ConditionalWrite unit RotationAttemptNotEligible) :=
  if String.eqb expected_job_id "" then Err (InvalidArgument "rotation job ID must not be empty")
  else w ← update_device (mac, ty)
             (fun r => attempt_current v expected_attempt r && bool_decide (rotate_job_id r = Some expected_job_id))
             (fun r => mk_device (rotating_to_version r) None (rotate_attempts r) (rotate_last_attempt_at r)
                         None None None) t;
       Ok (eligible w).

(** What a controller reads of an operation after a restart. *)
Record DeviceRotationOperationState := mk_operation_state {
  os_current_version : option Z;
  os_rotating_to_version : option Z;
  os_rotate_job_id : option string;
  os_rotate_attempts : Z;
  os_rotate_last_attempt_at : option Z;
  os_rotate_last_error_redacted : option string
}.
Definition device_rotation_operation_state (ty : CredentialRotationType) (mac : string) (t : tables)
    : option DeviceRotationOperationState :=
  (fun r => mk_operation_state (current_version r) (rotating_to_version r) (rotate_job_id r) (rotate_attempts r)
              (rotate_last_attempt_at r) (rotate_last_error_redacted r)) <$> devices t !! (mac, ty).

(** The live switches without complete expected credentials, and whether they have a part of them. *)
Definition nonempty (o : option string) : bool := match o with Some s => negb (String.eqb s "") | None => false end.
Definition nvos_credential_source_gaps (t : tables) : list (string * option string * bool) :=
  omap (fun s : string * option string =>
          let es := default (None, None) (mac ← s.2; expected_switches t !! mac) in
          if nonempty es.1 && nonempty es.2 then None
          else Some (s.1, s.2, bool_decide (is_Some es.1) || bool_decide (is_Some es.2))) (switches t).

(** ** Status *)

Inductive StatusError := MissingSitewideRotationTarget (ty : CredentialRotationType).

Record RotationStatus := mk_rotation_status {
  rs_target_version : Z;
  converged : Z;
  pending : Z;
  quarantined : Z;
  quarantined_device_macs : gset string;
  rs_started_at : Z
}.

(** What a report counts: the rows of a family, or for NVOS the live switches with
    their rows, if they have any. *)
Definition rows_of (ty : CredentialRotationType) (t : tables) : list (string * device_row) :=
  omap (fun kr : (string * CredentialRotationType) * device_row =>
          if decide (kr.1.2 = ty) then Some (kr.1.1, kr.2) else None) (map_to_list (devices t)).
Definition switch_rows (t : tables) : list (option device_row) :=
  (fun s : string * option string => mac ← s.2; devices t !! (mac, Nvos)) <$> switches t.

Definition count {A} (p : A -> bool) (l : list A) : Z := Z.of_nat (length (List.filter p l)).
Definition is_pending (target now : Z) (r : device_row) : bool := negb (reached target r) && not_quarantined now r.
Definition of_row (p : device_row -> bool) (default : bool) (o : option device_row) : bool :=
  match o with Some r => p r | None => default end.

(** For NVOS a switch without a row is pending. *)
Definition rotation_status (ty : CredentialRotationType) (now : Z) (t : tables) : result StatusError RotationStatus :=
  s ← ok_or (MissingSitewideRotationTarget ty) (sitewide t !! ty);
  let target := target_version s in
  if decide (ty = Nvos) then
    let rows := switch_rows t in
    Ok (mk_rotation_status target (count (of_row (reached target) false) rows)
          (count (of_row (is_pending target now) true) rows) (count (of_row (quarantined_at now) false) rows)
          (list_to_set (omap (fun s : string * option string =>
             mac ← s.2; r ← devices t !! (mac, Nvos); if quarantined_at now r then Some mac else None) (switches t)))
          (started_at s))
  else
    let rows := rows_of ty t in
    Ok (mk_rotation_status target (count (fun r => reached target r.2) rows) (count (fun r => is_pending target now r.2) rows)
          (count (fun r => quarantined_at now r.2) rows)
          (list_to_set (List.filter (fun r => quarantined_at now r.2) rows).*1) (started_at s)).

Record DeviceRotationStatus := mk_device_status {
  ds_target_version : Z;
  ds_started_at : Z;
  ds_row : device_row;
  ds_converged : bool;
  ds_quarantined : bool
}.

Definition device_rotation_status (ty : CredentialRotationType) (mac : string) (now : Z) (t : tables)
    : result StatusError (option DeviceRotationStatus) :=
  let status s r := mk_device_status (target_version s) (started_at s) r (reached (target_version s) r)
                      (quarantined_at now r) in
  if decide (ty = Nvos) then
    if bool_decide (Some mac ∈ (switches t).*2) then
      s ← ok_or (MissingSitewideRotationTarget ty) (sitewide t !! ty);
      Ok (Some (status s (default new_device (devices t !! (mac, ty)))))
    else Ok None
  else Ok (s ← sitewide t !! ty; r ← devices t !! (mac, ty); Some (status s r)).

Definition needs_rotation (s : DeviceRotationStatus) : bool := negb (ds_converged s) && negb (ds_quarantined s).

(** The report of the API ([get_credential_rotation_status] of
    crates/api-core/src/handlers/credential_rotation.rs): whether a rotation is complete. *)
Definition complete (s : RotationStatus) : bool := (pending s =? 0) && (quarantined s =? 0).

Record CredentialRotationStatusResult := mk_status_result {
  res_target_version : Z;
  res_converged : Z;
  res_pending : Z;
  res_quarantined : Z;
  res_quarantined_device_macs : gset string;
  res_started_at : Z;
  res_complete : bool
}.
Inductive StatusRequestError := StatusRequestFailed (e : StatusError) | StatusNotFound.
(** [device] is the MAC address of the request, if it has one. *)
Definition get_credential_rotation_status (ty : CredentialRotationType) (device : option string) (now : Z) (t : tables)
    : result StatusRequestError CredentialRotationStatusResult :=
  match device with
  | None =>
      s ← map_err StatusRequestFailed (rotation_status ty now t);
      Ok (mk_status_result (rs_target_version s) (Z.max (converged s) 0) (Z.max (pending s) 0) (Z.max (quarantined s) 0)
            (quarantined_device_macs s) (rs_started_at s) (complete s))
  | Some mac =>
      s ← map_err StatusRequestFailed (device_rotation_status ty mac now t);
      s ← ok_or StatusNotFound s;
      let one (b : bool) := if b then 1 else 0 in
      Ok (mk_status_result (ds_target_version s) (one (ds_converged s))
            (one (negb (ds_converged s) && negb (ds_quarantined s))) (one (ds_quarantined s))
            (if ds_quarantined s then {[ mac ]} else ∅) (ds_started_at s) (ds_converged s && negb (ds_quarantined s)))
  end.

(** ** The gate of the controllers *)

Definition DEFAULT_AGGREGATE_TTL : Z := 15 * nanos.
Record CachedAggregate := mk_cache { checked_at : option Z; work_pending : bool }.
Record RotationGate := mk_gate { cache : CachedAggregate; ttl : Z; family : CredentialRotationType }.
Definition new_for_family (ty : CredentialRotationType) : RotationGate :=
  mk_gate (mk_cache None false) DEFAULT_AGGREGATE_TTL ty.

(** [instant] is the monotonic clock of the process, [now] that of the database. *)
Definition rotation_pending (g : RotationGate) (instant now : Z) (t : tables) : RotationGate * result StatusError bool :=
  let fresh := match checked_at (cache g) with Some c => instant - c <? ttl g | None => false end in
  if fresh then (g, Ok (work_pending (cache g)))
  else match rotation_status (family g) now t with
       | Ok s => let p := (0 <? rs_target_version s) && (0 <? pending s + quarantined s) in
                 (mk_gate (mk_cache (Some instant) p) (ttl g) (family g), Ok p)
       | Err e => (g, Err e)
       end.

Definition rotation_needed (g : RotationGate) (instant now : Z) (mac : string) (t : tables)
    : RotationGate * result StatusError bool :=
  let p := rotation_pending g instant now t in
  (p.1, pend ← p.2;
        if pend : bool then s ← device_rotation_status (family g) mac now t;
                     Ok (match s with Some s => needs_rotation s | None => false end)
        else Ok false).

(** ** Ticks and retries *)

Definition MAX_BMC_ROTATION_RETRIES : Z := 3.
Inductive BmcRotationTick := Settled | Retry | WaitForCredentialStoreReconcile.
Definition merge (a b : BmcRotationTick) : BmcRotationTick :=
  match a, b with
  | WaitForCredentialStoreReconcile, _ | _, WaitForCredentialStoreReconcile => WaitForCredentialStoreReconcile
  | Retry, _ | _, Retry => Retry
  | Settled, Settled => Settled
  end.

Inductive RotationStep := StepSettled | GaveUp | StepRetry (retry_count : Z) | StepWaitForCredentialStoreReconcile.
(** [None] is the overflow of the count, a [u32]. *)
Definition advance (tick : BmcRotationTick) (retry_count : Z) : option RotationStep :=
  match tick with
  | Settled => Some StepSettled
  | WaitForCredentialStoreReconcile => Some StepWaitForCredentialStoreReconcile
  | Retry => let next := retry_count + 1 in
             if 2 ^ 32 <=? next then None
             else Some (if MAX_BMC_ROTATION_RETRIES <=? next then GaveUp else StepRetry next)
  end.
End CredentialRotation.
