(* ===== verification/RotateCredential.v ===== *)
(** * RotateCredential: staging a credential and moving devices to it

    [rotate_credential] (crates/api-core/src/handlers/credential_rotation.rs) stores
    the next version of a site-wide credential and publishes it as the target;
    [rotate_bmc] and [rotate_dpu_bmc_service] (crates/credential-rotation/src/lib.rs)
    move the password of one BMC to the target. Both are programs of [Interleave]
    over the tables of [CredentialRotation], the credential store and the BMCs.

    A BMC is its accounts; it answers a request with the password it has, so only
    the replies are left to chance. The credential store keeps what was written;
    [overrides] are the local sources its readers prefer. Which Redfish resources a
    vendor uses, messages in logs, and metrics are left out. *)

From S2P Require Import Prelude Text StateHandler HardwareId Interleave CredentialRotation.
From Stdlib Require Import Ascii.
Import StateHandler Interleave CredentialRotation.

Module RotateCredential.

(** ** Credentials (crates/secrets/src/credentials.rs) *)

Record Credentials := UsernamePassword { username : string; password : string }.
#[export] Instance credentials_eq_dec : EqDecision Credentials.
Proof. solve_decision. Defined.

(** crates/bmc-vendor/src/lib.rs. *)
Inductive DpuModel := BlueField2 | BlueField3 | BlueField4 | UnknownDpu.
#[export] Instance dpu_model_eq_dec : EqDecision DpuModel.
Proof. solve_decision. Defined.
Definition model_number (m : DpuModel) : Z := match m with BlueField2 => 2 | BlueField3 => 3 | BlueField4 => 4 | UnknownDpu => 0 end.

(** The keys that rotations and the site explorer use. *)
Inductive CredentialKey :=
| BmcRoot (bmc_mac_address : string)
| SwitchNvosAdmin (bmc_mac_address : string)
| DpuHardwareDefault (model : DpuModel)
| SiteWideRoot
| SiteWideRootVersioned (version : Z)
| SiteWideDpuBmcService
| SiteWideDpuBmcServiceVersioned (version : Z)
| HostUefiSiteVersioned (version : Z)
| DpuUefiSiteVersioned (version : Z)
| NicLockdownIkmSiteWide (version : Z)
| SwitchNvosSiteAdmin (version : Z).
#[export] Instance key_eq_dec : EqDecision CredentialKey.
Proof. solve_decision. Defined.

Definition key_code (k : CredentialKey) : nat * (string + Z) :=
  match k with
  | BmcRoot m => (0%nat, inl m)
  | SwitchNvosAdmin m => (1%nat, inl m)
  | SiteWideRoot => (0%nat, inr 0)
  | SiteWideRootVersioned v => (1%nat, inr v)
  | SiteWideDpuBmcService => (2%nat, inr 0)
  | SiteWideDpuBmcServiceVersioned v => (3%nat, inr v)
  | HostUefiSiteVersioned v => (4%nat, inr v)
  | DpuUefiSiteVersioned v => (5%nat, inr v)
  | NicLockdownIkmSiteWide v => (6%nat, inr v)
  | SwitchNvosSiteAdmin v => (7%nat, inr v)
  | DpuHardwareDefault m => (8%nat, inr (model_number m))
  end.
Definition key_of_code (c : nat * (string + Z)) : CredentialKey :=
  match c with
  | (0, inl m) => BmcRoot m
  | (_, inl m) => SwitchNvosAdmin m
  | (0, inr _) => SiteWideRoot
  | (1, inr v) => SiteWideRootVersioned v
  | (2, inr _) => SiteWideDpuBmcService
  | (3, inr v) => SiteWideDpuBmcServiceVersioned v
  | (4, inr v) => HostUefiSiteVersioned v
  | (5, inr v) => DpuUefiSiteVersioned v
  | (6, inr v) => NicLockdownIkmSiteWide v
  | (7, inr v) => SwitchNvosSiteAdmin v
  | (_, inr m) => DpuHardwareDefault (if (m =? 2)%Z then BlueField2 else if (m =? 3)%Z then BlueField3
                                     else if (m =? 4)%Z then BlueField4 else UnknownDpu)
  end%nat.
#[export] Instance key_countable : Countable CredentialKey.
Proof. apply (inj_countable' key_code key_of_code). by intros [| |[]| | | | | | | |]. Defined.

(** Version 0 is kept at the path from before there were versions. *)
Definition site_wide_root (version : Z) : CredentialKey :=
  if version =? 0 then SiteWideRoot else SiteWideRootVersioned version.
Definition site_wide_dpu_bmc_service (version : Z) : CredentialKey :=
  if version =? 0 then SiteWideDpuBmcService else SiteWideDpuBmcServiceVersioned version.

Definition PASSWORD_LEN : nat := 16.
Definition in_range (lo hi : N) (c : ascii) : bool := let n := N_of_ascii c in ((lo <=? n) && (n <=? hi))%N.
Definition is_ascii_uppercase : ascii -> bool := in_range 65 90.
Definition is_ascii_lowercase : ascii -> bool := in_range 97 122.
Definition is_ascii_punctuation (c : ascii) : bool :=
  in_range 33 47 c || in_range 58 64 c || in_range 91 96 c || in_range 123 126 c.
Definition any_char (p : ascii -> bool) (s : string) : bool := negb (all_chars (fun c => negb (p c)) s).
Definition validate_password_strength (s : string) : bool :=
  (PASSWORD_LEN <=? String.length s)%nat && any_char is_ascii_uppercase s && any_char is_ascii_lowercase s
  && any_char is_digit s && any_char is_ascii_punctuation s.

(** ** The world *)

(** The accounts of a BMC: the root user, and the service account of a BlueField-4 DPU. *)
Record bmc := mk_bmc { root_user : string; root_password : string; service_password : string }.

Record world := mk_world {
  tabs : tables;
  vault : gmap CredentialKey Credentials;
  bmcs : gmap string bmc;
  sessions : gset string;
  switch_queue : gset string;
  clock : Z
}.
Definition set_tabs t (w : world) : world := mk_world t (vault w) (bmcs w) (sessions w) (switch_queue w) (clock w).
Definition set_vault f (w : world) : world := mk_world (tabs w) (f (vault w)) (bmcs w) (sessions w) (switch_queue w) (clock w).
Definition set_bmcs f (w : world) : world := mk_world (tabs w) (vault w) (f (bmcs w)) (sessions w) (switch_queue w) (clock w).
Definition set_sessions f (w : world) : world := mk_world (tabs w) (vault w) (bmcs w) (f (sessions w)) (switch_queue w) (clock w).
Definition set_queue f (w : world) : world := mk_world (tabs w) (vault w) (bmcs w) (sessions w) (f (switch_queue w)) (clock w).
Definition set_clock c (w : world) : world := mk_world (tabs w) (vault w) (bmcs w) (sessions w) (switch_queue w) c.

Definition set_root_password p (b : bmc) : bmc := mk_bmc (root_user b) p (service_password b).
Definition set_service_password p (b : bmc) : bmc := mk_bmc (root_user b) (root_password b) p.

(** A statement or transaction. *)
Definition statement {E A} (err : DatabaseError -> E) (f : Z -> tables -> result DatabaseError (tables * A)) : M world E A :=
  call (fun m => err (QueryError m))
    (fun w => match f (clock w) (tabs w) with
              | Ok (t, a) => (set_tabs t w, Ok a)
              | Err e => (w, Err (err e))
              end).
Definition no_result (r : result DatabaseError tables) : result DatabaseError (tables * unit) := t ← r; Ok (t, ()).

Section Store.
Context (overrides : gmap CredentialKey Credentials).

(** What the readers of the store see. *)
Definition effective (w : world) (k : CredentialKey) : option Credentials := (overrides ∪ vault w) !! k.

Definition get_credentials (k : CredentialKey) : M world string (option Credentials) :=
  call id (fun w => (w, Ok (effective w k))).
Definition get_credentials_from_writer (k : CredentialKey) : M world string (option Credentials) :=
  call id (fun w => (w, Ok (vault w !! k))).
Definition set_credentials (k : CredentialKey) (c : Credentials) : M world string unit :=
  call id (fun w => (set_vault (<[k := c]>) w, Ok ())).
(** Only where nothing is stored yet. *)
Definition create_credentials (k : CredentialKey) (c : Credentials) : M world string unit :=
  call id (fun w => match vault w !! k with
                    | Some _ => (w, Err "already exists")
                    | None => (set_vault (<[k := c]>) w, Ok ())
                    end).

Definition delete_credentials (k : CredentialKey) : M world string unit :=
  call id (fun w => (set_vault (delete k) w, Ok ())).

(** ** BMCs (crates/redfish/src/libredfish/mod.rs) *)

Inductive RedfishVendor :=
| AMI | LenovoAMI | LenovoGB300 | Lenovo | Dell | Hpe | Supermicro | NvidiaDpu | NvidiaGH200 | NvidiaGBSwitch | NvidiaGBx00
| P3809 | VeraRubin | LiteOnPowerShelf | DeltaPowerShelf | Sushy | Unknown.

Definition authenticates (c : Credentials) (b : bmc) : bool :=
  String.eqb (username c) (root_user b) && String.eqb (password c) (root_password b).
Definition bmc_at {A} (mac : string) (f : bmc -> result string A) (w : world) : result string A :=
  match bmcs w !! mac with Some b => f b | None => Err "no response" end.

(** A request that changes the BMC, if its credentials are those of the root user. *)
Definition change_bmc (mac : string) (c : Credentials) (f : bmc -> bmc) : M world string unit :=
  call id (fun w => match bmcs w !! mac with
                    | Some b => if authenticates c b then (set_bmcs (<[mac := f b]>) w, Ok ()) else (w, Err "401")
                    | None => (w, Err "no response")
                    end).

Definition set_machine_password_policy (mac : string) (c : Credentials) : M world string unit :=
  call id (fun w => (w, bmc_at mac (fun b => if authenticates c b then Ok () else Err "401") w)).

(** Sushy is an emulator without accounts. *)
Definition set_bmc_root_password (mac : string) (vendor : RedfishVendor) (current : Credentials) (new_password : string)
    : M world string unit :=
  _ ← match vendor with
      | Sushy => mret ()
      | Unknown => raise "missing vendor"
      | _ => change_bmc mac current (set_root_password new_password)
      end;
  set_machine_password_policy mac (UsernamePassword (username current) new_password).

Definition bmc_credentials_valid (mac : string) (c : Credentials) : M world string bool :=
  call id (fun w => (w, bmc_at mac (fun b => Ok (authenticates c b)) w)).

Definition set_bf4_dpu_service_password (mac : string) (root : Credentials) (new_password : string) : M world string unit :=
  change_bmc mac root (set_service_password new_password).
Definition bf4_dpu_service_credentials_valid (mac : string) (new_password : string) : M world string bool :=
  call id (fun w => (w, bmc_at mac (fun b => Ok (String.eqb new_password (service_password b))) w)).

(** How a BMC identifies itself: in its service root to everyone, and to its root
    user in the manufacturers of its chassis. *)
Record identity := mk_identity { root_vendor : option RedfishVendor; manufacturers : list (option string) }.
Definition manufacturer_vendor (manufacturer : string) : option RedfishVendor :=
  let manufacturer_lc := to_lowercase manufacturer in
  if HardwareId.contains "lite-on" manufacturer_lc then Some LiteOnPowerShelf
  else if HardwareId.contains "delta" manufacturer_lc then Some DeltaPowerShelf
  else None.
Definition chassis_vendor (self : identity) : option RedfishVendor :=
  head (omap (fun o => o ≫= manufacturer_vendor) (manufacturers self)).

Definition get_service_root (self : identity) (mac : string) : M world string (option RedfishVendor) :=
  call id (fun w => (w, bmc_at mac (fun _ => Ok (root_vendor self)) w)).
Definition get_chassis (self : identity) (mac : string) (c : Credentials) : M world string RedfishVendor :=
  call id (fun w => (w, bmc_at mac (fun b => if authenticates c b then ok_or "missing vendor" (chassis_vendor self)
                                            else Err "401") w)).
Definition probe_bmc_vendor (self : identity) (mac : string) (c : Credentials) : M world string RedfishVendor :=
  root ← try (get_service_root self mac);
  match root with
  | Ok (Some Unknown) | Ok None | Err _ => get_chassis self mac c
  | Ok (Some v) => mret v
  end.

(** ** The engine *)

Inductive RotateOutcome := Converged | Quarantined (until : Z) | CredentialStoreReconcilePending | NoWork.
Inductive RotationEngineError :=
| DatabaseFailed (e : DatabaseError)
| StatusFailed (e : StatusError)
| Acquire (msg : string)
| BadTargetVersion (v : Z).
Inductive DispatchVendor := Fixed (v : RedfishVendor) | Probe.
Record BmcRotationTarget := mk_target { device_mac : string; vendor : DispatchVendor; self : identity }.
Inductive CredentialConvergence := Changed | Recovered (change_error : string).
Inductive ConvergeError := DeviceFault (msg : string) | CredentialStoreWriteFailed (msg : string).

Definition acquire : M world RotationEngineError unit := call Acquire (fun w => (w, Ok ())).

Definition read_status (ty : CredentialRotationType) (mac : string)
    : M world RotationEngineError (option DeviceRotationStatus) :=
  call (fun m => DatabaseFailed (QueryError m))
    (fun w => (w, map_err StatusFailed (device_rotation_status ty mac (clock w) (tabs w)))).

Definition utc_now : M world RotationEngineError Z := Act (fun _ w => (w, Ok (clock w))) Ret.

(** [inl] is [ControlFlow::Break]. *)
Definition enter_device_rotation (ty : CredentialRotationType) (mac : string) (force : bool)
    : M world RotationEngineError (RotateOutcome + DeviceRotationStatus * Z) :=
  _ ← acquire;
  status ← read_status ty mac;
  match status with
  | None => mret (inl NoWork)
  | Some s =>
      if ds_converged s then mret (inl Converged)
      else if ds_quarantined s && negb force then
        now ← utc_now; mret (inl (Quarantined (default now (rotate_quarantined_until (ds_row s)))))
      else if ds_target_version s <? 0 then raise (BadTargetVersion (ds_target_version s))
      else
        _ ← acquire;
        _ ← statement DatabaseFailed (fun _ t => no_result (mark_device_rotating_to_version mac ty (ds_target_version s) t));
        mret (inr (s, ds_target_version s))
  end.

(** [String::replace], and the texts that errors are recorded with. *)
Fixpoint replace (pat to : string) (skip : nat) (s : string) : string :=
  match skip, s with
  | _, EmptyString => EmptyString
  | S n, String _ s' => replace pat to n s'
  | O, String c s' => if String.prefix pat s then to +:+ replace pat to (String.length pat - 1) s'
                      else String c (replace pat to 0 s')
  end.
Definition redact (message : string) (secrets : list string) : string :=
  fold_left (fun m secret => if String.eqb secret "" then m else replace secret "REDACTED" 0 m) secrets message.

Definition resolve_dispatch_vendor (target : BmcRotationTarget) (rotate_from rotate_to : Credentials)
    : M world string RedfishVendor :=
  match vendor target with
  | Fixed v => mret v
  | Probe =>
      r ← try (probe_bmc_vendor (self target) (device_mac target) rotate_from);
      match r with
      | Ok v => mret v
      | Err _ => map_error (fun e => "probe BMC dispatch vendor: " +:+ e)
                   (probe_bmc_vendor (self target) (device_mac target) rotate_to)
      end
  end.

Definition change_or_recover (mac : string) (v : RedfishVendor) (rotate_from rotate_to : Credentials)
    : M world string CredentialConvergence :=
  r ← try (set_bmc_root_password mac v rotate_from (password rotate_to));
  match r with
  | Ok _ => mret Changed
  | Err change_err =>
      valid ← map_error (fun e => change_err +:+ "; rotate-to credential probe also failed: " +:+ e)
                (bmc_credentials_valid mac rotate_to);
      if valid : bool then mret (Recovered change_err) else raise change_err
  end.

(** A secret that has to be there. *)
Definition read_secret (what : string) (k : CredentialKey) : M world string Credentials :=
  c ← map_error (fun e => "read " +:+ what +:+ ": " +:+ e) (get_credentials k);
  match c with Some c => mret c | None => raise (what +:+ " is not set") end.

Definition converge_bmc_password (target : BmcRotationTarget) (rotate_to_version : Z)
    : M world ConvergeError CredentialConvergence :=
  per_device ← map_error DeviceFault (read_secret "per-device BMC secret" (BmcRoot (device_mac target)));
  staged ← map_error DeviceFault (read_secret "rotate-to BMC secret" (site_wide_root rotate_to_version));
  let secrets := [password per_device; password staged] in
  let rotate_to := UsernamePassword (username per_device) (password staged) in
  v ← map_error (fun e => DeviceFault (redact e secrets)) (resolve_dispatch_vendor target per_device rotate_to);
  convergence ← map_error (fun e => DeviceFault (redact e secrets))
                  (change_or_recover (device_mac target) v per_device rotate_to);
  _ ← map_error (fun e => CredentialStoreWriteFailed (redact ("persist per-device BMC secret: " +:+ e) secrets))
        (set_credentials (BmcRoot (device_mac target)) rotate_to);
  mret match convergence with Changed => Changed | Recovered e => Recovered (redact e secrets) end.

Definition delete_sessions (mac : string) : M world RotationEngineError unit :=
  call (fun m => DatabaseFailed (QueryError m)) (fun w => (set_sessions (fun s => s ∖ {[ mac ]}) w, Ok ())).
Definition promote (ty : CredentialRotationType) (mac : string) : M world RotationEngineError unit :=
  _ ← statement DatabaseFailed (fun _ t => promote_rotating_to_current mac ty t); mret ().

(** An attempt that failed is recorded with the time before which there is no other. *)
Definition quarantine (ty : CredentialRotationType) (mac : string) (s : DeviceRotationStatus) (redacted : string)
    : M world RotationEngineError RotateOutcome :=
  now ← utc_now;
  let until := backoff_until (rotate_attempts (ds_row s)) now in
  _ ← acquire;
  _ ← statement DatabaseFailed (fun now t => no_result (increment_rotate_attempt mac ty redacted until now t));
  mret (Quarantined until).

Definition rotate_bmc (target : BmcRotationTarget) (force : bool) : M world RotationEngineError RotateOutcome :=
  let mac := device_mac target in
  entered ← enter_device_rotation Bmc mac force;
  match entered with
  | inl outcome => mret outcome
  | inr (s, target_version) =>
      r ← try (converge_bmc_password target target_version);
      match r with
      | Ok _ => _ ← acquire; _ ← delete_sessions mac; _ ← promote Bmc mac; mret Converged
      | Err (DeviceFault redacted) => quarantine Bmc mac s redacted
      | Err (CredentialStoreWriteFailed _) => mret CredentialStoreReconcilePending
      end
  end.

Definition converge_dpu_bmc_service_password (mac : string) (rotate_to_version : Z)
    : M world string CredentialConvergence :=
  root ← read_secret "per-device BMC root secret" (BmcRoot mac);
  staged ← read_secret "rotate-to DPU service secret" (site_wide_dpu_bmc_service rotate_to_version);
  r ← try (set_bf4_dpu_service_password mac root (password staged));
  match r with
  | Ok _ => mret Changed
  | Err e =>
      valid ← try (bf4_dpu_service_credentials_valid mac (password staged));
      let change_error := redact e [password root; password staged] in
      if match valid with Ok b => b | Err _ => false end then mret (Recovered change_error) else raise change_error
  end.

Definition rotate_dpu_bmc_service (mac : string) (force : bool) : M world RotationEngineError RotateOutcome :=
  entered ← enter_device_rotation DpuBmcService mac force;
  match entered with
  | inl outcome => mret outcome
  | inr (s, target_version) =>
      r ← try (converge_dpu_bmc_service_password mac target_version);
      match r with
      | Ok _ => _ ← acquire; _ ← promote DpuBmcService mac; mret Converged
      | Err redacted => quarantine DpuBmcService mac s redacted
      end
  end.

(** ** Staging *)

Inductive ApiError := ErrInvalidArgument | ErrFailedPrecondition | ErrConcurrentModification | ErrInternal (msg : string)
| FromDatabase (e : DatabaseError).

Definition versioned_rotation_key (ty : CredentialRotationType) (version : Z) : CredentialKey :=
  match ty with
  | Bmc => SiteWideRootVersioned version
  | HostUefi => HostUefiSiteVersioned version
  | DpuUefi => DpuUefiSiteVersioned version
  | LockdownIkm => NicLockdownIkmSiteWide version
  | Nvos => SwitchNvosSiteAdmin version
  | DpuBmcService => SiteWideDpuBmcServiceVersioned version
  end.

(** [require] is the check of the stored secret that follows a write. *)
Definition require (msg : string) (b : bool) : M world ApiError unit := if b then mret () else raise (ErrInternal msg).
Definition stage_versioned_secret (k : CredentialKey) (new_credentials : Credentials) (operator_supplied : bool)
    : M world ApiError unit :=
  created ← try (create_credentials k new_credentials);
  staged ← match created with
           | Ok _ => mret new_credentials
           | Err _ =>
               existing ← try (get_credentials_from_writer k);
               match existing with
               | Ok (Some existing) =>
                   if operator_supplied && negb (bool_decide (existing = new_credentials))
                   then raise ErrConcurrentModification else mret existing
               | _ => raise (ErrInternal "failed to stage the rotate-to secret")
               end
           end;
  persisted ← map_error ErrInternal (get_credentials_from_writer k);
  _ ← require "rotate-to secret readback did not match" (bool_decide (persisted = Some staged));
  seen ← map_error ErrInternal (get_credentials k);
  require "effective rotate-to secret readback did not match" (bool_decide (seen = Some staged)).

(** The live switches whose NVOS password is not known: reading each of them. *)
Fixpoint missing_sources (gaps : list (string * option string * bool)) : M world ApiError (list string) :=
  match gaps with
  | [] => mret []
  | (switch_id, None, _) :: gaps => missing ← missing_sources gaps; mret (switch_id :: missing)
  | (_, Some mac, true) :: gaps => missing ← missing_sources gaps; mret (mac :: missing)
  | (_, Some mac, false) :: gaps =>
      c ← map_error ErrInternal (get_credentials (SwitchNvosAdmin mac));
      missing ← missing_sources gaps;
      mret match c with
           | Some c => if negb (String.eqb (username c) "") && negb (String.eqb (password c) "") then missing else mac :: missing
           | None => mac :: missing
           end
  end.
Definition require_nvos_credential_sources : M world ApiError unit :=
  gaps ← statement FromDatabase (fun _ t => Ok (t, nvos_credential_source_gaps t));
  missing ← missing_sources gaps;
  match missing with [] => mret () | _ => raise ErrFailedPrecondition end.

(** A request names a family and, perhaps, a password; [generated] is the password
    that is made up otherwise, and [backend] says whether a component manager is
    configured and its backend can rotate the passwords of switches. *)
Record RotateCredentialRequest := mk_request {
  credential_type : CredentialRotationType;
  supplied : option string;
  generated : string
}.
#[export] Instance request_eq_dec : EqDecision RotateCredentialRequest.
Proof. solve_decision. Defined.

Definition publish (ty : CredentialRotationType) (current : option Z) : M world ApiError StagedRotation :=
  call (fun m => FromDatabase (QueryError m))
    (fun w =>
       match match current with
             | Some c => set_next_target_version ty c (clock w) (tabs w)
             | None => Ok (set_initial_target_version ty (clock w) (tabs w))
             end with
       | Ok (t, Applied s) =>
           let w := set_tabs t w in
           (if decide (ty = Nvos) then set_queue (fun q => q ∪ list_to_set (switches t).*1) w else w, Ok s)
       | Ok (_, NotApplied _) => (w, Err ErrConcurrentModification)
       | Err e => (w, Err (FromDatabase e))
       end).

Definition rotate_credential (backend : option bool) (req : RotateCredentialRequest) : M world ApiError Z :=
  let ty := credential_type req in
  _ ← if decide (ty = Nvos) then
        match backend with
        | Some true => require_nvos_credential_sources
        | _ => raise ErrFailedPrecondition
        end
      else mret ();
  pw ← match supplied req with
       | Some p => if validate_password_strength p then mret p else raise ErrInvalidArgument
       | None => mret (generated req)
       end;
  current ← statement FromDatabase (fun _ t => Ok (t, current_target_version ty t));
  next ← match current with
         | Some c => if c + 1 <=? i32_max then mret (c + 1) else raise (ErrInternal "cannot be advanced")
         | None => if decide (ty = Nvos) then mret 0 else raise ErrFailedPrecondition
         end;
  _ ← stage_versioned_secret (versioned_rotation_key ty next) (UsernamePassword "" pw) (bool_decide (is_Some (supplied req)));
  s ← publish ty current;
  mret (target_version s).
End Store.
End RotateCredential.
