(* ===== verification/SiteExplorer.v ===== *)
(** * SiteExplorer: how a BMC gets its credentials

    The credentials of an endpoint (crates/site-explorer/src/bmc_endpoint_explorer.rs
    and credentials.rs): [explore_endpoint] uses the stored password of a BMC or, the
    first time, moves the BMC from its factory password to the site-wide one, stores
    it and enrols the device for rotation; an operator can set a password, and the
    removal of a machine deletes it. Programs of [Interleave], as in
    [RotateCredential]. What a report holds, waits and logs are left out; the
    explorer has a database. *)

From S2P Require Import Prelude Text StateHandler HardwareId Interleave CredentialRotation RotateCredential.
Import StateHandler Interleave CredentialRotation RotateCredential.

Module SiteExplorer.

(** ** Endpoints *)

Inductive EndpointExplorationError :=
| Unauthorized
| IntermittentUnauthorized (consecutive_count : Z)
| AvoidLockout
| MissingCredentials (cause : string)
| SecretsEngineError (cause : string)
| SetCredentials (cause : string)
| Other (details : string).
Definition is_unauthorized (e : EndpointExplorationError) : bool :=
  match e with Unauthorized | AvoidLockout => true | _ => false end.
Definition intermittent_unauthorized_count (e : EndpointExplorationError) : option Z :=
  match e with IntermittentUnauthorized n => Some n | _ => None end.
Definition map_redfish_error (e : string) : EndpointExplorationError :=
  if String.eqb e "401" then Unauthorized else Other e.

(** What is expected of an endpoint (crates/api-model/src/expected_entity.rs). *)
Record expected_data := mk_expected { bmc_username : string; bmc_password : string; bmc_retain_credentials : option bool }.
Inductive ExpectedEntity :=
| ExpectedMachine (d : expected_data)
| ExpectedPowerShelf (d : expected_data)
| ExpectedSwitch (d : expected_data) (nvos_username nvos_password : option string).
Record BmcCredentialsData := mk_data { data_credentials : Credentials; retain_credentials : bool }.
Definition bmc_credentials_data (e : ExpectedEntity) : BmcCredentialsData :=
  match e with
  | ExpectedMachine d | ExpectedPowerShelf d | ExpectedSwitch d _ _ =>
      mk_data (UsernamePassword (bmc_username d) (bmc_password d)) (default false (bmc_retain_credentials d))
  end.

(** A BMC as it shows itself to everyone: the vendor and the [Product] of its service root. *)
Record endpoint := mk_endpoint {
  ep_mac : string;
  ep_self : identity;
  ep_product : option string;
  ep_expected : option ExpectedEntity
}.

Definition from_service_root_product (product : string) : DpuModel :=
  let lower := to_lowercase product in
  if HardwareId.contains "bluefield-2" lower || HardwareId.contains "bluefield 2" lower then BlueField2
  else if HardwareId.contains "bluefield-3" lower || HardwareId.contains "bluefield 3" lower then BlueField3
  else if HardwareId.contains "bluefield-4" lower || HardwareId.contains "bluefield 4" lower then BlueField4
  else UnknownDpu.
Definition default_factory_credentials (m : DpuModel) : Credentials :=
  match m with
  | BlueField4 => UsernamePassword "admin" "0penBmc"
  | _ => UsernamePassword "root" "0penBmc"
  end.
(** crates/bmc-explorer/src/lib.rs. *)
Definition is_bf4_product (product : option string) : bool :=
  bool_decide (product = Some "B4240V") || bool_decide (product = Some "BlueField-4").

Section Explorer.
Context (overrides : gmap CredentialKey Credentials).
Abbreviation P := (M world EndpointExplorationError).

(** ** The credential client *)

Definition client_get_credentials (k : CredentialKey) : P Credentials :=
  c ← map_error SecretsEngineError (get_credentials overrides k);
  match c with
  | Some c => if String.eqb (password c) "" then raise (Other "vault does not have a valid password entry") else mret c
  | None => raise (MissingCredentials "No credentials exists")
  end.
Definition client_set_credentials (k : CredentialKey) (c : Credentials) : P unit :=
  map_error SetCredentials (set_credentials k c).

Definition get_sitewide_bmc_root_credentials (version : Z) : P Credentials := client_get_credentials (site_wide_root version).

(** [generated] is the result of [generate_password]. *)
Definition get_sitewide_dpu_bmc_service_password (version : Z) (create_if_missing : bool) (generated : string) : P string :=
  let key := site_wide_dpu_bmc_service version in
  r ← try (client_get_credentials key);
  match r with
  | Ok c => mret (password c)
  | Err (MissingCredentials cause) =>
      if create_if_missing && (version =? 0) then
        _ ← client_set_credentials key (UsernamePassword "service" generated); mret generated
      else raise (MissingCredentials cause)
  | Err e => raise e
  end.

Definition get_dpu_factory_default_credentials (model : DpuModel) : P Credentials :=
  r ← try (client_get_credentials (DpuHardwareDefault model));
  match r with
  | Ok c => mret c
  | Err _ =>
      r ← if decide (model = UnknownDpu) then mret (Err (Other "")) else try (client_get_credentials (DpuHardwareDefault UnknownDpu));
      match r with
      | Ok c => mret c
      | Err _ => mret (default_factory_credentials model)
      end
  end.

(** ** Requests to the BMC *)

Definition get_redfish_vendor (e : endpoint) : P RedfishVendor :=
  map_error map_redfish_error
    (call id (fun w => (w, bmc_at (ep_mac e) (fun _ => match root_vendor (ep_self e) with
                                                      | Some Unknown | None => Err "missing vendor"
                                                      | Some v => Ok v
                                                      end) w))).
Definition probe_vendor_name_from_chassis (e : endpoint) (c : Credentials) : P string :=
  map_error map_redfish_error
    (call id (fun w => (w, bmc_at (ep_mac e) (fun b => if authenticates c b
                                                      then ok_or "unsupported vendor" (head (omap id (manufacturers (ep_self e))))
                                                      else Err "401") w))).
Definition get_redfish_product (e : endpoint) : P (option string) :=
  map_error map_redfish_error (call id (fun w => (w, bmc_at (ep_mac e) (fun _ => Ok (ep_product e)) w))).
Definition get_dpu_model_hint (e : endpoint) : P DpuModel :=
  r ← try (get_redfish_product e);
  mret match r with
       | Ok (Some p) => from_service_root_product p
       | _ => UnknownDpu
       end.
Definition validate_bmc_credentials (mac : string) (c : Credentials) : P unit :=
  map_error map_redfish_error
    (call id (fun w => (w, bmc_at mac (fun b => if authenticates c b then Ok () else Err "401") w))).
(** The requests of a report need the password of the root user. *)
Definition generate_exploration_report (mac : string) (c : Credentials) : P unit := validate_bmc_credentials mac c.

(** Power shelves name their vendor only in their chassis. *)
Definition resolve_redfish_vendor (e : endpoint) : P RedfishVendor :=
  r ← try (get_redfish_vendor e);
  match r with
  | Ok v => mret v
  | Err service_root_error =>
      match ep_expected e with
      | Some (ExpectedPowerShelf d) =>
          stored ← try (client_get_credentials (BmcRoot (ep_mac e)));
          let c := match stored with Ok c => c | Err _ => UsernamePassword (bmc_username d) (bmc_password d) end in
          r ← try (probe_vendor_name_from_chassis e c);
          match r with
          | Ok name => match manufacturer_vendor name with Some v => mret v | None => raise service_root_error end
          | Err _ => raise service_root_error
          end
      | _ => raise service_root_error
      end
  end.

(** ** Moving a BMC to the site-wide password *)

(** For [Bmc] and [DpuBmcService]. *)
Definition current_sitewide_version (ty : CredentialRotationType) : P Z :=
  v ← statement (fun _ => Other "failed to read the rotation target") (fun _ t => Ok (t, current_target_version ty t));
  match v with
  | Some v => if v <? 0 then raise (Other "negative rotation target") else mret v
  | None => raise (Other "no rotation target")
  end.

Definition record_enrolled (mac : string) (ty : CredentialRotationType) (applied_version : option Z) : P unit :=
  statement (fun _ => SetCredentials "device_credential_rotation")
    (fun _ t => no_result (record_device_enrolled mac ty applied_version t)).

Definition set_bmc_root_credentials (mac : string) (c : Credentials) (applied_version : option Z) : P unit :=
  _ ← client_set_credentials (BmcRoot mac) c;
  record_enrolled mac Bmc applied_version.

Definition rotate_dpu_service_password_from_factory_defaults (mac : string) (root : Credentials) (generated : string) : P unit :=
  version ← current_sitewide_version DpuBmcService;
  new_password ← get_sitewide_dpu_bmc_service_password version true generated;
  _ ← map_error map_redfish_error (set_bf4_dpu_service_password mac root new_password);
  record_enrolled mac DpuBmcService (Some version).

(** [AuthenticatedBmcClient::set_bmc_root_password]. *)
Definition client_set_bmc_root_password (mac : string) (v : RedfishVendor) (current : Credentials) (new_password : string)
    : P Credentials :=
  _ ← map_error map_redfish_error (set_bmc_root_password mac v current new_password);
  mret (UsernamePassword (username current) new_password).

Definition set_sitewide_bmc_root_password (mac : string) (v : RedfishVendor) (d : BmcCredentialsData) : P Credentials :=
  if String.eqb (password (data_credentials d)) "" then raise (MissingCredentials "expected entity has no BMC password")
  else
    r ← if retain_credentials d then mret (data_credentials d, None)
        else
          version ← current_sitewide_version Bmc;
          sitewide ← get_sitewide_bmc_root_credentials version;
          c ← client_set_bmc_root_password mac v (data_credentials d) (password sitewide);
          mret (c, Some version);
    _ ← set_bmc_root_credentials mac r.1 r.2;
    mret r.1.

Definition try_sitewide_bmc_root_credentials (mac user : string) : P Credentials :=
  version ← current_sitewide_version Bmc;
  sitewide ← get_sitewide_bmc_root_credentials version;
  let c := UsernamePassword user (password sitewide) in
  _ ← validate_bmc_credentials mac c;
  _ ← set_bmc_root_credentials mac c (Some version);
  mret c.

(** ** [explore_endpoint] *)

Definition MAX_AUTH_RETRIES : Z := 5.
Definition intermittent_vendor (v : RedfishVendor) : bool :=
  match v with Hpe | NvidiaGBx00 | LenovoGB300 | LenovoAMI | AMI | VeraRubin => true | _ => false end.

(** With a stored password. *)
Definition explore_established (mac : string) (v : RedfishVendor) (c : Credentials) (last : option EndpointExplorationError)
    : P unit :=
  r ← try (generate_exploration_report mac c);
  match r with
  | Ok report => mret report
  | Err Unauthorized =>
      if intermittent_vendor v then
        let count := default 0 (last ≫= intermittent_unauthorized_count) + 1 in
        raise (if MAX_AUTH_RETRIES <? count then Unauthorized else IntermittentUnauthorized count)
      else raise Unauthorized
  | Err e => raise e
  end.

(** With none. *)
Definition bootstrap (e : endpoint) (v : RedfishVendor) (generated : string) : P unit :=
  let mac := ep_mac e in
  factory ← match ep_expected e, v with
            | None, NvidiaDpu => m ← get_dpu_model_hint e; c ← get_dpu_factory_default_credentials m; mret (Some c)
            | _, _ => mret None
            end;
  product ← get_redfish_product e;
  d ← match ep_expected e, factory with
      | Some x, _ => mret (bmc_credentials_data x)
      | None, Some c => mret (mk_data c false)
      | None, None => raise (MissingCredentials "the expected machine credentials do not exist")
      end;
  r ← try (set_sitewide_bmc_root_password mac v d);
  c ← match r with
      | Ok c => mret c
      | Err (Unauthorized | MissingCredentials _) => try_sitewide_bmc_root_credentials mac (username (data_credentials d))
      | Err e => raise e
      end;
  _ ← if is_bf4_product product then rotate_dpu_service_password_from_factory_defaults mac c generated else mret ();
  generate_exploration_report mac c.

(** [rotate_nvos] is the setting [rotate_switch_nvos_credentials]. *)
Definition explore_endpoint (rotate_nvos : bool) (e : endpoint) (generated : string) (last : option EndpointExplorationError)
    : P unit :=
  if match last with Some l => is_unauthorized l | None => false end then raise AvoidLockout
  else
    v ← resolve_redfish_vendor e;
    stored ← try (client_get_credentials (BmcRoot (ep_mac e)));
    report ← match stored with
             | Ok c => explore_established (ep_mac e) v c last
             | Err (MissingCredentials _) => bootstrap e v generated
             | Err x => raise x
             end;
    match ep_expected e with
    | Some (ExpectedSwitch _ (Some u) (Some p)) =>
        if rotate_nvos then
          r ← try (client_get_credentials (SwitchNvosAdmin (ep_mac e)));
          match r with
          | Ok _ => mret report
          | Err _ => _ ← client_set_credentials (SwitchNvosAdmin (ep_mac e)) (UsernamePassword u p); mret report
          end
        else mret report
    | _ => mret report
    end.

(** ** Operators *)

(** [SetBmcRootPassword] (with crates/api-core/src/handlers/bmc_endpoint_explorer.rs). *)
Definition admin_set_bmc_root_password (e : endpoint) (new_password : string) : P unit :=
  current ← client_get_credentials (BmcRoot (ep_mac e));
  v ← map_error map_redfish_error (probe_bmc_vendor (ep_self e) (ep_mac e) current);
  c ← client_set_bmc_root_password (ep_mac e) v current new_password;
  client_set_credentials (BmcRoot (ep_mac e)) c.

(** crates/api-core/src/handlers/credential.rs. *)
Definition delete_bmc_root_credentials_by_mac (mac : string) : M world ApiError unit :=
  _ ← map_error ErrInternal (delete_credentials (BmcRoot mac));
  _ ← statement FromDatabase (fun _ t => Ok (delete_device_converged mac Bmc t, ()));
  _ ← try (call id (fun w => (set_sessions (fun s => s ∖ {[ mac ]}) w, Ok ()))); mret ().
End Explorer.
End SiteExplorer.
