(* ===== verification/RotationSystem.v ===== *)
(** * RotationSystem: rotations among crashes, lost replies and each other

    Ticks of the engine and requests to stage a new version ([RotateCredential]) and
    explorations that enrol new devices ([SiteExplorer]) run at once, any number of
    them; every call of each can fail or lose its reply, and each can stop anywhere.
    At most one tick or exploration works on a device at a time: one controller owns
    a device ([Cluster.mutual_exclusion]), explorations of an address exclude each
    other, and a controller waits for the site explorer to pause before it rotates
    (crates/credential-rotation/src/site_explorer_pause.rs). This file has the
    invariant of that system and the rules for the calls of its programs. *)

From S2P Require Import Prelude Text StateHandler Interleave CredentialRotation RotateCredential SiteExplorer.
Import StateHandler Interleave CredentialRotation RotateCredential SiteExplorer.

Module RotationSystem.

(** ** Threads *)

Inductive thread := Tick (mac : string) | Request (n : nat) | Clock.
#[export] Instance thread_eq_dec : EqDecision thread.
Proof. solve_decision. Defined.
Definition thread_code (i : thread) : string + option nat :=
  match i with Tick m => inl m | Request n => inr (Some n) | Clock => inr None end.
Definition thread_of_code (c : string + option nat) : thread :=
  match c with inl m => Tick m | inr (Some n) => Request n | inr None => Clock end.
#[export] Instance thread_countable : Countable thread.
Proof. apply (inj_countable' thread_code thread_of_code). by intros []. Defined.

Inductive answer :=
| Rotated (r : result RotationEngineError RotateOutcome)
| Staged (req : RotateCredentialRequest) (r : result ApiError Z)
| Explored (r : result EndpointExplorationError unit)
| Passed.
Definition answering {A} (f : A -> answer) (p : prog world A) : prog world answer := prog_bind (fun a => Ret (f a)) p.
Definition pass (d : Z) : prog world answer := Act (fun _ w => (set_clock (clock w + d) w, Passed)) Ret.

Section Rotation.
(** [fleet] are the endpoints by their MAC address. *)
Context (overrides : gmap CredentialKey Credentials) (backend : option bool).
Context (fleet : string -> endpoint) (rotate_nvos : bool).

Inductive may_start : thread -> prog world answer -> Prop :=
| start_tick t force : may_start (Tick (device_mac t)) (answering Rotated (rotate_bmc overrides t force))
| start_service m force : may_start (Tick m) (answering Rotated (rotate_dpu_bmc_service overrides m force))
| start_explore m generated last :
    may_start (Tick m) (answering Explored (explore_endpoint overrides rotate_nvos (fleet m) generated last))
| start_request n req : may_start (Request n) (answering (Staged req) (rotate_credential overrides backend req))
| start_clock d : 0 <= d -> may_start Clock (pass d).

(** ** What threads rely on and guarantee *)

(** Of one device, and of the site. *)
Definition per_device (k : CredentialKey) : bool := match k with BmcRoot _ | SwitchNvosAdmin _ => true | _ => false end.

Record same_device (m : string) (w w' : world) : Prop := {
  same_bmc : bmcs w' !! m = bmcs w !! m;
  same_stored : vault w' !! BmcRoot m = vault w !! BmcRoot m;
  same_rows ty : devices (tabs w') !! (m, ty) = devices (tabs w) !! (m, ty)
}.

(** Site-wide secrets are not changed, and targets and the clock do not go back. *)
Record grows (w w' : world) : Prop := {
  grows_secrets k c : per_device k = false -> vault w !! k = Some c -> vault w' !! k = Some c;
  grows_target ty s : sitewide (tabs w) !! ty = Some s ->
    exists s', sitewide (tabs w') !! ty = Some s' /\ target_version s <= target_version s';
  grows_clock : clock w <= clock w'
}.

Definition rely (i : thread) (w w' : world) : Prop := (forall m, i = Tick m -> same_device m w w') /\ grows w w'.
Definition guar (i : thread) (w w' : world) : Prop := (forall m, i <> Tick m -> same_device m w w') /\ grows w w'.

#[local] Instance same_device_preorder m : PreOrder (same_device m).
Proof. split; [done|]. intros w1 w2 w3 [] []. split; intros; etransitivity; eauto. Qed.
#[local] Instance grows_preorder : PreOrder grows.
Proof.
  split; [intros w; split; eauto with lia|]. intros w1 w2 w3 [a1 a2 a3] [b1 b2 b3]. split; [eauto| |lia].
  intros ty s (s' & H' & ?)%a2. destruct (b2 _ _ H') as (s'' & ? & ?). exists s''. split; [done|lia].
Qed.
#[local] Instance rely_preorder i : PreOrder (rely i).
Proof.
  split; [intros w; split; [done|reflexivity]|]. intros w1 w2 w3 [a1 a2] [b1 b2].
  split; [|by transitivity w2]. intros m Hm. transitivity w2; auto.
Qed.
Lemma guar_refl i w : guar i w w.
Proof. split; [done|reflexivity]. Qed.

Lemma threads_compatible i j w w' : i <> j -> guar j w w' -> rely i w w'.
Proof. intros Hij [H1 H2]. split; [|done]. intros m ->. by apply H1. Qed.

(** ** The invariant *)

Definition secret (k : CredentialKey) (w : world) : option string := password <$> effective overrides w k.
Definition target_is (ty : CredentialRotationType) (n : Z) (w : world) : Prop :=
  exists s, sitewide (tabs w) !! ty = Some s /\ target_version s = n.
Definition stored (m : string) (o : option Credentials) (w : world) : Prop := vault w !! BmcRoot m = o.
Definition row_at (m : string) (ty : CredentialRotationType) (o : option device_row) (w : world) : Prop :=
  devices (tabs w) !! (m, ty) = o.
(** The root user of a BMC, and the service account. *)
Definition root_is (m : string) (c : Credentials) (w : world) : Prop :=
  exists b, bmcs w !! m = Some b /\ root_user b = username c /\ root_password b = password c.
Definition service_is (m p : string) (w : world) : Prop := exists b, bmcs w !! m = Some b /\ service_password b = p.

(** A password that the site has, at a version that is or was the target. *)
Definition staged (ty : CredentialRotationType) (key : Z -> CredentialKey) (v : Z) (p : string) (w : world) : Prop :=
  secret (key v) w = Some p /\ 0 <= v /\ exists n, target_is ty n w /\ v <= n.

(** Of a row: the versions are in order, and only a device that lags is quarantined. *)
Definition row_inv (ty : CredentialRotationType) (r : device_row) (w : world) : Prop :=
  exists n, target_is ty n w /\
    (forall v, current_version r = Some v -> 0 <= v <= n) /\
    (forall v, rotating_to_version r = Some v -> 0 <= v <= n /\ forall u, current_version r = Some u -> u < v) /\
    (rotate_quarantined_until r <> None -> reached n r = false).

(** Of a BMC with its row: its password is stored, and when nothing is in flight it
    is that of the version in the row. *)
Definition root_inv (m : string) (r : device_row) (w : world) : Prop :=
  exists c p, stored m (Some c) w /\ root_is m (UsernamePassword (username c) p) w /\
    (password c = p \/ exists v, staged Bmc site_wide_root v p w) /\
    (rotating_to_version r = None -> forall v, current_version r = Some v ->
       password c = p /\ staged Bmc site_wide_root v p w).

Definition service_inv (m : string) (r : device_row) (w : world) : Prop :=
  exists p, service_is m p w /\ is_Some (vault w !! BmcRoot m) /\
    (rotating_to_version r = None -> forall v, current_version r = Some v ->
       staged DpuBmcService site_wide_dpu_bmc_service v p w).

(** The password that a BMC is expected to have and to keep. *)
Definition retained (m : string) : option Credentials :=
  d ← bmc_credentials_data <$> ep_expected (fleet m); if retain_credentials d then Some (data_credentials d) else None.

Record device_inv (m : string) (w : world) : Prop := {
  root_ok r : row_at m Bmc (Some r) w -> root_inv m r w /\ row_inv Bmc r w;
  service_ok r : row_at m DpuBmcService (Some r) w -> service_inv m r w /\ row_inv DpuBmcService r w;
  retained_ok c : retained m = Some c -> stored m None w -> root_is m c w
}.

(** What is published is stored. *)
Definition published (w : world) : Prop :=
  forall ty s, sitewide (tabs w) !! ty = Some s ->
    0 <= target_version s /\
    (ty = Nvos \/ 1 <= target_version s ->
       is_Some (effective overrides w (versioned_rotation_key ty (target_version s)))).

(** The migrations create the targets, and the site has a first service password. *)
Definition seeded (w : world) : Prop :=
  (exists n, target_is Bmc n w) /\ (exists n, target_is DpuBmcService n w) /\
  is_Some (effective overrides w SiteWideDpuBmcService).

Record inv (w : world) : Prop := {
  inv_device m : device_inv m w;
  inv_published : published w;
  inv_seeded : seeded w
}.

(** *** It is kept by what the threads guarantee *)

Lemma effective_grows w w' k c :
  grows w w' -> per_device k = false -> effective overrides w k = Some c -> effective overrides w' k = Some c.
Proof.
  intros [Hs _ _] Hk. unfold effective. rewrite !lookup_union_Some_raw. intros [?|[? ?]]; [by left|]. right. eauto.
Qed.
Lemma secret_grows w w' k p : grows w w' -> per_device k = false -> secret k w = Some p -> secret k w' = Some p.
Proof.
  intros Hg Hk. unfold secret. destruct (effective overrides w k) as [c|] eqn:E; [|done].
  by rewrite (effective_grows _ _ _ _ Hg Hk E).
Qed.
Lemma root_key v : per_device (site_wide_root v) = false.
Proof. unfold site_wide_root. by destruct (_ =? _). Qed.
Lemma service_key v : per_device (site_wide_dpu_bmc_service v) = false.
Proof. unfold site_wide_dpu_bmc_service. by destruct (_ =? _). Qed.
Lemma versioned_key ty v : per_device (versioned_rotation_key ty v) = false.
Proof. by destruct ty. Qed.
Hint Resolve root_key service_key versioned_key : core.

Lemma target_grows w w' ty n : grows w w' -> target_is ty n w -> exists n', target_is ty n' w' /\ n <= n'.
Proof.
  intros [_ Ht _] (s & Hs & <-). destruct (Ht _ _ Hs) as (s' & ? & ?). exists (target_version s').
  split; [by exists s'|done].
Qed.
Lemma staged_grows w w' ty key v p :
  grows w w' -> (forall v, per_device (key v) = false) -> staged ty key v p w -> staged ty key v p w'.
Proof.
  intros Hg Hk (Hp & Hv & n & Hn & Hle). destruct (target_grows _ _ _ _ Hg Hn) as (n' & Hn' & ?).
  split; [by eapply secret_grows|]. split; [done|]. exists n'. split; [done|lia].
Qed.
Lemma reached_grows n n' r : n <= n' -> reached n r = false -> reached n' r = false.
Proof. unfold reached. destruct (current_version r); [|done]. rewrite !Z.leb_gt. lia. Qed.

Lemma row_inv_grows ty r w w' : grows w w' -> row_inv ty r w -> row_inv ty r w'.
Proof.
  intros Hg (n & Hn & Hc & Hr & Hq). destruct (target_grows _ _ _ _ Hg Hn) as (n' & Hn' & Hle). exists n'.
  split_and!; [done| | |].
  - intros v Hv. specialize (Hc v Hv). lia.
  - intros v Hv. destruct (Hr v Hv) as [? ?]. split; [lia|done].
  - intros H. by apply (reached_grows n), Hq.
Qed.
Lemma root_inv_grows m r w w' : same_device m w w' -> grows w w' -> root_inv m r w -> root_inv m r w'.
Proof.
  intros [Hb Hs _] Hg (c & p & Hc & Hp & Hk & Hr). exists c, p. unfold stored, root_is. rewrite Hb, Hs. split_and!; [done..| |].
  - destruct Hk as [?|[v Hv]]; [by left|]. right. exists v. by eapply staged_grows.
  - intros Hn v Hv. destruct (Hr Hn v Hv). split; [done|by eapply staged_grows].
Qed.
Lemma service_inv_grows m r w w' : same_device m w w' -> grows w w' -> service_inv m r w -> service_inv m r w'.
Proof.
  intros [Hb Hs _] Hg (p & Hp & Hc & Hr). exists p. unfold service_is. rewrite Hb, Hs. split_and!; [done..|].
  intros Hn v Hv. eapply staged_grows; eauto.
Qed.
Lemma device_inv_grows m w w' : same_device m w w' -> grows w w' -> device_inv m w -> device_inv m w'.
Proof.
  intros Hs Hg [H1 H2 H3]. split; unfold row_at, stored; intros r; rewrite ?(same_rows _ _ _ Hs), ?(same_stored _ _ _ Hs).
  - intros Hr. destruct (H1 r Hr). split; [by eapply root_inv_grows|by eapply row_inv_grows].
  - intros Hr. destruct (H2 r Hr). split; [by eapply service_inv_grows|by eapply row_inv_grows].
  - intros Hr Hn. unfold root_is. rewrite (same_bmc _ _ _ Hs). by apply H3.
Qed.
Lemma published_grows w w' : grows w w' -> sitewide (tabs w') = sitewide (tabs w) -> published w -> published w'.
Proof.
  intros Hg Hs Hp ty s. rewrite Hs. intros H. destruct (Hp ty s H) as [? Hk]. split; [done|]. intros Hv.
  destruct (Hk Hv) as [c Hc]. exists c. by eapply effective_grows.
Qed.
Lemma seeded_grows w w' : grows w w' -> seeded w -> seeded w'.
Proof.
  intros Hg ([n1 H1] & [n2 H2] & [c Hc]). split_and!.
  - destruct (target_grows _ _ _ _ Hg H1) as (n & ? & _). by exists n.
  - destruct (target_grows _ _ _ _ Hg H2) as (n & ? & _). by exists n.
  - exists c. by eapply effective_grows.
Qed.

(** A thread of a device changes that device only. *)
Lemma inv_tick m w w' :
  inv w -> guar (Tick m) w w' -> sitewide (tabs w') = sitewide (tabs w) -> device_inv m w' -> inv w' /\ guar (Tick m) w w'.
Proof.
  intros [H1 H2 H3] [Hs Hg] Hst Hd. split; [|done]. split; [|by eapply published_grows|by eapply seeded_grows].
  intros m'. destruct (decide (m' = m)) as [->|Hne]; [done|].
  eapply device_inv_grows; [apply Hs; congruence|done|apply H1].
Qed.
Lemma inv_no_device i w w' :
  inv w -> (forall m, same_device m w w') -> grows w w' -> published w' -> inv w' /\ guar i w w'.
Proof.
  intros [H1 H2 H3] Hs Hg Hp. split; [|by split]. split; [|done|by eapply seeded_grows].
  intros m. eapply device_inv_grows; eauto.
Qed.

(** *** The changes to a device *)

Ltac others := split; [intros m' Hm'; split; intros; simpl; rewrite ?lookup_insert_ne by congruence; done|split; simpl; eauto with lia].

Definition with_row (m : string) (ty : CredentialRotationType) (r : device_row) (w : world) : world :=
  set_tabs (set_devices (<[(m, ty) := r]>) (tabs w)) w.

Lemma row_written m ty r w :
  inv w -> row_inv ty r w -> (ty = Bmc -> root_inv m r w) -> (ty = DpuBmcService -> service_inv m r w) ->
  inv (with_row m ty r w) /\ guar (Tick m) w (with_row m ty r w).
Proof.
  intros HI Hr Hroot Hserv. apply inv_tick; [done|others|done|]. destruct (inv_device _ HI m) as [H1 H2 H3].
  split; [| |exact H3]; unfold row_at; simpl; intros r' [[Heq <-]|[_ Hr']]%lookup_insert_Some.
  - assert (ty = Bmc) as -> by congruence. split; [by apply Hroot|exact Hr].
  - exact (H1 r' Hr').
  - assert (ty = DpuBmcService) as -> by congruence. split; [by apply Hserv|exact Hr].
  - exact (H2 r' Hr').
Qed.

(** The root password of a BMC is changed only while a rotation of it is marked, or
    before it is enrolled. *)
Definition root_free (m : string) (w : world) : Prop :=
  (forall r, row_at m Bmc (Some r) w -> rotating_to_version r <> None) /\ (stored m None w -> retained m = None).
Definition service_free (m : string) (w : world) : Prop :=
  forall r, row_at m DpuBmcService (Some r) w -> rotating_to_version r <> None.

Lemma root_changed m b p v w :
  inv w -> bmcs w !! m = Some b -> root_free m w -> staged Bmc site_wide_root v p w ->
  let w' := set_bmcs (<[m := set_root_password p b]>) w in inv w' /\ guar (Tick m) w w'.
Proof.
  intros HI Hb [Hf Hn] Hst w'. apply inv_tick; [done| |done|].
  { split; [|split; simpl; eauto with lia]. intros m' Hm'. split; simpl; [|done..]. rewrite lookup_insert_ne; [done|congruence]. }
  destruct (inv_device _ HI m) as [H1 H2 H3]. split.
  - intros r Hr. destruct (H1 r Hr) as [(c & p' & Hc & (b' & Hb' & Hu & _) & _ & _) Hrow]. split; [|exact Hrow].
    exists c, p. split_and!; [exact Hc| | |].
    + exists (set_root_password p b). simpl. rewrite lookup_insert_eq. simplify_eq. done.
    + right. by exists v.
    + intros Hnone. by destruct (Hf r Hr).
  - intros r Hr. destruct (H2 r Hr) as [(p' & (b' & Hb' & Hp') & Hc & Hset) Hrow]. split; [|exact Hrow].
    exists p'. split_and!; [|exact Hc|exact Hset]. exists (set_root_password p b). simpl. rewrite lookup_insert_eq. by simplify_eq.
  - intros c Hc Hnone. by rewrite (Hn Hnone) in Hc.
Qed.

Lemma service_changed m b p w :
  inv w -> bmcs w !! m = Some b -> service_free m w ->
  let w' := set_bmcs (<[m := set_service_password p b]>) w in inv w' /\ guar (Tick m) w w'.
Proof.
  intros HI Hb Hf w'. apply inv_tick; [done| |done|].
  { split; [|split; simpl; eauto with lia]. intros m' Hm'. split; simpl; [|done..]. rewrite lookup_insert_ne; [done|congruence]. }
  assert (Hroot : forall c, root_is m c w -> root_is m c w').
  { intros c (b' & Hb' & Hu & Hp). exists (set_service_password p b). simpl. rewrite lookup_insert_eq. by simplify_eq. }
  destruct (inv_device _ HI m) as [H1 H2 H3]. split.
  - intros r Hr. destruct (H1 r Hr) as [(c & p' & Hc & Hp & Hrest) Hrow]. split; [|exact Hrow].
    exists c, p'. split; [exact Hc|]. split; [by apply Hroot|exact Hrest].
  - intros r Hr. destruct (H2 r Hr) as [(p' & _ & Hc & _) Hrow]. split; [|exact Hrow].
    exists p. split_and!; [|exact Hc|].
    + exists (set_service_password p b). simpl. by rewrite lookup_insert_eq.
    + intros Hnone. by destruct (Hf r Hr).
  - intros c Hc Hnone. apply Hroot. by apply H3.
Qed.

(** The password of the BMC is stored. *)
Lemma secret_stored m c w :
  inv w -> root_is m c w -> (forall r, row_at m Bmc (Some r) w -> rotating_to_version r <> None) ->
  let w' := set_vault (<[BmcRoot m := c]>) w in inv w' /\ guar (Tick m) w w'.
Proof.
  intros HI Hc Hf w'.
  assert (Hg : guar (Tick m) w w').
  { split; [|split; simpl; eauto with lia].
    - intros m' Hm'. split; simpl; [done| |done]. rewrite lookup_insert_ne; [done|congruence].
    - intros k c' Hk Hk'. rewrite lookup_insert_ne; [done|]. by intros <-. }
  apply inv_tick; [done..|]. destruct Hg as [_ Hg]. destruct (inv_device _ HI m) as [H1 H2 H3]. split.
  - intros r Hr. destruct (H1 r Hr) as [_ Hrow]. split; [|exact Hrow]. exists c, (password c). split_and!; [|by destruct c|by left|].
    + apply lookup_insert_eq.
    + intros Hnone. by destruct (Hf r Hr).
  - intros r Hr. destruct (H2 r Hr) as [(p' & Hp' & _ & Hset) Hrow]. split; [|exact Hrow]. exists p'. split_and!; [exact Hp'| |].
    + simpl. rewrite lookup_insert_eq. by exists c.
    + intros Hn v Hv. eapply staged_grows; [done|done|eauto].
  - intros c' _. unfold stored. simpl. by rewrite lookup_insert_eq.
Qed.
End Rotation.
#[export] Existing Instance rely_preorder.
End RotationSystem.
