(* ===== verification/RotationTicks.v ===== *)
(** * RotationTicks: the ticks of a device keep the invariant

    Every call of the engine ([RotateCredential]) on a device: what it needs of the
    device, what it leaves when it succeeds, and what when it fails or its reply is
    lost ([spec] of [Interleave]), under the invariant of [RotationSystem]. *)

From S2P Require Import Prelude Text StateHandler Interleave CredentialRotation RotateCredential SiteExplorer RotationSystem.
Import StateHandler Interleave CredentialRotation RotateCredential SiteExplorer RotationSystem.

Module RotationTicks.
Create HintDb stable.

Section Ticks.
Context (overrides : gmap CredentialKey Credentials) (fleet : string -> endpoint).
Hypothesis no_override : forall m, overrides !! BmcRoot m = None.
Context (m : string).
Abbreviation inv := (inv overrides fleet).
Abbreviation stab A := (stable (rely (Tick m)) inv A).
Abbreviation tick P p Q X := (spec (rely (Tick m)) (guar (Tick m)) inv P p Q X).
Abbreviation anything := (fun _ : world => True).

(** ** What others respect *)

Lemma stable_row ty o : stab (row_at m ty o).
Proof. intros w w' H [Hs _] _. unfold row_at. by rewrite (same_rows _ _ _ (Hs m eq_refl)). Qed.
Lemma stable_stored o : stab (stored m o).
Proof. intros w w' H [Hs _] _. unfold stored. by rewrite (same_stored _ _ _ (Hs m eq_refl)). Qed.
Lemma stable_root c : stab (root_is m c).
Proof. intros w w' H [Hs _] _. unfold root_is. by rewrite (same_bmc _ _ _ (Hs m eq_refl)). Qed.
Lemma stable_service p : stab (service_is m p).
Proof. intros w w' H [Hs _] _. unfold service_is. by rewrite (same_bmc _ _ _ (Hs m eq_refl)). Qed.
Lemma stable_staged ty key v p : (forall v, per_device (key v) = false) -> stab (staged overrides ty key v p).
Proof. intros Hk w w' H [_ Hg] _. by eapply staged_grows. Qed.

Definition at_least (ty : CredentialRotationType) (v : Z) (w : world) : Prop := 0 <= v /\ exists n, target_is ty n w /\ v <= n.
Lemma stable_at_least ty v : stab (at_least ty v).
Proof.
  intros w w' [? (n & Hn & ?)] [_ Hg] _. destruct (target_grows _ _ _ _ Hg Hn) as (n' & ? & ?).
  split; [done|]. exists n'. split; [done|lia].
Qed.
Lemma stable_anything : stab anything.
Proof. done. Qed.
#[local] Hint Resolve stable_row stable_stored stable_root stable_service stable_staged stable_at_least stable_anything
  root_key service_key versioned_key stable_pure : stable.
#[local] Hint Resolve guar_refl root_key service_key versioned_key : core.

Ltac settle :=
  intros; cbv beta; repeat first [solve [eauto 2 with stable] | apply stable_and | apply stable_impl; intros | apply stable_exists; intros].

Lemma then_ {E A B} P (p : M world E A) (f : A -> M world E B) Y Q X :
  tick P p Y X -> stab X -> (forall a, tick (Y a) (f a) Q X) -> tick P (p ≫= f) Q X.
Proof. intros. by eapply spec_bind; [apply _|..]. Qed.
Lemma weaken {E A} P (p : M world E A) Q X (X' : world -> Prop) :
  tick P p Q X -> (forall w, X w -> X' w) -> tick P p Q X'.
Proof. intros H HX. by eapply spec_conseq. Qed.
Lemma then_mapped {E F A B} (g : E -> F) P (p : M world E A) (f : A -> M world F B) Y Q X (X' : world -> Prop) :
  tick P p Y X -> (forall a, stab (Y a)) -> stab X -> stab X' -> (forall w, X w -> X' w) ->
  (forall a, tick (Y a) (f a) Q X') -> tick P (map_error g p ≫= f) Q X'.
Proof.
  intros Hp HY HX HX' H Hf. eapply then_; [|done|exact Hf]. eapply weaken; [|exact H].
  by apply spec_map_error; [apply _|..].
Qed.
Lemma mapped {E F A} (g : E -> F) P (p : M world E A) Q X :
  tick P p Q X -> (forall a, stab (Q a)) -> stab X -> tick P (map_error g p) Q X.
Proof. intros. by apply spec_map_error; [apply _|..]. Qed.
Lemma tried {E F A} P (p : M world E A) Q X (X' : world -> Prop) :
  tick P p Q X -> (forall a, stab (Q a)) -> stab X ->
  tick P (try p : M world F (result E A)) (on_result Q (fun _ => X)) X'.
Proof. intros. by apply spec_try; [apply _|..]. Qed.

(** ** Statements *)

Lemma set_tabs_id w : set_tabs (tabs w) w = w.
Proof. by destruct w. Qed.
Lemma write_device_ok k r t t' : write_device k r t = Ok t' -> t' = set_devices (<[k := r]>) t.
Proof. unfold write_device. by destruct (row_ok r); intros [=]. Qed.

Lemma statement_tick {E A} (err : DatabaseError -> E) f P (Q : A -> world -> Prop) X :
  stab P -> (forall a, stab (Q a)) -> stab X -> (forall w, P w -> X w) ->
  (forall w t a, P w -> inv w -> f (clock w) (tabs w) = Ok (t, a) ->
     (inv (set_tabs t w) /\ guar (Tick m) w (set_tabs t w)) /\ X (set_tabs t w) /\ Q a (set_tabs t w)) ->
  tick P (statement err f) Q X.
Proof.
  intros HP HQ HX HPX Hf. apply spec_call; [auto..|]. intros w Hw HI.
  destruct (f (clock w) (tabs w)) as [[t a]|e] eqn:Ef; simpl.
  - destruct (Hf w t a Hw HI Ef) as ((? & ?) & ? & ?). split_and!; [done..|]. by intros ? [= <-].
  - split_and!; auto. done.
Qed.

Lemma reads {E A} (p : M world E A) P (X : world -> Prop) :
  read_only p -> stab P -> (forall w, P w -> X w) -> tick P p (fun _ => P) X.
Proof. intros Hp HP HX. eapply spec_conseq; [by apply read_only_spec; [apply guar_refl|..]|done|done|done]. Qed.
Lemma acquire_reads : read_only acquire.
Proof. by intros [] w. Qed.
Lemma utc_now_reads : read_only utc_now.
Proof. by intros [] w. Qed.
#[local] Hint Resolve acquire_reads utc_now_reads : core.

(** ** Entering *)

(** A device whose rotation to [v] is marked. *)
Definition in_flight (ty : CredentialRotationType) (v : Z) (w : world) : Prop :=
  at_least ty v w /\ exists r, row_at m ty (Some r) w /\ rotating_to_version r = Some v /\
    forall u, current_version r = Some u -> u < v.
Lemma stable_in_flight ty v : stab (in_flight ty v).
Proof. settle. Qed.
#[local] Hint Resolve stable_in_flight : stable.

Definition rotatable (ty : CredentialRotationType) : Prop := ty = Bmc \/ ty = DpuBmcService.

(** What was read of a device that lags. *)
Definition status_of (ty : CredentialRotationType) (s : DeviceRotationStatus) (w : world) : Prop :=
  row_at m ty (Some (ds_row s)) w /\ (0 <= ds_target_version s -> at_least ty (ds_target_version s) w) /\
  ds_converged s = reached (ds_target_version s) (ds_row s).
Lemma stable_status ty s : stab (status_of ty s).
Proof. settle. Qed.
#[local] Hint Resolve stable_status : stable.

Lemma read_status_tick ty :
  rotatable ty ->
  tick anything (read_status ty m) (fun o w => match o with Some s => status_of ty s w | None => True end) anything.
Proof.
  intros Hty. apply spec_read; [auto|settle|intros [s|]; settle|].
  intros w b _ HI Hb. unfold device_rotation_status in Hb. rewrite decide_False in Hb by (by destruct Hty as [-> | ->]).
  simpl in Hb. destruct (sitewide (tabs w) !! ty) as [s|] eqn:Es; simpl in Hb; [|by simplify_eq].
  destruct (devices (tabs w) !! (m, ty)) as [r|] eqn:Er; simpl in Hb; simplify_eq; [|done].
  split_and!; [done| |done]. simpl. intros Hv. split; [done|]. exists (target_version s). split; [by exists s|lia].
Qed.

(** An update of a row that leaves its device what it is. *)
Lemma device_row_written ty r r' w :
  rotatable ty -> inv w -> row_at m ty (Some r) w -> rotating_to_version r' <> None -> row_inv ty r' w ->
  inv (with_row m ty r' w) /\ guar (Tick m) w (with_row m ty r' w).
Proof.
  intros Hty HI Hr Hn Hrow. destruct (inv_device _ _ _ HI m) as [H1 H2 _]. apply row_written; [done..| |]; intros ->.
  - destruct (H1 r Hr) as [(c & p & ? & ? & ? & _) _]. by exists c, p.
  - destruct (H2 r Hr) as [(p & ? & ? & _) _]. by exists p.
Qed.

Lemma row_inv_at ty r w : rotatable ty -> inv w -> row_at m ty (Some r) w -> row_inv ty r w.
Proof. intros [-> | ->] HI Hr; destruct (inv_device _ _ _ HI m) as [H1 H2 _]; [by apply H1|by apply H2]. Qed.

Lemma target_unique ty n n' w : target_is ty n w -> target_is ty n' w -> n = n'.
Proof. intros (s & ? & ?) (s' & ? & ?). by simplify_eq. Qed.

Lemma not_reached_lt v r : reached v r = false -> forall u, current_version r = Some u -> u < v.
Proof. unfold reached. intros H u Hu. rewrite Hu in H. by apply Z.leb_gt in H. Qed.
Lemma lt_not_reached v n r : (forall u, current_version r = Some u -> u < v) -> v <= n -> reached n r = false.
Proof. unfold reached. intros H Hn. destruct (current_version r) as [u|]; [|done]. specialize (H u eq_refl). apply Z.leb_gt. lia. Qed.

Lemma mark_tick ty s :
  rotatable ty -> ds_converged s = false -> 0 <= ds_target_version s ->
  tick (status_of ty s)
    (statement DatabaseFailed (fun _ t => no_result (mark_device_rotating_to_version m ty (ds_target_version s) t)))
    (fun _ => in_flight ty (ds_target_version s)) anything.
Proof.
  intros Hty Hc Hv. apply statement_tick; [settle..|done|]. intros w t [] (Hr & Hat & Hreach) HI Ht.
  specialize (Hat Hv). rewrite Hc in Hreach. symmetry in Hreach. pose proof (not_reached_lt _ _ Hreach) as Hlt.
  unfold no_result in Ht. apply bind_ok in Ht as (t' & Ht & [= <-]).
  unfold mark_device_rotating_to_version in Ht. unfold row_at in Hr. rewrite Hr in Ht.
  case_decide as Hd.
  { injection Ht as <-. rewrite set_tabs_id. split; [by auto|]. split; [done|]. split; [done|]. by exists (ds_row s). }
  apply write_device_ok in Ht as ->. destruct (row_inv_at _ _ _ Hty HI Hr) as (n & Hn & Hcur & _ & Hq).
  destruct Hat as [_ (n' & Hn' & Hle)]. pose proof (target_unique _ _ _ _ Hn Hn') as <-.
  split; [|split; [done|]].
  - eapply (device_row_written ty); [done..|by simpl|]. exists n. split_and!; [done|done| |done].
    intros v [= <-]. split; [lia|done].
  - split; [by split; [done|exists n]|]. exists (set_rotating_to (Some (ds_target_version s)) (ds_row s)).
    split; [apply lookup_insert_eq|done].
Qed.

Lemma enter_tick ty force :
  rotatable ty ->
  tick anything (enter_device_rotation ty m force)
    (fun x w => match x with inl _ => True | inr (_, v) => in_flight ty v w end) anything.
Proof.
  intros Hty. eapply then_; [by apply reads; settle|settle|]. intros [].
  eapply then_; [by apply read_status_tick|settle|]. intros [s|]; [|by apply spec_ret; settle].
  destruct (ds_converged s) eqn:Ec; [by apply spec_ret; settle|].
  destruct (ds_quarantined s && negb force).
  { eapply then_; [by apply reads; settle|settle|]. intros now. by apply spec_ret; settle. }
  destruct (Z.ltb_spec (ds_target_version s) 0); [by apply spec_raise; settle|].
  eapply then_; [by apply reads; settle|settle|]. intros [].
  eapply then_; [by apply mark_tick|settle|]. intros []. by apply spec_ret; settle.
Qed.

(** ** Secrets *)

Lemma effective_root w : effective overrides w (BmcRoot m) = vault w !! BmcRoot m.
Proof. unfold effective. rewrite lookup_union, no_override. by destruct (vault w !! BmcRoot m). Qed.

Lemma get_tick k C (D : Credentials -> world -> Prop) :
  stab C -> (forall c, stab (D c)) -> (forall w c, inv w -> C w -> effective overrides w k = Some c -> D c w) ->
  tick C (get_credentials overrides k) (fun o w => match o with Some c => D c w | None => C w end) C.
Proof.
  intros HC HD H. apply spec_read; [apply guar_refl|done|by intros []|].
  intros w b Hw HI [= <-]. destruct (effective overrides w k) as [c|] eqn:E; [by apply H|done].
Qed.
Lemma read_secret_tick what k C (D : Credentials -> world -> Prop) :
  stab C -> (forall c, stab (D c)) -> (forall w c, inv w -> C w -> effective overrides w k = Some c -> D c w) ->
  tick C (read_secret overrides what k) D C.
Proof.
  intros HC HD H. eapply then_; [|done|].
  - apply mapped; [by apply (get_tick k C D)|by intros []|done].
  - intros [c|]; [apply spec_ret; [by apply HD|done]|apply spec_raise; [done|auto]].
Qed.

(** ** Passwords on a BMC *)

Lemma bmc_reads {E A} (err : string -> E) C (f : world -> result E A) (Q : A -> world -> Prop) :
  stab C -> (forall a, stab (Q a)) -> (forall w a, C w -> inv w -> f w = Ok a -> Q a w) ->
  tick C (call err (fun w => (w, f w))) Q C.
Proof. intros. apply spec_read; auto. Qed.

Lemma authenticates_root c b w : bmcs w !! m = Some b -> authenticates c b = true -> root_is m c w.
Proof.
  unfold authenticates. intros Hb [Hu Hp]%andb_prop. apply String.eqb_eq in Hu, Hp. by exists b.
Qed.

Section Change.
Context (C : world -> Prop) (HC : stab C).
Hypothesis any_bmc : forall w b, C w -> C (set_bmcs (<[m := b]>) w).

Section Root.
Context (p : string).
Hypothesis may_change : forall w, C w -> root_free fleet m w /\ exists v, staged overrides Bmc site_wide_root v p w.

Lemma change_root_tick cur : tick C (change_bmc m cur (set_root_password p)) (fun _ => C) C.
Proof.
  apply spec_call; [apply guar_refl|done..|]. intros w Hw HI. destruct (bmcs w !! m) as [b|] eqn:Hb; [|by auto].
  destruct (authenticates cur b); [|by auto]. destruct (may_change w Hw) as [Hf [v Hv]]. simpl.
  destruct (root_changed overrides fleet m b p v w HI Hb Hf Hv). split_and!; auto.
Qed.

Lemma set_bmc_root_password_tick v cur :
  tick C (set_bmc_root_password m v cur p) (fun _ w => C w /\ root_is m (UsernamePassword (username cur) p) w) C.
Proof.
  eapply (then_ _ _ _ (fun _ => C)); [|done|].
  - destruct v; first [apply change_root_tick|by apply spec_ret|by apply spec_raise].
  - intros []. apply bmc_reads; [done|settle|]. intros w [] Hw HI. unfold bmc_at.
    destruct (bmcs w !! m) as [b|] eqn:Hb; [|done]. destruct (authenticates _ b) eqn:Ha; [|done].
    intros _. split; [done|]. by eapply authenticates_root.
Qed.

Lemma change_or_recover_tick v from to :
  password to = p -> username to = username from ->
  tick C (change_or_recover m v from to) (fun _ w => C w /\ root_is m to w) C.
Proof.
  intros Hp Hu. assert (Hto : UsernamePassword (username from) p = to) by (destruct to; simpl in *; congruence).
  eapply then_; [|done|].
  - rewrite Hp. apply tried; [apply set_bmc_root_password_tick|settle|done].
  - rewrite Hto. intros [u|e]; cbn [on_result]; [by apply spec_ret; settle|].
    eapply (then_ _ _ _ (fun (b : bool) w => C w /\ (b = true -> root_is m to w))); [|done|].
    + apply mapped; [|settle|done]. apply bmc_reads; [done|settle|]. intros w b Hw HI. unfold bmc_at.
      destruct (bmcs w !! m) as [b'|] eqn:Hb; [|done]. intros [= <-]. split; [done|]. by apply authenticates_root.
    + intros []; [apply spec_ret|apply spec_raise]; [settle|..|settle|]; intros w HI [? H]; auto.
Qed.
End Root.

Lemma change_service_tick root p :
  (forall w, C w -> service_free m w) ->
  tick C (set_bf4_dpu_service_password m root p) (fun _ w => C w /\ service_is m p w) C.
Proof.
  intros Hfree. apply spec_call; [apply guar_refl|settle..|done|]. intros w Hw HI.
  destruct (bmcs w !! m) as [b|] eqn:Hb; [|by auto]. destruct (authenticates root b); [|by auto]. simpl.
  destruct (service_changed overrides fleet m b p w HI Hb (Hfree w Hw)). split_and!; [done|done|auto|].
  intros [] _. split; [auto|]. exists (set_service_password p b). simpl. by rewrite lookup_insert_eq.
Qed.
End Change.

(** ** Storing *)

Lemma staged_store ty key v p c w :
  (forall v, per_device (key v) = false) -> staged overrides ty key v p w ->
  staged overrides ty key v p (set_vault (<[BmcRoot m := c]>) w).
Proof.
  intros Hk H. eapply staged_grows; [|done|exact H]. split; simpl; eauto with lia.
  intros k c' Hk' Hc'. rewrite lookup_insert_ne; [done|]. by intros <-.
Qed.

Lemma store_tick (C : world -> Prop) c :
  stab C -> (forall w, C w -> C (set_vault (<[BmcRoot m := c]>) w)) ->
  (forall w, C w -> root_is m c w /\ forall r, row_at m Bmc (Some r) w -> rotating_to_version r <> None) ->
  tick C (set_credentials (BmcRoot m) c) (fun _ w => C w /\ stored m (Some c) w) C.
Proof.
  intros HC Hany Hc. apply spec_call; [apply guar_refl|settle..|done|]. intros w Hw HI. destruct (Hc w Hw) as [Hr Hf].
  destruct (secret_stored overrides fleet m c w HI Hr Hf). split_and!; [done..|by apply Hany|].
  intros [] _. split; [by apply Hany|]. apply lookup_insert_eq.
Qed.

(** ** The root password *)

Lemma in_flight_rotating ty v w : in_flight ty v w -> forall r, row_at m ty (Some r) w -> rotating_to_version r <> None.
Proof. intros [_ (r' & Hr' & Hv & _)] r Hr. unfold row_at in *. simplify_eq. by rewrite Hv. Qed.

(** A BMC on the password of version [v], with that stored, but not yet recorded. *)
Definition root_moved (v : Z) (w : world) : Prop :=
  in_flight Bmc v w /\ exists c, root_is m c w /\ stored m (Some c) w /\ staged overrides Bmc site_wide_root v (password c) w.
Lemma stable_root_moved v : stab (root_moved v).
Proof. settle. Qed.
#[local] Hint Resolve stable_root_moved : stable.

Definition root_ready (v : Z) (per st : Credentials) (w : world) : Prop :=
  (in_flight Bmc v w /\ stored m (Some per) w) /\ staged overrides Bmc site_wide_root v (password st) w.
Lemma stable_root_ready v per st : stab (root_ready v per st).
Proof. settle. Qed.
#[local] Hint Resolve stable_root_ready : stable.
Lemma ready_in_flight v per st w : root_ready v per st w -> in_flight Bmc v w.
Proof. by intros [[? _] _]. Qed.
Lemma ready_root_free v per st w : root_ready v per st w -> root_free fleet m w.
Proof.
  intros [[H1 H2] _]. split; [by eapply in_flight_rotating|]. unfold stored in *. intros H. by simplify_eq.
Qed.

Lemma probe_reads self mac c : read_only (probe_bmc_vendor self mac c).
Proof.
  apply read_only_bind; [by apply read_only_bind; [intros [] w|]|]. intros [[[[]|]|]|]; try done; by intros [] w.
Qed.
Lemma resolve_reads t from to : read_only (resolve_dispatch_vendor t from to).
Proof.
  unfold resolve_dispatch_vendor. destruct (vendor t); [done|].
  apply read_only_bind; [|intros [[]|]]; [|done| |done].
  - apply read_only_bind; [apply probe_reads|done].
  - apply read_only_bind; [apply probe_reads|by intros []].
Qed.

Lemma converge_bmc_password_tick t v :
  device_mac t = m ->
  tick (in_flight Bmc v) (converge_bmc_password overrides t v) (fun _ => root_moved v) (in_flight Bmc v).
Proof.
  intros Hm. unfold converge_bmc_password. rewrite Hm.
  eapply then_mapped; [apply (read_secret_tick _ _ _ (fun c w => in_flight Bmc v w /\ stored m (Some c) w))|..]; [settle..| |settle|settle|settle|done|].
  { intros w c _ Hw Hc. by rewrite effective_root in Hc. }
  intros per.
  eapply then_mapped; [apply (read_secret_tick _ _ _ (root_ready v per))|..]; [settle..| |settle|settle|settle|by intros w [? _]|].
  { intros w c _ Hw Hc. split; [done|]. destruct Hw as [[[? Hn] _] _]. split; [|done]. unfold secret. by rewrite Hc. }
  intros st.
  eapply then_mapped; [apply (reads _ (root_ready v per st) (in_flight Bmc v)); [apply resolve_reads|settle|apply ready_in_flight]|settle..|done|].
  intros vd. set (to := UsernamePassword (username per) (password st)).
  eapply then_mapped; [eapply (change_or_recover_tick (root_ready v per st)); [settle|done| |done|done]|settle|settle|settle|apply ready_in_flight|].
  { intros w Hw. split; [by eapply ready_root_free|]. exists v. apply Hw. }
  intros conv.
  eapply (then_mapped _ _ _ _ (fun _ w => (in_flight Bmc v w /\ staged overrides Bmc site_wide_root v (password to) w /\ root_is m to w) /\ stored m (Some to) w)).
  - eapply spec_conseq; [apply (store_tick (fun w => in_flight Bmc v w /\ staged overrides Bmc site_wide_root v (password to) w /\ root_is m to w) to)|..].
    + settle.
    + intros w (H1 & H2 & H3). split; [exact H1|]. split; [|exact H3]. by apply staged_store.
    + intros w (H1 & H2 & H3). split; [done|by eapply in_flight_rotating].
    + intros w [[[H1 H2] H3] H4]. done.
    + done.
    + intros w [H1 _]. exact H1.
  - settle.
  - settle.
  - settle.
  - done.
  - intros []. apply spec_ret; [settle|]. intros w _ [(H1 & H2 & H3) H4]. split; [done|]. by exists to.
Qed.

(** ** Recording *)

Lemma delete_sessions_tick C :
  stab C -> (forall w f, C w -> C (set_sessions f w)) -> tick C (delete_sessions m) (fun _ => C) C.
Proof.
  intros HC Hany. apply spec_call; [apply guar_refl|done..|]. intros w Hw HI. simpl.
  assert (Hsame : forall m', same_device m' w (set_sessions (fun s => s ∖ {[ m ]}) w)) by done.
  assert (Hg : grows w (set_sessions (fun s => s ∖ {[ m ]}) w)) by (split; simpl; eauto with lia).
  destruct (inv_no_device overrides fleet (Tick m) w _ HI Hsame Hg) as [? ?].
  { by eapply published_grows; [..|apply HI]. }
  split_and!; auto.
Qed.

Lemma update_device_ok k q f t t' b :
  update_device k q f t = Ok (t', b) ->
  (t' = t /\ b = false) \/ exists r, devices t !! k = Some r /\ q r = true /\ t' = set_devices (<[k := f r]>) t /\ b = true.
Proof.
  unfold update_device. destruct (devices t !! k) as [r|]; [|intros [= <- <-]; by left].
  destruct (q r) eqn:Hq; [|intros [= <- <-]; by left]. intros (t1 & Ht1 & [= <- <-])%bind_ok.
  apply write_device_ok in Ht1 as ->. right. by exists r.
Qed.

Lemma promote_tick ty v P :
  stab P -> rotatable ty -> (forall w, P w -> in_flight ty v w) ->
  (forall w r, P w -> inv w -> current_version r = Some v ->
     (ty = Bmc -> root_inv overrides m r w) /\ (ty = DpuBmcService -> service_inv overrides m r w)) ->
  tick P (promote ty m) (fun _ => anything) anything.
Proof.
  intros HP Hty Hfl Hrow. eapply (then_ _ _ _ (fun _ => anything)); [|settle|by intros; apply spec_ret; settle].
  apply statement_tick; [settle..|done|]. intros w t a Hw HI Ht.
  apply bind_ok in Ht as ([t' b] & Ht & [= <- <-]). simpl. split; [|done].
  apply update_device_ok in Ht as [[-> _]|(r & Hr & Hq & -> & _)]; [rewrite set_tabs_id; by auto|].
  destruct (Hfl w Hw) as [[? (n & Hn & ?)] (r' & Hr' & Hv & _)]. unfold row_at in Hr'. simplify_eq.
  destruct (Hrow w (mk_device (Some v) None 0 (rotate_last_attempt_at r) None None (rotate_job_id r)) Hw HI eq_refl).
  rewrite Hv. apply row_written; [done| |done..]. exists n. split_and!; [done| |done|done]. intros u [= <-]. lia.
Qed.

Lemma quarantine_tick ty v s msg :
  rotatable ty -> tick (in_flight ty v) (quarantine ty m s msg) (fun _ => anything) anything.
Proof.
  intros Hty. eapply then_; [by apply (reads _ (in_flight ty v)); [|settle|]|settle|]. intros now.
  eapply then_; [by apply (reads _ (in_flight ty v)); [|settle|]|settle|]. intros [].
  eapply (then_ _ _ _ (fun _ => anything)); [|settle|by intros; apply spec_ret; settle].
  apply statement_tick; [settle..|done|]. intros w t [] Hw HI Ht.
  unfold no_result, increment_rotate_attempt in Ht. apply bind_ok in Ht as (t1 & Ht & [= <-]).
  apply bind_ok in Ht as ([t2 b] & Ht & [= <-]). split; [|done].
  apply update_device_ok in Ht as [[-> _]|(r & Hr & _ & -> & _)]; [rewrite set_tabs_id; by auto|].
  destruct Hw as [[? (n & Hn & ?)] (r' & Hr' & Hv & Hlt)]. unfold row_at in Hr'. simplify_eq.
  eapply (device_row_written ty); [done..|simpl; congruence|].
  destruct (row_inv_at _ _ _ Hty HI Hr') as (n' & Hn' & Hcur & Hrot & _). pose proof (target_unique _ _ _ _ Hn Hn') as <-.
  exists n. split_and!; [done|done|done|]. intros _. by apply (lt_not_reached v).
Qed.

Theorem rotate_bmc_tick t force :
  device_mac t = m -> tick anything (rotate_bmc overrides t force) (fun _ => anything) anything.
Proof.
  intros Hm. unfold rotate_bmc. rewrite Hm. eapply then_; [by apply enter_tick; left|settle|].
  intros [o|[s v]]; [by apply spec_ret; settle|].
  eapply then_; [apply tried; [by apply converge_bmc_password_tick|settle..]|settle|].
  intros [conv|[msg|msg]]; cbn [on_result].
  - eapply then_; [by apply (reads _ (root_moved v)); [|settle|]|settle|]. intros [].
    eapply then_; [eapply weaken; [by apply (delete_sessions_tick (root_moved v)); [settle|]|done]|settle|]. intros [].
    eapply then_; [apply (promote_tick Bmc v (root_moved v)); [settle|by left|by intros w [? _]|]|settle|by intros; apply spec_ret; settle].
    intros w r [_ (c & Hc & Hs & Hst)] _ Hr. split; [|done]. intros _. exists c, (password c).
    split_and!; [done|by destruct c|by left|]. intros _ u Hu. by simplify_eq.
  - apply quarantine_tick. by left.
  - apply spec_ret; settle.
Qed.

(** ** The service password *)

Definition service_moved (v : Z) (w : world) : Prop :=
  in_flight DpuBmcService v w /\
  exists p, service_is m p w /\ staged overrides DpuBmcService site_wide_dpu_bmc_service v p w.
Lemma stable_service_moved v : stab (service_moved v).
Proof. settle. Qed.
#[local] Hint Resolve stable_service_moved : stable.
Definition service_ready (v : Z) (p : string) (w : world) : Prop :=
  in_flight DpuBmcService v w /\ staged overrides DpuBmcService site_wide_dpu_bmc_service v p w.
Lemma stable_service_ready v p : stab (service_ready v p).
Proof. settle. Qed.
#[local] Hint Resolve stable_service_ready : stable.
Lemma ready_moved v p w : service_ready v p w /\ service_is m p w -> service_moved v w.
Proof. intros [[? ?] ?]. split; [done|]. by exists p. Qed.

Lemma converge_service_tick v :
  tick (in_flight DpuBmcService v) (converge_dpu_bmc_service_password overrides m v) (fun _ => service_moved v)
    (in_flight DpuBmcService v).
Proof.
  eapply then_; [apply (read_secret_tick _ _ _ (fun _ => in_flight DpuBmcService v)); [settle..|done]|settle|]. intros root.
  eapply then_; [apply (read_secret_tick _ _ _ (fun c => service_ready v (password c))); [settle..|]|settle|].
  { intros w c _ Hw Hc. split; [done|]. destruct Hw as [[? Hn] _]. split; [|done]. unfold secret. by rewrite Hc. }
  intros st. set (p := password st).
  eapply then_; [apply tried; [apply (change_service_tick (service_ready v p)); [settle|done|]|settle|settle]|settle|].
  { intros w [Hw _]. exact (in_flight_rotating _ _ _ Hw). }
  intros [u|e]; cbn [on_result]; [apply spec_ret; [settle|intros; by eapply ready_moved]|].
  eapply (then_ _ _ _ (fun r w => service_ready v p w /\ (r = Ok true -> service_is m p w))); [|settle|].
  - eapply spec_conseq; [apply (tried _ _ (fun (b : bool) w => service_ready v p w /\ (b = true -> service_is m p w)) (service_ready v p))|..].
    + apply bmc_reads; [settle..|]. intros w b Hw HI. unfold bmc_at. destruct (bmcs w !! m) as [b'|] eqn:Hb; [|done].
      intros [= <-]. split; [done|]. intros Hp%String.eqb_eq. by exists b'.
    + settle.
    + settle.
    + done.
    + intros [b|e'] w _ H; simpl in H; [destruct H as [? H]; split; [done|intros [= ->]; auto]|by split].
    + done.
  - intros [[|]|e']; [apply spec_ret|apply spec_raise..]; [settle| |settle| |settle|].
    + intros w _ [? H]. eapply ready_moved. eauto.
    + by intros w _ [[? _] _].
    + by intros w _ [[? _] _].
Qed.

Theorem rotate_service_tick force :
  tick anything (rotate_dpu_bmc_service overrides m force) (fun _ => anything) anything.
Proof.
  eapply then_; [by apply enter_tick; right|settle|].
  intros [o|[s v]]; [by apply spec_ret; settle|].
  eapply then_; [apply tried; [by apply converge_service_tick|settle..]|settle|].
  intros [conv|msg]; cbn [on_result].
  - eapply then_; [by apply (reads _ (service_moved v)); [|settle|]|settle|]. intros [].
    eapply then_; [apply (promote_tick DpuBmcService v (service_moved v)); [settle|by right|by intros w [? _]|]|settle|by intros; apply spec_ret; settle].
    intros w r [[_ (r' & Hr' & _)] (p & Hp & Hst)] HI Hr. split; [done|]. intros _.
    destruct (service_ok _ _ _ _ (inv_device _ _ _ HI m) r' Hr') as [(_ & _ & Hs & _) _].
    exists p. split_and!; [done..|]. intros _ u Hu. by simplify_eq.
  - apply quarantine_tick. by right.
Qed.
End Ticks.
#[export] Hint Resolve stable_row stable_stored stable_root stable_service stable_staged stable_at_least stable_anything
  stable_pure root_key service_key versioned_key : stable.
End RotationTicks.

(** Stability of an assertion, from that of its parts. *)
Ltac settle :=
  intros; cbv beta; repeat first [solve [eauto 2 with stable] | apply stable_and | apply stable_impl; intros | apply stable_exists; intros].
