(* ===== verification/RotationExplore.v ===== *)
(** * RotationExplore: explorations keep the invariant

    [explore_endpoint] of [SiteExplorer] on a device, under the invariant of
    [RotationSystem]: a device is enrolled only with its password stored, at a
    version whose password it has. *)

From S2P Require Import Prelude Text StateHandler Interleave CredentialRotation RotateCredential SiteExplorer RotationSystem RotationTicks.
Import StateHandler Interleave CredentialRotation RotateCredential SiteExplorer RotationSystem RotationTicks.

Module RotationExplore.
Section Explore.
Context (overrides : gmap CredentialKey Credentials) (fleet : string -> endpoint).
Hypothesis no_override : forall m, overrides !! BmcRoot m = None.
Hypothesis fleet_mac : forall m, ep_mac (fleet m) = m.
Context (m : string).
Abbreviation inv := (inv overrides fleet).
Abbreviation stab A := (stable (rely (Tick m)) inv A).
Abbreviation tick P p Q X := (spec (rely (Tick m)) (guar (Tick m)) inv P p Q X).
Abbreviation tick_err P p Q X := (triple (rely (Tick m)) (guar (Tick m)) inv P p (on_result Q X)).
Abbreviation anything := (fun _ : world => True).
#[local] Hint Resolve guar_refl root_key service_key versioned_key : core.

(** ** The credential client *)

(** [N] is what is known when there is no secret. *)
Lemma client_get_tick k C (D : Credentials -> world -> Prop) (N : world -> Prop) :
  stab C -> (forall c, stab (D c)) -> stab N ->
  (forall w c, inv w -> C w -> effective overrides w k = Some c -> D c w) ->
  (forall w, inv w -> C w -> effective overrides w k = None -> N w) ->
  tick_err C (client_get_credentials overrides k) D
    (fun e w => C w /\ match e with MissingCredentials _ => N w | _ => True end).
Proof.
  intros HC HD HN Hsome Hnone w Hw r w' HR HI. assert (Hw' : C w') by (by eapply HC).
  destruct r as [|msg|msg]; simpl; split_and!; auto.
  - destruct (effective overrides w' k) as [c|] eqn:Ek; simpl.
    + destruct (String.eqb (password c) ""); simpl; intros w'' HR' HI'; [split; [by eapply HC|done]|].
      by apply (HD c w'); [apply Hsome|..].
    + intros w'' HR' HI'. split; [by eapply HC|]. by apply (HN w'); [apply Hnone|..].
  - intros w'' HR' HI'. split; [by eapply HC|done].
  - intros w'' HR' HI'. split; [by eapply HC|done].
Qed.
Lemma client_get_spec k C (D : Credentials -> world -> Prop) :
  stab C -> (forall c, stab (D c)) -> (forall w c, inv w -> C w -> effective overrides w k = Some c -> D c w) ->
  tick C (client_get_credentials overrides k) D C.
Proof.
  intros HC HD H. eapply triple_conseq; [by apply (client_get_tick k C D anything)|done|].
  intros [c|e] w HI; simpl; [done|]. by intros [? _].
Qed.

Lemma client_get_reads k : read_only (client_get_credentials overrides k).
Proof.
  apply read_only_bind; [by intros [] w|]. intros [[c|]|]; simpl; [|done..]. by destruct (String.eqb (password c) "").
Qed.
Lemma try_reads {E F A} (p : M world E A) : read_only p -> read_only (try p : M world F _).
Proof. intros H. by apply read_only_bind. Qed.
Lemma mapped_reads {E F A} (g : E -> F) (p : M world E A) : read_only p -> read_only (map_error g p).
Proof. intros H. by apply read_only_bind. Qed.
Lemma then_reads {E A B} (p : M world E A) (f : A -> M world E B) :
  read_only p -> (forall a, read_only (f a)) -> read_only (p ≫= f).
Proof. intros Hp Hf. apply read_only_bind; [done|]. by intros [a|e]; [apply Hf|]. Qed.
Lemma call_reads {E A} (err : string -> E) (f : world -> result E A) : read_only (call err (fun w => (w, f w))).
Proof. by intros [] w. Qed.
#[local] Hint Resolve client_get_reads try_reads mapped_reads call_reads : core.

Lemma product_reads e : read_only (get_redfish_product e).
Proof. apply mapped_reads, call_reads. Qed.
Lemma validate_reads mac c : read_only (validate_bmc_credentials mac c).
Proof. apply mapped_reads, call_reads. Qed.
#[local] Hint Resolve product_reads validate_reads : core.
Lemma resolve_vendor_reads e : read_only (resolve_redfish_vendor overrides e).
Proof.
  apply then_reads; [apply try_reads, mapped_reads, call_reads|]. intros [v|err]; [done|].
  destruct (ep_expected e) as [[| d |]|]; try done. apply then_reads; [auto|]. intros c.
  apply then_reads; [apply try_reads, mapped_reads, call_reads|]. intros [name|]; [|done]. by destruct (manufacturer_vendor name).
Qed.
Lemma established_reads mac v c last : read_only (explore_established mac v c last).
Proof.
  apply then_reads; [apply try_reads, validate_reads|]. intros [|[]]; try done. by destruct (intermittent_vendor v).
Qed.
Lemma factory_reads model : read_only (get_dpu_factory_default_credentials overrides model).
Proof.
  apply then_reads; [auto|]. intros [c|e]; [done|]. apply then_reads; [|by intros []].
  destruct (decide (model = UnknownDpu)); [done|auto].
Qed.
Lemma hint_reads e : read_only (get_dpu_model_hint e).
Proof. apply then_reads; [auto|done]. Qed.

(** ** Enrolling *)

Definition fresh (w : world) : Prop := stored m None w /\ row_at m Bmc None w /\ row_at m DpuBmcService None w.
Lemma stable_fresh : stab fresh.
Proof. settle. Qed.
#[local] Hint Resolve stable_fresh : stable.
Definition established (c : Credentials) (w : world) : Prop := stored m (Some c) w /\ row_at m DpuBmcService None w.
Lemma stable_established c : stab (established c).
Proof. settle. Qed.
#[local] Hint Resolve stable_established : stable.

Lemma current_version_tick ty C :
  rotatable ty -> stab C ->
  tick C (current_sitewide_version ty) (fun v w => C w /\ at_least ty v w) C.
Proof.
  intros Hty HC. eapply (then_ _ _ _ _ _ _ (fun o w => C w /\ match o with Some v => 0 <= v -> at_least ty v w | None => True end)); [|done|].
  - apply statement_tick; [settle|intros [v|]; settle|settle|done|]. intros w t o Hw HI [= <- <-]. rewrite set_tabs_id.
    split; [by auto|]. split; [done|]. split; [done|]. unfold current_target_version.
    destruct (sitewide (tabs w) !! ty) as [s|] eqn:Es; simpl; [|done]. intros Hv. split; [done|].
    exists (target_version s). split; [by exists s|lia].
  - intros [v|]; [|apply spec_raise; [settle|by intros w _ [? _]]].
    destruct (Z.ltb_spec v 0); [apply spec_raise; [settle|by intros w _ [? _]]|].
    apply spec_ret; [settle|]. intros w _ [? H']. auto.
Qed.

(** The row of a device that was just established. *)
Lemma record_enrolled_tick ty v P Q :
  stab P -> stab Q -> rotatable ty -> (forall w r, P w -> Q (with_row m ty r w)) ->
  (forall w, P w -> row_at m ty None w /\ forall u, v = Some u -> at_least ty u w) ->
  (forall w r, P w -> inv w -> current_version r = v ->
     (ty = Bmc -> root_inv overrides m r w) /\ (ty = DpuBmcService -> service_inv overrides m r w)) ->
  tick_err P (record_enrolled m ty v) (fun _ => Q) (fun e _ => exists cause, e = SetCredentials cause).
Proof.
  intros HP HQ Hty HPQ Hfree Hrow. set (r := mk_device v None 0 None None None None).
  assert (Hw : forall w, P w -> inv w -> inv (with_row m ty r w) /\ guar (Tick m) w (with_row m ty r w)).
  { intros w Hw HI. destruct (Hfree w Hw) as [_ Hat]. destruct (Hrow w r Hw HI eq_refl).
    apply row_written; [done| |done..]. assert (exists n, target_is ty n w) as [n Hn].
    { destruct (inv_seeded _ _ _ HI) as (? & ? & _). by destruct Hty as [-> | ->]. }
    exists n. split_and!; [done| |done|done]. intros u Hu. destruct (Hat u Hu) as [? (n' & Hn' & ?)].
    pose proof (target_unique _ _ _ _ Hn Hn') as <-. lia. }
  assert (Hst : forall w, P w -> inv w ->
    match no_result (record_device_enrolled m ty v (tabs w)) with
    | Ok (t, _) => set_tabs t w = with_row m ty r w
    | Err _ => True
    end).
  { intros w Hw' _. destruct (Hfree w Hw') as [Hnone _]. unfold record_device_enrolled, row_at in *. rewrite Hnone.
    unfold no_result, write_device. destruct (row_ok _); [|done]. simpl. done. }
  apply triple_call; [apply guar_refl|settle|settle|by intros e w w' ?| |by intros w msg _ _; split; eexists].
  intros w HPw HI. specialize (Hst w HPw HI). destruct (no_result _) as [[t []]|e]; simpl.
  - rewrite Hst. destruct (Hw w HPw HI). split_and!; auto.
  - split_and!; [done|auto|by eexists].
Qed.

Definition not_recorded (e : EndpointExplorationError) (_ : world) : Prop := exists cause, e = SetCredentials cause.
Lemma stable_not_recorded e : stab (not_recorded e).
Proof. by intros w w' ?. Qed.
#[local] Hint Resolve stable_not_recorded : stable.

(** A password that the BMC has, of version [v] if it has one. *)
Definition to_enrol (c : Credentials) (v : option Z) (w : world) : Prop :=
  root_is m c w /\ (row_at m Bmc None w /\ row_at m DpuBmcService None w) /\
  forall u, v = Some u -> staged overrides Bmc site_wide_root u (password c) w.
Lemma stable_to_enrol c v : stab (to_enrol c v).
Proof.
  apply stable_and; [settle|]. apply stable_and; [settle|]. intros w w' H HR HI u Hu. eapply stable_staged; eauto.
Qed.
#[local] Hint Resolve stable_to_enrol : stable.

Lemma set_bmc_root_credentials_tick c v :
  tick_err (to_enrol c v) (set_bmc_root_credentials m c v) (fun _ => established c) not_recorded.
Proof.
  eapply (hoare_bind _ _ _ _ _ _ (fun _ w => to_enrol c v w /\ stored m (Some c) w)); [|settle|].
  - apply triple_map_error; [apply _| |settle|settle].
    eapply triple_conseq; [apply (store_tick overrides fleet m (to_enrol c v) c); [settle|..]|done|].
    + intros w (H1 & H2 & H3). split; [exact H1|]. split; [exact H2|]. intros u Hu. by apply staged_store, H3.
    + intros w (H1 & [H2 _] & _). split; [done|]. intros r Hr. unfold row_at in *. congruence.
    + intros [[]|e] w _ H; simpl in *; [exact H|by eexists].
  - intros []. apply record_enrolled_tick; [settle|settle|by left| | |].
    + intros w r [(_ & [_ H2] & _) H3]. split; [exact H3|]. unfold row_at in *. simpl. by rewrite lookup_insert_ne.
    + intros w [(_ & [H1 _] & H2) _]. split; [done|]. intros u Hu. by destruct (H2 u Hu).
    + intros w r [(H1 & _ & H2) H3] HI Hv. split; [|done]. intros _. exists c, (password c).
      split_and!; [done|by destruct c|by left|]. intros _ u Hu. split; [done|]. apply H2. congruence.
Qed.

(** ** The root password of a new device *)

Lemma sitewide_tick v C :
  stab C -> (forall w, C w -> at_least Bmc v w) ->
  tick C (get_sitewide_bmc_root_credentials overrides v)
    (fun c w => C w /\ staged overrides Bmc site_wide_root v (password c) w) C.
Proof.
  intros HC Hat. apply client_get_spec; [done|settle|]. intros w c _ Hw Hc. split; [done|]. destruct (Hat w Hw) as [? Hn].
  split; [|done]. unfold secret. by rewrite Hc.
Qed.

Definition data_ok (d : BmcCredentialsData) : Prop :=
  retained fleet m = if retain_credentials d then Some (data_credentials d) else None.

(** What a second attempt starts from. *)
Definition retriable (e : EndpointExplorationError) (w : world) : Prop :=
  match e with Unauthorized | MissingCredentials _ => fresh w | _ => True end.
Lemma stable_retriable e : stab (retriable e).
Proof. destruct e; settle. Qed.
#[local] Hint Resolve stable_retriable : stable.
Lemma fresh_retriable {A} P (p : M world EndpointExplorationError A) Q : tick P p Q fresh -> tick_err P p Q retriable.
Proof.
  intros H. eapply triple_conseq; [exact H|done|]. intros [a|e] w _; simpl; [done|]. intros ?. by destruct e.
Qed.

Lemma move_tick v d :
  data_ok d -> retain_credentials d = false ->
  tick fresh
    (version ← current_sitewide_version Bmc;
     sitewide ← get_sitewide_bmc_root_credentials overrides version;
     c ← client_set_bmc_root_password m v (data_credentials d) (password sitewide);
     mret (c, Some version))
    (fun r => to_enrol r.1 r.2) fresh.
Proof.
  intros Hd Hret. unfold data_ok in Hd. rewrite Hret in Hd.
  eapply then_; [by apply current_version_tick; [left|settle]|settle|]. intros ver.
  eapply then_; [eapply weaken; [apply sitewide_tick; [settle|by intros w [_ ?]]|by intros w [? _]]|settle|]. intros st.
  set (C := fun w => (fresh w /\ at_least Bmc ver w) /\ staged overrides Bmc site_wide_root ver (password st) w).
  assert (HC : stab C) by settle.
  eapply (then_ _ _ _ _ _ _ (fun c w => to_enrol c (Some ver) w)); [|settle|intros c; by apply spec_ret; settle].
  eapply then_mapped; [eapply (set_bmc_root_password_tick overrides fleet m C); [done|done|]|settle|done|settle|by intros w [[? _] _]|].
  - intros w [[(H1 & H2 & _) _] H3]. split; [|by exists ver]. split; [|done]. unfold row_at in *. intros r Hr. congruence.
  - intros []. apply spec_ret; [settle|]. intros w _ [[[(_ & H1 & H2) _] H3] H4]. split; [exact H4|]. split; [done|].
    intros u [= <-]. exact H3.
Qed.

Lemma set_sitewide_tick v d :
  data_ok d -> tick_err fresh (set_sitewide_bmc_root_password overrides m v d) established retriable.
Proof.
  intros Hd. unfold set_sitewide_bmc_root_password. destruct (String.eqb _ ""); [apply hoare_ret; [settle|done]|].
  eapply (hoare_bind _ _ _ _ _ _ (fun r => to_enrol r.1 r.2)); [apply fresh_retriable|settle|].
  - destruct (retain_credentials d) eqn:Hret; [|by apply move_tick].
    apply spec_ret; [settle|]. intros w HI (H1 & H2 & H3). unfold data_ok in Hd. rewrite Hret in Hd.
    split; [|by split]. by apply (retained_ok _ _ _ _ (inv_device _ _ _ HI m)).
  - intros [c o]. eapply (hoare_bind _ _ _ _ _ _ (fun _ => established c)); [eapply triple_conseq; [apply set_bmc_root_credentials_tick|done|]|settle|].
    + intros [[]|e] w _ H; simpl in *; [exact H|]. by destruct H as [? ->].
    + intros []. apply hoare_ret; [settle|done].
Qed.

Lemma try_sitewide_tick user : tick fresh (try_sitewide_bmc_root_credentials overrides m user) established anything.
Proof.
  eapply then_; [eapply weaken; [by apply current_version_tick; [left|settle]|done]|settle|]. intros ver.
  eapply then_; [eapply weaken; [apply sitewide_tick; [settle|by intros w [_ ?]]|done]|settle|]. intros st.
  set (c := UsernamePassword user (password st)).
  eapply (then_ _ _ _ _ _ _ (fun _ => to_enrol c (Some ver))); [|settle|].
  - eapply weaken; [apply mapped; [apply bmc_reads|..]; [settle..| |settle|settle]|done].
    intros w [] [[(_ & H1 & H2) _] H3] _. unfold bmc_at. destruct (bmcs w !! m) as [b|] eqn:Hb; [|done].
    destruct (authenticates c b) eqn:Ha; [|done]. intros _. split; [by eapply authenticates_root|]. split; [done|].
    intros u [= <-]. exact H3.
  - intros []. eapply (then_ _ _ _ _ _ _ (fun _ => established c)); [|settle|intros []; by apply spec_ret; settle].
    eapply triple_conseq; [apply set_bmc_root_credentials_tick|done|]. by intros [[]|e] w _ H.
Qed.

(** ** The service password of a new device *)

Lemma service_password_tick v create generated C :
  stab C -> (forall w, C w -> at_least DpuBmcService v w) ->
  tick C (get_sitewide_dpu_bmc_service_password overrides v create generated)
    (fun p w => C w /\ staged overrides DpuBmcService site_wide_dpu_bmc_service v p w) C.
Proof.
  intros HC Hat.
  eapply (then_ _ _ _ _ _ _ (on_result
    (fun c w => C w /\ staged overrides DpuBmcService site_wide_dpu_bmc_service v (password c) w)
    (fun e w => C w /\ match e with MissingCredentials _ => v <> 0 | _ => True end))); [|done|].
  - apply triple_try; [apply _| |intros [|[]]; settle].
    apply (client_get_tick _ C _ (fun _ => v <> 0)); [done|settle|settle|..].
    + intros w c _ Hw Hc. split; [done|]. destruct (Hat w Hw) as [? Hn]. split; [|done]. unfold secret. by rewrite Hc.
    + intros w HI _ Hn ->. destruct (inv_seeded _ _ _ HI) as (_ & _ & [c Hc]).
      unfold site_wide_dpu_bmc_service in Hn. simpl in Hn. congruence.
  - intros [c|e]; [by apply spec_ret; settle|]. destruct e; try (apply spec_raise; [settle|by intros w _ [? _]]).
    destruct (Z.eqb_spec v 0) as [->|Hv]; [|rewrite andb_false_r; apply spec_raise; [settle|by intros w _ [? _]]].
    rewrite andb_true_r. intros w [_ Hne]. done.
Qed.

Lemma service_bootstrap_tick c root generated :
  tick (established c) (rotate_dpu_service_password_from_factory_defaults overrides m root generated)
    (fun _ => anything) anything.
Proof.
  eapply then_; [eapply weaken; [by apply current_version_tick; [right|settle]|done]|settle|]. intros ver.
  eapply then_; [eapply weaken; [apply service_password_tick; [settle|by intros w [_ ?]]|done]|settle|]. intros p.
  set (C := fun w => (established c w /\ at_least DpuBmcService ver w) /\ staged overrides DpuBmcService site_wide_dpu_bmc_service ver p w).
  assert (HC : stab C) by settle.
  eapply then_mapped; [apply (change_service_tick overrides fleet m C HC); [done|]|settle|done|settle|done|].
  { intros w [[[_ Hn] _] _] r Hr. unfold row_at in *. congruence. }
  intros []. eapply triple_conseq; [apply (record_enrolled_tick _ _ (fun w => C w /\ service_is m p w) anything); [settle|settle|by right|done|..]|done|by intros [] w].
  - intros w [[[[_ H1] H2] _] _]. split; [done|]. by intros u [= <-].
  - intros w r [[[[H1 _] _] H2] H3] _ Hv. split; [done|]. intros _. exists p. split_and!; [done| |].
    + unfold stored in H1. rewrite H1. by exists c.
    + intros _ u Hu. simplify_eq. congruence.
Qed.

(** ** Explorations *)

Lemma data_of_expected x : ep_expected (fleet m) = Some x -> data_ok (bmc_credentials_data x).
Proof. unfold data_ok, retained. by intros ->. Qed.
Lemma data_of_default c : ep_expected (fleet m) = None -> data_ok (mk_data c false).
Proof. unfold data_ok, retained. by intros ->. Qed.

Lemma bootstrap_tick v generated :
  tick fresh (bootstrap overrides (fleet m) v generated) (fun _ => anything) anything.
Proof.
  unfold bootstrap. rewrite fleet_mac.
  eapply then_; [apply (reads _ _ _ _ fresh); [|settle|done]|settle|].
  { destruct (ep_expected (fleet m)); [done|]. destruct v; try done.
    apply then_reads; [apply hint_reads|]. intros model. apply then_reads; [apply factory_reads|done]. }
  intros factory. eapply then_; [apply (reads _ _ _ _ fresh); [auto|settle|done]|settle|]. intros product.
  eapply (then_ _ _ _ _ _ _ (fun d w => fresh w /\ data_ok d)); [|settle|].
  { destruct (ep_expected (fleet m)) as [x|] eqn:Ex; [|destruct factory as [c|]; [|by apply spec_raise; settle]];
      apply spec_ret; [settle| |settle|]; intros w _ Hw; (split; [done|]); [by apply data_of_expected|by apply data_of_default]. }
  intros d.
  eapply (then_ _ _ _ _ _ _ (on_result established retriable)); [|settle|].
  { apply hoare_pure. intros Hd. apply triple_try; [apply _|by apply set_sitewide_tick|]. intros [c|e]; [exact (stable_established c)|exact (stable_retriable e)]. }
  intros r. eapply (then_ _ _ _ _ _ _ established); [|settle|].
  { destruct r as [c|e]; [by apply spec_ret; settle|].
    destruct e; try (by apply spec_raise; settle); apply try_sitewide_tick. }
  intros c. eapply (then_ _ _ _ _ _ _ (fun _ => anything)); [|settle|].
  { destruct (is_bf4_product product); [apply service_bootstrap_tick|by apply spec_ret; settle]. }
  intros []. apply reads; [auto|settle|done].
Qed.

Lemma nvos_stored_tick c P :
  stab P -> tick P (client_set_credentials (SwitchNvosAdmin m) c) (fun _ => anything) anything.
Proof.
  intros HP. apply mapped; [|settle..]. apply spec_call; [apply guar_refl|settle..|done|]. intros w _ HI. simpl.
  set (w' := set_vault _ w).
  assert (Hsame : forall m', same_device m' w w').
  { intros m'. split; simpl; [done| |done]. by rewrite lookup_insert_ne. }
  assert (Hg : grows w w').
  { split; simpl; eauto with lia. intros k c' Hk Hc. rewrite lookup_insert_ne; [done|]. by intros <-. }
  destruct (inv_no_device overrides fleet (Tick m) w w' HI Hsame Hg); [|by auto].
  by eapply published_grows; [..|apply HI].
Qed.

Lemma no_credentials_fresh w : inv w -> True -> effective overrides w (BmcRoot m) = None -> fresh w.
Proof.
  intros HI _ Hn. rewrite effective_root in Hn by done. destruct (inv_device _ _ _ HI m) as [H1 H2 _].
  split; [done|]. split; unfold row_at.
  - destruct (devices (tabs w) !! (m, Bmc)) as [r|] eqn:Hr; [|done]. destruct (H1 r Hr) as [(c & p & Hc & _) _].
    unfold stored in Hc. congruence.
  - destruct (devices (tabs w) !! (m, DpuBmcService)) as [r|] eqn:Hr; [|done]. destruct (H2 r Hr) as [(p & _ & [c Hc] & _) _].
    congruence.
Qed.

Theorem explore_tick rotate_nvos generated last :
  tick anything (explore_endpoint overrides rotate_nvos (fleet m) generated last) (fun _ => anything) anything.
Proof.
  unfold explore_endpoint. destruct (match last with Some l => is_unauthorized l | None => false end); [by apply spec_raise; settle|].
  eapply then_; [by apply (reads _ _ _ _ anything); [apply resolve_vendor_reads|settle|]|settle|]. intros v.
  rewrite fleet_mac.
  eapply (then_ _ _ _ _ _ _ (fun r w => match r with Err (MissingCredentials _) => fresh w | _ => True end)); [|settle|].
  { apply triple_try; [apply _| |intros [|[]]; settle].
    eapply triple_conseq; [by apply (client_get_tick (BmcRoot m) anything (fun _ => anything) fresh); [settle|settle|settle| |apply no_credentials_fresh]|done|].
    intros [c|e] w _ H; simpl in *; [done|]. destruct e; try done. apply H. }
  intros r. eapply (then_ _ _ _ _ _ _ (fun _ => anything)); [|settle|].
  { destruct r as [c|e]; [apply reads; [apply established_reads|settle|done]|].
    destruct e; try (by apply spec_raise; settle). apply bootstrap_tick. }
  intros []. destruct (ep_expected (fleet m)) as [[d|d|d [u|] [p|]]|]; try (by apply spec_ret; settle).
  destruct rotate_nvos; [|by apply spec_ret; settle].
  eapply then_; [by apply (reads _ _ _ _ anything); [auto|settle|]|settle|]. intros [c|e]; [by apply spec_ret; settle|].
  eapply then_; [by apply nvos_stored_tick; settle|settle|]. intros []. by apply spec_ret; settle.
Qed.
End Explore.
End RotationExplore.
