(* ===== verification/RotationRequests.v ===== *)
(** * RotationRequests: requests stage what they publish

    [rotate_credential] of [RotateCredential] keeps the invariant of [RotationSystem]
    whatever else runs: a version becomes the target of a family only after its
    secret is stored and read back. *)

From S2P Require Import Prelude Text StateHandler Interleave CredentialRotation RotateCredential SiteExplorer RotationSystem RotationTicks.
Import StateHandler Interleave CredentialRotation RotateCredential SiteExplorer RotationSystem.

Module RotationRequests.
Section Requests.
Context (overrides : gmap CredentialKey Credentials) (fleet : string -> endpoint) (backend : option bool).
Context (n : nat).
Abbreviation inv := (inv overrides fleet).
Abbreviation stab A := (stable (rely (Request n)) inv A).
Abbreviation request P p Q X := (spec (rely (Request n)) (guar (Request n)) inv P p Q X).
Abbreviation anything := (fun _ : world => True).
#[local] Hint Resolve guar_refl versioned_key : core.

(** A secret of the site. *)
Definition holds (k : CredentialKey) (c : Credentials) (w : world) : Prop := effective overrides w k = Some c.
Lemma stable_holds k c : per_device k = false -> stab (holds k c).
Proof. intros Hk w w' H [_ Hg] _. by eapply effective_grows. Qed.
Lemma stable_reached_target ty v : stab (fun w => exists t, target_is ty t w /\ v <= t).
Proof.
  intros w w' (t & Ht & ?) [_ Hg] _. destruct (target_grows _ _ _ _ Hg Ht) as (t' & ? & ?). exists t'. split; [done|lia].
Qed.
#[local] Hint Resolve stable_holds stable_reached_target stable_pure : stable.

Lemma next_ {E A B} P (p : M world E A) (f : A -> M world E B) Y Q X :
  request P p Y X -> stab X -> (forall a, request (Y a) (f a) Q X) -> request P (p ≫= f) Q X.
Proof. intros. by eapply spec_bind; [apply _|..]. Qed.
Lemma reads_ {E A} (p : M world E A) P : read_only p -> stab P -> request P p (fun _ => P) anything.
Proof. intros Hp HP. eapply spec_conseq; [by apply read_only_spec; [apply guar_refl|..]|done|done|done]. Qed.
Lemma done_ {E A} (a : A) (P : world -> Prop) (Q : A -> world -> Prop) :
  stab P -> (forall w, P w -> Q a w) -> request P (Ret (Ok a) : M world E A) Q anything.
Proof. intros. apply spec_ret; auto. Qed.
Lemma stop_ {E A} (e : E) (P : world -> Prop) (Q : A -> world -> Prop) :
  stab P -> request P (raise e) Q anything.
Proof. intros. by apply spec_raise. Qed.

(** ** Staging *)

Lemma created k c w :
  inv w -> per_device k = false -> vault w !! k = None ->
  let w' := set_vault (<[k := c]>) w in inv w' /\ guar (Request n) w w'.
Proof.
  intros HI Hk Hn w'. assert (Hg : grows w w').
  { split; simpl; eauto with lia. intros k' c' _ Hc'. rewrite lookup_insert_ne; [done|]. intros <-. congruence. }
  apply inv_no_device; [done| |done|].
  - intros m. split; simpl; [done| |done]. rewrite lookup_insert_ne; [done|]. by intros ->.
  - by eapply published_grows; [..|apply HI].
Qed.
Lemma create_request k c : per_device k = false -> request anything (create_credentials k c) (fun _ => anything) anything.
Proof.
  intros Hk. apply spec_call; [apply guar_refl|settle..|done|]. intros w _ HI.
  destruct (vault w !! k) eqn:Ev; [by auto|]. destruct (created k c w HI Hk Ev). by auto.
Qed.

(** The secret is there, and the one that was asked for if one was. *)
Lemma stage_request k c op :
  per_device k = false ->
  request anything (stage_versioned_secret overrides k c op)
    (fun _ w => exists c', holds k c' w /\ (op = true -> c' = c)) anything.
Proof.
  intros Hk. eapply (next_ _ _ _ (fun _ => anything)); [|settle|].
  { eapply spec_conseq; [apply (spec_try _ _ _ _ _ (fun _ => anything) anything anything); [by apply create_request|settle..]|done|by intros [] w|done]. }
  intros cr. eapply (next_ _ _ _ (fun st _ => op = true -> st = c)); [|settle|].
  { destruct cr; [by apply done_; settle|].
    eapply next_; [apply reads_; [by apply read_only_bind; [intros [] w|]|settle]|settle|].
    intros [[ex|]|]; [|by apply stop_; settle..]. destruct (op && negb (bool_decide (ex = c))) eqn:Eo; [by apply stop_; settle|].
    apply done_; [settle|]. intros w _ ->. simpl in Eo. apply negb_false_iff in Eo. by apply bool_decide_eq_true in Eo. }
  intros st. eapply next_; [apply reads_; [by apply read_only_bind; [intros [] w|]|settle]|settle|]. intros per.
  eapply next_; [by apply reads_; [unfold require; destruct (bool_decide _)|settle]|settle|]. intros [].
  eapply (next_ _ _ _ (fun o w => (op = true -> st = c) /\ (o = Some st -> holds k st w))); [|settle|].
  - apply spec_map_error; [apply _| |settle|settle].
    eapply (spec_conseq _ _ _ _ (fun _ => op = true -> st = c) _ _ (fun o w => (op = true -> st = c) /\ (o = Some st -> holds k st w))); [apply spec_read; [apply guar_refl|settle|settle|]|done|done|done].
    intros w b Hw _ [= <-]. by split.
  - intros o. unfold require. destruct (bool_decide _) eqn:Eb; [|by apply stop_; settle].
    apply bool_decide_eq_true in Eb as ->. apply done_; [settle|]. intros w [H1 H2]. exists st. auto.
Qed.

(** ** Publishing *)

Definition promise (req : RotateCredentialRequest) (v : Z) (w : world) : Prop :=
  exists c, holds (versioned_rotation_key (credential_type req) v) c w /\
    (forall p, supplied req = Some p -> validate_password_strength p = true /\ c = UsernamePassword "" p) /\
    exists t, target_is (credential_type req) t w /\ v <= t.
Lemma stable_promise req v : stab (promise req v).
Proof. apply stable_exists. intros c. apply stable_and; [settle|]. apply stable_and; [settle|apply stable_reached_target]. Qed.

Lemma targets_published ty s' w q :
  inv w -> is_Some (effective overrides w (versioned_rotation_key ty (target_version s'))) -> 0 <= target_version s' ->
  (forall s, sitewide (tabs w) !! ty = Some s -> target_version s <= target_version s') ->
  let w' := set_queue q (set_tabs (set_sitewide (<[ty := s']>) (tabs w)) w) in inv w' /\ guar (Request n) w w'.
Proof.
  intros HI Hk Hv Hle w'. assert (Hg : grows w w').
  { split; simpl; eauto with lia. intros ty' s Hs. destruct (decide (ty = ty')) as [<-|Hne].
    - exists s'. rewrite lookup_insert_eq. auto.
    - exists s. rewrite lookup_insert_ne by done. split; [done|lia]. }
  apply inv_no_device; [done|done|done|]. intros ty' s. simpl. intros [[<- <-]|[_ Hs]]%lookup_insert_Some; [done|].
  exact (inv_published _ _ _ HI ty' s Hs).
Qed.

Definition next_version (cur : option Z) : Z := match cur with Some c => c + 1 | None => 0 end.

Lemma queued ty f w : exists q, (if decide (ty = Nvos) then set_queue f w else w) = set_queue q w.
Proof. case_decide; [by exists f|]. exists id. by destruct w. Qed.

Lemma publish_request ty cur c :
  request (holds (versioned_rotation_key ty (next_version cur)) c) (publish ty cur)
    (fun s w => target_version s = next_version cur /\ holds (versioned_rotation_key ty (next_version cur)) c w /\
       exists t, target_is ty t w /\ next_version cur <= t) anything.
Proof.
  apply spec_call; [apply guar_refl|settle..|done|]. intros w Hw HI.
  assert (Hpub : forall s' f, target_version s' = next_version cur -> 0 <= next_version cur ->
    (forall s, sitewide (tabs w) !! ty = Some s -> target_version s <= target_version s') ->
    let w0 := set_tabs (set_sitewide (<[ty := s']>) (tabs w)) w in
    let w' := if decide (ty = Nvos) then set_queue f w0 else w0 in
    inv w' /\ guar (Request n) w w' /\ True /\ forall s, Ok (E := ApiError) s' = Ok s ->
      target_version s = next_version cur /\ holds (versioned_rotation_key ty (next_version cur)) c w' /\
      exists t, target_is ty t w' /\ next_version cur <= t).
  { intros s' f Ev Hv Hle w0 w'. destruct (queued ty f w0) as [q Hq]. unfold w'. rewrite Hq.
    destruct (targets_published ty s' w q HI) as [H1 H2]; [rewrite Ev; by exists c|lia|done|].
    split_and!; [done..|]. intros s [= <-]. split; [done|]. split; [exact Hw|]. exists (next_version cur).
    split; [|lia]. exists s'. simpl. by rewrite lookup_insert_eq. }
  destruct cur as [cur|]; simpl in *.
  - unfold set_next_target_version. destruct (sitewide (tabs w) !! ty) as [s|] eqn:Es; [|by auto].
    destruct (Z.eqb_spec (target_version s) cur) as [<-|]; [|by auto].
    destruct (in_i32 (target_version s + 1)) eqn:Ei; [|by auto]. apply andb_prop in Ei as [Ei _]. apply Z.leb_le in Ei.
    apply (Hpub (mk_staged (target_version s + 1) (clock w))); [done|done|]. intros ? [= <-]. simpl. lia.
  - unfold set_initial_target_version. destruct (sitewide (tabs w) !! ty) as [s|] eqn:Es; [by auto|].
    by apply (Hpub (mk_staged 0 (clock w))).
Qed.

Lemma missing_sources_reads gaps : read_only (missing_sources overrides gaps).
Proof.
  induction gaps as [|[[id [mac|]] []] gaps IH]; [done|..];
    try (by apply read_only_bind; [exact IH|intros []]).
  apply read_only_bind; [by apply read_only_bind; [intros [] w|]|]. intros [c|]; [|done].
  by apply read_only_bind; [exact IH|intros []].
Qed.
Lemma require_sources_reads : read_only (require_nvos_credential_sources overrides).
Proof.
  apply read_only_bind; [by intros [] []|]. intros [gaps|]; [|done]. apply read_only_bind; [apply missing_sources_reads|].
  by intros [[]|].
Qed.

Theorem rotate_credential_request req :
  request anything (rotate_credential overrides backend req) (promise req) anything.
Proof.
  unfold rotate_credential. set (ty := credential_type req).
  eapply next_; [by apply (reads_ _ anything); [case_decide; [destruct backend as [[]|]; try done; apply require_sources_reads|done]|settle]|settle|]. intros [].
  eapply (next_ _ _ _ (fun pw _ => forall p, supplied req = Some p -> validate_password_strength p = true /\ pw = p)); [|settle|].
  { destruct (supplied req) as [p|]; [|by apply done_; settle].
    destruct (validate_password_strength p) eqn:Ep; [|by apply stop_; settle]. apply done_; [settle|]. by intros w _ ? [= <-]. }
  intros pw. set (C := forall p, supplied req = Some p -> validate_password_strength p = true /\ pw = p).
  eapply next_; [apply reads_; [|apply (stable_pure _ _ C)]|settle|].
  { intros [] w; simpl; split; by destruct w. }
  intros cur. eapply (next_ _ _ _ (fun v _ => C /\ v = next_version cur)); [|settle|].
  { destruct cur as [cur|]; [destruct (_ <=? _)|case_decide];
      first [by apply stop_; settle|apply done_; [settle|done]]. }
  intros v. eapply (next_ _ _ _ (fun _ w => (exists c, holds (versioned_rotation_key ty (next_version cur)) c w /\
      forall p, supplied req = Some p -> validate_password_strength p = true /\ c = UsernamePassword "" p) /\ v = next_version cur)); [|settle|].
  { intros w [HC ->]. refine (spec_conseq _ _ _ anything _ _ _ _ _ _ (stage_request _ _ _ (versioned_key ty _)) _ _ _ w I); [done| |done].
    intros [] w' _ (c & Hc & Hop). split; [|done]. exists c. split; [exact Hc|]. intros p Hp. destruct (HC p Hp) as [? <-].
    split; [done|]. apply Hop, bool_decide_eq_true. by rewrite Hp. }
  intros []. intros w [(c & Hc & Hs) ->].
  refine (next_ (holds (versioned_rotation_key ty (next_version cur)) c) _ _ _ _ _ (publish_request ty cur c) _ _ w Hc); [settle|].
  intros s. apply done_; [settle|]. intros w' (-> & Hk & Ht). by exists c.
Qed.
End Requests.
End RotationRequests.
