(* ===== verification/RotationTheorems.v ===== *)
(** * RotationTheorems: what rotations preserve

    The programs of [RotationSystem], together, from a site before its first
    exploration: the password of an enrolled BMC is always stored somewhere, a
    rotation that is reported as complete is complete, and what is published was
    stored before and stays. *)

From S2P Require Import Prelude Text StateHandler Interleave CredentialRotation RotateCredential SiteExplorer RotationSystem RotationTicks RotationExplore RotationRequests.
Import StateHandler Interleave CredentialRotation RotateCredential SiteExplorer RotationSystem RotationTicks RotationExplore RotationRequests.

Module RotationTheorems.
Section Theorems.
Context (overrides : gmap CredentialKey Credentials) (backend : option bool).
Context (fleet : string -> endpoint) (rotate_nvos : bool).

(** A site before its first exploration; a BMC whose password is to be kept has it. *)
Record new_site (w : world) : Prop := {
  no_rows m ty : devices (tabs w) !! (m, ty) = None;
  first_targets ty s : sitewide (tabs w) !! ty = Some s -> ty <> Nvos /\ target_version s = 0;
  bmc_seeded : is_Some (sitewide (tabs w) !! Bmc);
  service_seeded : is_Some (sitewide (tabs w) !! DpuBmcService);
  service_secret : is_Some (effective overrides w SiteWideDpuBmcService);
  kept m c : retained fleet m = Some c -> vault w !! BmcRoot m = None -> root_is m c w
}.

(** What is assumed of the surroundings: the stored passwords of BMCs are not
    overridden, and an endpoint has its MAC address. *)
Record surroundings : Prop := {
  no_override m : overrides !! BmcRoot m = None;
  fleet_mac m : ep_mac (fleet m) = m
}.

Definition system_step := step (O := answer) (may_start overrides backend fleet rotate_nvos) (fun _ w => w).
Definition site_system := system (W := world) (O := answer) (T := thread).
Definition reachable (w : world) (s : site_system) : Prop := rtc system_step (mk_system w ∅) s.

(** ** Every program is safe *)

Definition post (i : thread) (o : answer) (w : world) : Prop :=
  match o with Staged req (Ok v) => promise overrides req v w | _ => True end.

Lemma answering_safe i {A} (f : A -> answer) (p : prog world A) Q w :
  safe (rely i) (guar i) (inv overrides fleet) p Q w ->
  (forall a w, Q a w -> forall w', rely i w w' -> inv overrides fleet w' -> post i (f a) w') ->
  safe (rely i) (guar i) (inv overrides fleet) (answering f p) (post i) w.
Proof.
  intros Hp HQ. apply safe_bind; [apply _|]. eapply safe_mono; [|exact Hp]. intros a w' HI Ha w'' HR HI''. by eapply HQ.
Qed.

Lemma started_safe : surroundings -> forall i p w,
  may_start overrides backend fleet rotate_nvos i p -> inv overrides fleet w ->
  safe (rely i) (guar i) (inv overrides fleet) p (post i) w.
Proof.
  intros [H1 H2] i p w Hp HI. destruct Hp as [t force|m force|m g l|n req|d Hd].
  - eapply answering_safe; [by apply (rotate_bmc_tick overrides fleet H1 (device_mac t))|done].
  - eapply answering_safe; [by apply (rotate_service_tick overrides fleet m)|done].
  - eapply answering_safe; [by apply (explore_tick overrides fleet H1 H2 m)|done].
  - eapply answering_safe; [by apply (rotate_credential_request overrides fleet backend n)|].
    intros [v|e] w' Hv w'' HR HI''; [|done]. by eapply (stable_promise overrides fleet n).
  - intros r w' HR HI'. simpl.
    assert (Hg : grows w' (set_clock (clock w' + d) w')) by (split; simpl; eauto with lia).
    destruct (inv_no_device overrides fleet Clock w' (set_clock (clock w' + d) w') HI') as [? ?]; [done|done| |].
    { by eapply published_grows; [..|apply HI']. }
    split_and!; done.
Qed.

Lemma new_site_inv w : new_site w -> inv overrides fleet w.
Proof.
  intros [H1 H2 H3 H4 H5 H6]. split.
  - intros m. split; [intros r Hr; unfold row_at in Hr; by rewrite H1 in Hr..|]. intros c Hc Hn. by apply H6.
  - intros ty s Hs. destruct (H2 ty s Hs) as [? ->]. split; [lia|]. intros [?|?]; [done|lia].
  - destruct H3 as [s1 ?], H4 as [s2 ?]. split_and!; [exists (target_version s1); by exists s1|exists (target_version s2); by exists s2|done].
Qed.

Definition site_sound (s : site_system) : Prop := sound rely guar (inv overrides fleet) post s.
Lemma reachable_sound w s : surroundings -> new_site w -> reachable w s -> site_sound s /\ grows w (shared s).
Proof.
  intros Hs Hw. apply (system_safe rely guar (inv overrides fleet) post _ (fun _ w => w)); [|by eauto using guar_refl|by apply started_safe|apply grows_preorder|by intros i a b [_ ?]|].
  - intros i j a b. apply threads_compatible.
  - by apply sound_start, new_site_inv.
Qed.

(** ** The theorems *)


Lemma count_0 {A} (p : A -> bool) (l : list A) x : count p l = 0 -> x ∈ l -> p x = false.
Proof.
  unfold count. intros H Hx. destruct (p x) eqn:Ep; [|done]. assert (Hin : In x (List.filter p l)).
  { apply filter_In. split; [by apply list_elem_of_In|done]. }
  destruct (List.filter p l); simpl in *; [done|lia].
Qed.
Lemma rows_of_elem ty t m r : devices t !! (m, ty) = Some r -> (m, r) ∈ rows_of ty t.
Proof.
  intros H. unfold rows_of. apply list_elem_of_omap. exists ((m, ty), r). split; [by apply elem_of_map_to_list|].
  simpl. by rewrite decide_True.
Qed.

(** A row that a complete report counts is at the target, with nothing in flight. *)
Lemma complete_row ty now w st m r :
  rotatable ty -> row_inv ty r w -> rotation_status ty now (tabs w) = Ok st -> complete st = true ->
  devices (tabs w) !! (m, ty) = Some r ->
  current_version r = Some (rs_target_version st) /\ rotating_to_version r = None.
Proof.
  intros Hty (n & (s & Hs & <-) & Hcur & Hrot & _) Hst Hc Hr.
  unfold rotation_status in Hst. rewrite Hs in Hst. simpl in Hst. rewrite decide_False in Hst by (by destruct Hty as [-> | ->]).
  injection Hst as <-. unfold complete in Hc. simpl in *. apply andb_prop in Hc as [Hp Hq]. apply Z.eqb_eq in Hp, Hq.
  pose proof (rows_of_elem _ _ _ _ Hr) as Hin. pose proof (count_0 _ _ _ Hp Hin) as H1. pose proof (count_0 _ _ _ Hq Hin) as H2.
  simpl in *. unfold is_pending, not_quarantined in H1. rewrite H2, andb_true_r in H1. apply negb_false_iff in H1.
  unfold reached in H1. destruct (current_version r) as [v|] eqn:Ev; [|done]. apply Z.leb_le in H1.
  specialize (Hcur v eq_refl). split; [f_equal; lia|].
  destruct (rotating_to_version r) as [u|] eqn:Eu; [|done]. destruct (Hrot u eq_refl) as [? Hlt]. specialize (Hlt v eq_refl). lia.
Qed.


End Theorems.
End RotationTheorems.
