(* ===== verification/RotationOutcomes.v ===== *)
(** * RotationOutcomes: where a tick of the engine ends

    When nothing fails, a tick converges exactly from the states in which the BMC has
    the stored password or that of the target; and the states that ticks never
    leave. *)

From S2P Require Import Prelude Text StateHandler Interleave CredentialRotation RotateCredential SiteExplorer RotationSystem RotationTicks RotationExplore.
Import StateHandler Interleave CredentialRotation RotateCredential SiteExplorer RotationSystem.

Module RotationOutcomes.
Section Outcomes.
Context (overrides : gmap CredentialKey Credentials).

(** ** A tick in which every call succeeds *)

Definition usable (v : RedfishVendor) : Prop := v <> Unknown /\ v <> Sushy.
(** The BMC can tell its vendor. *)
Definition identifiable (i : identity) : Prop :=
  match root_vendor i with
  | Some Unknown | None => is_Some (chassis_vendor i)
  | Some v => v <> Sushy
  end.
Definition dispatchable (t : BmcRotationTarget) : Prop :=
  match vendor t with Fixed v => usable v | Probe => identifiable (self t) end.

Lemma run_read_secret what k w :
  run (read_secret overrides what k) w =
    (w, match effective overrides w k with Some c => Ok c | None => Err (what +:+ " is not set") end).
Proof.
  unfold read_secret. rewrite run_mbind, run_map_error. unfold get_credentials. rewrite run_call. cbn.
  by destruct (effective overrides w k).
Qed.

Section Converge.
Context (m : string) (w : world) (b : bmc) (Hb : bmcs w !! m = Some b).

Lemma run_set_root v cur p :
  usable v ->
  run (set_bmc_root_password m v cur p) w =
    if authenticates cur b then (set_bmcs (<[m := set_root_password p b]>) w, Ok ()) else (w, Err "401").
Proof.
  intros [H1 H2]. unfold set_bmc_root_password. rewrite run_mbind.
  replace (match v with Sushy => _ | Unknown => _ | _ => _ end) with (change_bmc m cur (set_root_password p)) by (by destruct v).
  unfold change_bmc. rewrite run_call, Hb. destruct (authenticates cur b) eqn:Ha; [|done]. cbn [fst snd].
  unfold set_machine_password_policy. rewrite run_call. unfold bmc_at. simpl. rewrite lookup_insert_eq.
  unfold authenticates in *. simpl. apply andb_prop in Ha as [-> _]. by rewrite String.eqb_refl.
Qed.

Lemma run_change_or_recover v from to :
  usable v ->
  run (change_or_recover m v from to) w =
    if authenticates from b then (set_bmcs (<[m := set_root_password (password to) b]>) w, Ok Changed)
    else if authenticates to b then (w, Ok (Recovered "401")) else (w, Err "401").
Proof.
  intros Hv. unfold change_or_recover. rewrite run_mbind, run_try, run_set_root by done. destruct (authenticates from b); [done|].
  cbn [fst snd]. rewrite run_mbind, run_map_error. unfold bmc_credentials_valid. rewrite run_call. cbn [fst snd].
  unfold bmc_at. rewrite Hb. cbn. by destruct (authenticates to b).
Qed.

Lemma chassis_usable self v : chassis_vendor self = Some v -> usable v.
Proof.
  unfold chassis_vendor. intros H%head_Some_elem_of. apply list_elem_of_omap in H as ([name|] & _ & H); [|done].
  simpl in H. unfold manufacturer_vendor in H. repeat case_match; by simplify_eq.
Qed.

(** A BMC that tells its vendor to everyone, or to its root user. *)
Lemma run_probe self :
  identifiable self ->
  exists v, usable v /\ forall c,
    run (probe_bmc_vendor self m c) w = (w, Ok v) \/
    authenticates c b = false /\ run (probe_bmc_vendor self m c) w = (w, Err "401").
Proof.
  intros Hid. unfold identifiable in Hid.
  assert (Hrun : forall c, run (probe_bmc_vendor self m c) w =
    (w, match root_vendor self with
        | Some Unknown | None => if authenticates c b then ok_or "missing vendor" (chassis_vendor self) else Err "401"
        | Some v => Ok v
        end)).
  { intros c. unfold probe_bmc_vendor. rewrite run_mbind, run_try. unfold get_service_root. rewrite run_call. cbn [fst snd].
    unfold bmc_at. rewrite Hb. destruct (root_vendor self) as [[]|]; try done;
      unfold get_chassis; rewrite run_call; unfold bmc_at; by rewrite Hb. }
  destruct (root_vendor self) as [[]|] eqn:Er; try (by eexists; split; [|intros c; left; apply Hrun]); try done;
    destruct Hid as [v Hv]; exists v; (split; [by eapply chassis_usable|]); intros c; rewrite Hrun, Hv;
    destruct (authenticates c b); auto.
Qed.

Lemma run_resolve t from to :
  device_mac t = m -> dispatchable t ->
  exists v, usable v /\
    (run (resolve_dispatch_vendor t from to) w = (w, Ok v) \/
     authenticates from b = false /\ authenticates to b = false /\
     exists e, run (resolve_dispatch_vendor t from to) w = (w, Err e)).
Proof.
  intros Hm Ht. unfold dispatchable in Ht. unfold resolve_dispatch_vendor. rewrite Hm.
  destruct (vendor t) as [v|]; [exists v; by auto|]. destruct (run_probe (self t) Ht) as (v & Hv & Hrun). exists v. split; [done|].
  rewrite run_mbind, run_try. destruct (Hrun from) as [-> | [Hf ->]]; [by left|]. cbn [fst snd]. rewrite run_map_error.
  destruct (Hrun to) as [-> | [Hto ->]]; [by left|]. right. split_and!; [done..|]. by eexists.
Qed.

(** The BMC has the stored password, or that of the target. *)
Lemma run_converge t v per st :
  device_mac t = m -> dispatchable t -> overrides !! BmcRoot m = None -> vault w !! BmcRoot m = Some per ->
  effective overrides w (site_wide_root v) = Some st ->
  let to := UsernamePassword (username per) (password st) in
  exists res, run (converge_bmc_password overrides t v) w =
    (if authenticates per b then set_vault (<[BmcRoot m := to]>) (set_bmcs (<[m := set_root_password (password st) b]>) w)
     else if authenticates to b then set_vault (<[BmcRoot m := to]>) w else w, res) /\
    match res with
    | Ok _ => authenticates per b || authenticates to b = true
    | Err (DeviceFault _) => authenticates per b || authenticates to b = false
    | Err _ => False
    end.
Proof.
  intros Hm Ht Ho Hper Hst to. unfold converge_bmc_password. rewrite Hm.
  assert (Heff : effective overrides w (BmcRoot m) = Some per) by (by apply lookup_union_Some_raw; right).
  rewrite run_mbind, run_map_error, run_read_secret, Heff. cbn [fst snd map_err].
  rewrite run_mbind, run_map_error, run_read_secret, Hst. cbn [fst snd map_err]. fold to.
  rewrite run_mbind, run_map_error.
  destruct (run_resolve t per to Hm Ht) as (vd & Hvd & [Hres|(Ha & Hb' & e & Hres)]); rewrite Hres; cbn [fst snd map_err].
  2: { rewrite Ha, Hb'. by eexists. }
  rewrite run_mbind, run_map_error, run_change_or_recover by done.
  destruct (authenticates per b); cbn [fst snd map_err orb].
  { rewrite run_mbind, run_map_error. unfold set_credentials. rewrite run_call. cbn [fst snd map_err]. by eexists. }
  destruct (authenticates to b); cbn [fst snd map_err]; [|by eexists].
  rewrite run_mbind, run_map_error. unfold set_credentials. rewrite run_call. cbn [fst snd map_err]. by eexists.
Qed.
End Converge.

Lemma run_acquire w : run acquire w = (w, Ok ()).
Proof. done. Qed.

Definition marked (g : StagedRotation) (r : device_row) : device_row := set_rotating_to (Some (target_version g)) r.

Lemma mark_ok m v r t :
  devices t !! (m, Bmc) = Some r -> row_ok r = true -> in_i32 v = true ->
  mark_device_rotating_to_version m Bmc v t = Ok (set_devices (<[(m, Bmc) := set_rotating_to (Some v) r]>) t).
Proof.
  intros Hr Hok Hv. unfold mark_device_rotating_to_version. rewrite Hr. case_decide as Hd.
  - f_equal. unfold set_devices. rewrite insert_id; [by destruct t|]. rewrite Hr. f_equal. destruct r. unfold set_rotating_to.
    simpl in *. by rewrite Hd.
  - unfold write_device, row_ok, set_rotating_to. simpl. apply andb_prop in Hok as [[-> _]%andb_prop ->]. by rewrite Hv.
Qed.

Lemma run_enter m force w r g :
  devices (tabs w) !! (m, Bmc) = Some r -> sitewide (tabs w) !! Bmc = Some g -> reached (target_version g) r = false ->
  force = true \/ quarantined_at (clock w) r = false -> row_ok r = true -> in_i32 (target_version g) = true ->
  exists s, run (enter_device_rotation Bmc m force) w =
    (with_row m Bmc (marked g r) w, Ok (inr (s, target_version g))).
Proof.
  intros Hr Hg Hre Hq Hok Hi. unfold enter_device_rotation. rewrite run_mbind, run_acquire. cbn [fst snd].
  unfold read_status. rewrite run_mbind, run_call. unfold device_rotation_status. rewrite decide_False by done.
  rewrite Hg. cbn [mbind option_bind]. rewrite Hr.
  cbn [mbind option_bind map_err fst snd ds_converged ds_quarantined ds_target_version]. rewrite Hre.
  replace (quarantined_at (clock w) r && negb force) with false by (destruct Hq as [-> | ->]; [by rewrite andb_false_r|done]).
  pose proof Hi as Hpos. apply andb_prop in Hpos as [Hpos%Z.leb_le _]. rewrite (proj2 (Z.ltb_ge _ _)) by lia.
  rewrite run_mbind, run_acquire. cbn [fst snd]. rewrite run_mbind. unfold statement. rewrite run_call.
  rewrite (mark_ok m _ r) by done. cbn. by eexists.
Qed.

Lemma run_promote m w r v :
  devices (tabs w) !! (m, Bmc) = Some r -> rotating_to_version r = Some v -> in_i32 v = true ->
  run (promote Bmc m) w =
    (with_row m Bmc (mk_device (Some v) None 0 (rotate_last_attempt_at r) None None (rotate_job_id r)) w, Ok ()).
Proof.
  intros Hr Hv Hi. unfold promote. rewrite run_mbind. unfold statement. rewrite run_call.
  unfold promote_rotating_to_current, update_device. rewrite Hr, Hv. rewrite bool_decide_eq_true_2 by done.
  unfold write_device, row_ok. simpl. by rewrite Hi.
Qed.

Lemma run_quarantine ty m s msg w : (run (quarantine ty m s msg) w).2 <> Ok Converged.
Proof.
  unfold quarantine. rewrite run_mbind. cbn [run utc_now fst snd]. rewrite run_mbind, run_acquire. cbn [fst snd].
  rewrite run_mbind. by destruct (run _ w) as [w' [[]|e]].
Qed.

(** C18: When every call succeeds, a tick on a device that lags and is not quarantined
    converges exactly if the BMC has the stored password of the device or already the
    one of the target; then the BMC has the password of the target, that is stored
    for the device, and the row says so. *)
Theorem tick_converges_iff t force w r g b c st :
  let m := device_mac t in
  overrides !! BmcRoot m = None -> dispatchable t ->
  devices (tabs w) !! (m, Bmc) = Some r -> row_ok r = true -> reached (target_version g) r = false ->
  force = true \/ quarantined_at (clock w) r = false ->
  sitewide (tabs w) !! Bmc = Some g -> in_i32 (target_version g) = true ->
  effective overrides w (site_wide_root (target_version g)) = Some st ->
  bmcs w !! m = Some b -> vault w !! BmcRoot m = Some c -> username c = root_user b ->
  let w' := (run (rotate_bmc overrides t force) w).1 in
  ((run (rotate_bmc overrides t force) w).2 = Ok Converged <->
     root_password b = password c \/ root_password b = password st) /\
  ((run (rotate_bmc overrides t force) w).2 = Ok Converged ->
     exists b' c' r', bmcs w' !! m = Some b' /\ root_password b' = password st /\
       vault w' !! BmcRoot m = Some c' /\ password c' = password st /\
       devices (tabs w') !! (m, Bmc) = Some r' /\ current_version r' = Some (target_version g) /\ rotating_to_version r' = None).
Proof.
  intros m Ho Ht Hr Hok Hre Hq Hg Hi Hst Hb Hc Hu. unfold rotate_bmc. fold m. rewrite run_mbind.
  destruct (run_enter m force w r g) as [s Hs]; [done..|]. rewrite Hs. cbn [fst snd]. rewrite run_mbind, run_try.
  set (w1 := with_row m Bmc (marked g r) w).
  destruct (run_converge m w1 b Hb t (target_version g) c st) as (res & Hres & Hcase); [done..|]. rewrite Hres. cbn [fst snd].
  set (to := UsernamePassword (username c) (password st)) in *.
  assert (Ha1 : authenticates c b = true <-> root_password b = password c).
  { unfold authenticates. rewrite Hu, String.eqb_refl. simpl. rewrite String.eqb_eq. split; congruence. }
  assert (Ha2 : authenticates to b = true <-> root_password b = password st).
  { unfold authenticates. simpl. rewrite Hu, String.eqb_refl. simpl. rewrite String.eqb_eq. split; congruence. }
  destruct res as [conv|[msg|msg]]; [| |done].
  - rewrite run_mbind, run_acquire. cbn [fst snd]. rewrite run_mbind. unfold delete_sessions. rewrite run_call. cbn [fst snd].
    set (w2 := set_sessions _ _). rewrite run_mbind.
    assert (Hr2 : devices (tabs w2) !! (m, Bmc) = Some (marked g r)).
    { unfold w2. destruct (authenticates c b), (authenticates to b); apply lookup_insert_eq. }
    rewrite (run_promote m w2 _ (target_version g) Hr2 eq_refl Hi). cbn [fst snd run mret M_ret]. split.
    + split; [|done]. intros _. apply orb_true_iff in Hcase as [?|?]; [left; by apply Ha1|right; by apply Ha2].
    + intros _. unfold w2. destruct (authenticates c b) eqn:E1; simpl.
      * do 3 eexists. rewrite !lookup_insert_eq. split_and!; done.
      * simpl in Hcase. rewrite Hcase. simpl. exists b, to. eexists. rewrite !lookup_insert_eq. split_and!; try done. by apply Ha2.
  - split; [|by intros H%run_quarantine]. split; [by intros H%run_quarantine|]. apply orb_false_iff in Hcase as [E1 E2].
    intros [H|H]; [apply Ha1 in H|apply Ha2 in H]; congruence.
Qed.

(** ** States that ticks do not leave

    Ticks on a device, one after the other, with any replies. *)

Definition same (w w' : world) : Prop := w = w'.
#[local] Instance same_preorder : PreOrder same.
Proof. split; [done|]. by intros ? ? ? [=->] [=->]. Qed.
Definition any (w w' : world) : Prop := True.
Lemma stable_same I A : stable same I A.
Proof. by intros w w' H [=->] _. Qed.

Section Alone.
Context (I : world -> Prop).
Abbreviation tick P p Q := (spec same any I P p Q (fun _ => True)).
Abbreviation anything := (fun _ : world => True).

Lemma then_alone {E A B} (p : M world E A) (f : A -> M world E B) Y Q :
  tick anything p Y -> (forall a, tick (Y a) (f a) Q) -> tick anything (p ≫= f) Q.
Proof. intros. by eapply spec_bind; [apply _|..|apply stable_same|]. Qed.
Lemma call_alone {E A} (err : string -> E) f (Q : A -> world -> Prop) :
  (forall w, I w -> I (f w).1 /\ forall a, (f w).2 = Ok a -> Q a (f w).1) -> tick anything (call err f) Q.
Proof.
  intros Hf. apply spec_call; try done; [intros; apply stable_same..|]. intros w _ HI. destruct (Hf w HI). by split_and!.
Qed.
Lemma mapped_alone {E F A} (h : E -> F) (p : M world E A) Q : tick anything p Q -> tick anything (map_error h p) Q.
Proof. intros. by apply spec_map_error; [apply _|..]; intros; try apply stable_same. Qed.
Lemma tried_alone {E F A} (p : M world E A) Q :
  tick anything p Q -> tick anything (try p : M world F _) (fun r w => match r with Ok a => Q a w | Err _ => True end).
Proof.
  intros H. eapply (spec_conseq _ _ _ _ anything); [apply (spec_try _ _ _ _ _ Q anything anything); [exact H|intros; apply stable_same..]|done| |done].
  by intros [a|e] w _ ?.
Qed.
Lemma ret_alone {E A} (a : A) (P : world -> Prop) (Q : A -> world -> Prop) :
  (forall w, P w -> Q a w) -> tick P (Ret (Ok a) : M world E A) Q.
Proof. intros. apply spec_ret; [apply stable_same|auto]. Qed.
Lemma raise_alone {E A} (e : E) P (Q : A -> world -> Prop) : tick P (raise e) Q.
Proof. by apply spec_raise; [apply stable_same|]. Qed.

Lemma pure_alone {E A} (X : Prop) (p : M world E A) (Q : A -> world -> Prop) :
  (X -> tick anything p Q) -> tick (fun _ => X) p Q.
Proof. intros H w HX. by apply H. Qed.

Lemma reads_alone {E A} (p : M world E A) : read_only p -> tick anything p (fun _ => anything).
Proof. intros Hp. eapply spec_conseq; [by apply (read_only_spec same any I _ anything); [|done|apply stable_same]|done..]. Qed.
End Alone.

Section Stranded.
Context (m : string) (b : bmc) (c st : Credentials) (g : StagedRotation).
Hypothesis no_override : overrides !! BmcRoot m = None.
Hypothesis old_rejected : root_password b <> password c.
Hypothesis new_rejected : root_password b <> password st.

(** The BMC has neither the stored password nor that of the target. *)
Definition stranded (w : world) : Prop :=
  bmcs w !! m = Some b /\ vault w !! BmcRoot m = Some c /\ sitewide (tabs w) !! Bmc = Some g /\
  effective overrides w (site_wide_root (target_version g)) = Some st /\
  exists r, devices (tabs w) !! (m, Bmc) = Some r /\ reached (target_version g) r = false.

Abbreviation tick P p Q := (spec same any stranded P p Q (fun _ => True)).
Abbreviation anything := (fun _ : world => True).

Lemma rejected c' : root_password b <> password c' -> authenticates c' b = false.
Proof. intros H. unfold authenticates. apply andb_false_iff. right. apply String.eqb_neq. congruence. Qed.

Abbreviation never := (fun _ _ => False).

Lemma change_stranded v c' p :
  root_password b <> password c' -> root_password b <> p -> tick anything (set_bmc_root_password m v c' p) never.
Proof.
  intros H1 H2. eapply (then_alone _ _ _ (fun _ => anything)).
  - destruct v; first [by apply ret_alone|by apply raise_alone|
      apply call_alone; intros w Hw; destruct Hw as [Hb Hrest]; rewrite Hb, (rejected c' H1); by split].
  - intros []. apply call_alone. intros w [Hb Hrest]. unfold bmc_at. simpl. rewrite Hb, rejected by done. by split.
Qed.

Lemma change_or_recover_stranded v to :
  password to = password st -> tick anything (change_or_recover m v c to) never.
Proof.
  intros Hto. eapply then_alone; [apply tried_alone, change_stranded; congruence|]. intros [[]|e]; [by intros w []|].
  eapply (then_alone _ _ _ (fun valid _ => valid = false)).
  - apply mapped_alone, call_alone. intros w [Hb Hrest]. unfold bmc_at. simpl. rewrite Hb, rejected by congruence.
    by split; [|intros ? [= <-]].
  - intros valid. cbv beta. apply pure_alone. intros ->. by apply raise_alone.
Qed.

Lemma secret_stranded what k c0 :
  (forall w, stranded w -> effective overrides w k = Some c0) ->
  tick anything (read_secret overrides what k) (fun c' _ => c' = c0).
Proof.
  intros Hk. eapply (then_alone _ _ _ (fun o _ => o = Some c0)).
  - apply mapped_alone, call_alone. intros w Hw. split; [done|]. simpl. rewrite (Hk w Hw). by intros ? [= <-].
  - intros o. cbv beta. apply pure_alone. intros ->. by apply ret_alone.
Qed.

Lemma resolve_stranded t from to : tick anything (resolve_dispatch_vendor t from to) (fun _ => anything).
Proof. apply reads_alone, RotationTicks.resolve_reads. Qed.

Lemma converge_stranded t : device_mac t = m -> tick anything (converge_bmc_password overrides t (target_version g)) never.
Proof.
  intros Hm. unfold converge_bmc_password. rewrite Hm.
  eapply then_alone; [apply mapped_alone, (secret_stranded _ _ c)|].
  { intros w (_ & Hc & _). by apply lookup_union_Some_raw; right. }
  intros c'. cbv beta. apply pure_alone. intros ->. apply (then_alone _ _ _ (fun c' _ => c' = st)).
  { apply mapped_alone, secret_stranded. by intros w (_ & _ & _ & Hs & _). }
  intros st'. cbv beta. apply pure_alone. intros ->. apply (then_alone _ _ _ (fun _ => anything)); [apply mapped_alone, resolve_stranded|].
  intros v. eapply then_alone; [by apply mapped_alone, change_or_recover_stranded|]. by intros conv w [].
Qed.

Lemma row_stranded r w :
  stranded w -> reached (target_version g) r = false -> stranded (with_row m Bmc r w).
Proof. intros (H1 & H2 & H3 & H4 & _) Hr. split_and!; [done..|]. exists r. split; [apply lookup_insert_eq|done]. Qed.

Lemma statement_stranded {E A} (err : DatabaseError -> E) f :
  (forall w t (a : A), stranded w -> f (clock w) (tabs w) = Ok (t, a) -> stranded (set_tabs t w)) ->
  tick anything (statement err f) (fun _ => anything).
Proof.
  intros Hf. apply call_alone. intros w Hw. destruct (f (clock w) (tabs w)) as [[t a]|e] eqn:Ef; [|by split].
  split; [by eapply Hf|done].
Qed.

Lemma acquire_stranded : tick anything acquire (fun _ => anything).
Proof. apply call_alone. by intros w Hw. Qed.
Lemma utc_now_stranded : tick anything utc_now (fun _ => anything).
Proof. apply reads_alone. by intros [] w. Qed.

Lemma enter_stranded force :
  tick anything (enter_device_rotation Bmc m force)
    (fun x _ => match x with inl o => o <> Converged | inr (_, v) => v = target_version g end).
Proof.
  eapply then_alone; [apply acquire_stranded|]. intros [].
  eapply (then_alone _ _ _ (fun o _ => forall s, o = Some s -> ds_converged s = false /\ ds_target_version s = target_version g)).
  { apply call_alone. intros w Hw. split; [done|]. destruct Hw as (_ & _ & Hg & _ & r & Hr & Hre).
    unfold device_rotation_status. rewrite decide_False by done. rewrite Hg. cbn. rewrite Hr. cbn.
    intros a [= <-] s [= <-]. by split. }
  intros [s|]; cbv beta; apply pure_alone; intros Hs; [|by apply ret_alone]. destruct (Hs s eq_refl) as [-> Hv]. rewrite Hv.
  destruct (ds_quarantined s && negb force).
  { eapply then_alone; [apply utc_now_stranded|intros; by apply ret_alone]. }
  destruct (target_version g <? 0); [apply raise_alone|].
  eapply then_alone; [apply acquire_stranded|]. intros [].
  apply (then_alone _ _ _ (fun _ => anything)); [|intros; by apply ret_alone].
  apply statement_stranded. intros w t [] Hw Ht. pose proof Hw as (_ & _ & _ & _ & r & Hr & Hre).
  unfold no_result in Ht. apply bind_ok in Ht as (t' & Ht & [= <-]). unfold mark_device_rotating_to_version in Ht.
  rewrite Hr in Ht. case_decide; [injection Ht as <-; by rewrite RotationTicks.set_tabs_id|].
  apply RotationTicks.write_device_ok in Ht as ->. by apply row_stranded.
Qed.

Lemma quarantine_stranded s msg : tick anything (quarantine Bmc m s msg) (fun o _ => o <> Converged).
Proof.
  eapply then_alone; [apply utc_now_stranded|]. intros now. eapply then_alone; [apply acquire_stranded|]. intros [].
  apply (then_alone _ _ _ (fun _ => anything)); [|intros; by apply ret_alone].
  apply statement_stranded. intros w t [] Hw Ht. pose proof Hw as (_ & _ & _ & _ & r & Hr & Hre).
  unfold no_result, increment_rotate_attempt in Ht. apply bind_ok in Ht as (t1 & Ht & [= <-]).
  apply bind_ok in Ht as ([t2 u] & Ht & [= <-]).
  apply RotationTicks.update_device_ok in Ht as [[-> _]|(r' & Hr' & _ & -> & _)]; [by rewrite RotationTicks.set_tabs_id|].
  simplify_eq. by apply row_stranded.
Qed.

(** Whatever the replies, a tick leaves such a device as it is, and does not converge. *)
Theorem stranded_stays t force w :
  device_mac t = m -> stranded w ->
  safe same any stranded (rotate_bmc overrides t force) (fun r _ => r <> Ok Converged) w.
Proof.
  intros Hm Hw. eapply (safe_mono _ _ _ _ (on_result (fun o _ => o <> Converged) (fun _ => anything))).
  { intros [o|e] w' _ H; simpl in H; congruence. }
  revert w Hw. assert (Htick : tick anything (rotate_bmc overrides t force) (fun o _ => o <> Converged)); [|by intros w _; apply Htick].
  unfold rotate_bmc. rewrite Hm. eapply then_alone; [apply enter_stranded|].
  intros [o|[s v]]; cbv beta; apply pure_alone; [intros Ho; by apply ret_alone|]. intros ->.
  eapply then_alone; [by apply tried_alone, converge_stranded|].
  intros [conv|[msg|msg]]; [by intros w []|apply quarantine_stranded|by apply ret_alone].
Qed.
End Stranded.

(** ** A password that was set by an operator *)

Lemma run_admin_set e w b c p :
  overrides !! BmcRoot (ep_mac e) = None -> identifiable (ep_self e) -> bmcs w !! ep_mac e = Some b -> vault w !! BmcRoot (ep_mac e) = Some c ->
  password c <> "" -> authenticates c b = true ->
  run (admin_set_bmc_root_password overrides e p) w =
    (set_vault (<[BmcRoot (ep_mac e) := UsernamePassword (username c) p]>)
       (set_bmcs (<[ep_mac e := set_root_password p b]>) w), Ok ()).
Proof.
  intros Ho Hid Hb Hc Hp Ha. assert (Heff : effective overrides w (BmcRoot (ep_mac e)) = Some c) by (by apply lookup_union_Some_raw; right).
  unfold admin_set_bmc_root_password. rewrite run_mbind.
  assert (Hget : run (client_get_credentials overrides (BmcRoot (ep_mac e))) w = (w, Ok c)).
  { unfold client_get_credentials. rewrite run_mbind, run_map_error. unfold get_credentials. rewrite run_call, Heff. cbn.
    by rewrite (proj2 (String.eqb_neq _ _) Hp). }
  rewrite Hget. cbn [fst snd]. rewrite run_mbind, run_map_error.
  destruct (run_probe _ w b Hb _ Hid) as (v & Hv & Hrun). destruct (Hrun c) as [-> | [? _]]; [|congruence].
  cbn [fst snd map_err]. unfold client_set_bmc_root_password.
  rewrite run_mbind, run_mbind, run_map_error, (run_set_root _ w b Hb) by done. rewrite Ha. cbn [fst snd map_err run mret M_ret].
  unfold client_set_credentials. rewrite run_map_error. unfold set_credentials. by rewrite run_call.
Qed.

(** A tick on a device whose row has the target does nothing. *)
Lemma converged_left_alone t force w r g :
  devices (tabs w) !! (device_mac t, Bmc) = Some r -> sitewide (tabs w) !! Bmc = Some g -> reached (target_version g) r = true ->
  safe same same (fun _ => True) (rotate_bmc overrides t force) (fun o _ => o = Ok Converged \/ exists e, o = Err e) w.
Proof.
  intros Hr Hg Hre. unfold rotate_bmc, enter_device_rotation. cbn. intros rp1 w1 [=<-] _.
  destruct rp1; cbn; split_and!; try done; [|intros ? ? ?; right; by eexists..].
  intros rp2 w2 [=<-] _. unfold device_rotation_status. rewrite decide_False by done. rewrite Hg. cbn. rewrite Hr. cbn. rewrite Hre.
  destruct rp2; cbn; split_and!; try done; [by left|right; by eexists..].
Qed.

(** After an operator sets the root password of a BMC whose row has the target
    version, the BMC and the store have that password while the tables are the same,
    and no tick changes anything, whatever the replies: the password of the site is
    not asserted again. *)
Theorem out_of_band_password_stays e t force w r g b c p :
  let m := ep_mac e in
  overrides !! BmcRoot m = None -> identifiable (ep_self e) -> device_mac t = m ->
  devices (tabs w) !! (m, Bmc) = Some r -> sitewide (tabs w) !! Bmc = Some g -> reached (target_version g) r = true ->
  bmcs w !! m = Some b -> vault w !! BmcRoot m = Some c -> password c <> "" -> authenticates c b = true ->
  let w' := (run (admin_set_bmc_root_password overrides e p) w).1 in
  (run (admin_set_bmc_root_password overrides e p) w).2 = Ok () /\ tabs w' = tabs w /\
  root_password <$> bmcs w' !! m = Some p /\ password <$> vault w' !! BmcRoot m = Some p /\
  safe same same (fun _ => True) (rotate_bmc overrides t force) (fun o _ => o = Ok Converged \/ exists e, o = Err e) w'.
Proof.
  intros m Ho Hid Hm Hr Hg Hre Hb Hc Hp Ha. rewrite (run_admin_set e w b c p) by done.
  cbn [fst snd set_vault set_bmcs tabs bmcs vault]. unfold m. rewrite !lookup_insert_eq.
  split_and!; [done..|]. rewrite <- Hm in Hr. by apply (converged_left_alone t force _ r g).
Qed.

(** ** A device whose enrolment was cut off *)

Section Unenrolled.
Context (m : string) (c : Credentials).
Hypothesis no_override : overrides !! BmcRoot m = None.
Hypothesis valid : password c <> "".

(** Its password is stored, but it has no row. *)
Definition unenrolled (w : world) : Prop := vault w !! BmcRoot m = Some c /\ devices (tabs w) !! (m, Bmc) = None.
Abbreviation tick P p Q := (spec same any unenrolled P p Q (fun _ => True)).
Abbreviation anything := (fun _ : world => True).

Lemma stored_not_missing :
  tick anything (try (client_get_credentials overrides (BmcRoot m)) : M world EndpointExplorationError _)
    (fun r _ => forall cause, r <> Err (MissingCredentials cause)).
Proof.
  apply triple_try; [apply _| |intros; apply stable_same]. intros w _ r w' [=<-] HI.
  assert (Heff : effective overrides w (BmcRoot m) = Some c) by (by apply lookup_union_Some_raw; right; split; [|apply HI]).
  destruct r; cbn; rewrite ?Heff; cbn; rewrite ?(proj2 (String.eqb_neq _ _) valid); by split_and!.
Qed.

(** Explorations do not enrol it, *)
Theorem unenrolled_explored rotate_nvos e generated last w :
  ep_mac e = m -> unenrolled w ->
  safe same any unenrolled (explore_endpoint overrides rotate_nvos e generated last) (fun _ _ => True) w.
Proof.
  intros Hm Hw. eapply safe_mono; [by intros|]. revert w Hw.
  assert (Htick : tick anything (explore_endpoint overrides rotate_nvos e generated last) (fun _ => anything)); [|by intros w _; apply Htick].
  unfold explore_endpoint. destruct (match last with Some l => is_unauthorized l | None => false end); [by apply raise_alone|].
  eapply then_alone; [apply reads_alone, RotationExplore.resolve_vendor_reads|]. intros v. rewrite Hm.
  eapply then_alone; [apply stored_not_missing|]. intros r. cbv beta. apply pure_alone. intros Hr.
  apply (then_alone _ _ _ (fun _ => anything)).
  { destruct r as [c'|x]; [apply reads_alone, RotationExplore.established_reads|].
    destruct x; try by apply raise_alone. by destruct (Hr cause). }
  intros []. destruct (ep_expected e) as [[d|d|d [u|] [p|]]|]; try by apply ret_alone.
  destruct rotate_nvos; [|by apply ret_alone].
  eapply then_alone; [apply reads_alone, RotationExplore.try_reads, RotationExplore.client_get_reads|].
  intros [c'|x]; [by apply ret_alone|]. apply (then_alone _ _ _ (fun _ => anything)); [|intros []; by apply ret_alone].
  apply mapped_alone, call_alone. intros w [H1 H2]. split; [|done]. split; [|done]. simpl. by rewrite lookup_insert_ne.
Qed.

(** and ticks find no work. *)
Theorem unenrolled_not_rotated t force w :
  device_mac t = m -> unenrolled w ->
  safe same same unenrolled (rotate_bmc overrides t force) (fun o _ => o = Ok NoWork \/ exists e, o = Err e) w.
Proof.
  intros Hm [Hc Hr]. unfold rotate_bmc, enter_device_rotation. rewrite Hm. cbn. intros rp1 w1 [=<-] HI.
  destruct rp1; cbn; split_and!; try done; [|intros ? ? ?; right; by eexists..].
  intros rp2 w2 [=<-] _. unfold device_rotation_status. rewrite decide_False by done.
  assert (Hn : (s ← sitewide (tabs w) !! Bmc; r ← devices (tabs w) !! (m, Bmc);
    Some (mk_device_status (target_version s) (started_at s) r (reached (target_version s) r) (quarantined_at (clock w) r))) = None).
  { rewrite Hr. by destruct (sitewide (tabs w) !! Bmc). }
  rewrite Hn. destruct rp2; cbn; split_and!; try done; [by left|right; by eexists..].
Qed.
End Unenrolled.
End Outcomes.
End RotationOutcomes.
