(* ===== verification/RotationExamples.v ===== *)
(** * RotationExamples: rotations at small sites

    Sites on which the theorems of [RotationTheorems] and [RotationOutcomes] are
    applied, and three runs that end badly: a target that advances while a BMC is
    ahead of the store, two first DPUs, and an enrolment that is cut off. *)

From S2P Require Import Prelude Text StateHandler Interleave CredentialRotation RotateCredential SiteExplorer RotationSystem RotationTheorems RotationOutcomes.
Import StateHandler Interleave CredentialRotation RotateCredential SiteExplorer RotationSystem RotationTheorems RotationOutcomes.

Module RotationExamples.

Definition no_overrides : gmap CredentialKey Credentials := ∅.
Definition ready : option bool := Some true.

(** ** One machine *)

Definition machine (m : string) : endpoint :=
  mk_endpoint m (mk_identity (Some Dell) []) None (Some (ExpectedMachine (mk_expected "root" "factory" None))).
Definition targets : gmap CredentialRotationType StagedRotation := {[ Bmc := mk_staged 0 0; DpuBmcService := mk_staged 0 0 ]}.
Definition site : world :=
  mk_world (mk_tables targets ∅ [] ∅)
    {[ SiteWideRoot := UsernamePassword "" "site0"; SiteWideDpuBmcService := UsernamePassword "service" "service0" ]}
    {[ "m" := mk_bmc "root" "factory" "service" ]} ∅ ∅ 0.

Lemma site_surroundings : surroundings no_overrides machine.
Proof. by split. Qed.

Lemma site_new : new_site no_overrides machine site.
Proof.
  split; [done| |by eexists|by eexists|by eexists|done].
  intros ty s Hs. simpl in Hs. unfold targets in Hs.
  apply lookup_insert_Some in Hs as [[<- <-]|[_ Hs]]; [done|]. apply lookup_singleton_Some in Hs as [<- <-]. done.
Qed.

Definition all_done : list reply := replicate 40 Done.
Definition explore (m : string) : prog world answer :=
  answering Explored (explore_endpoint no_overrides false (machine m) "generated" None).
Definition stage (p : string) : prog world answer :=
  answering (Staged (mk_request Bmc (Some p) "")) (rotate_credential no_overrides ready (mk_request Bmc (Some p) "")).
Definition dell (m : string) : BmcRotationTarget := mk_target m (Fixed Dell) (mk_identity None []).
Definition rotate (m : string) : prog world answer := answering Rotated (rotate_bmc no_overrides (dell m) false).

Definition explored : world := (exec all_done (explore "m") site).1.
Definition staged1 : world := (exec all_done (stage "First-password-1!") explored).1.
Definition rotated1 : world := (exec all_done (rotate "m") staged1).1.

Abbreviation steps := (rtc (system_step no_overrides ready machine false)).
Lemma explore_steps rs w m : steps (mk_system w ∅) (mk_system (exec rs (explore m) w).1 ∅).
Proof. apply (episode _ (fun _ w => w) (Tick m)); [done|]. apply (start_explore no_overrides ready machine false m "generated" None). Qed.
Lemma stage_steps rs w p : steps (mk_system w ∅) (mk_system (exec rs (stage p) w).1 ∅).
Proof. apply (episode _ (fun _ w => w) (Request 0)); [done|]. apply start_request. Qed.
Lemma rotate_steps rs w m : steps (mk_system w ∅) (mk_system (exec rs (rotate m) w).1 ∅).
Proof. apply (episode _ (fun _ w => w) (Tick m)); [done|]. apply (start_tick no_overrides ready machine false (dell m)). Qed.

Lemma steps_trans (a b c : site_system) : steps a b -> steps b c -> steps a c.
Proof. apply transitivity. Qed.

Lemma explored_steps : steps (mk_system site ∅) (mk_system explored ∅).
Proof. exact (explore_steps all_done site "m"). Qed.
Lemma staged1_steps : steps (mk_system explored ∅) (mk_system staged1 ∅).
Proof. exact (stage_steps all_done explored "First-password-1!"). Qed.

Definition rotated : site_system := mk_system rotated1 ∅.
Lemma rotated_reachable : reachable no_overrides ready machine false site rotated.
Proof.
  exact (steps_trans _ _ _ explored_steps (steps_trans _ _ _ staged1_steps (rotate_steps all_done staged1 "m"))).
Qed.

Definition row1 : device_row := mk_device (Some 1) None 0 None None None None.
Lemma rotated_row : devices (tabs (shared rotated)) !! ("m", Bmc) = Some row1.
Proof. vm_compute. reflexivity. Qed.


(** The report is complete, and true. *)
Definition report1 : RotationStatus := mk_rotation_status 1 1 0 0 ∅ 0.

(** A request that has answered, and what its secret is after a rotation. *)
Definition answered : site_system :=
  play [(Request 0, all_done)] (mk_system explored {[ Request 0 := stage "First-password-1!" ]}).
Lemma answered_reachable : reachable no_overrides ready machine false site answered.
Proof.
  apply (steps_trans _ _ _ explored_steps). eapply rtc_l; [|apply play_steps].
  apply (step_start _ _ explored ∅ (Request 0) (stage "First-password-1!")); [done|]. apply start_request.
Qed.
Definition request1 : RotateCredentialRequest := mk_request Bmc (Some "First-password-1!") "".
Lemma answered_running : running answered !! Request 0 = Some (Ret (Staged request1 (Ok 1))).
Proof. vm_compute. reflexivity. Qed.

(** A tick of the engine, and an operator after it. *)
Definition row0 : device_row := mk_device (Some 0) None 0 None None None None.
Definition at_site0 : bmc := mk_bmc "root" "site0" "service".
Definition stored0 : Credentials := UsernamePassword "root" "site0".
Definition first_secret : Credentials := UsernamePassword "" "First-password-1!".
Lemma tick_converges_iff_witness :
  (run (rotate_bmc no_overrides (dell "m") false) staged1).2 = Ok Converged <->
  root_password at_site0 = password stored0 \/ root_password at_site0 = password first_secret.
Proof.
  assert (Hrow : devices (tabs staged1) !! (device_mac (dell "m"), Bmc) = Some row0) by (vm_compute; reflexivity).
  assert (Hg : sitewide (tabs staged1) !! Bmc = Some (mk_staged 1 0)) by (vm_compute; reflexivity).
  assert (Hst : effective no_overrides staged1 (site_wide_root (target_version (mk_staged 1 0))) = Some first_secret) by (vm_compute; reflexivity).
  assert (Hb : bmcs staged1 !! device_mac (dell "m") = Some at_site0) by (vm_compute; reflexivity).
  assert (Hc : vault staged1 !! BmcRoot (device_mac (dell "m")) = Some stored0) by (vm_compute; reflexivity).
  assert (Ho : no_overrides !! BmcRoot (device_mac (dell "m")) = None) by reflexivity.
  assert (Hd : dispatchable (dell "m")) by (by split).
  exact (proj1 (tick_converges_iff no_overrides (dell "m") false staged1 row0 (mk_staged 1 0) at_site0 stored0 first_secret
    Ho Hd Hrow eq_refl eq_refl (or_intror eq_refl) Hg eq_refl Hst Hb Hc eq_refl)).
Defined.

Definition at_site1 : bmc := mk_bmc "root" "First-password-1!" "service".
Definition stored1 : Credentials := UsernamePassword "root" "First-password-1!".
Lemma out_of_band_password_stays_witness :
  safe same same (fun _ => True) (rotate_bmc no_overrides (dell "m") true) (fun o _ => o = Ok Converged \/ exists e, o = Err e)
    (run (admin_set_bmc_root_password no_overrides (machine "m") "operator") rotated1).1.
Proof.
  assert (Hrow : devices (tabs rotated1) !! (ep_mac (machine "m"), Bmc) = Some row1) by (vm_compute; reflexivity).
  assert (Hg : sitewide (tabs rotated1) !! Bmc = Some (mk_staged 1 0)) by (vm_compute; reflexivity).
  assert (Hb : bmcs rotated1 !! ep_mac (machine "m") = Some at_site1) by (vm_compute; reflexivity).
  assert (Hc : vault rotated1 !! BmcRoot (ep_mac (machine "m")) = Some stored1) by (vm_compute; reflexivity).
  assert (Ho : no_overrides !! BmcRoot (ep_mac (machine "m")) = None) by reflexivity.
  assert (Hi : identifiable (ep_self (machine "m"))) by done.
  assert (Hp : password stored1 <> "") by done.
  exact (proj2 (proj2 (proj2 (proj2 (out_of_band_password_stays no_overrides (machine "m") (dell "m") true rotated1 row1
    (mk_staged 1 0) at_site1 stored1 "operator" Ho Hi eq_refl Hrow Hg eq_refl Hb Hc Hp eq_refl))))).
Defined.

(** ** A target that advances too soon *)

(** A tick that stops after it changed the BMC, and another version. *)
Definition ahead : world := (exec (replicate 7 Done) (rotate "m") staged1).1.
Definition staged2 : world := (exec all_done (stage "Second-password-2!") ahead).1.

(** C36: From a new site with one machine: its enrolment, a first rotation whose tick
    stops after it has changed the BMC, and the request for a second one lead to a
    state in which the BMC has neither the stored password nor that of the target.
    Every tick from there on, whatever the replies, leaves it as it is and does not
    converge. *)
Theorem advanced_target_strands_device :
  exists s b c st g,
    surroundings no_overrides machine /\ new_site no_overrides machine site /\
    reachable no_overrides ready machine false site s /\ running s = ∅ /\
    bmcs (shared s) !! "m" = Some b /\ vault (shared s) !! BmcRoot "m" = Some c /\
    sitewide (tabs (shared s)) !! Bmc = Some g /\
    effective no_overrides (shared s) (site_wide_root (target_version g)) = Some st /\
    root_password b <> password c /\ root_password b <> password st /\
    forall t force, device_mac t = "m" ->
      safe same any (stranded no_overrides "m" b c st g) (rotate_bmc no_overrides t force)
        (fun r _ => r <> Ok Converged) (shared s).
Proof.
  exists (mk_system staged2 ∅), (mk_bmc "root" "First-password-1!" "service"), (UsernamePassword "root" "site0"),
    (UsernamePassword "" "Second-password-2!"), (mk_staged 2 0).
  split_and!; [apply site_surroundings|apply site_new| |done|vm_compute; reflexivity..|done|done|].
  - exact (steps_trans _ _ _ explored_steps (steps_trans _ _ _ staged1_steps
      (steps_trans _ _ _ (rotate_steps (replicate 7 Done) staged1 "m") (stage_steps all_done ahead "Second-password-2!")))).
  - intros t force Ht. apply stranded_stays; [done..|]. split_and!; [vm_compute; reflexivity..|].
    eexists. split; vm_compute; reflexivity.
Qed.

(** ** An enrolment that is cut off *)

Definition cut_off : world := (exec (replicate 8 Done) (explore "m") site).1.
Definition missed : world := (exec all_done (stage "First-password-1!") cut_off).1.

(** C37: From a new site with one machine: an exploration that stops between storing the
    password of a BMC and recording the device, and a request for a rotation, lead to
    a state in which the rotation is reported as complete while the BMC has the old
    password. No exploration enrols the device from there on, and no tick finds work,
    whatever the replies. *)
Theorem cut_off_enrolment_is_missed :
  exists s b st r,
    surroundings no_overrides machine /\ new_site no_overrides machine site /\
    reachable no_overrides ready machine false site s /\ running s = ∅ /\
    bmcs (shared s) !! "m" = Some b /\ effective no_overrides (shared s) (site_wide_root 1) = Some st /\
    root_password b <> password st /\
    rotation_status Bmc 0 (tabs (shared s)) = Ok r /\ rs_target_version r = 1 /\ complete r = true /\
    (forall generated last, safe same any (unenrolled "m" (UsernamePassword "root" "site0"))
       (explore_endpoint no_overrides false (machine "m") generated last) (fun _ _ => True) (shared s)) /\
    (forall t force, device_mac t = "m" -> safe same same (unenrolled "m" (UsernamePassword "root" "site0"))
       (rotate_bmc no_overrides t force) (fun o _ => o = Ok NoWork \/ exists e, o = Err e) (shared s)).
Proof.
  assert (Hun : unenrolled "m" (UsernamePassword "root" "site0") missed) by (split; vm_compute; reflexivity).
  exists (mk_system missed ∅), (mk_bmc "root" "site0" "service"), (UsernamePassword "" "First-password-1!"),
    (mk_rotation_status 1 0 0 0 ∅ 0).
  split_and!; [apply site_surroundings|apply site_new| |done|vm_compute; reflexivity..|done|vm_compute; reflexivity|done|done| |].
  - exact (steps_trans _ _ _ (explore_steps (replicate 8 Done) site "m") (stage_steps all_done cut_off "First-password-1!")).
  - intros generated last. by apply unenrolled_explored.
  - intros t force Ht. by apply unenrolled_not_rotated.
Qed.

(** ** The first two DPUs *)

Definition dpu (m : string) : endpoint := mk_endpoint m (mk_identity (Some NvidiaDpu) []) (Some "BlueField-4") None.
Definition factory_dpu : bmc := mk_bmc "admin" "0penBmc" "service".
Definition dpu_site : world :=
  mk_world (mk_tables targets ∅ [] ∅) {[ SiteWideRoot := UsernamePassword "" "site0" ]} {[ "a" := factory_dpu; "b" := factory_dpu ]} ∅ ∅ 0.
Definition explore_dpu (m generated : string) : prog world answer :=
  answering Explored (explore_endpoint no_overrides false (dpu m) generated None).

(** Both look for the password before either has stored one. *)
Definition dpus : site_system :=
  play [(Tick "a", replicate 14 Done); (Tick "b", replicate 14 Done); (Tick "a", all_done); (Tick "b", all_done)]
    (mk_system dpu_site (<[Tick "b" := explore_dpu "b" "password-b"]> {[ Tick "a" := explore_dpu "a" "password-a" ]})).

(** C38: At a site without a service password, two DPUs that are explored at the same
    time can end with different service passwords of which one is stored; both
    explorations succeed, and both devices are recorded at version 0. *)
Theorem first_dpus_lose_service_password :
  exists s a st r,
    reachable no_overrides ready dpu false dpu_site s /\
    running s !! Tick "a" = Some (Ret (Explored (Ok ()))) /\ running s !! Tick "b" = Some (Ret (Explored (Ok ()))) /\
    bmcs (shared s) !! "a" = Some a /\
    effective no_overrides (shared s) (site_wide_dpu_bmc_service 0) = Some st /\ service_password a <> password st /\
    rotation_status DpuBmcService 0 (tabs (shared s)) = Ok r /\ converged r = 2 /\ complete r = true.
Proof.
  exists dpus, (mk_bmc "admin" "site0" "password-a"), (UsernamePassword "service" "password-b"),
    (mk_rotation_status 0 2 0 0 ∅ 0).
  split_and!; [|vm_compute; reflexivity..|done|vm_compute; reflexivity|done|done].
  unfold reachable, dpus.
  eapply rtc_l; [apply (step_start _ _ dpu_site ∅ (Tick "a") (explore_dpu "a" "password-a")); [done|]|].
  { apply (start_explore no_overrides ready dpu false "a" "password-a" None). }
  eapply rtc_l; [|apply play_steps].
  apply (step_start _ _ dpu_site _ (Tick "b") (explore_dpu "b" "password-b")); [done|].
  apply (start_explore no_overrides ready dpu false "b" "password-b" None).
Qed.
End RotationExamples.
