(* ===== verification/ExplorationPlan.v ===== *)
(** * ExplorationPlan: which endpoints a run of the site explorer probes

    The table of explored endpoints (crates/api-db/src/explored_endpoints.rs), the
    plan of a run ([plan_explorations] and [allocate] of
    crates/site-explorer/src/lib.rs) over the index of explored_endpoint_index.rs,
    and what the run writes. With a budget of at least ten no endpoint is passed over
    for long. *)

From S2P Require Import Prelude Text BTree ConfigVersion StateHandler IpNetwork.
Import StateHandler.

(** ** Orders of the sort keys *)

#[export] Instance Z_ord : Ord Z.
Proof.
  refine {| cmp := Z.compare |}.
  - apply Z.compare_eq_iff.
  - apply Z.compare_antisym.
  - intros x y z. rewrite !Z.compare_lt_iff. lia.
Defined.
(** IPv4 addresses come first. *)
#[export] Instance IpAddr_ord : Ord IpAddr.
Proof.
  refine {| cmp a b := match a, b with V4 x, V4 y | V6 x, V6 y => Z.compare x y | V4 _, V6 _ => Lt | V6 _, V4 _ => Gt end |}.
  - intros [x|x] [y|y]; rewrite ?Z.compare_eq_iff; naive_solver.
  - intros [x|x] [y|y]; try done; apply Z.compare_antisym.
  - intros [x|x] [y|y] [z|z]; rewrite ?Z.compare_lt_iff; try done; lia.
Defined.

Module ExploredEndpoints.
#[local] Existing Instance ConfigVersion.t_eq_dec.

(** ** Endpoints *)

Inductive BfbPlatformPowercyclePhase := PowerOff | PowerOn | WaitingForDpuBmc.
Inductive InitialResetPhase := ResetStart | BMCWasReset | WaitHostBoot.
Inductive InitialBmcResetPhase := Start (attempts : Z) | WaitForBmc | WaitForExplorerRefresh.
Inductive TimeSyncResetPhase := TimeSyncStart | TimeSyncBMCWasReset | TimeSyncWaitHostBoot.
Inductive FirmwareComponentType :=
| FirmwareBmc | FirmwareCec | FirmwareUefi | FirmwareNic | FirmwareCpldMb | FirmwareCpldPdb | FirmwareHGXBmc
| FirmwareCombinedBmcUefi | FirmwareGpu | FirmwareCx7 | FirmwareUnknown.
Inductive PowerDrainState := PowerDrainOff | PowerDrainPowercycle | PowerDrainOn.

Inductive PreingestionState :=
| Initial
| RecheckVersions
| ScriptRunning
| BfbRecoveryNeeded (reason : string) (host_bmc_ip : IpAddr) (pre_copy_powercycle : bool)
| BfbPlatformPowercycle (host_bmc_ip : IpAddr) (phase : BfbPlatformPowercyclePhase) (post_install : bool)
| BfbCopyInProgress (started_at : Z) (host_bmc_ip : IpAddr)
| BfbInstallationWait (started_at : Z) (host_bmc_ip : IpAddr)
| InitialReset (phase : InitialResetPhase) (last_time : Z)
| InitialBMCReset (phase : InitialBmcResetPhase)
| SetNtpServers (set_at : option Z) (attempts : Z)
| TimeSyncReset (phase : TimeSyncResetPhase) (last_time attempt : Z)
| RackFirmwareUpdateWait (backend_job_id : option string)
| UpgradeFirmwareWait (task_id final_version : string) (upgrade_type : FirmwareComponentType)
    (power_drains_needed firmware_number : option Z)
| ResetForNewFirmware (final_version : string) (upgrade_type : FirmwareComponentType) (power_drains_needed delay_until : option Z)
    (last_power_drain_operation : option PowerDrainState)
| NewFirmwareReportedWait (final_version : string) (upgrade_type : FirmwareComponentType) (previous_reset_time : option Z)
| RecheckVersionsAfterFailure (reason : string)
| PreingestionFailed (reason : string)
| Complete.

Definition parks_for_explorer_refresh (s : PreingestionState) : bool :=
  match s with
  | InitialBMCReset WaitForExplorerRefresh | RecheckVersions | NewFirmwareReportedWait _ _ _ | RecheckVersionsAfterFailure _ => true
  | _ => false
  end.

Section Reports.
(** [Body] is what a report holds besides the error of the last exploration. *)
Context {Body Error : Type}.

Record EndpointExplorationReport := mk_report { body : Body; is_power_shelf : bool; last_exploration_error : option Error }.
Record ExploredEndpoint := mk_endpoint {
  report : EndpointExplorationReport;
  report_version : ConfigVersion.t;
  preingestion_state : PreingestionState;
  waiting_for_explorer_refresh : bool;
  exploration_requested : bool;
  pause_ingestion_and_poweron : bool
}.
Abbreviation table := (gmap IpAddr ExploredEndpoint).

(** ** Statements

    [now] is the clock of the process, for new versions. *)
Inductive EndpointReportNotCurrent := EndpointReportNotCurrent_.
Inductive PreingestionResetNotApplicable := PreingestionResetNotApplicable_.

Definition with_error (err : option Error) (r : EndpointExplorationReport) : EndpointExplorationReport :=
  mk_report (body r) (is_power_shelf r) err.
Definition set_report (now : Z) (r : EndpointExplorationReport) (waiting : bool) (e : ExploredEndpoint) : ExploredEndpoint :=
  mk_endpoint r (ConfigVersion.increment (report_version e) now) (preingestion_state e) waiting false (pause_ingestion_and_poweron e).
(** [UPDATE .. WHERE address = $ AND version = $]. *)
Definition update_if_current (a : IpAddr) (v : ConfigVersion.t) (f : ExploredEndpoint -> ExploredEndpoint) (t : table)
    : table * ConditionalWrite unit EndpointReportNotCurrent :=
  match t !! a with
  | Some e => if decide (report_version e = v) then (<[a := f e]> t, Applied ()) else (t, NotApplied EndpointReportNotCurrent_)
  | None => (t, NotApplied EndpointReportNotCurrent_)
  end.

Definition try_update (now : Z) (a : IpAddr) (old_version : ConfigVersion.t) (r : EndpointExplorationReport) (waiting : bool)
    : table -> table * ConditionalWrite unit EndpointReportNotCurrent :=
  update_if_current a old_version (set_report now r waiting).
Definition try_update_last_exploration_error (now : Z) (a : IpAddr) (old_version : ConfigVersion.t) (err : Error)
    : table -> table * ConditionalWrite unit EndpointReportNotCurrent :=
  update_if_current a old_version
    (fun e => set_report now (with_error (Some err) (report e)) true e).
(** The row is locked: the update applies. *)
Definition clear_last_known_error (now : Z) (a : IpAddr) (t : table) : table :=
  match t !! a with
  | Some e => (try_update now a (report_version e) (with_error None (report e)) true t).1
  | None => t
  end.
Definition request_exploration (e : ExploredEndpoint) : ExploredEndpoint :=
  mk_endpoint (report e) (report_version e) (preingestion_state e) (waiting_for_explorer_refresh e) true (pause_ingestion_and_poweron e).
Definition re_explore_if_version_matches (a : IpAddr) (v : ConfigVersion.t)
    : table -> table * ConditionalWrite unit EndpointReportNotCurrent := update_if_current a v request_exploration.
Definition request_exploration_for_addresses (l : list IpAddr) (t : table) : table :=
  foldr (alter request_exploration) t l.
Definition set_waiting_for_explorer_refresh (a : IpAddr) : table -> table :=
  alter (fun e => mk_endpoint (report e) (report_version e) (preingestion_state e) true (exploration_requested e)
                    (pause_ingestion_and_poweron e)) a.
Definition with_preingestion (s : PreingestionState) (e : ExploredEndpoint) : ExploredEndpoint :=
  mk_endpoint (report e) (report_version e) s (waiting_for_explorer_refresh e) (exploration_requested e) (pause_ingestion_and_poweron e).
Definition set_preingestion (a : IpAddr) (s : PreingestionState) : table -> table := alter (with_preingestion s) a.
Definition set_preingestion_for_addresses (l : list IpAddr) (s : PreingestionState) (t : table) : table :=
  foldr (alter (with_preingestion s)) t l.
Definition reset_failed_preingestion (a : IpAddr) (t : table) : table * ConditionalWrite unit PreingestionResetNotApplicable :=
  match t !! a with
  | Some e => match preingestion_state e with
              | PreingestionFailed _ => (<[a := with_preingestion Initial e]> t, Applied ())
              | _ => (t, NotApplied PreingestionResetNotApplicable_)
              end
  | None => (t, NotApplied PreingestionResetNotApplicable_)
  end.
(** [ON CONFLICT DO NOTHING]. *)
Definition insert (now : Z) (a : IpAddr) (r : EndpointExplorationReport) (pause : bool) (t : table) : table :=
  match t !! a with
  | Some _ => t
  | None => <[a := mk_endpoint r (ConfigVersion.initial now) Initial false false pause]> t
  end.
Definition delete_many (l : list IpAddr) (t : table) : table := foldr base.delete t l.

(** ** Shares of the budget

    [usize] arithmetic; [None] is the panic of an overflow. *)
Definition usize_bound : Z := 2 ^ 64.
Definition usize_add (a b : Z) : option Z := if a + b <? usize_bound then Some (a + b) else None.
Definition usize_mul (a b : Z) : option Z := if a * b <? usize_bound then Some (a * b) else None.
Definition usize_sub (a b : Z) : option Z := if b <=? a then Some (a - b) else None.

Definition UNEXPLORED_SHARE_PERCENT : Z := 70.
Definition REFRESH_WAIT_SHARE_PERCENT : Z := 20.
Definition ROUTINE_SHARE_PERCENT : Z := 10.

Record TierCounts := mk_tiers { unexplored : Z; refresh_waits : Z; routine : Z }.
Definition total (c : TierCounts) : option Z := s ← usize_add (unexplored c) (refresh_waits c); usize_add s (routine c).

Definition share (budget percent : Z) : option Z := p ← usize_mul budget percent; Some (p / 100).
(** A turn of the loop that hands out what is left. *)
Definition hand_out (taken wanted spare : Z) : option (Z * Z) :=
  open ← usize_sub wanted taken;
  let more := Z.min open spare in
  taken ← usize_add taken more; spare ← usize_sub spare more; Some (taken, spare).

Definition allocate (budget : Z) (candidates : TierCounts) : option TierCounts :=
  all ← total candidates;
  let budget := Z.min budget all in
  q1 ← share budget UNEXPLORED_SHARE_PERCENT;
  q2 ← share budget REFRESH_WAIT_SHARE_PERCENT;
  q3 ← share budget ROUTINE_SHARE_PERCENT;
  sum ← total (mk_tiers q1 q2 q3);
  rest ← usize_sub budget sum;
  q1 ← usize_add q1 rest;
  let t1 := Z.min q1 (unexplored candidates) in
  let t2 := Z.min q2 (refresh_waits candidates) in
  let t3 := Z.min q3 (routine candidates) in
  taken ← total (mk_tiers t1 t2 t3);
  spare ← usize_sub budget taken;
  r1 ← hand_out t1 (unexplored candidates) spare;
  r2 ← hand_out t2 (refresh_waits candidates) r1.2;
  r3 ← hand_out t3 (routine candidates) r2.2;
  Some (mk_tiers r1.1 r2.1 r3.1).

(** ** The plan *)

Record MachineInterfaceSnapshot := mk_interface { mac_address : string; addresses : list IpAddr; created : Z }.
Definition Candidate : Type := IpAddr * MachineInterfaceSnapshot * ExploredEndpoint.
Record ExplorationPlan := mk_plan {
  priority_tier : list Candidate;
  unexplored_tier : list (IpAddr * MachineInterfaceSnapshot);
  refresh_wait_tier : list Candidate;
  routine_tier : list Candidate
}.

Definition by_key {A K} `{Ord K} (k : A -> K) (x y : A) : Prop := cmp (k x) (k y) <> Gt.
#[export] Instance by_key_dec {A K} `{Ord K} (k : A -> K) : RelDecision (by_key k).
Proof. intros x y. unfold by_key. apply _. Defined.
Definition sort_by_key {A K} `{Ord K} (k : A -> K) (l : list A) : list A := merge_sort (by_key k) l.

Definition is_priority (c : Candidate) : bool := exploration_requested c.2.
Definition is_refresh_wait (c : Candidate) : bool :=
  negb (is_priority c) && waiting_for_explorer_refresh c.2 && parks_for_explorer_refresh (preingestion_state c.2).
Definition is_routine (c : Candidate) : bool := negb (is_priority c) && negb (is_refresh_wait c).
Definition oldest_report_first (c : Candidate) : Z * IpAddr := (ConfigVersion.timestamp (report_version c.2), c.1.1).
Definition oldest_interface_first (x : IpAddr * MachineInterfaceSnapshot) : Z * IpAddr := (created x.2, x.1).

Definition plan_explorations (candidates : list Candidate) (new : list (IpAddr * MachineInterfaceSnapshot)) (budget : Z)
    : option ExplorationPlan :=
  let priority := sort_by_key (fun c : Candidate => c.1.1) (filter (fun c => is_priority c = true) candidates) in
  let new := sort_by_key oldest_interface_first new in
  let waits := sort_by_key oldest_report_first (filter (fun c => is_refresh_wait c = true) candidates) in
  let rest := sort_by_key oldest_report_first (filter (fun c => is_routine c = true) candidates) in
  n ← allocate budget (mk_tiers (Z.of_nat (length new)) (Z.of_nat (length waits)) (Z.of_nat (length rest)));
  Some (mk_plan priority (take (Z.to_nat (unexplored n)) new) (take (Z.to_nat (refresh_waits n)) waits)
          (take (Z.to_nat (routine n)) rest)).

(** *** The index of interfaces

    [interfaces] are those that are scanned, one for a MAC address; an address is of
    one of them. *)
Section Run.
Context (interfaces : list MachineInterfaceSnapshot) (budget : Z).

Definition explored_underlay_interfaces : gmap string MachineInterfaceSnapshot :=
  foldl (fun m i => <[mac_address i := i]> m) ∅ interfaces.
Definition underlay_interfaces_addr_index : gmap IpAddr string :=
  foldl (fun m x => <[x.1 := x.2]> m) ∅
    (i ← (map_to_list explored_underlay_interfaces).*2; (fun a => (a, mac_address i)) <$> addresses i).
Definition underlay_interface (a : IpAddr) : option MachineInterfaceSnapshot :=
  m ← underlay_interfaces_addr_index !! a; explored_underlay_interfaces !! m.
Definition get_unexplored_endpoints (t : table) : list (IpAddr * MachineInterfaceSnapshot) :=
  omap (fun x => if t !! x.1 is Some _ then None else (x.1,.) <$> explored_underlay_interfaces !! x.2)
    (map_to_list underlay_interfaces_addr_index).

(** What is explored of the endpoints that are not suppressed. *)
Definition explored_candidates (suppressed : gset string) (t : table) : list Candidate :=
  omap (fun x => i ← underlay_interface x.1; if decide (mac_address i ∈ suppressed) then None else Some (x.1, i, x.2))
    (map_to_list t).
Definition stale (t : table) : list IpAddr :=
  omap (fun x => match underlay_interface x.1 with
                 | Some _ => None
                 | None => if is_power_shelf (report x.2) then None else Some x.1
                 end) (map_to_list t).
Definition plan_run (suppressed : gset string) (t : table) : option ExplorationPlan :=
  plan_explorations (explored_candidates suppressed t)
    (filter (fun x => mac_address x.2 ∉ suppressed) (get_unexplored_endpoints t)) budget.

(** An endpoint that is probed, with its row if there is one. *)
Record Endpoint := mk_planned { address : IpAddr; iface : MachineInterfaceSnapshot; last_explored : option ExploredEndpoint }.
Definition explored (c : Candidate) : Endpoint := mk_planned c.1.1 c.1.2 (Some c.2).
Definition planned_endpoints (p : ExplorationPlan) : list Endpoint :=
  (explored <$> priority_tier p) ++ ((fun x => mk_planned x.1 x.2 None) <$> unexplored_tier p)
  ++ (explored <$> refresh_wait_tier p) ++ (explored <$> routine_tier p).

Definition targets (l : list Endpoint) : list (IpAddr * string) := (fun e => (address e, mac_address (iface e))) <$> l.

(** *** What a run writes

    [manual] says whether the endpoint is ingested by hand. *)
Context (new_with_error : Error -> EndpointExplorationReport) (pause manual : MachineInterfaceSnapshot -> bool).

Definition record_result (now : Z) (e : Endpoint) (r : result Error EndpointExplorationReport) (t : table) : table :=
  match last_explored e, r with
  | Some old, Ok rep => (try_update now (address e) (report_version old) rep false t).1
  | Some old, Err err => (try_update_last_exploration_error now (address e) (report_version old) err t).1
  | None, _ =>
      let rep := match r with Ok rep => rep | Err err => new_with_error err end in
      let t := insert now (address e) rep (pause (iface e)) t in
      if manual (iface e) then set_preingestion (address e) Complete t else t
  end.
(** In the order of the addresses; endpoints that somebody else probes have no result. *)
Definition record_results (now : Z) (results : IpAddr -> option (result Error EndpointExplorationReport)) (l : list Endpoint)
    (t : table) : table :=
  foldl (fun t e => match results (address e) with Some r => record_result now e r t | None => t end) t
    (sort_by_key address l).
End Run.
End Reports.

(** ** Budgets *)

Lemma usize_sub_spec a b : b <= a -> usize_sub a b = Some (a - b).
Proof. intros H. unfold usize_sub. by rewrite (proj2 (Z.leb_le _ _)). Qed.
Lemma usize_add_spec a b : a + b < usize_bound -> usize_add a b = Some (a + b).
Proof. intros H. unfold usize_add. by rewrite (proj2 (Z.ltb_lt _ _)). Qed.
Lemma hand_out_spec taken wanted spare :
  0 <= taken <= wanted -> 0 <= spare -> wanted < usize_bound ->
  hand_out taken wanted spare = Some (Z.min wanted (taken + spare), spare - (Z.min wanted (taken + spare) - taken)).
Proof.
  intros H1 H2 H3. unfold hand_out. rewrite usize_sub_spec by lia. simpl. rewrite usize_add_spec by lia. simpl.
  rewrite usize_sub_spec by lia. simpl. f_equal. f_equal; lia.
Qed.
Lemma total_spec c :
  unexplored c + refresh_waits c + routine c < usize_bound -> 0 <= routine c -> total c = Some (unexplored c + refresh_waits c + routine c).
Proof.
  intros H1 H2. unfold total. rewrite usize_add_spec by lia. simpl. by rewrite usize_add_spec by lia.
Qed.
Lemma share_spec b p : b * p < usize_bound -> share b p = Some (b * p / 100).
Proof. intros H. unfold share, usize_mul. by rewrite (proj2 (Z.ltb_lt _ _)). Qed.

(** However large the configured budget is, the shares do not overflow as long
    as there are fewer than 2^64 / 70 candidates; all of the budget is spent as far as
    there are candidates; every tier gets its 70, 20 or 10 percent unless it has
    fewer candidates; and a tier gets more than its share only when the tiers before
    it have nothing left. *)
Lemma allocate_shares budget c :
  let all := unexplored c + refresh_waits c + routine c in
  let b := Z.min budget all in
  0 <= budget -> 0 <= unexplored c -> 0 <= refresh_waits c -> 0 <= routine c -> all * 70 < usize_bound ->
  exists n, allocate budget c = Some n /\ unexplored n + refresh_waits n + routine n = b /\
    Z.min (unexplored c) (b * 70 / 100) <= unexplored n <= unexplored c /\
    Z.min (refresh_waits c) (b * 20 / 100) <= refresh_waits n <= refresh_waits c /\
    Z.min (routine c) (b * 10 / 100) <= routine n <= routine c /\
    (b * 20 / 100 < refresh_waits n -> unexplored n = unexplored c) /\
    (b * 10 / 100 < routine n -> unexplored n = unexplored c /\ refresh_waits n = refresh_waits c).
Proof.
  intros all b Hb H1 H2 H3 Hall. unfold allocate. rewrite total_spec by lia. simpl. fold all. fold b.
  assert (Hbb : 0 <= b <= all) by lia. assert (Eall : all = unexplored c + refresh_waits c + routine c) by done.
  clearbody b all. unfold UNEXPLORED_SHARE_PERCENT, REFRESH_WAIT_SHARE_PERCENT, ROUTINE_SHARE_PERCENT.
  rewrite !share_spec by lia. simpl.
  set (q1 := b * 70 / 100). set (q2 := b * 20 / 100). set (q3 := b * 10 / 100).
  assert (Hq : 0 <= q1 /\ 0 <= q2 /\ 0 <= q3 /\ q1 + q2 + q3 <= b) by (subst q1 q2 q3; Z.to_euclidean_division_equations; lia).
  rewrite total_spec by (simpl; lia). simpl. rewrite usize_sub_spec by lia. simpl. rewrite usize_add_spec by lia. simpl.
  rewrite total_spec by (simpl; lia). simpl. rewrite usize_sub_spec by lia. simpl.
  rewrite !hand_out_spec by lia. simpl. rewrite !hand_out_spec by lia. simpl. rewrite !hand_out_spec by lia. simpl.
  eexists. split; [done|]. simpl. lia.
Qed.

(** ** The index of interfaces *)

Lemma foldl_insert_Some {A K V} `{Countable K} (f : A -> K) (g : A -> V) l (m : gmap K V) k v :
  foldl (fun m x => <[f x := g x]> m) m l !! k = Some v -> m !! k = Some v \/ exists x, x ∈ l /\ f x = k /\ g x = v.
Proof.
  revert m. induction l as [|x l IH]; intros m; simpl; [by left|]. intros [H'|(y & ? & ? & ?)]%IH.
  - apply lookup_insert_Some in H' as [[? ?]|[_ ?]]; [right; exists x; split_and!; [left|done..]|by left].
  - right. exists y. split_and!; [by right|done..].
Qed.
(** An interface that is found has the address. *)
Lemma underlay_interface_Some interfaces a i :
  underlay_interface interfaces a = Some i -> i ∈ interfaces /\ a ∈ addresses i.
Proof.
  unfold underlay_interface. intros (m & Hm & Hi)%bind_Some.
  assert (Hmac : forall m i, explored_underlay_interfaces interfaces !! m = Some i -> i ∈ interfaces /\ mac_address i = m).
  { intros m0 j [Hj|(x & Hx & ? & <-)]%foldl_insert_Some; [by rewrite lookup_empty in Hj|done]. }
  apply foldl_insert_Some in Hm as [Hm|([b m'] & Hx & <- & <-)]; [by rewrite lookup_empty in Hm|]. simpl in *.
  apply list_elem_of_bind in Hx as (j & Hx & Hj). apply list_elem_of_fmap in Hx as (b' & [= -> ->] & Hb).
  apply list_elem_of_fmap in Hj as ([m j'] & -> & Hj%elem_of_map_to_list). simpl in *.
  destruct (Hmac _ _ Hj) as [? Em]. rewrite Em, Hj in Hi. by simplify_eq.
Qed.
(** What is not stale is in the index, or a power shelf. *)
Lemma not_stale {Body Error} interfaces (t : gmap IpAddr (@ExploredEndpoint Body Error)) a e :
  t !! a = Some e -> a ∉ stale interfaces t ->
  is_Some (underlay_interface interfaces a) \/ is_power_shelf (report e) = true.
Proof.
  intros He Ha. destruct (underlay_interface interfaces a) eqn:E; [left; by eexists|right].
  destruct (is_power_shelf (report e)) eqn:Es; [done|]. destruct Ha. apply list_elem_of_omap. exists (a, e).
  split; [by apply elem_of_map_to_list|]. simpl. by rewrite E, Es.
Qed.

(** ** Nobody is passed over for long *)

Lemma by_key_total {A K} `{Ord K} (k : A -> K) : Total (by_key k).
Proof. intros x y. unfold by_key. rewrite (cmp_opp (k x) (k y)). destruct (cmp (k x) (k y)); simpl; auto; by left. Qed.
Lemma by_key_trans {A K} `{Ord K} (k : A -> K) : Transitive (by_key k).
Proof. intros x y z. apply cmp_le_trans. Qed.

(** What is not among the first comes after them. *)
Lemma not_taken {A K} `{Ord K} (k : A -> K) (l : list A) n c :
  c ∈ l -> c ∉ take n (sort_by_key k l) ->
  (n < length l)%nat /\ forall x, x ∈ take n (sort_by_key k l) -> x ∈ l /\ x <> c /\ by_key k x c.
Proof.
  intros Hc Hn. unfold sort_by_key in *. pose proof (merge_sort_Permutation (by_key k) l) as Hp.
  assert (Hs : StronglySorted (by_key k) (merge_sort (by_key k) l))
    by (apply StronglySorted_merge_sort; [apply by_key_trans|apply by_key_total]).
  rewrite <- Hp in Hc. rewrite <- (take_drop n (merge_sort (by_key k) l)) in Hs, Hc.
  apply elem_of_app in Hc as [?|Hc]; [done|]. split.
  - rewrite <- (Permutation_length Hp). destruct (decide (n < length (merge_sort (by_key k) l))%nat); [done|].
    rewrite drop_ge in Hc by lia. by apply not_elem_of_nil in Hc.
  - intros x Hx. split_and!; [|by intros ->|by eapply StronglySorted_app_1_elem_of].
    rewrite <- Hp, <- (take_drop n (merge_sort (by_key k) l)). apply elem_of_app. by left.
Qed.

Section Fair.
Context {Body Error : Type}.
Abbreviation candidate := (@Candidate Body Error).
Abbreviation rows := (gmap IpAddr (@ExploredEndpoint Body Error)).

(** A candidate that is left out when a tier takes [k] of [l]. *)
Lemma tier_passes_over (Q : candidate -> Prop) (cands l : list candidate) k least c :
  0 <= k -> NoDup l -> (forall x, x ∈ l -> x ∈ cands) -> c ∈ l -> c ∉ take (Z.to_nat k) (sort_by_key oldest_report_first l) ->
  (k < Z.of_nat (length l) -> least <= k) -> (forall x, x ∈ take (Z.to_nat k) (sort_by_key oldest_report_first l) -> Q x) ->
  exists l', NoDup l' /\ least <= Z.of_nat (length l') /\
    forall x, x ∈ l' -> x ∈ cands /\ x <> c /\ by_key oldest_report_first x c /\ Q x.
Proof.
  intros Hk Hl Hin Hc Hn Hleast HQ. destruct (not_taken _ _ _ _ Hc Hn) as [Hlt Hx].
  pose proof (merge_sort_Permutation (by_key oldest_report_first) l) as Hp.
  exists (take (Z.to_nat k) (sort_by_key oldest_report_first l)). split_and!.
  - eapply sublist_NoDup; [|apply sublist_take]. unfold sort_by_key. by rewrite Hp.
  - rewrite length_take. unfold sort_by_key. rewrite (Permutation_length Hp). lia.
  - intros x H. destruct (Hx x H) as (? & ? & ?). auto.
Qed.

Definition planned (p : ExplorationPlan) (c : candidate) : Prop :=
  c ∈ priority_tier p \/ c ∈ refresh_wait_tier p \/ c ∈ routine_tier p.

(** A plan that leaves out a candidate has a tenth of the budget for others whose
    reports are older. *)
Lemma plan_passes_over (cands : list candidate) new budget p c :
  0 <= budget -> (Z.of_nat (length cands) + Z.of_nat (length new)) * 70 < usize_bound -> NoDup cands ->
  plan_explorations cands new budget = Some p -> c ∈ cands -> ~ planned p c ->
  exists l, NoDup l /\ budget / 10 <= Z.of_nat (length l) /\
    forall x, x ∈ l -> x ∈ cands /\ x <> c /\ by_key oldest_report_first x c /\ planned p x.
Proof.
  intros Hb Hbound Hn Hp Hc Hnp. unfold plan_explorations in Hp.
  set (pri := filter (fun c => is_priority c = true) cands) in Hp.
  set (waits := filter (fun c => is_refresh_wait c = true) cands) in Hp.
  set (rest := filter (fun c => is_routine c = true) cands) in Hp.
  assert (Hlen : (length waits + length rest <= length cands)%nat).
  { subst waits rest. clear. induction cands as [|x l IH]; [done|]. rewrite !filter_cons.
    destruct (decide (is_refresh_wait x = true)) as [E|], (decide (is_routine x = true)) as [E'|]; simpl; try lia.
    unfold is_routine in E'. rewrite E in E'. by destruct (is_priority x). }
  destruct (allocate_shares budget (mk_tiers (Z.of_nat (length new)) (Z.of_nat (length waits)) (Z.of_nat (length rest))))
    as (n & Ea & Hsum & H1 & H2 & H3 & _); simpl in *; [lia..|].
  unfold sort_by_key in Hp. rewrite !(Permutation_length (merge_sort_Permutation _ _)), Ea in Hp. simpl in Hp.
  fold (sort_by_key oldest_report_first waits) (sort_by_key oldest_report_first rest) in Hp. injection Hp as Hp.
  assert (Hc' : c ∈ waits \/ c ∈ rest).
  { destruct (is_priority c) eqn:Ep; [destruct Hnp; left; rewrite <- Hp; simpl; rewrite (merge_sort_Permutation _ pri); by apply list_elem_of_filter|].
    destruct (is_refresh_wait c) eqn:Er; [left|right]; apply list_elem_of_filter; split; [done..| |done].
    unfold is_routine. by rewrite Ep, Er. }
  assert (Hpos : 0 <= refresh_waits n /\ 0 <= routine n) by (clear -Hb H2 H3; Z.to_euclidean_division_equations; lia).
  destruct Hc' as [Hw|Hr].
  - apply (tier_passes_over _ cands waits (refresh_waits n)); [lia|by apply NoDup_filter|by intros x [_ ?]%list_elem_of_filter|done| | |].
    + intros H. apply Hnp. right; left. by rewrite <- Hp.
    + intros H. Z.to_euclidean_division_equations; lia.
    + intros x H. right; left. by rewrite <- Hp.
  - apply (tier_passes_over _ cands rest (routine n)); [lia|by apply NoDup_filter|by intros x [_ ?]%list_elem_of_filter|done| | |].
    + intros H. apply Hnp. right; right. by rewrite <- Hp.
    + intros H. Z.to_euclidean_division_equations; lia.
    + intros x H. right; right. by rewrite <- Hp.
Qed.

(** *** Rounds *)

Definition row_key (a : IpAddr) (e : @ExploredEndpoint Body Error) : Z * IpAddr := (ConfigVersion.timestamp (report_version e), a).
(** How many rows have older reports. *)
Definition older (k : Z * IpAddr) (t : rows) : nat := base.size (filter (fun x => cmp (row_key x.1 x.2) k = Lt) t).

(** What others do to the table in the meantime, as far as reports up to [k] go: they
    delete rows and write newer reports, and change the other columns as they like. *)
Definition others (k : Z * IpAddr) (t t' : rows) : Prop :=
  forall a e', t' !! a = Some e' -> cmp (row_key a e') k <> Gt ->
    exists e, t !! a = Some e /\ report_version e = report_version e'.

Section Written.
Context (new_with_error : Error -> @EndpointExplorationReport Body Error) (pause manual : MachineInterfaceSnapshot -> bool).
Abbreviation record := (record_result new_with_error pause manual).
Abbreviation recorded := (record_results new_with_error pause manual).

Definition written_at (now : Z) (e : @ExploredEndpoint Body Error) : Prop :=
  ConfigVersion.timestamp (report_version e) = ConfigVersion.now now.

Lemma update_if_current_row a v f (t : rows) b e' :
  (update_if_current a v f t).1 !! b = Some e' ->
  t !! b = Some e' \/ (b = a /\ exists e, t !! a = Some e /\ report_version e = v /\ e' = f e).
Proof.
  unfold update_if_current. destruct (t !! a) as [e|] eqn:E; [|by left]. case_decide; [|by left]. simpl.
  intros [[<- <-]|[_ H']]%lookup_insert_Some; [right|by left]. split; [done|]. by exists e.
Qed.

(** A row keeps its version or is new. *)
Lemma record_row now x r (t : rows) a e' :
  record now x r t !! a = Some e' ->
  written_at now e' \/ exists e, t !! a = Some e /\ report_version e = report_version e'.
Proof.
  unfold record_result. destruct (last_explored x) as [old|].
  - destruct r as [rep|err]; (intros [?|(-> & e & _ & _ & ->)]%update_if_current_row; [right; by exists e'|by left]).
  - set (rep := match r with Ok _ => _ | Err _ => _ end).
    assert (Hi : forall e1, insert now (address x) rep (pause (iface x)) t !! a = Some e1 ->
      written_at now e1 \/ exists e, t !! a = Some e /\ report_version e = report_version e1).
    { intros e1. unfold insert. destruct (t !! address x) eqn:E; [right; by exists e1|].
      intros [[<- <-]|[_ H]]%lookup_insert_Some; [by left|right; by exists e1]. }
    destruct (manual (iface x)); [|apply Hi]. unfold set_preingestion. intros [(_ & e1 & H & ->)|[_ H]]%lookup_alter_Some; [|by apply Hi].
    destruct (Hi e1 H) as [?|?]; [by left|by right].
Qed.

(** A report keeps what it says of the endpoint, or is of the probe. *)
Definition alike (r r' : @EndpointExplorationReport Body Error) : Prop := body r' = body r /\ is_power_shelf r' = is_power_shelf r.
Definition of_probe (r : result Error (@EndpointExplorationReport Body Error)) : EndpointExplorationReport :=
  match r with Ok rep => rep | Err err => new_with_error err end.
Lemma record_report now x r (t : rows) a e' :
  record now x r t !! a = Some e' ->
  (exists e, t !! a = Some e /\ alike (report e) (report e')) \/ (a = address x /\ report e' = of_probe r).
Proof.
  unfold record_result. destruct (last_explored x) as [old|].
  - destruct r as [rep|err]; intros [?|(-> & e & He & _ & ->)]%update_if_current_row;
      [left; by exists e'|by right|left; by exists e'|left; by exists e].
  - fold (of_probe r).
    assert (Hi : forall e1, insert now (address x) (of_probe r) (pause (iface x)) t !! a = Some e1 ->
      (exists e, t !! a = Some e /\ alike (report e) (report e1)) \/ (a = address x /\ report e1 = of_probe r)).
    { intros e1. unfold insert. destruct (t !! address x) eqn:E; [left; by exists e1|].
      intros [[<- <-]|[_ H]]%lookup_insert_Some; [by right|left; by exists e1]. }
    destruct (manual (iface x)); [|apply Hi]. unfold set_preingestion. intros [(_ & e1 & H & ->)|[_ H]]%lookup_alter_Some; [|by apply Hi].
    exact (Hi e1 H).
Qed.
Lemma recorded_report now results l (t : rows) a e' :
  recorded now results l t !! a = Some e' ->
  exists e, alike (report e) (report e') /\
    (t !! a = Some e \/ exists x r, x ∈ l /\ a = address x /\ results a = Some r /\ report e = of_probe r).
Proof.
  unfold record_results. intros H.
  assert (Hl : forall x, x ∈ sort_by_key address l -> x ∈ l) by (intros x; unfold sort_by_key; by rewrite (merge_sort_Permutation _ l)).
  revert t H Hl. induction (sort_by_key address l) as [|x k IH]; intros t H Hl; simpl in H; [by exists e'; split; [|left]|].
  destruct (IH _ H) as (e & Ha & He); [intros y Hy; apply Hl; by right|]. destruct He as [He|He]; [|by exists e; split; [|right]].
  destruct (results (address x)) as [r|] eqn:Er; [|by exists e; split; [|left]].
  destruct (record_report _ _ _ _ _ _ He) as [(e0 & He0 & H0)|[-> H0]].
  - exists e0. split; [|by left]. destruct Ha, H0. split; congruence.
  - exists e. split; [done|]. right. exists x, r. split_and!; [apply Hl; left|done..].
Qed.

(** After the result of a probe is recorded, the row is new, unless it was new. *)
Lemma record_current now x old r (t : rows) e' :
  last_explored x = Some old -> record now x r t !! address x = Some e' ->
  (forall e, t !! address x = Some e -> report_version e = report_version old \/ written_at now e) -> written_at now e'.
Proof.
  intros Hl He Ht. unfold record_result, try_update, try_update_last_exploration_error, update_if_current in He. rewrite Hl in He.
  destruct (t !! address x) as [e|] eqn:E; [|by destruct r; simpl in He; rewrite E in He].
  destruct (Ht e eq_refl) as [Hv|Hv].
  - destruct r; (rewrite decide_True in He by done); simpl in He; rewrite lookup_insert_eq in He; by injection He as <-.
  - destruct r; case_decide; simpl in He; rewrite ?lookup_insert_eq, ?E in He; by injection He as <-.
Qed.

Lemma recorded_fold now results l (t : rows) a e' :
  foldl (fun t e => match results (address e) with Some r => record now e r t | None => t end) t l !! a = Some e' ->
  written_at now e' \/ exists e, t !! a = Some e /\ report_version e = report_version e'.
Proof.
  revert t. induction l as [|x l IH]; intros t; simpl; [right; by exists e'|]. intros H.
  destruct (IH _ H) as [?|(e & He & Hv)]; [by left|]. destruct (results (address x)) as [r|]; [|right; by exists e].
  destruct (record_row _ _ _ _ _ _ He) as [Hw|(e0 & ? & ?)]; [left; unfold written_at; by rewrite <- Hv|].
  right. exists e0. split; [done|congruence].
Qed.

Lemma recorded_probed now results l x old (t : rows) e' :
  x ∈ l -> last_explored x = Some old -> is_Some (results (address x)) ->
  (forall e, t !! address x = Some e -> report_version e = report_version old \/ written_at now e) ->
  foldl (fun t e => match results (address e) with Some r => record now e r t | None => t end) t l !! address x = Some e' ->
  written_at now e'.
Proof.
  intros Hx Hl [r Hr]. revert t. induction l as [|y l IH]; intros t Ht; [by apply not_elem_of_nil in Hx|].
  simpl. intros H. apply elem_of_cons in Hx as [<-|Hx].
  - rewrite Hr in H. destruct (recorded_fold _ _ _ _ _ _ H) as [?|(e & He & Hv)]; [done|].
    unfold written_at. rewrite <- Hv. by eapply record_current.
  - eapply IH; [done| |exact H]. intros e He. destruct (results (address y)) as [r'|]; [|by apply Ht].
    destruct (record_row _ _ _ _ _ _ He) as [?|(e0 & He0 & Hv)]; [by right|].
    destruct (Ht e0 He0) as [E|E]; [left; congruence|right; unfold written_at in *; congruence].
Qed.
End Written.

(** The endpoint at the address of [k] has a report of the time in [k] and could be
    probed, but the run probes others instead, all of which nobody else probes. The
    clock of the run is past the time of the report. *)
Inductive passes_over (budget : Z) (k : Z * IpAddr) (t t' : rows) : Prop :=
| passes_over_run interfaces suppressed p now results new_with_error pause manual e i t1 :
    t !! k.2 = Some e -> ConfigVersion.timestamp (report_version e) = k.1 ->
    underlay_interface interfaces k.2 = Some i -> mac_address i ∉ suppressed ->
    (Z.of_nat (base.size t) + Z.of_nat (length (get_unexplored_endpoints interfaces t))) * 70 < usize_bound ->
    plan_run interfaces budget suppressed t = Some p -> k.2 ∉ address <$> planned_endpoints p ->
    (forall x, x ∈ planned_endpoints p -> is_Some (results (address x))) -> k.1 < ConfigVersion.now now ->
    others k (delete_many (stale interfaces t) t) t1 ->
    others k (record_results new_with_error pause manual now results (planned_endpoints p) t1) t' ->
    passes_over budget k t t'.
Inductive passes_over_times (budget : Z) (k : Z * IpAddr) : nat -> rows -> rows -> Prop :=
| passes_over_none t : passes_over_times budget k 0 t t
| passes_over_more n t t1 t2 :
    passes_over budget k t t1 -> passes_over_times budget k n t1 t2 -> passes_over_times budget k (S n) t t2.

Lemma candidate_row interfaces suppressed (t : rows) x :
  x ∈ explored_candidates interfaces suppressed t ->
  t !! x.1.1 = Some x.2 /\ underlay_interface interfaces x.1.1 = Some x.1.2 /\ mac_address x.1.2 ∉ suppressed.
Proof.
  intros ([a e] & Hx & H)%list_elem_of_omap. apply elem_of_map_to_list in Hx. simpl in H.
  apply bind_Some in H as (i & Hi & H). case_decide; [done|]. by injection H as <-.
Qed.
Lemma candidates_NoDup interfaces suppressed (t : rows) : NoDup (explored_candidates interfaces suppressed t).
Proof.
  unfold explored_candidates. pose proof (NoDup_fst_map_to_list t) as Hn. revert Hn. generalize (map_to_list t). intros l.
  set (f := fun x : IpAddr * ExploredEndpoint => _).
  assert (Hf : forall x y, f x = Some y -> y.1.1 = x.1).
  { intros x y (i & _ & H)%bind_Some. case_decide; [done|]. by injection H as <-. }
  clearbody f. induction l as [|x l IH]; intros Hn; [constructor|]. apply NoDup_cons in Hn as [Hx Hn]. simpl.
  destruct (f x) as [y|] eqn:E; [|by apply IH]. constructor; [|by apply IH].
  intros (z & Hz & Ez)%list_elem_of_omap. apply Hx. rewrite <- (Hf _ _ E), (Hf _ _ Ez). by apply list_elem_of_fmap_2.
Qed.
Lemma candidates_length interfaces suppressed (t : rows) : (length (explored_candidates interfaces suppressed t) <= base.size t)%nat.
Proof.
  unfold explored_candidates. rewrite <- length_map_to_list. set (f := fun x : IpAddr * ExploredEndpoint => _). clearbody f.
  induction (map_to_list t) as [|x l IH]; [done|].
  change (omap f (x :: l)) with (match f x with Some y => y :: omap f l | None => omap f l end).
  destruct (f x); cbn [length]; lia.
Qed.
Lemma delete_many_row l (t : rows) a e : delete_many l t !! a = Some e -> t !! a = Some e.
Proof. induction l as [|b l IH]; simpl; [done|]. intros [_ ?]%lookup_delete_Some. auto. Qed.
Lemma delete_many_gone l (t : rows) a : is_Some (delete_many l t !! a) -> is_Some (t !! a) /\ a ∉ l.
Proof.
  induction l as [|b l IH]; simpl; [split; [done|apply not_elem_of_nil]|]. intros [e [Hb He]%lookup_delete_Some].
  destruct IH as [? ?]; [by eexists|]. split; [done|]. apply not_elem_of_cons. by split.
Qed.
Lemma planned_probed (p : ExplorationPlan) (c : candidate) : planned p c -> explored c ∈ planned_endpoints p.
Proof. unfold planned, planned_endpoints. rewrite !elem_of_app. intros [H|[H|H]]; apply (list_elem_of_fmap_2 explored) in H; tauto. Qed.

Lemma sorted_elem {A K} `{Ord K} (f : A -> K) (l : list A) x : x ∈ sort_by_key f l <-> x ∈ l.
Proof. unfold sort_by_key. by rewrite (merge_sort_Permutation _ l). Qed.
(** What is planned is in the index, and not suppressed. *)
Lemma planned_indexed interfaces budget suppressed (t : rows) p e :
  plan_run interfaces budget suppressed t = Some p -> e ∈ planned_endpoints p ->
  underlay_interface interfaces (address e) = Some (iface e) /\ mac_address (iface e) ∉ suppressed.
Proof.
  intros (n & _ & [= <-])%bind_Some He. unfold planned_endpoints in He. simpl in He.
  assert (Hc : forall c : candidate, c ∈ explored_candidates interfaces suppressed t ->
    underlay_interface interfaces c.1.1 = Some c.1.2 /\ mac_address c.1.2 ∉ suppressed) by (by intros c (_ & ? & ?)%candidate_row).
  assert (Hu : forall x, x ∈ get_unexplored_endpoints interfaces t -> underlay_interface interfaces x.1 = Some x.2).
  { intros [a i] ([b m] & Hx & H)%list_elem_of_omap. apply elem_of_map_to_list in Hx. simpl in H.
    destruct (t !! b); [done|]. apply fmap_Some in H as (j & Hj & [= -> ->]). unfold underlay_interface. simpl. by rewrite Hx. }
  rewrite !elem_of_app, !list_elem_of_fmap in He. destruct He as [H|[H|[H|H]]]; destruct H as (c & -> & H); simpl;
    [|apply elem_of_take in H as (k & H & _); apply list_elem_of_lookup_2 in H..]; rewrite sorted_elem in H; apply list_elem_of_filter in H as [? ?]; auto.
Qed.

Lemma older_shrinks k (t t' : rows) (l : list IpAddr) :
  NoDup l -> (forall a, a ∈ l -> exists e, t !! a = Some e /\ cmp (row_key a e) k = Lt) ->
  (forall a e', t' !! a = Some e' -> cmp (row_key a e') k = Lt -> a ∉ l /\ exists e, t !! a = Some e /\ cmp (row_key a e) k = Lt) ->
  (older k t' + length l <= older k t)%nat.
Proof.
  intros Hn Hl Ht. unfold older. rewrite <- !size_dom, <- (size_list_to_set (C := gset IpAddr) l) by done.
  rewrite <- size_union.
  - apply subseteq_size. intros a [Ha|Ha]%elem_of_union; apply elem_of_dom.
    + apply elem_of_dom in Ha as [e' [He' Hk]%map_lookup_filter_Some]. destruct (Ht a e' He' Hk) as (_ & e & ? & ?).
      exists e. by apply map_lookup_filter_Some.
    + apply elem_of_list_to_set, Hl in Ha as (e & ? & ?). exists e. by apply map_lookup_filter_Some.
  - intros a Ha Hal%elem_of_list_to_set. apply elem_of_dom in Ha as [e' [He' Hk]%map_lookup_filter_Some]. by destruct (Ht a e' He' Hk).
Qed.

(** A row that is older in the end was not probed, and was as old before. *)
Lemma old_rows_unprobed k (t t1 t' : rows) nwe pause manual now results l x :
  k.1 < ConfigVersion.now now -> others k t t1 ->
  others k (record_results nwe pause manual now results l t1) t' ->
  forall a e', t' !! a = Some e' -> cmp (row_key a e') k = Lt ->
  exists e, t !! a = Some e /\ report_version e = report_version e' /\
    (x ∈ l -> address x = a -> is_Some (results a) -> last_explored x = Some e -> False).
Proof.
  intros Hnow H1 H2 a e' He' Hk. destruct (H2 a e' He') as (e2 & He2 & Hv2); [by rewrite Hk|].
  assert (Hold : ~ written_at now e2).
  { unfold written_at. intros E. unfold row_key in Hk. rewrite <- Hv2, E, (surjective_pairing k), cmp_pair in Hk.
    change (cmp (ConfigVersion.now now) k.1) with (ConfigVersion.now now ?= k.1)%Z in Hk.
    by rewrite (proj2 (Z.compare_gt_iff _ _) Hnow) in Hk. }
  unfold record_results in He2. pose proof He2 as He2'. apply recorded_fold in He2' as [?|(e1 & He1 & Hv1)]; [done|].
  destruct (H1 a e1 He1) as (e & He & Hv); [unfold row_key in *; by rewrite Hv1, Hv2, Hk|].
  exists e. split_and!; [done|congruence|]. intros Hx <- Hr Hl. apply Hold.
  eapply recorded_probed; [|exact Hl|exact Hr| |exact He2].
  - by apply sorted_elem.
  - intros e0 He0. left. congruence.
Qed.

(** A run that passes over an endpoint leaves fewer rows with older reports. *)
Lemma passes_over_older budget k t t' :
  0 <= budget -> passes_over budget k t t' -> Z.of_nat (older k t') + budget / 10 <= Z.of_nat (older k t).
Proof.
  intros Hb [interfaces suppressed p now results nwe pause manual e i t1 He Hk Hi Hm Hbound Hp Hnp Hres Hnow H1 H2].
  pose proof (candidates_length interfaces suppressed t) as Hlen. set (c := (k.2, i, e) : candidate).
  assert (Hc : c ∈ explored_candidates interfaces suppressed t).
  { apply list_elem_of_omap. exists (k.2, e). split; [by apply elem_of_map_to_list|]. simpl. rewrite Hi. simpl. by rewrite decide_False. }
  set (new := filter (fun x => mac_address x.2 ∉ suppressed) (get_unexplored_endpoints interfaces t)).
  assert (Hnew : (length new <= length (get_unexplored_endpoints interfaces t))%nat) by apply length_filter.
  destruct (plan_passes_over (explored_candidates interfaces suppressed t) new budget p c) as (l & Hl & Hsize & Hx);
    [done|lia|apply candidates_NoDup|done|done| |].
  { intros Hpl. apply Hnp. apply (list_elem_of_fmap_2 address _ (explored c)). by apply planned_probed. }
  (* the rows of [l] are older, and in the end they are not *)
  assert (Hold : forall x, x ∈ l -> t !! x.1.1 = Some x.2 /\ cmp (row_key x.1.1 x.2) k = Lt /\ explored x ∈ planned_endpoints p).
  { intros x Hin. destruct (Hx x Hin) as (Hin' & Hne & Hle & Hpl). destruct (candidate_row _ _ _ _ Hin') as (Hrow & Hif & _).
    split_and!; [done| |by apply planned_probed]. unfold by_key, oldest_report_first in Hle. simpl in Hle. rewrite Hk in Hle.
    rewrite <- surjective_pairing in Hle. fold (row_key x.1.1 x.2) in Hle.
    destruct (cmp (row_key x.1.1 x.2) k) eqn:E; [|done|done]. apply cmp_eq in E. destruct Hne.
    assert (Ea : x.1.1 = k.2) by (by rewrite <- E). destruct x as [[a j] ex]. simpl in *. subst a. unfold c. congruence. }
  cut (older k t' + length ((fun x : candidate => x.1.1) <$> l) <= older k t)%nat; [rewrite length_fmap; lia|]. apply older_shrinks.
  - apply NoDup_fmap_2_strong; [|done]. intros x y Hx1 Hy1 E. destruct (Hx x Hx1) as (Hx2 & _), (Hx y Hy1) as (Hy2 & _).
    apply candidate_row in Hx2 as (? & ? & _), Hy2 as (? & ? & _). destruct x as [[a1 i1] e1], y as [[a2 i2] e2]. simpl in *. congruence.
  - intros a (x & -> & Hin)%list_elem_of_fmap. destruct (Hold x Hin) as (? & ? & _). by exists x.2.
  - intros a e' He' Hlt. split.
    + intros (x & -> & Hin)%list_elem_of_fmap. destruct (Hold x Hin) as (Hrow & _ & Hpl).
      destruct (old_rows_unprobed k _ t1 t' nwe pause manual now results _ (explored x) Hnow H1 H2 _ _ He' Hlt) as (e0 & He0 & _ & HF).
      apply delete_many_row in He0. apply HF; [done|done|by apply (Hres (explored x))|]. simpl. congruence.
    + destruct (old_rows_unprobed k _ t1 t' nwe pause manual now results _ (explored c) Hnow H1 H2 _ _ He' Hlt) as (e0 & He0 & Hv & _).
      exists e0. split; [by eapply delete_many_row|]. unfold row_key in *. by rewrite Hv.
Qed.

(** C11: An endpoint that has been explored, is not suppressed and has an interface
    waits for its next exploration at most one run for every tenth of the budget
    among the endpoints with older reports, whatever tier it is in and whatever
    endpoints and requests come up meanwhile, provided that each run has a result for
    every endpoint it plans and writes it, with a clock that is past the endpoint's
    report; so with a budget of ten or more it is never passed over for long. *)
Theorem exploration_is_fair budget k n t t' :
  0 <= budget -> passes_over_times budget k n t t' -> Z.of_nat n * (budget / 10) <= Z.of_nat (older k t).
Proof.
  intros Hb H. induction H as [t|n t t1 t2 H1 _ IH]; [lia|]. pose proof (passes_over_older budget k t t1 Hb H1). lia.
Qed.
End Fair.

(** *** Twelve endpoints and a budget of ten *)

Definition twelve : list Z := seqZ 1 12.
Definition rack : list MachineInterfaceSnapshot :=
  (fun n => mk_interface ("02:00:00:00:00:" +:+ Text.show_Z n) [V4 n] 0) <$> twelve.
Definition probed_at (n : Z) : @ExploredEndpoint unit unit :=
  mk_endpoint (mk_report () false None) (ConfigVersion.mk 1 n) Complete false false false.
Definition explored_rack : gmap IpAddr (@ExploredEndpoint unit unit) := list_to_map ((fun n => (V4 n, probed_at n)) <$> twelve).
Definition rack_plan : @ExplorationPlan unit unit :=
  default (mk_plan [] [] [] []) (plan_run rack 10 ∅ explored_rack).
Definition rack_results (a : IpAddr) : option (result unit (@EndpointExplorationReport unit unit)) := Some (Ok (mk_report () false None)).
Definition next_rack : gmap IpAddr (@ExploredEndpoint unit unit) :=
  record_results (fun e => mk_report () false (Some e)) (fun _ => false) (fun _ => false) 1000000 rack_results
    (planned_endpoints rack_plan) (delete_many (stale rack explored_rack) explored_rack).
Lemma others_refl k (t : gmap IpAddr (@ExploredEndpoint unit unit)) : others k t t.
Proof. intros a e H _. by exists e. Qed.

Example exploration_is_fair_witness :
  passes_over_times 10 (12, V4 12) 1 explored_rack next_rack /\ Z.of_nat 1 * (10 / 10) <= Z.of_nat (older (12, V4 12) explored_rack).
Proof.
  assert (H : passes_over_times 10 (12, V4 12) 1 explored_rack next_rack).
  { eapply passes_over_more; [|constructor].
    apply (passes_over_run 10 (12, V4 12) explored_rack next_rack rack ∅ rack_plan 1000000 rack_results
             (fun e => mk_report () false (Some e)) (fun _ => false) (fun _ => false) (probed_at 12)
             (mk_interface ("02:00:00:00:00:" +:+ Text.show_Z 12) [V4 12] 0) (delete_many (stale rack explored_rack) explored_rack)).
    - vm_compute; reflexivity.
    - reflexivity.
    - vm_compute; reflexivity.
    - apply not_elem_of_empty.
    - vm_compute; reflexivity.
    - vm_compute; reflexivity.
    - apply (bool_decide_eq_true_1 _). vm_compute; reflexivity.
    - intros x _. by eexists.
    - vm_compute; reflexivity.
    - apply others_refl.
    - apply others_refl. }
  split; [exact H|]. by apply (exploration_is_fair 10 (12, V4 12) 1 explored_rack next_rack).
Defined.
End ExploredEndpoints.
