(* ===== verification/ExplorerPause.v ===== *)
(** * ExplorerPause: keeping the site explorer off a BMC

    A controller that changes the credentials of a BMC first asks the site explorer
    to leave it alone, and waits for the answer
    (crates/credential-rotation/src/site_explorer_pause.rs). The requests are rows of
    crates/api-db/src/bmc_suppression.rs. A run of the explorer acknowledges them at
    its start, when nobody probes the BMC ([acknowledge_site_explorer_suppressions]
    of crates/site-explorer/src/lib.rs with endpoint_lock.rs), and skips the BMCs for
    which there are requests, also when it repairs and ingests what it has explored;
    an operator can have a single endpoint explored as well
    (endpoint_exploration_service.rs). Runs, refreshes, other writers of the explored
    endpoints and controllers are programs of [Interleave] on one database and the
    locks of one process. *)

From S2P Require Import Prelude BTree ConfigVersion IpNetwork StateHandler Interleave CredentialRotation ExplorationPlan.
Import StateHandler Interleave CredentialRotation.

Module ExplorerPause.

(** ** The table *)

Inductive BmcSuppressionSubsystem := SiteExplorer | Dhcp.
#[export] Instance subsystem_eq_dec : EqDecision BmcSuppressionSubsystem.
Proof. solve_decision. Defined.
Inductive BmcSuppressionSource := Decommissioning | BmcCredentialRotation | FactoryResetBmc.
#[export] Instance source_eq_dec : EqDecision BmcSuppressionSource.
Proof. solve_decision. Defined.

(** The texts of the columns. *)
Definition subsystem_text (s : BmcSuppressionSubsystem) : string :=
  match s with SiteExplorer => "site_explorer" | Dhcp => "dhcp" end.
Definition source_text (s : BmcSuppressionSource) : string :=
  match s with
  | Decommissioning => "decommissioning"
  | BmcCredentialRotation => "bmc_credential_rotation"
  | FactoryResetBmc => "factory_reset_bmc"
  end.
#[export] Instance subsystem_countable : Countable BmcSuppressionSubsystem.
Proof.
  apply (inj_countable' subsystem_text (fun t => if String.eqb t "dhcp" then Dhcp else SiteExplorer)). by intros [].
Defined.
#[export] Instance source_countable : Countable BmcSuppressionSource.
Proof.
  apply (inj_countable' source_text (fun t => if String.eqb t "decommissioning" then Decommissioning
    else if String.eqb t "factory_reset_bmc" then FactoryResetBmc else BmcCredentialRotation)). by intros [].
Defined.

(** The columns that are not in the primary key. *)
Record BmcSuppression := mk_suppression { reason : string; requested_at : Z; acknowledged_at : option Z }.
Abbreviation key := (string * BmcSuppressionSubsystem * BmcSuppressionSource)%type.
Abbreviation table := (gmap (string * BmcSuppressionSubsystem * BmcSuppressionSource) BmcSuppression).
Definition acknowledged (r : BmcSuppression) : bool := bool_decide (is_Some (acknowledged_at r)).

Definition upsert (now : Z) (k : key) (why : string) (t : table) : table :=
  <[k := match t !! k with
         | Some r => mk_suppression why (requested_at r) (acknowledged_at r)
         | None => mk_suppression why now None
         end]> t.

(** [ORDER BY bmc_mac_address]: a MAC address has one row of a source. *)
Definition mac_le (x y : string) : Prop := cmp x y <> Gt.
#[export] Instance mac_le_dec : RelDecision mac_le.
Proof. intros x y. unfold mac_le. apply _. Defined.
Definition find_many (macs : list string) (sub : BmcSuppressionSubsystem) (src : BmcSuppressionSource) (t : table)
    : list (string * BmcSuppression) :=
  omap (fun m => (m,.) <$> t !! (m, sub, src)) (merge_sort mac_le (remove_dups macs)).
Definition find (m : string) (sub : BmcSuppressionSubsystem) (src : BmcSuppressionSource) (t : table)
    : option BmcSuppression := t !! (m, sub, src).

(** [ORDER BY bmc_mac_address, source]. *)
Definition row_le (x y : key * BmcSuppression) : Prop :=
  cmp (x.1.1.1, source_text x.1.2) (y.1.1.1, source_text y.1.2) <> Gt.
#[export] Instance row_le_dec : RelDecision row_le.
Proof. intros x y. unfold row_le. apply _. Defined.
Definition find_all_by_subsystem (sub : BmcSuppressionSubsystem) (t : table) : list (key * BmcSuppression) :=
  merge_sort row_le (filter (fun x => x.1.1.2 = sub) (map_to_list t)).

Definition is_suppressed (m : string) (sub : BmcSuppressionSubsystem) (t : table) : bool :=
  existsb (fun x => bool_decide (x.1.1.1 = m /\ x.1.1.2 = sub)) (map_to_list t).

(** The rows of these MAC addresses, of every source, that are not acknowledged. *)
Definition acknowledge_row (now : Z) (macs : list string) (sub : BmcSuppressionSubsystem) (k : key) (r : BmcSuppression)
    : BmcSuppression :=
  if decide (k.1.1 ∈ macs /\ k.1.2 = sub /\ acknowledged_at r = None)
  then mk_suppression (reason r) (requested_at r) (Some now) else r.
Definition acknowledge_unacknowledged (now : Z) (macs : list string) (sub : BmcSuppressionSubsystem) (t : table) : table :=
  map_imap (fun k r => Some (acknowledge_row now macs sub k r)) t.
Definition acknowledge (now : Z) (m : string) (sub : BmcSuppressionSubsystem) (t : table) : table * bool :=
  (acknowledge_unacknowledged now [m] sub t, is_suppressed m sub t).

Definition delete (m : string) (sub : BmcSuppressionSubsystem) (src : BmcSuppressionSource) (t : table) : table * bool :=
  (base.delete (m, sub, src) t, bool_decide (is_Some (t !! (m, sub, src)))).
Definition delete_many (macs : list string) (sub : BmcSuppressionSubsystem) (t : table) : table :=
  filter (fun x => ~ (x.1.1.1 ∈ macs /\ x.1.1.2 = sub)) t.
Definition delete_many_for_source (macs : list string) (sub : BmcSuppressionSubsystem) (src : BmcSuppressionSource)
    (t : table) : table :=
  filter (fun x => ~ (x.1.1.1 ∈ macs /\ x.1.1.2 = sub /\ x.1.2 = src)) t.

(** ** The site

    A controller of [Control src o] works on the object [o]; [Api n] are the other
    writers of the explored endpoints. *)
Inductive thread := Run | Refresh (n : nat) | Api (n : nat) | Control (src : BmcSuppressionSource) (o : nat) | Clock.
#[export] Instance thread_eq_dec : EqDecision thread.
Proof. solve_decision. Defined.
#[export] Instance thread_countable : Countable thread.
Proof.
  apply (inj_countable' (fun i => match i with
                                  | Run => inl true | Clock => inl false | Refresh n => inr (inl (true, n))
                                  | Api n => inr (inl (false, n)) | Control s o => inr (inr (s, o))
                                  end)
           (fun c : bool + (bool * nat + BmcSuppressionSource * nat) =>
              match c with
              | inl true => Run | inl false => Clock | inr (inl (true, n)) => Refresh n
              | inr (inl (false, n)) => Api n | inr (inr (s, o)) => Control s o
              end)). by intros [].
Defined.

(** What the checks of an ingestion see in a report besides [is_power_shelf]; the
    first is a report whose [endpoint_type] is not [Bmc]. *)
Inductive EndpointKind := UnknownEndpoint | DpuEndpoint | SwitchEndpoint | HostEndpoint.
#[export] Instance kind_eq_dec : EqDecision EndpointKind.
Proof. solve_decision. Defined.
(** Errors of an exploration are their texts. *)
Abbreviation report := (@ExploredEndpoints.EndpointExplorationReport EndpointKind string).
Abbreviation endpoint := (@ExploredEndpoints.ExploredEndpoint EndpointKind string).
Definition new_with_error (e : string) : report := ExploredEndpoints.mk_report UnknownEndpoint false (Some e).

(** [in_flight] is the set of [EndpointExplorationLocks], with who has the guard: a
    thread, and which of its tasks. The last three are not state of the program: the
    BMCs whose credentials a controller is changing, and whether its request was
    acknowledged by then; who contacted a BMC in that time; and the BMCs for which a
    request was acknowledged while somebody probed them. *)
Record site := mk_site {
  suppressions : table;
  endpoints : gmap IpAddr endpoint;
  in_flight : gmap IpAddr (thread * nat);
  clock : Z;
  changing : gmap (string * thread) bool;
  disturbed : list (thread * string * bool);
  cut_short : list string
}.
Definition set_suppressions t (w : site) : site :=
  mk_site t (endpoints w) (in_flight w) (clock w) (changing w) (disturbed w) (cut_short w).
Definition set_endpoints f (w : site) : site :=
  mk_site (suppressions w) (f (endpoints w)) (in_flight w) (clock w) (changing w) (disturbed w) (cut_short w).
Definition set_in_flight f (w : site) : site :=
  mk_site (suppressions w) (endpoints w) (f (in_flight w)) (clock w) (changing w) (disturbed w) (cut_short w).
Definition set_clock c (w : site) : site :=
  mk_site (suppressions w) (endpoints w) (in_flight w) c (changing w) (disturbed w) (cut_short w).
Definition set_changing f (w : site) : site :=
  mk_site (suppressions w) (endpoints w) (in_flight w) (clock w) (f (changing w)) (disturbed w) (cut_short w).
Definition add_disturbed l (w : site) : site :=
  mk_site (suppressions w) (endpoints w) (in_flight w) (clock w) (changing w) (l ++ disturbed w) (cut_short w).
Definition add_cut_short l (w : site) : site :=
  mk_site (suppressions w) (endpoints w) (in_flight w) (clock w) (changing w) (disturbed w) (l ++ cut_short w).

Abbreviation P := (M site DatabaseError).
Definition query {A} (f : site -> site * A) : P A := call QueryError (fun w => let r := f w in (r.1, Ok r.2)).
Definition select {A} (f : site -> A) : P A := query (fun w => (w, f w)).
(** Beginning a transaction. *)
Definition begin : P unit := select (fun _ => ()).
Definition utc_now : P Z := local (fun w => (w, clock w)).

(** ** The locks *)

Definition try_claim (i : thread * nat) (a : IpAddr) : P bool :=
  local (fun w => match in_flight w !! a with
                  | None => (set_in_flight (<[a := i]>) w, true)
                  | Some _ => (w, false)
                  end).
(** Dropping a guard. *)
Definition release (a : IpAddr) : P unit := local (fun w => (set_in_flight (base.delete a) w, ())).
Fixpoint release_all (l : list IpAddr) : P unit :=
  match l with [] => mret () | a :: l => _ ← release a; release_all l end.
(** The guards of a task that ends, also by a panic. *)
Definition cleanup (i : thread) (w : site) : site := set_in_flight (filter (fun x => x.2.1 <> i)) w.

(** ** Probes *)

(** A request to a BMC. *)
Definition contact (i : thread) (m : string) : P unit :=
  query (fun w =>
    (add_disturbed ((fun x => (i, m, x.2)) <$> filter (fun x => x.1.1 = m) (map_to_list (changing w))) w, ())).
(** A conversation of at most [n] requests, whatever their results. *)
Fixpoint converse (i : thread) (m : string) (n : nat) : P unit :=
  match n with O => mret () | S n => _ ← try (F := DatabaseError) (contact i m); converse i m n end.

Section Explorer.
(** [addresses] are the interfaces with their addresses: [machine_interfaces] joined
    with [machine_interface_addresses]. *)
Context (addresses : list (string * IpAddr)).

Definition lookup_bmc_ip_by_mac_address (m : string) : list IpAddr := snd <$> filter (fun x => x.1 = m) addresses.
Definition find_by_ip (a : IpAddr) : option string := fst <$> head (filter (fun x => x.2 = a) addresses).

(** [None] when somebody else probes the endpoint; otherwise the result has the guard. *)
Definition try_explore_endpoint (i : thread * nat) (a : IpAddr) (m : string) (requests : nat) : P (option unit) :=
  guard ← try_claim i a;
  if guard : bool then _ ← converse i.1 m requests; mret (Some ()) else mret None.

(** *** A run *)

(** The guards of all addresses of a BMC, or none. *)
Fixpoint claim_all (l claimed : list IpAddr) : P (option (list IpAddr)) :=
  match l with
  | [] => mret (Some claimed)
  | a :: l =>
      guard ← try_claim (Run, 0%nat) a;
      if guard : bool then claim_all l (a :: claimed) else _ ← release_all claimed; mret None
  end.
(** The BMCs that nobody probes, each with its guards. *)
Fixpoint claim_idle (macs : list string) : P (list string) :=
  match macs with
  | [] => mret []
  | m :: macs =>
      ips ← select (fun _ => lookup_bmc_ip_by_mac_address m);
      guards ← claim_all ips [];
      rest ← claim_idle macs;
      mret match guards with Some _ => m :: rest | None => rest end
  end.

(** Whom an acknowledgement cuts short: what nobody else may be doing then. *)
Definition probed_by_others (w : site) (m : string) : bool :=
  existsb (fun a => match in_flight w !! a with Some i => negb (bool_decide (i.1 = Run)) | None => false end)
    (lookup_bmc_ip_by_mac_address m).

Definition acknowledge_site_explorer_suppressions : P (gset string) :=
  rows ← select (fun w => find_all_by_subsystem SiteExplorer (suppressions w));
  let pending := filter (fun x => acknowledged_at x.2 = None) rows in
  let r :=
    acknowledgements ← claim_idle (remove_dups ((fun x => x.1.1.1) <$> pending));
    if decide (acknowledgements = []) then mret () else
    _ ← begin;
    query (fun w => (add_cut_short (filter (fun m => probed_by_others w m = true) acknowledgements)
                       (set_suppressions (acknowledge_unacknowledged (clock w) acknowledgements SiteExplorer (suppressions w)) w),
                     ())) in
  r ← try (F := DatabaseError) r;
  _ ← local (fun w => (cleanup Run w, ()));
  _ ← lift r;
  mret (list_to_set ((fun x => x.1.1.1) <$> rows)).

Definition probe_task (requests : IpAddr -> nat) (n : nat) (x : IpAddr * string) : P (option IpAddr) :=
  probe ← try_explore_endpoint (Run, S n) x.1 x.2 (requests x.1);
  match probe with Some _ => _ ← release x.1; mret (Some x.1) | None => mret None end.
(** The addresses that were probed. *)
Definition probes (order : list nat) (tasks : list (P (option IpAddr))) : P (list IpAddr) :=
  prog_bind (fun l => Ret (Ok (omap (fun r => match r with Ok x => x | Err _ => None end) l))) (join_all order tasks).

(** A conversation with the BMC at an address, through the interface that has it. *)
Definition contact_at (a : IpAddr) (n : nat) : P unit :=
  interface ← try (F := DatabaseError) (_ ← begin; select (fun _ => find_by_ip a));
  match interface with Ok (Some m) => converse Run m n | _ => mret () end.
Fixpoint each {A} (f : A -> P unit) (l : list A) : P unit :=
  match l with [] => mret () | x :: l => _ ← f x; each f l end.
End Explorer.

(** *** What a run does *)

(** What the surroundings decide in a run: which interfaces are on networks that are
    scanned, the configuration, the order of the probes, what the BMCs answer and
    to how many requests, which machines their reports make fit for ingestion and
    which DPUs are matched to a host. *)
Record circumstances := mk_circumstances {
  scannable : ExploredEndpoints.MachineInterfaceSnapshot -> bool;
  explorations_per_run : Z;
  pause : ExploredEndpoints.MachineInterfaceSnapshot -> bool;
  manual : ExploredEndpoints.MachineInterfaceSnapshot -> bool;
  order : list nat;
  answers : IpAddr -> result string EndpointKind;
  requests : IpAddr -> nat;
  remediations : IpAddr -> nat;
  host_requests : IpAddr -> nat;
  fit : IpAddr -> bool;
  matched_dpus : IpAddr -> list IpAddr;
  mode_requests : IpAddr -> nat;
  powercycles : IpAddr -> nat
}.

Section Run.
(** [interfaces] is the table of machine interfaces, and [power_shelf] says which
    devices are power shelves. *)
Context (interfaces : list ExploredEndpoints.MachineInterfaceSnapshot) (power_shelf : IpAddr -> bool).

Definition interface_addresses : list (string * IpAddr) :=
  i ← interfaces; (ExploredEndpoints.mac_address i,.) <$> ExploredEndpoints.addresses i.
Definition answered (a : IpAddr) (r : result string EndpointKind) : result string report :=
  k ← r; Ok (ExploredEndpoints.mk_report k (power_shelf a) None).

Section Ingest.
Context (c : circumstances) (scanned : list ExploredEndpoints.MachineInterfaceSnapshot) (suppressed : gset string).

Definition is_suppressed_at (a : IpAddr) : bool :=
  match ExploredEndpoints.underlay_interface scanned a with
  | Some i => bool_decide (ExploredEndpoints.mac_address i ∈ suppressed)
  | None => false
  end.
Definition can_ingest_host_endpoint (a : IpAddr) : P bool :=
  _ ← contact_at interface_addresses a (host_requests c a); mret (fit c a).
(** The DPUs and the hosts. *)
Fixpoint identify_machines_to_ingest (l : list (IpAddr * endpoint)) : P (list IpAddr * list IpAddr) :=
  match l with
  | [] => mret ([], [])
  | (a, e) :: l =>
      if is_suppressed_at a then identify_machines_to_ingest l else
      if decide (ExploredEndpoints.body (ExploredEndpoints.report e) = UnknownEndpoint) then identify_machines_to_ingest l else
      if ExploredEndpoints.is_power_shelf (ExploredEndpoints.report e) then identify_machines_to_ingest l else
      match ExploredEndpoints.body (ExploredEndpoints.report e) with
      | DpuEndpoint =>
          r ← identify_machines_to_ingest l; mret (if fit c a then (a :: r.1, r.2) else r)
      | HostEndpoint =>
          ingest ← can_ingest_host_endpoint a;
          r ← identify_machines_to_ingest l; mret (if ingest : bool then (r.1, a :: r.2) else r)
      | _ => identify_machines_to_ingest l
      end
  end.
(** The modes of the DPUs of a host are corrected, and the host is power cycled. *)
Definition identify_managed_host (dpus : list IpAddr) (host : IpAddr) : P unit :=
  _ ← each (fun d => if decide (d ∈ dpus) then contact_at interface_addresses d (mode_requests c d) else mret ())
        (matched_dpus c host);
  contact_at interface_addresses host (powercycles c host).
End Ingest.

Definition find_all_preingestion_complete (t : gmap IpAddr endpoint) : list (IpAddr * endpoint) :=
  List.filter (fun x => match ExploredEndpoints.preingestion_state x.2 with ExploredEndpoints.Complete => true | _ => false end)
    (map_to_list t).

(** The reports of the endpoints that were probed, and the repair of their BMCs. *)
Definition persist_and_remediate (c : circumstances) (l : list ExploredEndpoints.Endpoint) (done : list IpAddr) : P unit :=
  _ ← begin;
  _ ← query (fun w => (set_endpoints (ExploredEndpoints.record_results new_with_error (pause c) (manual c) (clock w)
        (fun a => if decide (a ∈ done) then Some (answered a (answers c a)) else None) l) w, ()));
  each (fun e => if decide (ExploredEndpoints.address e ∈ done)
                 then converse Run (ExploredEndpoints.mac_address (ExploredEndpoints.iface e)) (remediations c (ExploredEndpoints.address e))
                 else mret ()) l.

Definition delete_stale (scanned : list ExploredEndpoints.MachineInterfaceSnapshot) (t : gmap IpAddr endpoint) : P unit :=
  if decide (ExploredEndpoints.stale scanned t = []) then mret () else
  _ ← begin; query (fun w => (set_endpoints (ExploredEndpoints.delete_many (ExploredEndpoints.stale scanned t)) w, ())).

(** A panic of the plan ends the run. *)
Definition explore_site (c : circumstances) : P unit :=
  suppressed ← acknowledge_site_explorer_suppressions interface_addresses;
  _ ← begin;
  t ← select endpoints;
  _ ← begin;
  scanned ← select (fun _ => filter (fun i => scannable c i = true) interfaces);
  _ ← delete_stale scanned t;
  match ExploredEndpoints.plan_run scanned (explorations_per_run c) suppressed t with
  | None => mret ()
  | Some p =>
      let l := ExploredEndpoints.planned_endpoints p in
      done ← probes (order c) (imap (probe_task (requests c)) (ExploredEndpoints.targets l));
      _ ← persist_and_remediate c l done;
      _ ← begin;
      rows ← select (fun w => find_all_preingestion_complete (endpoints w));
      machines ← identify_machines_to_ingest c scanned suppressed rows;
      each (identify_managed_host c machines.1) machines.2
  end.

(** *** An endpoint that an operator has explored *)

(** The last is for the caller of a task that panics, which ends here. *)
Inductive EndpointExplorationServiceError :=
| Database (e : DatabaseError)
| NotFound (kind : string) (a : IpAddr)
| AlreadyInProgress (a : IpAddr)
| Suppressed (a : IpAddr) (m : string)
| ConcurrentModification (version : ConfigVersion.t)
| BackgroundTaskFailed (a : IpAddr) (message : string).

Definition refresh_endpoint_report (n : nat) (a : IpAddr) (requests : nat) (answer : result string EndpointKind)
    : M site EndpointExplorationServiceError unit :=
  let db {A} (p : P A) := map_error Database p in
  _ ← db begin;
  existing ← db (select (fun w => endpoints w !! a));
  match existing with
  | None => raise (NotFound "explored_endpoint" a)
  | Some e =>
      interface ← db (select (fun _ => find_by_ip interface_addresses a));
      match interface with
      | None => raise (NotFound "machine_interface" a)
      | Some m =>
          suppressed ← db (select (fun w => is_suppressed m SiteExplorer (suppressions w)));
          if suppressed : bool then raise (Suppressed a m) else
          _ ← db begin;
          probe ← db (try_explore_endpoint (Refresh n, 0%nat) a m requests);
          match probe with
          | None => raise (AlreadyInProgress a)
          | Some _ =>
              let new := match answered a answer with
                         | Ok r => r
                         | Err err => ExploredEndpoints.with_error (Some err) (ExploredEndpoints.report e)
                         end in
              written ← try (_ ← db begin;
                             applied ← db (query (fun w =>
                               let r := ExploredEndpoints.try_update (clock w) a (ExploredEndpoints.report_version e) new false (endpoints w) in
                               (set_endpoints (fun _ => r.1) w, r.2)));
                             match applied with
                             | Applied _ => mret ()
                             | NotApplied _ => raise (ConcurrentModification (ExploredEndpoints.report_version e))
                             end);
              _ ← db (release a);
              lift written
          end
      end
  end.
End Run.

(** *** Other writers of the explored endpoints *)

Inductive endpoint_statement :=
| DeleteEndpoint (a : IpAddr)
| ClearLastKnownError (a : IpAddr)
| ReExplore (a : IpAddr) (v : ConfigVersion.t)
| RequestExploration (l : list IpAddr)
| WaitForRefresh (a : IpAddr)
| SetPreingestion (l : list IpAddr) (s : ExploredEndpoints.PreingestionState)
| ResetFailedPreingestion (a : IpAddr).
Definition apply_statement (now : Z) (st : endpoint_statement) (t : gmap IpAddr endpoint) : gmap IpAddr endpoint :=
  match st with
  | DeleteEndpoint a => ExploredEndpoints.delete_many [a] t
  | ClearLastKnownError a => ExploredEndpoints.clear_last_known_error now a t
  | ReExplore a v => (ExploredEndpoints.re_explore_if_version_matches a v t).1
  | RequestExploration l => ExploredEndpoints.request_exploration_for_addresses l t
  | WaitForRefresh a => ExploredEndpoints.set_waiting_for_explorer_refresh a t
  | SetPreingestion l s => ExploredEndpoints.set_preingestion_for_addresses l s t
  | ResetFailedPreingestion a => (ExploredEndpoints.reset_failed_preingestion a t).1
  end.
Definition write_endpoint (st : endpoint_statement) : P unit :=
  query (fun w => (set_endpoints (apply_statement (clock w) st) w, ())).

(** ** Controllers *)

Inductive GateDecision := Proceed | Wait.
#[export] Instance gate_decision_eq_dec : EqDecision GateDecision.
Proof. solve_decision. Defined.
Definition SITE_EXPLORER_PAUSE_BUDGET : Z := 300 * nanos.

Definition newest (l : list Z) : option Z := foldr (fun x m => Some (match m with Some y => Z.max x y | None => x end)) None l.
Definition gate_before_credential_change (macs : list string) (src : BmcSuppressionSource) : P GateDecision :=
  if decide (macs = []) then mret Proceed else
  _ ← begin;
  rows ← query (fun w =>
    let t := foldl (fun t m => upsert (clock w) (m, SiteExplorer, src) "site explorer pause" t) (suppressions w) macs in
    (set_suppressions t w, find_many macs SiteExplorer src t));
  if forallb (fun m => existsb (fun r => bool_decide (r.1 = m) && acknowledged r.2) rows) macs then mret Proceed else
  match newest (requested_at ∘ snd <$> filter (fun r => acknowledged r.2 = false) rows) with
  | Some n => now ← utc_now; mret (if SITE_EXPLORER_PAUSE_BUDGET <? now - n then Proceed else Wait)
  | None => mret Wait
  end.

(** It commits together with the transition that ends the change. *)
Definition resume_after_credential_change (i : thread) (macs : list string) (src : BmcSuppressionSource) : P unit :=
  if decide (macs = []) then mret () else
  query (fun w =>
    (set_changing (filter (fun x => ~ (x.1.1 ∈ macs /\ x.1.2 = i)))
       (set_suppressions (delete_many_for_source macs SiteExplorer src (suppressions w)) w), ())).

(** A request that changes the credentials of these BMCs. *)
Definition change (i : thread) (macs : list string) (src : BmcSuppressionSource) : P unit :=
  query (fun w =>
    (set_changing (fun c => foldr (fun m => <[(m, i) := match suppressions w !! (m, SiteExplorer, src) with
                                                        | Some r => acknowledged r | None => false end]>) c macs) w, ())).
Fixpoint changes (i : thread) (macs : list string) (src : BmcSuppressionSource) (n : nat) : P unit :=
  match n with O => mret () | S n => _ ← try (F := DatabaseError) (change i macs src); changes i macs src n end.

(** A tick of a controller: [n] requests, and whether the change ends with them. *)
Definition change_tick (i : thread) (macs : list string) (src : BmcSuppressionSource) (n : nat) (ends : bool) : P unit :=
  gate ← gate_before_credential_change macs src;
  match gate with
  | Wait => mret ()
  | Proceed => _ ← changes i macs src n; if ends then resume_after_credential_change i macs src else mret ()
  end.
End ExplorerPause.
