(* ===== verification/PauseTheorems.v ===== *)
(** * PauseTheorems: what an acknowledged pause gives

    Runs of the site explorer, refreshes and controllers of [ExplorerPause] at once:
    once a request is acknowledged, no run contacts the BMC until the controller has
    resumed the explorer, and no request is acknowledged while the BMC is probed. A
    refresh can slip past an acknowledged pause, and a run outlast the budget. *)

From S2P Require Import Prelude BTree IpNetwork StateHandler Interleave CredentialRotation ExplorationPlan ExplorerPause.
Import StateHandler Interleave CredentialRotation ExplorerPause.

Module PauseTheorems.

(** ** Tables *)

Definition acked (k : key) (t : table) : Prop := exists r, t !! k = Some r /\ acknowledged r = true.

Lemma upsert_acked now k why t k' : acked k' (upsert now k why t) <-> acked k' t.
Proof.
  unfold acked, upsert. destruct (decide (k' = k)) as [->|Hk]; [|by setoid_rewrite lookup_insert_ne].
  setoid_rewrite lookup_insert_eq. destruct (t !! k) as [r|]; split; intros (r' & [= <-] & Hr); [by exists r|by eexists|done].
Qed.
Lemma upserts_acked now src why macs k' t :
  acked k' (foldl (fun t m => upsert now (m, SiteExplorer, src) why t) t macs) <-> acked k' t.
Proof. revert t. induction macs as [|m macs IH]; intros t; simpl; [done|]. by rewrite IH, upsert_acked. Qed.

Lemma acknowledge_unacknowledged_acked now macs t k :
  acked k (acknowledge_unacknowledged now macs SiteExplorer t) ->
  acked k t \/ k.1.1 ∈ macs.
Proof.
  intros (r & Hr & Ha). unfold acknowledge_unacknowledged in Hr. rewrite map_lookup_imap in Hr.
  destruct (t !! k) as [r0|] eqn:E; simplify_eq/=. unfold acknowledge_row in Ha. case_decide as Hd.
  - right. tauto.
  - left. by exists r0.
Qed.
Lemma acked_acknowledge_unacknowledged now macs t k :
  acked k t -> acked k (acknowledge_unacknowledged now macs SiteExplorer t).
Proof.
  intros (r & Hr & Ha). unfold acked, acknowledge_unacknowledged. rewrite map_lookup_imap, Hr. simpl. eexists. split; [done|].
  unfold acknowledge_row. case_decide; [by apply bool_decide_eq_true|done].
Qed.

Lemma delete_many_for_source_acked macs src t k :
  acked k (delete_many_for_source macs SiteExplorer src t) <->
  acked k t /\ ~ (k.1.1 ∈ macs /\ k.1.2 = SiteExplorer /\ k.2 = src).
Proof.
  unfold acked, delete_many_for_source. setoid_rewrite map_lookup_filter_Some. naive_solver.
Qed.

(** A run sees every BMC for which there is a request. *)
Lemma find_all_by_subsystem_macs m src r t :
  t !! (m, SiteExplorer, src) = Some r -> m ∈ (fun x => x.1.1.1) <$> find_all_by_subsystem SiteExplorer t.
Proof.
  intros Hr. apply list_elem_of_fmap. exists ((m, SiteExplorer, src), r). split; [done|].
  unfold find_all_by_subsystem. rewrite (merge_sort_Permutation row_le). apply list_elem_of_filter. split; [done|].
  by apply elem_of_map_to_list.
Qed.

(** ** Who may do what *)

Section Pause.
(** The machine interfaces, and which devices are power shelves. *)
Context (interfaces : list ExploredEndpoints.MachineInterfaceSnapshot) (power_shelf : IpAddr -> bool).
Abbreviation addresses := (interface_addresses interfaces).
(** The BMCs of the object [o] of the controllers that suppress as [src]. *)
Context (scope : BmcSuppressionSource -> nat -> list string).

Definition ending {E A} (p : M site E A) : prog site unit := prog_bind (fun _ => Ret ()) p.
Inductive may_start : thread -> prog site unit -> Prop :=
| start_run c : may_start Run (ending (explore_site interfaces power_shelf c))
| start_refresh n a requests answer :
    may_start (Refresh n) (ending (refresh_endpoint_report interfaces power_shelf n a requests answer))
| start_write n st : may_start (Api n) (ending (write_endpoint st))
| start_control src o n ends :
    may_start (Control src o) (ending (change_tick (Control src o) (scope src o) src n ends))
| start_clock d : 0 <= d -> may_start Clock (Act (fun _ w => (set_clock (clock w + d) w, ())) Ret).

Definition no_acks (w w' : site) : Prop := forall k, acked k (suppressions w') -> acked k (suppressions w).
Definition guards_kept (p : thread * nat -> Prop) (w w' : site) : Prop :=
  forall a o, p o -> in_flight w !! a = Some o -> in_flight w' !! a = Some o.

(** Only a run acknowledges, and only a run adds endpoints. *)
Definition no_rows (w w' : site) : Prop := forall a, is_Some (endpoints w' !! a) -> is_Some (endpoints w !! a).
Definition rely (i : thread) (w w' : site) : Prop :=
  (i = Run -> no_acks w w' /\ no_rows w w') /\ guards_kept (fun o => o.1 = i) w w'.
Definition guar (i : thread) (w w' : site) : Prop :=
  (i <> Run -> no_acks w w' /\ no_rows w w') /\ guards_kept (fun o => o.1 <> i) w w'.
Lemma no_rows_same w w' : endpoints w' = endpoints w -> no_rows w w'.
Proof. by intros E a; rewrite E. Qed.

Lemma guards_kept_trans p w1 w2 w3 : guards_kept p w1 w2 -> guards_kept p w2 w3 -> guards_kept p w1 w3.
Proof. intros H1 H2 a o Ho H. eauto. Qed.
#[local] Instance rely_preorder i : PreOrder (rely i).
Proof.
  split; [intros w; split; [by intros _; split; [intros k|intros a]|by intros a o _]|]. intros w1 w2 w3 [a1 a2] [b1 b2].
  split; [|by eapply guards_kept_trans]. intros Hi. destruct (a1 Hi), (b1 Hi). split; [intros k|intros a]; auto.
Qed.
Lemma pause_guar_refl i w : guar i w w.
Proof. split; [by intros _; split; [intros k|intros a]|by intros a o _]. Qed.
Lemma guar_same i w w' :
  suppressions w' = suppressions w -> endpoints w' = endpoints w -> in_flight w' = in_flight w -> guar i w w'.
Proof. intros E1 E2 E3. split; [intros _; split; [by intros k; rewrite E1|by apply no_rows_same]|by intros a o _; rewrite E3]. Qed.
Lemma pause_compatible i j w w' : i <> j -> guar j w w' -> rely i w w'.
Proof.
  intros Hij [H1 H2]. split; [intros ->; by apply H1|]. intros a o Ho. apply H2. by rewrite Ho.
Qed.

(** A report that identifies a device says whether it is a power shelf. *)
Definition sound_report (a : IpAddr) (r : report) : Prop :=
  (ExploredEndpoints.is_power_shelf r = true -> power_shelf a = true) /\
  (ExploredEndpoints.body r <> UnknownEndpoint -> ExploredEndpoints.is_power_shelf r = power_shelf a).
Lemma alike_sound a r r' : ExploredEndpoints.alike r r' -> sound_report a r -> sound_report a r'.
Proof. unfold sound_report. by intros [-> ->]. Qed.
Lemma answered_sound a x r : answered power_shelf a x = Ok r -> sound_report a r.
Proof. destruct x as [k|]; simpl; [|done]. intros [= <-]. done. Qed.

(** A change under an acknowledged request is that of a controller whose request is
    still there; reports are sound; no run has contacted such a BMC, and nobody was
    cut short. *)
Record inv (w : site) : Prop := {
  inv_changing m i : changing w !! (m, i) = Some true ->
    exists src o, i = Control src o /\ m ∈ scope src o /\ acked (m, SiteExplorer, src) (suppressions w);
  inv_reports a e : endpoints w !! a = Some e -> sound_report a (ExploredEndpoints.report e);
  inv_runs m : (Run, m, true) ∉ disturbed w;
  inv_cut_short : cut_short w = []
}.

(** Steps that do not touch the table of requests. *)
Lemma inv_same w w' :
  inv w -> suppressions w' = suppressions w -> endpoints w' = endpoints w -> changing w' = changing w -> cut_short w' = cut_short w ->
  (forall m, (Run, m, true) ∈ disturbed w' -> (Run, m, true) ∈ disturbed w) -> inv w'.
Proof.
  intros [H1 H2 H3 H4] E1 E2 E3 E4 E5. split; [by rewrite E1, E3|by rewrite E2| |by rewrite E4]. intros m Hm. exact (H3 m (E5 m Hm)).
Qed.

(** What a program knows that only holds guards and the set [S] of the BMCs that the
    run leaves alone. *)
Definition seen (S : gset string) (w : site) : Prop :=
  forall m src, acked (m, SiteExplorer, src) (suppressions w) -> m ∈ S.
Definition holds (o : thread * nat) (l : list IpAddr) (w : site) : Prop := forall a, a ∈ l -> in_flight w !! a = Some o.

Lemma seen_stable S : stable (rely Run) inv (seen S).
Proof. intros w w' H [Hr _] _ m src Hk. eapply H, Hr; done. Qed.
(** The endpoints that are left are in the index, or power shelves. *)
Definition indexed (scanned : list ExploredEndpoints.MachineInterfaceSnapshot) (w : site) : Prop :=
  forall a, is_Some (endpoints w !! a) -> is_Some (ExploredEndpoints.underlay_interface scanned a) \/ power_shelf a = true.
Lemma indexed_stable scanned : stable (rely Run) inv (indexed scanned).
Proof. intros w w' H [Hr _] _ a Ha. by apply H, Hr. Qed.
Lemma holds_stable i n l : stable (rely i) inv (holds (i, n) l).
Proof. intros w w' H [_ Hr] _ a Ha. by apply Hr; [|apply H]. Qed.

(** *** Steps of the owner [o] of guards

    [X] is what the program knows besides. *)
Lemma then_spec (R G : site -> site -> Prop) `{!Reflexive R, !Transitive R} {E A B} X (m : M site E A) (f : A -> M site E B) Y Q Z :
  spec R G inv X m Y Z -> stable R inv Z -> (forall a, spec R G inv (Y a) (f a) Q Z) -> spec R G inv X (m ≫= f) Q Z.
Proof. intros. by eapply spec_bind; [apply _|..]. Qed.
Lemma tried_spec (R G : site -> site -> Prop) `{!Reflexive R, !Transitive R} {E F A} X (m : M site E A) Q Z (Z' : site -> Prop) :
  spec R G inv X m Q Z -> (forall a, stable R inv (Q a)) -> stable R inv Z ->
  spec (E := F) R G inv X (try m) (on_result Q (fun _ => Z)) Z'.
Proof. intros. by eapply spec_try; [apply _|..]. Qed.

Section Owner.
Context (o : thread * nat) (R G : site -> site -> Prop) {Rrefl : Reflexive R} {Rtrans : Transitive R}.
Hypothesis keeps_mine : forall w w', R w w' -> guards_kept (eq o) w w'.
Hypothesis i_keep : forall w w', suppressions w' = suppressions w -> endpoints w' = endpoints w -> guards_kept (fun q => q <> o) w w' -> G w w'.
Context (X : site -> Prop).
Hypothesis X_stable : stable R inv X.
Hypothesis X_in_flight : forall w f, X w -> X (set_in_flight f w).
Hypothesis X_disturbed : forall w l, X w -> X (add_disturbed l w).

Lemma owner_refl w : G w w.
Proof. apply i_keep; [done..|]. by intros a q _. Qed.
Lemma holds_stable_owner l : stable R inv (holds o l).
Proof. intros w w' H HR _ a Ha. by eapply keeps_mine; [exact HR| |apply H]. Qed.
Lemma inv_in_flight f w : inv w -> inv (set_in_flight f w).
Proof. intros H. by eapply inv_same. Qed.

Lemma try_claim_spec l a :
  spec R G inv (fun w => X w /\ holds o l w) (try_claim o a)
    (fun g w => (X w /\ if g : bool then holds o (a :: l) w else holds o l w) /\ (g = true -> a ∉ l)) X.
Proof.
  intros w [Hw Hl] r w' HR HI. assert (Hw' : X w') by (by eapply X_stable). assert (Hl' := holds_stable_owner l w w' Hl HR HI).
  simpl. destruct (in_flight w' !! a) as [o'|] eqn:Ea; simpl.
  - split_and!; [done|apply owner_refl|]. intros w'' HR' HI'. split_and!; [by eapply X_stable|by eapply holds_stable_owner|done].
  - assert (Ha : a ∉ l) by (intros Ha; by rewrite (Hl' a Ha) in Ea).
    split_and!; [by apply inv_in_flight| |].
    + apply i_keep; [done..|]. intros b q _ Hb. simpl. rewrite lookup_insert_ne; [done|]. by intros <-; rewrite Ea in Hb.
    + intros w'' HR' HI'. split_and!; [by eapply X_stable; [apply X_in_flight|..]| |done].
      eapply holds_stable_owner; [|done..]. intros b [->|Hb]%elem_of_cons; [apply lookup_insert_eq|].
      simpl. rewrite lookup_insert_ne; [by apply Hl'|]. by intros ->.
Qed.

Lemma release_spec l a :
  a ∉ l -> spec R G inv (fun w => X w /\ holds o (a :: l) w) (release a) (fun _ w => X w /\ holds o l w) X.
Proof.
  intros Ha w [Hw Hl] r w' HR HI. assert (Hw' : X w') by (by eapply X_stable).
  assert (Hl' := holds_stable_owner _ w w' Hl HR HI). simpl. split_and!; [by apply inv_in_flight| |].
  - apply i_keep; [done..|]. intros b q Hq Hb. simpl. rewrite lookup_delete_ne; [done|]. intros <-.
    rewrite (Hl' a) in Hb; [congruence|left].
  - intros w'' HR' HI'. split; [by eapply X_stable; [apply X_in_flight|..]|]. eapply holds_stable_owner; [|done..].
    intros b Hb. simpl. rewrite lookup_delete_ne; [by apply Hl'; right|]. by intros ->.
Qed.

(** A contact with a BMC that is not being changed under an acknowledged request, or
    that is not of a run. *)
Lemma contact_spec m (Y : site -> Prop) :
  stable R inv Y -> (forall w l, Y w -> Y (add_disturbed l w)) ->
  (o.1 = Run -> forall w i, Y w -> inv w -> changing w !! (m, i) <> Some true) ->
  spec R G inv Y (contact o.1 m) (fun _ => Y) Y.
Proof.
  intros HY HY' Hm. apply spec_call; [apply owner_refl|done|by intros []|done|done|].
  intros w Hw HI. simpl. split_and!; [| |by apply HY'|by intros _ _; apply HY'].
  - eapply inv_same; [exact HI|done..|]. intros m' Hm'. simpl in Hm'. apply elem_of_app in Hm' as [Hm'|?]; [|done].
    apply list_elem_of_fmap in Hm' as ([[m1 i] b] & [= Ho -> <-] & [Hk Hb]%list_elem_of_filter). simpl in Hk. subst m1.
    apply elem_of_map_to_list in Hb. by destruct (Hm (eq_sym Ho) w i Hw HI).
  - apply i_keep; [done..|]. by intros b q _.
Qed.

Lemma converse_spec m n (Y : site -> Prop) :
  stable R inv Y -> (forall w l, Y w -> Y (add_disturbed l w)) ->
  (o.1 = Run -> forall w i, Y w -> inv w -> changing w !! (m, i) <> Some true) ->
  spec R G inv Y (converse o.1 m n) (fun _ => Y) Y.
Proof.
  intros HY HY' Hm. induction n as [|n IH]; [by apply spec_ret|]. cbn [converse].
  eapply then_spec; [apply _..| |done|].
  - apply tried_spec; [apply _..|by apply contact_spec|by intros []|done].
  - intros [[]|e]; [exact IH|exact IH].
Qed.

(** A probe ends with the guard or without. *)
Lemma try_explore_endpoint_spec a m n :
  (o.1 = Run -> forall w i, X w -> inv w -> changing w !! (m, i) <> Some true) ->
  spec R G inv X (try_explore_endpoint o a m n) (fun p w => X w /\ (is_Some p -> holds o [a] w)) X.
Proof.
  intros Hm. eapply then_spec; [apply _..| |done|].
  - eapply spec_conseq; [by apply (try_claim_spec [] a)| |done|done]. intros w Hw. split; [done|]. by intros b ?%not_elem_of_nil.
  - intros [].
    + eapply then_spec; [apply _..| |done|].
      * eapply spec_conseq; [apply (converse_spec m n (fun w => X w /\ holds o [a] w))| | |].
        -- apply stable_and; [done|apply holds_stable_owner].
        -- intros w l [? ?]. split; [by apply X_disturbed|done].
        -- intros Ho w i [? _]. by apply Hm.
        -- by intros w [? _].
        -- intros u w _ H; exact H.
        -- by intros w [? _].
      * intros []. apply spec_ret; [apply stable_and; [done|apply holds_stable_owner]|]. by intros w _ [? ?].
    + apply spec_ret; [|by intros w _ [[? _] _]; split; [|intros []]].
      apply stable_and; [|apply stable_pure]. apply stable_and; [done|apply holds_stable_owner].
Qed.
End Owner.

Lemma rely_mine i n w w' : rely i w w' -> guards_kept (eq (i, n)) w w'.
Proof. intros [_ H] a q <-. by apply H. Qed.
Lemma guar_mine i n w w' :
  suppressions w' = suppressions w -> endpoints w' = endpoints w -> guards_kept (fun q => q <> (i, n)) w w' -> guar i w w'.
Proof.
  intros E E' H. split; [intros _; split; [by intros k; rewrite E|by apply no_rows_same]|]. intros a q Hq. apply H. by intros ->.
Qed.

Lemma read_spec (R G : site -> site -> Prop) {A} (x : A) (X : site -> Prop) :
  (forall w, G w w) -> stable R inv X -> spec R G inv X (select (fun _ => x)) (fun y w => X w /\ y = x) X.
Proof.
  intros HG HX. apply spec_read; [done|done|intros y; apply stable_and; [done|apply stable_pure]|].
  by intros w b Hw _ [= <-].
Qed.

(** *** Acknowledging *)

Section Acknowledge.
Context (S : gset string).
Abbreviation spec_run := (spec (rely Run) (guar Run) inv).
Abbreviation mine := (Run, 0%nat).

Lemma seen_holds_stable l : stable (rely Run) inv (fun w => seen S w /\ holds mine l w).
Proof. apply stable_and; [apply seen_stable|apply holds_stable]. Qed.
Lemma run_claim l a :
  spec_run (fun w => seen S w /\ holds mine l w) (try_claim mine a)
    (fun g w => (seen S w /\ if g : bool then holds mine (a :: l) w else holds mine l w) /\ (g = true -> a ∉ l)) (seen S).
Proof. apply try_claim_spec; [apply _..|apply rely_mine|apply guar_mine|apply seen_stable|done]. Qed.
Lemma run_release l a :
  a ∉ l -> spec_run (fun w => seen S w /\ holds mine (a :: l) w) (release a) (fun _ w => seen S w /\ holds mine l w) (seen S).
Proof. apply release_spec; [apply _..|apply rely_mine|apply guar_mine|apply seen_stable|done]. Qed.

Lemma release_all_spec l held :
  NoDup (l ++ held) ->
  spec_run (fun w => seen S w /\ holds mine (l ++ held) w) (release_all l) (fun _ w => seen S w /\ holds mine held w) (seen S).
Proof.
  induction l as [|a l IH]; intros Hn; [by apply spec_ret; [apply seen_holds_stable|]|]. apply NoDup_cons in Hn as [Ha Hn].
  eapply then_spec; [apply _..|by apply run_release|apply seen_stable|]. intros []. by apply IH.
Qed.

Lemma claim_all_spec l claimed held :
  NoDup (claimed ++ held) ->
  spec_run (fun w => seen S w /\ holds mine (claimed ++ held) w) (claim_all l claimed)
    (fun g w =>
       match g with
       | Some c => (seen S w /\ holds mine (c ++ held) w) /\ (NoDup (c ++ held) /\ forall a, a ∈ l \/ a ∈ claimed -> a ∈ c)
       | None => seen S w /\ holds mine held w
       end) (seen S).
Proof.
  revert claimed. induction l as [|a l IH]; intros claimed Hn.
  - apply spec_ret; [apply seen_holds_stable|]. intros w _ [? ?]. split_and!; [done..|]. intros a [Ha|?]; [|done].
    by apply not_elem_of_nil in Ha.
  - cbn [claim_all]. eapply then_spec; [apply _..|apply run_claim|apply seen_stable|]. intros [].
    + apply hoare_pure. intros Ha. eapply spec_conseq; [apply (IH (a :: claimed)); constructor; auto|done| |done].
      intros [c|] w _ H; [|done]. destruct H as (? & ? & Hc). split; [done|]. split; [done|].
      intros b [[->|?]%elem_of_cons|?]; apply Hc; rewrite elem_of_cons; auto.
    + apply hoare_pure. intros _. eapply then_spec; [apply _..|by apply release_all_spec|apply seen_stable|].
      intros []. by apply spec_ret; [apply seen_holds_stable|].
Qed.

(** The BMCs to acknowledge are among those that were asked for, and all their
    addresses are claimed. *)
Definition all_claimed (macs acks : list string) (held : list IpAddr) (w : site) : Prop :=
  exists l, holds mine l w /\ (forall a, a ∈ held -> a ∈ l) /\
    forall m, m ∈ acks -> m ∈ macs /\ forall a, a ∈ lookup_bmc_ip_by_mac_address addresses m -> a ∈ l.
Lemma all_claimed_stable macs acks held : stable (rely Run) inv (fun w => seen S w /\ all_claimed macs acks held w).
Proof.
  apply stable_and; [apply seen_stable|]. apply stable_exists. intros l. apply stable_and; [apply holds_stable|apply stable_pure].
Qed.

Lemma claim_idle_spec macs held :
  NoDup held ->
  spec_run (fun w => seen S w /\ holds mine held w) (claim_idle addresses macs)
    (fun acks w => seen S w /\ all_claimed macs acks held w) (seen S).
Proof.
  revert held. induction macs as [|m macs IH]; intros held Hn; cbn [claim_idle].
  { apply spec_ret; [apply seen_holds_stable|]. intros w _ [? ?]. split; [done|]. exists held.
    split_and!; [done..|]. by intros m ?%not_elem_of_nil. }
  eapply then_spec; [apply _..| |apply seen_stable|].
  { eapply spec_conseq; [by apply read_spec; [apply pause_guar_refl|apply seen_holds_stable]|intros w H; exact H|intros y w _ H; exact H|by intros w []]. }
  intros ips. apply hoare_pure. intros ->.
  eapply then_spec; [apply _..|by apply (claim_all_spec _ [] held)|apply seen_stable|]. intros [c|].
  - apply hoare_pure. intros [Hc Hm]. eapply then_spec; [apply _..|by apply IH|apply seen_stable|]. intros rest. apply spec_ret; [apply all_claimed_stable|].
    intros w _ [? (l & Hl & Hin & Hr)]. split; [done|]. exists l. split_and!; [done|set_solver|].
    intros m' [->|Hm']%elem_of_cons; [|set_solver]. split; [set_solver|]. intros a Ha. apply Hin. set_solver.
  - eapply then_spec; [apply _..|by apply IH|apply seen_stable|]. intros rest. apply spec_ret; [apply all_claimed_stable|].
    intros w _ [? (l & Hl & Hin & Hr)]. split; [done|]. exists l. set_solver.
Qed.

(** Nobody else probes a BMC whose addresses are claimed. *)
Lemma all_claimed_alone macs acks held w m :
  all_claimed macs acks held w -> m ∈ acks -> probed_by_others addresses w m = false.
Proof.
  intros (l & Hl & _ & Hm) Hin. destruct (Hm m Hin) as [_ Ha]. unfold probed_by_others.
  apply not_true_is_false. intros (a & Hin' & Hp)%existsb_exists. apply list_elem_of_In, Ha, Hl in Hin'. by rewrite Hin' in Hp.
Qed.

Lemma write_acknowledgements_spec macs acks :
  (forall m, m ∈ macs -> m ∈ S) ->
  spec_run (fun w => seen S w /\ all_claimed macs acks [] w)
    (query (fun w => (add_cut_short (filter (fun m => probed_by_others addresses w m = true) acks)
       (set_suppressions (acknowledge_unacknowledged (clock w) acks SiteExplorer (suppressions w)) w), ())))
    (fun _ => seen S) (seen S).
Proof.
  intros HS. apply spec_call; [apply pause_guar_refl|apply all_claimed_stable|intros []; apply seen_stable|apply seen_stable|by intros w []|].
  intros w [Hw Hc] [H1 H2 H3 H4]. simpl.
  assert (Hseen : seen S (set_suppressions (acknowledge_unacknowledged (clock w) acks SiteExplorer (suppressions w)) w)).
  { intros m src [Hk|Hk]%acknowledge_unacknowledged_acked; [by apply (Hw m src)|].
    destruct Hc as (l & _ & _ & Hm). by apply HS, Hm. }
  split_and!; [|by split; [|intros a o _]|exact Hseen|by intros [] _].
  split; simpl; [|done|done|].
  - intros m i (src & o & -> & Hm & Hk)%H1. exists src, o. split_and!; [done..|]. by apply acked_acknowledge_unacknowledged.
  - rewrite H4, app_nil_r. apply elem_of_nil_inv. intros m [E Hm]%list_elem_of_filter.
    by rewrite (all_claimed_alone macs acks []) in E.
Qed.
End Acknowledge.

Lemma acknowledge_spec :
  spec (rely Run) (guar Run) inv (fun _ => True) (acknowledge_site_explorer_suppressions addresses) seen (fun _ => True).
Proof.
  eapply then_spec with (Y := fun rows : list (key * BmcSuppression) => seen (list_to_set ((fun x => x.1.1.1) <$> rows)));
    [apply _..| |by intros ?|].
  { apply spec_read; [apply pause_guar_refl|by intros ?|intros rows; apply seen_stable|].
    intros w rows _ _ [= <-] m src (r & Hr & _). apply elem_of_list_to_set. by eapply find_all_by_subsystem_macs. }
  intros rows. set (S := list_to_set _).
  eapply then_spec; [apply _..| |by intros ?|].
  { apply tried_spec with (Q := fun _ => seen S) (Z := seen S); [apply _..| |intros []; apply seen_stable|apply seen_stable].
    eapply then_spec; [apply _..| |apply seen_stable|].
    - eapply spec_conseq; [apply (claim_idle_spec S _ []); constructor| |by intros acks w _ H; exact H|done].
      intros w Hw. split; [done|]. by intros a ?%not_elem_of_nil.
    - intros acks. cbn beta. case_decide.
      + apply spec_ret; [apply all_claimed_stable|by intros w _ []].
      + eapply then_spec; [apply _..| |apply seen_stable|].
        * eapply spec_conseq; [apply read_spec; [apply pause_guar_refl|apply all_claimed_stable]|intros w Hw; exact Hw|intros y w _ Hw; exact Hw|by intros w []].
        * intros []. apply hoare_pure. intros _. apply write_acknowledgements_spec. intros m Hm. subst S.
          apply elem_of_list_to_set. apply elem_of_remove_dups, list_elem_of_fmap in Hm as (x & -> & [_ Hx]%list_elem_of_filter).
          by apply (list_elem_of_fmap_2 (fun x => x.1.1.1)). }
  intros r0. eapply then_spec with (Y := fun _ => seen S); [apply _..| |by intros ?|].
  - intros w Hw r w' HR HI. assert (Hw' : seen S w') by (destruct r0; by eapply seen_stable). simpl.
    split_and!; [by apply inv_in_flight| |].
    + split; [done|]. intros a o Ho Ha. simpl. by apply map_lookup_filter_Some.
    + intros w'' HR' HI'. simpl. eapply (seen_stable S (cleanup Run w')); [exact Hw'|done..].
  - intros []. destruct r0 as [[]|e].
    + eapply then_spec with (Y := fun _ => seen S); [apply _..|by apply spec_ret; [apply seen_stable|]|by intros ?|].
      intros []. by apply spec_ret; [apply seen_stable|].
    + eapply then_spec with (Y := fun _ _ => False); [apply _..|by apply spec_raise; [apply seen_stable|]|by intros ?|].
      by intros u w.
Qed.

(** *** Runs *)

Hypothesis one_address : NoDup (snd <$> addresses).

Lemma seen_not_changing S m w i : m ∉ S -> seen S w -> inv w -> changing w !! (m, i) <> Some true.
Proof. intros Hm Hs [H1 _ _ _] (src & o & _ & _ & Hk)%H1. by apply Hm, (Hs m src). Qed.

(** The interface of an address in the index is the one in the table. *)
Lemma index_find_by_ip scanned a i :
  scanned ⊆ interfaces -> ExploredEndpoints.underlay_interface scanned a = Some i ->
  find_by_ip addresses a = Some (ExploredEndpoints.mac_address i).
Proof.
  intros Hs [Hi Ha]%ExploredEndpoints.underlay_interface_Some.
  assert (Hin : (ExploredEndpoints.mac_address i, a) ∈ addresses).
  { apply list_elem_of_bind. exists i. split; [|by apply Hs]. by apply list_elem_of_fmap_2. }
  clear -one_address Hin. unfold find_by_ip. induction addresses as [|[m b] l IH]; [by apply not_elem_of_nil in Hin|].
  apply NoDup_cons in one_address as [Hb Hn]. rewrite filter_cons. simpl in *. case_decide as E.
  - subst b. apply elem_of_cons in Hin as [[= ->]|Hin]; [done|]. destruct Hb. by apply (list_elem_of_fmap_2 snd _ _ Hin).
  - apply elem_of_cons in Hin as [[= _ ->]|Hin]; [done|]. by apply IH.
Qed.

(** What the task [n] bears and does. *)
Definition task_rely (n : nat) (w w' : site) : Prop :=
  (no_acks w w' /\ no_rows w w') /\ guards_kept (eq (Run, Datatypes.S n)) w w'.
Definition task_guar (n : nat) (w w' : site) : Prop :=
  suppressions w' = suppressions w /\ endpoints w' = endpoints w /\ guards_kept (fun q => q <> (Run, Datatypes.S n)) w w'.
#[local] Instance task_rely_preorder n : PreOrder (task_rely n).
Proof.
  split; [intros w; split; [by split; [intros k|intros a]|by intros a o _]|]. intros w1 w2 w3 [[a1 a2] a3] [[b1 b2] b3].
  split; [split; [intros k|intros a]; auto|by eapply guards_kept_trans].
Qed.

Lemma probe_task_safe S requests n x w :
  x.2 ∉ S -> seen S w -> task_safe task_rely task_guar inv n (probe_task requests n x) w.
Proof.
  intros Hx Hw. assert (Hst : stable (task_rely n) inv (seen S)).
  { intros w1 w2 H [[Hr _] _] _ m src Hk. by eapply H, Hr. }
  cut (spec (task_rely n) (task_guar n) inv (seen S) (probe_task requests n x) (fun _ => seen S) (seen S)).
  { intros H. by eapply safe_mono; [|by apply H]. }
  clear w Hw.
  assert (Hmine : forall w w', task_rely n w w' -> guards_kept (eq (Run, Datatypes.S n)) w w') by (by intros w1 w2 []).
  assert (Hkeep : forall w w', suppressions w' = suppressions w -> endpoints w' = endpoints w ->
    guards_kept (fun q => q <> (Run, Datatypes.S n)) w w' -> task_guar n w w') by (intros w1 w2 ? ? ?; by split_and!).
  eapply then_spec; [apply _..| |done|].
  - apply (try_explore_endpoint_spec (Run, Datatypes.S n) _ _ Hmine Hkeep (seen S) Hst); [done..|].
    intros _ w i. by apply seen_not_changing.
  - intros [[]|].
    + eapply then_spec with (Y := fun _ => seen S); [apply _..| |done|intros []; by apply spec_ret].
      eapply spec_conseq; [apply (release_spec (Run, Datatypes.S n) _ _ Hmine Hkeep (seen S) Hst (fun w f H => H) [] x.1), not_elem_of_nil| | |done].
      * intros w [? H]. split; [done|]. apply H. by eexists.
      * by intros [] w _ [? _].
    + apply spec_ret; [|by intros w _ []]. apply stable_and; [done|]. apply stable_impl. by intros [].
Qed.

Section Exploration.
Context (S : gset string) (scanned : list ExploredEndpoints.MachineInterfaceSnapshot).
Hypothesis scanned_interfaces : scanned ⊆ interfaces.
Abbreviation spec_run := (spec (rely Run) (guar Run) inv).
Abbreviation anything := (fun _ : site => True).
Abbreviation left_alone := (fun w => seen S w /\ indexed scanned w).

Lemma left_alone_stable : stable (rely Run) inv left_alone.
Proof. apply stable_and; [apply seen_stable|apply indexed_stable]. Qed.

(** The address is not one of a BMC that is left alone. *)
Definition contactable (a : IpAddr) : Prop := forall m, find_by_ip addresses a = Some m -> m ∉ S.

Lemma run_converse m n (Y : site -> Prop) :
  m ∉ S -> stable (rely Run) inv Y -> (forall w l, Y w -> Y (add_disturbed l w)) -> (forall w, Y w -> seen S w) ->
  spec_run Y (converse Run m n) (fun _ => Y) anything.
Proof.
  intros Hm HY Hd HS. eapply spec_conseq; [apply (converse_spec (Run, 0%nat) (rely Run) (guar Run)) with (Y := Y)|done..].
  - intros w w'. apply guar_mine.
  - done.
  - done.
  - intros _ w i Hw. apply (seen_not_changing S); auto.
Qed.
Lemma contact_at_spec a n : contactable a -> spec_run (seen S) (contact_at addresses a n) (fun _ => seen S) anything.
Proof.
  intros Ha. eapply then_spec with (Y := fun r w => seen S w /\ forall m, r = Ok (Some m) -> m ∉ S); [apply _..| |by intros ?|].
  - eapply spec_conseq; [apply tried_spec with (Q := fun r w => seen S w /\ r = find_by_ip addresses a) (Z := seen S) (X := seen S)|done| |by intros w H; exact H].
    + apply _.
    + apply _.
    + eapply then_spec; [apply _..|apply read_spec; [apply pause_guar_refl|apply seen_stable]|apply seen_stable|].
      intros []. apply hoare_pure. intros _. apply read_spec; [apply pause_guar_refl|apply seen_stable].
    + intros r. apply stable_and; [apply seen_stable|apply stable_pure].
    + apply seen_stable.
    + intros [r|e] w _ Hw; [destruct Hw as [? ->]|by split]. split; [done|]. intros m [= E]. by apply Ha.
  - intros r. apply hoare_pure. intros Hr. destruct r as [[m|]|e]; try (by apply spec_ret; [apply seen_stable|]).
    apply run_converse; [by apply Hr|apply seen_stable|done|done].
Qed.
Lemma each_spec {A} (f : A -> P unit) l (Y : site -> Prop) :
  stable (rely Run) inv Y -> (forall x, x ∈ l -> spec_run Y (f x) (fun _ => Y) anything) -> spec_run Y (each f l) (fun _ => Y) anything.
Proof.
  intros HY. induction l as [|x l IH]; intros Hf; cbn [each]; [by apply spec_ret|].
  eapply then_spec; [apply _..|apply Hf; left|by intros ?|]. intros []. apply IH. intros y Hy. apply Hf. by right.
Qed.
Lemma run_begin_spec (Y : site -> Prop) : stable (rely Run) inv Y -> spec_run Y begin (fun _ => Y) anything.
Proof. intros HY. eapply spec_conseq; [by apply read_spec; [apply pause_guar_refl|]|done|by intros y w _ []|done]. Qed.

(** The rows that were read, of which the others only take away. *)
Definition loaded (t : gmap IpAddr endpoint) (w : site) : Prop :=
  forall a, is_Some (endpoints w !! a) -> is_Some (t !! a).
Lemma loaded_stable t : stable (rely Run) inv (fun w => seen S w /\ loaded t w).
Proof. apply stable_and; [apply seen_stable|]. intros w w' H [Hr _] _ a Ha. by apply H, Hr. Qed.

Lemma run_write f (Y : site -> Prop) (Q : site -> Prop) :
  stable (rely Run) inv Y -> stable (rely Run) inv Q ->
  (forall w a e, Y w -> inv w -> f w !! a = Some e -> sound_report a (ExploredEndpoints.report e)) ->
  (forall w, Y w -> inv w -> Q (set_endpoints (fun _ => f w) w)) ->
  spec_run Y (query (fun w => (set_endpoints (fun _ => f w) w, ()))) (fun _ => Q) anything.
Proof.
  intros HY HQ Hs Hf. apply spec_call; [apply pause_guar_refl|done|by intros []|by intros ?|done|].
  intros w Hw HI. split_and!; [|by split; [|intros a o _]|done|by intros [] _; apply Hf].
  destruct (HI) as [H1 H2 H3 H4]. split; [done| |done..]. intros a e. by apply Hs.
Qed.

Lemma delete_stale_spec t :
  (forall a e, t !! a = Some e -> sound_report a (ExploredEndpoints.report e)) ->
  spec_run (fun w => seen S w /\ loaded t w) (delete_stale scanned t) (fun _ => left_alone) anything.
Proof.
  intros Ht. assert (Hleft : forall a, is_Some (t !! a) -> a ∉ ExploredEndpoints.stale scanned t ->
    is_Some (ExploredEndpoints.underlay_interface scanned a) \/ power_shelf a = true).
  { intros a [e He] Ha. destruct (ExploredEndpoints.not_stale scanned t a e He Ha) as [?|Hp]; [by left|right]. by apply (Ht a e He). }
  unfold delete_stale. case_decide as E.
  - apply spec_ret; [apply loaded_stable|]. intros w _ [Hw Hl]. split; [done|]. intros a Ha. apply Hleft; [by apply Hl|].
    rewrite E. apply not_elem_of_nil.
  - eapply then_spec; [apply _..|apply run_begin_spec, loaded_stable|by intros ?|]. intros [].
    apply (run_write (fun w => ExploredEndpoints.delete_many _ (endpoints w))); [apply loaded_stable|apply left_alone_stable| |].
    + intros w a e _ [_ H2 _ _] He. apply H2. by eapply ExploredEndpoints.delete_many_row.
    + intros w [Hw Hl] _. split; [done|]. intros a [Ha Hn]%ExploredEndpoints.delete_many_gone. by apply Hleft; [apply Hl|].
Qed.

(** What is probed is in the index, and is not left alone. *)
Definition plannable (e : @ExploredEndpoints.Endpoint EndpointKind string) : Prop :=
  is_Some (ExploredEndpoints.underlay_interface scanned (ExploredEndpoints.address e)) /\
  ExploredEndpoints.mac_address (ExploredEndpoints.iface e) ∉ S.

Lemma persist_and_remediate_spec c l done :
  (forall e, e ∈ l -> plannable e) ->
  spec_run left_alone (persist_and_remediate power_shelf c l done) (fun _ => left_alone) anything.
Proof.
  intros Hl. eapply then_spec; [apply _..|apply run_begin_spec, left_alone_stable|by intros ?|]. intros [].
  eapply then_spec; [apply _..| |by intros ?|].
  - apply (run_write (fun w => ExploredEndpoints.record_results _ _ _ (clock w) _ l (endpoints w)));
      [apply left_alone_stable|apply left_alone_stable| |].
    + intros w a e _ [_ H2 _ _] (e0 & Ha & He)%ExploredEndpoints.recorded_report. eapply alike_sound; [exact Ha|].
      destruct He as [He|(x & r & Hx & -> & Hr & He)]; [by apply H2|]. rewrite He. case_decide; [|done]. simplify_eq.
      unfold ExploredEndpoints.of_probe. destruct (answered _ _ _) as [rep|err] eqn:E; [by eapply answered_sound|done].
    + intros w [Hw Hi] _. split; [done|]. intros a [e (e0 & _ & [He|(x & r & Hx & -> & _)])%ExploredEndpoints.recorded_report].
      * apply Hi. by eexists.
      * left. by apply (Hl x).
  - intros []. apply each_spec; [apply left_alone_stable|]. intros e He. case_decide; [|by apply spec_ret; [apply left_alone_stable|]].
    apply run_converse; [by apply Hl|apply left_alone_stable|done|by intros w []].
Qed.

Lemma probes_spec order requests l :
  (forall e, e ∈ l -> plannable e) ->
  spec_run left_alone (probes order (imap (probe_task requests) (ExploredEndpoints.targets l))) (fun _ => left_alone) anything.
Proof.
  intros Hl w Hw. apply safe_bind; [apply _|]. eapply safe_mono; [|apply (join_all_safe _ _ task_rely task_guar) with (X := left_alone)].
  - intros k w' _ Hw' w'' HR HI. exact (left_alone_stable w' w'' Hw' HR HI).
  - apply _.
  - apply _.
  - intros i w1 w2 [H1 H2]. split; [by apply H1|]. intros a q <-. by apply H2.
  - intros i j w1 w2 Hij (H1 & H2 & H3). split; [split; [by intros k; rewrite H1|by apply no_rows_same]|].
    intros a q <-. apply H3. congruence.
  - intros i w1 w2 (H1 & H2 & H3). by eapply guar_mine.
  - intros i w1 w2 [Hs Hi] [[Hr _]|(E1 & E2 & _)].
    + destruct (Hr eq_refl) as [Hr1 Hr2]. split; [intros m src Hk; by eapply Hs, Hr1|intros a Ha; by apply Hi, Hr2].
    + split; [intros m src; rewrite E1; apply Hs|intros a; rewrite E2; apply Hi].
  - intros i p. rewrite list_lookup_imap. intros (x & Hx & ->)%fmap_Some. simpl.
    apply list_elem_of_lookup_2, list_elem_of_fmap in Hx as (e & -> & He). apply (probe_task_safe S); [by apply Hl|by destruct Hw].
  - done.
Qed.

(** What is read of an endpoint before it is ingested. *)
Definition ingestible (x : IpAddr * endpoint) : Prop :=
  sound_report x.1 (ExploredEndpoints.report x.2) /\
  (is_Some (ExploredEndpoints.underlay_interface scanned x.1) \/ power_shelf x.1 = true).
Lemma identified_contactable a e :
  ingestible (a, e) -> is_suppressed_at scanned S a = false ->
  ExploredEndpoints.body (ExploredEndpoints.report e) <> UnknownEndpoint ->
  ExploredEndpoints.is_power_shelf (ExploredEndpoints.report e) = false -> contactable a.
Proof.
  intros [[_ Hs] Hi] Hn Hk Hp m Hm. simpl in *. rewrite (Hs Hk) in Hp. destruct Hi as [[i Hi]|?]; [|congruence].
  unfold is_suppressed_at in Hn. rewrite Hi in Hn. rewrite (index_find_by_ip scanned a i) in Hm by done. injection Hm as <-.
  by apply bool_decide_eq_false in Hn.
Qed.

Lemma identify_machines_to_ingest_spec c rows :
  (forall x, x ∈ rows -> ingestible x) ->
  spec_run (seen S) (identify_machines_to_ingest interfaces c scanned S rows)
    (fun r w => seen S w /\ forall a, a ∈ r.1 \/ a ∈ r.2 -> contactable a) anything.
Proof.
  induction rows as [|[a e] rows IH]; intros Hr; cbn [identify_machines_to_ingest].
  { apply spec_ret; [apply seen_stable|]. intros w _ Hw. split; [done|]. intros a [Ha|Ha]; by apply not_elem_of_nil in Ha. }
  specialize (IH (fun x Hx => Hr x ltac:(by right))).
  destruct (is_suppressed_at scanned S a) eqn:Es; [done|]. case_decide as Ek; [done|].
  destruct (ExploredEndpoints.is_power_shelf (ExploredEndpoints.report e)) eqn:Ep; [done|].
  assert (Ha : contactable a) by (eapply identified_contactable; [apply Hr; left|done..]).
  assert (Hst : forall (r : list IpAddr * list IpAddr), stable (rely Run) inv (fun w => seen S w /\ forall a, a ∈ r.1 \/ a ∈ r.2 -> contactable a))
    by (intros r; apply stable_and; [apply seen_stable|apply stable_pure]).
  destruct (ExploredEndpoints.body (ExploredEndpoints.report e)); [done| |done|].
  - eapply then_spec; [apply _..|exact IH|by intros ?|]. intros r. apply spec_ret; [apply Hst|]. intros w _ [Hw Hc].
    split; [done|]. destruct (fit c a); [|done]. simpl. intros b [[->|?]%elem_of_cons|?]; auto.
  - eapply then_spec with (Y := fun _ => seen S); [apply _..| |by intros ?|].
    + eapply then_spec; [apply _..|by apply contact_at_spec|by intros ?|]. intros []. by apply spec_ret; [apply seen_stable|].
    + intros g. eapply then_spec; [apply _..|exact IH|by intros ?|]. intros r. apply spec_ret; [apply Hst|]. intros w _ [Hw Hc].
      split; [done|]. destruct g; [|done]. simpl. intros b [?|[->|?]%elem_of_cons]; auto.
Qed.

Lemma identify_managed_host_spec c dpus host :
  (forall a, a ∈ dpus \/ a = host -> contactable a) ->
  spec_run (seen S) (identify_managed_host interfaces c dpus host) (fun _ => seen S) anything.
Proof.
  intros Hc. eapply then_spec; [apply _..| |by intros ?|].
  - apply each_spec; [apply seen_stable|]. intros d _. case_decide; [apply contact_at_spec; auto|by apply spec_ret; [apply seen_stable|]].
  - intros []. apply contact_at_spec. auto.
Qed.
End Exploration.

Lemma explore_site_spec c :
  spec (rely Run) (guar Run) inv (fun _ => True) (explore_site interfaces power_shelf c) (fun _ _ => True) (fun _ => True).
Proof.
  eapply then_spec; [apply _..|apply acknowledge_spec|by intros ?|]. intros S.
  eapply then_spec; [apply _..|apply run_begin_spec, seen_stable|by intros ?|]. intros [].
  eapply then_spec with (Y := fun t w => (seen S w /\ loaded t w) /\ forall a e, t !! a = Some e -> sound_report a (ExploredEndpoints.report e));
    [apply _..| |by intros ?|].
  { eapply spec_conseq; [apply (spec_read (rely Run) (guar Run) inv QueryError (fun w => Ok (endpoints w))) with (P := seen S)
      (Q := fun t w => (seen S w /\ loaded t w) /\ forall a e, t !! a = Some e -> sound_report a (ExploredEndpoints.report e))|done|done|done].
    - apply pause_guar_refl.
    - apply seen_stable.
    - intros t. apply stable_and; [apply loaded_stable|apply stable_pure].
    - intros w t Hw [_ H2 _ _] [= <-]. split; [split; [done|by intros a]|exact H2]. }
  intros t. apply hoare_pure. intros Ht.
  eapply then_spec; [apply _..|apply run_begin_spec, loaded_stable|by intros ?|]. intros [].
  eapply then_spec; [apply _..| |by intros ?|].
  { eapply spec_conseq; [apply read_spec; [apply pause_guar_refl|apply loaded_stable]|intros w Hw; exact Hw|intros y w _ Hw; exact Hw|done]. }
  intros scanned. apply hoare_pure. intros ->. set (scanned := filter _ interfaces).
  assert (Hs : scanned ⊆ interfaces) by (by intros i [_ ?]%list_elem_of_filter).
  eapply then_spec; [apply _..|by apply delete_stale_spec|by intros ?|]. intros [].
  destruct (ExploredEndpoints.plan_run _ _ S t) as [p|] eqn:Ep; [|by apply spec_ret; [apply left_alone_stable|]].
  assert (Hl : forall e, e ∈ ExploredEndpoints.planned_endpoints p -> plannable S scanned e).
  { intros e He. destruct (ExploredEndpoints.planned_indexed _ _ _ _ _ _ Ep He). split; [by eexists|done]. }
  eapply then_spec; [apply _..|by apply probes_spec|by intros ?|]. intros done.
  eapply then_spec; [apply _..|by apply persist_and_remediate_spec|by intros ?|]. intros [].
  eapply then_spec; [apply _..|apply run_begin_spec, left_alone_stable|by intros ?|]. intros [].
  eapply then_spec with (Y := fun rows w => seen S w /\ forall x, x ∈ rows -> ingestible scanned x); [apply _..| |by intros ?|].
  { eapply spec_conseq; [apply (spec_read (rely Run) (guar Run) inv QueryError (fun w => Ok (find_all_preingestion_complete (endpoints w))))
      with (P := fun w => seen S w /\ indexed scanned w)
      (Q := fun rows w => seen S w /\ forall x, x ∈ rows -> ingestible scanned x)|done|done|done].
    - apply pause_guar_refl.
    - apply left_alone_stable.
    - intros rows. apply stable_and; [apply seen_stable|apply stable_pure].
    - intros w rows [Hw Hi] [_ H2 _ _] [= <-]. split; [done|]. intros [a e] [Ha _]%list_elem_of_In%filter_In.
      apply list_elem_of_In, elem_of_map_to_list in Ha. split; [by apply H2|]. apply Hi. by eexists. }
  intros rows. apply hoare_pure. intros Hrows.
  eapply then_spec; [apply _..|by apply identify_machines_to_ingest_spec|by intros ?|]. intros [dpus hosts].
  apply hoare_pure. intros Hc. eapply spec_conseq; [apply each_spec with (Y := seen S)|done..].
  - apply seen_stable.
  - intros h Hh. apply identify_managed_host_spec. intros a [?| ->]; apply Hc; auto.
Qed.

(** *** Refreshes and controllers *)

Abbreviation anything := (fun _ : site => True).

(** What a refresh holds, between reads. *)
Lemma refresh_read n l {A} (x : A) :
  spec (rely (Refresh n)) (guar (Refresh n)) inv (holds (Refresh n, 0%nat) l)
    (map_error Database (select (fun _ => x))) (fun _ => holds (Refresh n, 0%nat) l) (holds (Refresh n, 0%nat) l).
Proof.
  apply spec_map_error; [apply _| |intros _; apply holds_stable|apply holds_stable].
  eapply spec_conseq; [apply read_spec; [apply pause_guar_refl|apply holds_stable]|done|by intros y w _ []|done].
Qed.

(** A write that adds no endpoint and keeps reports sound. *)
Lemma endpoints_write i f (w : site) :
  (forall a e', f (endpoints w) !! a = Some e' -> is_Some (endpoints w !! a) /\ sound_report a (ExploredEndpoints.report e')) ->
  inv w -> inv (set_endpoints f w) /\ guar i w (set_endpoints f w).
Proof.
  intros Hf [H1 H2 H3 H4]. split.
  - split; [done| |done..]. intros a e He. by apply (Hf a).
  - split; [|by intros a o _]. intros _. split; [by intros k|]. intros a [e' He']. by apply (Hf a e').
Qed.
Lemma refresh_write n a l v new :
  sound_report a new ->
  spec (rely (Refresh n)) (guar (Refresh n)) inv (holds (Refresh n, 0%nat) l)
    (map_error Database (query (fun w =>
       let r := ExploredEndpoints.try_update (clock w) a v new false (endpoints w) in (set_endpoints (fun _ => r.1) w, r.2))))
    (fun _ => holds (Refresh n, 0%nat) l) (holds (Refresh n, 0%nat) l).
Proof.
  intros Hn. apply spec_map_error; [apply _| |intros _; apply holds_stable|apply holds_stable].
  apply spec_call; [apply pause_guar_refl|apply holds_stable|intros ?; apply holds_stable|apply holds_stable|done|].
  intros w Hw HI. cbn [fst snd]. set (f := fun _ => _).
  destruct (endpoints_write (Refresh n) f w) as [? ?]; [|done|by split_and!]. intros b e' He'. subst f. simpl in He'.
  apply ExploredEndpoints.update_if_current_row in He' as [He'|(-> & e & He & _ & ->)]; [|split; [by eexists|done]].
  split; [by eexists|]. by apply (inv_reports w HI).
Qed.

Lemma refresh_probe_spec n a m requests v new :
  sound_report a new ->
  spec (rely (Refresh n)) (guar (Refresh n)) inv anything
    (probe ← map_error Database (try_explore_endpoint (Refresh n, 0%nat) a m requests);
     match probe with
     | None => raise (AlreadyInProgress a)
     | Some _ =>
         written ← try (_ ← map_error Database begin;
                        applied ← map_error Database (query (fun w =>
                          let r := ExploredEndpoints.try_update (clock w) a v new false (endpoints w) in (set_endpoints (fun _ => r.1) w, r.2)));
                        match applied with Applied _ => mret () | NotApplied _ => raise (ConcurrentModification v) end);
         _ ← map_error Database (release a);
         lift written
     end) (fun _ => anything) anything.
Proof.
  intros Hnew.
  eapply then_spec with (Y := fun p w => is_Some p -> holds (Refresh n, 0%nat) [a] w); [apply _..| |by intros ?|].
  { apply spec_map_error; [apply _| |intros p; apply stable_impl; intros _; apply holds_stable|by intros ?].
    eapply spec_conseq; [apply (try_explore_endpoint_spec (Refresh n, 0%nat) (rely (Refresh n)) (guar (Refresh n))) with (X := anything)| | |].
    - intros w w'. apply rely_mine.
    - intros w w'. apply guar_mine.
    - by intros ?.
    - done.
    - done.
    - done.
    - done.
    - by intros p w _ [].
    - done. }
  intros [[]|]; [|by apply spec_raise; [intros ? ? ? ? ? []|]].
  apply spec_conseq with (P' := holds (Refresh n, 0%nat) [a]) (Q' := fun _ => anything) (X' := anything);
    [|by intros w H; apply H; eexists|done..].
  eapply then_spec with (Y := fun _ => holds (Refresh n, 0%nat) [a]); [apply _..| |by intros ?|].
  { eapply spec_conseq; [apply tried_spec with (Q := fun _ => holds (Refresh n, 0%nat) [a]) (Z := holds (Refresh n, 0%nat) [a])|..].
    - apply _.
    - apply _.
    - eapply then_spec; [apply _..|apply refresh_read|apply holds_stable|]. intros [].
      eapply then_spec; [apply _..|by apply refresh_write|apply holds_stable|]. intros [].
      + by apply spec_ret; [apply holds_stable|].
      + by apply spec_raise; [apply holds_stable|].
    - intros []. apply holds_stable.
    - apply holds_stable.
    - done.
    - by intros [] w _ H.
    - by intros w H; exact H. }
  intros written. eapply then_spec with (Y := fun _ => anything); [apply _..| |by intros ?|].
  - apply spec_map_error; [apply _| |by intros ? ?|by intros ?].
    eapply spec_conseq; [apply (release_spec (Refresh n, 0%nat) (rely (Refresh n)) (guar (Refresh n))) with (X := anything) (l := []) (a := a)| | |].
    + intros w w'. apply rely_mine.
    + intros w w'. apply guar_mine.
    + by intros ?.
    + done.
    + apply not_elem_of_nil.
    + by split.
    + done.
    + done.
  - intros []. apply hoare_ret; [by intros ?|]. by intros w _ _; destruct written.
Qed.

Lemma query_anything i {A} (f : site -> site * A) :
  (forall w, inv w -> inv (f w).1 /\ guar i w (f w).1) ->
  spec (rely i) (guar i) inv anything (query f) (fun _ => anything) anything.
Proof.
  intros Hf. apply spec_call; [apply pause_guar_refl|by intros ?|by intros ? ?|by intros ?|done|].
  intros w _ HI. destruct (Hf w HI). by split_and!.
Qed.
Lemma read_anything i {A} (f : site -> A) :
  spec (rely i) (guar i) inv anything (select f) (fun _ => anything) anything.
Proof. apply query_anything. intros w HI. split; [done|apply pause_guar_refl]. Qed.
Lemma then_anything i {E A B} (m : M site E A) (f : A -> M site E B) :
  spec (rely i) (guar i) inv anything m (fun _ => anything) anything ->
  (forall a, spec (rely i) (guar i) inv anything (f a) (fun _ => anything) anything) ->
  spec (rely i) (guar i) inv anything (m ≫= f) (fun _ => anything) anything.
Proof. intros Hm Hf. eapply then_spec; [apply _..|exact Hm|by intros ?|exact Hf]. Qed.
Lemma error_anything i {E F A} (g : E -> F) (m : M site E A) :
  spec (rely i) (guar i) inv anything m (fun _ => anything) anything ->
  spec (rely i) (guar i) inv anything (map_error g m) (fun _ => anything) anything.
Proof. intros Hm. apply spec_map_error; [apply _|done|by intros ? ?|by intros ?]. Qed.
Lemma lift_anything i {E A} (r : result E A) : spec (rely i) (guar i) inv anything (Ret r) (fun _ => anything) anything.
Proof. apply hoare_ret; [by intros ?|]. by intros w _ _; destruct r. Qed.

Lemma refresh_spec n a requests answer :
  spec (rely (Refresh n)) (guar (Refresh n)) inv anything
    (refresh_endpoint_report interfaces power_shelf n a requests answer) (fun _ => anything) anything.
Proof.
  apply then_anything; [apply error_anything, read_anything|]. intros [].
  eapply then_spec with (Y := fun o _ => forall e, o = Some e -> sound_report a (ExploredEndpoints.report e)); [apply _..| |by intros ?|].
  { apply spec_map_error; [apply _| |intros o; apply stable_pure|by intros ?]. apply spec_read; [apply pause_guar_refl|by intros ?|intros o; apply stable_pure|].
    intros w o _ HI [= <-] e He. by apply (inv_reports w HI). }
  intros o. apply spec_conseq with (P' := fun _ => True /\ forall e, o = Some e -> sound_report a (ExploredEndpoints.report e))
    (Q' := fun _ => anything) (X' := anything); [|by split|done..].
  apply hoare_pure. intros Ho. destruct o as [e|]; [|apply lift_anything].
  apply then_anything; [apply error_anything, read_anything|]. intros [m|]; [|apply lift_anything].
  apply then_anything; [apply error_anything, read_anything|]. intros []; [apply lift_anything|].
  apply then_anything; [apply error_anything, read_anything|]. intros []. apply refresh_probe_spec.
  destruct (answered power_shelf a answer) as [rep|err] eqn:E; [by eapply answered_sound|]. exact (Ho e eq_refl).
Qed.

(** *** Other writers *)

Lemma statement_rows now st (t : gmap IpAddr endpoint) a e' :
  apply_statement now st t !! a = Some e' ->
  exists e, t !! a = Some e /\ ExploredEndpoints.alike (ExploredEndpoints.report e) (ExploredEndpoints.report e').
Proof.
  assert (Hkeep : forall b f (t : gmap IpAddr endpoint), (forall e, ExploredEndpoints.alike (ExploredEndpoints.report e) (ExploredEndpoints.report (f e))) ->
    forall e', alter f b t !! a = Some e' -> exists e, t !! a = Some e /\ ExploredEndpoints.alike (ExploredEndpoints.report e) (ExploredEndpoints.report e')).
  { intros b f t0 Hf e1 [(-> & e & He & ->)|[_ ?]]%lookup_alter_Some; [by exists e|by exists e1]. }
  assert (Hall : forall f l, (forall e, ExploredEndpoints.alike (ExploredEndpoints.report e) (ExploredEndpoints.report (f e))) ->
    forall e', foldr (alter f) t l !! a = Some e' -> exists e, t !! a = Some e /\ ExploredEndpoints.alike (ExploredEndpoints.report e) (ExploredEndpoints.report e')).
  { intros f l Hf. induction l as [|b l IH]; simpl; intros e1 H; [by exists e1|].
    destruct (Hkeep b f _ Hf e1 H) as (e2 & H2 & [? ?]). destruct (IH e2 H2) as (e & He & [? ?]). exists e. split; [done|]. split; congruence. }
  destruct st as [b|b|b v|l|b|l s|b]; simpl.
  - intros [_ He]%lookup_delete_Some. by exists e'.
  - unfold ExploredEndpoints.clear_last_known_error. destruct (t !! b) as [e|] eqn:Eb; [|by exists e'].
    intros [?|(-> & e0 & He & _ & ->)]%ExploredEndpoints.update_if_current_row; [by exists e'|]. exists e0. split; [done|]. by simplify_eq.
  - intros [?|(-> & e0 & He & _ & ->)]%ExploredEndpoints.update_if_current_row; [by exists e'|by exists e0].
  - by apply Hall.
  - by apply Hkeep.
  - by apply Hall.
  - unfold ExploredEndpoints.reset_failed_preingestion. destruct (t !! b) as [e|] eqn:Eb; [|by exists e'].
    destruct (ExploredEndpoints.preingestion_state e); try (by exists e').
    cbn [fst]. intros [[<- <-]|[_ ?]]%lookup_insert_Some; [by exists e|by exists e'].
Qed.
Lemma write_endpoint_spec n st : spec (rely (Api n)) (guar (Api n)) inv anything (write_endpoint st) (fun _ => anything) anything.
Proof.
  apply query_anything. intros w HI. apply (endpoints_write (Api n)); [|done].
  intros a e' (e & He & Ha)%statement_rows. split; [by eexists|]. eapply alike_sound; [exact Ha|]. by apply (inv_reports w HI).
Qed.

Lemma gate_spec i macs src :
  i <> Run -> spec (rely i) (guar i) inv anything (gate_before_credential_change macs src) (fun _ => anything) anything.
Proof.
  intros Hi. unfold gate_before_credential_change. case_decide; [apply lift_anything|].
  apply then_anything; [apply read_anything|]. intros []. apply then_anything.
  - apply query_anything. intros w [H1 H2 H3 H4]. simpl. split.
    + split; simpl; [|done..]. intros m j (s' & o & -> & Hm & Hk)%H1. exists s', o. split_and!; [done..|].
      by apply upserts_acked.
    + split; [|by intros a q _]. intros _. split; [|by apply no_rows_same]. intros k. apply upserts_acked.
  - intros rows. case_match; [apply lift_anything|]. case_match; [|apply lift_anything].
    apply then_anything; [|intros now; apply lift_anything].
    intros w _ r w' HR HI. simpl. by split_and!; [|apply pause_guar_refl|].
Qed.

(** The marks that a request of a controller leaves. *)
Lemma marked_changing (i : thread) (g : string -> bool) (macs : list string) (c : gmap (string * thread) bool) (m : string) (j : thread) :
  foldr (fun m => <[(m, i) := g m]>) c macs !! (m, j) = Some true ->
  (j = i /\ m ∈ macs /\ g m = true) \/ c !! (m, j) = Some true.
Proof.
  induction macs as [|n macs IH]; simpl; [by right|]. intros [([= <- <-] & Hg)|[_ H]]%lookup_insert_Some.
  - left. split_and!; [done|left|done].
  - destruct (IH H) as [(? & ? & ?)|?]; [left|by right]. split_and!; [done|by right|done].
Qed.

Hypothesis one_owner : forall src o o' m, m ∈ scope src o -> m ∈ scope src o' -> o = o'.

Lemma change_tick_spec src o n ends :
  spec (rely (Control src o)) (guar (Control src o)) inv anything
    (change_tick (Control src o) (scope src o) src n ends) (fun _ => anything) anything.
Proof.
  apply then_anything; [by apply gate_spec|]. intros []; [|apply lift_anything]. apply then_anything.
  - induction n as [|n IH]; cbn [changes]; [apply lift_anything|].
    eapply then_spec with (Y := fun _ => anything); [apply _..| |by intros ?|intros _; exact IH].
    eapply spec_conseq; [apply tried_spec with (Q := fun _ => anything) (Z := anything) (X := anything)|done|done|by intros w H; exact H].
    + apply _.
    + apply _.
    + apply query_anything. intros w [H1 H2 H3 H4]. simpl. split; [|by apply guar_same].
      split; simpl; [|done..]. intros m j [(-> & Hm & Hg)|Hc]%marked_changing; [|by apply H1].
      exists src, o. split_and!; [done..|]. destruct (suppressions w !! _) as [r|] eqn:E; [|done]. by exists r.
    + by intros ? ?.
    + by intros ?.
  - intros []. destruct ends; [|apply lift_anything]. unfold resume_after_credential_change.
    case_decide; [apply lift_anything|]. apply query_anything. intros w [H1 H2 H3 H4]. simpl. split.
    + split; simpl; [|done..]. intros m j [Hc Hn]%map_lookup_filter_Some. simpl in Hn.
      destruct (H1 m j Hc) as (s' & o' & -> & Hm & Hk). exists s', o'. split_and!; [done..|].
      apply delete_many_for_source_acked. split; [done|]. simpl. intros (Hm' & _ & ->). apply Hn. split; [done|].
      by rewrite (one_owner src o o' m).
    + split; [|by intros a q _]. intros _. split; [|by apply no_rows_same]. intros k Hk. by apply delete_many_for_source_acked in Hk as [? _].
Qed.

(** ** The system *)

Definition pause_step := step (O := unit) may_start cleanup.
Definition pause_system := system (W := site) (O := unit) (T := thread).
Definition quiet (t : Z) : site := mk_site ∅ ∅ ∅ t ∅ [] [].
Definition pause_reachable (t : Z) (s : pause_system) : Prop := rtc pause_step (mk_system (quiet t) ∅) s.

Lemma ending_safe i {E A} (p : M site E A) w :
  spec (rely i) (guar i) inv anything p (fun _ => anything) anything ->
  safe (rely i) (guar i) inv (ending p) (fun _ _ => True) w.
Proof. intros Hp. apply safe_bind; [apply _|]. eapply safe_mono; [|by apply Hp]. by intros. Qed.

Lemma pause_started_safe i p w : may_start i p -> inv w -> safe (rely i) (guar i) inv p (fun _ _ => True) w.
Proof.
  intros Hp HI. destruct Hp as [c|n a requests answer|n st|src o n ends|d Hd].
  - apply ending_safe, explore_site_spec.
  - apply ending_safe, refresh_spec.
  - apply ending_safe, write_endpoint_spec.
  - apply ending_safe, change_tick_spec.
  - intros r w' HR HI'. simpl. split_and!; [by eapply inv_same|by apply guar_same|done].
Qed.

Lemma cleanup_safe i w : inv w -> inv (cleanup i w) /\ guar i w (cleanup i w).
Proof.
  intros HI. split; [by apply inv_in_flight|]. split; [by intros _; split; [intros k|intros b]|]. intros a o Ho Ha. by apply map_lookup_filter_Some.
Qed.

(** C9: Runs one after the other, with their probes, remediation and ingestion, and
    refreshes, writes of the API and controllers in any number and order, with any
    failures, lost replies and ends of tasks: no run of the site explorer contacts a BMC
    while a controller changes its credentials under an acknowledged request, and no
    request is acknowledged while somebody probes an address of the BMC. The table of
    interfaces does not change meanwhile and has no address twice ([one_address]), and
    for each source a BMC belongs to one controlled object ([one_owner]). *)
Theorem pause_keeps_runs_out t s :
  pause_reachable t s -> (forall m, (Run, m, true) ∉ disturbed (shared s)) /\ cut_short (shared s) = [].
Proof.
  intros Hs. assert (Hsound : sound rely guar inv (fun _ _ _ => True) s).
  { eapply (system_safe rely guar inv (fun _ _ _ => True) may_start cleanup) with (P := fun _ _ => True); [| | | | | |exact Hs].
    - apply pause_compatible.
    - apply cleanup_safe.
    - apply pause_started_safe.
    - by split.
    - done.
    - apply sound_start. split; simpl; [by intros m i|by intros a e|intros m; apply not_elem_of_nil|done]. }
  destruct Hsound as [[_ _ H3 H4] _]. done.
Qed.
End Pause.

(** ** A pause is granted

    One undisturbed run acknowledges the requests for BMCs that nobody probes. *)
Section Granted.
Context (addresses : list (string * IpAddr)).
Abbreviation ips := (lookup_bmc_ip_by_mac_address addresses).

Lemma run_query {A} (f : site -> site * A) w : run (query f) w = ((f w).1, Ok (f w).2).
Proof. unfold query. by rewrite run_call. Qed.
Lemma run_select {A} (f : site -> A) w : run (select f) w = (w, Ok (f w)).
Proof. unfold select. by rewrite run_query. Qed.
Lemma run_begin w : run begin w = (w, Ok ()).
Proof. apply run_select. Qed.

Lemma release_all_run l w :
  exists w', run (release_all l) w = (w', Ok ()) /\ suppressions w' = suppressions w /\
    forall a, a ∉ l -> in_flight w' !! a = in_flight w !! a.
Proof.
  revert w. induction l as [|a l IH]; intros w; [by exists w|]. cbn [release_all]. rewrite run_mbind.
  destruct (IH (set_in_flight (base.delete a) w)) as (w' & H1 & H2 & H3). exists w'. split_and!; [exact H1|exact H2|].
  intros b Hb. apply not_elem_of_cons in Hb as [Hab Hb]. rewrite H3 by done. simpl. by rewrite lookup_delete_ne.
Qed.

Lemma claim_all_run l claimed w :
  exists w' g, run (claim_all l claimed) w = (w', Ok g) /\ suppressions w' = suppressions w /\
    (forall a, a ∉ l -> a ∉ claimed -> in_flight w' !! a = in_flight w !! a) /\
    (NoDup l -> (forall a, a ∈ l -> in_flight w !! a = None) -> is_Some g).
Proof.
  revert claimed w. induction l as [|a l IH]; intros claimed w.
  - exists w, (Some claimed). split_and!; [done..|]. by intros _ _; eexists.
  - cbn [claim_all]. rewrite run_mbind. simpl. destruct (in_flight w !! a) as [o|] eqn:Ea; simpl.
    + rewrite run_mbind. destruct (release_all_run claimed w) as (w' & -> & H2 & H3). exists w', None.
      split_and!; [done|done|intros b _ Hb; by apply H3|]. intros _ H. by rewrite H in Ea; [|left].
    + destruct (IH (a :: claimed) (set_in_flight (<[a := (Run, 0%nat)]>) w)) as (w' & g & H1 & H2 & H3 & H4).
      exists w', g. split_and!; [exact H1|exact H2| |].
      * intros b Hb Hc. apply not_elem_of_cons in Hb as [Hab Hb]. rewrite H3; [|done|by apply not_elem_of_cons].
        simpl. by rewrite lookup_insert_ne.
      * intros [Ha Hn]%NoDup_cons Hf. apply H4; [done|]. intros b Hb. simpl.
        rewrite lookup_insert_ne by (by intros ->). apply Hf. by right.
Qed.

Hypothesis one_address : NoDup (snd <$> addresses).

Lemma ips_disjoint m n a : a ∈ ips m -> a ∈ ips n -> m = n.
Proof.
  unfold lookup_bmc_ip_by_mac_address. intros ((m' & a') & -> & [Hm H1]%list_elem_of_filter)%list_elem_of_fmap
    ((n' & b') & E & [Hn H2]%list_elem_of_filter)%list_elem_of_fmap. simpl in *. subst.
  apply list_elem_of_lookup in H1 as [i Hi], H2 as [j Hj].
  assert (i = j) as ->.
  { eapply (NoDup_lookup (snd <$> addresses)); [done|..]; rewrite list_lookup_fmap; [by rewrite Hi|by rewrite Hj]. }
  congruence.
Qed.
Lemma ips_NoDup m : NoDup (ips m).
Proof.
  unfold lookup_bmc_ip_by_mac_address. clear -one_address. induction addresses as [|x l IH]; [constructor|].
  apply NoDup_cons in one_address as [Hx Hl]. rewrite filter_cons. case_decide; [|by apply IH]. simpl. constructor; [|by apply IH].
  intros (y & E & [_ Hy]%list_elem_of_filter)%list_elem_of_fmap. apply Hx. rewrite E. by apply list_elem_of_fmap_2.
Qed.

Lemma claim_idle_run macs w :
  exists w' acks, run (claim_idle addresses macs) w = (w', Ok acks) /\ suppressions w' = suppressions w /\
    forall m, m ∈ macs -> (forall a, a ∈ ips m -> in_flight w !! a = None) -> m ∈ acks.
Proof.
  revert w. induction macs as [|n macs IH]; intros w.
  - exists w, []. split_and!; [done..|]. by intros m ?%not_elem_of_nil.
  - cbn [claim_idle]. rewrite run_mbind, run_select. cbn [fst snd]. rewrite run_mbind.
    destruct (claim_all_run (ips n) [] w) as (w1 & g & -> & H2 & H3 & H4). cbn [fst snd]. rewrite run_mbind.
    destruct (IH w1) as (w' & acks & -> & H6 & H7). cbn [fst snd].
    exists w', (match g with Some _ => n :: acks | None => acks end). split_and!; [done|congruence|].
    intros m Hm Hf. destruct (decide (m = n)) as [->|Hne].
    + destruct (H4 (ips_NoDup n) Hf) as [c ->]. left.
    + apply elem_of_cons in Hm as [?|Hm]; [done|].
      assert (m ∈ acks); [|by destruct g; [right|]]. apply H7; [done|]. intros a Ha.
      rewrite H3; [by apply Hf|intros Hn; by eapply Hne, ips_disjoint|apply not_elem_of_nil].
Qed.


(** Requests leave rows, and a row that is there stays. *)
Lemma upserts_keep now src why macs t k :
  is_Some (t !! k) -> is_Some (foldl (fun t m => upsert now (m, SiteExplorer, src) why t) t macs !! k).
Proof.
  revert t. induction macs as [|n macs IH]; intros t Ht; simpl; [done|]. apply IH. unfold upsert.
  destruct (decide ((n, SiteExplorer, src) = k)) as [<-|]; [by rewrite lookup_insert_eq|by rewrite lookup_insert_ne].
Qed.
Lemma upserts_row now src why macs t m :
  m ∈ macs -> is_Some (foldl (fun t m => upsert now (m, SiteExplorer, src) why t) t macs !! (m, SiteExplorer, src)).
Proof.
  revert t. induction macs as [|n macs IH]; intros t Hm; [by apply not_elem_of_nil in Hm|].
  apply elem_of_cons in Hm as [->|Hm]; [|by apply IH]. cbn [foldl]. apply upserts_keep. unfold upsert. by rewrite lookup_insert_eq.
Qed.

(** A request leaves its rows whatever the answer is. *)
Lemma gate_run macs src w :
  macs <> [] -> exists d, run (gate_before_credential_change macs src) w =
    (set_suppressions (foldl (fun t m => upsert (clock w) (m, SiteExplorer, src) "site explorer pause" t) (suppressions w) macs) w, Ok d) /\
    ((forall m, m ∈ macs -> acked (m, SiteExplorer, src) (suppressions w)) -> d = Proceed).
Proof.
  intros Hm. unfold gate_before_credential_change. rewrite decide_False by done. rewrite run_mbind, run_begin.
  cbn [fst snd]. rewrite run_mbind, run_query. cbn [fst snd].
  set (t := foldl _ _ _). destruct (forallb _ macs) eqn:E; [by exists Proceed|].
  assert (Hex : ~ forall m, m ∈ macs -> acked (m, SiteExplorer, src) (suppressions w)).
  { intros H. apply not_true_iff_false in E. apply E, forallb_forall. intros m Hin%list_elem_of_In.
    destruct (proj2 (upserts_acked (clock w) src "site explorer pause" macs _ _) (H m Hin)) as (r & Hr & Ha).
    apply existsb_exists. exists (m, r). split; [|by rewrite bool_decide_true].
    apply list_elem_of_In, list_elem_of_omap. exists m. split; [|subst t; cbn beta; by rewrite Hr].
    by rewrite (merge_sort_Permutation mac_le), elem_of_remove_dups. }
  destruct (newest _) as [n|]; [|by exists Wait].
  exists (if SITE_EXPLORER_PAUSE_BUDGET <? clock w - n then Proceed else Wait). split; [by rewrite run_mbind|by intros ?].
Qed.

Lemma acknowledge_unacknowledged_row now macs t m src :
  m ∈ macs -> is_Some (t !! (m, SiteExplorer, src)) -> acked (m, SiteExplorer, src) (acknowledge_unacknowledged now macs SiteExplorer t).
Proof.
  intros Hm [r Hr]. unfold acked, acknowledge_unacknowledged. rewrite map_lookup_imap, Hr. simpl. eexists. split; [done|].
  unfold acknowledge_row, acknowledged. case_decide as Hd; simpl; [done|]. apply bool_decide_eq_true.
  destruct (acknowledged_at r); [by eexists|]. by destruct Hd.
Qed.

Lemma acknowledge_run w :
  exists w' S, run (acknowledge_site_explorer_suppressions addresses) w = (w', Ok S) /\
    (forall m src, is_Some (suppressions w !! (m, SiteExplorer, src)) -> m ∈ S) /\
    forall m src, is_Some (suppressions w !! (m, SiteExplorer, src)) -> (forall a, a ∈ ips m -> in_flight w !! a = None) ->
      acked (m, SiteExplorer, src) (suppressions w').
Proof.
  unfold acknowledge_site_explorer_suppressions. rewrite run_mbind, run_select. cbn [fst snd].
  set (rows := find_all_by_subsystem _ _). rewrite run_mbind, run_try, run_mbind.
  destruct (claim_idle_run (remove_dups ((fun x => x.1.1.1) <$> filter (fun x => acknowledged_at x.2 = None) rows)) w)
    as (w1 & acks & -> & H1 & H2). cbn [fst snd]. set (p := if decide (acks = []) then _ else _).
  assert (Hp : exists w2, run p w1 = (w2, Ok ()) /\
    forall k, acked k (suppressions w1) \/ (k.1.1 ∈ acks /\ k.1.2 = SiteExplorer /\ is_Some (suppressions w1 !! k)) ->
      acked k (suppressions w2)).
  { subst p. case_decide as E.
    - exists w1. split; [done|]. intros k [?|[Hk _]]; [done|]. rewrite E in Hk. by apply not_elem_of_nil in Hk.
    - rewrite run_mbind, run_begin. cbn [fst snd]. rewrite run_query. eexists. split; [done|]. cbn [fst snd].
      intros [[m ?] src] [?|(Hk & Hs & Hr)]; simpl in *; [by apply acked_acknowledge_unacknowledged|]. subst.
      by apply acknowledge_unacknowledged_row. }
  destruct Hp as (w2 & -> & H3). cbn [fst snd]. exists (cleanup Run w2), (list_to_set ((fun x => x.1.1.1) <$> rows)).
  split_and!; [by rewrite run_mbind|by intros m src [r Hr]; eapply elem_of_list_to_set, find_all_by_subsystem_macs|].
  intros m src [r Hr] Hf. simpl. apply H3. rewrite H1.
  destruct (acknowledged r) eqn:Ea; [left; by exists r|right]. split_and!; [|done|by eexists].
  apply H2; [|done]. apply elem_of_remove_dups, list_elem_of_fmap. exists ((m, SiteExplorer, src), r). split; [done|].
  apply list_elem_of_filter. split; [by apply bool_decide_eq_false, eq_None_not_Some in Ea|].
  unfold rows, find_all_by_subsystem. rewrite (merge_sort_Permutation row_le). apply list_elem_of_filter. split; [done|].
  by apply elem_of_map_to_list.
Qed.

(** C12: When a controller has asked for a pause and nobody probes the addresses of
    its BMCs, one run of the site explorer whose calls succeed acknowledges the
    request, and the controller may proceed, whatever other requests there are, if no
    address is in the table of interfaces twice and nothing comes between the three. *)
Theorem pause_is_granted macs src w :
  (forall m a, m ∈ macs -> a ∈ ips m -> in_flight w !! a = None) ->
  exists w1 d w2 S w3, run (gate_before_credential_change macs src) w = (w1, Ok d) /\
    run (acknowledge_site_explorer_suppressions addresses) w1 = (w2, Ok S) /\ (forall m, m ∈ macs -> m ∈ S) /\
    run (gate_before_credential_change macs src) w2 = (w3, Ok Proceed).
Proof.
  intros Hf. destruct (decide (macs = [])) as [->|Hm].
  - destruct (acknowledge_run w) as (w2 & S & Ha & _). exists w, Proceed, w2, S, w2. split_and!; [done..| |done].
    by intros m ?%not_elem_of_nil.
  - destruct (gate_run macs src w Hm) as (d & Hg & _). set (w1 := set_suppressions _ w) in Hg.
    assert (Hrow : forall m, m ∈ macs -> is_Some (suppressions w1 !! (m, SiteExplorer, src))) by (intros m; apply upserts_row).
    destruct (acknowledge_run w1) as (w2 & S & Ha & HS & Hk). destruct (gate_run macs src w2 Hm) as (d' & Hg' & Hd).
    rewrite Hd in Hg' by (intros m Hin; apply Hk; [by apply Hrow|intros a; by apply Hf]).
    do 5 eexists. split_and!; [exact Hg|exact Ha|intros m Hin; by eapply HS, Hrow|exact Hg'].
Qed.
End Granted.
End PauseTheorems.
