(* ===== verification/PauseExamples.v ===== *)
(** * PauseExamples: pauses of one BMC

    A site with one BMC: the instances of the theorems of [PauseTheorems], a refresh
    that slips past an acknowledged pause, and a run that outlasts the budget. *)

From S2P Require Import Prelude BTree IpNetwork StateHandler Interleave CredentialRotation ExplorationPlan ExplorerPause PauseTheorems.
Import StateHandler Interleave CredentialRotation ExplorerPause PauseTheorems.

Module PauseExamples.

Definition bmc : string := "02:00:00:00:00:01".
Definition address : IpAddr := V4 1.
Definition one_bmc : list ExploredEndpoints.MachineInterfaceSnapshot := [ExploredEndpoints.mk_interface bmc [address] 0].
Definition no_shelf (a : IpAddr) : bool := false.
(** A host that answers two requests of a probe and one of its ingestion. *)
Definition usual : circumstances :=
  mk_circumstances (fun _ => true) 10 (fun _ => false) (fun _ => true) [] (fun _ => Ok HostEndpoint) (fun _ => 2%nat)
    (fun _ => 0%nat) (fun _ => 1%nat) (fun _ => true) (fun _ => []) (fun _ => 0%nat) (fun _ => 1%nat).
Definition rotated (src : BmcSuppressionSource) (o : nat) : list string :=
  if decide (src = BmcCredentialRotation /\ o = 0%nat) then [bmc] else [].

Lemma one_bmc_addresses : NoDup (snd <$> interface_addresses one_bmc).
Proof. apply NoDup_singleton. Qed.
Lemma rotated_one_owner src o o' m : m ∈ rotated src o -> m ∈ rotated src o' -> o = o'.
Proof.
  unfold rotated. intros Ho Ho'. destruct (decide _) as [[_ ->]|] in Ho; [|by apply not_elem_of_nil in Ho].
  by destruct (decide _) as [[_ ->]|] in Ho'; [|apply not_elem_of_nil in Ho'].
Qed.

Abbreviation start := (may_start one_bmc no_shelf rotated).
Abbreviation reached := (pause_reachable one_bmc no_shelf rotated 0).
Definition controller : thread := Control BmcCredentialRotation 0.
Definition done (n : nat) : list reply := repeat Done n.

Definition a_run : prog site unit := ending (explore_site one_bmc no_shelf usual).
Definition a_refresh : prog site unit := ending (refresh_endpoint_report one_bmc no_shelf 0 address 1 (Ok HostEndpoint)).
Definition a_tick : prog site unit := ending (change_tick controller [bmc] BmcCredentialRotation 1 false).

Lemma run_starts : start Run a_run.
Proof. apply start_run. Qed.
Lemma refresh_starts : start (Refresh 0) a_refresh.
Proof. apply (start_refresh _ _ _ 0 address 1 (Ok HostEndpoint)). Qed.
Lemma tick_starts : start controller a_tick.
Proof. exact (start_control one_bmc no_shelf rotated BmcCredentialRotation 0 1 false). Qed.

(** A thread that runs its first calls and ends, among others that wait. *)
Lemma one_turn i n p w ps :
  ps !! i = None -> start i p ->
  rtc (pause_step one_bmc no_shelf rotated) (mk_system w ps) (mk_system (cleanup i (exec (done n) p w).1) ps).
Proof. apply (episode _ cleanup). Qed.

Lemma pause_steps_trans (s1 s2 s3 : pause_system) :
  rtc (pause_step one_bmc no_shelf rotated) s1 s2 -> rtc (pause_step one_bmc no_shelf rotated) s2 s3 ->
  rtc (pause_step one_bmc no_shelf rotated) s1 s3.
Proof. apply rtc_trans. Qed.

(** ** A refresh that slips past *)

(** The refresh has found no request, and has not claimed the address. *)
Definition explored_once : site := cleanup Run (exec (done 30) a_run (quiet 0)).1.
Definition waiting : pause_system := play [(Refresh 0, done 5)] (mk_system explored_once {[ Refresh 0 := a_refresh ]}).
Definition asked : site := cleanup controller (exec (done 9) a_tick (shared waiting)).1.
Definition answered : site := cleanup Run (exec (done 30) a_run asked).1.
Definition underway : site := cleanup controller (exec (done 3) a_tick answered).1.
Definition slipped : pause_system := play [(Refresh 0, done 2)] (mk_system underway (running waiting)).

Lemma slipped_reached : reached slipped.
Proof.
  apply pause_steps_trans with (mk_system explored_once ∅); [exact (one_turn Run 30 a_run (quiet 0) ∅ eq_refl run_starts)|].
  eapply rtc_l; [apply (step_start _ _ explored_once ∅ (Refresh 0) a_refresh); [done|exact refresh_starts]|].
  apply pause_steps_trans with waiting; [apply play_steps|].
  apply pause_steps_trans with (mk_system asked (running waiting)); [exact (one_turn controller 9 a_tick (shared waiting) (running waiting) eq_refl tick_starts)|].
  apply pause_steps_trans with (mk_system answered (running waiting)); [exact (one_turn Run 30 a_run asked (running waiting) eq_refl run_starts)|].
  apply pause_steps_trans with (mk_system underway (running waiting)); [exact (one_turn controller 3 a_tick answered (running waiting) eq_refl tick_starts)|].
  apply play_steps.
Qed.

(** C39: A refresh that an operator asks for looks for requests before it claims the
    address. A request that is made and acknowledged in between does not stop it: it
    contacts the BMC while its credentials are changed. *)
Theorem refresh_slips_past_pause :
  exists s, reached s /\ (Refresh 0, bmc, true) ∈ disturbed (shared s).
Proof.
  exists slipped. split; [exact slipped_reached|].
  assert (E : disturbed (shared slipped) = [(Refresh 0, bmc, true)]) by (vm_compute; reflexivity). rewrite E. left.
Qed.

Example pause_keeps_runs_out_witness :
  (forall m, (Run, m, true) ∉ disturbed (shared slipped)) /\ cut_short (shared slipped) = [].
Proof.
  exact (pause_keeps_runs_out one_bmc no_shelf rotated one_bmc_addresses rotated_one_owner 0 slipped slipped_reached).
Defined.

(** ** A run that outlasts the budget *)

(** The run has begun to probe when the request is made. *)
Definition probing : pause_system := play [(Run, done 8)] (mk_system (quiet 0) {[ Run := a_run ]}).
Definition unanswered : site := cleanup controller (exec (done 9) a_tick (shared probing)).1.
Definition later : site := cleanup Clock (exec (done 1) (Act (fun _ w => (set_clock (clock w + 301 * nanos) w, ())) Ret) unanswered).1.
Definition impatient : site := cleanup controller (exec (done 9) a_tick later).1.
Definition outlasted : pause_system := play [(Run, done 1)] (mk_system impatient (running probing)).

(** C40: A run that takes longer than the budget of 300 seconds is not disabled: the
    controller that waits for it proceeds, and the run goes on probing the BMC while
    its credentials are changed. *)
Theorem run_outlasts_pause :
  exists s, reached s /\ (Run, bmc, false) ∈ disturbed (shared s).
Proof.
  exists outlasted. split.
  - eapply rtc_l; [apply (step_start _ _ (quiet 0) ∅ Run a_run); [done|exact run_starts]|].
    apply pause_steps_trans with probing; [apply play_steps|].
    apply pause_steps_trans with (mk_system unanswered (running probing)); [exact (one_turn controller 9 a_tick (shared probing) (running probing) eq_refl tick_starts)|].
    apply pause_steps_trans with (mk_system later (running probing)).
    { apply (one_turn Clock 1 _ unanswered (running probing) eq_refl). by apply start_clock. }
    apply pause_steps_trans with (mk_system impatient (running probing)); [exact (one_turn controller 9 a_tick later (running probing) eq_refl tick_starts)|].
    apply play_steps.
  - assert (E : disturbed (shared outlasted) = [(Run, bmc, false)]) by (vm_compute; reflexivity). rewrite E. left.
Qed.

Example pause_is_granted_witness :
  exists w1 d w2 S w3, run (gate_before_credential_change [bmc] BmcCredentialRotation) (quiet 0) = (w1, Ok d) /\
    run (acknowledge_site_explorer_suppressions (interface_addresses one_bmc)) w1 = (w2, Ok S) /\ (forall m, m ∈ [bmc] -> m ∈ S) /\
    run (gate_before_credential_change [bmc] BmcCredentialRotation) w2 = (w3, Ok Proceed).
Proof.
  apply (pause_is_granted (interface_addresses one_bmc)).
  - apply NoDup_singleton.
  - reflexivity.
Defined.
End PauseExamples.
